(* ===== verification/_CoqProject ===== *)
-Q . S2P
Prelude.v
Bytes.v
VersionVector.v
Framing.v
Messages.v
Windows.v
Pathnorm.v
Hashing.v
FileInfo.v
Tree.v
Oracle.v
Differ.v
Conflict.v
Scanner.v
Disk.v
Transfer.v
Replica.v
Engine.v
Story.v
Invariant.v
Reconcile.v
Progress.v
Work.v
Converge.v
Local.v
Puller.v
Discovery.v
Debounce.v
Transport.v
Link.v
Persist.v
Main.v
Watcher.v
Service.v
Listener.v
Provenance.v
Rpc.v
Tls.v
Probe.v
Teardown.v
Storm.v
Peace.v
Room.v
Catchup.v
Sync.v
Ordered.v
Party.v
Duo.v
Branch.v
