(* ===== verification/Prelude.v ===== *)
(** * Merkle Sync: a verification development

    The program keeps a directory in step between two devices. Each device keeps
    one record per path (content hash, version vector, deletion flag), hashes the
    records into a Merkle tree, exchanges records and root hashes over an
    authenticated connection, compares trees, resolves every difference by causal
    order, and fetches what it lacks in blocks. This library models the Go packages under
    src/internal and the daemon src/cmd/msync, and proves what makes them correct.

    ** Parts and files

    Wire and data (src/internal/protocol, src/internal/pathnorm, src/internal/merkle):
    - [Bytes]: byte strings, big-endian integers, the string helpers of Go.
    - [VersionVector]: versionvector.go, vectors as sorted lists of counters.
    - [Framing]: framing.go, frames over a reader that returns arbitrary chunks.
    - [Messages]: messages.go and deviceid.go, the messages and their buffers.
    - [Windows], [Pathnorm]: windows.go, pathnorm.go, normalize.go, casefold.go.
    - [Hashing]: the class [Digest] that stands for SHA-256.
    - [FileInfo]: fileinfo.go and codec.go, records and their two encodings.
    - [Tree], [Oracle], [Branch]: node.go and tree.go, what equal root hashes mean, and
      which nodes an update touches.
    - [Differ]: differ.go, the pruned tree comparison.
    - [Scanner], [Disk]: scanner.go, hash.go and the start-up of engine.go over an
      abstract disk.
    Reconciliation (src/internal/reconcile):
    - [Conflict]: apply.go and conflict.go, the total resolver.
    - [Transfer]: transfer.go, block arithmetic, verified writes, fetch and serve.
    - [Replica]: broadcast.go, tombstone.go and the pure parts of engine.go.
    - [Engine]: engine.go, one record of state, one function per handler of the
      select loop, [puller_step] and [server_step] for the per-peer goroutines, and
      [step], their interleaving with a user who may change the disk at any time.
    - [Story]: closed runs of two engines. The theorems about the engine are in
      [Invariant] (its state), [Reconcile] and [Progress] (what one reconciliation does
      and that it leaves nothing undone), [Work] and [Puller] (fetch tasks), [Local]
      (change detection), [Provenance] (where versions come from), [Converge] (what a
      quiet pair of devices agrees on), [Sync] and [Duo] (that devices without a conflict
      get there): [Peace] says what each path becomes, [Room] when an installation finds
      room on the disk, [Catchup] is the invariant, the announcements and the measure of
      a device that adopts an index. [Storm] is the opposite case, one conflict over and
      over.
    - [Duo] is the whole of it, two engines and a link each way, each puller answered by
      the other's server from its own disk, every move in any order. [Ordered] says what
      two sets of records with ordered histories become, [Party] what one device keeps
      up for the other while it moves.
    - [Rpc]: requestChunk and fetchOverWire against routeResponse, block by block, with
      the rest of the engine running in between. [Probe]: probeCaseSensitive.
    - [Debounce]: scanloop.go. [Watcher]: watcher.go and startWatcher, the watched
      directories and the channels between the kernel's events and the select loop.
    Devices (src/internal/discovery, src/internal/transport, src/cmd/msync):
    - [Discovery]: announce.go, registry.go and the datagram filter of discovery.go.
      [Service]: the rest of discovery.go and multicast.go, and [Teardown]: its four
      goroutines, Close and teardown as steps of [disco_step].
    - [Transport]: tls.go, transport.go and conn.go, with every goroutine action as
      one step of [exec]. [Tls]: the configurations given to crypto/tls. [Listener]:
      listener.go, dial.go and the teardown.
    - [Link]: a node, that is a transport and an engine, joined by the event queue.
    - [Persist]: snapshot.go and identity.go, files replaced by temporary and rename
      with every state a crash leaves. [Main]: cmd/msync/main.go.

    A Go map is a [gmap] (iteration order is the map's own, and the properties do
    not depend on it), a struct a record, an error a value of [Result], a w-bit
    integer a [Z] with its wrap-around written out by [wrap], a shared object an
    entry of a store (peer states in [e_states], connections in [t_heap]).

    ** What the theorems show

    - No loss: [Reconcile.reconcile_no_loss], [Puller.coupled_copy_first],
      [Conflict.resolve_no_content_loss], [Transfer.materialise_verified],
      [Transfer.atomicWriteVerify_crash_safe]: content leaves the disk only when a
      deletion that dominates it is applied, and conflict copies come first.
    - Convergence: [Conflict.resolve_converges] for one path, [Oracle.RootHash_oracle]
      and [Differ] for trees, [Tree.Update_is_rebuild] and
      [Branch.Update_minimal_branch] for the incremental tree, and
      [Converge.quiet_converged] for two devices with nothing left to say.
      [Sync.catches_up]: a device that heard an index it can adopt takes at most two
      turns per differing path, in any order of its goroutines, and then holds the goal
      of every path on record and on disk. [Duo.devices_synchronise]: two devices that
      connect end, whatever the order of their moves, after two moves for the INDEXes
      and two for each path at which they differ, with the newer records and contents on
      both sides, every deletion collected and equal root hashes.
    - Progress: [Progress.reconcile_complete], [Work.inflight_backed],
      [Work.pulling_terminates]: a difference is handled, queued or refused for a
      stated reason, a mark in flight is backed by work, and work ends.
    - Hints: [Watcher.watcher_covers], [Watcher.edits_recorded]: a directory
      without a watch lies below one at which a call failed or an event was lost, and no
      event read is lost before the engine records what is on disk.
    - No echo: [Reconcile.reconcile_no_sync_loop], [Local.onLocalChange_correct].
    - Source of truth: [Local.rescan_delta_correct], [Scanner.restart_correct].
    - State: [Invariant.reachable_consistent], [Replica] for tombstones, counters
      and reseeding.
    - Clocks: [Provenance.foreign_counters_heard], [Provenance.held_versions_tidy]: a
      device writes its own counter only, and every vector it holds is well formed,
      through restarts and whatever it is sent.
    - Requests: [Rpc.fetch_refines]: the concurrent stop-and-wait exchange is the
      sequential loop over some network, each block filled from its own answer.
    - Trust boundary: the decoders of [VersionVector], [FileInfo], [Messages],
      [Framing], [Discovery] and the keys of [Pathnorm] on arbitrary bytes.
    - Connections: [Transport] for authentication, event order, stream delivery,
      bounded sending and close causes; [Tls.mutual_authentication];
      [Link.peers_follow_transport] for the engine's peers; [Listener.no_leaked_listener].
    - Discovery: [Service.discovery_live], [Teardown.service_refines_registry] (the
      concurrent service computes the registry and loses no event) and
      [Teardown.Close_returns].
    - What is on disk: [Persist.SaveSnapshot_crash_safe], [Persist.identity_stable],
      [Main.run_correct].
    - [Story.recreated_file_is_deleted], [Story.concurrent_edit_lost], [Link.zombie_peer], [Main.identities_merge],
      [Main.snapshot_never_settles], [Watcher.decomposed_name_flaps],
      [VersionVector.Bump_overflow], [Scanner.mode_drift_is_permanent],
      [Storm.winner_never_rests], [Storm.conflict_storm] (the winner of a conflict
      fetches and announces its copy again without end) and [Transfer.numBlocks_covers]
      exhibit behaviour the code does not intend.

    ** Bounds and fuel

    [search_loop] runs on the length of the searched range, [diffNodes] on the
    height of the taller tree, decoders on the announced count, [dispatched] on the
    number of bytes; each file proves that this is enough. Channel depths (256 and 64
    tasks, 256 completions, 256 keys, 64 events, 64 outbound messages) are those of the
    code. [e_completions] is the channel followed by what the senders blocked on it
    hold: a puller that is [sending] takes no step, and [cp_sender], which the code does
    not have, says whose send it is. A coupled task reports at most twice, the second
    time right behind the first. [rounds] of [Main] is a count of rescans, for any
    number of them.

    ** Assumptions and limits

    Parameters: Unicode normalisation and case folding (class [Unicode], with the
    documented laws [UnicodeLaws], the inertness of the full stop under NFC included); the digest (class [Digest]; where the code relies
    on SHA-256 having no collision a theorem says so of the finitely many strings it
    hashes); what lies behind a symbolic link (classes [OS] and [LinkOS]); encoding/gob
    (class [Gob], its round trip [GobLaws]); crypto/x509 and PEM (class [Certs], laws
    [CertsLaws]); crypto/tls (class [TLSStack], laws [TLSLaws]: a
    handshake that completed used a version both allow and passed the callbacks of both,
    and one between two honest sides completes when nothing of that is missing). The disk is a map from
    canonical keys to entries on a case-sensitive POSIX host. One puller task is one
    step of the model, although the code may handle other events between its reads and
    its rename; the disk may change arbitrarily between steps.

    Failures. Every step of an installation may fail as the code's calls may (creating
    the directory or the temporary file, writing, syncing, closing, renaming, opening or
    reading a local source): [Yield] is what the wire and the local copy give. Only the
    removal of a temporary file or of a deleted file is taken to succeed. A snapshot may
    fail to be written (the argument of [saveSnapshot]). The kernel may drop an event,
    and the calls of addTree that ignore an error may fail: [wa_missed] records the
    directory below which watches may be missing, and [Watcher.watcher_covers] says that
    watches are missing nowhere else. [e_sent] is what the engine hands to Send; that
    Send sheds a message when its buffer is full, and then closes the connection, is
    [Transport.Send_sheds].

    Convergence of one path ([leaf_pair]) is for canonical keys without a colon or a
    backslash, and for records that, if their content or deletion flag differs, differ in
    modification time or hash; a device keeps the mode of
    the file it wrote, so that agreement of the mode bits, and with it of the root
    hashes, is for records that had the same mode ([same_modes]) and the theorems of
    [Conflict] and [Converge] say so. The theorems of [Sync]
    and [Duo] ask that nothing is in conflict, that no path lies below another, that
    what is fetched are regular files the disk has room for, that the trees on the way
    have no hash collision ([peace], [agreeable]; [compatible], [able]) and that the
    volume is case-sensitive and no reseeding is due ([Replica]). [Sync] assumes that the peer serves what it advertised
    ([serves]) and lets no further message arrive; [Duo] proves the one and has the
    other, with histories that are ordered path by path and a fetch in one move (the
    exchange of its blocks is [Rpc]). In both nobody edits in between.

    Not modelled: sockets, TLS itself, the fsnotify package and the kernel (their
    documented outcomes are inputs or environment steps), timers and contexts (their
    firing is a step or an input), logging, package flag and signals, accessors and
    String methods, command-line parsing, and the helpers of the tests under src/test. *)
From stdpp Require Export base tactics list numbers gmap strings sorting relations.
From Stdlib Require Export ZArith Lia Ascii Bool.

#[export] Set Default Goal Selector "!".

(** ** Results of fallible Go functions: a value, or an error value. *)
Inductive Result (E A : Type) : Type :=
| Ok (a : A)
| Err (e : E).
Arguments Ok {E A} a.
Arguments Err {E A} e.

Definition rbind {E A B} (m : Result E A) (k : A → Result E B) : Result E B :=
  match m with Ok a => k a | Err e => Err e end.

Definition rmap {E A B} (f : A → B) (m : Result E A) : Result E B :=
  match m with Ok a => Ok (f a) | Err e => Err e end.

Definition is_ok {E A} (m : Result E A) : bool :=
  match m with Ok _ => true | Err _ => false end.

Lemma Ok_inj {E A} (a b : A) : @Ok E A a = Ok b → a = b.
Proof. by intros [= ->]. Qed.

Lemma rbind_Ok {E A B} (m : Result E A) (k : A → Result E B) b :
  rbind m k = Ok b ↔ ∃ a, m = Ok a ∧ k a = Ok b.
Proof.
  destruct m as [a | e]; simpl; split; [eauto | by intros (a' & [= ->] & Hk) | done | by intros (a' & ? & _)].
Qed.

Declare Scope go_scope.
Delimit Scope go_scope with go.
Notation "'let!' x ':=' m 'in' k" := (rbind m (λ x, k))
  (at level 200, x pattern, m at level 100, k at level 200,
   format "'let!'  x  ':='  m  'in' '//' k") : go_scope.
Notation "'go!' s" := (String.list_ascii_of_string s%string)
  (at level 1, s at level 0, format "'go!'  s") : go_scope.
Open Scope go_scope.

Open Scope Z_scope.

(** ** Machine integers: [w]-bit unsigned values as [Z] with explicit wrap-around *)
Definition wrap (w z : Z) : Z := z mod 2 ^ w.
Definition in_width (w z : Z) : Prop := 0 ≤ z < 2 ^ w.

#[export] Instance in_width_dec w z : Decision (in_width w z).
Proof. unfold in_width. apply _. Defined.

Lemma wrap_small w z : in_width w z → wrap w z = z.
Proof. intros H. by apply Z.mod_small. Qed.
Lemma wrap_in_width w z : 0 ≤ w → in_width w (wrap w z).
Proof. intros H. apply Z.mod_pos_bound. by apply Z.pow_pos_nonneg. Qed.

(** [2^w] unfolded to a literal so that [lia] can use it. *)
Ltac width := unfold in_width, wrap in *; repeat match goal with
  | |- context [2 ^ ?w] => let v := eval vm_compute in (2 ^ w) in change (2 ^ w) with v
  | H : context [2 ^ ?w] |- _ => let v := eval vm_compute in (2 ^ w) in change (2 ^ w) with v in H
  end.

(** ** [sort.Search]: Go's binary search for the first index of [0,n) where [f] holds.

    The loop halves [[i,j)], so [n] iterations are always enough
    ([search_loop_correct]). *)
Fixpoint search_loop (fuel : nat) (f : nat → bool) (i j : nat) : nat :=
  match fuel with
  | O => i
  | S fuel' =>
    if (i <? j)%nat then
      let h := ((i + j) / 2)%nat in
      if negb (f h) then search_loop fuel' f (h + 1)%nat j
      else search_loop fuel' f i h
    else i
  end.
Definition sort_Search (n : nat) (f : nat → bool) : nat := search_loop n f 0 n.

Lemma search_loop_correct f fuel i j n k :
  (∀ a b, (a ≤ b)%nat → (b < n)%nat → f a = true → f b = true) →
  (k ≤ n)%nat → (∀ a, (a < k)%nat → f a = false) → (∀ a, (k ≤ a < n)%nat → f a = true) →
  (i ≤ k ≤ j)%nat → (j ≤ n)%nat → (j - i ≤ fuel)%nat → search_loop fuel f i j = k.
Proof.
  intros Hmono Hk Hlo Hhi. revert i j.
  induction fuel as [|fuel IH]; intros i j Hij Hjn Hf; cbn [search_loop]; [lia |].
  destruct (Nat.ltb_spec i j); [| lia]. cbv zeta.
  set (h := ((i + j) / 2)%nat).
  assert (i ≤ h < j)%nat as Hh.
  { unfold h. split; [apply Nat.div_le_lower_bound; lia | apply Nat.Div0.div_lt_upper_bound; lia]. }
  clearbody h. destruct (f h) eqn:Hfh; cbn [negb].
  - apply IH; [| lia | lia]. split; [lia |].
    destruct (Nat.le_gt_cases k h); [done |]. rewrite Hlo in Hfh by lia. done.
  - apply IH; [| lia | lia]. split; [| lia].
    destruct (Nat.lt_ge_cases h k); [lia |]. rewrite Hhi in Hfh by lia. done.
Qed.

Lemma sort_Search_spec n f k :
  (k ≤ n)%nat → (∀ a, (a < k)%nat → f a = false) → (∀ a, (k ≤ a < n)%nat → f a = true) →
  sort_Search n f = k.
Proof.
  intros Hk Hlo Hhi. apply (search_loop_correct f n 0 n n k); try done; [| lia | lia].
  intros a b Hab Hb Ha. destruct (Nat.lt_ge_cases a k); [by rewrite Hlo in Ha | apply Hhi; lia].
Qed.

(** ** Case analysis on integer comparisons, in the goal and the hypotheses *)
Ltac zcase_on t spec_true spec_false :=
  let H := fresh "Hz" in
  destruct t eqn:H; rewrite ?H in *; [apply spec_true in H | apply spec_false in H].
Ltac zcase := match goal with
  | |- context [?a <=? ?b] => zcase_on (a <=? b) Z.leb_le Z.leb_gt
  | |- context [?a <? ?b] => zcase_on (a <? b) Z.ltb_lt Z.ltb_ge
  | |- context [?a =? ?b] => zcase_on (a =? b) Z.eqb_eq Z.eqb_neq
  | H : context [?a <=? ?b] |- _ => zcase_on (a <=? b) Z.leb_le Z.leb_gt
  | H : context [?a <? ?b] |- _ => zcase_on (a <? b) Z.ltb_lt Z.ltb_ge
  | H : context [?a =? ?b] |- _ => zcase_on (a =? b) Z.eqb_eq Z.eqb_neq
  end; simpl in *; try discriminate; try lia.
Ltac zcases := repeat zcase.

(** ** Sorted lists by position *)
Lemma StronglySorted_at {A} (R : A → A → Prop) l i j a b :
  StronglySorted R l → (i < j)%nat → l !! i = Some a → l !! j = Some b → R a b.
Proof.
  intros Hs. revert i j. induction Hs as [|x l Hs IH Hx]; intros i j Hij; [done |].
  destruct j as [|j]; [lia |]. destruct i as [|i]; simpl.
  - intros [= <-] Hj. rewrite Forall_forall in Hx. apply Hx. by eapply list_elem_of_lookup_2.
  - apply IH. lia.
Qed.
