(* ===== verification/Bytes.v ===== *)
(** * Bytes: Go's byte strings and big-endian integers

    Both [string] and [[]byte] of the source are modelled by [bytes], a list of
    8-bit characters.  The file has the conversions between bytes and integers,
    the big-endian words of [encoding/binary], the bytewise order of
    [bytes.Compare] and of Go's string comparison, and the functions of package
    [strings] that the source calls (Split, Join, HasPrefix, TrimRight ...). *)
From S2P Require Import Prelude.

Open Scope Z_scope.

Notation byte := ascii (only parsing).
Notation bytes := (list ascii) (only parsing).

(** ** Bytes as integers *)

Definition Z_of_byte (c : byte) : Z := Z.of_N (N_of_ascii c).
Definition byte_of_Z (z : Z) : byte := ascii_of_N (Z.to_N (z mod 256)).

Lemma Z_of_byte_range c : 0 ≤ Z_of_byte c < 256.
Proof. unfold Z_of_byte. pose proof (N_ascii_bounded c). lia. Qed.

Lemma Z_of_byte_of_Z z : Z_of_byte (byte_of_Z z) = z mod 256.
Proof.
  unfold Z_of_byte, byte_of_Z. pose proof (Z.mod_pos_bound z 256 eq_refl).
  rewrite N_ascii_embedding; lia.
Qed.

Lemma byte_of_Z_of_byte c : byte_of_Z (Z_of_byte c) = c.
Proof.
  unfold byte_of_Z. rewrite Z.mod_small by apply Z_of_byte_range.
  unfold Z_of_byte. rewrite N2Z.id. apply ascii_N_embedding.
Qed.

#[export] Instance Z_of_byte_inj : Inj (=) (=) Z_of_byte.
Proof. intros a b H. rewrite <- (byte_of_Z_of_byte a), H. apply byte_of_Z_of_byte. Qed.

#[export] Hint Rewrite Z_of_byte_of_Z byte_of_Z_of_byte : bytes.
#[export] Hint Resolve Z_of_byte_range : bytes.

(** ** Big-endian words: [binary.BigEndian.AppendUint16/32/64] and [Uint16/32/64].

    [be_enc n v] is the [n]-byte big-endian encoding of [v] (truncated to [n]
    bytes as Go's conversions truncate), [be_dec] the value of a byte string. *)

Fixpoint be_enc (n : nat) (v : Z) : bytes :=
  match n with
  | O => []
  | S n' => byte_of_Z (Z.shiftr v (8 * Z.of_nat n')) :: be_enc n' v
  end.

Fixpoint be_dec_acc (acc : Z) (b : bytes) : Z :=
  match b with
  | [] => acc
  | c :: b' => be_dec_acc (Z.lor (Z.shiftl acc 8) (Z_of_byte c)) b'
  end.
Definition be_dec (b : bytes) : Z := be_dec_acc 0 b.

Lemma lor_shiftl_add acc c : 0 ≤ c < 256 → Z.lor (Z.shiftl acc 8) c = acc * 256 + c.
Proof.
  intros Hc. pose proof (Z.add_lor_land (Z.shiftl acc 8) c) as Hadd.
  assert (Z.land (Z.shiftl acc 8) c = 0) as Hland.
  { apply Z.bits_inj'. intros n Hn. rewrite Z.land_spec, Z.bits_0.
    destruct (decide (n < 8)).
    - rewrite Z.shiftl_spec_low; [done | lia].
    - destruct (decide (c = 0)) as [-> | Hz]; [by rewrite Z.bits_0, andb_false_r |].
      rewrite (Z.bits_above_log2 c n), andb_false_r; [done | lia |].
      assert (Z.log2 c < 8); [apply Z.log2_lt_pow2; lia | lia]. }
  rewrite Z.shiftl_mul_pow2 in * by lia. change (2 ^ 8) with 256 in *. lia.
Qed.

Lemma be_dec_acc_cons acc c b : be_dec_acc acc (c :: b) = be_dec_acc (acc * 256 + Z_of_byte c) b.
Proof. simpl. by rewrite lor_shiftl_add by apply Z_of_byte_range. Qed.

Lemma be_dec_acc_eq b acc : be_dec_acc acc b = acc * 256 ^ Z.of_nat (length b) + be_dec b.
Proof.
  unfold be_dec. revert acc. induction b as [|c b IH]; intros acc.
  - simpl. lia.
  - rewrite !be_dec_acc_cons, IH, (IH (0 * 256 + Z_of_byte c)).
    simpl length. rewrite Nat2Z.inj_succ, Z.pow_succ_r by lia. ring.
Qed.

Lemma be_dec_cons c b : be_dec (c :: b) = Z_of_byte c * 256 ^ Z.of_nat (length b) + be_dec b.
Proof. unfold be_dec at 1. rewrite be_dec_acc_cons, be_dec_acc_eq. lia. Qed.

Lemma be_dec_range b : 0 ≤ be_dec b < 256 ^ Z.of_nat (length b).
Proof.
  induction b as [|c b IH]; [unfold be_dec; simpl; lia |].
  rewrite be_dec_cons. simpl length.
  rewrite Nat2Z.inj_succ, Z.pow_succ_r by lia.
  pose proof (Z_of_byte_range c). nia.
Qed.

Lemma length_be_enc n v : length (be_enc n v) = n.
Proof. induction n; simpl; congruence. Qed.

Lemma be_dec_enc n v : be_dec (be_enc n v) = v mod 256 ^ Z.of_nat n.
Proof.
  induction n as [|n IH]; [unfold be_dec; simpl; by rewrite Z.mod_1_r |].
  cbn [be_enc]. rewrite be_dec_cons, length_be_enc, IH, Z_of_byte_of_Z.
  rewrite Z.shiftr_div_pow2 by lia.
  rewrite Z.pow_mul_r by lia. change (2 ^ 8) with 256.
  rewrite Nat2Z.inj_succ, Z.pow_succ_r by lia.
  rewrite (Z.mul_comm 256 _), Z.rem_mul_r by lia. lia.
Qed.

Lemma be_dec_enc_small n v : 0 ≤ v < 256 ^ Z.of_nat n → be_dec (be_enc n v) = v.
Proof. intros H. by rewrite be_dec_enc, Z.mod_small. Qed.

Lemma be_dec_inj b1 b2 : length b1 = length b2 → be_dec b1 = be_dec b2 → b1 = b2.
Proof.
  revert b2. induction b1 as [|c1 b1 IH]; intros [|c2 b2]; try discriminate; [done |].
  intros Hlen H. simpl in Hlen. injection Hlen as Hlen.
  rewrite !be_dec_cons, Hlen in H.
  pose proof (be_dec_range b1). pose proof (be_dec_range b2). rewrite Hlen in *.
  set (p := 256 ^ Z.of_nat (length b2)) in *.
  pose proof (Z_of_byte_range c1). pose proof (Z_of_byte_range c2).
  assert (Z_of_byte c1 = Z_of_byte c2) by nia.
  f_equal; [by apply (inj Z_of_byte) | apply IH; [done | nia]].
Qed.

Lemma be_enc_dec n b : length b = n → be_enc n (be_dec b) = b.
Proof.
  intros <-. apply be_dec_inj; [apply length_be_enc |].
  apply be_dec_enc_small, be_dec_range.
Qed.

Lemma be_enc_inj n v w :
  0 ≤ v < 256 ^ Z.of_nat n → 0 ≤ w < 256 ^ Z.of_nat n → be_enc n v = be_enc n w → v = w.
Proof. intros Hv Hw H. apply (f_equal be_dec) in H. by rewrite !be_dec_enc_small in H. Qed.

Lemma take_be_enc n v rest : take n (be_enc n v ++ rest) = be_enc n v.
Proof. apply take_app_length'. by rewrite length_be_enc. Qed.
Lemma drop_be_enc n v rest : drop n (be_enc n v ++ rest) = rest.
Proof. apply drop_app_length'. by rewrite length_be_enc. Qed.

Arguments be_enc : simpl never.
Arguments be_dec : simpl never.
#[export] Hint Rewrite length_be_enc take_be_enc drop_be_enc : bytes.

(** ** Bytewise order: [bytes.Compare] and Go's [<] on strings *)

Fixpoint bytes_cmp (a b : bytes) : comparison :=
  match a, b with
  | [], [] => Eq
  | [], _ :: _ => Lt
  | _ :: _, [] => Gt
  | x :: a', y :: b' =>
    match Z.compare (Z_of_byte x) (Z_of_byte y) with
    | Eq => bytes_cmp a' b'
    | c => c
    end
  end.

Definition bytes_ltb (a b : bytes) : bool :=
  match bytes_cmp a b with Lt => true | _ => false end.
Definition bytes_le (a b : bytes) : Prop := bytes_cmp a b ≠ Gt.

#[export] Instance bytes_le_dec : RelDecision bytes_le.
Proof. intros a b. unfold bytes_le. apply _. Defined.

Lemma bytes_cmp_refl a : bytes_cmp a a = Eq.
Proof. induction a as [|x a IH]; simpl; [done |]. by rewrite Z.compare_refl. Qed.

Lemma bytes_cmp_eq a b : bytes_cmp a b = Eq ↔ a = b.
Proof.
  split; [| intros ->; apply bytes_cmp_refl].
  revert b. induction a as [|x a IH]; intros [|y b]; simpl; try discriminate; [done |].
  destruct (Z.compare_spec (Z_of_byte x) (Z_of_byte y)) as [He | |]; try discriminate.
  intros H. f_equal; [by apply (inj Z_of_byte) | by apply IH].
Qed.

Lemma bytes_cmp_antisym a b : bytes_cmp b a = CompOpp (bytes_cmp a b).
Proof.
  revert b. induction a as [|x a IH]; intros [|y b]; simpl; try done.
  rewrite (Z.compare_antisym (Z_of_byte x)).
  destruct (Z.compare (Z_of_byte x) (Z_of_byte y)); simpl; auto.
Qed.

Lemma bytes_cmp_trans_le a b c : bytes_le a b → bytes_le b c → bytes_le a c.
Proof.
  unfold bytes_le. revert b c.
  induction a as [|x a IH]; intros [|y b] [|z c]; simpl; try done.
  destruct (Z.compare_spec (Z_of_byte x) (Z_of_byte y)),
    (Z.compare_spec (Z_of_byte y) (Z_of_byte z)),
    (Z.compare_spec (Z_of_byte x) (Z_of_byte z)); try done; try lia.
  apply IH.
Qed.

#[export] Instance bytes_le_refl : Reflexive bytes_le.
Proof. intros a. unfold bytes_le. by rewrite bytes_cmp_refl. Qed.
#[export] Instance bytes_le_trans : Transitive bytes_le.
Proof. intros a b c. apply bytes_cmp_trans_le. Qed.
#[export] Instance bytes_le_antisymm : AntiSymm (=) bytes_le.
Proof.
  intros a b H1 H2. unfold bytes_le in *. rewrite bytes_cmp_antisym in H2.
  apply bytes_cmp_eq. by destruct (bytes_cmp a b).
Qed.
#[export] Instance bytes_le_total : Total bytes_le.
Proof.
  intros a b. unfold bytes_le. rewrite (bytes_cmp_antisym a b).
  destruct (bytes_cmp a b); simpl; auto.
Qed.

(** On strings of equal length the bytewise order is the numeric order of the
    big-endian values: this is why hashes may be compared as byte strings. *)
Lemma bytes_cmp_be_dec a b :
  length a = length b → bytes_cmp a b = Z.compare (be_dec a) (be_dec b).
Proof.
  revert b. induction a as [|x a IH]; intros [|y b]; try discriminate; [done |].
  intros Hlen. simpl in Hlen. injection Hlen as Hlen. cbn [bytes_cmp].
  rewrite !be_dec_cons, Hlen. pose proof (be_dec_range a). pose proof (be_dec_range b).
  rewrite Hlen in *. set (p := 256 ^ Z.of_nat (length b)) in *.
  destruct (Z.compare_spec (Z_of_byte x) (Z_of_byte y)) as [He | Hlt | Hgt].
  - rewrite IH, He by done. symmetry.
    destruct (Z.compare_spec (be_dec a) (be_dec b)); [apply Z.compare_eq_iff | apply Z.compare_lt_iff | apply Z.compare_gt_iff]; lia.
  - symmetry. apply Z.compare_lt_iff. nia.
  - symmetry. apply Z.compare_gt_iff. nia.
Qed.

(** ** Package [strings] *)

Fixpoint split_on (c : byte) (s : bytes) : list bytes :=
  match s with
  | [] => [[]]
  | x :: s' =>
    if decide (x = c) then [] :: split_on c s'
    else match split_on c s' with
         | h :: t => (x :: h) :: t
         | [] => [[x]]
         end
  end.

Fixpoint join_with (sep : bytes) (l : list bytes) : bytes :=
  match l with
  | [] => []
  | [s] => s
  | s :: l' => s ++ sep ++ join_with sep l'
  end.

Fixpoint has_prefix (p s : bytes) : bool :=
  match p, s with
  | [], _ => true
  | x :: p', y :: s' => bool_decide (x = y) && has_prefix p' s'
  | _ :: _, [] => false
  end.

Definition has_suffix (p s : bytes) : bool := has_prefix (rev p) (rev s).

Fixpoint trim_left_byte (c : byte) (s : bytes) : bytes :=
  match s with
  | x :: s' => if decide (x = c) then trim_left_byte c s' else s
  | [] => []
  end.
(** [strings.TrimRight(s, cutset)] for a one-byte cutset. *)
Definition trim_right_byte (c : byte) (s : bytes) : bytes := rev (trim_left_byte c (rev s)).

(** [strings.TrimSuffix]. *)
Definition trim_suffix (s p : bytes) : bytes :=
  if has_suffix p s then take (length s - length p) s else s.

(** [strings.IndexByte], -1 being [None]. *)
Fixpoint index_byte (s : bytes) (c : byte) : option nat :=
  match s with
  | [] => None
  | x :: s' => if decide (x = c) then Some 0%nat else S <$> index_byte s' c
  end.

(** [strings.ReplaceAll] for one-byte patterns. *)
Definition replace_byte (c d : byte) (s : bytes) : bytes :=
  (λ x, if decide (x = c) then d else x) <$> s.

Lemma split_on_nonempty c s : split_on c s ≠ [].
Proof. destruct s as [|x s]; simpl; [done |]. repeat case_match; done. Qed.

Lemma join_split c s : join_with [c] (split_on c s) = s.
Proof.
  induction s as [|x s IH]; simpl; [done |].
  pose proof (split_on_nonempty c s) as Hne.
  case_decide as Hx; [subst x |].
  - destruct (split_on c s) as [|h t]; [done |]. simpl in *. by rewrite IH.
  - destruct (split_on c s) as [|h [|h' t]]; simpl in *; [done | by subst | by rewrite <- IH].
Qed.

Lemma split_on_notin c s : c ∉ s → split_on c s = [s].
Proof.
  induction s as [|x s IH]; simpl; [done |]. intros Hn.
  rewrite not_elem_of_cons in Hn. destruct Hn as [Hx Hs].
  rewrite decide_False by congruence. by rewrite IH.
Qed.

Lemma split_on_app c s t :
  c ∉ s → split_on c (s ++ c :: t) = s :: split_on c t.
Proof.
  induction s as [|x s IH]; simpl; intros Hn.
  - by rewrite decide_True.
  - rewrite not_elem_of_cons in Hn. destruct Hn as [Hx Hs].
    rewrite decide_False by congruence. by rewrite IH.
Qed.

Lemma split_join c l :
  l ≠ [] → Forall (λ s, c ∉ s) l → split_on c (join_with [c] l) = l.
Proof.
  intros Hne Hl. induction Hl as [|s l Hs Hl IH]; [done |].
  destruct l as [|s' l]; simpl; [by apply split_on_notin |].
  rewrite split_on_app by done. f_equal. by apply IH.
Qed.

Lemma split_on_no_sep c s : Forall (λ x, c ∉ x) (split_on c s).
Proof.
  induction s as [|x s IH]; simpl; [repeat constructor; apply not_elem_of_nil |].
  case_decide as Hx; [constructor; [apply not_elem_of_nil | done] |].
  destruct (split_on c s) as [|h t].
  - repeat constructor. by apply not_elem_of_cons; split; [congruence | apply not_elem_of_nil].
  - inversion IH; subst. constructor; [| done]. apply not_elem_of_cons; split; congruence.
Qed.

Lemma split_on_inj c s t : split_on c s = split_on c t → s = t.
Proof. intros H. rewrite <- (join_split c s), H. apply join_split. Qed.

Lemma has_prefix_spec p s : has_prefix p s = true ↔ ∃ t, s = p ++ t.
Proof.
  revert s. induction p as [|x p IH]; intros s; simpl.
  - split; [by exists s | done].
  - destruct s as [|y s]; [split; [done | by intros [t Ht]] |].
    rewrite andb_true_iff, bool_decide_eq_true, IH. split.
    + intros [-> [t ->]]. by exists t.
    + intros [t Ht]. injection Ht as -> ->. eauto.
Qed.

(** ** Go slice expressions [b[i:j]] on bytes *)
Definition slice (b : bytes) (i n : nat) : bytes := take n (drop i b).

Lemma slice_app_r b1 b2 n : slice (b1 ++ b2) (length b1) n = take n b2.
Proof. unfold slice. by rewrite drop_app_length. Qed.
