(* ===== verification/VersionVector.v ===== *)
(** * VersionVector: per-file causal clocks (internal/protocol/versionvector.go)

    A vector is the list of its counters, as in the source.  [canonical] is the
    representation invariant (ids strictly ascending, no zero value).  A
    canonical vector denotes a finite-support clock [Get vv : ShortID → count];
    the theorems show that Merge, Bump and Compare compute the pointwise
    maximum, the increment and the causal order of the denotations. *)
From S2P Require Import Prelude Bytes.

Notation ShortID := Z (only parsing).

(** ** Data *)

Inductive Ordering : Type := Equal | Dominates | DominatedBy | Concurrent.

#[export] Instance Ordering_eq_dec : EqDecision Ordering.
Proof. solve_decision. Defined.

Record Counter := mkCounter { ID : ShortID; Value : Z }.
Add Printing Constructor Counter.

#[export] Instance Counter_eq_dec : EqDecision Counter.
Proof. solve_decision. Defined.

Notation VersionVector := (list Counter) (only parsing).

Inductive VVError : Type :=
| VVShortCount        (* fewer than 2 bytes for the count *)
| VVShortCounters     (* fewer bytes than the count announces *)
| VVZeroValue (i : nat)
| VVNotAscending (i : nat).

Record canonical (vv : VersionVector) : Prop := mkCanonical {
  canon_sorted : StronglySorted Z.lt (ID <$> vv);
  canon_nonzero : Forall (λ c, 0 < Value c) vv
}.

(** Every field within 64 bits. *)
Definition vv_width (vv : VersionVector) : Prop :=
  Forall (λ c, in_width 64 (ID c) ∧ in_width 64 (Value c)) vv.

(** ** Operations *)

(** [NewVersionVector]: the map's entries with zero counters dropped, sorted by id. *)
Definition Counter_le (a b : Counter) : Prop := ID a ≤ ID b.
#[export] Instance Counter_le_dec : RelDecision Counter_le.
Proof. intros a b. unfold Counter_le. apply _. Defined.

Definition NewVersionVector (m : gmap ShortID Z) : VersionVector :=
  merge_sort Counter_le
    ((λ '(id, v), mkCounter id v) <$> filter (λ '(_, v), v ≠ 0) (map_to_list m)).

(** The predicate [vv[i].ID >= id] of the binary searches. *)
Definition id_at_least (vv : VersionVector) (id : ShortID) (i : nat) : bool :=
  match vv !! i with Some c => id <=? ID c | None => true end.

Definition search (vv : VersionVector) (id : ShortID) : nat :=
  sort_Search (length vv) (id_at_least vv id).

Definition Get (vv : VersionVector) (id : ShortID) : Z :=
  let i := search vv id in
  match vv !! i with
  | Some c => if ID c =? id then Value c else 0
  | None => 0
  end.

Definition Bump (vv : VersionVector) (self : ShortID) : VersionVector :=
  let i := search vv self in
  match vv !! i with
  | Some c =>
    if ID c =? self then <[i := mkCounter self (wrap 64 (Value c + 1))]> vv
    else take i vv ++ mkCounter self 1 :: drop i vv
  | None => take i vv ++ mkCounter self 1 :: drop i vv
  end.

(** The loop state [(i, j)] is the pair of suffixes [vv[i:]], [other[j:]]. *)
Fixpoint Merge (vv : VersionVector) : VersionVector → VersionVector :=
  fix merge_other (other : VersionVector) : VersionVector :=
    match vv, other with
    | [], _ => other
    | _, [] => vv
    | a :: vv', b :: other' =>
      if ID a <? ID b then a :: Merge vv' other
      else if ID b <? ID a then b :: merge_other other'
      else
        let v := if Value a <? Value b then Value b else Value a in
        mkCounter (ID a) v :: Merge vv' other'
    end.

Definition verdict (aGreater bGreater : bool) : Ordering :=
  match aGreater, bGreater with
  | false, false => Equal
  | true, false => Dominates
  | false, true => DominatedBy
  | true, true => Concurrent
  end.

(** The lock-step walk; both flags set ends the loop early with [Concurrent]. *)
Fixpoint compare_loop (vv : VersionVector) : bool → bool → VersionVector → Ordering :=
  fix compare_other (aGreater bGreater : bool) (other : VersionVector) {struct other} : Ordering :=
    if aGreater && bGreater then Concurrent else
    match vv, other with
    | [], [] => verdict aGreater bGreater
    | [], _ :: _ => verdict aGreater true
    | _ :: _, [] => verdict true bGreater
    | a :: vv', b :: other' =>
      if ID a <? ID b then compare_loop vv' true bGreater other
      else if ID b <? ID a then compare_other aGreater true other'
      else compare_loop vv' (aGreater || (Value b <? Value a))
                            (bGreater || (Value a <? Value b)) other'
    end.
Definition Compare (vv other : VersionVector) : Ordering := compare_loop vv false false other.

Definition IsEqual (vv other : VersionVector) : bool :=
  bool_decide (length vv = length other) &&
  forallb (λ '(a, b), bool_decide (a = b)) (zip vv other).

(** The [count:u16 || (id:u64 || value:u64)*] grammar; the count is truncated to 16 bits. *)
Definition encode_counter (c : Counter) : bytes := be_enc 8 (ID c) ++ be_enc 8 (Value c).
Definition Encode (vv : VersionVector) : bytes :=
  be_enc 2 (wrap 16 (Z.of_nat (length vv))) ++ concat (encode_counter <$> vv).

(** The decoding loop over [count] counters at the front of [b]; [i] is the loop
    index and [prev] the previous id. *)
Fixpoint decode_counters (count i : nat) (prev : ShortID) (b : bytes) : Result VVError VersionVector :=
  match count with
  | O => Ok []
  | S count' =>
    let id := be_dec (slice b 0 8) in
    let val := be_dec (slice b 8 8) in
    if val =? 0 then Err (VVZeroValue i)
    else if (0 <? i)%nat && (id <=? prev) then Err (VVNotAscending i)
    else let! out := decode_counters count' (S i) id (drop 16 b) in
         Ok (mkCounter id val :: out)
  end.

Definition DecodeVersionVector (b : bytes) : Result VVError (VersionVector * nat) :=
  if (length b <? 2)%nat then Err VVShortCount else
  let count := Z.to_nat (be_dec (take 2 b)) in
  let need := (2 + count * 16)%nat in
  if (length b <? need)%nat then Err VVShortCounters
  else let! out := decode_counters count 0 0 (drop 2 b) in Ok (out, need).

(** ** The denotation: linear lookup, the reference for the binary search *)

Fixpoint vget (vv : VersionVector) (id : ShortID) : Z :=
  match vv with
  | [] => 0
  | c :: vv' => if ID c =? id then Value c else vget vv' id
  end.

Definition exceeds (a b : VersionVector) : Prop := ∃ id, vget b id < vget a id.

(** ** Canonical vectors *)

Lemma canonical_nil : canonical [].
Proof. split; constructor. Qed.

Lemma canonical_cons c vv :
  canonical (c :: vv) ↔ 0 < Value c ∧ Forall (λ d, ID c < ID d) vv ∧ canonical vv.
Proof.
  split.
  - intros [Hs Hn]. cbn in Hs. inversion Hs as [|? ? Hs' Hlt]; subst.
    inversion Hn as [|? ? Hp Hn']; subst. rewrite Forall_fmap in Hlt. by repeat split.
  - intros (Hp & Hlt & [Hs Hn]). split; [| by constructor].
    cbn. constructor; [done | by rewrite Forall_fmap].
Qed.

Lemma vget_below vv id : Forall (λ d, id < ID d) vv → vget vv id = 0.
Proof.
  induction 1 as [|d vv Hd _ IH]; simpl; [done |].
  destruct (Z.eqb_spec (ID d) id); [lia | done].
Qed.

Lemma vget_nonneg vv id : Forall (λ c, 0 < Value c) vv → 0 ≤ vget vv id.
Proof. induction 1; simpl; [lia |]. case_match; lia. Qed.

Lemma Forall_ID_lt_trans x y (vv : VersionVector) :
  x ≤ y → Forall (λ d, y < ID d) vv → Forall (λ d, x < ID d) vv.
Proof. intros Hxy Hf. eapply Forall_impl; [done |]. cbn. lia. Qed.

(** [below]: all ids of a tail are above a bound. *)
Ltac below := match goal with
  | H : Forall (λ d, ?y < ID d) ?vv |- Forall (λ d, ?x < ID d) ?vv =>
    apply (Forall_ID_lt_trans x y vv); [lia | exact H]
  | |- Forall _ (_ :: _) => constructor; [lia | below]
  end.
Ltac canon := repeat match goal with
  | H : canonical (_ :: _) |- _ =>
    apply canonical_cons in H; destruct H as (? & ? & H)
  end.

(** Two canonical vectors with the same denotation are the same list. *)
Lemma vv_ext a b : canonical a → canonical b → (∀ id, vget a id = vget b id) → a = b.
Proof.
  revert b. induction a as [|x a IH]; intros [|y b] Ha Hb Hext; canon; [done | | |].
  - specialize (Hext (ID y)). simpl in Hext. rewrite Z.eqb_refl in Hext. lia.
  - specialize (Hext (ID x)). simpl in Hext. rewrite Z.eqb_refl in Hext. lia.
  - assert (ID x = ID y) as Hxy.
    { pose proof (Hext (ID x)) as Hg1. pose proof (Hext (ID y)) as Hg2. simpl in Hg1, Hg2.
      rewrite Z.eqb_refl in Hg1, Hg2. destruct (Z.lt_trichotomy (ID x) (ID y)) as [Hc | [Hc | Hc]]; [| done |].
      - destruct (Z.eqb_spec (ID y) (ID x)); [lia |].
        rewrite (vget_below b) in Hg1 by eauto using Forall_ID_lt_trans, Z.lt_le_incl. lia.
      - destruct (Z.eqb_spec (ID x) (ID y)); [lia |].
        rewrite (vget_below a) in Hg2 by eauto using Forall_ID_lt_trans, Z.lt_le_incl. lia. }
    assert (x = y) as ->.
    { specialize (Hext (ID x)). simpl in Hext. rewrite <- Hxy, Z.eqb_refl in Hext.
      destruct x, y; simpl in *; congruence. }
    f_equal. apply IH; [done | done |]. intros id. specialize (Hext id). simpl in Hext.
    destruct (Z.eqb_spec (ID y) id) as [He |]; [rewrite <- He | done].
    by rewrite !vget_below.
Qed.

(** ** Get: the binary search computes the linear lookup *)

Lemma canonical_lookup_lt vv i j a b :
  canonical vv → vv !! i = Some a → vv !! j = Some b → (i < j)%nat → ID a < ID b.
Proof.
  revert i j. induction vv as [|c vv IH]; intros [|i] [|j] Hc Hi Hj Hij; simpl in *; try done; try lia; canon.
  - injection Hi as <-. rewrite Forall_lookup in H0. eauto.
  - eapply IH; eauto with lia.
Qed.

(** The partition point of a canonical vector at [id]. *)
Fixpoint lower_bound (vv : VersionVector) (id : ShortID) : nat :=
  match vv with
  | [] => 0%nat
  | c :: vv' => if id <=? ID c then 0%nat else S (lower_bound vv' id)
  end.

Lemma search_lower_bound vv id : canonical vv → search vv id = lower_bound vv id.
Proof.
  intros Hc. unfold search. apply sort_Search_spec.
  - clear Hc. induction vv as [|c vv IH]; simpl; [done |]. case_match; lia.
  - intros a Ha. unfold id_at_least. revert vv Hc Ha.
    induction a as [|a IH]; intros [|c vv] Hc Ha; simpl in *; try lia; zcases.
    canon. apply IH; [done | lia].
  - intros a [Ha Hlt]. unfold id_at_least. revert vv Hc Ha Hlt.
    induction a as [|a IH]; intros [|c vv] Hc Ha Hlt; simpl in *; try lia; zcases; try done; canon.
    + destruct (vv !! a) as [d|] eqn:Hd; [| done].
      rewrite Forall_lookup in H0. specialize (H0 _ _ Hd). apply Z.leb_le. lia.
    + apply IH; [done | lia | lia].
Qed.

Lemma Get_vget vv id : canonical vv → Get vv id = vget vv id.
Proof.
  intros Hc. unfold Get. rewrite search_lower_bound by done.
  induction vv as [|c vv IH]; simpl; [done |]. canon.
  destruct (Z.leb_spec id (ID c)); simpl.
  - destruct (Z.eqb_spec (ID c) id); [done |]. symmetry. apply vget_below.
    eapply Forall_ID_lt_trans; [| done]. lia.
  - destruct (Z.eqb_spec (ID c) id); [lia |]. by apply IH.
Qed.

(** ** Bump *)

Lemma Bump_at vv self : canonical vv →
  Bump vv self =
    match vv !! lower_bound vv self with
    | Some c =>
      if ID c =? self then <[lower_bound vv self := mkCounter self (wrap 64 (Value c + 1))]> vv
      else take (lower_bound vv self) vv ++ mkCounter self 1 :: drop (lower_bound vv self) vv
    | None => take (lower_bound vv self) vv ++ mkCounter self 1 :: drop (lower_bound vv self) vv
    end.
Proof. intros Hc. unfold Bump. by rewrite search_lower_bound. Qed.

(** Bump as a structural recursion, the form the proofs use. *)
Fixpoint bump_list (vv : VersionVector) (self : ShortID) : VersionVector :=
  match vv with
  | [] => [mkCounter self 1]
  | c :: vv' =>
    if self <? ID c then mkCounter self 1 :: vv
    else if ID c =? self then mkCounter self (wrap 64 (Value c + 1)) :: vv'
    else c :: bump_list vv' self
  end.

Lemma Bump_list vv self : canonical vv → Bump vv self = bump_list vv self.
Proof.
  intros Hc. rewrite Bump_at by done.
  induction vv as [|c vv IH]; simpl; [done |]. canon. specialize (IH Hc).
  zcases; try done.
  rewrite <- IH. repeat case_match; done.
Qed.

Lemma vget_bump vv self id : canonical vv →
  vget (bump_list vv self) id =
    if self =? id then wrap 64 (vget vv self + 1) else vget vv id.
Proof.
  induction vv as [|c vv IH]; intros Hc; simpl; [done |]. canon. specialize (IH Hc).
  zcases; try done.
  rewrite (vget_below vv self) by (eapply Forall_ID_lt_trans; [| done]; lia). done.
Qed.

Lemma bump_below x vv self :
  x < self → Forall (λ d, x < ID d) vv → Forall (λ d, x < ID d) (bump_list vv self).
Proof.
  intros Hx. induction 1 as [|d vv Hd Hvv IH]; simpl; [by repeat constructor |].
  zcases; repeat constructor; done.
Qed.

Lemma bump_canonical vv self :
  canonical vv → vget vv self < 2 ^ 64 - 1 → canonical (bump_list vv self).
Proof.
  induction vv as [|c vv IH]; intros Hc Hb; simpl in *.
  - apply canonical_cons. split_and!; [done | constructor | apply canonical_nil].
  - canon. zcases; rewrite ?canonical_cons; split_and!; simpl; try done; try lia.
    all: try below.
    all: try (rewrite wrap_small by (width; lia); lia).
    all: first [by apply IH | by apply bump_below; [lia |]].
Qed.

(** ** Merge *)

Lemma Merge_nil_l b : Merge [] b = b.
Proof. by destruct b. Qed.
Lemma Merge_nil_r a : Merge a [] = a.
Proof. by destruct a. Qed.
Lemma Merge_cons x a y b :
  Merge (x :: a) (y :: b) =
    if ID x <? ID y then x :: Merge a (y :: b)
    else if ID y <? ID x then y :: Merge (x :: a) b
    else mkCounter (ID x) (if Value x <? Value y then Value y else Value x) :: Merge a b.
Proof. done. Qed.
Arguments Merge : simpl never.

(** Induction over the two suffixes, the shape of the merge and compare loops. *)
Lemma vv_pair_ind (P : VersionVector → VersionVector → Prop) :
  (∀ b, P [] b) → (∀ a, P a []) →
  (∀ x a y b, P a (y :: b) → P (x :: a) b → P a b → P (x :: a) (y :: b)) →
  ∀ a b, P a b.
Proof.
  intros H1 H2 H3 a. induction a as [|x a IHa]; [done |].
  intros b. induction b as [|y b IHb]; [done |]. by apply H3.
Qed.

Lemma Merge_below x a b :
  Forall (λ d, x < ID d) a → Forall (λ d, x < ID d) b → Forall (λ d, x < ID d) (Merge a b).
Proof.
  revert a b. apply (vv_pair_ind (λ a b, Forall _ a → Forall _ b → Forall _ (Merge a b))).
  - intros b. by rewrite Merge_nil_l.
  - intros a. by rewrite Merge_nil_r.
  - intros c a d b IH1 IH2 IH3 Ha Hb. rewrite Merge_cons.
    inversion Ha; inversion Hb; subst. zcases; constructor; auto.
Qed.

Lemma Merge_canonical_vget a b :
  canonical a → canonical b →
  canonical (Merge a b) ∧ ∀ id, vget (Merge a b) id = Z.max (vget a id) (vget b id).
Proof.
  revert a b. apply (vv_pair_ind (λ a b, canonical a → canonical b → canonical (Merge a b) ∧ _)).
  - intros b _ Hb. rewrite Merge_nil_l. split; [done |]. intros id. simpl.
    pose proof (vget_nonneg b id (canon_nonzero _ Hb)). lia.
  - intros a Ha _. rewrite Merge_nil_r. split; [done |]. intros id. simpl.
    pose proof (vget_nonneg a id (canon_nonzero _ Ha)). lia.
  - intros x a y b IH1 IH2 IH3 Ha Hb. rewrite Merge_cons.
    specialize (λ H, IH1 H Hb). specialize (IH2 Ha). canon.
    specialize (IH1 Ha). specialize (IH2 Hb). specialize (IH3 Ha Hb).
    zcases; rewrite canonical_cons; split_and!; simpl; try done; try tauto; try lia.
    all: try (apply Merge_below; below).
    all: intros id; try (rewrite (proj2 IH1)); try (rewrite (proj2 IH2)); try (rewrite (proj2 IH3)).
    all: simpl; zcases.
    all: try (rewrite ?(vget_below b id), ?(vget_below a id) by below; lia).
Qed.

(** ** Compare *)

Lemma compare_nil_l aG bG b :
  compare_loop [] aG bG b =
    if aG && bG then Concurrent else match b with [] => verdict aG bG | _ :: _ => verdict aG true end.
Proof. by destruct b. Qed.
Lemma compare_nil_r aG bG x a :
  compare_loop (x :: a) aG bG [] = if aG && bG then Concurrent else verdict true bG.
Proof. done. Qed.
Lemma compare_cons x a aG bG y b :
  compare_loop (x :: a) aG bG (y :: b) =
    if aG && bG then Concurrent
    else if ID x <? ID y then compare_loop a true bG (y :: b)
    else if ID y <? ID x then compare_loop (x :: a) aG true b
    else compare_loop a (aG || (Value y <? Value x)) (bG || (Value x <? Value y)) b.
Proof. done. Qed.
Arguments compare_loop : simpl never.

(** What a verdict means, for the propositions "a exceeds b" and "b exceeds a". *)
Definition verdict_spec (A B : Prop) (o : Ordering) : Prop :=
  match o with
  | Equal => ¬ A ∧ ¬ B
  | Dominates => A ∧ ¬ B
  | DominatedBy => ¬ A ∧ B
  | Concurrent => A ∧ B
  end.

#[export] Instance verdict_spec_proper : Proper (iff ==> iff ==> eq ==> iff) verdict_spec.
Proof. intros A A' HA B B' HB o ? <-. destruct o; simpl; tauto. Qed.

Lemma verdict_spec_fun A B o o' : verdict_spec A B o → verdict_spec A B o' → o = o'.
Proof. destruct o, o'; simpl; tauto. Qed.

Lemma exceeds_nil_l b : canonical b → ¬ exceeds [] b.
Proof. intros Hb [id Hid]. pose proof (vget_nonneg b id (canon_nonzero _ Hb)). simpl in Hid. lia. Qed.

Lemma exceeds_nil_r x a : canonical (x :: a) → exceeds (x :: a) [].
Proof. intros Ha. exists (ID x). canon. simpl. rewrite Z.eqb_refl. lia. Qed.

Lemma exceeds_head x a b :
  0 < Value x → Forall (λ d, ID x < ID d) b → exceeds (x :: a) b.
Proof. intros Hx Hb. exists (ID x). simpl. rewrite Z.eqb_refl, vget_below by done. lia. Qed.

Lemma exceeds_skip_r x a b :
  canonical (x :: a) → canonical b → Forall (λ d, ID x < ID d) b → exceeds b (x :: a) ↔ exceeds b a.
Proof.
  intros Ha Hb Hlt. canon. split; intros [id Hid]; exists id; simpl in *.
  - zcase; try done. subst id. rewrite (vget_below a) by done. rewrite (vget_below b) in * by done. lia.
  - zcase; try done. subst id. rewrite (vget_below b) in * by done.
    pose proof (vget_nonneg a (ID x) (canon_nonzero _ Ha)). lia.
Qed.

Lemma exceeds_same x a y b :
  canonical (x :: a) → canonical (y :: b) → ID x = ID y →
  exceeds (x :: a) (y :: b) ↔ Value y < Value x ∨ exceeds a b.
Proof.
  intros Ha Hb He. canon. split.
  - intros [id Hid]. simpl in Hid. rewrite He in Hid. zcase. right. by exists id.
  - intros [Hv | [id Hid]].
    + exists (ID x). simpl. rewrite <- He, Z.eqb_refl. done.
    + exists id. simpl. rewrite He. zcase; try done. subst id.
      rewrite !vget_below in Hid by (rewrite <- ?He; below). lia.
Qed.

Lemma compare_loop_spec a b : canonical a → canonical b → ∀ aG bG,
  verdict_spec (aG = true ∨ exceeds a b) (bG = true ∨ exceeds b a) (compare_loop a aG bG b).
Proof.
  revert a b. apply (vv_pair_ind (λ a b, canonical a → canonical b → ∀ aG bG, verdict_spec _ _ _)).
  - intros b Ha Hb aG bG. rewrite compare_nil_l. pose proof (exceeds_nil_l b Hb).
    destruct b as [|y b]; [| pose proof (exceeds_nil_r y b Hb)]; destruct aG, bG; simpl; naive_solver.
  - intros a Ha Hb aG bG. destruct a as [|x a].
    + rewrite compare_nil_l. pose proof (exceeds_nil_l [] Hb). destruct aG, bG; simpl; naive_solver.
    + rewrite compare_nil_r. pose proof (exceeds_nil_l _ Ha). pose proof (exceeds_nil_r x a Ha).
      destruct aG, bG; simpl; naive_solver.
  - intros x a y b IH1 IH2 IH3 Ha Hb aG bG. rewrite compare_cons.
    destruct (aG && bG) eqn:Hg; [apply andb_true_iff in Hg as [-> ->]; simpl; tauto |].
    destruct (proj1 (canonical_cons _ _) Ha) as (Hx & Hxa & Hta).
    destruct (proj1 (canonical_cons _ _) Hb) as (Hy & Hyb & Htb).
    destruct (Z.ltb_spec (ID x) (ID y)); [| destruct (Z.ltb_spec (ID y) (ID x))].
    + assert (Forall (λ d, ID x < ID d) (y :: b)) by below.
      specialize (IH1 Hta Hb true bG). rewrite (exceeds_skip_r x a) by done.
      pose proof (exceeds_head x a (y :: b)). eapply verdict_spec_proper, IH1; try done; tauto.
    + assert (Forall (λ d, ID y < ID d) (x :: a)) by below.
      specialize (IH2 Ha Htb aG true). rewrite (exceeds_skip_r y b) by done.
      pose proof (exceeds_head y b (x :: a)). eapply verdict_spec_proper, IH2; try done; tauto.
    + specialize (IH3 Hta Htb (aG || (Value y <? Value x)) (bG || (Value x <? Value y))).
      rewrite (exceeds_same x a), (exceeds_same y b) by (done || lia).
      eapply verdict_spec_proper, IH3; try done; rewrite orb_true_iff, Z.ltb_lt; tauto.
Qed.

Lemma Compare_vget a b : canonical a → canonical b →
  verdict_spec (exceeds a b) (exceeds b a) (Compare a b).
Proof.
  intros Ha Hb. pose proof (compare_loop_spec a b Ha Hb false false) as H.
  eapply verdict_spec_proper, H; [| | done]; naive_solver.
Qed.

(** The converse ordering. *)
Definition flip_ordering (o : Ordering) : Ordering :=
  match o with Dominates => DominatedBy | DominatedBy => Dominates | o => o end.

Lemma Compare_flip a b : canonical a → canonical b → Compare b a = flip_ordering (Compare a b).
Proof.
  intros Ha Hb. eapply verdict_spec_fun; [by apply Compare_vget |].
  pose proof (Compare_vget a b Ha Hb). destruct (Compare a b); simpl in *; tauto.
Qed.

Lemma not_exceeds a b : ¬ exceeds a b ↔ ∀ id, vget a id ≤ vget b id.
Proof.
  split; [| intros H [id Hid]; specialize (H id); lia].
  intros H id. destruct (Z.le_gt_cases (vget a id) (vget b id)); [done |].
  exfalso. apply H. by exists id.
Qed.

Lemma Compare_Equal a b : canonical a → canonical b → Compare a b = Equal ↔ a = b.
Proof.
  intros Ha Hb. pose proof (Compare_vget a b Ha Hb) as H. split.
  - intros He. rewrite He in H. destruct H as [H1 H2]. rewrite not_exceeds in H1, H2.
    apply vv_ext; [done | done |]. intros id. specialize (H1 id). specialize (H2 id). lia.
  - intros ->. destruct (Compare b b); simpl in H; [done | tauto | tauto |].
    destruct H as [[id Hid] _]. lia.
Qed.

Lemma Compare_Dominates a b : canonical a → canonical b →
  Compare a b = Dominates ↔ (∀ id, vget b id ≤ vget a id) ∧ a ≠ b.
Proof.
  intros Ha Hb. pose proof (Compare_vget a b Ha Hb) as H.
  rewrite <- not_exceeds, <- (Compare_Equal a b) by done.
  destruct (Compare a b); simpl in H; try (intuition congruence).
Qed.

Lemma Compare_DominatedBy a b : canonical a → canonical b →
  Compare a b = DominatedBy ↔ (∀ id, vget a id ≤ vget b id) ∧ a ≠ b.
Proof.
  intros Ha Hb. pose proof (Compare_vget a b Ha Hb) as H.
  rewrite <- not_exceeds, <- (Compare_Equal a b) by done.
  destruct (Compare a b); simpl in H; try (intuition congruence).
Qed.

Lemma Compare_Concurrent a b : canonical a → canonical b →
  Compare a b = Concurrent ↔ exceeds a b ∧ exceeds b a.
Proof.
  intros Ha Hb. pose proof (Compare_vget a b Ha Hb) as H.
  destruct (Compare a b); simpl in H; intuition congruence.
Qed.

(** ** Merge is the join of the causal order *)

Lemma Merge_canonical a b : canonical a → canonical b → canonical (Merge a b).
Proof. intros Ha Hb. apply (Merge_canonical_vget a b Ha Hb). Qed.
Lemma vget_Merge a b id : canonical a → canonical b → vget (Merge a b) id = Z.max (vget a id) (vget b id).
Proof. intros Ha Hb. apply (Merge_canonical_vget a b Ha Hb). Qed.
#[export] Hint Resolve Merge_canonical canonical_nil bump_canonical : vv.

Ltac vv_pointwise :=
  apply vv_ext; [eauto with vv | eauto with vv |];
  let id := fresh "id" in intros id; rewrite ?vget_Merge by eauto with vv; try lia.

Lemma Merge_comm a b : canonical a → canonical b → Merge a b = Merge b a.
Proof. intros. vv_pointwise. Qed.
Lemma Merge_assoc a b c : canonical a → canonical b → canonical c →
  Merge a (Merge b c) = Merge (Merge a b) c.
Proof. intros. vv_pointwise. Qed.
Lemma Merge_idemp a : canonical a → Merge a a = a.
Proof. intros. vv_pointwise. Qed.

Lemma Merge_absorb a b : canonical a → canonical b → (∀ id, vget a id ≤ vget b id) → Merge a b = b.
Proof. intros Ha Hb Hle. vv_pointwise. specialize (Hle id). lia. Qed.

(** ** Wire encoding *)

Lemma length_encode_counter c : length (encode_counter c) = 16%nat.
Proof. unfold encode_counter. by rewrite length_app, !length_be_enc. Qed.

Lemma length_encode_counters vv : length (concat (encode_counter <$> vv)) = (16 * length vv)%nat.
Proof.
  induction vv as [|c vv IH]; [done |]. cbn [fmap list_fmap concat].
  rewrite length_app, IH, length_encode_counter. simpl. lia.
Qed.

Lemma length_Encode vv : length (Encode vv) = (2 + 16 * length vv)%nat.
Proof. unfold Encode. by rewrite length_app, length_be_enc, length_encode_counters. Qed.

Lemma decode_counter_front c rest :
  in_width 64 (ID c) → in_width 64 (Value c) →
  be_dec (slice (encode_counter c ++ rest) 0 8) = ID c ∧
  be_dec (slice (encode_counter c ++ rest) 8 8) = Value c ∧
  drop 16 (encode_counter c ++ rest) = rest.
Proof.
  intros Hid Hv. unfold encode_counter, slice. rewrite drop_0, <- app_assoc. split_and!.
  - rewrite take_be_enc. by apply be_dec_enc_small.
  - rewrite drop_be_enc, take_be_enc. by apply be_dec_enc_small.
  - rewrite app_assoc, drop_app_length'; [done |]. by rewrite length_app, !length_be_enc.
Qed.

Lemma decode_counters_encode vv i prev rest :
  canonical vv → vv_width vv → (i = 0%nat ∨ Forall (λ d, prev < ID d) vv) →
  decode_counters (length vv) i prev (concat (encode_counter <$> vv) ++ rest) = Ok vv.
Proof.
  revert i prev. induction vv as [|c vv IH]; intros i prev Hc Hw Hp; [done |].
  cbn [length fmap list_fmap concat decode_counters]. rewrite <- app_assoc.
  inversion Hw as [|? ? [Hid Hv] Hw']; subst. canon.
  destruct (decode_counter_front c (concat (encode_counter <$> vv) ++ rest) Hid Hv) as (-> & -> & ->).
  destruct (Z.eqb_spec (Value c) 0); [lia |].
  assert ((0 <? i)%nat && (ID c <=? prev) = false) as ->.
  { apply andb_false_iff. destruct Hp as [-> | Hp]; [by left |]. inversion Hp; subst. right. lia. }
  rewrite IH by auto. by destruct c.
Qed.

Lemma Encode_Decode vv rest :
  canonical vv → vv_width vv → in_width 16 (Z.of_nat (length vv)) →
  DecodeVersionVector (Encode vv ++ rest) = Ok (vv, (2 + 16 * length vv)%nat).
Proof.
  intros Hc Hw Hlen.
  assert (be_dec (take 2 (Encode vv ++ rest)) = Z.of_nat (length vv)) as Hcount.
  { unfold Encode. rewrite <- app_assoc, take_be_enc, wrap_small by done. by apply be_dec_enc_small. }
  assert (drop 2 (Encode vv ++ rest) = concat (encode_counter <$> vv) ++ rest) as Hdrop.
  { unfold Encode. by rewrite <- app_assoc, drop_be_enc. }
  unfold DecodeVersionVector. rewrite length_app, length_Encode, Hcount, Nat2Z.id, Hdrop. cbv zeta.
  destruct (Nat.ltb_spec (2 + 16 * length vv + length rest) 2); [lia |].
  destruct (Nat.ltb_spec (2 + 16 * length vv + length rest) (2 + length vv * 16)); [lia |].
  rewrite decode_counters_encode by auto. cbn [rbind]. do 3 f_equal. lia.
Qed.

(** What the decoder accepts is canonical, within 64 bits, and is exactly the
    encoding of its result: the grammar has one encoding per vector. *)
Lemma decode_counters_sound count i prev b vv :
  (16 * count ≤ length b)%nat → decode_counters count i prev b = Ok vv →
  length vv = count ∧ canonical vv ∧ vv_width vv ∧
  take (16 * count) b = concat (encode_counter <$> vv) ∧
  ((0 < i)%nat → Forall (λ d, prev < ID d) vv).
Proof.
  revert i prev b vv. induction count as [|count IH]; intros i prev b vv Hlen H; cbn [decode_counters] in H.
  - injection H as <-. split_and!; try done; [apply canonical_nil | constructor].
  - set (id := be_dec (slice b 0 8)) in *. set (val := be_dec (slice b 8 8)) in *.
    destruct (Z.eqb_spec val 0); [done |].
    destruct ((0 <? i)%nat && (id <=? prev)) eqn:Hasc; [done |].
    destruct (decode_counters count (S i) id (drop 16 b)) as [out |] eqn:Hd; [| done].
    injection H as <-. apply IH in Hd as (Hl & Hc & Hw & Henc & Hgt); [| rewrite length_drop; lia].
    specialize (Hgt ltac:(lia)).
    assert (length (slice b 0 8) = 8%nat ∧ length (slice b 8 8) = 8%nat) as [Hl1 Hl2].
    { unfold slice. rewrite !length_take, !length_drop. lia. }
    pose proof (be_dec_range (slice b 0 8)) as Hr1. pose proof (be_dec_range (slice b 8 8)) as Hr2.
    rewrite Hl1 in Hr1. rewrite Hl2 in Hr2. fold id in Hr1. fold val in Hr2. change (256 ^ Z.of_nat 8) with (2 ^ 64) in *.
    split_and!.
    + simpl. by rewrite Hl.
    + apply canonical_cons. split_and!; [simpl; lia | done | done].
    + constructor; [split; done | done].
    + cbn [fmap list_fmap concat]. rewrite <- Henc. unfold encode_counter, id, val; cbn [ID Value].
      rewrite !be_enc_dec by done. unfold slice. rewrite drop_0.
      replace (16 * S count)%nat with (8 + (8 + 16 * count))%nat by lia.
      rewrite <- !take_take_drop, !drop_drop, <- app_assoc. done.
    + intros Hi. apply andb_false_iff in Hasc as [Hasc | Hasc]; [apply Nat.ltb_ge in Hasc; lia |].
      apply Z.leb_gt in Hasc. constructor; [done |]. eapply Forall_ID_lt_trans; [| done]. lia.
Qed.

Lemma Decode_sound b vv n :
  DecodeVersionVector b = Ok (vv, n) →
  canonical vv ∧ vv_width vv ∧ in_width 16 (Z.of_nat (length vv)) ∧
  n = (2 + 16 * length vv)%nat ∧ (n ≤ length b)%nat ∧ take n b = Encode vv.
Proof.
  unfold DecodeVersionVector. intros H.
  destruct (Nat.ltb_spec (length b) 2); [done |].
  set (count := Z.to_nat (be_dec (take 2 b))) in *.
  destruct (Nat.ltb_spec (length b) (2 + count * 16)); [done |].
  destruct (decode_counters count 0 0 (drop 2 b)) as [out |] eqn:Hd; [| done].
  injection H as <- <-.
  apply decode_counters_sound in Hd as (Hl & Hc & Hw & Henc & _); [| rewrite length_drop; lia].
  assert (length (take 2 b) = 2%nat) as Ht by (rewrite length_take; lia).
  pose proof (be_dec_range (take 2 b)) as Hr. rewrite Ht in Hr. change (256 ^ Z.of_nat 2) with 65536 in Hr.
  assert (Z.of_nat count = be_dec (take 2 b)) as Hcount by lia.
  split_and!; [done | done | width; lia | lia | done |].
  unfold Encode. rewrite Hl, Hcount, wrap_small by (width; lia). rewrite be_enc_dec by done.
  rewrite <- Henc, take_take_drop. f_equal. lia.
Qed.

(** ** Bump and the encoding, at the counter's maximum *)

Lemma bump_elem vv self : canonical vv →
  mkCounter self (wrap 64 (vget vv self + 1)) ∈ bump_list vv self.
Proof.
  induction vv as [|c vv IH]; intros Hc; simpl; [by apply list_elem_of_here |]. canon.
  zcases; try by apply list_elem_of_here.
  - rewrite vget_below by below. apply list_elem_of_here.
  - apply list_elem_of_further. by apply IH.
Qed.

Lemma bump_length vv self :
  canonical vv → vget vv self ≠ 0 → length (bump_list vv self) = length vv.
Proof.
  induction vv as [|c vv IH]; intros Hc Hz; simpl in *; [done |]. canon.
  zcases; [| by rewrite IH].
  by rewrite vget_below in Hz by below.
Qed.

Lemma bump_width vv self : in_width 64 self → vv_width vv → vv_width (bump_list vv self).
Proof.
  intros Hs. induction 1 as [|c vv Hc Hw IH]; simpl; [repeat constructor; cbn; width; lia |].
  assert (in_width 64 1) by (width; lia).
  zcases; repeat apply Forall_cons_2; try done; split; try done; try apply Hc.
  by apply wrap_in_width.
Qed.

Lemma encode_counter_inj c d :
  in_width 64 (ID c) ∧ in_width 64 (Value c) → in_width 64 (ID d) ∧ in_width 64 (Value d) →
  encode_counter c = encode_counter d → c = d.
Proof.
  intros [Hc1 Hc2] [Hd1 Hd2] H.
  pose proof (decode_counter_front c [] Hc1 Hc2) as (H1 & H2 & _).
  pose proof (decode_counter_front d [] Hd1 Hd2) as (H3 & H4 & _).
  rewrite H in H1, H2. destruct c, d; cbn [ID Value] in *; congruence.
Qed.

Lemma encode_counters_inj a b :
  vv_width a → vv_width b → length a = length b →
  concat (encode_counter <$> a) = concat (encode_counter <$> b) → a = b.
Proof.
  intros Ha. revert b. induction Ha as [|c a Hc Ha IH]; intros [|d b] Hb Hl; try done.
  inversion Hb as [|? ? Hd Hb']; subst. cbn [fmap list_fmap concat]. intros H.
  apply app_inj_1 in H as [H1 H2]; [| by rewrite !length_encode_counter].
  f_equal; [by apply encode_counter_inj | apply IH; [done | by injection Hl | done]].
Qed.

(** The encoding is injective on vectors within 64 bits, canonical or not. *)
Lemma Encode_inj a b : vv_width a → vv_width b → Encode a = Encode b → a = b.
Proof.
  intros Ha Hb H. assert (length a = length b) as Hl.
  { apply (f_equal length) in H. rewrite !length_Encode in H. lia. }
  unfold Encode in H. apply app_inj_1 in H as [_ H]; [| by rewrite !length_be_enc].
  by apply encode_counters_inj.
Qed.

(** Below the maximum, Bump increments the device's own counter and dominates. *)
Lemma Bump_step vv self :
  canonical vv → Get vv self < 2 ^ 64 - 1 →
  canonical (Bump vv self) ∧
  (∀ id, vget (Bump vv self) id = if self =? id then vget vv self + 1 else vget vv id) ∧
  Compare (Bump vv self) vv = Dominates.
Proof.
  intros Hc Hb. rewrite Bump_list by done. rewrite Get_vget in * by done.
  pose proof (bump_canonical vv self Hc Hb) as Hbc.
  pose proof (vget_nonneg vv self (canon_nonzero _ Hc)).
  assert (∀ id, vget (bump_list vv self) id = if self =? id then vget vv self + 1 else vget vv id) as Hv.
  { intros id. rewrite vget_bump by done. rewrite wrap_small; [done | width; lia]. }
  split_and!; [done | done |]. apply Compare_Dominates; [done | done |]. split.
  - intros id. rewrite Hv. destruct (Z.eqb_spec self id); subst; lia.
  - intros Heq. specialize (Hv self). rewrite Heq, Z.eqb_refl in Hv. lia.
Qed.

(** A closed vector is canonical, by computation. *)
Ltac vv_concrete := split; cbn; repeat constructor; cbn; lia.

(** * Properties *)

(** C37: Compare classifies two canonical vectors by their counters, a missing
    id counting as 0: Equal exactly when they are the same vector, Dominates
    when the receiver is at least the other everywhere and greater somewhere,
    DominatedBy the converse, Concurrent when each is greater somewhere; and
    swapping the arguments swaps Dominates and DominatedBy. *)
Theorem Compare_correct a b :
  canonical a → canonical b →
  match Compare a b with
  | Equal => a = b
  | Dominates => (∀ id, Get b id ≤ Get a id) ∧ ∃ id, Get b id < Get a id
  | DominatedBy => (∀ id, Get a id ≤ Get b id) ∧ ∃ id, Get a id < Get b id
  | Concurrent => (∃ id, Get b id < Get a id) ∧ ∃ id, Get a id < Get b id
  end ∧ Compare b a = flip_ordering (Compare a b).
Proof.
  intros Ha Hb. split; [| by apply Compare_flip].
  assert (∀ v id, canonical v → Get v id = vget v id) as HG by (intros; by apply Get_vget).
  pose proof (Compare_vget a b Ha Hb) as H. destruct (Compare a b) eqn:Ho; simpl in H.
  - by apply Compare_Equal.
  - rewrite not_exceeds in H. destruct H as [[id Hid] Hle].
    split; [intros i | exists id]; rewrite !HG by done; auto.
  - rewrite not_exceeds in H. destruct H as [Hle [id Hid]].
    split; [intros i | exists id]; rewrite !HG by done; auto.
  - destruct H as [[i Hi] [j Hj]]. split; [exists i | exists j]; by rewrite !HG.
Qed.

Lemma Compare_correct_witness :
  Compare [mkCounter 1 2; mkCounter 3 1] [mkCounter 1 1; mkCounter 3 1] = Dominates ∧
  Compare [mkCounter 1 1; mkCounter 3 1] [mkCounter 1 2; mkCounter 3 1] = DominatedBy.
Proof.
  split; [reflexivity |].
  refine (proj2 (Compare_correct [mkCounter 1 2; mkCounter 3 1] [mkCounter 1 1; mkCounter 3 1] _ _)); vv_concrete.
Defined.

(** Merge of two canonical vectors is canonical, its counters are the
    pointwise maxima, and it is the least upper bound of the two in the causal
    order: any vector that covers both covers the merge. *)
Theorem Merge_join a b :
  canonical a → canonical b →
  canonical (Merge a b) ∧
  (∀ id, Get (Merge a b) id = Z.max (Get a id) (Get b id)) ∧
  (∀ c, canonical c → Merge a c = c → Merge b c = c → Merge (Merge a b) c = c) ∧
  (∀ c, canonical c → Compare c a ∈ [Equal; Dominates] → Compare c b ∈ [Equal; Dominates] →
        Compare c (Merge a b) ∈ [Equal; Dominates]).
Proof.
  intros Ha Hb. pose proof (Merge_canonical a b Ha Hb) as Hm.
  split_and!; [done | | |].
  - intros id. by rewrite !Get_vget, vget_Merge by done.
  - intros c Hc H1 H2. by rewrite <- Merge_assoc, H2, H1 by done.
  - assert (∀ c d, canonical c → canonical d → (Compare c d ∈ [Equal; Dominates] ↔ ¬ exceeds d c)) as Hge.
    { intros c d Hc Hd. pose proof (Compare_vget c d Hc Hd) as H.
      rewrite !elem_of_cons, elem_of_nil. destruct (Compare c d); simpl in H; naive_solver. }
    intros c Hc. rewrite !Hge, !not_exceeds by done. intros H1 H2 id.
    rewrite vget_Merge by done. specialize (H1 id). specialize (H2 id). lia.
Qed.

Lemma Merge_join_witness :
  Merge [mkCounter 1 2; mkCounter 3 1] [mkCounter 2 5; mkCounter 3 4] = [mkCounter 1 2; mkCounter 2 5; mkCounter 3 4]
  ∧ canonical (Merge [mkCounter 1 2; mkCounter 3 1] [mkCounter 2 5; mkCounter 3 4]).
Proof.
  split; [reflexivity |].
  refine (proj1 (Merge_join [mkCounter 1 2; mkCounter 3 1] [mkCounter 2 5; mkCounter 3 4] _ _)); vv_concrete.
Defined.

(** Bump is a causal step: while the device's own counter is below the
    64-bit maximum, the result is canonical, the counter is one more (a missing
    counter starts at 1), every other counter is unchanged, and the result
    strictly dominates the old vector. *)
Theorem Bump_dominates vv self :
  canonical vv → Get vv self < 2 ^ 64 - 1 →
  canonical (Bump vv self) ∧
  (∀ id, Get (Bump vv self) id = if self =? id then Get vv self + 1 else Get vv id) ∧
  Compare (Bump vv self) vv = Dominates.
Proof.
  intros Hc Hb. destruct (Bump_step vv self Hc Hb) as (Hbc & Hv & Hd). split_and!; [done | | done].
  intros id. rewrite !Get_vget by done. apply Hv.
Qed.

Lemma Bump_dominates_witness :
  Bump [mkCounter 1 2; mkCounter 3 1] 2 = [mkCounter 1 2; mkCounter 2 1; mkCounter 3 1] ∧
  Compare (Bump [mkCounter 1 2; mkCounter 3 1] 2) [mkCounter 1 2; mkCounter 3 1] = Dominates.
Proof.
  split; [reflexivity |].
  refine (proj2 (proj2 (Bump_dominates [mkCounter 1 2; mkCounter 3 1] 2 _ _))); [vv_concrete | reflexivity].
Defined.

(** at the 64-bit maximum Bump wraps the counter to zero: the result is not
    canonical, and the peer's decoder refuses its encoding. *)
Theorem Bump_overflow vv self :
  canonical vv → vv_width vv → in_width 64 self → in_width 16 (Z.of_nat (length vv)) →
  Get vv self = 2 ^ 64 - 1 →
  mkCounter self 0 ∈ Bump vv self ∧ ¬ canonical (Bump vv self) ∧
  is_ok (DecodeVersionVector (Encode (Bump vv self))) = false.
Proof.
  intros Hc Hw Hself Hlen Hmax. rewrite Bump_list by done. rewrite Get_vget in Hmax by done.
  assert (mkCounter self 0 ∈ bump_list vv self) as Hin.
  { pose proof (bump_elem vv self Hc) as He. by rewrite Hmax in He. }
  assert (¬ canonical (bump_list vv self)) as Hnc.
  { intros [_ Hb]. rewrite Forall_forall in Hb. specialize (Hb _ Hin). cbn in Hb. lia. }
  split_and!; [done | done |].
  destruct (DecodeVersionVector _) as [[out n] |] eqn:Hd; [| done].
  exfalso. apply Hnc. apply Decode_sound in Hd as (Hco & Hwo & Hlo & Hn & Hnle & Henc).
  rewrite length_Encode in Hnle. pose proof (bump_length vv self Hc ltac:(lia)) as Hbl.
  assert (length out = length vv) as Hol.
  { unfold Encode in Henc at 2. apply (f_equal (take 2)) in Henc.
    rewrite take_be_enc, take_take in Henc. replace (2 `min` n)%nat with 2%nat in Henc by lia.
    unfold Encode in Henc. rewrite take_be_enc, Hbl, !wrap_small in Henc by done.
    apply be_enc_inj in Henc; [lia | done | done]. }
  rewrite take_ge in Henc by (rewrite length_Encode; lia).
  replace (bump_list vv self) with out; [done |]. symmetry.
  apply Encode_inj; [by apply bump_width | done | done].
Qed.

Lemma Bump_overflow_witness :
  Bump [mkCounter 7 (2 ^ 64 - 1)] 7 = [mkCounter 7 0] ∧
  is_ok (DecodeVersionVector (Encode (Bump [mkCounter 7 (2 ^ 64 - 1)] 7))) = false.
Proof.
  split; [reflexivity |].
  refine (proj2 (proj2 (Bump_overflow [mkCounter 7 (2 ^ 64 - 1)] 7 _ _ _ _ _)));
    [vv_concrete | repeat constructor; cbn; lia | split; lia | split; cbn; lia | reflexivity].
Defined.

(** decoding an encoded vector, with any bytes after it, returns the vector
    and the number of bytes it took. *)
Theorem VersionVector_roundtrip vv rest :
  canonical vv → vv_width vv → in_width 16 (Z.of_nat (length vv)) →
  DecodeVersionVector (Encode vv ++ rest) = Ok (vv, length (Encode vv)).
Proof. intros. rewrite length_Encode. by apply Encode_Decode. Qed.

Lemma VersionVector_roundtrip_witness :
  DecodeVersionVector (Encode [mkCounter 1 2; mkCounter 3 1] ++ go! "tail") =
    Ok ([mkCounter 1 2; mkCounter 3 1], 34%nat).
Proof.
  refine (VersionVector_roundtrip [mkCounter 1 2; mkCounter 3 1] (go! "tail") _ _ _);
    [vv_concrete | repeat constructor; cbn; lia | split; cbn; lia].
Defined.

(** the decoder is a trust boundary: whatever bytes it is given, a vector it
    accepts is canonical, within 64 bits, and its encoding is exactly the bytes
    consumed, so no two byte strings stand for the same vector. *)
Theorem DecodeVersionVector_sound b vv n :
  DecodeVersionVector b = Ok (vv, n) →
  canonical vv ∧ vv_width vv ∧ (n ≤ length b)%nat ∧ take n b = Encode vv.
Proof. intros H. apply Decode_sound in H. tauto. Qed.

Lemma DecodeVersionVector_sound_witness :
  let b := Encode [mkCounter 1 2] ++ go! "x" in
  DecodeVersionVector b = Ok ([mkCounter 1 2], 18%nat) ∧ take 18 b = Encode [mkCounter 1 2].
Proof.
  split; [reflexivity |].
  refine (proj2 (proj2 (proj2 (DecodeVersionVector_sound (Encode [mkCounter 1 2] ++ go! "x") [mkCounter 1 2] 18 _)))).
  reflexivity.
Defined.
