(* ===== verification/Framing.v ===== *)
(** * Framing: length-prefixed frames (internal/protocol/framing.go)

    A reader is modelled by the sequence of chunks its [Read] calls will
    return, so that a frame may arrive torn over any number of reads; [ReadFull]
    is [io.ReadFull].  A writer is the byte string written so far. *)
From S2P Require Import Prelude Bytes.

(** ** Constants *)
Definition MaxFrameLen : Z := Z.shiftl 16 20.
Definition FrameTypeLen : Z := 1.
Definition ResponseHeaderLen : Z := 5.
Definition MaxChunkLen : Z := MaxFrameLen - FrameTypeLen - ResponseHeaderLen.
Definition frameHeaderLen : nat := 4.

(** A message type is the byte's value. *)
Notation MsgType := Z (only parsing).
Definition MsgInvalid : MsgType := 0.

Inductive FrameError : Type :=
| EOF                (* io.EOF: nothing was read *)
| UnexpectedEOF      (* io.ErrUnexpectedEOF: the stream ended inside a read *)
| ErrFrameTooLarge
| ErrZeroLength.

#[export] Instance FrameError_eq_dec : EqDecision FrameError.
Proof. solve_decision. Defined.

(** ** Readers *)

Notation Reader := (list bytes) (only parsing).

(** [io.ReadFull(r, buf)] for a buffer with [need] bytes left to fill, [got]
    telling whether some were already read. *)
Fixpoint ReadFull (need : nat) (got : bool) (r : Reader) : Result FrameError bytes * Reader :=
  match r with
  | [] =>
    if (need =? 0)%nat then (Ok [], [])
    else (Err (if got then UnexpectedEOF else EOF), [])
  | c :: r' =>
    if (need <=? length c)%nat then (Ok (take need c), drop need c :: r')
    else
      let '(res, r'') := ReadFull (need - length c) (got || negb (length c =? 0)%nat) r' in
      (rmap (λ b, c ++ b) res, r'')
  end.

Definition ReadFrame (r : Reader) : Result FrameError (MsgType * bytes) * Reader :=
  match ReadFull frameHeaderLen false r with
  | (Err e, r1) => (Err e, r1)
  | (Ok hdr, r1) =>
    let length := be_dec hdr in
    if length =? 0 then (Err ErrZeroLength, r1)
    else if MaxFrameLen <? length then (Err ErrFrameTooLarge, r1)
    else match ReadFull (Z.to_nat length) false r1 with
         | (Err e, r2) => (Err e, r2)
         | (Ok body, r2) =>
           match body with
           | t :: payload => (Ok (Z_of_byte t, payload), r2)
           | [] => (Err UnexpectedEOF, r2)   (* not reached: length > 0 *)
           end
         end
  end.

(** The bytes of one frame; the writer appends them in one Write. *)
Definition frame_bytes (t : MsgType) (payload : bytes) : bytes :=
  let length := FrameTypeLen + Z.of_nat (length payload) in
  be_enc 4 (wrap 32 length) ++ byte_of_Z t :: payload.

Definition WriteFrame (w : bytes) (t : MsgType) (payload : bytes) : Result FrameError bytes :=
  let length := FrameTypeLen + Z.of_nat (length payload) in
  if MaxFrameLen <? length then Err ErrFrameTooLarge
  else Ok (w ++ frame_bytes t payload).

(** ** The flat-stream reference: what a frame is, independently of the chunks *)

Definition parse_full (need : nat) (s : bytes) : Result FrameError bytes * bytes :=
  if (need <=? length s)%nat then (Ok (take need s), drop need s)
  else (Err (if (length s =? 0)%nat then EOF else UnexpectedEOF), []).

Definition parse_frame (s : bytes) : Result FrameError (MsgType * bytes) * bytes :=
  match parse_full frameHeaderLen s with
  | (Err e, s1) => (Err e, s1)
  | (Ok hdr, s1) =>
    let n := be_dec hdr in
    if n =? 0 then (Err ErrZeroLength, s1)
    else if MaxFrameLen <? n then (Err ErrFrameTooLarge, s1)
    else match parse_full (Z.to_nat n) s1 with
         | (Err e, s2) => (Err e, s2)
         | (Ok body, s2) =>
           match body with
           | t :: payload => (Ok (Z_of_byte t, payload), s2)
           | [] => (Err UnexpectedEOF, s2)
           end
         end
  end.

Lemma ReadFull_flat need got r :
  (ReadFull need got r).1 =
    (if (need <=? length (concat r))%nat then Ok (take need (concat r))
     else Err (if got || negb (length (concat r) =? 0)%nat then UnexpectedEOF else EOF)) ∧
  concat (ReadFull need got r).2 = drop need (concat r).
Proof.
  revert need got. induction r as [|c r IH]; intros need got; simpl.
  - destruct need; simpl; [done |]. by rewrite orb_false_r.
  - rewrite length_app. destruct (Nat.leb_spec need (length c)); simpl.
    + destruct (Nat.leb_spec need (length c + length (concat r))); [| lia].
      rewrite take_app_le, drop_app_le by lia. done.
    + specialize (IH (need - length c)%nat (got || negb (length c =? 0)%nat)).
      destruct (ReadFull (need - length c) _ r) as [res r''] eqn:Hr. cbn [fst snd] in *.
      destruct IH as [-> ->]. split; [| by rewrite drop_app_ge by lia].
      destruct (Nat.leb_spec (need - length c) (length (concat r))),
        (Nat.leb_spec need (length c + length (concat r))); try lia; cbn [rmap].
      * by rewrite take_app_ge by lia.
      * f_equal. replace (length c + length (concat r) =? 0)%nat
          with ((length c =? 0)%nat && (length (concat r) =? 0)%nat);
          [by destruct got, (length c =? 0)%nat, (length (concat r) =? 0)%nat |].
        destruct (length c), (length (concat r)); done.
Qed.

Lemma ReadFull_parse need r :
  (ReadFull need false r).1 = (parse_full need (concat r)).1 ∧
  concat (ReadFull need false r).2 = (parse_full need (concat r)).2.
Proof.
  destruct (ReadFull_flat need false r) as [H1 H2]. unfold parse_full. rewrite H1, H2.
  destruct (Nat.leb_spec need (length (concat r))); [done |]. cbn [fst snd orb].
  split; [by destruct (length (concat r) =? 0)%nat | apply drop_ge; lia].
Qed.

(** ReadFrame refines the flat parser: chunking is invisible. *)
Lemma ReadFrame_parse r :
  (ReadFrame r).1 = (parse_frame (concat r)).1 ∧
  concat (ReadFrame r).2 = (parse_frame (concat r)).2.
Proof.
  unfold ReadFrame, parse_frame.
  destruct (ReadFull_parse frameHeaderLen r) as [H1 H2].
  destruct (ReadFull frameHeaderLen false r) as [res1 r1], (parse_full frameHeaderLen (concat r)) as [p1 s1].
  cbn [fst snd] in H1, H2. subst. destruct p1 as [hdr | e]; [| done].
  destruct (be_dec hdr =? 0); [done |]. destruct (MaxFrameLen <? be_dec hdr); [done |].
  destruct (ReadFull_parse (Z.to_nat (be_dec hdr)) r1) as [H3 H4].
  destruct (ReadFull _ false r1) as [res2 r2], (parse_full _ (concat r1)) as [p2 s2].
  cbn [fst snd] in *. subst. by destruct p2 as [[| t payload] |].
Qed.

Lemma MaxFrameLen_val : MaxFrameLen = 16777216.
Proof. reflexivity. Qed.

Lemma byte_mod_256 t : in_width 8 t → t mod 256 = t.
Proof. intros H. apply Z.mod_small. by width. Qed.

Lemma parse_frame_bytes t payload rest :
  in_width 8 t → FrameTypeLen + Z.of_nat (length payload) ≤ MaxFrameLen →
  parse_frame (frame_bytes t payload ++ rest) = (Ok (t, payload), rest).
Proof.
  intros Ht Hlen. unfold frame_bytes, FrameTypeLen in *. set (n := 1 + Z.of_nat (length payload)) in *.
  assert (in_width 32 n) as Hn by (rewrite MaxFrameLen_val in Hlen; unfold n; width; lia).
  rewrite wrap_small by done. unfold parse_frame, parse_full, frameHeaderLen.
  rewrite <- app_assoc. rewrite length_app, length_be_enc.
  destruct (Nat.leb_spec 4 (4 + length ((byte_of_Z t :: payload) ++ rest))); [| lia].
  rewrite take_be_enc, drop_be_enc. rewrite be_dec_enc_small by done.
  destruct (Z.eqb_spec n 0); [lia |]. destruct (Z.ltb_spec MaxFrameLen n); [lia |].
  replace (Z.to_nat n) with (length (byte_of_Z t :: payload)) by (simpl; lia).
  rewrite length_app, take_app_length, drop_app_length.
  destruct (Nat.leb_spec (length (byte_of_Z t :: payload)) (length (byte_of_Z t :: payload) + length rest)); [| lia].
  rewrite Z_of_byte_of_Z, byte_mod_256 by done. done.
Qed.

(** ** Streams of frames *)

(** Read frames until the first error; [fuel] bounds the number of frames. *)
Fixpoint read_frames (fuel : nat) (r : Reader) : list (MsgType * bytes) * option FrameError :=
  match fuel with
  | O => ([], None)
  | S fuel' =>
    match ReadFrame r with
    | (Ok f, r') => let '(fs, e) := read_frames fuel' r' in (f :: fs, e)
    | (Err e, _) => ([], Some e)
    end
  end.

(** The sender: one WriteFrame after the other onto [w], stopping at an error. *)
Fixpoint write_frames (w : bytes) (fs : list (MsgType * bytes)) : Result FrameError bytes :=
  match fs with
  | [] => Ok w
  | (t, p) :: fs' => let! w' := WriteFrame w t p in write_frames w' fs'
  end.

Lemma WriteFrame_ok w t p w' :
  WriteFrame w t p = Ok w' →
  w' = w ++ frame_bytes t p ∧ FrameTypeLen + Z.of_nat (length p) ≤ MaxFrameLen.
Proof. unfold WriteFrame. case_match eqn:H; [done |]. intros [= <-]. split; [done | lia]. Qed.

Lemma write_frames_flat w fs w' :
  write_frames w fs = Ok w' → w' = w ++ concat ((λ '(t, p), frame_bytes t p) <$> fs).
Proof.
  revert w. induction fs as [|[t p] fs IH]; intros w H; cbn [write_frames] in H.
  - injection H as <-. by rewrite app_nil_r.
  - destruct (WriteFrame w t p) as [w1 |] eqn:Hw; [| done]. apply WriteFrame_ok in Hw as [-> _].
    apply IH in H. rewrite H. cbn [fmap list_fmap concat]. by rewrite <- app_assoc.
Qed.

Lemma ReadFrame_front r t p rest :
  in_width 8 t → FrameTypeLen + Z.of_nat (length p) ≤ MaxFrameLen →
  concat r = frame_bytes t p ++ rest →
  ∃ r', ReadFrame r = (Ok (t, p), r') ∧ concat r' = rest.
Proof.
  intros Ht Hl Hr. destruct (ReadFrame_parse r) as [H1 H2].
  rewrite Hr, parse_frame_bytes in H1, H2 by done.
  destruct (ReadFrame r) as [res r']. cbn [fst snd] in *. subst. eauto.
Qed.

Lemma parse_frame_parts s t p rest :
  parse_frame s = (Ok (t, p), rest) →
  in_width 8 t ∧ FrameTypeLen + Z.of_nat (length p) ≤ MaxFrameLen ∧ s = frame_bytes t p ++ rest.
Proof.
  unfold parse_frame, parse_full, frameHeaderLen.
  destruct (Nat.leb_spec 4 (length s)) as [H4 |]; [| done].
  destruct (Z.eqb_spec (be_dec (take 4 s)) 0) as [| Hnz]; [done |].
  destruct (Z.ltb_spec MaxFrameLen (be_dec (take 4 s))) as [| Hmax]; [done |].
  pose proof (be_dec_range (take 4 s)) as Hr. set (n := be_dec (take 4 s)) in *.
  destruct (Nat.leb_spec (Z.to_nat n) (length (drop 4 s))) as [Hn |]; [| done].
  destruct (take (Z.to_nat n) (drop 4 s)) as [|c body] eqn:Hbody; [done |]. intros [= <- <- <-].
  assert (Z.of_nat (S (length body)) = n) as Hlen.
  { apply (f_equal length) in Hbody. rewrite length_take in Hbody. simpl in Hbody. lia. }
  assert (in_width 32 n) as Hw by (rewrite MaxFrameLen_val in *; width; lia).
  split_and!; [apply Z_of_byte_range | unfold FrameTypeLen; lia |].
  unfold frame_bytes, FrameTypeLen. replace (1 + Z.of_nat (length body)) with n by lia.
  rewrite wrap_small, byte_of_Z_of_byte by done. unfold n.
  rewrite be_enc_dec by (rewrite length_take; lia).
  rewrite <- Hbody, <- app_assoc, take_drop, take_drop. done.
Qed.
(** What ReadFrame accepts is a frame. *)
Lemma ReadFrame_parts r t p r' :
  ReadFrame r = (Ok (t, p), r') →
  in_width 8 t ∧ FrameTypeLen + Z.of_nat (length p) ≤ MaxFrameLen ∧ concat r = frame_bytes t p ++ concat r'.
Proof.
  intros Hr. destruct (ReadFrame_parse r) as [H1 H2]. rewrite Hr in H1, H2. cbn [fst snd] in *.
  apply parse_frame_parts. destruct (parse_frame (concat r)). simpl in *. by subst.
Qed.

(** * Properties *)

(** frames written one after the other and read back through any chunking of
    the byte stream come out in order, each with its type and payload, and the
    reader then sees a clean end of stream: a torn read never desynchronises. *)
Theorem frame_stream_roundtrip fs w r :
  Forall (λ f, in_width 8 f.1) fs → write_frames [] fs = Ok w → concat r = w →
  read_frames (S (length fs)) r = (fs, Some EOF).
Proof.
  intros Hfs Hw Hr.
  assert (Forall (λ f, FrameTypeLen + Z.of_nat (length f.2) ≤ MaxFrameLen) fs) as Hlen.
  { clear Hr Hfs. revert Hw. generalize (@nil ascii). induction fs as [|[t p] fs IH]; intros w0 Hw; [done |].
    cbn [write_frames] in Hw. destruct (WriteFrame w0 t p) as [w1 |] eqn:Hf; [| done].
    apply WriteFrame_ok in Hf as [_ Hf]. constructor; [done | by apply (IH w1)]. }
  apply write_frames_flat in Hw. rewrite app_nil_l in Hw. subst w. clear -Hfs Hlen Hr.
  revert r Hr. induction fs as [|[t p] fs IH]; intros r Hr.
  - cbn [read_frames length]. destruct (ReadFrame_parse r) as [H1 _].
    rewrite Hr in H1. cbn in H1. destruct (ReadFrame r) as [res r']. cbn in H1. by subst.
  - inversion Hfs; inversion Hlen; subst. cbn [fmap list_fmap concat] in Hr.
    destruct (ReadFrame_front r t p _ ltac:(done) ltac:(done) Hr) as (r' & HF & Hr').
    change (read_frames (S (length ((t, p) :: fs))) r) with
      (match ReadFrame r with
       | (Ok f, r') => let '(fs', e) := read_frames (S (length fs)) r' in (f :: fs', e)
       | (Err e, _) => ([], Some e) end).
    rewrite HF, (IH ltac:(done) ltac:(done) r' Hr'). done.
Qed.

Lemma frame_stream_roundtrip_witness :
  let fs := [(6, []); (4, go! "abc")] in
  read_frames 3 [take 3 (concat ((λ '(t, p), frame_bytes t p) <$> fs));
                 drop 3 (concat ((λ '(t, p), frame_bytes t p) <$> fs))] = (fs, Some EOF).
Proof.
  refine (frame_stream_roundtrip [(6, []); (4, go! "abc")] _ _ _ eq_refl _);
    [repeat constructor; cbn; lia | vm_compute; reflexivity].
Defined.

(** a malformed length is a typed error decided on the four header bytes
    alone: zero gives ErrZeroLength, more than MaxFrameLen gives
    ErrFrameTooLarge, and in both cases nothing of the body has been read. *)
Theorem ReadFrame_bad_length r hdr rest :
  concat r = hdr ++ rest → length hdr = 4%nat →
  be_dec hdr = 0 ∨ MaxFrameLen < be_dec hdr →
  (ReadFrame r).1 = Err (if be_dec hdr =? 0 then ErrZeroLength else ErrFrameTooLarge) ∧
  concat (ReadFrame r).2 = rest.
Proof.
  intros Hr Hl Hbad. destruct (ReadFrame_parse r) as [-> ->]. rewrite Hr.
  unfold parse_frame, parse_full, frameHeaderLen. rewrite length_app, Hl.
  destruct (Nat.leb_spec 4 (4 + length rest)); [| lia].
  rewrite take_app_length', drop_app_length' by done.
  destruct (Z.eqb_spec (be_dec hdr) 0); [done |].
  destruct (Z.ltb_spec MaxFrameLen (be_dec hdr)); [done | lia].
Qed.

Lemma ReadFrame_bad_length_witness :
  (ReadFrame [go! "~~"; go! "~~body"]).1 = Err ErrFrameTooLarge ∧
  concat (ReadFrame [go! "~~"; go! "~~body"]).2 = go! "body".
Proof.
  refine (ReadFrame_bad_length [go! "~~"; go! "~~body"] (go! "~~~~") (go! "body") eq_refl eq_refl _).
  right. reflexivity.
Defined.

(** ReadFrame is a function of the byte stream, not of how the reads tear
    it: two readers of the same bytes return the same frame or error and leave
    the same bytes; an accepted frame is at most MaxFrameLen and never empty. *)
Theorem ReadFrame_chunking r1 r2 :
  concat r1 = concat r2 →
  (ReadFrame r1).1 = (ReadFrame r2).1 ∧ concat (ReadFrame r1).2 = concat (ReadFrame r2).2 ∧
  (∀ t p, (ReadFrame r1).1 = Ok (t, p) →
     in_width 8 t ∧ FrameTypeLen + Z.of_nat (length p) ≤ MaxFrameLen ∧
     concat r1 = frame_bytes t p ++ concat (ReadFrame r1).2).
Proof.
  intros Heq. destruct (ReadFrame_parse r1) as [H1 H2]. destruct (ReadFrame_parse r2) as [H3 H4].
  split_and!; [by rewrite H1, H3, Heq | by rewrite H2, H4, Heq |]. clear. intros t p Hr.
  destruct (ReadFrame r1) as [res r'] eqn:Hr1. cbn [fst snd] in *. subst res. by apply ReadFrame_parts.
Qed.

Lemma ReadFrame_chunking_witness :
  ReadFrame [frame_bytes 6 []] = (Ok (6, []), [[]]) ∧
  (ReadFrame [frame_bytes 6 []]).1 = (ReadFrame ((λ c, [c]) <$> frame_bytes 6 [])).1.
Proof.
  split; [reflexivity |].
  refine (proj1 (ReadFrame_chunking [frame_bytes 6 []] ((λ c, [c]) <$> frame_bytes 6 []) _)).
  reflexivity.
Defined.
