(* ===== verification/Messages.v ===== *)
(** * Messages: the wire catalogue and its codec (internal/protocol/messages.go, deviceid.go)

    The encoder [encbuf] and the decoder [decbuf] are the source's buffers with a
    sticky error.  Slicing a byte string out of range is a Go panic: the decoder
    here makes that outcome explicit ([Panic]) so that "decoding never panics" is
    a theorem and not a convention. *)
From S2P Require Import Prelude Bytes Framing.
From Stdlib Require Import Wf_nat.

(** ** Identities: a DeviceID is 32 bytes *)

Notation DeviceID := bytes (only parsing).
Definition hash_len (h : bytes) : Prop := length h = 32%nat.

Definition Short (d : DeviceID) : Z := be_dec (take 8 d).

Definition hex_digit (z : Z) : byte :=
  byte_of_Z (if z <? 10 then 48 + z else 87 + z).
Definition hex_byte (c : byte) : bytes :=
  [hex_digit (Z.shiftr (Z_of_byte c) 4); hex_digit (Z.land (Z_of_byte c) 15)].
(** [hex.EncodeToString]. *)
Definition DeviceID_String (d : DeviceID) : bytes := concat (hex_byte <$> d).

Definition unhex_digit (c : byte) : option Z :=
  let z := Z_of_byte c in
  if (48 <=? z) && (z <=? 57) then Some (z - 48)
  else if (97 <=? z) && (z <=? 102) then Some (z - 87)
  else if (65 <=? z) && (z <=? 70) then Some (z - 55)
  else None.
(** [hex.DecodeString]; the two errors are a bad digit and an odd length. *)
Fixpoint hex_decode (s : bytes) : option bytes :=
  match s with
  | [] => Some []
  | [_] => None
  | a :: b :: s' =>
    match unhex_digit a, unhex_digit b with
    | Some x, Some y => cons (byte_of_Z (Z.lor (Z.shiftl x 4) y)) <$> hex_decode s'
    | _, _ => None
    end
  end.

Inductive DeviceIDError : Type := ErrInvalidHex | ErrInvalidLength.

Definition ParseDeviceID (s : bytes) : Result DeviceIDError DeviceID :=
  match hex_decode s with
  | None => Err ErrInvalidHex
  | Some b => if (length b =? 32)%nat then Ok b else Err ErrInvalidLength
  end.

(** ** Message types *)

Definition MsgHello : MsgType := 1.
Definition MsgIndex : MsgType := 2.
Definition MsgIndexUpdate : MsgType := 3.
Definition MsgRequest : MsgType := 4.
Definition MsgResponse : MsgType := 5.
Definition MsgPing : MsgType := 6.
Definition MsgClose : MsgType := 7.

Inductive RecvAction : Type := ActionFatal | ActionDispatch | ActionSkip.
#[export] Instance RecvAction_eq_dec : EqDecision RecvAction.
Proof. solve_decision. Defined.

Definition recv_action (t : MsgType) : RecvAction :=
  if t =? MsgInvalid then ActionFatal
  else if (MsgHello <=? t) && (t <=? MsgClose) then ActionDispatch
  else ActionSkip.

Definition CodeOK : Z := 0.
Definition CodeGeneric : Z := 1.
Definition CodeNoSuchFile : Z := 2.
Definition CodeInvalidFile : Z := 3.

(** ** Messages *)

Record Hello := mkHello {
  h_ProtoVersion : Z; h_DeviceID : DeviceID; h_FolderID : bytes;
  h_RootHash : bytes; h_FeatureFlags : Z }.
Record Index := mkIndex { ix_FolderID : bytes; ix_Count : Z; ix_Body : bytes }.
Record Request := mkRequest {
  rq_ReqID : Z; rq_Path : bytes; rq_ContentHash : bytes; rq_Offset : Z; rq_Length : Z }.
Record Response := mkResponse { rs_ReqID : Z; rs_Code : Z; rs_Data : bytes }.

Inductive Message : Type :=
| MHello (h : Hello)
| MIndex (m : Index)
| MIndexUpdate (m : Index)
| MRequest (r : Request)
| MResponse (r : Response)
| MPing
| MClose (reason : bytes).

#[export] Instance Hello_eq_dec : EqDecision Hello. Proof. solve_decision. Defined.
#[export] Instance Index_eq_dec : EqDecision Index. Proof. solve_decision. Defined.
#[export] Instance Request_eq_dec : EqDecision Request. Proof. solve_decision. Defined.
#[export] Instance Response_eq_dec : EqDecision Response. Proof. solve_decision. Defined.
#[export] Instance Message_eq_dec : EqDecision Message. Proof. solve_decision. Defined.

Definition msg_type (m : Message) : MsgType :=
  match m with
  | MHello _ => MsgHello
  | MIndex _ => MsgIndex
  | MIndexUpdate _ => MsgIndexUpdate
  | MRequest _ => MsgRequest
  | MResponse _ => MsgResponse
  | MPing => MsgPing
  | MClose _ => MsgClose
  end.

(** ** The encoder *)

Inductive EncError : Type := ErrChunkTooLarge | ErrStringTooLong.

Record encbuf := mkEnc { e_b : bytes; e_err : option EncError }.

Definition e_fail (err : EncError) (e : encbuf) : encbuf :=
  match e_err e with None => mkEnc (e_b e) (Some err) | Some _ => e end.
Definition e_append (p : bytes) (e : encbuf) : encbuf :=
  match e_err e with Some _ => e | None => mkEnc (e_b e ++ p) None end.
Definition e_u8 (v : Z) : encbuf → encbuf := e_append (be_enc 1 v).
Definition e_u16 (v : Z) : encbuf → encbuf := e_append (be_enc 2 v).
Definition e_u32 (v : Z) : encbuf → encbuf := e_append (be_enc 4 v).
Definition e_u64 (v : Z) : encbuf → encbuf := e_append (be_enc 8 v).
Definition e_raw (p : bytes) : encbuf → encbuf := e_append p.
Definition e_lenPrefixed (s : bytes) (e : encbuf) : encbuf :=
  match e_err e with
  | Some _ => e
  | None =>
    if 65535 <? Z.of_nat (length s) then e_fail ErrStringTooLong e
    else e_append s (e_u16 (wrap 16 (Z.of_nat (length s))) e)
  end.

Definition encodeHello (h : Hello) (e : encbuf) : encbuf :=
  e_u32 (h_FeatureFlags h) (e_raw (h_RootHash h) (e_lenPrefixed (h_FolderID h)
    (e_raw (h_DeviceID h) (e_u16 (h_ProtoVersion h) e)))).
Definition encodeIndexBody (m : Index) (e : encbuf) : encbuf :=
  e_raw (ix_Body m) (e_u32 (ix_Count m) (e_lenPrefixed (ix_FolderID m) e)).
Definition encodeRequest (r : Request) (e : encbuf) : encbuf :=
  e_u32 (rq_Length r) (e_u64 (rq_Offset r) (e_raw (rq_ContentHash r)
    (e_lenPrefixed (rq_Path r) (e_u32 (rq_ReqID r) e)))).
Definition encodeResponse (r : Response) (e : encbuf) : encbuf :=
  if MaxChunkLen <? Z.of_nat (length (rs_Data r)) then e_fail ErrChunkTooLarge e
  else e_raw (rs_Data r) (e_u8 (rs_Code r) (e_u32 (rs_ReqID r) e)).
Definition encodeInto (m : Message) (e : encbuf) : encbuf :=
  match m with
  | MHello h => encodeHello h e
  | MIndex m => encodeIndexBody m e
  | MIndexUpdate m => encodeIndexBody m e
  | MRequest r => encodeRequest r e
  | MResponse r => encodeResponse r e
  | MPing => e
  | MClose reason => e_lenPrefixed reason e
  end.

Definition EncodeMessage (m : Message) : Result EncError bytes :=
  let e := encodeInto m (mkEnc [] None) in
  match e_err e with Some err => Err err | None => Ok (e_b e) end.

Inductive WriteError : Type := WEnc (e : EncError) | WFrame (e : FrameError).

Definition WriteMessage (w : bytes) (m : Message) : Result WriteError bytes :=
  match EncodeMessage m with
  | Err e => Err (WEnc e)
  | Ok payload =>
    match WriteFrame w (msg_type m) payload with
    | Err e => Err (WFrame e)
    | Ok w' => Ok w'
    end
  end.

(** ** The decoder *)

Inductive DecError : Type :=
| ErrShortPayload
| ErrUnknownMsgType (t : MsgType)
| Panic.   (* a slice index out of range *)

Record decbuf := mkDec { d_b : bytes; d_off : nat; d_err : option DecError }.

(** [b[i:i+n]], which panics out of range. *)
Definition go_slice (b : bytes) (i n : nat) : option bytes :=
  if (i + n <=? length b)%nat then Some (slice b i n) else None.

Definition d_fail (err : DecError) (d : decbuf) : decbuf :=
  match d_err d with None => mkDec (d_b d) (d_off d) (Some err) | Some _ => d end.

(** The common body of u8, u16, u32, u64 and raw: [n] bytes at the cursor. *)
Definition d_take {A} (n : nat) (zero : A) (f : bytes → A) (d : decbuf) : A * decbuf :=
  match d_err d with
  | Some _ => (zero, d)
  | None =>
    if (length (d_b d) <? d_off d + n)%nat then (zero, d_fail ErrShortPayload d)
    else match go_slice (d_b d) (d_off d) n with
         | Some v => (f v, mkDec (d_b d) (d_off d + n) None)
         | None => (zero, d_fail Panic d)
         end
  end.
Definition d_u8 : decbuf → Z * decbuf := d_take 1 0 be_dec.
Definition d_u16 : decbuf → Z * decbuf := d_take 2 0 be_dec.
Definition d_u32 : decbuf → Z * decbuf := d_take 4 0 be_dec.
Definition d_u64 : decbuf → Z * decbuf := d_take 8 0 be_dec.
Definition d_raw (n : nat) : decbuf → bytes * decbuf := d_take n [] (λ v, v).

Definition zero32 : bytes := replicate 32 (byte_of_Z 0).
(** [copy(a[:], src)] into a zeroed [32]byte. *)
Definition copy32 (src : bytes) : bytes := take 32 src ++ drop (length src) zero32.
Definition d_array32 (d : decbuf) : bytes * decbuf :=
  let '(v, d) := d_raw 32 d in (copy32 v, d).
Definition d_lenPrefixed (d : decbuf) : bytes * decbuf :=
  let '(n, d) := d_u16 d in d_raw (Z.to_nat n) d.
Definition d_rest (d : decbuf) : bytes * decbuf :=
  match d_err d with
  | Some _ => ([], d)
  | None =>
    match go_slice (d_b d) (d_off d) (length (d_b d) - d_off d) with
    | Some v => (v, mkDec (d_b d) (length (d_b d)) None)
    | None => ([], d_fail Panic d)
    end
  end.

Definition d_result {A} (v : A) (d : decbuf) : Result DecError A :=
  match d_err d with None => Ok v | Some e => Err e end.

Definition decodeHello (payload : bytes) : Result DecError Hello :=
  let d := mkDec payload 0 None in
  let '(v, d) := d_u16 d in
  let '(id, d) := d_array32 d in
  let '(folder, d) := d_lenPrefixed d in
  let '(root, d) := d_array32 d in
  let '(flags, d) := d_u32 d in
  d_result (mkHello v id folder root flags) d.
Definition decodeIndexBody (payload : bytes) : Result DecError Index :=
  let d := mkDec payload 0 None in
  let '(folder, d) := d_lenPrefixed d in
  let '(count, d) := d_u32 d in
  let '(body, d) := d_rest d in
  d_result (mkIndex folder count body) d.
Definition decodeRequest (payload : bytes) : Result DecError Request :=
  let d := mkDec payload 0 None in
  let '(id, d) := d_u32 d in
  let '(path, d) := d_lenPrefixed d in
  let '(hash, d) := d_array32 d in
  let '(off, d) := d_u64 d in
  let '(len, d) := d_u32 d in
  d_result (mkRequest id path hash off len) d.
Definition decodeResponse (payload : bytes) : Result DecError Response :=
  let d := mkDec payload 0 None in
  let '(id, d) := d_u32 d in
  let '(code, d) := d_u8 d in
  let '(data, d) := d_rest d in
  d_result (mkResponse id code data) d.
Definition decodeClose (payload : bytes) : Result DecError bytes :=
  match payload with
  | [] => Ok []
  | _ => let '(reason, d) := d_lenPrefixed (mkDec payload 0 None) in d_result reason d
  end.

Definition DecodeMessage (t : MsgType) (payload : bytes) : Result DecError Message :=
  if t =? MsgHello then rmap MHello (decodeHello payload)
  else if t =? MsgIndex then rmap MIndex (decodeIndexBody payload)
  else if t =? MsgIndexUpdate then rmap MIndexUpdate (decodeIndexBody payload)
  else if t =? MsgRequest then rmap MRequest (decodeRequest payload)
  else if t =? MsgResponse then rmap MResponse (decodeResponse payload)
  else if t =? MsgPing then Ok MPing
  else if t =? MsgClose then rmap MClose (decodeClose payload)
  else Err (ErrUnknownMsgType t).

(** ** Decoding at a cursor *)

(** The decoder has no error yet and [rest] is left to read. *)
Definition at_rest (d : decbuf) (rest : bytes) : Prop :=
  d_err d = None ∧ (d_off d ≤ length (d_b d))%nat ∧ drop (d_off d) (d_b d) = rest.

Lemma at_rest_start b : at_rest (mkDec b 0 None) b.
Proof. split_and!; simpl; [done | lia | done]. Qed.

Lemma at_rest_length d rest : at_rest d rest → length (d_b d) = (d_off d + length rest)%nat.
Proof. intros (_ & Hle & <-). rewrite length_drop. lia. Qed.

Lemma d_take_ok {A} n (z : A) f d v rest :
  at_rest d (v ++ rest) → length v = n →
  ∃ d', d_take n z f d = (f v, d') ∧ at_rest d' rest.
Proof.
  intros Hd Hn. pose proof (at_rest_length _ _ Hd) as Hlen. destruct Hd as (He & Hle & Hdrop).
  rewrite length_app in Hlen. unfold d_take, go_slice. rewrite He.
  destruct (Nat.ltb_spec (length (d_b d)) (d_off d + n)); [lia |].
  destruct (Nat.leb_spec (d_off d + n) (length (d_b d))); [| lia].
  eexists. unfold slice. rewrite Hdrop, take_app_length' by done. split; [done |].
  split_and!; simpl; [done | lia |]. rewrite <- drop_drop, Hdrop. by apply drop_app_length'.
Qed.

Lemma d_take_short {A} n (z : A) f d rest :
  at_rest d rest → (length rest < n)%nat →
  ∃ d', d_take n z f d = (z, d') ∧ d_err d' = Some ErrShortPayload.
Proof.
  intros Hd Hn. pose proof (at_rest_length _ _ Hd) as Hlen. destruct Hd as (He & Hle & Hdrop).
  unfold d_take. rewrite He.
  destruct (Nat.ltb_spec (length (d_b d)) (d_off d + n)); [| lia].
  eexists. split; [done |]. unfold d_fail. by rewrite He.
Qed.

Lemma d_uint_ok n d v rest :
  at_rest d (be_enc n v ++ rest) → 0 ≤ v < 256 ^ Z.of_nat n →
  ∃ d', d_take n 0 be_dec d = (v, d') ∧ at_rest d' rest.
Proof.
  intros Hd Hv. destruct (d_take_ok n 0 be_dec d _ _ Hd (length_be_enc n v)) as (d' & H & Hr).
  rewrite be_dec_enc_small in H by done. eauto.
Qed.

Lemma copy32_id v : hash_len v → copy32 v = v.
Proof.
  unfold hash_len, copy32. intros Hv. rewrite take_ge by lia.
  rewrite drop_ge, app_nil_r; [done |]. unfold zero32. rewrite length_replicate. lia.
Qed.

Lemma copy32_length v : hash_len (copy32 v).
Proof.
  unfold hash_len, copy32, zero32. rewrite length_app, length_take, length_drop, length_replicate. lia.
Qed.

Lemma d_array32_ok d v rest :
  at_rest d (v ++ rest) → hash_len v → ∃ d', d_array32 d = (v, d') ∧ at_rest d' rest.
Proof.
  intros Hd Hv. unfold d_array32, d_raw.
  destruct (d_take_ok 32 [] (λ v, v) d _ _ Hd Hv) as (d' & -> & Hr). exists d'. by rewrite copy32_id.
Qed.

Definition lenPrefix (s : bytes) : bytes := be_enc 2 (Z.of_nat (length s)).

Lemma d_lenPrefixed_ok d s rest :
  at_rest d (lenPrefix s ++ s ++ rest) → Z.of_nat (length s) ≤ 65535 →
  ∃ d', d_lenPrefixed d = (s, d') ∧ at_rest d' rest.
Proof.
  intros Hd Hs. unfold d_lenPrefixed, d_u16.
  destruct (d_uint_ok 2 d _ _ Hd) as (d1 & -> & Hr); [change (256 ^ Z.of_nat 2) with 65536; lia |].
  rewrite Nat2Z.id. unfold d_raw.
  by destruct (d_take_ok (length s) [] (λ v, v) d1 _ _ Hr eq_refl) as (d' & -> & Hr'); eauto.
Qed.

Lemma d_rest_ok d rest :
  at_rest d rest → ∃ d', d_rest d = (rest, d') ∧ d_err d' = None.
Proof.
  intros (He & Hle & Hdrop). unfold d_rest, go_slice. rewrite He.
  destruct (Nat.leb_spec (d_off d + (length (d_b d) - d_off d)) (length (d_b d))); [| lia].
  eexists. unfold slice. rewrite Hdrop, take_ge; [done |].
  rewrite <- Hdrop, length_drop. lia.
Qed.

(** Step one decoding operation of a goal whose cursor [d] is at [rest]. *)
Ltac dec_advance lem H :=
  let d' := fresh "d" in let Heq := fresh in let H' := fresh in
  destruct lem as (d' & Heq & H'); [first [done | by width | lia] | rewrite Heq; clear Heq H; rename H' into H; cbv beta iota].
Ltac dec_step :=
  unfold d_u8, d_u16, d_u32, d_u64;
  match goal with
  | H : at_rest ?d (be_enc ?n ?v ++ ?r) |- context [d_take ?n 0 be_dec ?d] => dec_advance (d_uint_ok n d v r H) H
  | H : at_rest ?d (?v ++ ?r) |- context [d_array32 ?d] => dec_advance (d_array32_ok d v r H) H
  | H : at_rest ?d (lenPrefix ?s ++ ?s ++ ?r) |- context [d_lenPrefixed ?d] => dec_advance (d_lenPrefixed_ok d s r H) H
  | H : at_rest ?d ?r |- context [d_rest ?d] =>
    let d' := fresh "d" in let Heq := fresh in let H' := fresh in
    destruct (d_rest_ok d r H) as (d' & Heq & H'); rewrite Heq; clear Heq H; rename H' into H; cbv beta iota
  end.
Ltac dec_start := match goal with
  | |- context [mkDec ?p 0 None] =>
    pose proof (at_rest_start p) as Hcur; set (d0 := mkDec p 0 None) in *; clearbody d0
  end.
Ltac dec_done := match goal with
  | H : at_rest _ _ |- _ => destruct H as [H _] | _ => idtac end;
  unfold d_result; match goal with H : d_err _ = None |- _ => rewrite H end; cbn [rmap]; try done.

(** ** Round trip *)

(** Every fixed-width field in range. *)
Definition msg_width (m : Message) : Prop :=
  match m with
  | MHello h => in_width 16 (h_ProtoVersion h) ∧ hash_len (h_DeviceID h) ∧
                hash_len (h_RootHash h) ∧ in_width 32 (h_FeatureFlags h)
  | MIndex m | MIndexUpdate m => in_width 32 (ix_Count m)
  | MRequest r => in_width 32 (rq_ReqID r) ∧ hash_len (rq_ContentHash r) ∧
                  in_width 64 (rq_Offset r) ∧ in_width 32 (rq_Length r)
  | MResponse r => in_width 32 (rs_ReqID r) ∧ in_width 8 (rs_Code r)
  | MPing | MClose _ => True
  end.

Lemma e_append_ok p b : e_append p (mkEnc b None) = mkEnc (b ++ p) None.
Proof. done. Qed.
Lemma e_lenPrefixed_ok s b :
  e_lenPrefixed s (mkEnc b None) =
    if 65535 <? Z.of_nat (length s) then mkEnc b (Some ErrStringTooLong)
    else mkEnc (b ++ lenPrefix s ++ s) None.
Proof.
  unfold e_lenPrefixed, e_u16. simpl. case_match eqn:Hs; [done |].
  apply Z.ltb_ge in Hs. rewrite e_append_ok, e_append_ok, <- app_assoc.
  rewrite wrap_small by (width; lia). done.
Qed.

Lemma e_append_sticky p b err : e_append p (mkEnc b (Some err)) = mkEnc b (Some err).
Proof. done. Qed.

Ltac enc_simpl H := unfold EncodeMessage, encodeInto, encodeHello, encodeIndexBody, encodeRequest,
    encodeResponse, e_u8, e_u16, e_u32, e_u64, e_raw in H;
  repeat first [rewrite e_lenPrefixed_ok in H | rewrite e_append_ok in H | rewrite e_append_sticky in H
               | case_match; try done].

(** What an encoded message looks like: the payload as a concatenation. *)
Definition payload_of (m : Message) : bytes :=
  match m with
  | MHello h => be_enc 2 (h_ProtoVersion h) ++ h_DeviceID h ++ lenPrefix (h_FolderID h) ++ h_FolderID h ++
                h_RootHash h ++ be_enc 4 (h_FeatureFlags h) ++ []
  | MIndex m | MIndexUpdate m =>
    lenPrefix (ix_FolderID m) ++ ix_FolderID m ++ be_enc 4 (ix_Count m) ++ ix_Body m
  | MRequest r => be_enc 4 (rq_ReqID r) ++ lenPrefix (rq_Path r) ++ rq_Path r ++ rq_ContentHash r ++
                  be_enc 8 (rq_Offset r) ++ be_enc 4 (rq_Length r) ++ []
  | MResponse r => be_enc 4 (rs_ReqID r) ++ be_enc 1 (rs_Code r) ++ rs_Data r
  | MPing => []
  | MClose s => lenPrefix s ++ s ++ []
  end.

(** The length-prefixed strings of a message and the data under the chunk budget. *)
Definition msg_strings_ok (m : Message) : Prop :=
  match m with
  | MHello h => Z.of_nat (length (h_FolderID h)) ≤ 65535
  | MIndex m | MIndexUpdate m => Z.of_nat (length (ix_FolderID m)) ≤ 65535
  | MRequest r => Z.of_nat (length (rq_Path r)) ≤ 65535
  | MResponse r => Z.of_nat (length (rs_Data r)) ≤ MaxChunkLen
  | MPing => True
  | MClose s => Z.of_nat (length s) ≤ 65535
  end.

Lemma EncodeMessage_ok m p : EncodeMessage m = Ok p → p = payload_of m ∧ msg_strings_ok m.
Proof.
  intros H. destruct m as [h | ix | ix | r | r | | s]; cbn [payload_of msg_strings_ok];
    enc_simpl H; cbn in H; simplify_eq/=; rewrite <- ?app_assoc, ?app_nil_r; split; try done; lia.
Qed.

Lemma Decode_payload_of m :
  msg_width m → msg_strings_ok m → DecodeMessage (msg_type m) (payload_of m) = Ok m.
Proof.
  intros Hw Hs. destruct m as [h | ix | ix | r | r | | s]; cbn [msg_width msg_strings_ok] in *;
    unfold DecodeMessage; cbn [msg_type]; cbn -[payload_of]; try done.
  - unfold decodeHello. destruct Hw as (? & ? & ? & ?). cbn [payload_of].
    dec_start. do 5 dec_step. dec_done; by destruct h.
  - unfold decodeIndexBody. cbn [payload_of]. dec_start. do 3 dec_step. dec_done; by destruct ix.
  - unfold decodeIndexBody. cbn [payload_of]. dec_start. do 3 dec_step. dec_done; by destruct ix.
  - unfold decodeRequest. destruct Hw as (? & ? & ? & ?). cbn [payload_of].
    dec_start. do 5 dec_step. dec_done; by destruct r.
  - unfold decodeResponse. destruct Hw as (? & ?). cbn [payload_of].
    dec_start. do 3 dec_step. dec_done; by destruct r.
  - unfold decodeClose. destruct (payload_of (MClose s)) as [|c p] eqn:Hp.
    + cbn [payload_of] in Hp. apply (f_equal length) in Hp. rewrite !length_app in Hp.
      unfold lenPrefix in Hp. rewrite length_be_enc in Hp. simpl in Hp. lia.
    + rewrite <- Hp. cbn [payload_of]. dec_start. dec_step. dec_done.
Qed.

(** ** The decoder never leaves its buffer *)

(** The invariant that makes every slice of the decoder in range. *)
Definition d_safe (d : decbuf) : Prop :=
  (d_off d ≤ length (d_b d))%nat ∧ (d_err d = None ∨ d_err d = Some ErrShortPayload).

Lemma d_take_safe {A} n (z : A) f d : d_safe d → d_safe (d_take n z f d).2.
Proof.
  intros Hd. assert (Hd' := Hd). destruct Hd' as [Hle Hp]. unfold d_take, d_fail, go_slice.
  destruct (d_err d); [done |].
  destruct (Nat.ltb_spec (length (d_b d)) (d_off d + n)); [by split; [| right] |].
  destruct (Nat.leb_spec (d_off d + n) (length (d_b d))); [| lia]. split; simpl; [lia | by left].
Qed.

Lemma d_array32_safe d : d_safe d → d_safe (d_array32 d).2.
Proof.
  intros H. unfold d_array32, d_raw. pose proof (d_take_safe 32 [] (λ v, v) d H).
  by destruct (d_take 32 [] (λ v : bytes, v) d).
Qed.

Lemma d_lenPrefixed_safe d : d_safe d → d_safe (d_lenPrefixed d).2.
Proof.
  intros H. unfold d_lenPrefixed, d_u16. pose proof (d_take_safe 2 0 be_dec d H).
  destruct (d_take 2 0 be_dec d) as [n d']. by apply d_take_safe.
Qed.

Lemma d_rest_safe d : d_safe d → d_safe (d_rest d).2.
Proof.
  intros Hd. assert (Hd' := Hd). destruct Hd' as [Hle Hp]. unfold d_rest, d_fail, go_slice.
  destruct (d_err d); [done |].
  destruct (Nat.leb_spec (d_off d + (length (d_b d) - d_off d)) (length (d_b d))); [| lia].
  split; simpl; [lia | by left].
Qed.

Lemma d_start_safe b : d_safe (mkDec b 0 None).
Proof. split; simpl; [lia | by left]. Qed.

(** A decoding result: a value, or a short payload. *)
Definition short_or_ok {A} (r : Result DecError A) : Prop :=
  match r with Ok _ | Err ErrShortPayload => True | Err _ => False end.

Lemma d_result_safe {A} (v : A) d : d_safe d → short_or_ok (d_result v d).
Proof. intros [_ [Hp | Hp]]; unfold d_result; by rewrite Hp. Qed.

#[export] Hint Resolve d_take_safe d_array32_safe d_lenPrefixed_safe d_rest_safe d_start_safe d_result_safe : decsafe.

(** Peel the decoding operations of a goal one by one, keeping the cursor safe. *)
Ltac safe_step := match goal with
  | |- context [let '(_, _) := ?op ?d in _] =>
    let H := fresh "Hs" in assert (H : d_safe (op d).2) by (unfold d_u8, d_u16, d_u32, d_u64; eauto with decsafe);
    destruct (op d); cbn [snd] in H
  end.
Ltac safe_all := repeat safe_step; eauto with decsafe.

Lemma rmap_safe {A B} (f : A → B) r : short_or_ok r → short_or_ok (rmap f r).
Proof. by destruct r. Qed.

(** Every decoder of the catalogue returns a message or reports a short payload. *)
Lemma DecodeMessage_safe t payload : 1 ≤ t ≤ 7 → short_or_ok (DecodeMessage t payload).
Proof.
  intros Ht. pose proof (d_start_safe payload).
  unfold DecodeMessage, MsgHello, MsgIndex, MsgIndexUpdate, MsgRequest, MsgResponse, MsgPing, MsgClose.
  repeat match goal with |- short_or_ok (if ?b then _ else _) => destruct b eqn:? end; try done; try lia;
    apply rmap_safe; unfold decodeHello, decodeIndexBody, decodeRequest, decodeResponse, decodeClose.
  all: destruct payload as [|c payload]; try done; safe_all.
Qed.

Lemma DecodeMessage_unknown t payload : t < 1 ∨ 7 < t → DecodeMessage t payload = Err (ErrUnknownMsgType t).
Proof.
  intros Ht. unfold DecodeMessage, MsgHello, MsgIndex, MsgIndexUpdate, MsgRequest, MsgResponse, MsgPing, MsgClose.
  repeat match goal with |- (if ?b then _ else _) = _ => destruct b eqn:?; [lia |] end. done.
Qed.

Lemma recv_action_cases t :
  0 ≤ t →
  recv_action t = (if t =? 0 then ActionFatal else if t <=? 7 then ActionDispatch else ActionSkip).
Proof.
  intros Ht. unfold recv_action, MsgInvalid, MsgHello, MsgClose.
  destruct (Z.eqb_spec t 0); [done |]. destruct (Z.leb_spec 1 t); [done | lia].
Qed.

(** * Properties *)

(** C38: a message whose fields are in range survives the wire: whatever payload
    EncodeMessage produces, DecodeMessage with the message's type returns the
    message. *)
Theorem message_roundtrip m p :
  msg_width m → EncodeMessage m = Ok p → DecodeMessage (msg_type m) p = Ok m.
Proof. intros Hw He. apply EncodeMessage_ok in He as [-> Hs]. by apply Decode_payload_of. Qed.

Lemma message_roundtrip_witness :
  let m := MRequest (mkRequest 7 (go! "a/b.txt") zero32 32768 100) in
  ∃ p, EncodeMessage m = Ok p ∧ DecodeMessage (msg_type m) p = Ok m.
Proof.
  eexists. split; [vm_compute; reflexivity |].
  refine (message_roundtrip (MRequest (mkRequest 7 (go! "a/b.txt") zero32 32768 100)) _ _ eq_refl).
  split_and!; split; cbn; lia.
Defined.

(** C39: decoding never panics: on every type byte and every payload, however
    truncated or adversarial, each slice the decoder takes is in range. *)
Theorem DecodeMessage_no_panic t payload : DecodeMessage t payload ≠ Err Panic.
Proof.
  destruct (decide (1 ≤ t ≤ 7)) as [Ht | Ht].
  - pose proof (DecodeMessage_safe t payload Ht) as H. intros He. by rewrite He in H.
  - rewrite DecodeMessage_unknown by lia. done.
Qed.

(** the receive policy is total: each of the 256 type bytes is fatal (0),
    dispatched (1 to 7) or skipped (8 and above), and DecodeMessage refuses the
    type as unknown exactly when the policy does not dispatch it. *)
Theorem recv_action_total t payload :
  in_width 8 t →
  (recv_action t = ActionFatal ↔ t = 0) ∧
  (recv_action t = ActionDispatch ↔ 1 ≤ t ≤ 7) ∧
  (recv_action t = ActionSkip ↔ 8 ≤ t) ∧
  (DecodeMessage t payload = Err (ErrUnknownMsgType t) ↔ recv_action t ≠ ActionDispatch).
Proof.
  intros Ht. unfold in_width in Ht. rewrite recv_action_cases by lia.
  destruct (Z.eqb_spec t 0), (Z.leb_spec t 7); split_and!; try (split; done || lia).
  all: split; [intros He Hd | intros Hd]; try done; try (apply DecodeMessage_unknown; lia).
  pose proof (DecodeMessage_safe t payload ltac:(lia)) as Hs. by rewrite He in Hs.
Qed.

Lemma recv_action_total_witness :
  recv_action 255 = ActionSkip ∧ DecodeMessage 255 (go! "x") = Err (ErrUnknownMsgType 255).
Proof.
  destruct (recv_action_total 255 (go! "x")) as (_ & _ & _ & H); [split; lia |].
  split; [reflexivity | apply H; discriminate].
Defined.

(** the sender-side budget: a RESPONSE is encodable exactly when its data is
    at most MaxChunkLen, and then its frame is within MaxFrameLen, so WriteMessage
    never builds a RESPONSE that the receiver's ReadFrame would reject. *)
Theorem response_budget w r :
  in_width 32 (rs_ReqID r) → in_width 8 (rs_Code r) →
  (Z.of_nat (length (rs_Data r)) ≤ MaxChunkLen ∧
   ∃ f, WriteMessage w (MResponse r) = Ok (w ++ f) ∧
        ∀ rest, parse_frame (f ++ rest) = (Ok (MsgResponse, payload_of (MResponse r)), rest)) ∨
  (MaxChunkLen < Z.of_nat (length (rs_Data r)) ∧
   WriteMessage w (MResponse r) = Err (WEnc ErrChunkTooLarge)).
Proof.
  intros Hid Hcode. unfold WriteMessage, EncodeMessage, encodeInto, encodeResponse.
  destruct (Z.ltb_spec MaxChunkLen (Z.of_nat (length (rs_Data r)))) as [Hbig | Hok]; [by right |].
  left. split; [done |]. cbn [e_u32 e_u8 e_raw e_append e_err e_b].
  set (p := (([] ++ be_enc 4 (rs_ReqID r)) ++ be_enc 1 (rs_Code r)) ++ rs_Data r).
  assert (p = payload_of (MResponse r)) as Hp by (unfold p; cbn; by rewrite <- app_assoc).
  assert (FrameTypeLen + Z.of_nat (length p) ≤ MaxFrameLen) as Hlen.
  { unfold p. rewrite !length_app, !length_be_enc. unfold MaxChunkLen, FrameTypeLen, ResponseHeaderLen in *.
    simpl. lia. }
  exists (frame_bytes MsgResponse p). unfold WriteFrame. cbn [msg_type].
  destruct (Z.ltb_spec MaxFrameLen (FrameTypeLen + Z.of_nat (length p))); [lia |].
  split; [done |]. intros rest. rewrite parse_frame_bytes, Hp; [done | by split | done].
Qed.

Lemma response_budget_witness :
  ∃ f, WriteMessage [] (MResponse (mkResponse 1 0 (go! "data"))) = Ok ([] ++ f).
Proof.
  destruct (response_budget [] (mkResponse 1 0 (go! "data"))) as [[_ [f [Hf _]]] | [Hbig _]];
    [split; cbn; lia | split; cbn; lia | exists f; exact Hf | vm_compute in Hbig; discriminate].
Defined.

Lemma hex_decode_byte c s : hex_decode (hex_byte c ++ s) = cons c <$> hex_decode s.
Proof. destruct c as [[] [] [] [] [] [] [] []]; reflexivity. Qed.

Lemma hex_decode_encode d : hex_decode (DeviceID_String d) = Some d.
Proof.
  induction d as [|c d IH]; [done |]. unfold DeviceID_String in *. cbn [fmap list_fmap concat].
  by rewrite hex_decode_byte, IH.
Qed.

Lemma hex_decode_length s b : hex_decode s = Some b → length s = (2 * length b)%nat.
Proof.
  revert b. induction s as [s IH] using (induction_ltof1 _ length); unfold ltof in IH. intros b.
  destruct s as [|x [|y s]]; simpl; [by intros [= <-] | done |].
  destruct (unhex_digit x), (unhex_digit y); try done.
  destruct (hex_decode s) as [b' |] eqn:Hd; [| done]. intros [= <-].
  apply IH in Hd; [simpl; lia | simpl; lia].
Qed.

(** the hex form of an identity parses back to the identity, and whatever
    ParseDeviceID accepts is a 32-byte identity spelled by exactly 64 characters. *)
Theorem ParseDeviceID_roundtrip d s :
  (hash_len d → ParseDeviceID (DeviceID_String d) = Ok d) ∧
  (ParseDeviceID s = Ok d → hash_len d ∧ length s = 64%nat).
Proof.
  unfold ParseDeviceID, hash_len. split.
  - intros Hd. rewrite hex_decode_encode, Hd. done.
  - destruct (hex_decode s) as [b |] eqn:Hs; [| done].
    destruct (Nat.eqb_spec (length b) 32) as [Hb |]; [| done].
    intros [= <-]. apply hex_decode_length in Hs. lia.
Qed.

Lemma ParseDeviceID_roundtrip_witness :
  ParseDeviceID (DeviceID_String zero32) = Ok zero32 ∧ length (DeviceID_String zero32) = 64%nat.
Proof.
  split; [refine (proj1 (ParseDeviceID_roundtrip zero32 []) _); reflexivity |].
  refine (proj2 (proj2 (ParseDeviceID_roundtrip zero32 (DeviceID_String zero32)) _)).
  vm_compute. reflexivity.
Defined.
