(* ===== verification/Windows.v ===== *)
(** * Windows: reversible escaping of Windows-unsafe names (internal/pathnorm/windows.go) *)
From S2P Require Import Prelude Bytes Messages.

Definition chr (z : Z) : byte := byte_of_Z z.
Definition slash_c : byte := chr 47.     (* '/' *)
Definition backslash_c : byte := chr 92. (* '\' *)
Definition dot_c : byte := chr 46.
Definition space_c : byte := chr 32.
Definition percent_c : byte := chr 37.
Definition colon_c : byte := chr 58.

Definition MaxPath : Z := 260.

(** The string of characters the constant of the same name holds. *)
Definition reservedChars : bytes := chr <$> [60; 62; 58; 34; 47; 92; 124; 63; 42].

(** The superscripts one, two, three in UTF-8. *)
Definition superscripts : list bytes := [[chr 194; chr 185]; [chr 194; chr 178]; [chr 194; chr 179]].

Definition reservedStems : list bytes :=
  [go! "CON"; go! "PRN"; go! "AUX"; go! "NUL"] ++
  concat ((λ i, [go! "COM" ++ [chr (48 + i)]; go! "LPT" ++ [chr (48 + i)]]) <$> [1; 2; 3; 4; 5; 6; 7; 8; 9]) ++
  concat ((λ s, [go! "COM" ++ s; go! "LPT" ++ s]) <$> superscripts).

Definition isReservedChar (b : byte) : bool := bool_decide (b ∈ reservedChars).
Definition isControl (b : byte) : bool := Z_of_byte b <=? 31.

Definition stemOf (name : bytes) : bytes :=
  match index_byte name dot_c with
  | Some i => take i name
  | None => name
  end.

(** [strings.ToUpper] on the letters that matter here: no other rune is upper-cased
    to a character of a reserved stem, so membership in the set is the same. *)
Definition upper_byte (b : byte) : byte :=
  let z := Z_of_byte b in if (97 <=? z) && (z <=? 122) then chr (z - 32) else b.
Definition ToUpper (s : bytes) : bytes := upper_byte <$> s.

Definition isReservedStem (name : bytes) : bool := bool_decide (ToUpper (stemOf name) ∈ reservedStems).

Definition IsWindowsUnsafe (name : bytes) : bool :=
  match last name with
  | None => false
  | Some l =>
    if existsb (λ c, isReservedChar c || isControl c) name then true
    else if isReservedStem name then true
    else bool_decide (l = space_c) || bool_decide (l = dot_c)
  end.

Definition hex_upper (z : Z) : byte := chr (if z <? 10 then 48 + z else 55 + z).
Definition hex2 (b : byte) : bytes :=
  [percent_c; hex_upper (Z.shiftr (Z_of_byte b) 4); hex_upper (Z.land (Z_of_byte b) 15)].

(** The per-byte step of the builder loop. *)
Definition escape_byte (c : byte) : bytes :=
  if decide (c = percent_c) then go! "%25"
  else if isReservedChar c || isControl c then hex2 c
  else [c].

(** Step (3): a trailing space or period. *)
Definition escape_last (s : bytes) : bytes :=
  match last s with
  | Some l =>
    if bool_decide (l = space_c) || bool_decide (l = dot_c)
    then take (length s - 1) s ++ hex2 l else s
  | None => s
  end.

(** Step (4): the first byte of a reserved device stem. *)
Definition escape_stem (name s : bytes) : bytes :=
  match s with
  | c :: s' => if isReservedStem name && negb (bool_decide (c = percent_c)) then hex2 c ++ s' else s
  | [] => s
  end.

Definition EscapeForWindows (name : bytes) : bytes :=
  match name with
  | [] => name
  | _ => escape_stem name (escape_last (concat (escape_byte <$> name)))
  end.

Definition unhex (c : byte) : option Z :=
  let z := Z_of_byte c in
  if (48 <=? z) && (z <=? 57) then Some (z - 48)
  else if (65 <=? z) && (z <=? 70) then Some (z - 65 + 10)
  else if (97 <=? z) && (z <=? 102) then Some (z - 97 + 10)
  else None.

Fixpoint unescape_loop (s : bytes) : bytes :=
  match s with
  | [] => []
  | c :: s1 =>
    if decide (c = percent_c) then
      match s1 with
      | a :: ((b :: s3) as s2) =>
        match unhex a with
        | Some h => match unhex b with
                    | Some l => byte_of_Z (Z.lor (wrap 8 (Z.shiftl h 4)) l) :: unescape_loop s3
                    | None => c :: unescape_loop s1
                    end
        | None => c :: unescape_loop s1
        end
      | _ => c :: unescape_loop s1
      end
    else c :: unescape_loop s1
  end.

Definition UnescapeFromWindows (s : bytes) : bytes :=
  if bool_decide (percent_c ∈ s) then unescape_loop s else s.

(** ** Escaping byte by byte *)

(** The whole-string properties come from three facts about one byte, each
    checked on all 256 of them. *)
Ltac all_bytes c := destruct c as [[] [] [] [] [] [] [] []]; vm_compute.

Lemma unhex_hex2 c :
  unhex (hex_upper (Z.shiftr (Z_of_byte c) 4)) = Some (Z.shiftr (Z_of_byte c) 4) ∧
  unhex (hex_upper (Z.land (Z_of_byte c) 15)) = Some (Z.land (Z_of_byte c) 15) ∧
  byte_of_Z (Z.lor (wrap 8 (Z.shiftl (Z.shiftr (Z_of_byte c) 4) 4)) (Z.land (Z_of_byte c) 15)) = c.
Proof. all_bytes c; by repeat split. Qed.

Lemma unescape_hex2 c s : unescape_loop (hex2 c ++ s) = c :: unescape_loop s.
Proof.
  unfold hex2. cbn [app unescape_loop]. rewrite decide_True by done.
  destruct (unhex_hex2 c) as (-> & -> & ->). done.
Qed.

Lemma escape_byte_cases c :
  escape_byte c = [c] ∧ c ≠ percent_c ∧ isReservedChar c = false ∧ isControl c = false
  ∨ escape_byte c = hex2 c.
Proof. all_bytes c; first [by right | left; repeat split; discriminate]. Qed.

Lemma unescape_plain c s : c ≠ percent_c → unescape_loop (c :: s) = c :: unescape_loop s.
Proof. intros Hc. simpl. by rewrite decide_False. Qed.

Lemma unescape_escape_byte c s : unescape_loop (escape_byte c ++ s) = c :: unescape_loop s.
Proof.
  destruct (escape_byte_cases c) as [(-> & Hp & _) | ->]; [by apply unescape_plain | apply unescape_hex2].
Qed.

Lemma unescape_escape_bytes name s :
  unescape_loop (concat (escape_byte <$> name) ++ s) = name ++ unescape_loop s.
Proof.
  induction name as [|c name IH]; [done |]. cbn [fmap list_fmap concat].
  by rewrite <- app_assoc, unescape_escape_byte, IH.
Qed.

Lemma unescape_no_percent s : percent_c ∉ s → unescape_loop s = s.
Proof.
  induction s as [|c s IH]; [done |]. rewrite not_elem_of_cons. intros [Hc Hs].
  rewrite unescape_plain by congruence. by rewrite IH.
Qed.

Lemma Unescape_loop s : UnescapeFromWindows s = unescape_loop s.
Proof.
  unfold UnescapeFromWindows. case_bool_decide; [done |]. symmetry. by apply unescape_no_percent.
Qed.

(** Safe characters of an on-disk name: none that Windows forbids. *)
Definition safe_char (c : byte) : bool := negb (isReservedChar c || isControl c).

Lemma safe_chars_spec s : forallb safe_char s = true ↔ Forall (λ x, safe_char x = true) s.
Proof. rewrite forallb_forall, Forall_forall. setoid_rewrite list_elem_of_In. done. Qed.
Lemma hex2_safe c : Forall (λ x, safe_char x = true) (hex2 c).
Proof. apply safe_chars_spec. all_bytes c; reflexivity. Qed.
Lemma escape_byte_safe c : Forall (λ x, safe_char x = true) (escape_byte c).
Proof. apply safe_chars_spec. all_bytes c; reflexivity. Qed.
Lemma hex2_last c : ∃ p l, hex2 c = p ++ [l] ∧ l ≠ space_c ∧ l ≠ dot_c ∧ p ≠ [].
Proof.
  exists [percent_c; hex_upper (Z.shiftr (Z_of_byte c) 4)], (hex_upper (Z.land (Z_of_byte c) 15)).
  split; [done |]. all_bytes c; repeat split; discriminate.
Qed.

(** ** The trailing byte and the stem *)

Lemma escape_last_cases s :
  escape_last s = s ∧ (∀ l, last s = Some l → l ≠ space_c ∧ l ≠ dot_c)
  ∨ ∃ p l, s = p ++ [l] ∧ (l = space_c ∨ l = dot_c) ∧ escape_last s = p ++ hex2 l.
Proof.
  unfold escape_last. destruct (last s) as [l |] eqn:Hl.
  - apply last_Some in Hl as [p ->].
    destruct (bool_decide (l = space_c) || bool_decide (l = dot_c)) eqn:Hb.
    + right. exists p, l. rewrite orb_true_iff, !bool_decide_eq_true in Hb.
      split_and!; [done | done |]. rewrite length_app. simpl.
      replace (length p + 1 - 1)%nat with (length p) by lia. by rewrite take_app_length.
    + left. rewrite orb_false_iff, !bool_decide_eq_false in Hb. split; [done |].
      intros l' [= <-]. tauto.
  - left. split; [done | congruence].
Qed.

(** A trailing space or period of the escaped bytes is the last byte of the name. *)
Lemma escaped_trailing name p l :
  concat (escape_byte <$> name) = p ++ [l] → l = space_c ∨ l = dot_c →
  ∃ name', name = name' ++ [l] ∧ p = concat (escape_byte <$> name').
Proof.
  intros H Hl. destruct name as [|c name _] using rev_ind; [by destruct p |].
  rewrite fmap_app, concat_app in H. cbn [fmap list_fmap concat] in H. rewrite app_nil_r in H.
  destruct (escape_byte_cases c) as [(Hc & _) | Hc]; rewrite Hc in H.
  - apply app_inj_tail in H as [H1 ->]. eauto.
  - destruct (hex2_last c) as (q & m & Hq & Hm1 & Hm2 & _). rewrite Hq, app_assoc in H.
    apply app_inj_tail in H as [_ ->]. naive_solver.
Qed.

Lemma unescape_escape_last name :
  unescape_loop (escape_last (concat (escape_byte <$> name))) = name.
Proof.
  destruct (escape_last_cases (concat (escape_byte <$> name))) as [[-> _] | (p & l & Hs & Hl & ->)].
  - rewrite <- (app_nil_r (concat _)), unescape_escape_bytes. apply app_nil_r.
  - destruct (escaped_trailing name p l Hs Hl) as (name' & -> & ->).
    rewrite unescape_escape_bytes. f_equal. exact (unescape_hex2 l []).
Qed.

Lemma unescape_escape_stem name s : unescape_loop (escape_stem name s) = unescape_loop s.
Proof.
  destruct s as [|c s]; [done |]. unfold escape_stem.
  destruct (isReservedStem name && negb (bool_decide (c = percent_c))) eqn:H; [| done].
  apply andb_true_iff in H as [_ H]. apply negb_true_iff, bool_decide_eq_false in H.
  by rewrite unescape_hex2, unescape_plain.
Qed.

(** ** The escaped name is legal *)

Lemma isReservedStem_no_percent name : isReservedStem name = true → percent_c ∉ stemOf name.
Proof.
  unfold isReservedStem. rewrite bool_decide_eq_true. intros Hin Hp.
  assert (Forall (λ s, percent_c ∉ s) reservedStems) as Hall.
  { apply (bool_decide_unpack _). vm_compute. exact I. }
  rewrite Forall_forall in Hall. apply (Hall _ Hin).
  unfold ToUpper. apply list_elem_of_fmap. exists percent_c. split; [reflexivity | done].
Qed.

Lemma stemOf_cons c s : stemOf (c :: s) = if decide (c = dot_c) then [] else c :: stemOf s.
Proof. unfold stemOf. simpl. case_decide; [done |]. by destruct (index_byte s dot_c). Qed.

Lemma isReservedStem_percent s : isReservedStem (percent_c :: s) = false.
Proof.
  destruct (isReservedStem _) eqn:H; [| done]. apply isReservedStem_no_percent in H.
  rewrite stemOf_cons, decide_False in H by done. rewrite not_elem_of_cons in H. by destruct H.
Qed.

Lemma stemOf_escaped name :
  percent_c ∉ stemOf (concat (escape_byte <$> name)) → stemOf (concat (escape_byte <$> name)) = stemOf name.
Proof.
  induction name as [|c name IH]; [done |]. cbn [fmap list_fmap concat].
  destruct (escape_byte_cases c) as [(-> & Hp & _) | ->]; unfold hex2; cbn [app]; rewrite !stemOf_cons.
  - case_decide; [done |]. rewrite not_elem_of_cons. intros [_ Hn]. by rewrite IH.
  - rewrite (decide_False (P := percent_c = dot_c)) by done. rewrite not_elem_of_cons. naive_solver.
Qed.

Lemma stemOf_before_percent a b x :
  percent_c ∉ stemOf (a ++ percent_c :: b) → stemOf (a ++ percent_c :: b) = stemOf (a ++ x).
Proof.
  induction a as [|c a IH]; cbn [app]; rewrite !stemOf_cons.
  - rewrite decide_False by done. rewrite not_elem_of_cons. naive_solver.
  - case_decide; [done |]. rewrite not_elem_of_cons. intros [_ Hn]. by rewrite IH.
Qed.

Lemma escape_not_reserved name : isReservedStem (EscapeForWindows name) = false.
Proof.
  destruct name as [|c0 name0]; [reflexivity |]. unfold EscapeForWindows. set (name := c0 :: name0). clearbody name.
  set (s1 := concat (escape_byte <$> name)).
  assert (isReservedStem (escape_last s1) = true → isReservedStem name = true) as Hback.
  { intros H. assert (Hp := H). apply isReservedStem_no_percent in Hp.
    assert (stemOf (escape_last s1) = stemOf s1) as Hs.
    { destruct (escape_last_cases s1) as [[-> _] | (p & l & Hs & _ & He)]; [done |].
      rewrite He in *. unfold hex2 in *. rewrite (stemOf_before_percent p _ [l]) by done. by rewrite <- Hs. }
    unfold isReservedStem in *. rewrite Hs in *. unfold s1 in *. by rewrite stemOf_escaped in H by done. }
  unfold escape_stem. destruct (escape_last s1) as [|c s'] eqn:Hs; [reflexivity |].
  destruct (isReservedStem name) eqn:Hr; simpl.
  - case_bool_decide as Hc; [subst; apply isReservedStem_percent | apply isReservedStem_percent].
  - destruct (isReservedStem (c :: s')) eqn:H; [| done]. by specialize (Hback eq_refl).
Qed.

Lemma escape_chars_safe name : Forall (λ x, safe_char x = true) (EscapeForWindows name).
Proof.
  destruct name as [|c0 name0]; [constructor |]. unfold EscapeForWindows. set (name := c0 :: name0). clearbody name.
  assert (Forall (λ x, safe_char x = true) (concat (escape_byte <$> name))) as H1.
  { induction name as [|c name IH]; [constructor |]. cbn [fmap list_fmap concat].
    apply Forall_app. split; [apply escape_byte_safe | done]. }
  assert (Forall (λ x, safe_char x = true) (escape_last (concat (escape_byte <$> name)))) as H2.
  { destruct (escape_last_cases (concat (escape_byte <$> name))) as [[-> _] | (p & l & Hs & _ & ->)]; [done |].
    rewrite Hs, Forall_app in H1. apply Forall_app. split; [apply H1 | apply hex2_safe]. }
  unfold escape_stem. destruct (escape_last _) as [|c s]; [done |].
  destruct (isReservedStem name && _); [| done].
  apply Forall_app. split; [apply hex2_safe | by inversion H2].
Qed.

Lemma escape_last_legal s l : last (escape_last s) = Some l → l ≠ space_c ∧ l ≠ dot_c.
Proof.
  destruct (escape_last_cases s) as [[-> H] | (p & m & _ & _ & ->)]; [by apply H |].
  destruct (hex2_last m) as (q & x & -> & Hx & Hd & _). rewrite app_assoc, last_snoc. by intros [= <-].
Qed.

Lemma escape_trailing_legal name l : last (EscapeForWindows name) = Some l → l ≠ space_c ∧ l ≠ dot_c.
Proof.
  destruct name as [|c0 name0]; [done |]. unfold EscapeForWindows. set (name := c0 :: name0). clearbody name.
  pose proof (escape_last_legal (concat (escape_byte <$> name))) as Hl.
  unfold escape_stem. destruct (escape_last _) as [|c s]; [apply Hl |].
  destruct (isReservedStem name && _); [| apply Hl].
  destruct (hex2_last c) as (q & x & -> & Hx & Hd & _).
  destruct s as [|y s]; [rewrite app_nil_r, last_snoc; by intros [= <-] |].
  rewrite last_app_cons. intros H. apply Hl. by rewrite last_cons, H.
Qed.

(** * Properties *)

(** the Windows escaping is reversible and produces legal names: for every
    component, UnescapeFromWindows of EscapeForWindows gives the component back
    (so the escaping is injective), and the escaped form is never unsafe: no
    reserved or control character, no reserved device stem, no trailing space
    or period. *)
Theorem escape_reversible_and_safe name :
  UnescapeFromWindows (EscapeForWindows name) = name ∧
  IsWindowsUnsafe (EscapeForWindows name) = false ∧
  ∀ name', EscapeForWindows name' = EscapeForWindows name → name' = name.
Proof.
  assert (∀ n, UnescapeFromWindows (EscapeForWindows n) = n) as Hinv.
  { intros n. rewrite Unescape_loop. destruct n as [|c n]; [done |].
    unfold EscapeForWindows. by rewrite unescape_escape_stem, unescape_escape_last. }
  split_and!; [done | | intros name' H; by rewrite <- (Hinv name'), H].
  unfold IsWindowsUnsafe. destruct (last (EscapeForWindows name)) as [l |] eqn:Hl; [| done].
  apply escape_trailing_legal in Hl as [H1 H2].
  assert (existsb (λ c, isReservedChar c || isControl c) (EscapeForWindows name) = false) as ->.
  { pose proof (escape_chars_safe name) as Hs. induction Hs as [|c s Hc Hs IH]; [done |].
    simpl. unfold safe_char in Hc. apply negb_true_iff in Hc. by rewrite Hc, IH. }
  rewrite escape_not_reserved, !bool_decide_eq_false_2 by done. done.
Qed.

(** a name that is already legal on Windows and has no percent sign is
    written verbatim. *)
Theorem escape_identity name :
  IsWindowsUnsafe name = false → percent_c ∉ name → EscapeForWindows name = name.
Proof.
  intros Hu Hp. destruct name as [|c0 name0]; [done |]. unfold EscapeForWindows.
  set (name := c0 :: name0) in *. assert (name ≠ []) as Hne by done. clearbody name.
  unfold IsWindowsUnsafe in Hu. destruct (last name) as [l |] eqn:Hl; [| by apply last_None in Hl].
  destruct (existsb _ name) eqn:Hex; [done |]. destruct (isReservedStem name) eqn:Hst; [done |].
  assert (concat (escape_byte <$> name) = name) as ->.
  { clear -Hex Hp. induction name as [|c name IH]; [done |]. simpl in Hex.
    apply orb_false_iff in Hex as [Hc Hex]. rewrite not_elem_of_cons in Hp. destruct Hp as [Hpc Hp].
    cbn [fmap list_fmap concat]. rewrite IH by done. unfold escape_byte.
    rewrite decide_False by congruence. by rewrite Hc. }
  destruct (escape_last_cases name) as [[-> _] | (p & m & -> & Hm & _)].
  - unfold escape_stem. destruct name; [done |]. by rewrite Hst.
  - rewrite last_snoc in Hl. injection Hl as ->.
    destruct Hm as [-> | ->]; vm_compute in Hu; discriminate.
Qed.

Lemma escape_identity_witness :
  EscapeForWindows (go! "report.v2.txt") = go! "report.v2.txt".
Proof.
  refine (escape_identity (go! "report.v2.txt") _ _); [reflexivity |].
  apply (bool_decide_unpack _). vm_compute. exact I.
Defined.
