(* ===== verification/Pathnorm.v ===== *)
(** * Pathnorm: canonical keys and OS paths (internal/pathnorm/pathnorm.go, normalize.go, casefold.go)

    A canonical key is a relative, forward-slash, NFC path. The Unicode
    normaliser and the case folder are golang.org/x/text, not code of the
    repository: they are the class [Unicode], with the laws the package
    relies on in [UnicodeLaws]. The host is a POSIX one ([HostTarget] = [Unix]);
    the Windows target is the one the code computes on every host. *)
From S2P Require Import Prelude Bytes Messages Windows.

(** ** Parameters: golang.org/x/text/unicode/norm and golang.org/x/text/cases *)
Class Unicode := {
  nfc : bytes → bytes;          (* norm.NFC.String *)
  cases_fold : bytes → bytes    (* cases.Fold().String *)
}.

(** What is relied on of NFC: it is idempotent, it does not produce a separator, no
    other string is composed to the empty string, "." or "..", and a full stop is
    inert: it is neither produced nor composed with what stands next to it. *)
Class UnicodeLaws `{Unicode} := {
  nfc_idem s : nfc (nfc s) = nfc s;
  nfc_no_sep s : slash_c ∉ s → slash_c ∉ nfc s;
  nfc_dots s : nfc s = [] ∨ nfc s = go! "." ∨ nfc s = go! ".." → nfc s = s;
  nfc_no_stop s : dot_c ∉ s → dot_c ∉ nfc s;
  nfc_stop s t : nfc (s ++ dot_c :: t) = nfc s ++ dot_c :: nfc t
}.

(** ** Package [path] *)
Definition dot : bytes := go! ".".
Definition dotdot : bytes := go! "..".

(** The rewriting of [path.Clean] on the components, [acc] reversed. *)
Fixpoint clean_loop (rooted : bool) (acc l : list bytes) : list bytes :=
  match l with
  | [] => reverse acc
  | c :: l' =>
    if decide (c = [] ∨ c = dot) then clean_loop rooted acc l'
    else if decide (c = dotdot) then
      match acc with
      | [] => if rooted then clean_loop rooted [] l' else clean_loop rooted [dotdot] l'
      | a :: acc' =>
        if decide (a = dotdot) then clean_loop rooted (dotdot :: acc) l'
        else clean_loop rooted acc' l'
      end
    else clean_loop rooted (c :: acc) l'
  end.

Definition is_rooted (s : bytes) : bool := has_prefix [slash_c] s.
Definition clean_comps (s : bytes) : list bytes := clean_loop (is_rooted s) [] (split_on slash_c s).
Definition path_Clean (s : bytes) : bytes :=
  let body := join_with [slash_c] (clean_comps s) in
  if is_rooted s then slash_c :: body
  else if decide (body = []) then dot else body.

(** [filepath.Rel] on a POSIX host, on the words of the cleaned paths. *)
Fixpoint strip_common (b t : list bytes) : list bytes * list bytes :=
  match b, t with
  | x :: b', y :: t' => if decide (x = y) then strip_common b' t' else (b, t)
  | _, _ => (b, t)
  end.
Definition path_words (s : bytes) : list bytes :=
  if is_rooted s then clean_comps s
  else match s with [] => [] | _ => split_on slash_c s end.
Definition filepath_Rel (basepath targpath : bytes) : option bytes :=
  let base := path_Clean basepath in
  let targ := path_Clean targpath in
  if decide (targ = base) then Some dot else
  let base := if decide (base = dot) then [] else base in
  if decide (is_rooted base ≠ is_rooted targ) then None else
  let '(b, t) := strip_common (path_words base) (path_words targ) in
  match b, t with
  | [], _ => Some (join_with [slash_c] t)
  | x :: _, _ :: _ =>
    if decide (x = dotdot) then None
    else Some (join_with [slash_c] (repeat dotdot (length b) ++ t))
  | _ :: _, [] => Some (join_with [slash_c] (repeat dotdot (length b)))
  end.

(** ** pathnorm.go *)
Inductive Target := Unix | Windows.
#[export] Instance Target_eq_dec : EqDecision Target.
Proof. solve_decision. Defined.

Definition HostTarget : Target := Unix.
Definition sep (t : Target) : byte := match t with Windows => backslash_c | Unix => slash_c end.

Inductive PathError := ErrNotCanonical | ErrRelativize.

Definition isDriveLetter (b : byte) : bool :=
  let z := Z_of_byte b in ((65 <=? z) && (z <=? 90)) || ((97 <=? z) && (z <=? 122)).

Definition stripVolumePrefix (s : bytes) : bytes :=
  let s :=
    if (4 <=? length s)%nat &&
       (bool_decide (take 4 s = go! "//?/") || bool_decide (take 4 s = [backslash_c; backslash_c; chr 63; backslash_c]))
    then drop 4 s else s in
  match s with
  | c :: d :: s' => if bool_decide (d = colon_c) && isDriveLetter c then s' else s
  | _ => s
  end.

Section pathnorm.
Context `{Unicode}.

Definition NormalizeComponent (s : bytes) : bytes := nfc s.

Definition canonFromComponents (slash : bytes) : Result PathError bytes :=
  let slash := stripVolumePrefix slash in
  if has_prefix [slash_c] slash then Err ErrNotCanonical else
  let cleaned := path_Clean slash in
  if decide (cleaned = dot) then Ok []
  else if bool_decide (cleaned = dotdot) || has_prefix (dotdot ++ [slash_c]) cleaned then Err ErrNotCanonical
  else Ok (join_with [slash_c] (NormalizeComponent <$> split_on slash_c cleaned)).

(** [filepath.ToSlash] is the identity on a POSIX host. *)
Definition ToSlash (s : bytes) : bytes := s.
Definition Canonicalize (osRelPath : bytes) : Result PathError bytes := canonFromComponents (ToSlash osRelPath).
Definition CanonicalizeSlash (slashRel : bytes) : Result PathError bytes := canonFromComponents slashRel.

Definition ToOSPath (absRoot canonKey : bytes) (target : Target) : bytes :=
  let rel :=
    match canonKey with
    | [] => []
    | _ =>
      let comps := split_on slash_c canonKey in
      let comps := if decide (target = Windows) then EscapeForWindows <$> comps else comps in
      join_with [sep target] comps
    end in
  match absRoot with
  | [] => rel
  | _ =>
    let root := trim_right_byte (sep target) absRoot in
    match rel with
    | [] => root
    | _ => root ++ [sep target] ++ rel
    end
  end.

Definition relativize (absRoot osPath : bytes) (target : Target) : Result PathError bytes :=
  if decide (target = HostTarget) then
    match filepath_Rel absRoot osPath with
    | None => Err ErrRelativize
    | Some rel => Ok (ToSlash rel)
    end
  else
    let root := trim_right_byte (sep target) absRoot in
    if decide (osPath = root) then Ok []
    else if has_prefix (root ++ [sep target]) osPath then
      Ok (replace_byte (sep target) slash_c (drop (length root + 1) osPath))
    else Err ErrRelativize.

Definition FromOSPath (absRoot osPath : bytes) (target : Target) : Result PathError bytes :=
  let! rel := relativize absRoot osPath target in
  let rel := stripVolumePrefix rel in
  match rel with
  | [] => Ok []
  | _ =>
    let comps := split_on slash_c rel in
    let comps := if decide (target = Windows) then UnescapeFromWindows <$> comps else comps in
    canonFromComponents (join_with [slash_c] comps)
  end.

Definition WouldExceedMaxPath (absRoot canonKey : bytes) : bool :=
  MaxPath <? Z.of_nat (length (ToOSPath absRoot canonKey Windows)).

(** *** casefold.go *)
Definition Fold (component : bytes) : bytes := cases_fold (NormalizeComponent component).

Record FoldIndex := mkFoldIndex { m : gmap bytes bytes }.
Definition NewFoldIndex : FoldIndex := mkFoldIndex ∅.

Definition Add (fi : FoldIndex) (key : bytes) : FoldIndex * (bytes * bool) :=
  let f := Fold key in
  match fi.(m) !! f with
  | Some prev => if decide (prev = key) then (fi, ([], false)) else (fi, (prev, true))
  | None => (mkFoldIndex (<[f := key]> fi.(m)), ([], false))
  end.
Definition Len (fi : FoldIndex) : Z := Z.of_nat (size fi.(m)).

End pathnorm.

(** An instance for closed runs: ASCII data, on which NFC is the identity and
    folding is lower-casing. *)
Definition lower_byte (b : byte) : byte :=
  let z := Z_of_byte b in if (65 <=? z) && (z <=? 90) then chr (z + 32) else b.
#[export] Instance ascii_unicode : Unicode := {| nfc s := s; cases_fold s := lower_byte <$> s |}.
#[export] Instance ascii_unicode_laws : UnicodeLaws.
Proof. split; auto. Qed.

(** ** Component lists *)

(** A component that names a directory entry. *)
Definition proper (c : bytes) : Prop := c ≠ [] ∧ c ≠ dot ∧ c ≠ dotdot ∧ slash_c ∉ c.
#[export] Instance proper_dec c : Decision (proper c).
Proof. unfold proper. apply _. Defined.

Definition canonical_comp `{Unicode} (c : bytes) : Prop := proper c ∧ nfc c = c.

(** The keys the tree may hold: the root, or proper NFC components. *)
Definition canonical_key `{Unicode} (k : bytes) : Prop :=
  k = [] ∨ Forall canonical_comp (split_on slash_c k).
#[export] Instance canonical_key_dec `{Unicode} k : Decision (canonical_key k).
Proof. unfold canonical_key, canonical_comp. apply _. Defined.

Lemma clean_loop_app r acc l1 l2 :
  clean_loop r acc (l1 ++ l2) = clean_loop r (reverse (clean_loop r acc l1)) l2.
Proof.
  revert acc. induction l1 as [|c l1 IH]; intros acc; simpl; [by rewrite reverse_involutive |].
  repeat case_match; auto.
Qed.

Lemma clean_loop_proper r acc l :
  Forall proper l → clean_loop r acc l = reverse acc ++ l.
Proof.
  intros Hl. revert acc. induction Hl as [|c l (H1 & H2 & H3 & _) _ IH]; intros acc; simpl.
  - by rewrite app_nil_r.
  - rewrite decide_False by naive_solver. rewrite decide_False by done.
    by rewrite IH, reverse_cons, <- app_assoc.
Qed.

(** A cleaned list is a run of ".." followed by proper components; no ".." when rooted. *)
Definition cleaned (r : bool) (l : list bytes) : Prop :=
  ∃ n p, l = repeat dotdot n ++ p ∧ Forall proper p ∧ (r = true → n = 0%nat).

Lemma clean_loop_cleaned r acc l :
  Forall (λ c, slash_c ∉ c) l → cleaned r (reverse acc) → cleaned r (clean_loop r acc l).
Proof.
  intros Hl. revert acc. induction Hl as [|c l Hc Hl IH]; intros acc (n & p & Hacc & Hp & Hn); simpl.
  { by exists n, p. }
  case_decide as H1; [apply IH; by exists n, p |].
  case_decide as H2.
  - subst c. destruct acc as [|a acc].
    + destruct r; apply IH; [exists 0%nat, [] | exists 1%nat, []]; split_and!; done.
    + rewrite reverse_cons in Hacc.
      destruct p as [|x p _] using rev_ind.
      * rewrite app_nil_r in Hacc.
        assert (a = dotdot) as ->.
        { apply (Forall_forall (λ x, x = dotdot) (repeat dotdot n)).
          - clear. induction n; simpl; constructor; auto.
          - rewrite <- Hacc. apply elem_of_app. right. by apply list_elem_of_singleton. }
        rewrite decide_True by done. apply IH. rewrite !reverse_cons, Hacc.
        exists (S n), []. rewrite app_nil_r. split_and!; [symmetry; apply repeat_cons | done |].
        intros Hr. destruct n; [by destruct (reverse acc) | by specialize (Hn Hr)].
      * rewrite app_assoc in Hacc. apply app_inj_tail in Hacc as [Hacc <-].
        apply Forall_app in Hp as [Hp Ha]. inversion Ha as [|? ? (? & ? & ? & ?)].
        rewrite decide_False by done. apply IH. by exists n, p.
  - apply IH. rewrite reverse_cons, Hacc. exists n, (p ++ [c]).
    rewrite app_assoc. split_and!; [done | | done]. apply Forall_app. split; [done |].
    repeat constructor; naive_solver.
Qed.

Lemma clean_comps_cleaned s : cleaned (is_rooted s) (clean_comps s).
Proof. apply clean_loop_cleaned; [apply split_on_no_sep | by exists 0%nat, []]. Qed.

Lemma proper_no_sep l : Forall proper l → Forall (λ c, slash_c ∉ c) l.
Proof. intros H. apply (Forall_impl proper _ _ H). by intros c (_ & _ & _ & Hc). Qed.

Lemma split_join_proper l : l ≠ [] → Forall proper l → split_on slash_c (join_with [slash_c] l) = l.
Proof. intros Hne Hl. apply split_join; [done | by apply proper_no_sep]. Qed.

Lemma join_with_cons_app sep x l : l ≠ [] → join_with sep (x :: l) = x ++ sep ++ join_with sep l.
Proof. by destruct l. Qed.

Lemma join_with_app sep l1 l2 :
  l1 ≠ [] → l2 ≠ [] → join_with sep (l1 ++ l2) = join_with sep l1 ++ sep ++ join_with sep l2.
Proof.
  intros H1 H2. induction l1 as [|x l1 IH]; [done |]. destruct l1 as [|y l1].
  - cbn [app]. by rewrite join_with_cons_app.
  - cbn [app] in *. rewrite (join_with_cons_app sep x (y :: l1)) by done.
    rewrite join_with_cons_app by done. rewrite IH by done. by rewrite <- !app_assoc.
Qed.

Lemma is_rooted_join l : Forall proper l → is_rooted (join_with [slash_c] l) = false.
Proof.
  intros Hl. destruct Hl as [|c l (H1 & _ & _ & Hs) _]; [done |].
  destruct c as [|x c]; [done |]. rewrite not_elem_of_cons in Hs. destruct Hs as [Hx _].
  unfold is_rooted. destruct l; simpl; by rewrite bool_decide_eq_false_2.
Qed.

Lemma join_proper_not_dots l :
  Forall proper l → l ≠ [] → join_with [slash_c] l ≠ [] ∧ join_with [slash_c] l ≠ dot ∧
  join_with [slash_c] l ≠ dotdot ∧ has_prefix (dotdot ++ [slash_c]) (join_with [slash_c] l) = false.
Proof.
  intros Hl Hne. pose proof (split_join_proper l Hne Hl) as Hs.
  assert (∀ c t, split_on slash_c (join_with [slash_c] l) = c :: t → proper c) as Hfirst.
  { rewrite Hs. intros c t ->. by inversion Hl. }
  split_and!.
  1-3: intros He; rewrite He in Hfirst; destruct (Hfirst _ _ eq_refl) as (? & ? & ? & ?); done.
  destruct (has_prefix _ _) eqn:Hp; [| done]. apply has_prefix_spec in Hp as [t Ht].
  rewrite Ht, <- app_assoc in Hfirst. simpl in Hfirst.
  destruct (Hfirst _ _ eq_refl) as (_ & _ & ? & _); done.
Qed.

Lemma clean_comps_split k : Forall proper (split_on slash_c k) → clean_comps k = split_on slash_c k.
Proof. intros H. unfold clean_comps. by rewrite clean_loop_proper. Qed.

Lemma clean_comps_nil : clean_comps [] = [].
Proof. reflexivity. Qed.

Section canon.
Context `{UnicodeLaws}.

(** The whole of [canonFromComponents] in one equation. *)
Lemma canonFromComponents_eq s :
  canonFromComponents s =
  let s' := stripVolumePrefix s in
  if is_rooted s' then Err ErrNotCanonical
  else if decide (Forall proper (clean_comps s')) then Ok (join_with [slash_c] (nfc <$> clean_comps s'))
  else Err ErrNotCanonical.
Proof.
  unfold canonFromComponents. cbv zeta. set (s' := stripVolumePrefix s). clearbody s'.
  fold (is_rooted s'). destruct (is_rooted s') eqn:Hr; [done |].
  unfold path_Clean. rewrite Hr.
  destruct (clean_comps_cleaned s') as (n & p & -> & Hp & _). destruct n as [|n].
  - cbn [repeat app]. rewrite (decide_True (P := Forall proper p)) by done.
    destruct (decide (p = [])) as [-> | Hne]; [done |].
    destruct (join_proper_not_dots p Hp Hne) as (H1 & H2 & H3 & H4).
    rewrite (decide_False (P := join_with [slash_c] p = [])), (decide_False (P := join_with [slash_c] p = dot)) by done.
    rewrite H4, bool_decide_eq_false_2 by done. cbn [orb]. by rewrite split_join_proper.
  - rewrite (decide_False (P := Forall proper _)).
    2:{ cbn [repeat app]. inversion_clear 1 as [|? ? (? & ? & ? & ?)]. done. }
    cbn [repeat app]. destruct (decide (repeat dotdot n ++ p = [])) as [-> | Hne]; [done |].
    rewrite join_with_cons_app by done. reflexivity.
Qed.

Lemma nfc_proper c : proper c → proper (nfc c) ∧ nfc (nfc c) = nfc c.
Proof.
  intros (H1 & H2 & H3 & H4). split; [| apply nfc_idem]. unfold dot, dotdot in *.
  split_and!; [| | | by apply nfc_no_sep].
  all: intros He; pose proof (nfc_dots c) as Hd; rewrite He in Hd; naive_solver.
Qed.

Lemma canonFromComponents_canonical s k : canonFromComponents s = Ok k → canonical_key k.
Proof.
  rewrite canonFromComponents_eq. cbv zeta. destruct (is_rooted _); [done |].
  case_decide as Hp; [| done]. intros [= <-].
  destruct (clean_comps (stripVolumePrefix s)) as [|c l] eqn:Hc; [by left |]. right.
  assert (Forall canonical_comp (nfc <$> (c :: l))) as Hall.
  { apply Forall_fmap. apply (Forall_impl proper _ _ Hp). intros x Hx. by apply nfc_proper. }
  rewrite split_join_proper; [done | done |].
  apply (Forall_impl canonical_comp _ _ Hall). by intros x [Hx _].
Qed.

Lemma canonical_proper k : canonical_key k → k ≠ [] → Forall proper (split_on slash_c k).
Proof.
  intros [-> | Hk] Hne; [done |]. apply (Forall_impl canonical_comp _ _ Hk). by intros x [Hx _].
Qed.

Lemma canonical_clean k : canonical_key k → k ≠ [] → clean_comps k = split_on slash_c k.
Proof. intros. by apply clean_comps_split, canonical_proper. Qed.

Lemma canonical_not_rooted k : canonical_key k → is_rooted k = false.
Proof.
  intros Hk. destruct (decide (k = [])) as [-> | Hne]; [done |].
  rewrite <- (join_split slash_c k). by apply is_rooted_join, canonical_proper.
Qed.

Lemma canonical_nfc k : canonical_key k → k ≠ [] → nfc <$> split_on slash_c k = split_on slash_c k.
Proof.
  intros [-> | Hk] Hne; [done |]. rewrite <- list_fmap_id. apply list_fmap_ext.
  intros i x Hx. rewrite Forall_lookup in Hk. by destruct (Hk i x Hx).
Qed.

Lemma canonFromComponents_fixed k :
  canonical_key k → stripVolumePrefix k = k → canonFromComponents k = Ok k.
Proof.
  intros Hk Hs. rewrite canonFromComponents_eq. cbv zeta. rewrite Hs, canonical_not_rooted by done.
  destruct (decide (k = [])) as [-> | Hne].
  { rewrite clean_comps_nil, decide_True by done. done. }
  rewrite canonical_clean, decide_True by auto using canonical_proper.
  by rewrite canonical_nfc, join_split.
Qed.

End canon.

(** ** Joining a key below a root *)

Lemma split_on_app_gen c a b : split_on c (a ++ c :: b) = split_on c a ++ split_on c b.
Proof.
  induction a as [|x a IH]; simpl; [by rewrite decide_True |]. case_decide; [by rewrite IH |].
  rewrite IH. pose proof (split_on_nonempty c a). by destruct (split_on c a).
Qed.

Lemma trim_right_decomp c s : ∃ n, s = trim_right_byte c s ++ repeat c n.
Proof.
  unfold trim_right_byte. cut (∀ t, ∃ n, rev t = rev (trim_left_byte c t) ++ repeat c n).
  { intros Hcut. destruct (Hcut (rev s)) as [n Hn]. rewrite rev_involutive in Hn. eauto. }
  induction t as [|x t [n IH]]; simpl; [by exists 0%nat |]. case_decide as Hx.
  - subst x. exists (S n). rewrite IH, <- app_assoc. f_equal. symmetry. apply repeat_cons.
  - exists 0%nat. simpl. by rewrite app_nil_r.
Qed.

Lemma clean_loop_trim c s acc :
  clean_loop true acc (split_on c (trim_right_byte c s)) = clean_loop true acc (split_on c s).
Proof.
  destruct (trim_right_decomp c s) as [n Hn]. rewrite Hn at 2. clear Hn.
  generalize (trim_right_byte c s) as t. induction n as [|n IH]; intros t; [by rewrite app_nil_r |].
  change (repeat c (S n)) with ([c] ++ repeat c n). rewrite app_assoc, <- IH.
  rewrite split_on_app_gen, clean_loop_app. simpl. by rewrite reverse_involutive.
Qed.

Lemma is_rooted_app a b : is_rooted a = true → is_rooted (a ++ b) = true.
Proof. destruct a as [|x a]; [done |]. unfold is_rooted. simpl. done. Qed.

Lemma trim_rooted s : is_rooted s = true → clean_comps s ≠ [] → is_rooted (trim_right_byte slash_c s) = true.
Proof.
  intros Hr Hne. destruct (trim_right_decomp slash_c s) as [n Hn].
  destruct (trim_right_byte slash_c s) as [|x t] eqn:Ht.
  - exfalso. apply Hne. unfold clean_comps. by rewrite Hr, <- clean_loop_trim, Ht.
  - rewrite Hn in Hr. done.
Qed.

Lemma ToOSPath_unix root k :
  root ≠ [] → k ≠ [] → ToOSPath root k Unix = trim_right_byte slash_c root ++ slash_c :: k.
Proof.
  intros Hr Hk. unfold ToOSPath. destruct k as [|x k]; [done |]. destruct root as [|y root]; [done |].
  rewrite decide_False by done. cbn [sep]. rewrite join_split. done.
Qed.

(** The path handed to the file system resolves lexically to the root's
    components followed by the key's. *)
Lemma ToOSPath_contained `{UnicodeLaws} root k :
  is_rooted root = true → canonical_key k → k ≠ [] →
  is_rooted (ToOSPath root k Unix) = true ∧
  clean_comps (ToOSPath root k Unix) = clean_comps root ++ split_on slash_c k.
Proof.
  intros Hr Hk Hne. assert (root ≠ []) as Hroot by (by destruct root).
  rewrite ToOSPath_unix by done.
  assert (is_rooted (trim_right_byte slash_c root ++ slash_c :: k) = true) as Hrt.
  { destruct (trim_right_decomp slash_c root) as [n Hn].
    destruct (trim_right_byte slash_c root); [done |]. by rewrite Hn in Hr. }
  split; [done |]. unfold clean_comps. rewrite Hrt, Hr, split_on_app_gen, clean_loop_app, clean_loop_trim.
  rewrite clean_loop_proper by (by apply canonical_proper). by rewrite reverse_involutive.
Qed.

Lemma rooted_clean_proper s : is_rooted s = true → Forall proper (clean_comps s).
Proof.
  intros Hr. destruct (clean_comps_cleaned s) as (n & p & -> & Hp & Hn).
  by rewrite (Hn Hr).
Qed.

Lemma is_rooted_Clean s : is_rooted s = true → is_rooted (path_Clean s) = true.
Proof. intros Hr. unfold path_Clean. by rewrite Hr. Qed.

Lemma path_words_Clean s : is_rooted s = true → path_words (path_Clean s) = clean_comps s.
Proof.
  intros Hr. unfold path_words, clean_comps at 1. rewrite !is_rooted_Clean by done.
  unfold path_Clean. rewrite Hr. pose proof (rooted_clean_proper s Hr) as Hp.
  cbn [split_on]. rewrite decide_True by done. cbn [clean_loop]. rewrite decide_True by auto.
  destruct (clean_comps s) as [|c l]; [done |].
  by rewrite split_join_proper, clean_loop_proper.
Qed.

Lemma strip_common_app b t : strip_common b (b ++ t) = ([], t).
Proof. induction b as [|x b IH]; simpl; [by destruct t |]. by rewrite decide_True. Qed.

Lemma filepath_Rel_below s t K :
  is_rooted s = true → is_rooted t = true → clean_comps t = clean_comps s ++ K → K ≠ [] →
  filepath_Rel s t = Some (join_with [slash_c] K).
Proof.
  intros Hs Ht HK Hne. unfold filepath_Rel.
  assert (path_words (path_Clean t) = path_words (path_Clean s) ++ K) as Hw by (by rewrite !path_words_Clean).
  assert (path_Clean t ≠ path_Clean s) as Hneq.
  { intros He. rewrite He in Hw. apply Hne. apply (app_inv_head (path_words (path_Clean s))).
    by rewrite app_nil_r. }
  rewrite decide_False by done. cbv zeta.
  assert (is_rooted (path_Clean s) = true ∧ is_rooted (path_Clean t) = true) as [Hs' Ht'].
  { by rewrite !is_rooted_Clean. }
  rewrite (decide_False (P := path_Clean s = dot)) by (intros He; by rewrite He in Hs').
  rewrite Hs', Ht'. rewrite (decide_False (P := true ≠ true)) by auto.
  by rewrite Hw, strip_common_app.
Qed.

Lemma filepath_Rel_same s t :
  is_rooted s = true → is_rooted t = true → clean_comps t = clean_comps s →
  filepath_Rel s t = Some dot.
Proof.
  intros Hs Ht HK. unfold filepath_Rel, path_Clean. rewrite Hs, Ht, HK. by rewrite decide_True.
Qed.

(** ** Windows names below a root *)

(** No character that starts a volume prefix or separates on Windows. *)
Definition no_volume_char (s : bytes) : Prop := Forall (λ x, x ≠ colon_c ∧ x ≠ backslash_c) s.

Lemma strip_safe x s : x ≠ slash_c → no_volume_char (x :: s) → stripVolumePrefix (x :: s) = x :: s.
Proof.
  intros Hx Hs. unfold stripVolumePrefix. inversion Hs as [|? ? [Hc Hb] Hs']; subst.
  rewrite !bool_decide_eq_false_2.
  - rewrite andb_false_r. destruct s as [|d s]; [done |].
    inversion Hs' as [|? ? [Hd _] _]; subst. by rewrite bool_decide_eq_false_2.
  - intros He. apply (f_equal head) in He. injection He as ->. by apply Hb.
  - intros He. apply (f_equal head) in He. injection He as ->. by apply Hx.
Qed.

Lemma safe_char_spec x : safe_char x = true → x ≠ colon_c ∧ x ≠ backslash_c ∧ x ≠ slash_c.
Proof. intros H; split_and!; intros ->; vm_compute in H; discriminate. Qed.

Lemma escape_safe_spec c :
  no_volume_char (EscapeForWindows c) ∧ slash_c ∉ EscapeForWindows c ∧ backslash_c ∉ EscapeForWindows c.
Proof.
  pose proof (escape_chars_safe c) as Hs. split_and!.
  - apply (Forall_impl _ _ _ Hs). intros x Hx. apply safe_char_spec in Hx. tauto.
  - intros Hin. rewrite Forall_forall in Hs. apply Hs, safe_char_spec in Hin. tauto.
  - intros Hin. rewrite Forall_forall in Hs. apply Hs, safe_char_spec in Hin. tauto.
Qed.

Lemma escape_inverse c : UnescapeFromWindows (EscapeForWindows c) = c.
Proof.
  rewrite Unescape_loop. destruct c as [|x c]; [done |].
  unfold EscapeForWindows. by rewrite unescape_escape_stem, unescape_escape_last.
Qed.

Lemma escape_nonempty c : c ≠ [] → EscapeForWindows c ≠ [].
Proof. intros Hc He. apply Hc. by rewrite <- (escape_inverse c), He. Qed.

Lemma no_volume_join l :
  Forall no_volume_char l → no_volume_char (join_with [slash_c] l).
Proof.
  induction 1 as [|c l Hc Hl IH]; [constructor |]. destruct l as [|d l]; [done |].
  cbn [join_with app]. apply Forall_app. split; [done |]. constructor; [done | done].
Qed.

Lemma replace_join_sep l :
  Forall (λ c, backslash_c ∉ c) l →
  replace_byte backslash_c slash_c (join_with [backslash_c] l) = join_with [slash_c] l.
Proof.
  assert (∀ c, backslash_c ∉ c → replace_byte backslash_c slash_c c = c) as Hid.
  { intros c. unfold replace_byte. induction c as [|x c IH]; [done |]. rewrite not_elem_of_cons. intros [Hx Hc].
    cbn [fmap list_fmap]. rewrite decide_False by congruence. f_equal. by apply IH. }
  induction 1 as [|c l Hc Hl IH]; [done |]. destruct l as [|d l]; [by apply Hid |].
  rewrite !(join_with_cons_app _ c) by done. unfold replace_byte in *. rewrite !fmap_app, IH.
  by rewrite (Hid c Hc).
Qed.

Lemma has_prefix_app p s : has_prefix p (p ++ s) = true.
Proof. apply has_prefix_spec. by exists s. Qed.

Lemma strip_escaped_join l :
  Forall proper l → l ≠ [] →
  let rel := join_with [slash_c] (EscapeForWindows <$> l) in
  rel ≠ [] ∧ stripVolumePrefix rel = rel ∧ split_on slash_c rel = EscapeForWindows <$> l.
Proof.
  intros Hl Hne rel.
  assert (no_volume_char rel) as Hvol.
  { apply no_volume_join, Forall_fmap. apply (Forall_impl proper _ _ Hl). intros c _. apply escape_safe_spec. }
  assert (∃ x s, rel = x :: s ∧ x ≠ slash_c) as (x & s & Hrel & Hx).
  { unfold rel. destruct Hl as [|c l (Hc & _) Hl]; [done |].
    pose proof (escape_nonempty c Hc) as He. destruct (escape_safe_spec c) as (_ & Hs & _).
    destruct (EscapeForWindows c) as [|x s] eqn:Hec; [done |]. rewrite not_elem_of_cons in Hs.
    cbn [fmap list_fmap]. rewrite Hec. destruct Hs as [Hs _].
    destruct (EscapeForWindows <$> l); cbn; eauto. }
  split_and!; [by rewrite Hrel | rewrite Hrel in *; by apply strip_safe |].
  apply split_join; [by destruct l |]. apply Forall_fmap. apply (Forall_impl proper _ _ Hl).
  intros c _. apply escape_safe_spec.
Qed.

Definition windows_rel (k : bytes) : bytes := join_with [backslash_c] (EscapeForWindows <$> split_on slash_c k).

Lemma windows_rel_nonempty k : Forall proper (split_on slash_c k) → windows_rel k ≠ [].
Proof.
  intros Hk He. pose proof (split_on_nonempty slash_c k) as Hne. unfold windows_rel in He.
  destruct Hk as [|c l (Hc & _) _]; [done |]. apply escape_nonempty in Hc. cbn [fmap list_fmap] in He.
  destruct (EscapeForWindows <$> l); simpl in He; [done |]. by apply app_eq_nil in He as [? ?].
Qed.

Lemma ToOSPath_windows root k :
  root ≠ [] → k ≠ [] → Forall proper (split_on slash_c k) →
  ToOSPath root k Windows = trim_right_byte backslash_c root ++ backslash_c :: windows_rel k.
Proof.
  intros Hr Hk Hp. apply windows_rel_nonempty in Hp. unfold windows_rel in *. unfold ToOSPath.
  destruct k as [|x k]; [done |]. destruct root as [|y root]; [done |].
  rewrite decide_True by done. cbn [sep]. by destruct (join_with _ _).
Qed.

Lemma relativize_windows root k :
  root ≠ [] → k ≠ [] → Forall proper (split_on slash_c k) →
  relativize root (ToOSPath root k Windows) Windows =
    Ok (join_with [slash_c] (EscapeForWindows <$> split_on slash_c k)).
Proof.
  intros Hr Hk Hp. rewrite ToOSPath_windows by done. unfold relativize.
  rewrite decide_False by done. cbv zeta. cbn [sep]. set (t := trim_right_byte backslash_c root).
  rewrite decide_False.
  2:{ intros He. apply (f_equal length) in He. rewrite length_app in He. simpl in He. lia. }
  change (backslash_c :: windows_rel k) with ([backslash_c] ++ windows_rel k).
  rewrite app_assoc, has_prefix_app. f_equal.
  rewrite drop_app_length' by (rewrite length_app; simpl; lia).
  apply replace_join_sep, Forall_fmap. apply (Forall_impl proper _ _ Hp). intros c _. apply escape_safe_spec.
Qed.

Section roundtrip.
Context `{UnicodeLaws}.

Lemma FromOSPath_unix root k :
  is_rooted root = true → clean_comps root ≠ [] → canonical_key k → stripVolumePrefix k = k →
  FromOSPath root (ToOSPath root k Unix) Unix = Ok k.
Proof.
  intros Hr Hroot Hk Hs. unfold FromOSPath, relativize. rewrite decide_True by done. unfold ToSlash.
  destruct (decide (k = [])) as [-> | Hne].
  - assert (ToOSPath root [] Unix = trim_right_byte slash_c root) as -> by (by destruct root).
    rewrite filepath_Rel_same; [| done | by apply trim_rooted |]; [reflexivity |].
    unfold clean_comps. rewrite trim_rooted, Hr by done. apply clean_loop_trim.
  - destruct (ToOSPath_contained root k Hr Hk Hne) as [Hr' Hc].
    rewrite (filepath_Rel_below _ _ _ Hr Hr' Hc) by apply split_on_nonempty.
    rewrite join_split. cbn [rbind]. rewrite Hs. destruct k as [|x k]; [done |].
    rewrite decide_False by done. rewrite join_split. by apply canonFromComponents_fixed.
Qed.

Lemma FromOSPath_windows root k :
  root ≠ [] → canonical_key k → stripVolumePrefix k = k →
  FromOSPath root (ToOSPath root k Windows) Windows = Ok k.
Proof.
  intros Hr Hk Hs. unfold FromOSPath. destruct (decide (k = [])) as [-> | Hne].
  - assert (ToOSPath root [] Windows = trim_right_byte backslash_c root) as -> by (by destruct root).
    unfold relativize. rewrite decide_False by done. cbv zeta. by rewrite decide_True.
  - pose proof (canonical_proper k Hk Hne) as Hp.
    rewrite relativize_windows by done. cbn [rbind].
    destruct (strip_escaped_join _ Hp (split_on_nonempty _ _)) as (H1 & H2 & H3). cbv zeta in *.
    rewrite H2. rewrite H3, decide_True by done. rewrite <- list_fmap_compose.
    assert ((UnescapeFromWindows ∘ EscapeForWindows) <$> split_on slash_c k = split_on slash_c k) as ->.
    { etrans; [| apply list_fmap_id]. apply list_fmap_ext. intros i x _. apply escape_inverse. }
    rewrite join_split. destruct (join_with _ _); [done |]. by apply canonFromComponents_fixed.
Qed.

End roundtrip.

(** ** The collision index *)

Section foldindex.
Context `{Unicode}.

Definition add_all (ks : list bytes) (fi : FoldIndex) : FoldIndex :=
  foldl (λ fi k, (Add fi k).1) fi ks.

(** The first of the keys with the folded form [f]. *)
Definition first_folded (ks : list bytes) (f : bytes) : option bytes :=
  snd <$> list_find (λ k, Fold k = f) ks.

Lemma first_folded_cons k ks f :
  first_folded (k :: ks) f = if decide (Fold k = f) then Some k else first_folded ks f.
Proof.
  unfold first_folded. simpl. case_decide; [done |].
  by destruct (list_find _ ks) as [[? ?] |].
Qed.

Lemma Add_lookup fi k f :
  ((Add fi k).1).(m) !! f =
    match fi.(m) !! f with Some p => Some p | None => if decide (Fold k = f) then Some k else None end.
Proof.
  unfold Add. destruct (fi.(m) !! Fold k) as [p |] eqn:Hp.
  - assert ((if decide (p = k) then (fi, ([], false)) else (fi, (p, true))).1 = fi) as -> by (by case_decide).
    destruct (fi.(m) !! f) eqn:Hf; [done |]. rewrite decide_False; [done |]. intros <-. congruence.
  - simpl. destruct (decide (Fold k = f)) as [<- | Hne]; [by rewrite lookup_insert_eq, Hp |].
    rewrite lookup_insert_ne by done. by destruct (fi.(m) !! f).
Qed.

Lemma add_all_lookup ks fi f :
  (add_all ks fi).(m) !! f = match fi.(m) !! f with Some p => Some p | None => first_folded ks f end.
Proof.
  revert fi. induction ks as [|k ks IH]; intros fi; simpl; [by destruct (fi.(m) !! f) |].
  rewrite IH, Add_lookup, first_folded_cons. destruct (fi.(m) !! f); [done |]. by case_decide.
Qed.

End foldindex.

(** * Properties *)

(** C40: a key accepted from the wire or from the scanner cannot leave the sync
    root: it is canonical (no empty, "." or ".." component, all components NFC),
    and the path ToOSPath builds from it on a POSIX host resolves lexically to
    the root's own components followed by the components of the key. *)
Theorem CanonicalizeSlash_contained `{UnicodeLaws} s k root :
  CanonicalizeSlash s = Ok k → is_rooted root = true → k ≠ [] →
  canonical_key k ∧
  is_rooted (ToOSPath root k Unix) = true ∧
  clean_comps (ToOSPath root k Unix) = clean_comps root ++ split_on slash_c k.
Proof.
  intros Hs Hr Hk. pose proof (canonFromComponents_canonical _ _ Hs) as Hc.
  split; [done |]. by apply ToOSPath_contained.
Qed.

Lemma CanonicalizeSlash_contained_witness :
  CanonicalizeSlash (go! "C:docs//../etc/./passwd") = Ok (go! "etc/passwd") ∧
  clean_comps (ToOSPath (go! "/sync/root/") (go! "etc/passwd") Unix) =
    [go! "sync"; go! "root"; go! "etc"; go! "passwd"] ∧
  CanonicalizeSlash (go! "a/../../etc/passwd") = Err ErrNotCanonical.
Proof.
  split_and!; [reflexivity | | reflexivity].
  exact (proj2 (proj2 (CanonicalizeSlash_contained (go! "C:docs//../etc/./passwd") (go! "etc/passwd")
    (go! "/sync/root/") eq_refl eq_refl ltac:(discriminate)))).
Defined.

(** FromOSPath inverts ToOSPath for both targets: a canonical key comes back
    from the on-disk path built for it under any absolute POSIX root other than
    "/" and under any non-empty Windows root, provided the key does not itself
    look like a volume prefix (a key starting with a drive letter and a colon is
    stripped; see [CanonicalizeSlash_idempotent]). *)
Theorem OSPath_roundtrip `{UnicodeLaws} root k target :
  canonical_key k → stripVolumePrefix k = k →
  (match target with
   | Unix => is_rooted root = true ∧ clean_comps root ≠ []
   | Windows => root ≠ []
   end) →
  FromOSPath root (ToOSPath root k target) target = Ok k.
Proof.
  intros Hk Hs. destruct target; [intros [Hr Hne]; by apply FromOSPath_unix |].
  intros Hr. by apply FromOSPath_windows.
Qed.

Lemma OSPath_roundtrip_witness :
  ToOSPath (go! "C:\sync") (go! "a:b/con.txt") Windows = go! "C:\sync\a%3Ab\%63on.txt" ∧
  FromOSPath (go! "/sync") (go! "/sync/a b/con.txt") Unix = Ok (go! "a b/con.txt").
Proof.
  split; [reflexivity |].
  refine (OSPath_roundtrip (go! "/sync") (go! "a b/con.txt") Unix _ eq_refl (conj eq_refl _)).
  - apply (bool_decide_unpack _). vm_compute. exact I.
  - discriminate.
Defined.

(** CanonicalizeSlash is idempotent on every key that has no volume prefix
    of its own. The documentation claims it for every input, but "./C:foo" gives
    the key "C:foo", and canonicalising that gives "foo". *)
Theorem CanonicalizeSlash_idempotent `{UnicodeLaws} s k :
  CanonicalizeSlash s = Ok k → stripVolumePrefix k = k → CanonicalizeSlash k = Ok k.
Proof. intros Hs Hk. apply canonFromComponents_canonical in Hs. by apply canonFromComponents_fixed. Qed.

Lemma CanonicalizeSlash_idempotent_witness :
  CanonicalizeSlash (go! "x/b") = Ok (go! "x/b") ∧
  CanonicalizeSlash (go! "./C:foo") = Ok (go! "C:foo") ∧ CanonicalizeSlash (go! "C:foo") = Ok (go! "foo").
Proof.
  split_and!; [| reflexivity | reflexivity].
  exact (CanonicalizeSlash_idempotent (go! "x/./b") (go! "x/b") eq_refl eq_refl).
Defined.

(** the case-collision index reports exactly the clashes: after any sequence
    of keys, Add of a key returns the first key that was added with the same
    folded form when that is a different key, and no collision otherwise. *)
Theorem FoldIndex_first_seen `{Unicode} ks k :
  (Add (add_all ks NewFoldIndex) k).2 =
    match first_folded ks (Fold k) with
    | Some prev => if decide (prev = k) then ([], false) else (prev, true)
    | None => ([], false)
    end.
Proof.
  unfold Add. rewrite add_all_lookup. cbn [m NewFoldIndex]. rewrite lookup_empty.
  destruct (first_folded ks (Fold k)) as [p |]; [| done]. by case_decide.
Qed.
