(* ===== verification/Hashing.v ===== *)
(** * Hashing: the digest of internal/merkle/hash.go (crypto/sha256)

    The tree, the transfer code and the device identities use SHA-256 only through
    the class [Digest]: a function to 32-byte strings. Everything is proved for every
    such function; no property assumes that it has no collisions: where the code
    relies on that, the property says so of the finitely many preimages involved. *)
From S2P Require Import Prelude Bytes.

Class Digest := {
  sum256 : bytes → bytes;
  sum256_length s : length (sum256 s) = 32%nat
}.

(** A digest cheap enough to run inside the kernel: a rolling 32-bit checksum. *)
Definition toy_sum (s : bytes) : Z := foldl (λ acc c, Z.land (acc * 65599 + Z_of_byte c + 1) 4294967295) 7 s.
Definition toy_digest : Digest.
Proof.
  refine {| sum256 s := repeat (byte_of_Z 0) 28 ++ be_enc 4 (toy_sum s) |}.
  intros s. by rewrite length_app, length_be_enc, repeat_length.
Defined.
