(* ===== verification/FileInfo.v ===== *)
(** * FileInfo: the leaf record, its structural and wire encodings
    (internal/merkle/fileinfo.go, codec.go, the hashes of node.go) *)
From S2P Require Import Prelude Bytes VersionVector Framing Messages Windows Pathnorm Hashing.

Inductive FileType := TypeFile | TypeDir | TypeSymlink.
#[export] Instance FileType_eq_dec : EqDecision FileType.
Proof. solve_decision. Defined.

Definition type_byte (t : FileType) : Z :=
  match t with TypeFile => 0 | TypeDir => 1 | TypeSymlink => 2 end.
Definition type_of_byte (z : Z) : FileType :=
  if z =? 0 then TypeFile else if z =? 1 then TypeDir else TypeSymlink.

Record FileInfo := mkFileInfo {
  Path : bytes;
  ContentHash : bytes;      (* [32]byte *)
  Size : Z;                 (* uint64 *)
  Mode : Z;                 (* uint32 *)
  ModTimeNS : Z;            (* int64 *)
  Version : VersionVector;
  Deleted : bool;
  Type_ : FileType
}.
Add Printing Constructor FileInfo.
#[export] Instance FileInfo_eq_dec : EqDecision FileInfo.
Proof. solve_decision. Defined.

(** ** fileinfo.go *)

Definition executable (fi : FileInfo) : bool :=
  bool_decide (Type_ fi = TypeFile) && negb (Z.land (Mode fi) 73 =? 0).   (* 0o111 = 73 *)

Definition canonicalModeByte (fi : FileInfo) : Z :=
  let b := if executable fi then 1 else 0 in
  if decide (Type_ fi = TypeSymlink) then Z.lor b 2 else b.

Definition IsTombstone (fi : FileInfo) : bool := Deleted fi.

Definition SetDeleted (fi : FileInfo) (self : Z) : FileInfo :=
  mkFileInfo (Path fi) zero32 0 (Mode fi) (ModTimeNS fi) (Bump (Version fi) self) true (Type_ fi).

(** Go's conversions between uint64 and int64. *)
Definition to_uint64 (z : Z) : Z := wrap 64 z.
Definition to_int64 (z : Z) : Z := if z <? 2 ^ 63 then z else z - 2 ^ 64.

(** ** codec.go: structural encodings *)

Definition bool_byte (b : bool) : byte := byte_of_Z (if b then 1 else 0).

Definition leafEncoding (fi : FileInfo) : bytes :=
  ContentHash fi ++ [byte_of_Z (canonicalModeByte fi)] ++ [bool_byte (Deleted fi)] ++ Encode (Version fi).

Record childEntry := mkChildEntry { ce_name : bytes; ce_hash : bytes }.

Definition encode_child (c : childEntry) : bytes :=
  be_enc 2 (wrap 16 (Z.of_nat (length (ce_name c)))) ++ ce_name c ++ ce_hash c.
Definition nodeEncoding (children : list childEntry) : bytes :=
  be_enc 4 (wrap 32 (Z.of_nat (length children))) ++ concat (encode_child <$> children).

(** node.go: the two domain-separated hashes. *)
Definition leafPrefix : byte := byte_of_Z 0.
Definition nodePrefix : byte := byte_of_Z 1.
Definition leafHash `{Digest} (fi : FileInfo) : bytes := sum256 (leafPrefix :: leafEncoding fi).
Definition dirHash `{Digest} (children : list childEntry) : bytes := sum256 (nodePrefix :: nodeEncoding children).

(** ** codec.go: the wire grammar *)

(** Every error of the codec wraps [ErrMalformedFileInfo]; [MPanic] is a slice out of range. *)
Inductive MerkleError := ErrMalformedFileInfo | ErrTreeConflict | MPanic.
#[export] Instance MerkleError_eq_dec : EqDecision MerkleError.
Proof. solve_decision. Defined.

Definition EncodeFileInfo (fi : FileInfo) : Result MerkleError bytes :=
  if 65535 <? Z.of_nat (length (Path fi)) then Err ErrMalformedFileInfo
  else Ok (be_enc 2 (wrap 16 (Z.of_nat (length (Path fi)))) ++ Path fi ++ ContentHash fi ++
           be_enc 8 (Size fi) ++ be_enc 4 (Mode fi) ++ be_enc 8 (to_uint64 (ModTimeNS fi)) ++
           be_enc 1 (type_byte (Type_ fi)) ++ [bool_byte (Deleted fi)] ++ Encode (Version fi)).

Fixpoint encode_all (set : list FileInfo) : Result MerkleError bytes :=
  match set with
  | [] => Ok []
  | fi :: set' => let! enc := EncodeFileInfo fi in let! rest := encode_all set' in Ok (enc ++ rest)
  end.
Definition EncodeFileInfos (set : list FileInfo) : Result MerkleError bytes :=
  let! body := encode_all set in Ok (be_enc 4 (wrap 32 (Z.of_nat (length set))) ++ body).

(** The [reader] struct has the three fields of the message decoder's buffer:
    bytes, offset, sticky error; its one error is [ErrMalformedFileInfo]. *)
Notation reader := decbuf (only parsing).
Definition r_take (n : nat) (r : reader) : option bytes * reader :=
  match d_err r with
  | Some _ => (None, r)
  | None =>
    if (length (d_b r) <? d_off r + n)%nat then (None, d_fail ErrShortPayload r)
    else match go_slice (d_b r) (d_off r) n with
         | Some v => (Some v, mkDec (d_b r) (d_off r + n) None)
         | None => (None, d_fail Panic r)
         end
  end.
(** u8, u16, u32 and u64: [n] bytes big-endian, zero on failure. *)
Definition r_uint (n : nat) (r : reader) : Z * reader :=
  let '(v, r) := r_take n r in (match v with Some v => be_dec v | None => 0 end, r).
Definition r_array32 (r : reader) : bytes * reader :=
  let '(v, r) := r_take 32 r in (copy32 (default [] v), r).

Definition reader_error (e : DecError) : MerkleError :=
  match e with Panic => MPanic | _ => ErrMalformedFileInfo end.

Definition DecodeFileInfo `{Unicode} (b : bytes) : Result MerkleError (FileInfo * nat) :=
  let r := mkDec b 0 None in
  let '(pathLen, r) := r_uint 2 r in
  let '(pathBytes, r) := r_take (Z.to_nat pathLen) r in
  let '(hash, r) := r_array32 r in
  let '(size, r) := r_uint 8 r in
  let '(mode, r) := r_uint 4 r in
  let '(mtime, r) := r_uint 8 r in
  let '(ft, r) := r_uint 1 r in
  let '(del, r) := r_uint 1 r in
  match d_err r with
  | Some e => Err (reader_error e)
  | None =>
    if type_byte TypeSymlink <? ft then Err ErrMalformedFileInfo
    else if 1 <? del then Err ErrMalformedFileInfo
    else match go_slice b (d_off r) (length b - d_off r) with
         | None => Err MPanic
         | Some rest =>
           match DecodeVersionVector rest with
           | Err _ => Err ErrMalformedFileInfo
           | Ok (vv, n) =>
             match CanonicalizeSlash (default [] pathBytes) with
             | Err _ => Err ErrMalformedFileInfo
             | Ok key =>
               Ok (mkFileInfo key hash size mode (to_int64 mtime) vv (del =? 1) (type_of_byte ft),
                   (d_off r + n)%nat)
             end
           end
         end
  end.

Fixpoint decode_all `{Unicode} (count : nat) (b : bytes) (off : nat) : Result MerkleError (list FileInfo * nat) :=
  match count with
  | O => Ok ([], off)
  | S count' =>
    match go_slice b off (length b - off) with
    | None => Err MPanic
    | Some s =>
      let! (fi, n) := DecodeFileInfo s in
      let! (out, off') := decode_all count' b (off + n) in
      Ok (fi :: out, off')
    end
  end.
Definition DecodeFileInfos `{Unicode} (b : bytes) : Result MerkleError (list FileInfo) :=
  if (length b <? 4)%nat then Err ErrMalformedFileInfo else
  let count := Z.to_nat (be_dec (take 4 b)) in
  let! (out, off) := decode_all count b 4 in
  if decide (off = length b) then Ok out else Err ErrMalformedFileInfo.

(** ** Well-formed records *)

(** The fields are within the widths of their Go types. *)
Record fi_width (fi : FileInfo) : Prop := mkFiWidth {
  fw_hash : hash_len (ContentHash fi);
  fw_size : in_width 64 (Size fi);
  fw_mode : in_width 32 (Mode fi);
  fw_mtime : - 2 ^ 63 ≤ ModTimeNS fi < 2 ^ 63;
  fw_vv : vv_width (Version fi)
}.

#[export] Instance fi_width_dec fi : Decision (fi_width fi).
Proof.
  refine (cast_if (decide (hash_len (ContentHash fi) ∧ in_width 64 (Size fi) ∧ in_width 32 (Mode fi) ∧
    (- 2 ^ 63 ≤ ModTimeNS fi < 2 ^ 63) ∧ vv_width (Version fi)))).
  - by destruct a as (? & ? & ? & ? & ?).
  - intros []. tauto.
Defined.

(** What the wire grammar carries faithfully. *)
Record wire_ok `{Unicode} (fi : FileInfo) : Prop := mkWireOk {
  wo_width : fi_width fi;
  wo_canonical : canonical (Version fi);
  wo_vvlen : in_width 16 (Z.of_nat (length (Version fi)));
  wo_pathlen : Z.of_nat (length (Path fi)) ≤ 65535;
  wo_path : CanonicalizeSlash (Path fi) = Ok (Path fi)
}.

Lemma to_int64_uint64 z : - 2 ^ 63 ≤ z < 2 ^ 63 → to_int64 (to_uint64 z) = z.
Proof.
  unfold to_int64, to_uint64, wrap. intros Hz. destruct (Z.le_gt_cases 0 z).
  - rewrite Z.mod_small by lia. zcases.
  - rewrite <- (Z_mod_plus_full z 1 (2 ^ 64)), Z.mod_small by lia. zcases.
Qed.

Lemma type_of_byte_byte t : type_of_byte (type_byte t) = t.
Proof. by destruct t. Qed.

Lemma to_int64_range z : in_width 64 z → - 2 ^ 63 ≤ to_int64 z < 2 ^ 63.
Proof. unfold to_int64. intros Hz. width. zcases. Qed.

(** ** Reading at an offset *)

Definition at_off (b : bytes) (off : nat) (rest : bytes) : Prop := (off ≤ length b)%nat ∧ drop off b = rest.

Lemma at_off_start b : at_off b 0 b.
Proof. split; [lia | done]. Qed.

Lemma at_off_length b off rest : at_off b off rest → length b = (off + length rest)%nat.
Proof. intros [Hle <-]. rewrite length_drop. lia. Qed.

Lemma at_off_app b off v rest : at_off b off (v ++ rest) → at_off b (off + length v) rest.
Proof.
  intros H. pose proof (at_off_length _ _ _ H) as Hl. rewrite length_app in Hl.
  destruct H as [_ H]. split; [lia |]. by rewrite <- drop_drop, H, drop_app_length.
Qed.

Lemma go_slice_at b off v rest :
  at_off b off (v ++ rest) → go_slice b off (length v) = Some v.
Proof.
  intros H. pose proof (at_off_length _ _ _ H) as Hl. rewrite length_app in Hl. destruct H as [_ H].
  unfold go_slice, slice. destruct (Nat.leb_spec (off + length v) (length b)); [| lia].
  by rewrite H, take_app_length.
Qed.

Lemma r_take_at n b off v rest :
  at_off b off (v ++ rest) → length v = n →
  r_take n (mkDec b off None) = (Some v, mkDec b (off + n) None) ∧ at_off b (off + n) rest.
Proof.
  intros H <-. split; [| by apply at_off_app]. unfold r_take. cbn [d_err d_b d_off].
  rewrite (go_slice_at _ _ _ _ H). pose proof (at_off_length _ _ _ H) as Hl. rewrite length_app in Hl.
  destruct (Nat.ltb_spec (length b) (off + length v)); [lia | done].
Qed.

Lemma r_uint_at n b off v rest :
  at_off b off (be_enc n v ++ rest) → 0 ≤ v < 256 ^ Z.of_nat n →
  r_uint n (mkDec b off None) = (v, mkDec b (off + n) None) ∧ at_off b (off + n) rest.
Proof.
  intros H Hv. destruct (r_take_at n _ _ _ _ H (length_be_enc n v)) as [He Hr].
  unfold r_uint. rewrite He, be_dec_enc_small by done. done.
Qed.

Lemma r_array32_at b off v rest :
  at_off b off (v ++ rest) → hash_len v →
  r_array32 (mkDec b off None) = (v, mkDec b (off + 32) None) ∧ at_off b (off + 32) rest.
Proof.
  intros H Hv. destruct (r_take_at 32 _ _ _ _ H Hv) as [He Hr].
  unfold r_array32. rewrite He. change (default [] (Some v)) with v. by rewrite copy32_id.
Qed.

(** Read the next field of the record at the cursor. *)
Ltac read_step lem H :=
  let He := fresh in
  destruct lem as [He H]; [first [done | by width | lia] | rewrite He; clear He; cbv beta iota].

(** ** Round trip *)

Lemma bool_byte_enc b : [bool_byte b] = be_enc 1 (if b then 1 else 0).
Proof. by destruct b. Qed.

Lemma DecodeFileInfo_encode `{Unicode} fi enc rest :
  wire_ok fi → EncodeFileInfo fi = Ok enc → DecodeFileInfo (enc ++ rest) = Ok (fi, length enc).
Proof.
  intros [[Hh Hs Hm Ht Hv] Hc Hvl Hpl Hp] Henc. unfold EncodeFileInfo in Henc.
  destruct (Z.ltb_spec 65535 (Z.of_nat (length (Path fi)))); [lia |].
  rewrite wrap_small in Henc by (width; lia). rewrite bool_byte_enc in Henc.
  assert (Hmt := wrap_in_width 64 (ModTimeNS fi) ltac:(lia)). fold (to_uint64 (ModTimeNS fi)) in Hmt.
  apply Ok_inj in Henc as <-. rewrite <- !app_assoc. unfold DecodeFileInfo.
  set (b := be_enc 2 _ ++ _). pose proof (at_off_start b) as Hcur. unfold b at 2 in Hcur.
  destruct (r_uint_at 2 _ _ _ _ Hcur) as [-> H1]; [change (256 ^ Z.of_nat 2) with 65536; lia |].
  destruct (r_take_at (length (Path fi)) _ _ _ _ H1 eq_refl) as [H2e H2]. rewrite Nat2Z.id, H2e. clear H2e.
  destruct (r_array32_at _ _ _ _ H2 Hh) as [-> H3].
  destruct (r_uint_at 8 _ _ _ _ H3 Hs) as [-> H4].
  destruct (r_uint_at 4 _ _ _ _ H4 Hm) as [-> H5].
  destruct (r_uint_at 8 _ _ _ _ H5 Hmt) as [-> H6].
  destruct (r_uint_at 1 _ _ _ _ H6) as [-> H7]; [change (256 ^ Z.of_nat 1) with 256; destruct (Type_ fi); simpl; lia |].
  destruct (r_uint_at 1 _ _ _ _ H7) as [-> H8]; [change (256 ^ Z.of_nat 1) with 256; destruct (Deleted fi); lia |].
  cbn [d_err d_off]. pose proof (at_off_length _ _ _ H8) as Hl.
  rewrite Hl. replace (_ - _)%nat with (length (Encode (Version fi) ++ rest)) by lia.
  rewrite <- (app_nil_r (_ ++ rest)) in H8. rewrite (go_slice_at _ _ _ _ H8), Encode_Decode by done.
  change (default [] (Some (Path fi))) with (Path fi). rewrite Hp, to_int64_uint64, type_of_byte_byte by done.
  replace (type_byte TypeSymlink <? type_byte (Type_ fi)) with false by (by destruct (Type_ fi)).
  replace (1 <? (if Deleted fi then 1 else 0)) with false by (by destruct (Deleted fi)).
  replace ((if Deleted fi then 1 else 0) =? 1) with (Deleted fi) by (by destruct (Deleted fi)).
  destruct fi; cbn [Path ContentHash Size Mode ModTimeNS Version Deleted Type_] in *.
  do 2 f_equal. rewrite !length_app, !length_be_enc, length_Encode. unfold hash_len in Hh. lia.
Qed.

Lemma EncodeFileInfo_ok fi : Z.of_nat (length (Path fi)) ≤ 65535 → ∃ enc, EncodeFileInfo fi = Ok enc.
Proof. intros H. unfold EncodeFileInfo. destruct (Z.ltb_spec 65535 (Z.of_nat (length (Path fi)))); [lia | eauto]. Qed.

Lemma decode_all_encode `{Unicode} set body b off :
  Forall wire_ok set → encode_all set = Ok body → at_off b off body →
  decode_all (length set) b off = Ok (set, length b).
Proof.
  revert body off. induction set as [|fi set IH]; intros body off Hok Henc Hat; simpl in *.
  - apply Ok_inj in Henc as <-. do 2 f_equal. rewrite (at_off_length _ _ _ Hat). simpl. lia.
  - inversion Hok as [|? ? Hfi Hset]; subst.
    apply rbind_Ok in Henc as (enc & He & Henc). apply rbind_Ok in Henc as (body' & Hb & Henc).
    apply Ok_inj in Henc as <-. pose proof (at_off_length _ _ _ Hat) as Hl.
    replace (length b - off)%nat with (length (enc ++ body')) by lia.
    assert (go_slice b off (length (enc ++ body')) = Some (enc ++ body')) as ->.
    { apply (go_slice_at _ _ _ []). by rewrite app_nil_r. }
    rewrite (DecodeFileInfo_encode fi enc body') by done. cbn [rbind].
    rewrite (IH body') by (done || by apply at_off_app). done.
Qed.

Lemma DecodeFileInfos_encode `{Unicode} set b :
  Forall wire_ok set → in_width 32 (Z.of_nat (length set)) → EncodeFileInfos set = Ok b →
  DecodeFileInfos b = Ok set.
Proof.
  intros Hok Hlen Henc. apply rbind_Ok in Henc as (body & Hb & Henc). apply Ok_inj in Henc as <-.
  unfold DecodeFileInfos. rewrite length_app, length_be_enc, take_be_enc, wrap_small by done.
  rewrite be_dec_enc_small, Nat2Z.id by done. cbn [Nat.add Nat.ltb Nat.leb]. cbv zeta.
  pose proof (at_off_app _ 0 (be_enc 4 (Z.of_nat (length set))) body (at_off_start _)) as Hat.
  rewrite length_be_enc in Hat. rewrite (decode_all_encode set body) by done.
  cbn [rbind]. rewrite decide_True; [done |]. by rewrite length_app, length_be_enc.
Qed.

Lemma encode_all_ok set :
  Forall (λ fi, Z.of_nat (length (Path fi)) ≤ 65535) set → is_ok (encode_all set) = true.
Proof.
  induction 1 as [|fi set Hfi Hset IH]; simpl; [done |].
  destruct (EncodeFileInfo_ok fi Hfi) as [enc ->]. simpl. by destruct (encode_all set).
Qed.

(** ** The decoder on arbitrary bytes *)

Lemma r_take_cases n b off : (off ≤ length b)%nat →
  (off + n ≤ length b)%nat ∧ r_take n (mkDec b off None) = (Some (slice b off n), mkDec b (off + n) None)
  ∨ r_take n (mkDec b off None) = (None, mkDec b off (Some ErrShortPayload)).
Proof.
  intros Hle. unfold r_take, d_fail, go_slice. cbn [d_err d_b d_off].
  destruct (Nat.ltb_spec (length b) (off + n)); [by right |]. left. split; [done |].
  destruct (Nat.leb_spec (off + n) (length b)); [done | lia].
Qed.

Lemma r_take_err n b off e : r_take n (mkDec b off (Some e)) = (None, mkDec b off (Some e)).
Proof. done. Qed.

Lemma length_slice b off n : (off + n ≤ length b)%nat → length (slice b off n) = n.
Proof. intros H. unfold slice. rewrite length_take, length_drop. lia. Qed.

Lemma be_dec_slice_range b off n : (off + n ≤ length b)%nat → 0 ≤ be_dec (slice b off n) < 256 ^ Z.of_nat n.
Proof. intros H. rewrite <- (length_slice b off n H) at 3. apply be_dec_range. Qed.

(** The next read of the goal either succeeds or fails for good. *)
Ltac read_case H :=
  match goal with |- context [r_take ?n (mkDec ?b ?off None)] =>
    let Hle := fresh "Hle" in let He := fresh in
    destruct (r_take_cases n b off) as [[Hle He] | He];
    [lia | rewrite He; clear He; cbv beta iota | rewrite He; clear He; cbv beta iota; rewrite ?r_take_err; by auto]
  end.

(** What an accepted record satisfies. *)
Record decoded_ok `{Unicode} (fi : FileInfo) : Prop := mkDecodedOk {
  do_width : fi_width fi;
  do_canonical : canonical (Version fi);
  do_vvlen : in_width 16 (Z.of_nat (length (Version fi)));
  do_key : canonical_key (Path fi)
}.

Lemma DecodeFileInfo_sound `{UnicodeLaws} b :
  match DecodeFileInfo b with
  | Ok (fi, n) => decoded_ok fi ∧ (n ≤ length b)%nat
  | Err e => e = ErrMalformedFileInfo
  end.
Proof.
  unfold DecodeFileInfo, r_array32, r_uint. do 8 read_case H1.
  cbn [d_err d_off].
  destruct (_ <? _); [done |]. destruct (1 <? _); [done |].
  unfold go_slice at 1. set (off := (_ + 1 + 1)%nat) in *.
  destruct (Nat.leb_spec (off + (length b - off)) (length b)); [| lia].
  destruct (DecodeVersionVector _) as [[vv n] |] eqn:Hvv; [| done].
  destruct (CanonicalizeSlash _) as [key |] eqn:Hkey; [| done].
  apply Decode_sound in Hvv as (Hc & Hw & Hl & Hn & Hnl & _).
  unfold slice in Hnl. rewrite length_take, length_drop in Hnl. split; [| lia].
  split; [| done | done | eapply canonFromComponents_canonical; exact Hkey].
  split; cbn [Path ContentHash Size Mode ModTimeNS Version Deleted Type_]; [apply copy32_length | | | | done].
  - apply be_dec_slice_range. lia.
  - apply be_dec_slice_range. lia.
  - apply to_int64_range, be_dec_slice_range. lia.
Qed.

Lemma decode_all_sound `{UnicodeLaws} count b off :
  (off ≤ length b)%nat →
  match decode_all count b off with
  | Ok (set, off') => Forall decoded_ok set ∧ length set = count ∧ (off' ≤ length b)%nat
  | Err e => e = ErrMalformedFileInfo
  end.
Proof.
  revert off. induction count as [|count IH]; intros off Hle; cbn [decode_all]; [by split_and! |].
  unfold go_slice. destruct (Nat.leb_spec (off + (length b - off)) (length b)); [| lia].
  pose proof (DecodeFileInfo_sound (slice b off (length b - off))) as Hs.
  destruct (DecodeFileInfo _) as [[fi n] | e]; cbn [rbind]; [| done].
  destruct Hs as [Hfi Hn]. rewrite length_slice in Hn by lia.
  specialize (IH (off + n)%nat ltac:(lia)). destruct (decode_all _ _ _) as [[out off'] | e]; cbn [rbind]; [| done].
  destruct IH as (? & <- & ?). split_and!; [by constructor | done | done].
Qed.

Lemma DecodeFileInfos_inv `{UnicodeLaws} b :
  match DecodeFileInfos b with
  | Ok set => Forall decoded_ok set ∧ Z.of_nat (length set) = be_dec (take 4 b)
  | Err e => e = ErrMalformedFileInfo
  end.
Proof.
  unfold DecodeFileInfos. destruct (Nat.ltb_spec (length b) 4); [done |]. cbv zeta.
  pose proof (decode_all_sound (Z.to_nat (be_dec (take 4 b))) b 4 ltac:(lia)) as Hs.
  destruct (decode_all _ _ _) as [[out off] | e]; cbn [rbind]; [| done].
  destruct Hs as (Hok & Hlen & _). case_decide; [| done]. split; [done |]. rewrite Hlen.
  apply Z2Nat.id, be_dec_range.
Qed.

(** ** The structural encodings are injective *)

(** What the structural hash commits to. *)
Definition skey (fi : FileInfo) : bytes * Z * bool * VersionVector :=
  (ContentHash fi, canonicalModeByte fi, Deleted fi, Version fi).

Lemma canonicalModeByte_range fi : 0 ≤ canonicalModeByte fi < 256.
Proof. unfold canonicalModeByte. destruct (executable fi), (decide (Type_ fi = TypeSymlink)); by vm_compute. Qed.

Lemma bool_byte_inj a b : bool_byte a = bool_byte b → a = b.
Proof. destruct a, b; [done | discriminate.. | done]. Qed.

Lemma byte_of_Z_inj a b : 0 ≤ a < 256 → 0 ≤ b < 256 → byte_of_Z a = byte_of_Z b → a = b.
Proof.
  intros Ha Hb H. apply (f_equal Z_of_byte) in H. rewrite !Z_of_byte_of_Z, !Z.mod_small in H by lia. done.
Qed.

Lemma leafEncoding_inj a b :
  fi_width a → fi_width b → leafEncoding a = leafEncoding b → skey a = skey b.
Proof.
  intros Ha Hb H. unfold leafEncoding in H.
  apply app_inj_1 in H as [Hh H]; [| by rewrite (fw_hash _ Ha), (fw_hash _ Hb)].
  apply app_inj_1 in H as [Hm H]; [| done]. apply app_inj_1 in H as [Hd Hv]; [| done].
  injection Hm as Hm. injection Hd as Hd.
  apply byte_of_Z_inj in Hm; [| apply canonicalModeByte_range..].
  apply bool_byte_inj in Hd. apply Encode_inj in Hv; [| apply fw_vv; done..].
  unfold skey. by rewrite Hh, Hm, Hd, Hv.
Qed.

Lemma leafEncoding_skey a b : skey a = skey b → leafEncoding a = leafEncoding b.
Proof. unfold skey, leafEncoding. by intros [= -> -> -> ->]. Qed.

Definition child_ok (c : childEntry) : Prop :=
  Z.of_nat (length (ce_name c)) ≤ 65535 ∧ hash_len (ce_hash c).

Lemma encode_child_app_inj c d s t :
  child_ok c → child_ok d → encode_child c ++ s = encode_child d ++ t → c = d ∧ s = t.
Proof.
  intros [Hc1 Hc2] [Hd1 Hd2] H. unfold encode_child in H. rewrite <- !app_assoc in H.
  apply app_inj_1 in H as [Hl H]; [| by rewrite !length_be_enc].
  rewrite !wrap_small in Hl by (width; lia). apply be_enc_inj in Hl; [| change (256 ^ Z.of_nat 2) with 65536; lia..].
  apply app_inj_1 in H as [Hn H]; [| lia].
  apply app_inj_1 in H as [Hh H]; [| by rewrite Hc2, Hd2].
  destruct c, d; cbn [ce_name ce_hash] in *. by subst.
Qed.

Lemma encode_children_inj l1 l2 :
  Forall child_ok l1 → Forall child_ok l2 →
  concat (encode_child <$> l1) = concat (encode_child <$> l2) → l1 = l2.
Proof.
  assert (∀ c s, encode_child c ++ s ≠ []) as Hne.
  { intros c s He. apply (f_equal length) in He. unfold encode_child in He.
    rewrite !length_app, length_be_enc in He. simpl in He. lia. }
  intros H1. revert l2. induction H1 as [|c l1 Hc H1 IH]; intros [|d l2] H2; cbn [fmap list_fmap concat]; intros H.
  - done.
  - by destruct (Hne d (concat (encode_child <$> l2))).
  - by destruct (Hne c (concat (encode_child <$> l1))).
  - inversion H2; subst. apply encode_child_app_inj in H as [-> H]; [| done | done].
    f_equal. by apply IH.
Qed.

Lemma nodeEncoding_inj l1 l2 :
  Forall child_ok l1 → Forall child_ok l2 → nodeEncoding l1 = nodeEncoding l2 → l1 = l2.
Proof.
  intros H1 H2 H. unfold nodeEncoding in H. apply app_inj_1 in H as [_ H]; [| by rewrite !length_be_enc].
  by apply encode_children_inj.
Qed.

Lemma FileInfos_encode_decode `{Unicode} set :
  Forall wire_ok set → in_width 32 (Z.of_nat (length set)) →
  ∃ b, EncodeFileInfos set = Ok b ∧ DecodeFileInfos b = Ok set.
Proof.
  intros Hok Hlen.
  assert (is_ok (EncodeFileInfos set) = true) as He.
  { assert (is_ok (encode_all set) = true) as Ha.
    { apply encode_all_ok. apply (Forall_impl wire_ok _ _ Hok). by intros fi []. }
    unfold EncodeFileInfos. by destruct (encode_all set). }
  destruct (EncodeFileInfos set) as [b |] eqn:Hb; [| done].
  exists b. split; [done |]. by apply DecodeFileInfos_encode.
Qed.

(** * Properties *)

(** the INDEX body codec is lossless: encoding any set of records that fit
    the wire grammar succeeds, and decoding the bytes gives exactly the set
    back, all fields included. *)
Theorem FileInfos_roundtrip `{Unicode} set :
  Forall wire_ok set → in_width 32 (Z.of_nat (length set)) →
  ∃ b, EncodeFileInfos set = Ok b ∧ DecodeFileInfos b = Ok set.
Proof. apply FileInfos_encode_decode. Qed.

Definition sample_file : FileInfo :=
  mkFileInfo (go! "docs/a.txt") zero32 12 420 (-5) [mkCounter 7 3] false TypeFile.
Definition sample_link : FileInfo :=
  mkFileInfo (go! "link") zero32 0 511 99 [] true TypeSymlink.

Lemma FileInfos_roundtrip_witness :
  ∃ b, EncodeFileInfos [sample_file; sample_link] = Ok b ∧ DecodeFileInfos b = Ok [sample_file; sample_link].
Proof.
  refine (FileInfos_roundtrip [sample_file; sample_link] _ _); [| by cbn; width; lia].
  apply Forall_cons_2; [| apply Forall_cons_2; [| constructor]].
  all: split; [split | ..]; cbn; try reflexivity; try (width; lia); try lia; try vv_concrete.
  all: first [apply Forall_cons_2; [cbn; width; lia | constructor] | constructor].
Defined.

(** the INDEX body decoder is safe on every byte string: it never slices out
    of range, its only error is ErrMalformedFileInfo, and a set it accepts has
    exactly the announced number of records, each with fields within width, a
    canonical version vector and a canonical key that cannot leave the root. *)
Theorem DecodeFileInfos_safe `{UnicodeLaws} b :
  match DecodeFileInfos b with
  | Ok set => Forall decoded_ok set ∧ Z.of_nat (length set) = be_dec (take 4 b)
  | Err e => e = ErrMalformedFileInfo
  end.
Proof. apply DecodeFileInfos_inv. Qed.

Lemma DecodeFileInfos_safe_witness :
  DecodeFileInfos (be_enc 4 1 ++ be_enc 2 3 ++ go! "../") = Err ErrMalformedFileInfo ∧
  match DecodeFileInfos (be_enc 4 0) with
  | Ok set => Forall decoded_ok set ∧ Z.of_nat (length set) = be_dec (take 4 (be_enc 4 0))
  | Err e => e = ErrMalformedFileInfo
  end.
Proof. split; [reflexivity | exact (DecodeFileInfos_safe (be_enc 4 0))]. Defined.
