(* ===== verification/Tree.v ===== *)
(** * Tree: the in-memory Merkle tree (internal/merkle/node.go, tree.go)

    A node is a leaf with its FileInfo or a directory with a map of children;
    each caches its structural hash. [BuildTree] inserts unhashed nodes and
    hashes once ([rehash]); [Update] copies and rehashes one path
    ([cowUpsert]). The specification of both is the flat map of leaves
    ([leaf_at]): a well-formed tree is determined by it ([wf_ext]). *)
From S2P Require Import Prelude Bytes VersionVector Messages Windows Pathnorm Hashing FileInfo.

(** ** node.go *)

Inductive Node : Type :=
| LeafNode (name : bytes) (leaf : FileInfo) (hash : bytes)
| DirNode (name : bytes) (children : gmap bytes Node) (hash : bytes).

Definition node_name (n : Node) : bytes := match n with LeafNode nm _ _ | DirNode nm _ _ => nm end.
Definition node_hash (n : Node) : bytes := match n with LeafNode _ _ h | DirNode _ _ h => h end.
Definition isDir (n : Node) : bool := match n with DirNode _ _ _ => true | LeafNode _ _ _ => false end.
Definition node_leaf (n : Node) : option FileInfo :=
  match n with LeafNode _ fi _ => Some fi | DirNode _ _ _ => None end.
(** [n.children[k]]; a leaf has a nil map. *)
Definition child (n : Node) (k : bytes) : option Node :=
  match n with DirNode _ ch _ => ch !! k | LeafNode _ _ _ => None end.

Definition sorted_names (children : gmap bytes Node) : list bytes :=
  merge_sort bytes_le (map_to_list children).*1.

Definition child_entries (children : gmap bytes Node) : list childEntry :=
  (λ nm, mkChildEntry nm (match children !! nm with Some c => node_hash c | None => zero32 end))
    <$> sorted_names children.

Section tree.
Context `{Digest}.

Definition hashFromChildren (children : gmap bytes Node) : bytes := dirHash (child_entries children).

Fixpoint rehash (n : Node) : Node :=
  match n with
  | LeafNode nm fi _ => LeafNode nm fi (leafHash fi)
  | DirNode nm ch _ => let ch' := rehash <$> ch in DirNode nm ch' (hashFromChildren ch')
  end.

(** ** tree.go *)

Definition new_dir (nm : bytes) : Node := DirNode nm ∅ zero32.

Definition splitPathComponents (path : bytes) : Result MerkleError (list bytes) :=
  match path with
  | [] => Err ErrTreeConflict
  | _ =>
    let comps := split_on slash_c path in
    if existsb (λ c, bool_decide (c = []) || (65535 <? Z.of_nat (length c))) comps
    then Err ErrTreeConflict else Ok comps
  end.

(** The inner loop of [BuildTree]: place [fi] at [comps] below the directory [cur]. *)
Fixpoint build_insert (cur : Node) (comps : list bytes) (fi : FileInfo) : Result MerkleError Node :=
  match cur with
  | LeafNode _ _ _ => Err ErrTreeConflict
  | DirNode nm ch h =>
    match comps with
    | [] => Ok cur
    | [comp] =>
      match ch !! comp with
      | Some _ => Err ErrTreeConflict
      | None => Ok (DirNode nm (<[comp := LeafNode comp fi zero32]> ch) h)
      end
    | comp :: comps' =>
      let c := match ch !! comp with Some c => c | None => new_dir comp end in
      if negb (isDir c) then Err ErrTreeConflict
      else let! c' := build_insert c comps' fi in Ok (DirNode nm (<[comp := c']> ch) h)
    end
  end.

Fixpoint build_all (root : Node) (set : list FileInfo) : Result MerkleError Node :=
  match set with
  | [] => Ok root
  | fi :: set' =>
    let! comps := splitPathComponents (Path fi) in
    let! root' := build_insert root comps fi in
    build_all root' set'
  end.

Definition BuildTree (set : list FileInfo) : Result MerkleError Node :=
  let! root := build_all (new_dir []) set in Ok (rehash root).

Fixpoint cowUpsert (dir : Node) (comps : list bytes) (leaf : FileInfo) : Result MerkleError Node :=
  match dir with
  | LeafNode _ _ _ => Err ErrTreeConflict
  | DirNode nm kids _ =>
    let! kids' :=
      match comps with
      | [] => Err ErrTreeConflict       (* comps is never empty *)
      | [head] =>
        match kids !! head with
        | Some (DirNode _ _ _) => Err ErrTreeConflict
        | _ => Ok (<[head := LeafNode head leaf (leafHash leaf)]> kids)
        end
      | head :: comps' =>
        let c := match kids !! head with Some c => c | None => new_dir head end in
        let! c' := cowUpsert c comps' leaf in Ok (<[head := c']> kids)
      end in
    Ok (DirNode nm kids' (hashFromChildren kids'))
  end.

(** A nil tree or nil root is [None]. *)
Definition Update (t : option Node) (fi : FileInfo) : Result MerkleError Node :=
  let! comps := splitPathComponents (Path fi) in
  cowUpsert (default (new_dir []) t) comps fi.

Definition RootHash (t : option Node) : bytes :=
  match t with Some root => node_hash root | None => zero32 end.

Fixpoint walk (cur : Node) (comps : list bytes) : option Node :=
  match comps with
  | [] => Some cur
  | comp :: comps' =>
    match child cur comp with
    | None => None
    | Some next => walk next comps'
    end
  end.
Definition Lookup (t : option Node) (path : bytes) : option FileInfo :=
  match t, path with
  | None, _ | _, [] => None
  | Some root, _ =>
    match walk root (split_on slash_c path) with
    | None => None
    | Some cur => node_leaf cur
    end
  end.

End tree.

Arguments Lookup : simpl never.

(** ** The flat map of leaves *)

Definition leaf_at (n : Node) (p : list bytes) : option FileInfo := walk n p ≫= node_leaf.

Lemma walk_app n p q : walk n (p ++ q) = walk n p ≫= λ c, walk c q.
Proof. revert n. induction p as [|k p IH]; intros n; simpl; [done |]. by destruct (child n k). Qed.

Lemma leaf_at_nil n : leaf_at n [] = node_leaf n.
Proof. done. Qed.

Lemma leaf_at_cons n k p : leaf_at n (k :: p) = child n k ≫= λ c, leaf_at c p.
Proof. unfold leaf_at. simpl. by destruct (child n k). Qed.

(** ** Well-formed trees *)

(** A component the tree grammar can hold. *)
Definition comp_ok (k : bytes) : Prop := k ≠ [] ∧ Z.of_nat (length k) ≤ 65535 ∧ slash_c ∉ k.

Definition nonempty (n : Node) : Prop := match n with LeafNode _ _ _ => True | DirNode _ ch _ => ch ≠ ∅ end.

(** Children are filed under their names, directories below the root are not
    empty, and every cached hash is the given function of the node's content. *)
Inductive wf (HL : FileInfo → bytes) (HD : gmap bytes Node → bytes) : Node → Prop :=
| wf_leaf nm fi : wf HL HD (LeafNode nm fi (HL fi))
| wf_dir nm ch :
  (∀ k c, ch !! k = Some c → wf HL HD c) →
  (∀ k c, ch !! k = Some c → node_name c = k ∧ comp_ok k ∧ nonempty c) →
  wf HL HD (DirNode nm ch (HD ch)).

(** The trees under construction, not yet hashed, and the finished ones. *)
Notation wf_raw := (wf (λ _, zero32) (λ _, zero32)).
Notation wf_tree := (wf leafHash hashFromChildren).

Lemma wf_child HL HD n k c : wf HL HD n → child n k = Some c →
  wf HL HD c ∧ node_name c = k ∧ comp_ok k ∧ nonempty c.
Proof. intros [nm fi | nm ch Hwf Hk] Hc; simpl in Hc; [done |]. eauto. Qed.

(** Every non-empty node has a leaf at or below it. *)
Lemma wf_has_leaf HL HD n : wf HL HD n → nonempty n → ∃ p fi, leaf_at n p = Some fi.
Proof.
  induction 1 as [nm fi | nm ch _ IH Hk]; intros Hne.
  - by exists [], fi.
  - apply map_choose in Hne as (k & c & Hc). destruct (Hk k c Hc) as (_ & _ & Hcne).
    destruct (IH k c Hc Hcne) as (p & fi & Hp). exists (k :: p), fi. rewrite leaf_at_cons. simpl. by rewrite Hc.
Qed.

Lemma leaf_at_isDir n k p fi : leaf_at n (k :: p) = Some fi → isDir n = true.
Proof. rewrite leaf_at_cons. by destruct n. Qed.

(** Extensionality: the leaves determine the tree. *)
Lemma wf_ext HL HD n1 n2 :
  wf HL HD n1 → wf HL HD n2 → nonempty n1 ∨ isDir n1 = isDir n2 →
  node_name n1 = node_name n2 → (∀ p, leaf_at n1 p = leaf_at n2 p) → n1 = n2.
Proof.
  intros H1. revert n2. induction H1 as [nm fi | nm ch Hwf IH Hk]; intros n2 H2 Hd Hnm Hl.
  - destruct H2 as [nm' fi' | nm' ch' _ _]; specialize (Hl []); cbn in *; congruence.
  - destruct H2 as [nm' fi' | nm' ch' Hwf' Hk'].
    { destruct Hd as [Hne | Hd]; [| done].
      destruct (wf_has_leaf HL HD (DirNode nm ch (HD ch)) ltac:(by constructor) Hne) as ([|k p] & fi & Hp);
        [done |]. by rewrite Hl in Hp. }
    cbn in Hnm. subst nm'. assert (ch = ch') as ->; [| done].
    assert (∀ k p, (ch !! k ≫= λ c, leaf_at c p) = (ch' !! k ≫= λ c, leaf_at c p)) as Hlk.
    { intros k p. specialize (Hl (k :: p)). by rewrite !leaf_at_cons in Hl. }
    apply map_eq. intros k.
    destruct (ch !! k) as [c |] eqn:Hc, (ch' !! k) as [c' |] eqn:Hc'; [| | | done].
    + f_equal. destruct (Hk _ _ Hc) as (Hn & _ & Hne), (Hk' _ _ Hc') as (Hn' & _ & _).
      apply (IH k c Hc c'); eauto; [congruence |]. intros p. specialize (Hlk k p). by rewrite Hc, Hc' in Hlk.
    + exfalso. destruct (Hk _ _ Hc) as (_ & _ & Hne).
      destruct (wf_has_leaf HL HD c (Hwf _ _ Hc) Hne) as (p & fi & Hp).
      specialize (Hlk k p). rewrite Hc, Hc' in Hlk. simpl in Hlk. congruence.
    + exfalso. destruct (Hk' _ _ Hc') as (_ & _ & Hne).
      destruct (wf_has_leaf HL HD c' (Hwf' _ _ Hc') Hne) as (p & fi & Hp).
      specialize (Hlk k p). rewrite Hc, Hc' in Hlk. simpl in Hlk. congruence.
Qed.

Section hashing.
Context `{Digest}.

(** Hashing changes nothing but the hashes. *)
Lemma rehash_spec HL HD n : wf HL HD n →
  wf_tree (rehash n) ∧ node_name (rehash n) = node_name n ∧ isDir (rehash n) = isDir n ∧
  (nonempty n → nonempty (rehash n)) ∧ ∀ p, leaf_at (rehash n) p = leaf_at n p.
Proof.
  induction 1 as [nm fi | nm ch Hwf IH Hk].
  - split_and!; [apply (wf_leaf leafHash hashFromChildren) | done | done | done | by intros [|k p]].
  - split_and!; [| done | done | |].
    + cbn [rehash]. apply (wf_dir leafHash hashFromChildren); intros k c; rewrite lookup_fmap, fmap_Some; intros (c0 & Hc0 & ->).
      * by destruct (IH k c0 Hc0).
      * destruct (IH k c0 Hc0) as (_ & -> & _ & Hne & _). destruct (Hk k c0 Hc0) as (? & ? & ?). auto.
    + simpl. intros Hne He. by apply fmap_empty_inv in He.
    + intros [|k p]; [done |]. rewrite !leaf_at_cons. simpl. rewrite lookup_fmap.
      destruct (ch !! k) as [c |] eqn:Hc; [| done]. simpl. by destruct (IH k c Hc) as (_ & _ & _ & _ & ->).
Qed.

End hashing.

(** ** Placing a leaf *)

(** Placing a leaf at [comps] clashes with a leaf on the way or below; [up] allows
    the leaf that is already there to be replaced. *)
Definition clash_free (up : bool) (n : Node) (comps : list bytes) : Prop :=
  ∀ p fi, leaf_at n p = Some fi →
    (up = true ∧ p = comps) ∨ (¬ p `prefix_of` comps ∧ ¬ comps `prefix_of` p).

Lemma prefix_cons_iff (k : bytes) p q : (k :: p) `prefix_of` (k :: q) ↔ p `prefix_of` q.
Proof. split; [apply prefix_cons_inv_2 | apply prefix_cons]. Qed.

Lemma leaf_at_new_dir k p : leaf_at (new_dir k) p = None.
Proof. destruct p as [|x p]; [done |]. by rewrite leaf_at_cons. Qed.

Lemma clash_free_child up nm ch h k comps :
  clash_free up (DirNode nm ch h) (k :: comps) ↔ clash_free up (default (new_dir k) (ch !! k)) comps.
Proof.
  assert (∀ p, leaf_at (default (new_dir k) (ch !! k)) p = leaf_at (DirNode nm ch h) (k :: p)) as Heq.
  { intros p. rewrite leaf_at_cons. simpl. destruct (ch !! k); simpl; [done | apply leaf_at_new_dir]. }
  split; intros Hcf p fi Hp.
  - rewrite Heq in Hp. destruct (Hcf _ _ Hp) as [[? [= ->]] | Hn]; [by left | right].
    by rewrite !prefix_cons_iff in Hn.
  - destruct p as [|k' p]; [done |]. destruct (decide (k' = k)) as [-> | Hne].
    + rewrite <- Heq in Hp. destruct (Hcf _ _ Hp) as [[? ->] | Hn]; [by left | right].
      by rewrite !prefix_cons_iff.
    + right. split; intros Hpre; apply prefix_cons_inv_1 in Hpre; congruence.
Qed.

Lemma clash_free_nil up HL HD n :
  wf HL HD n → clash_free up n [] ↔ (up = true ∧ isDir n = false) ∨ ¬ nonempty n.
Proof.
  intros Hwf. split.
  - intros Hcf. destruct Hwf as [nm fi | nm ch Hk Hn].
    + left. destruct (Hcf [] fi eq_refl) as [[? _] | [Hp _]]; [done |]. by destruct Hp.
    + right. intros Hne. destruct (wf_has_leaf HL HD (DirNode nm ch (HD ch)) ltac:(by constructor) Hne) as (p & fi & Hp).
      destruct (Hcf p fi Hp) as [[_ ->] | [_ []]]; [done | by apply prefix_nil].
  - intros Hn p fi Hp. destruct Hwf as [nm fi' | nm ch Hk Hkn].
    + destruct p; [| done]. destruct Hn as [[? _] | Hn]; [by left | by destruct Hn].
    + destruct Hn as [[_ ?] | Hn]; [done |]. exfalso. apply Hn. intros ->.
      destruct p; [done |]. by rewrite leaf_at_cons in Hp.
Qed.

(** The tree after placing [fi] at [comps]. *)
Record placed (HL : FileInfo → bytes) (HD : gmap bytes Node → bytes)
    (n n' : Node) (comps : list bytes) (fi : FileInfo) : Prop := mkPlaced {
  pl_wf : wf HL HD n';
  pl_name : node_name n' = node_name n;
  pl_dir : isDir n' = true;
  pl_nonempty : nonempty n';
  pl_leaf q : leaf_at n' q = if decide (q = comps) then Some fi else leaf_at n q
}.

(** The children of [n] are well-formed, whatever the hash cached at [n] itself. *)
Definition wf_kids HL HD (n : Node) : Prop :=
  ∀ k c, child n k = Some c → wf HL HD c ∧ node_name c = k ∧ comp_ok k ∧ nonempty c.

Lemma wf_wf_kids HL HD n : wf HL HD n → wf_kids HL HD n.
Proof. intros Hn k c. by apply wf_child. Qed.

Lemma wf_kids_new_dir HL HD k : wf_kids HL HD (new_dir k).
Proof. by intros k' c. Qed.

Lemma wf_kids_insert HL HD nm ch h k c' :
  wf_kids HL HD (DirNode nm ch h) → wf HL HD c' → node_name c' = k → comp_ok k → nonempty c' →
  wf HL HD (DirNode nm (<[k := c']> ch) (HD (<[k := c']> ch))).
Proof.
  intros Hkids Hc' Hn Hk Hne. constructor; intros k0 c0; destruct (decide (k = k0)) as [<- | Hkk].
  1, 3: rewrite lookup_insert_eq; by intros [= <-].
  all: rewrite lookup_insert_ne by done; intros Hc0; by destruct (Hkids k0 c0 Hc0) as (? & ? & ? & ?).
Qed.

Lemma leaf_at_insert nm ch h h' k c' fi comps :
  (∀ q, leaf_at c' q = if decide (q = comps) then Some fi else leaf_at (default (new_dir k) (ch !! k)) q) →
  ∀ q, leaf_at (DirNode nm (<[k := c']> ch) h') q =
    if decide (q = k :: comps) then Some fi else leaf_at (DirNode nm ch h) q.
Proof.
  intros Hc' [|k0 q]; [by rewrite decide_False |]. rewrite !leaf_at_cons. simpl.
  destruct (decide (k0 = k)) as [-> | Hne].
  - rewrite lookup_insert_eq. simpl. rewrite Hc'. repeat case_decide; try congruence.
    destruct (ch !! k); simpl; [done | apply leaf_at_new_dir].
  - rewrite lookup_insert_ne, decide_False by congruence. done.
Qed.

Lemma placed_insert HL HD nm ch h k c' comps fi :
  wf_kids HL HD (DirNode nm ch h) → comp_ok k → nonempty c' → node_name c' = k → wf HL HD c' →
  (∀ q, leaf_at c' q = if decide (q = comps) then Some fi else leaf_at (default (new_dir k) (ch !! k)) q) →
  placed HL HD (DirNode nm ch h) (DirNode nm (<[k := c']> ch) (HD (<[k := c']> ch))) (k :: comps) fi.
Proof.
  intros Hkids Hk Hne Hnm Hwf Hl. split; [by eapply wf_kids_insert | done | done | | by eapply leaf_at_insert].
  apply insert_non_empty.
Qed.

Lemma leaf_at_leaf nm fi h q : leaf_at (LeafNode nm fi h) q = if decide (q = []) then Some fi else None.
Proof. destruct q; [done |]. by rewrite leaf_at_cons. Qed.

Lemma build_insert_cons nm ch h k comps fi : comps ≠ [] →
  build_insert (DirNode nm ch h) (k :: comps) fi =
    let c := default (new_dir k) (ch !! k) in
    if negb (isDir c) then Err ErrTreeConflict
    else let! c' := build_insert c comps fi in Ok (DirNode nm (<[k := c']> ch) h).
Proof. by destruct comps. Qed.

Lemma build_insert_spec n comps fi :
  wf_raw n → isDir n = true → comps ≠ [] → Forall comp_ok comps →
  match build_insert n comps fi with
  | Ok n' => clash_free false n comps ∧ placed (λ _, zero32) (λ _, zero32) n n' comps fi
  | Err e => e = ErrTreeConflict ∧ ¬ clash_free false n comps
  end.
Proof.
  intros Hwf Hd Hne Hok. revert n Hwf Hd. induction Hok as [|k comps Hk Hok IH]; [done |].
  intros n Hwf Hd. assert (Hkids := wf_wf_kids _ _ _ Hwf).
  destruct Hwf as [|nm ch Hch Hchk]; [done |].
  pose proof (clash_free_child false nm ch zero32 k comps) as Hcc.
  destruct (decide (comps = [])) as [-> | Hcomps].
  - simpl. destruct (ch !! k) as [c |] eqn:Hc; simpl.
    + split; [done |]. rewrite Hcc. simpl. rewrite (clash_free_nil false _ _ c (Hch _ _ Hc)).
      destruct (Hchk _ _ Hc) as (_ & _ & ?). naive_solver.
    + split; [rewrite Hcc; simpl; intros p f Hp; by rewrite leaf_at_new_dir in Hp |].
      apply (placed_insert (λ _, zero32) (λ _, zero32)); try done; [constructor |].
      intros q. rewrite Hc. simpl. rewrite leaf_at_new_dir, leaf_at_leaf. by repeat case_decide.
  - rewrite build_insert_cons by done. cbv zeta. set (c := default _ _) in *.
    assert (wf_raw c ∧ node_name c = k) as [Hcwf Hcn].
    { unfold c. destruct (ch !! k) as [c0 |] eqn:Hc; simpl; [| split; [by constructor | done]].
      split; [eauto | by destruct (Hchk _ _ Hc)]. }
    destruct (isDir c) eqn:Hcd; simpl.
    + specialize (IH Hcomps c Hcwf Hcd). destruct (build_insert c comps fi) as [c' | e]; simpl.
      2:{ by rewrite Hcc. }
      destruct IH as [Hcf [Hwf' Hn' Hd' Hne' Hl']]. split; [by rewrite Hcc |].
      apply (placed_insert (λ _, zero32) (λ _, zero32)); try done. congruence.
    + split; [done |]. rewrite Hcc. intros Hcf. clearbody c. destruct c as [? f ? |]; [| done].
      destruct (Hcf [] f eq_refl) as [[? _] | [Hp _]]; [done |]. apply Hp, prefix_nil.
Qed.

Section update.
Context `{Digest}.

Lemma cowUpsert_cons nm ch h k comps fi : comps ≠ [] →
  cowUpsert (DirNode nm ch h) (k :: comps) fi =
    let! c' := cowUpsert (default (new_dir k) (ch !! k)) comps fi in
    Ok (DirNode nm (<[k := c']> ch) (hashFromChildren (<[k := c']> ch))).
Proof.
  destruct comps as [|k' comps]; [done |]. intros _.
  transitivity (let! kids' := let! c' := cowUpsert (default (new_dir k) (ch !! k)) (k' :: comps) fi in
                              Ok (<[k := c']> ch) in
                Ok (DirNode nm kids' (hashFromChildren kids'))); [reflexivity |].
  by destruct (cowUpsert (default (new_dir k) (ch !! k)) (k' :: comps) fi).
Qed.

Lemma cowUpsert_spec n comps fi :
  wf_kids leafHash hashFromChildren n → isDir n = true → comps ≠ [] → Forall comp_ok comps →
  match cowUpsert n comps fi with
  | Ok n' => clash_free true n comps ∧ placed leafHash hashFromChildren n n' comps fi
  | Err e => e = ErrTreeConflict ∧ ¬ clash_free true n comps
  end.
Proof.
  intros Hkids Hd Hne Hok. revert n Hkids Hd. induction Hok as [|k comps Hk Hok IH]; [done |].
  intros n Hkids Hd. destruct n as [|nm ch h]; [done |].
  pose proof (clash_free_child true nm ch h k comps) as Hcc.
  destruct (decide (comps = [])) as [-> | Hcomps].
  - assert (placed leafHash hashFromChildren (DirNode nm ch h)
      (DirNode nm (<[k := LeafNode k fi (leafHash fi)]> ch) (hashFromChildren (<[k := LeafNode k fi (leafHash fi)]> ch))) [k] fi
      ∨ ∃ c, ch !! k = Some c ∧ isDir c = true) as Hpl.
    { destruct (ch !! k) as [[ |] |] eqn:Hc; [left | right; eauto | left].
      all: apply placed_insert; try done; try constructor; intros q; rewrite Hc; simpl.
      all: rewrite ?leaf_at_new_dir, !leaf_at_leaf; by repeat case_decide. }
    simpl. destruct (ch !! k) as [c |] eqn:Hc; simpl in Hcc |- *.
    + destruct (Hkids k c Hc) as (Hcwf & _ & _ & Hcne).
      rewrite (clash_free_nil true _ _ c Hcwf) in Hcc. destruct c as [|? ? ?]; simpl.
      * split; [rewrite Hcc; by left |]. by destruct Hpl as [? | (? & ? & ?)]; simplify_eq.
      * split; [done |]. rewrite Hcc. naive_solver.
    + split; [rewrite Hcc; simpl; intros p f Hp; by rewrite leaf_at_new_dir in Hp |].
      by destruct Hpl as [? | (? & ? & ?)].
  - rewrite cowUpsert_cons by done. set (c := default _ _) in *.
    assert (wf_kids leafHash hashFromChildren c ∧ node_name c = k) as [Hcwf Hcn].
    { unfold c. destruct (ch !! k) as [c0 |] eqn:Hc; simpl; [| split; [apply wf_kids_new_dir | done]].
      destruct (Hkids k c0 Hc) as (? & ? & _). split; [by apply wf_wf_kids | done]. }
    destruct (isDir c) eqn:Hcd.
    + specialize (IH Hcomps c Hcwf Hcd). destruct (cowUpsert c comps fi) as [c' | e]; simpl.
      2:{ by rewrite Hcc. }
      destruct IH as [Hcf [Hwf' Hn' Hd' Hne' Hl']]. split; [by rewrite Hcc |].
      apply placed_insert; try done. congruence.
    + assert (¬ clash_free true c comps) as Hncf.
      { intros Hcf. clearbody c. destruct c as [? f ? |]; [| done].
        destruct (Hcf [] f eq_refl) as [[_ ?] | [Hp _]]; [done |]. apply Hp, prefix_nil. }
      clearbody c. destruct c; [| done]. destruct comps; simpl; by rewrite Hcc.
Qed.

(** ** Sets of records that form a tree *)

Definition comps_of (fi : FileInfo) : list bytes := split_on slash_c (Path fi).
Definition path_ok (path : bytes) : Prop := path ≠ [] ∧ Forall comp_ok (split_on slash_c path).

(** Neither is at or below the other. *)
Definition apart (p q : list bytes) : Prop := ¬ p `prefix_of` q ∧ ¬ q `prefix_of` p.

(** Every path can be placed, and no two of them collide (equal paths, or a
    file where another path needs a directory). *)
Definition valid_set (set : list FileInfo) : Prop :=
  Forall (λ fi, path_ok (Path fi)) set ∧ ForallOrdPairs (λ a b, apart (comps_of a) (comps_of b)) set.

Lemma splitPathComponents_spec path :
  match splitPathComponents path with
  | Ok comps => comps = split_on slash_c path ∧ path_ok path
  | Err e => e = ErrTreeConflict ∧ ¬ path_ok path
  end.
Proof.
  unfold splitPathComponents. destruct path as [|x path]; [split; [done | by intros []] |].
  set (p := x :: path) in *. assert (p ≠ []) as Hp by done. clearbody p.
  pose proof (split_on_no_sep slash_c p) as Hsep. unfold path_ok.
  destruct (existsb _ _) eqn:He.
  - split; [done |]. intros [_ Hall]. apply existsb_exists in He as (c & Hin & Hc).
    apply list_elem_of_In in Hin. rewrite Forall_forall in Hall. destruct (Hall c Hin) as (H1 & H2 & _).
    apply orb_true_iff in Hc as [Hc | Hc]; [by apply bool_decide_eq_true in Hc | apply Z.ltb_lt in Hc; lia].
  - split; [done |]. split; [done |]. rewrite Forall_forall in Hsep |- *. intros c Hin.
    split_and!; [| | by apply Hsep].
    + intros ->. assert (existsb (λ c, bool_decide (c = []) || (65535 <? Z.of_nat (length c))) (split_on slash_c p) = true); [| congruence].
      apply existsb_exists. exists []. split; [by apply list_elem_of_In | done].
    + destruct (Z.le_gt_cases (Z.of_nat (length c)) 65535); [done | exfalso].
      assert (existsb (λ c, bool_decide (c = []) || (65535 <? Z.of_nat (length c))) (split_on slash_c p) = true); [| congruence].
      apply existsb_exists. exists c. split; [by apply list_elem_of_In |].
      apply orb_true_iff. right. apply Z.ltb_lt. lia.
Qed.

Lemma clash_free_placed HL HD n n' comps fi q :
  placed HL HD n n' comps fi → clash_free false n' q ↔ clash_free false n q ∧ apart comps q.
Proof.
  intros [_ _ _ _ Hl]. split.
  - intros Hcf. split.
    + intros p f Hp. destruct (decide (p = comps)) as [-> | Hne].
      * apply (Hcf comps fi). by rewrite Hl, decide_True.
      * apply (Hcf p f). by rewrite Hl, decide_False.
    + destruct (Hcf comps fi) as [[? _] | Ha]; [by rewrite Hl, decide_True | done | done].
  - intros [Hcf Ha] p f Hp. rewrite Hl in Hp. case_decide; [subst; by right | by apply (Hcf p f)].
Qed.

(** The records of [set] can all be placed below [root]. *)
Definition placeable (root : Node) (set : list FileInfo) : Prop :=
  Forall (λ fi, path_ok (Path fi) ∧ clash_free false root (comps_of fi)) set ∧
  ForallOrdPairs (λ a b, apart (comps_of a) (comps_of b)) set.

Lemma placeable_cons root fi set root' :
  path_ok (Path fi) → clash_free false root (comps_of fi) →
  placed (λ _, zero32) (λ _, zero32) root root' (comps_of fi) fi →
  placeable root (fi :: set) ↔ placeable root' set.
Proof.
  intros Hp Hcf Hpl. unfold placeable. rewrite Forall_cons.
  assert (Forall (λ x, path_ok (Path x) ∧ clash_free false root' (comps_of x)) set ↔
          Forall (λ x, path_ok (Path x) ∧ clash_free false root (comps_of x)) set ∧
          Forall (λ x, apart (comps_of fi) (comps_of x)) set) as ->.
  { rewrite <- Forall_and. apply Forall_iff. intros x. rewrite (clash_free_placed _ _ _ _ _ _ _ Hpl). tauto. }
  split; [intros [[_ ?] Hop]; by inversion Hop |]. intros [[? ?] Hop]. split_and!; try done. by constructor.
Qed.

Lemma build_all_spec root set :
  wf_raw root → isDir root = true →
  match build_all root set with
  | Ok t => placeable root set ∧ wf_raw t ∧ isDir t = true ∧ node_name t = node_name root ∧
            ∀ p fi, leaf_at t p = Some fi ↔ leaf_at root p = Some fi ∨ (fi ∈ set ∧ comps_of fi = p)
  | Err e => e = ErrTreeConflict ∧ ¬ placeable root set
  end.
Proof.
  revert root. induction set as [|fi set IH]; intros root Hwf Hd; cbn [build_all].
  { split_and!; try done; [by split; constructor |]. set_solver. }
  pose proof (splitPathComponents_spec (Path fi)) as Hs.
  destruct (splitPathComponents (Path fi)) as [comps | e]; cbn [rbind].
  2:{ destruct Hs as [-> Hs]. split; [done |]. intros [Hall _]. by inversion Hall as [|? ? []]. }
  destruct Hs as [-> Hp]. fold (comps_of fi).
  pose proof (build_insert_spec root (comps_of fi) fi Hwf Hd (split_on_nonempty _ _) (proj2 Hp)) as Hi.
  destruct (build_insert root (comps_of fi) fi) as [root' | e]; cbn [rbind].
  2:{ destruct Hi as [-> Hi]. split; [done |]. intros [Hall _]. by inversion Hall as [|? ? []]. }
  destruct Hi as [Hcf Hpl]. assert (Hpl' := Hpl). destruct Hpl' as [Hwf' Hn' Hd' _ Hl'].
  specialize (IH root' Hwf' Hd'). pose proof (placeable_cons root fi set root' Hp Hcf Hpl) as Hpc.
  destruct (build_all root' set) as [t | e]; [| by rewrite Hpc].
  destruct IH as (Hpa & Ht & Htd & Htn & Htl). split_and!; try done; [by apply Hpc | congruence |].
  intros p f. rewrite Htl, Hl'. case_decide as Hc.
  - subst p. split.
    + intros [[= ->] | [Hin ->]]; right; (split; [| done]); set_solver.
    + intros [Hroot | [Hin Heq]].
      * exfalso. destruct (Hcf _ _ Hroot) as [[? _] | [Hn _]]; [done |]. by apply Hn.
      * apply elem_of_cons in Hin as [-> | Hin]; [by left | right]. done.
  - rewrite elem_of_cons. naive_solver.
Qed.

Lemma placeable_new_dir k set : placeable (new_dir k) set ↔ valid_set set.
Proof.
  unfold placeable, valid_set.
  assert (∀ fi, path_ok (Path fi) ∧ clash_free false (new_dir k) (comps_of fi) ↔ path_ok (Path fi)) as Heq.
  { intros fi. split; [tauto |]. intros Hp. split; [done |]. intros p f Hl. by rewrite leaf_at_new_dir in Hl. }
  rewrite !Forall_forall. naive_solver.
Qed.

(** What [BuildTree] returns: a well-formed hashed tree with the records of the
    set at their paths, or the conflict error when the set is no tree. *)
Lemma BuildTree_spec set :
  match BuildTree set with
  | Ok t => valid_set set ∧ wf_tree t ∧ isDir t = true ∧ node_name t = [] ∧
            ∀ p fi, leaf_at t p = Some fi ↔ fi ∈ set ∧ comps_of fi = p
  | Err e => e = ErrTreeConflict ∧ ¬ valid_set set
  end.
Proof.
  unfold BuildTree. assert (wf_raw (new_dir [])) as Hwf by (by constructor).
  pose proof (build_all_spec (new_dir []) set Hwf eq_refl) as Hs.
  destruct (build_all (new_dir []) set) as [t | e]; cbn [rbind]; rewrite placeable_new_dir in Hs; [| done].
  destruct Hs as (Hv & Ht & Hd & Hn & Hl). destruct (rehash_spec _ _ t Ht) as (Hwft & Hnm & Hdir & _ & Hleaf).
  split_and!; [done | done | congruence | by rewrite Hnm, Hn |].
  intros p fi. rewrite Hleaf, Hl, leaf_at_new_dir. naive_solver.
Qed.

(** Two specifications of a finished tree with the same records agree. *)
Lemma tree_unique t1 t2 :
  wf_tree t1 → wf_tree t2 → isDir t1 = true → isDir t2 = true → node_name t1 = node_name t2 →
  (∀ p fi, leaf_at t1 p = Some fi ↔ leaf_at t2 p = Some fi) → t1 = t2.
Proof.
  intros H1 H2 Hd1 Hd2 Hn Hl. eapply wf_ext; try done; [right; congruence |].
  intros p. apply option_eq. apply Hl.
Qed.

Lemma ForallOrdPairs_perm {A} (R : A → A → Prop) l1 l2 :
  (∀ a b, R a b → R b a) → l1 ≡ₚ l2 → ForallOrdPairs R l1 → ForallOrdPairs R l2.
Proof.
  intros Hsym. induction 1 as [| x l1 l2 Hp IH | x y l | l1 l2 l3 _ IH1 _ IH2]; intros H1.
  - done.
  - inversion H1; subst. constructor; [by rewrite <- Hp | auto].
  - inversion H1 as [|? ? Hy Hl]; subst. inversion Hl as [|? ? Hx Hl']; subst. inversion Hy; subst.
    repeat constructor; auto.
  - auto.
Qed.

Lemma valid_set_perm s1 s2 : s1 ≡ₚ s2 → valid_set s1 → valid_set s2.
Proof.
  intros Hp [H1 H2]. split; [by rewrite <- Hp |].
  apply (ForallOrdPairs_perm _ s1); [| done | done]. unfold apart. naive_solver.
Qed.

Lemma apart_in_set set a b :
  ForallOrdPairs (λ a b, apart (comps_of a) (comps_of b)) set → a ∈ set → b ∈ set →
  comps_of a = comps_of b → a = b.
Proof.
  intros Hop Ha Hb Heq. apply list_elem_of_In in Ha, Hb.
  destruct (ForallOrdPairs_In Hop a b Ha Hb) as [? | [[Hab _] | [Hab _]]]; [done | |].
  - exfalso. apply Hab. by rewrite Heq.
  - exfalso. apply Hab. by rewrite Heq.
Qed.

(** ** Incremental update *)

(** The set with [fi] in place of the record at its path, if any. *)
Definition upsert (fi : FileInfo) (set : list FileInfo) : list FileInfo :=
  filter (λ x, Path x ≠ Path fi) set ++ [fi].

Lemma ForallOrdPairs_app_single {A} (R : A → A → Prop) l x :
  ForallOrdPairs R (l ++ [x]) ↔ ForallOrdPairs R l ∧ Forall (λ a, R a x) l.
Proof.
  induction l as [|a l IH]; simpl.
  - split; [intros _; split; constructor | intros _; repeat constructor].
  - split.
    + intros Hl. inversion Hl as [|? ? Ha Hl']; subst. apply IH in Hl' as [? ?].
      apply Forall_app in Ha as [? Hx]. inversion Hx; subst. split; by constructor.
    + intros [Hl Hx]. inversion Hl; inversion Hx; subst. constructor; [| by apply IH].
      apply Forall_app. split; [done | by constructor].
Qed.

Lemma ForallOrdPairs_filter {A} (R : A → A → Prop) (P : A → Prop) `{∀ x, Decision (P x)} l :
  ForallOrdPairs R l → ForallOrdPairs R (filter P l).
Proof.
  induction 1 as [|a l Ha Hl IH]; [constructor |]. rewrite filter_cons. case_decide; [| done].
  constructor; [| done]. rewrite Forall_forall in Ha |- *. intros x Hx. apply list_elem_of_filter in Hx as [_ Hx]. auto.
Qed.

Lemma valid_set_upsert set t fi :
  valid_set set → (∀ p x, leaf_at t p = Some x ↔ x ∈ set ∧ comps_of x = p) →
  valid_set (upsert fi set) ↔ path_ok (Path fi) ∧ clash_free true t (comps_of fi).
Proof.
  intros [Hok Hop] Hl. unfold valid_set, upsert. rewrite Forall_app, Forall_singleton, ForallOrdPairs_app_single.
  assert (Forall (λ x, path_ok (Path x)) (filter (λ x, Path x ≠ Path fi) set)) as Hok'.
  { rewrite Forall_forall in Hok |- *. intros x Hx. apply list_elem_of_filter in Hx as [_ Hx]. auto. }
  assert (Forall (λ a, apart (comps_of a) (comps_of fi)) (filter (λ x, Path x ≠ Path fi) set) ↔
          clash_free true t (comps_of fi)) as Hcf.
  { rewrite Forall_forall. setoid_rewrite list_elem_of_filter. split.
    - intros Hall p x Hp. apply Hl in Hp as [Hx <-].
      destruct (decide (Path x = Path fi)) as [Heq | Hne]; [left; by unfold comps_of; rewrite Heq |].
      right. by apply Hall.
    - intros Hcf x [Hne Hx]. destruct (Hcf (comps_of x) x) as [[_ Heq] | Ha]; [by apply Hl | | done].
      exfalso. apply Hne. by apply (split_on_inj slash_c). }
  rewrite Hcf. pose proof (ForallOrdPairs_filter _ (λ x, Path x ≠ Path fi) set Hop). tauto.
Qed.

Lemma Update_rebuild set t fi :
  BuildTree set = Ok t → Update (Some t) fi = BuildTree (upsert fi set).
Proof.
  intros Hb. pose proof (BuildTree_spec set) as Hs. rewrite Hb in Hs.
  destruct Hs as (Hv & Hwf & Hd & Hn & Hl). pose proof (valid_set_upsert set t fi Hv Hl) as Hup.
  pose proof (BuildTree_spec (upsert fi set)) as Hs'. unfold Update.
  pose proof (splitPathComponents_spec (Path fi)) as Hsp.
  destruct (splitPathComponents (Path fi)) as [comps | e]; cbn [rbind].
  2:{ destruct Hsp as [-> Hsp]. destruct (BuildTree (upsert fi set)) as [|e']; [tauto |]. by destruct Hs' as [-> _]. }
  destruct Hsp as [-> Hp]. fold (comps_of fi). change (default (new_dir []) (Some t)) with t.
  pose proof (cowUpsert_spec t (comps_of fi) fi (wf_wf_kids _ _ _ Hwf) Hd (split_on_nonempty _ _) (proj2 Hp)) as Hc.
  destruct (cowUpsert t (comps_of fi) fi) as [t' | e], (BuildTree (upsert fi set)) as [t'' | e'].
  - f_equal. destruct Hc as [_ [Hwf' Hn' Hd' _ Hl']]. destruct Hs' as (_ & Hwf'' & Hd'' & Hn'' & Hl'').
    apply tree_unique; try done; [congruence |]. intros p x. rewrite Hl', Hl''. unfold upsert.
    rewrite elem_of_app, list_elem_of_filter, list_elem_of_singleton. case_decide as Hpc.
    + subst p. split; [intros [= ->]; tauto |]. intros [[[Hne _] | ->] Heq]; [| done].
      exfalso. apply Hne. by apply (split_on_inj slash_c).
    + rewrite Hl. split; [| naive_solver]. intros [Hx <-]. split; [left | done]. split; [| done].
      intros Heq. apply Hpc. unfold comps_of. by rewrite Heq.
  - tauto.
  - tauto.
  - destruct Hc as [-> _], Hs' as [-> _]. done.
Qed.

End update.

Lemma BuildTree_perm_eq `{Digest} s1 s2 : s1 ≡ₚ s2 → BuildTree s1 = BuildTree s2.
Proof.
  intros Hp. pose proof (BuildTree_spec s1) as H1. pose proof (BuildTree_spec s2) as H2.
  pose proof (valid_set_perm s1 s2 Hp). pose proof (valid_set_perm s2 s1 (symmetry Hp)).
  destruct (BuildTree s1) as [t1 |], (BuildTree s2) as [t2 |]; [| tauto | tauto |].
  - f_equal. destruct H1 as (_ & ? & ? & Hn1 & Hl1), H2 as (_ & ? & ? & Hn2 & Hl2).
    apply tree_unique; try done; [congruence |]. intros p fi. by rewrite Hl1, Hl2, Hp.
  - by destruct H1 as [-> _], H2 as [-> _].
Qed.

Lemma Lookup_leaf_at t path :
  path ≠ [] → Lookup (Some t) path = leaf_at t (split_on slash_c path).
Proof. intros Hp. destruct path; [done |]. unfold Lookup, leaf_at. by destruct (walk t _). Qed.

Lemma Lookup_spec `{Digest} set t path fi :
  BuildTree set = Ok t → Lookup (Some t) path = Some fi ↔ fi ∈ set ∧ Path fi = path.
Proof.
  intros Hb. pose proof (BuildTree_spec set) as Hs. rewrite Hb in Hs. destruct Hs as ([Hok _] & _ & _ & _ & Hl).
  rewrite Forall_forall in Hok. destruct (decide (path = [])) as [-> | Hne].
  - split; [done |]. intros [Hin Hp]. by destruct (Hok fi Hin) as [? _].
  - rewrite Lookup_leaf_at, Hl by done. split; intros [Hin Heq]; (split; [done |]).
    + by apply (split_on_inj slash_c).
    + unfold comps_of. by rewrite Heq.
Qed.

(** * Properties *)

(** BuildTree succeeds exactly on the sets that form a tree (every path has
    non-empty components of at most 65535 bytes, no two records share a path, and
    no record sits at a directory another record needs) and fails with the
    conflict error otherwise; on success Lookup finds exactly the records of the
    set at their paths. *)
Theorem BuildTree_correct `{Digest} set :
  match BuildTree set with
  | Ok t => valid_set set ∧ wf_tree t ∧
            ∀ path fi, Lookup (Some t) path = Some fi ↔ fi ∈ set ∧ Path fi = path
  | Err e => e = ErrTreeConflict ∧ ¬ valid_set set
  end.
Proof.
  pose proof (BuildTree_spec set) as Hs. destruct (BuildTree set) as [t |] eqn:Hb; [| done].
  destruct Hs as (? & ? & _). split_and!; try done. intros path fi. by apply Lookup_spec.
Qed.

(** the tree, hence the root hash, does not depend on the order of the
    records: permuted sets give the same result, error included. *)
Theorem BuildTree_order_independent `{Digest} s1 s2 : s1 ≡ₚ s2 → BuildTree s1 = BuildTree s2.
Proof. apply BuildTree_perm_eq. Qed.

Definition file_at (path : bytes) (vv : VersionVector) : FileInfo :=
  mkFileInfo path zero32 0 420 0 vv false TypeFile.

Section order_witness.
#[local] Existing Instance toy_digest.
Lemma BuildTree_order_independent_witness :
  BuildTree [file_at (go! "b") []; file_at (go! "a/x") []] = BuildTree [file_at (go! "a/x") []; file_at (go! "b") []].
Proof. apply BuildTree_order_independent. apply Permutation_swap. Defined.
End order_witness.

(** the incremental update is a full rebuild: on a tree built from a set,
    Update with a record gives exactly what BuildTree gives on the set with that
    record in place of the one at its path, every cached hash and every error
    included. *)
Theorem Update_is_rebuild `{Digest} set t fi :
  BuildTree set = Ok t → Update (Some t) fi = BuildTree (upsert fi set).
Proof. apply Update_rebuild. Qed.

Section update_witness.
#[local] Existing Instance toy_digest.
Lemma Update_is_rebuild_witness :
  let set := [file_at (go! "a/x") []; file_at (go! "b") []] in
  ∃ t, BuildTree set = Ok t ∧ Update (Some t) (file_at (go! "a/y") []) = BuildTree (upsert (file_at (go! "a/y") []) set).
Proof.
  intros set. destruct (BuildTree set) as [t |] eqn:Hb.
  - exists t. split; [reflexivity |]. exact (Update_is_rebuild set t _ Hb).
  - exfalso. vm_compute in Hb. discriminate.
Defined.
End update_witness.
