(* ===== verification/Oracle.v ===== *)
(** * Oracle: what the structural hash commits to

    The root hash is the convergence oracle of the engine. SHA-256 is not
    injective, so the statements name the byte strings hashed in the two trees
    ([preimages], a finite list) and assume no collision among those. *)
From S2P Require Import Prelude Bytes VersionVector Messages Windows Pathnorm Hashing FileInfo Tree.

(** Every byte string hashed at or below a node. *)
Fixpoint preimages (n : Node) : list bytes :=
  match n with
  | LeafNode _ fi _ => [leafPrefix :: leafEncoding fi]
  | DirNode _ ch _ => (nodePrefix :: nodeEncoding (child_entries ch)) :: map_fold (λ _ c acc, preimages c ++ acc) [] ch
  end.

Definition collision_free `{Digest} (l : list bytes) : Prop :=
  ∀ x y, x ∈ l → y ∈ l → sum256 x = sum256 y → x = y.
#[export] Instance collision_free_dec `{Digest} l : Decision (collision_free l).
Proof.
  destruct (decide (Forall (λ x, Forall (λ y, sum256 x = sum256 y → x = y) l) l)) as [Hd | Hd].
  - left. intros x y Hx Hy. rewrite Forall_forall in Hd. specialize (Hd x Hx). rewrite Forall_forall in Hd. auto.
  - right. intros Hc. apply Hd. rewrite Forall_forall. intros x Hx. rewrite Forall_forall. auto.
Defined.

Lemma preimages_child nm ch h k c : ch !! k = Some c → preimages c ⊆ preimages (DirNode nm ch h).
Proof.
  intros Hc. cbn [preimages].
  cut (preimages c ⊆ map_fold (λ _ c acc, preimages c ++ acc) [] ch); [set_solver |].
  revert k c Hc. apply (map_fold_weak_ind (λ acc m, ∀ k c, m !! k = Some c → preimages c ⊆ acc)).
  - intros k c Hc. by rewrite lookup_empty in Hc.
  - intros k0 x m acc Hk0 IH k c. destruct (decide (k0 = k)) as [-> | Hne].
    + rewrite lookup_insert_eq. intros [= ->]. set_solver.
    + rewrite lookup_insert_ne by done. intros Hc. specialize (IH _ _ Hc). set_solver.
Qed.

Lemma preimages_dir nm ch h : nodePrefix :: nodeEncoding (child_entries ch) ∈ preimages (DirNode nm ch h).
Proof. apply list_elem_of_here. Qed.

Lemma collision_free_mono `{Digest} l1 l2 : l1 ⊆ l2 → collision_free l2 → collision_free l1.
Proof. intros Hs Hc x y Hx Hy. apply Hc; by apply Hs. Qed.

(** ** The child list of a directory *)

Lemma elem_of_sorted_names ch k : k ∈ sorted_names ch ↔ is_Some (ch !! k).
Proof.
  unfold sorted_names. rewrite merge_sort_Permutation, list_elem_of_fmap. split.
  - intros ([k' c] & -> & Hin). apply elem_of_map_to_list in Hin. simpl. eauto.
  - intros [c Hc]. exists (k, c). split; [done |]. by apply elem_of_map_to_list.
Qed.

Lemma NoDup_sorted_names ch : NoDup (sorted_names ch).
Proof. unfold sorted_names. rewrite merge_sort_Permutation. apply NoDup_fst_map_to_list. Qed.

Lemma sorted_names_ext ch1 ch2 :
  (∀ k, is_Some (ch1 !! k) ↔ is_Some (ch2 !! k)) → sorted_names ch1 = sorted_names ch2.
Proof.
  intros Hd. apply (StronglySorted_unique bytes_le).
  - apply StronglySorted_merge_sort; apply _.
  - apply StronglySorted_merge_sort; apply _.
  - apply NoDup_Permutation; [apply NoDup_sorted_names.. |].
    intros k. by rewrite !elem_of_sorted_names.
Qed.

Lemma elem_of_child_entries ch e :
  e ∈ child_entries ch ↔ ∃ c, ch !! ce_name e = Some c ∧ ce_hash e = node_hash c.
Proof.
  unfold child_entries. rewrite list_elem_of_fmap. split.
  - intros (k & -> & Hk). apply elem_of_sorted_names in Hk as [c Hc]. exists c. simpl. by rewrite Hc.
  - intros (c & Hc & Hh). exists (ce_name e). split; [| apply elem_of_sorted_names; eauto].
    rewrite Hc. destruct e; simpl in *. by subst.
Qed.

(** Two directories have the same child list iff their children agree by name and hash. *)
Lemma child_entries_ext ch1 ch2 :
  child_entries ch1 = child_entries ch2 ↔ ∀ k, node_hash <$> ch1 !! k = node_hash <$> ch2 !! k.
Proof.
  split.
  - intros He. assert (∀ cha chb, child_entries cha = child_entries chb → ∀ k c, cha !! k = Some c →
      node_hash <$> chb !! k = Some (node_hash c)) as Hhalf.
    { intros cha chb Heq k c Hc.
      assert (mkChildEntry k (node_hash c) ∈ child_entries cha) as Hin by (apply elem_of_child_entries; eauto).
      rewrite Heq in Hin. apply elem_of_child_entries in Hin as (c' & Hc' & Hh). simpl in *. rewrite Hc'. simpl. congruence. }
    intros k. destruct (ch1 !! k) as [c1 |] eqn:H1; simpl; [by rewrite (Hhalf ch1 ch2 He k c1 H1) |].
    destruct (ch2 !! k) as [c2 |] eqn:H2; [| done].
    pose proof (Hhalf ch2 ch1 (eq_sym He) k c2 H2) as Hh. by rewrite H1 in Hh.
  - intros Hk. unfold child_entries. rewrite (sorted_names_ext ch1 ch2).
    + apply list_fmap_ext. intros i k _. specialize (Hk k).
      destruct (ch1 !! k), (ch2 !! k); simpl in Hk; congruence.
    + intros k. specialize (Hk k). destruct (ch1 !! k), (ch2 !! k); simpl in Hk; done || (split; intros; eauto).
Qed.

Section oracle.
Context `{Digest}.

Definition leaves_width (n : Node) : Prop := ∀ p fi, leaf_at n p = Some fi → fi_width fi.

Lemma leaves_width_child n k c : leaves_width n → child n k = Some c → leaves_width c.
Proof. intros Hn Hc p fi Hp. apply (Hn (k :: p)). by rewrite leaf_at_cons, Hc. Qed.

Lemma node_hash_len n : wf_tree n → hash_len (node_hash n).
Proof. intros [nm fi | nm ch _ _]; apply sum256_length. Qed.

Lemma child_entries_ok n nm ch h : n = DirNode nm ch h → wf_tree n → Forall child_ok (child_entries ch).
Proof.
  intros -> Hwf. rewrite Forall_forall. intros e He. apply elem_of_child_entries in He as (c & Hc & Hh).
  destruct (wf_child _ _ _ _ _ Hwf Hc) as (Hcwf & _ & (_ & Hlen & _) & _).
  split; [done |]. rewrite Hh. by apply node_hash_len.
Qed.

(** Equal hashes, with no collision among the strings hashed: the same kind of
    node with, at every path, the same structural fields. *)
Lemma hash_leaves n1 n2 :
  wf_tree n1 → wf_tree n2 → leaves_width n1 → leaves_width n2 →
  collision_free (preimages n1 ++ preimages n2) → node_hash n1 = node_hash n2 →
  isDir n1 = isDir n2 ∧ ∀ p, skey <$> leaf_at n1 p = skey <$> leaf_at n2 p.
Proof.
  intros H1. revert n2. induction H1 as [nm1 fi1 | nm1 ch1 Hwf1 IH Hk1]; intros n2 H2 Hw1 Hw2 Hcf Hh;
    assert (H2' := H2); destruct H2' as [nm2 fi2 | nm2 ch2 Hwf2 Hk2]; cbn [node_hash] in Hh.
  - apply Hcf in Hh; [| set_solver..]. injection Hh as Hh. split; [done |]. intros p.
    apply leafEncoding_inj in Hh; [| by apply (Hw1 [] fi1) | by apply (Hw2 [] fi2)].
    rewrite !leaf_at_leaf. case_decide; [| done]. simpl. by rewrite Hh.
  - apply Hcf in Hh; [discriminate | set_solver..].
  - apply Hcf in Hh; [discriminate | set_solver..].
  - split; [done |]. apply Hcf in Hh; [| set_solver..]. apply (f_equal tail) in Hh. cbn [tail] in Hh.
    assert (wf_tree (DirNode nm1 ch1 (hashFromChildren ch1))) as H1w by (by constructor).
    apply nodeEncoding_inj in Hh; [| eapply child_entries_ok; done..].
    pose proof (proj1 (child_entries_ext ch1 ch2) Hh) as Hch.
    intros [|k p]; [done |]. rewrite !leaf_at_cons. simpl. specialize (Hch k).
    destruct (ch1 !! k) as [c1 |] eqn:Hc1, (ch2 !! k) as [c2 |] eqn:Hc2; simpl in Hch; try done.
    simpl. refine (proj2 (IH k c1 Hc1 c2 _ _ _ _ _) p).
    + eauto.
    + by eapply (leaves_width_child (DirNode nm1 ch1 _)).
    + by eapply (leaves_width_child (DirNode nm2 ch2 _)).
    + eapply collision_free_mono; [| done].
      pose proof (preimages_child nm1 ch1 (hashFromChildren ch1) k c1 Hc1).
      pose proof (preimages_child nm2 ch2 (hashFromChildren ch2) k c2 Hc2). set_solver.
    + congruence.
Qed.

(** Conversely, and with no assumption, the structural fields determine the hash. *)
Lemma leaves_hash n1 n2 :
  wf_tree n1 → wf_tree n2 → nonempty n1 ∨ isDir n1 = isDir n2 →
  (∀ p, skey <$> leaf_at n1 p = skey <$> leaf_at n2 p) → node_hash n1 = node_hash n2.
Proof.
  intros H1. revert n2. induction H1 as [nm1 fi1 | nm1 ch1 Hwf1 IH Hk1]; intros n2 H2 Hd Hl.
  - destruct H2 as [nm2 fi2 |]; specialize (Hl []); cbn in Hl; [| done].
    injection Hl as Hl. cbn [node_hash]. unfold leafHash. by rewrite (leafEncoding_skey _ fi2) by (unfold skey; congruence).
  - destruct H2 as [nm2 fi2 | nm2 ch2 Hwf2 Hk2].
    { destruct Hd as [Hne | Hd]; [| done].
      destruct (wf_has_leaf leafHash hashFromChildren (DirNode nm1 ch1 (hashFromChildren ch1)) ltac:(by constructor) Hne)
        as ([|k p] & fi & Hp); [done |]. specialize (Hl (k :: p)). by rewrite Hp in Hl. }
    cbn [node_hash]. unfold hashFromChildren. f_equal. apply child_entries_ext. intros k.
    assert (∀ p, skey <$> (ch1 !! k ≫= λ c, leaf_at c p) = skey <$> (ch2 !! k ≫= λ c, leaf_at c p)) as Hlk.
    { intros p. specialize (Hl (k :: p)). by rewrite !leaf_at_cons in Hl. }
    destruct (ch1 !! k) as [c1 |] eqn:Hc1, (ch2 !! k) as [c2 |] eqn:Hc2; [| | | done].
    + simpl. f_equal. destruct (Hk1 _ _ Hc1) as (_ & _ & ?). apply (IH k c1 Hc1 c2); eauto.
    + exfalso. destruct (Hk1 _ _ Hc1) as (_ & _ & Hne).
      destruct (wf_has_leaf _ _ c1 (Hwf1 _ _ Hc1) Hne) as (p & fi & Hp).
      specialize (Hlk p). simpl in Hlk. by rewrite Hp in Hlk.
    + exfalso. destruct (Hk2 _ _ Hc2) as (_ & _ & Hne).
      destruct (wf_has_leaf _ _ c2 (Hwf2 _ _ Hc2) Hne) as (p & fi & Hp).
      specialize (Hlk p). simpl in Hlk. by rewrite Hp in Hlk.
Qed.

Lemma BuildTree_leaves_width set t : BuildTree set = Ok t → Forall fi_width set → leaves_width t.
Proof.
  intros Hb Hw p fi Hp. pose proof (BuildTree_spec set) as Hs. rewrite Hb in Hs.
  destruct Hs as (_ & _ & _ & _ & Hl). apply Hl in Hp as [Hin _]. rewrite Forall_forall in Hw. auto.
Qed.

End oracle.

(** What a set of records says structurally of a path. *)
Definition structure_at (set : list FileInfo) (path : bytes) : option (bytes * Z * bool * VersionVector) :=
  skey ∘ snd <$> list_find (λ fi, Path fi = path) set.

Lemma structure_at_Lookup `{Digest} set t path :
  BuildTree set = Ok t → structure_at set path = skey <$> Lookup (Some t) path.
Proof.
  intros Hb. pose proof (λ fi, Lookup_spec set t path fi Hb) as Hs. unfold structure_at.
  destruct (list_find _ set) as [[i fi] |] eqn:Hf; simpl.
  - apply list_find_Some in Hf as (Hi & Hp & _). apply list_elem_of_lookup_2 in Hi.
    by rewrite (proj2 (Hs fi) (conj Hi Hp)).
  - apply list_find_None in Hf. rewrite Forall_forall in Hf.
    destruct (Lookup (Some t) path) as [fi |] eqn:Hl; [| done]. destruct (proj1 (Hs fi) eq_refl) as [Hin Hp]. by destruct (Hf fi Hin).
Qed.

(** Structural agreement by path or by component list is the same thing. *)
Lemma structure_leaf_at `{Digest} set1 set2 t1 t2 :
  BuildTree set1 = Ok t1 → BuildTree set2 = Ok t2 →
  (∀ path, structure_at set1 path = structure_at set2 path) ↔
  (∀ p, skey <$> leaf_at t1 p = skey <$> leaf_at t2 p).
Proof.
  intros Hb1 Hb2. setoid_rewrite (structure_at_Lookup set1 t1); [| done].
  setoid_rewrite (structure_at_Lookup set2 t2); [| done]. split; intros Hs.
  - assert (∀ s t p fi, BuildTree s = Ok t → leaf_at t p = Some fi → ∃ path, path ≠ [] ∧ p = split_on slash_c path) as Hpath.
    { intros s t p fi Hb Hp. pose proof (BuildTree_spec s) as Hsp. rewrite Hb in Hsp.
      destruct Hsp as ([Hok _] & _ & _ & _ & Hl). apply Hl in Hp as [Hin <-].
      rewrite Forall_forall in Hok. exists (Path fi). split; [apply (Hok fi Hin) | done]. }
    intros p. destruct (leaf_at t1 p) as [f1 |] eqn:H1.
    + destruct (Hpath set1 t1 p f1 Hb1 H1) as (path & Hne & ->).
      rewrite <- H1, <- !Lookup_leaf_at by done. apply Hs.
    + destruct (leaf_at t2 p) as [f2 |] eqn:H2; [| done].
      destruct (Hpath set2 t2 p f2 Hb2 H2) as (path & Hne & ->).
      rewrite <- H1, <- H2, <- !Lookup_leaf_at by done. apply Hs.
  - intros path. destruct (decide (path = [])) as [-> | Hne]; [done |]. rewrite !Lookup_leaf_at by done. apply Hs.
Qed.

(** * Properties *)

(** C20: the root hash is a convergence oracle: for two sets of records that build
    trees, and with no SHA-256 collision among the strings hashed in the two
    trees, the root hashes are equal exactly when the sets have the same paths
    with the same content hash, portable mode, deletion flag and version vector
    (size, raw mode bits and mtime do not enter). *)
Theorem RootHash_oracle `{Digest} set1 set2 t1 t2 :
  BuildTree set1 = Ok t1 → BuildTree set2 = Ok t2 →
  Forall fi_width set1 → Forall fi_width set2 →
  collision_free (preimages t1 ++ preimages t2) →
  RootHash (Some t1) = RootHash (Some t2) ↔ ∀ path, structure_at set1 path = structure_at set2 path.
Proof.
  intros Hb1 Hb2 Hw1 Hw2 Hcf. rewrite (structure_leaf_at set1 set2 t1 t2) by done.
  pose proof (BuildTree_spec set1) as H1. pose proof (BuildTree_spec set2) as H2. rewrite Hb1 in H1. rewrite Hb2 in H2.
  destruct H1 as (_ & Hwf1 & Hd1 & _), H2 as (_ & Hwf2 & Hd2 & _). cbn [RootHash]. split.
  - intros Hh. apply (hash_leaves t1 t2); eauto using BuildTree_leaves_width.
  - intros Hl. apply leaves_hash; try done. right. congruence.
Qed.

Definition oracle_set (size : Z) : list FileInfo :=
  [mkFileInfo (go! "a/x") zero32 size 420 7 [mkCounter 1 1] false TypeFile].

Lemma oracle_set_width size : in_width 64 size → Forall fi_width (oracle_set size).
Proof.
  intros Hs. apply Forall_cons_2; [| constructor].
  split; cbn; try reflexivity; try done; try (width; lia).
  apply Forall_cons_2; [cbn; width; lia | constructor].
Qed.

Section oracle_witness.
#[local] Existing Instance toy_digest.
Lemma RootHash_oracle_witness :
  ∃ t1 t2, BuildTree (oracle_set 5) = Ok t1 ∧ BuildTree (oracle_set 6) = Ok t2 ∧
  (RootHash (Some t1) = RootHash (Some t2) ↔ ∀ path, structure_at (oracle_set 5) path = structure_at (oracle_set 6) path).
Proof.
  eexists _, _. split; [vm_compute; reflexivity |]. split; [vm_compute; reflexivity |].
  refine (RootHash_oracle (oracle_set 5) (oracle_set 6) _ _ _ _ _ _ _).
  - vm_compute. reflexivity.
  - vm_compute. reflexivity.
  - apply oracle_set_width. width. lia.
  - apply oracle_set_width. width. lia.
  - apply (bool_decide_unpack _). vm_compute. exact I.
Defined.
End oracle_witness.
