(* ===== verification/Differ.v ===== *)
(** * Differ: the pruned tree walk (internal/merkle/differ.go)

    [diffNodes] runs on fuel, since it descends two trees at once; the height of
    the trees is enough ([Diff] starts with it) and [diffNodes_spec] states the
    result for every sufficient fuel. *)
From S2P Require Import Prelude Bytes VersionVector Messages Windows Pathnorm Hashing FileInfo Tree.
From S2P Require Import Oracle.

Record DiffEntry := mkDiffEntry {
  d_Path : bytes;
  Local : option FileInfo;
  Remote : option FileInfo;
  LocalDir : bool;
  RemoteDir : bool
}.

Definition IsTypeClash (e : DiffEntry) : bool := LocalDir e || RemoteDir e.

(** The children a pointer's node has; none for nil and for a leaf. *)
Definition kids (n : option Node) : gmap bytes Node :=
  match n with Some (DirNode _ ch _) => ch | _ => ∅ end.

Definition unionChildren (l r : option Node) : list bytes := sorted_names (kids l ∪ kids r).

Definition emit (path : bytes) (l r : option Node) : DiffEntry :=
  mkDiffEntry path (l ≫= node_leaf) (r ≫= node_leaf) false false.

Definition child_path (path name : bytes) : bytes :=
  match path with [] => name | _ => path ++ [slash_c] ++ name end.

Definition is_nil {A} (o : option A) : bool := match o with None => true | Some _ => false end.
Definition hash_equal (l r : option Node) : bool :=
  match l, r with Some a, Some b => bool_decide (node_hash a = node_hash b) | _, _ => false end.

(** The entries appended to [out] and the number of comparisons made. *)
Fixpoint diffNodes (fuel : nat) (path : bytes) (l r : option Node) : list DiffEntry * nat :=
  match fuel with
  | O => ([], 0%nat)
  | S fuel' =>
    if is_nil l && is_nil r then ([], 1%nat)
    else if hash_equal l r then ([], 1%nat)
    else
      let lLeaf := negb (is_nil (l ≫= node_leaf)) in
      let rLeaf := negb (is_nil (r ≫= node_leaf)) in
      let lDir := match l with Some n => isDir n | None => false end in
      let rDir := match r with Some n => isDir n | None => false end in
      if (is_nil l || lLeaf) && (is_nil r || rLeaf) then ([emit path l r], 1%nat)
      else if (lLeaf && rDir) || (rLeaf && lDir) then
        ([if lLeaf then mkDiffEntry path (l ≫= node_leaf) None false true
          else mkDiffEntry path None (r ≫= node_leaf) true false], 1%nat)
      else
        let rs := (λ name, diffNodes fuel' (child_path path name) (kids l !! name) (kids r !! name))
                    <$> unionChildren l r in
        (concat rs.*1, S (sum_list rs.*2))
  end.

Fixpoint height (n : Node) : nat :=
  match n with
  | LeafNode _ _ _ => 0%nat
  | DirNode _ ch _ => S (map_fold (λ _ c acc, height c `max` acc)%nat 0%nat ch)
  end.
Definition oheight (n : option Node) : nat := match n with Some n => S (height n) | None => 0%nat end.

Definition diffCounted (local remote : option Node) : list DiffEntry * nat :=
  diffNodes (S (oheight local `max` oheight remote)) [] local remote.
Definition Diff (local remote : option Node) : list DiffEntry := (diffCounted local remote).1.

(** ** The entry of a path, and the walk below nil pointers *)

Definition is_dir_at (n : option Node) : bool := match n with Some n => isDir n | None => false end.
Definition entry_at (path : bytes) (l r : option Node) : DiffEntry :=
  mkDiffEntry path (l ≫= node_leaf) (r ≫= node_leaf) (is_dir_at l) (is_dir_at r).

Definition owalk (n : option Node) (p : list bytes) : option Node := n ≫= λ n, walk n p.
Definition oleaf (n : option Node) (p : list bytes) : option FileInfo := n ≫= λ n, leaf_at n p.
Definition opre (n : option Node) : list bytes := match n with Some n => preimages n | None => [] end.

Lemma kids_child n k : kids (Some n) !! k = child n k.
Proof. by destruct n. Qed.

Lemma owalk_cons n k p : owalk n (k :: p) = owalk (kids n !! k) p.
Proof.
  destruct n as [n |]; simpl; [| by rewrite lookup_empty].
  destruct n as [|nm ch h]; cbn [kids]; simpl; [by rewrite lookup_empty |]. by destruct (ch !! k).
Qed.

Lemma oleaf_cons n k p : oleaf n (k :: p) = oleaf (kids n !! k) p.
Proof.
  unfold oleaf. destruct n as [n |]; simpl; [| by rewrite lookup_empty].
  rewrite leaf_at_cons. destruct n as [|nm ch h]; cbn [child kids]; simpl; [by rewrite lookup_empty |]. done.
Qed.

Lemma oleaf_walk n p : oleaf n p = owalk n p ≫= node_leaf.
Proof. by destruct n. Qed.

Lemma height_child nm ch h k c : ch !! k = Some c → (height c < height (DirNode nm ch h))%nat.
Proof.
  intros Hc. cbn [height]. cut (height c ≤ map_fold (λ _ c acc, height c `max` acc) 0 ch)%nat; [lia |].
  revert k c Hc. apply (map_fold_weak_ind (λ (acc : nat) m, ∀ k c, m !! k = Some c → (height c ≤ acc)%nat)).
  - intros k c Hc. by rewrite lookup_empty in Hc.
  - intros k0 x m acc Hk0 IH k c. destruct (decide (k0 = k)) as [-> | Hne].
    + rewrite lookup_insert_eq. intros [= ->]. lia.
    + rewrite lookup_insert_ne by done. intros Hc. specialize (IH _ _ Hc). lia.
Qed.

Lemma oheight_kid n k : (0 < oheight n)%nat → (oheight (kids n !! k) < oheight n)%nat.
Proof.
  destruct n as [n |]; [| simpl; lia]. intros _. rewrite kids_child.
  destruct (child n k) as [c |] eqn:Hc; [| simpl; lia]. destruct n as [|nm ch h]; [done |].
  pose proof (height_child nm ch h k c Hc). simpl in *. lia.
Qed.

Lemma elem_of_unionChildren l r k : k ∈ unionChildren l r ↔ is_Some (kids l !! k) ∨ is_Some (kids r !! k).
Proof.
  unfold unionChildren. rewrite elem_of_sorted_names, lookup_union.
  destruct (kids l !! k), (kids r !! k); simpl; split; intros; eauto; try naive_solver.
Qed.

(** ** Paths of components *)

Lemma join_comp_nil p : Forall comp_ok p → join_with [slash_c] p = [] → p = [].
Proof.
  intros [|k p' (Hk & _) _]; [done |]. destruct p'; simpl; [done |]. intros He. by apply app_eq_nil in He as [? _].
Qed.

Lemma child_path_join p k :
  Forall comp_ok p → child_path (join_with [slash_c] p) k = join_with [slash_c] (p ++ [k]).
Proof.
  intros Hp. destruct (decide (p = [])) as [-> | Hne]; [done |].
  rewrite join_with_app by done. unfold child_path.
  destruct (join_with [slash_c] p) eqn:Hj; [by apply join_comp_nil in Hj | done].
Qed.

Lemma Forall_comp_nonempty p k : Forall comp_ok p → comp_ok k → Forall comp_ok (p ++ [k]).
Proof. intros. apply Forall_app. split; [done | by constructor]. Qed.

Section differ.
Context `{Digest}.

Definition owf (n : option Node) : Prop := match n with Some n => wf_tree n ∧ leaves_width n | None => True end.

Lemma owf_kid n k : owf n → owf (kids n !! k).
Proof.
  destruct n as [n |]; [| cbn [kids]; by rewrite lookup_empty]. intros [Hwf Hw]. rewrite kids_child.
  destruct (child n k) as [c |] eqn:Hc; [| done]. destruct (wf_child _ _ _ _ _ Hwf Hc) as (? & _).
  split; [done |]. by eapply leaves_width_child.
Qed.

Lemma owf_key n k : owf n → is_Some (kids n !! k) → comp_ok k.
Proof.
  destruct n as [n |]; [| cbn [kids]; rewrite lookup_empty; by intros _ []]. intros [Hwf _] [c Hc].
  rewrite kids_child in Hc. by destruct (wf_child _ _ _ _ _ Hwf Hc) as (_ & _ & ? & _).
Qed.

Lemma opre_kid n k : opre (kids n !! k) ⊆ opre n.
Proof.
  destruct n as [n |]; [| cbn [kids]; rewrite lookup_empty; set_solver]. rewrite kids_child.
  destruct (child n k) as [c |] eqn:Hc; simpl; [| set_solver].
  destruct n as [|nm ch h]; [done |]. by apply (preimages_child nm ch h k).
Qed.

(** Where the two sides differ: the structural fields disagree, and no leaf
    sits above the path on either side. *)
Definition differs_at (l r : option Node) (p : list bytes) : Prop :=
  skey <$> oleaf l p ≠ skey <$> oleaf r p ∧
  ∀ q k q', p = q ++ k :: q' → oleaf l q = None ∧ oleaf r q = None.

Lemma differs_at_cons l r k p :
  differs_at l r (k :: p) ↔
    oleaf l [] = None ∧ oleaf r [] = None ∧ differs_at (kids l !! k) (kids r !! k) p.
Proof.
  unfold differs_at. rewrite !oleaf_cons. split.
  - intros [Hd Hq]. destruct (Hq [] k p eq_refl) as [? ?]. split_and!; try done.
    intros q k' q' ->. rewrite <- !oleaf_cons. by apply (Hq (k :: q) k' q').
  - intros (H1 & H2 & Hd & Hq). split; [done |]. intros [|k0 q] k' q' Heq; [done |].
    injection Heq as -> ->. rewrite !oleaf_cons. by eapply Hq.
Qed.

Lemma hash_equal_no_diff l r p :
  owf l → owf r → collision_free (opre l ++ opre r) → hash_equal l r = true → ¬ differs_at l r p.
Proof.
  destruct l as [l |], r as [r |]; try done. intros [Hl Hlw] [Hr Hrw] Hcf Hh [Hd _].
  apply bool_decide_eq_true in Hh. apply Hd. by apply hash_leaves.
Qed.

(** A leaf pair with different hashes differs structurally. *)
Lemma leaf_hash_differs a b :
  wf_tree a → wf_tree b → isDir a = false → isDir b = false → node_hash a ≠ node_hash b →
  skey <$> node_leaf a ≠ skey <$> node_leaf b.
Proof.
  intros [nm1 f1 |] [nm2 f2 |]; try done. cbn. intros _ _ Hh [= Heq]. apply Hh. unfold leafHash.
  by rewrite (leafEncoding_skey f1 f2) by (unfold skey; congruence).
Qed.

(** A node pair at which the walk emits: a leaf on one side, and the other side is
    not the same leaf. *)
Lemma stop_differs l r :
  owf l → owf r → hash_equal l r = false → is_Some (oleaf l []) ∨ is_Some (oleaf r []) →
  differs_at l r [].
Proof.
  intros Hl Hr Hh Hs. split; [| intros [|? q] k q'; done].
  destruct l as [l |], r as [r |]; cbn in *; unfold leaf_at in *; simpl in *.
  - destruct Hl as [Hl _], Hr as [Hr _]. apply bool_decide_eq_false in Hh.
    pose proof (leaf_hash_differs l r Hl Hr) as Hlh.
    destruct l, r; try done; simpl in *; [by apply Hlh | by destruct Hs as [[]|[]]].
  - destruct l; [done |]. by destruct Hs as [[]|[]].
  - destruct r; [done |]. by destruct Hs as [[]|[]].
  - by destruct Hs as [[]|[]].
Qed.

(** When a leaf stands at the top, only the top can differ. *)
Lemma stop_only l r p : is_Some (oleaf l []) ∨ is_Some (oleaf r []) → differs_at l r p → p = [].
Proof.
  intros Hs [_ Hq]. destruct p as [|k p]; [done |]. destruct (Hq [] k p eq_refl) as [H1 H2].
  rewrite H1, H2 in Hs. by destruct Hs as [[]|[]].
Qed.

Lemma diffNodes_spec fuel p0 l r :
  owf l → owf r → collision_free (opre l ++ opre r) → Forall comp_ok p0 →
  (oheight l `max` oheight r < fuel)%nat →
  ∀ e, e ∈ (diffNodes fuel (join_with [slash_c] p0) l r).1 ↔
    ∃ p, e = entry_at (join_with [slash_c] (p0 ++ p)) (owalk l p) (owalk r p) ∧ differs_at l r p.
Proof.
  revert p0 l r. induction fuel as [|fuel IH]; intros p0 l r Hl Hr Hcf Hp0 Hfuel e; [lia |].
  cbn [diffNodes]. destruct (is_nil l && is_nil r) eqn:Hnil.
  { destruct l, r; try done. simpl. split; [by intros ?%not_elem_of_nil |]. by intros (p & _ & [Hd _]). }
  destruct (hash_equal l r) eqn:Hheq.
  { simpl. split; [by intros ?%not_elem_of_nil |]. intros (p & _ & Hd).
    by apply (hash_equal_no_diff l r p) in Hd. }
  assert (∀ p, is_Some (oleaf l []) ∨ is_Some (oleaf r []) → differs_at l r p ↔ p = []) as Htop.
  { intros p Hs. split; [by apply stop_only |]. intros ->. by apply stop_differs. }
  assert (∀ en, is_Some (oleaf l []) ∨ is_Some (oleaf r []) →
    en = entry_at (join_with [slash_c] p0) l r →
    e ∈ [en] ↔ ∃ p, e = entry_at (join_with [slash_c] (p0 ++ p)) (owalk l p) (owalk r p) ∧ differs_at l r p) as Hone.
  { intros en Hs ->. rewrite list_elem_of_singleton. split.
    - intros ->. exists []. rewrite app_nil_r. split; [by destruct l, r | by apply Htop].
    - intros (p & -> & Hd). apply Htop in Hd as ->; [| done]. rewrite app_nil_r. by destruct l, r. }
  cbv zeta.
  match goal with |- context [if ?b then ([emit _ _ _], _) else _] => destruct b eqn:Hleaf end.
  { cbn [fst]. apply Hone; destruct l as [[] |], r as [[] |]; try done; unfold oleaf; simpl; eauto. }
  match goal with |- context [if ?b then ([_], _) else _] => destruct b eqn:Hclash end.
  { cbn [fst]. apply Hone; destruct l as [[] |], r as [[] |]; try done; unfold oleaf; simpl; eauto. }
  assert (oleaf l [] = None ∧ oleaf r [] = None) as [Hll Hrl].
  { destruct l as [[] |], r as [[] |]; try done. }
  cbn [fst]. rewrite <- list_fmap_compose. rewrite list_elem_of_In, in_concat.
  assert (∀ k, comp_ok k → ∀ e,
    e ∈ (diffNodes fuel (child_path (join_with [slash_c] p0) k) (kids l !! k) (kids r !! k)).1 ↔
    ∃ p, e = entry_at (join_with [slash_c] (p0 ++ k :: p)) (owalk l (k :: p)) (owalk r (k :: p)) ∧
         differs_at l r (k :: p)) as Hkid.
  { intros k Hk e'. rewrite child_path_join by done. rewrite IH; [| by apply owf_kid | by apply owf_kid | | by apply Forall_comp_nonempty |].
    - split; intros (p & -> & Hd); exists p; rewrite differs_at_cons, !owalk_cons, <- app_assoc in *.
      + by split_and!.
      + by destruct Hd as (_ & _ & Hd).
    - eapply collision_free_mono; [| done]. pose proof (opre_kid l k). pose proof (opre_kid r k). set_solver.
    - assert (0 < oheight l `max` oheight r)%nat by (destruct l as [[] |], r as [[] |]; simpl in *; try done; lia).
      destruct l as [l |], r as [r |]; try done;
        repeat match goal with |- context [kids (Some ?n) !! k] => pose proof (oheight_kid (Some n) k ltac:(simpl; lia)); generalize dependent (oheight (kids (Some n) !! k)); intros end;
        cbn [kids] in *; rewrite ?lookup_empty; simpl in *; lia. }
  split.
  - intros (es & Hes & He). apply list_elem_of_In, list_elem_of_fmap in Hes as (k & -> & Hk).
    apply list_elem_of_In in He. apply elem_of_unionChildren in Hk.
    assert (comp_ok k) as Hck by (destruct Hk; [by apply (owf_key l) | by apply (owf_key r)]).
    apply Hkid in He as (p & -> & Hd); [| done]. eauto.
  - intros (p & -> & Hd). destruct p as [|k p].
    { destruct Hd as [Hd _]. by rewrite Hll, Hrl in Hd. }
    assert (is_Some (kids l !! k) ∨ is_Some (kids r !! k)) as Hk.
    { destruct Hd as [Hd _]. rewrite !oleaf_cons in Hd.
      destruct (kids l !! k) eqn:H1, (kids r !! k) eqn:H2; eauto. by destruct Hd. }
    assert (comp_ok k) as Hck by (destruct Hk; [by apply (owf_key l) | by apply (owf_key r)]).
    eexists. split; [apply list_elem_of_In, list_elem_of_fmap; exists k; split; [reflexivity | by apply elem_of_unionChildren] |].
    apply list_elem_of_In. cbn [compose]. apply Hkid; [done |]. eauto.
Qed.


Lemma built_owf set t : BuildTree set = Ok t → Forall fi_width set → owf (Some t).
Proof.
  intros Hb Hw. split; [| by apply (BuildTree_leaves_width set)].
  pose proof (BuildTree_spec set) as Hs. rewrite Hb in Hs. by destruct Hs as (_ & ? & _).
Qed.

Lemma Diff_spec l r :
  owf (Some l) → owf (Some r) → collision_free (preimages l ++ preimages r) →
  ∀ e, e ∈ Diff (Some l) (Some r) ↔
    ∃ p, e = entry_at (join_with [slash_c] p) (walk l p) (walk r p) ∧ differs_at (Some l) (Some r) p.
Proof.
  intros Hl Hr Hcf e. unfold Diff, diffCounted.
  apply (diffNodes_spec _ [] (Some l) (Some r)); try done. lia.
Qed.

Lemma diffNodes_equal fuel path l r :
  hash_equal l r = true → diffNodes (S fuel) path l r = ([], 1%nat).
Proof. intros Hh. cbn [diffNodes]. rewrite Hh. by destruct (is_nil l && is_nil r). Qed.

(** A structural difference anywhere is a difference at it or at a leaf above it. *)
Lemma differs_somewhere l r p :
  skey <$> oleaf l p ≠ skey <$> oleaf r p → ∃ q, differs_at l r q.
Proof.
  revert l r. induction p as [|k p IH]; intros l r Hd.
  - exists []. split; [done |]. by intros [|? ?] k q'.
  - destruct (decide (oleaf l [] = None ∧ oleaf r [] = None)) as [[H1 H2] | Hn].
    + rewrite !oleaf_cons in Hd. destruct (IH _ _ Hd) as [q Hq]. exists (k :: q). by apply differs_at_cons.
    + exists []. split; [| by intros [|? ?] k' q']. rewrite !oleaf_cons in Hd.
      destruct l as [[] |], r as [[] |]; cbn in *; rewrite ?lookup_empty in Hd; try done;
        try (exfalso; apply Hn; done).
Qed.

Lemma Diff_nil_iff l r :
  owf (Some l) → owf (Some r) → isDir l = isDir r → collision_free (preimages l ++ preimages r) →
  Diff (Some l) (Some r) = [] ↔ node_hash l = node_hash r.
Proof.
  intros Hl Hr Hd Hcf. split.
  - intros He. apply leaves_hash; [apply Hl | apply Hr | by right |]. intros p.
    destruct (decide (skey <$> leaf_at l p = skey <$> leaf_at r p)) as [? | Hne]; [done | exfalso].
    destruct (differs_somewhere (Some l) (Some r) p Hne) as [q Hq].
    apply (not_elem_of_nil (entry_at (join_with [slash_c] q) (walk l q) (walk r q))). rewrite <- He.
    apply Diff_spec; eauto.
  - intros Hh. unfold Diff, diffCounted. rewrite diffNodes_equal; [done |]. by apply bool_decide_eq_true.
Qed.

(** With no assumption on the hash, an entry carries the leaves of one position of
    the two trees. *)
Lemma diffNodes_sound fuel path l r d :
  d ∈ (diffNodes fuel path l r).1 → ∃ p, Local d = oleaf l p ∧ Remote d = oleaf r p.
Proof.
  revert path l r. induction fuel as [|fuel IH]; intros path l r; cbn [diffNodes]; [by intros ?%not_elem_of_nil |].
  destruct (is_nil l && is_nil r); [by intros ?%not_elem_of_nil |].
  destruct (hash_equal l r); [by intros ?%not_elem_of_nil |]. cbv zeta.
  match goal with |- context [if ?b then ([emit _ _ _], _) else _] => destruct b end.
  { cbn [fst]. intros ->%list_elem_of_singleton. exists []. by destruct l, r. }
  match goal with |- context [if ?b then ([_], _) else _] => destruct b eqn:Hclash end.
  { cbn [fst]. intros ->%list_elem_of_singleton. exists []. by destruct l as [[] |], r as [[] |]. }
  cbn [fst]. rewrite <- list_fmap_compose, list_elem_of_In, in_concat.
  intros (es & (k & -> & Hk)%list_elem_of_In%list_elem_of_fmap & Hd%list_elem_of_In).
  apply IH in Hd as (p & Hl & Hr). exists (k :: p). by rewrite !oleaf_cons.
Qed.

Lemma Diff_sound l r d : d ∈ Diff (Some l) (Some r) → ∃ p, Local d = leaf_at l p ∧ Remote d = leaf_at r p.
Proof. apply diffNodes_sound. Qed.

End differ.

(** * Properties *)

Section properties.
#[local] Existing Instance toy_digest.

(** C19: Diff is exact: for two trees built from sets of records, and with no
    SHA-256 collision among the strings hashed in them, the entries are exactly
    the paths whose structural fields (content hash, portable mode, deletion,
    version vector) differ and above which neither side has a file; each entry
    carries the two leaves found there and flags a directory on either side, so
    a missing leaf without a flag is a true absence. *)
Theorem Diff_exact `{Digest} set1 set2 l r e :
  BuildTree set1 = Ok l → BuildTree set2 = Ok r → Forall fi_width set1 → Forall fi_width set2 →
  collision_free (preimages l ++ preimages r) →
  e ∈ Diff (Some l) (Some r) ↔
    ∃ p, e = entry_at (join_with [slash_c] p) (walk l p) (walk r p) ∧
         skey <$> leaf_at l p ≠ skey <$> leaf_at r p ∧
         ∀ q k q', p = q ++ k :: q' → leaf_at l q = None ∧ leaf_at r q = None.
Proof. intros H1 H2 Hw1 Hw2 Hcf. apply Diff_spec; eauto using built_owf. Qed.

Lemma Diff_exact_witness :
  let s1 := [file_at (go! "a/x") [mkCounter 1 1]; file_at (go! "b") []] in
  let s2 := [file_at (go! "a") []; file_at (go! "b") []] in
  ∃ l r, BuildTree s1 = Ok l ∧ BuildTree s2 = Ok r ∧
    Diff (Some l) (Some r) = [mkDiffEntry (go! "a") None (Some (file_at (go! "a") [])) true false] ∧
    ∀ e, e ∈ Diff (Some l) (Some r) ↔
      ∃ p, e = entry_at (join_with [slash_c] p) (walk l p) (walk r p) ∧
         skey <$> leaf_at l p ≠ skey <$> leaf_at r p ∧
         ∀ q k q', p = q ++ k :: q' → leaf_at l q = None ∧ leaf_at r q = None.
Proof.
  intros s1 s2. eexists _, _. split; [vm_compute; reflexivity |]. split; [vm_compute; reflexivity |].
  split; [vm_compute; reflexivity |]. intros e. refine (Diff_exact s1 s2 _ _ e _ _ _ _ _).
  - vm_compute. reflexivity.
  - vm_compute. reflexivity.
  - apply (bool_decide_unpack _). vm_compute. exact I.
  - apply (bool_decide_unpack _). vm_compute. exact I.
  - apply (bool_decide_unpack _). vm_compute. exact I.
Defined.

(** the pruning is sound and complete: equal root hashes stop the walk at its
    first comparison with no entry, and with no SHA-256 collision among the
    strings hashed, an empty diff means equal root hashes, so "nothing to do" and
    "converged" are the same verdict. *)
Theorem Diff_empty_iff_converged `{Digest} set1 set2 l r :
  BuildTree set1 = Ok l → BuildTree set2 = Ok r → Forall fi_width set1 → Forall fi_width set2 →
  collision_free (preimages l ++ preimages r) →
  (RootHash (Some l) = RootHash (Some r) → diffCounted (Some l) (Some r) = ([], 1%nat)) ∧
  (Diff (Some l) (Some r) = [] ↔ RootHash (Some l) = RootHash (Some r)).
Proof.
  intros H1 H2 Hw1 Hw2 Hcf. cbn [RootHash]. split.
  - intros Hh. apply diffNodes_equal. by apply bool_decide_eq_true.
  - apply Diff_nil_iff; eauto using built_owf.
    pose proof (BuildTree_spec set1) as Hs1. pose proof (BuildTree_spec set2) as Hs2.
    rewrite H1 in Hs1. rewrite H2 in Hs2. destruct Hs1 as (_ & _ & -> & _), Hs2 as (_ & _ & -> & _). done.
Qed.

Lemma Diff_empty_iff_converged_witness :
  ∃ l r, BuildTree (oracle_set 5) = Ok l ∧ BuildTree (oracle_set 6) = Ok r ∧
    (RootHash (Some l) = RootHash (Some r) → diffCounted (Some l) (Some r) = ([], 1%nat)) ∧
    (Diff (Some l) (Some r) = [] ↔ RootHash (Some l) = RootHash (Some r)).
Proof.
  eexists _, _. split; [vm_compute; reflexivity |]. split; [vm_compute; reflexivity |].
  refine (Diff_empty_iff_converged (oracle_set 5) (oracle_set 6) _ _ _ _ _ _ _).
  - vm_compute. reflexivity.
  - vm_compute. reflexivity.
  - apply oracle_set_width. width. lia.
  - apply oracle_set_width. width. lia.
  - apply (bool_decide_unpack _). vm_compute. exact I.
Defined.

End properties.
