(* ===== verification/Conflict.v ===== *)
(** * Conflict: the winner of a conflict and the resolver's verdict
    (internal/reconcile/conflict.go, apply.go)

    Everything here is a pure function of the two leaves, so that both peers
    compute the same answer; the theorems say that they do. *)
From S2P Require Import Prelude Bytes VersionVector Messages Windows Pathnorm Hashing FileInfo.

(** ** conflict.go *)

(** The loop of [authorOf]: the largest id at which [a] exceeds [b]. *)
Fixpoint author_loop (a b : VersionVector) (best : Z) (found : bool) : Z * bool :=
  match a with
  | [] => (best, found)
  | c :: a' =>
    if Get b (ID c) <? Value c then
      if negb found || (best <? ID c) then author_loop a' b (ID c) true
      else author_loop a' b best found
    else author_loop a' b best found
  end.
Definition authorOf (a b : FileInfo) : Z * bool := author_loop (Version a) (Version b) 0 false.

Definition aWins (a b : FileInfo) : bool :=
  if negb (ModTimeNS a =? ModTimeNS b) then ModTimeNS b <? ModTimeNS a
  else
    let '(authA, okA) := authorOf a b in
    let '(authB, okB) := authorOf b a in
    if okA && okB && negb (authA =? authB) then authA <? authB
    else bytes_ltb (ContentHash a) (ContentHash b).

Definition winner (a b : FileInfo) : FileInfo := if aWins a b then a else b.
Definition loserOf (a b : FileInfo) : FileInfo := if aWins a b then b else a.

(** *** Package time: [time.Unix(0, ns).UTC().Truncate(time.Second)] *)

(** Days since 1970-01-01 to year, month, day in the proleptic Gregorian calendar. *)
Definition civil_from_days (days : Z) : Z * Z * Z :=
  let z := days + 719468 in
  let era := z / 146097 in
  let doe := z - era * 146097 in
  let yoe := (doe - doe / 1460 + doe / 36524 - doe / 146096) / 365 in
  let doy := doe - (365 * yoe + yoe / 4 - yoe / 100) in
  let mp := (5 * doy + 2) / 153 in
  let d := doy - (153 * mp + 2) / 5 + 1 in
  let mo := if mp <? 10 then mp + 3 else mp - 9 in
  (yoe + era * 400 + (if mo <=? 2 then 1 else 0), mo, d).

(** [n] decimal digits, zero-padded; every field printed here is non-negative. *)
Fixpoint digits (n : nat) (v : Z) : bytes :=
  match n with O => [] | S n' => digits n' (v / 10) ++ [chr (48 + v mod 10)] end.

(** Go's layout 20060102-150405 of a time given in whole seconds. *)
Definition format_seconds (sec : Z) : bytes :=
  let '(y, mo, d) := civil_from_days (sec / 86400) in
  let tod := sec mod 86400 in
  digits 4 y ++ digits 2 mo ++ digits 2 d ++ go! "-" ++
  digits 2 (tod / 3600) ++ digits 2 (tod / 60 mod 60) ++ digits 2 (tod mod 60).

Definition truncate_second (ns : Z) : Z := ns / 1000000000.

(** [%016x]. *)
Definition hex16 (v : Z) : bytes := concat (hex_byte <$> be_enc 8 v).

(** [path.Split]: up to and including the last slash, and the rest. *)
Definition path_Split (p : bytes) : bytes * bytes :=
  let comps := split_on slash_c p in
  let base := default [] (last comps) in
  (take (length p - length base) p, base).
(** [path.Ext] of a name without slash: from its last dot. *)
Definition path_Ext (base : bytes) : bytes :=
  match split_on dot_c base with
  | [] | [_] => []
  | comps => dot_c :: default [] (last comps)
  end.

Definition conflict_base (base : bytes) (mtime : Z) (author : Z) : bytes :=
  let ext := path_Ext base in
  let stem := trim_suffix base ext in
  stem ++ go! ".sync-conflict-" ++ format_seconds (truncate_second mtime) ++ go! "-" ++ hex16 author ++ ext.

Definition conflictName `{Unicode} (loser : FileInfo) (author : Z) : Result PathError bytes :=
  let '(dir, base) := path_Split (Path loser) in
  CanonicalizeSlash (dir ++ conflict_base base (ModTimeNS loser) author).

(** ** apply.go *)

Inductive planKind := planNoOp | planInstall | planConflict.
#[export] Instance planKind_eq_dec : EqDecision planKind.
Proof. solve_decision. Defined.

Definition zeroFileInfo : FileInfo := mkFileInfo [] zero32 0 0 0 [] false TypeFile.

Record plan := mkPlan {
  kind : planKind;
  install : FileInfo;
  p_winner : FileInfo;
  p_loser : option FileInfo
}.
Add Printing Constructor plan.

Definition plan_noop : plan := mkPlan planNoOp zeroFileInfo zeroFileInfo None.
Definition plan_install (fi : FileInfo) : plan := mkPlan planInstall fi zeroFileInfo None.

Definition set_path (fi : FileInfo) (p : bytes) : FileInfo :=
  mkFileInfo p (ContentHash fi) (Size fi) (Mode fi) (ModTimeNS fi) (Version fi) (Deleted fi) (Type_ fi).
Definition set_version (fi : FileInfo) (vv : VersionVector) : FileInfo :=
  mkFileInfo (Path fi) (ContentHash fi) (Size fi) (Mode fi) (ModTimeNS fi) vv (Deleted fi) (Type_ fi).

Definition maxShortID (vv : VersionVector) : Z :=
  foldl (λ m c, if m <? ID c then ID c else m) 0 vv.

Definition loserAuthor (l w : FileInfo) : Z :=
  let '(a, ok) := authorOf l w in if ok then a else maxShortID (Version l).

Definition conflictPlan `{Unicode} (local remote : FileInfo) : plan :=
  let w := winner local remote in
  let l := loserOf local remote in
  let win := set_path w (Path local) in
  if Deleted l then mkPlan planConflict zeroFileInfo win None
  else match conflictName l (loserAuthor l w) with
       | Err _ => plan_noop
       | Ok name => mkPlan planConflict zeroFileInfo win (Some (set_path l name))
       end.

Definition same_content (a b : FileInfo) : bool :=
  bool_decide (ContentHash a = ContentHash b) && bool_decide (Deleted a = Deleted b).

Definition resolve `{Unicode} (local remote : option FileInfo) (self : Z) : plan :=
  match local, remote with
  | _, None => plan_noop
  | None, Some r => if Deleted r then plan_noop else plan_install r
  | Some l, Some r =>
    match Compare (Version l) (Version r) with
    | Equal => if same_content l r then plan_noop else conflictPlan l r
    | Dominates => plan_noop
    | DominatedBy => plan_install (set_version r (Merge (Version l) (Version r)))
    | Concurrent =>
      if same_content l r then plan_install (set_version l (Merge (Version l) (Version r)))
      else conflictPlan l r
    end
  end.

(** Examples against Go's own output. *)
Example format_epoch : format_seconds 0 = go! "19700101-000000".
Proof. reflexivity. Qed.
Example format_leap : format_seconds (truncate_second 1709210096999999999) = go! "20240229-123456".
Proof. reflexivity. Qed.
Example format_before_epoch : format_seconds (truncate_second (-1)) = go! "19691231-235959".
Proof. reflexivity. Qed.
Example conflict_base_dotfile :
  conflict_base (go! "a.tar.gz") 0 255 = go! "a.tar.sync-conflict-19700101-000000-00000000000000ff.gz".
Proof. reflexivity. Qed.

(** ** The author of a divergence *)

Lemma author_loop_spec a b best found :
  canonical b →
  let '(x, ok) := author_loop a b best found in
  (ok = true ↔ found = true ∨ ∃ c, c ∈ a ∧ vget b (ID c) < Value c) ∧
  (ok = true → (found = true ∧ x = best) ∨ ∃ c, c ∈ a ∧ vget b (ID c) < Value c ∧ ID c = x) ∧
  (found = true → best ≤ x) ∧ (∀ c, c ∈ a → vget b (ID c) < Value c → ID c ≤ x).
Proof.
  intros Hb. revert best found. induction a as [|c a IH]; intros best found; cbn [author_loop].
  { split_and!; [set_solver | by left | lia | by intros ? ?%not_elem_of_nil]. }
  rewrite Get_vget by done.
  assert (∀ P : Counter → Prop, (∃ d, d ∈ c :: a ∧ P d) ↔ P c ∨ ∃ d, d ∈ a ∧ P d) as Hex.
  { intros P. setoid_rewrite elem_of_cons. naive_solver. }
  pose proof (Hex (λ d, vget b (ID d) < Value d)) as Hex1. cbv beta in Hex1.
  destruct (Z.ltb_spec (vget b (ID c)) (Value c)) as [Hc | Hc].
  - destruct (negb found || (best <? ID c)) eqn:Hn.
    + specialize (IH (ID c) true). destruct (author_loop a b (ID c) true) as [x ok].
      destruct IH as (H1 & H2 & H3 & H4). split_and!.
      * rewrite Hex1, H1. tauto.
      * intros Ho. right. destruct (H2 Ho) as [[_ ->] | (d & ? & ?)]; [exists c | exists d]; set_solver.
      * intros ->. simpl in Hn. apply Z.ltb_lt in Hn. specialize (H3 eq_refl). lia.
      * intros d [-> | Hd]%elem_of_cons Hv; [by apply H3 | by apply H4].
    + apply orb_false_iff in Hn as [Hf Hle]. apply negb_false_iff in Hf as ->. apply Z.ltb_ge in Hle.
      specialize (IH best true). destruct (author_loop a b best true) as [x ok].
      destruct IH as (H1 & H2 & H3 & H4). split_and!; [rewrite Hex1, H1; tauto | | done |].
      { intros Ho. destruct (H2 Ho) as [? | (d & ? & ?)]; [by left | right; exists d; set_solver]. }
      intros d [-> | Hd]%elem_of_cons Hv; [specialize (H3 eq_refl); lia | by apply H4].
  - specialize (IH best found). destruct (author_loop a b best found) as [x ok].
    destruct IH as (H1 & H2 & H3 & H4). split_and!; [| | done |].
    + rewrite Hex1, H1. split; [tauto |]. intros [? | [? | ?]]; [by left | lia | by right].
    + intros Ho. destruct (H2 Ho) as [? | (d & ? & ?)]; [by left | right; exists d; set_solver].
    + intros d [-> | Hd]%elem_of_cons Hv; [lia | by apply H4].
Qed.

Lemma vget_elem a c : canonical a → c ∈ a → vget a (ID c) = Value c.
Proof.
  intros Ha. induction a as [|d a IH]; [by intros ?%not_elem_of_nil |].
  apply canonical_cons in Ha as (Hd & Hlt & Ha). rewrite elem_of_cons. simpl.
  intros [-> | Hin]; [by rewrite Z.eqb_refl |].
  rewrite Forall_forall in Hlt. specialize (Hlt c Hin).
  destruct (Z.eqb_spec (ID d) (ID c)); [lia |]. by apply IH.
Qed.

Lemma vget_pos_elem a id : 0 < vget a id → ∃ c, c ∈ a ∧ ID c = id ∧ Value c = vget a id.
Proof.
  induction a as [|d a IH]; simpl; [lia |]. destruct (Z.eqb_spec (ID d) id).
  - intros _. exists d. split_and!; [apply list_elem_of_here | done | done].
  - intros Hp. destruct (IH Hp) as (c & Hc & ? & ?). exists c. split_and!; [by apply list_elem_of_further | done | done].
Qed.

(** [authorOf] finds an author exactly when the vector exceeds the other's somewhere. *)
Lemma authorOf_found a b :
  canonical (Version a) → canonical (Version b) →
  (authorOf a b).2 = true ↔ exceeds (Version a) (Version b).
Proof.
  intros Ha Hb. unfold authorOf. pose proof (author_loop_spec (Version a) (Version b) 0 false Hb) as Hs.
  destruct (author_loop _ _ _ _) as [x ok]. destruct Hs as (H1 & _). simpl. rewrite H1. unfold exceeds. split.
  - intros [? | (c & Hc & Hv)]; [done |]. exists (ID c). by rewrite (vget_elem (Version a)).
  - intros (id & Hid). right.
    pose proof (vget_nonneg (Version b) id (canon_nonzero _ Hb)).
    destruct (vget_pos_elem (Version a) id ltac:(lia)) as (c & Hc & <- & Hv). exists c. split; [done | lia].
Qed.

(** ** The winner *)

Lemma bytes_ltb_total a b : a ≠ b → bytes_ltb b a = negb (bytes_ltb a b).
Proof.
  intros Hne. unfold bytes_ltb. rewrite (bytes_cmp_antisym a b).
  destruct (bytes_cmp a b) eqn:Hc; [by apply bytes_cmp_eq in Hc | done..].
Qed.

(** The leaves that [aWins] can tell apart. *)
Definition distinguishable (a b : FileInfo) : Prop :=
  ModTimeNS a ≠ ModTimeNS b ∨ ContentHash a ≠ ContentHash b.

Lemma aWins_antisym a b : distinguishable a b → aWins b a = negb (aWins a b).
Proof.
  intros Hd. unfold aWins. rewrite (Z.eqb_sym (ModTimeNS b)).
  destruct (Z.eqb_spec (ModTimeNS a) (ModTimeNS b)) as [Heq | Hne]; cbn [negb].
  - destruct (authorOf a b) as [x ox], (authorOf b a) as [y oy]. rewrite (andb_comm oy), (Z.eqb_sym y).
    destruct (ox && oy && negb (x =? y)) eqn:Hb.
    + apply andb_true_iff in Hb as [_ Hb]. apply negb_true_iff, Z.eqb_neq in Hb. zcases.
    + apply bytes_ltb_total. destruct Hd; [lia | done].
  - zcases.
Qed.

Lemma winner_comm a b : distinguishable a b → winner b a = winner a b ∧ loserOf b a = loserOf a b.
Proof. intros Hd. unfold winner, loserOf. rewrite (aWins_antisym a b Hd). by destruct (aWins a b). Qed.

Lemma winner_loser_cases a b :
  (winner a b = a ∧ loserOf a b = b) ∨ (winner a b = b ∧ loserOf a b = a).
Proof. unfold winner, loserOf. destruct (aWins a b); auto. Qed.

Lemma set_path_id fi : set_path fi (Path fi) = fi.
Proof. by destruct fi. Qed.

Lemma conflictPlan_comm `{Unicode} a b :
  Path a = Path b → distinguishable a b → conflictPlan b a = conflictPlan a b.
Proof.
  intros Hp Hd. unfold conflictPlan. destruct (winner_comm a b Hd) as [-> ->]. by rewrite Hp.
Qed.

(** ** The name of the conflict copy *)

(** Characters that neither separate nor start a volume prefix. *)
Definition name_char (c : byte) : bool :=
  negb (bool_decide (c = slash_c) || bool_decide (c = colon_c) || bool_decide (c = backslash_c)).

Lemma name_char_spec c : name_char c = true ↔ c ≠ slash_c ∧ c ≠ colon_c ∧ c ≠ backslash_c.
Proof.
  unfold name_char. rewrite negb_true_iff, !orb_false_iff, !bool_decide_eq_false. tauto.
Qed.

Lemma digit_char v : name_char (chr (48 + v mod 10)) = true.
Proof.
  pose proof (Z.mod_pos_bound v 10 ltac:(lia)) as Hm. set (m := v mod 10) in *. clearbody m.
  assert (m = 0 ∨ m = 1 ∨ m = 2 ∨ m = 3 ∨ m = 4 ∨ m = 5 ∨ m = 6 ∨ m = 7 ∨ m = 8 ∨ m = 9) as Hc by lia.
  repeat destruct Hc as [-> | Hc]; subst; reflexivity.
Qed.

Lemma digits_chars n v : Forall (λ c, name_char c = true) (digits n v).
Proof.
  revert v. induction n as [|n IH]; intros v; cbn [digits]; [constructor |].
  apply Forall_app. split; [done |]. constructor; [apply digit_char | constructor].
Qed.

Lemma hex_byte_chars c : forallb name_char (hex_byte c) = true.
Proof. all_bytes c; reflexivity. Qed.

Lemma forallb_Forall_true {A} (f : A → bool) l : forallb f l = true ↔ Forall (λ x, f x = true) l.
Proof. rewrite forallb_forall, Forall_forall. setoid_rewrite list_elem_of_In. done. Qed.

Lemma hex16_chars v : Forall (λ c, name_char c = true) (hex16 v).
Proof.
  unfold hex16. induction (be_enc 8 v) as [|c s IH]; [constructor |]. cbn [fmap list_fmap concat].
  apply Forall_app. split; [| done]. apply forallb_Forall_true, hex_byte_chars.
Qed.

Lemma format_seconds_chars sec : Forall (λ c, name_char c = true) (format_seconds sec).
Proof.
  unfold format_seconds. destruct (civil_from_days _) as [[y mo] d].
  rewrite !Forall_app. split_and!; try apply digits_chars. apply forallb_Forall_true. reflexivity.
Qed.

Lemma trim_suffix_Forall (P : byte → Prop) s p : Forall P s → Forall P (trim_suffix s p).
Proof. intros Hs. unfold trim_suffix. destruct (has_suffix p s); [by apply Forall_take | done]. Qed.

Lemma split_on_Forall (P : byte → Prop) c s : Forall P s → Forall (Forall P) (split_on c s).
Proof.
  induction 1 as [|x s Hx Hs IH]; simpl; [repeat constructor |].
  case_decide; [by constructor |]. destruct (split_on c s) as [|h t]; [repeat constructor; done |].
  inversion IH; subst. constructor; [by constructor | done].
Qed.

Lemma path_Ext_chars base : Forall (λ c, name_char c = true) base → Forall (λ c, name_char c = true) (path_Ext base).
Proof.
  intros Hb. apply (split_on_Forall _ dot_c) in Hb. unfold path_Ext.
  destruct (split_on dot_c base) as [|x [|y l]]; [constructor.. |].
  constructor; [reflexivity |]. destruct (last (x :: y :: l)) as [z |] eqn:Hl; [| constructor].
  apply last_Some_elem_of in Hl. rewrite Forall_forall in Hb. by apply (Hb z).
Qed.

Lemma conflict_base_chars base mtime author :
  Forall (λ c, name_char c = true) base → Forall (λ c, name_char c = true) (conflict_base base mtime author).
Proof.
  intros Hb. unfold conflict_base. rewrite !Forall_app.
  split_and!; [by apply trim_suffix_Forall | | apply format_seconds_chars | | apply hex16_chars | by apply path_Ext_chars].
  all: apply forallb_Forall_true; reflexivity.
Qed.

Lemma conflict_base_proper base mtime author :
  Forall (λ c, name_char c = true) base → proper (conflict_base base mtime author).
Proof.
  intros Hb. pose proof (conflict_base_chars base mtime author Hb) as Hc.
  assert (15 ≤ length (conflict_base base mtime author))%nat as Hlen.
  { unfold conflict_base. rewrite !length_app. change (length (go! ".sync-conflict-")) with 15%nat. lia. }
  split_and!; try (intros He; rewrite He in Hlen; simpl in Hlen; lia).
  intros Hin. rewrite Forall_forall in Hc. specialize (Hc _ Hin). discriminate.
Qed.

Lemma path_Split_join p ds b nm :
  split_on slash_c p = ds ++ [b] →
  (path_Split p).2 = b ∧ (path_Split p).1 ++ nm = join_with [slash_c] (ds ++ [nm]).
Proof.
  intros Hs. unfold path_Split. rewrite Hs, last_snoc. cbn [fst snd default from_option id]. split; [done |].
  rewrite <- (join_split slash_c p), Hs. destruct (decide (ds = [])) as [-> | Hne].
  - simpl. by rewrite Nat.sub_diag.
  - rewrite !join_with_app by done. simpl.
    rewrite length_app. simpl.
    replace (length (join_with [slash_c] ds) + S (length b) - length b)%nat
      with (length (join_with [slash_c] ds ++ [slash_c])) by (rewrite length_app; simpl; lia).
    change (slash_c :: b) with ([slash_c] ++ b). rewrite (app_assoc _ [slash_c] b), take_app_length.
    by rewrite <- app_assoc.
Qed.

(** *** The copy has a name of its own: one full stop more than the leaf's *)

Definition stops (s : bytes) : nat := length (filter (λ c, c = dot_c) s).

Lemma stops_app s t : stops (s ++ t) = (stops s + stops t)%nat.
Proof. unfold stops. by rewrite filter_app, length_app. Qed.
Lemma stops_cons s : stops (dot_c :: s) = S (stops s).
Proof. unfold stops. by rewrite filter_cons_True. Qed.
Lemma stops_none s : dot_c ∉ s → stops s = 0%nat.
Proof.
  unfold stops. intros Hs. destruct (filter _ s) as [|c l] eqn:Hf; [done |]. exfalso. apply Hs.
  assert (c ∈ filter (λ c, c = dot_c) s) as [-> ?]%list_elem_of_filter by (rewrite Hf; apply list_elem_of_here). done.
Qed.

Lemma stops_nfc `{UnicodeLaws} s : stops (nfc s) = stops s.
Proof.
  remember (length s) as n eqn:Hn. revert s Hn. induction (lt_wf n) as [n _ IH]. intros s ->.
  destruct (decide (dot_c ∈ s)) as [(x & t & -> & Hx)%list_elem_of_split_l | Hs]; [| by rewrite !stops_none by auto using nfc_no_stop].
  rewrite nfc_stop, !stops_app, !stops_cons, (stops_none x), (stops_none (nfc x)) by auto using nfc_no_stop.
  rewrite (IH (length t)); [done | rewrite length_app; simpl; lia | done].
Qed.

Lemma stops_conflict_base base mtime author : (stops base < stops (conflict_base base mtime author))%nat.
Proof.
  unfold conflict_base. set (ext := path_Ext base). rewrite !stops_app.
  assert (stops base ≤ stops (trim_suffix base ext) + stops ext)%nat as Hb.
  { unfold trim_suffix. destruct (has_suffix ext base) eqn:Hs; [| lia]. apply has_prefix_spec in Hs as [t Ht].
    apply (f_equal (@rev byte)) in Ht. rewrite rev_involutive, rev_app_distr, rev_involutive in Ht. rewrite Ht.
    rewrite length_app, Nat.add_sub, take_app_length, stops_app. lia. }
  change (stops (go! ".sync-conflict-")) with 1%nat. lia.
Qed.

(** Keys that cannot be mistaken for a volume prefix. *)
Definition plain_key `{Unicode} (k : bytes) : Prop := canonical_key k ∧ k ≠ [] ∧ no_volume_char k.

Lemma conflictName_ok `{UnicodeLaws} l author :
  plain_key (Path l) → ∃ name, conflictName l author = Ok name ∧ canonical_key name ∧ name ≠ Path l.
Proof.
  intros (Hk & Hne & Hvol). pose proof (canonical_proper _ Hk Hne) as Hp.
  destruct (split_on slash_c (Path l)) as [|b ds _] eqn:Hs using rev_ind; [by apply split_on_nonempty in Hs |].
  destruct (path_Split_join (Path l) ds b (conflict_base b (ModTimeNS l) author) Hs) as [Hb Hj].
  unfold conflictName. destruct (path_Split (Path l)) as [dir base]. cbn [fst snd] in *. subst base. rewrite Hj.
  set (nm := conflict_base b (ModTimeNS l) author) in *.
  apply Forall_app in Hp as [Hds Hb]. inversion Hb as [|? ? (_ & _ & _ & Hbs) _]; subst.
  assert (no_volume_char b ∧ Forall no_volume_char ds) as [Hbv Hdsv].
  { apply (split_on_Forall _ slash_c) in Hvol. rewrite Hs in Hvol. apply Forall_app in Hvol as [? Hvb]. by inversion Hvb. }
  assert (Forall (λ c, name_char c = true) b) as Hbc.
  { rewrite Forall_forall. intros c Hc. apply name_char_spec. unfold no_volume_char in Hbv.
    rewrite Forall_forall in Hbv. destruct (Hbv c Hc). split_and!; try done. congruence. }
  assert (proper nm) as Hnp by (by apply conflict_base_proper).
  assert (Forall proper (ds ++ [nm])) as Hall by (apply Forall_app; split; [done | by constructor]).
  assert (no_volume_char (join_with [slash_c] (ds ++ [nm]))) as Hjv.
  { apply no_volume_join, Forall_app. split; [done |]. constructor; [| constructor].
    apply (Forall_impl (λ c, name_char c = true)); [by apply conflict_base_chars |].
    intros c Hc. apply name_char_spec in Hc. tauto. }
  assert (stripVolumePrefix (join_with [slash_c] (ds ++ [nm])) = join_with [slash_c] (ds ++ [nm])) as Hst.
  { pose proof (is_rooted_join _ Hall) as Hr. destruct (join_with [slash_c] (ds ++ [nm])) as [|x s]; [done |].
    apply strip_safe; [| done]. intros ->. done. }
  exists (join_with [slash_c] (nfc <$> (ds ++ [nm]))).
  assert (CanonicalizeSlash (join_with [slash_c] (ds ++ [nm])) = Ok (join_with [slash_c] (nfc <$> (ds ++ [nm])))) as Hok.
  { unfold CanonicalizeSlash. rewrite canonFromComponents_eq. cbv zeta. rewrite Hst, is_rooted_join by done.
    rewrite clean_comps_split by (rewrite split_join_proper; [done | by destruct ds | done]).
    rewrite split_join_proper by (done || by destruct ds). by rewrite decide_True. }
  split_and!; [done | by eapply canonFromComponents_canonical |]. intros Heq. apply (f_equal (split_on slash_c)) in Heq.
  rewrite Hs, split_join in Heq; [| by destruct ds |].
  - rewrite fmap_app in Heq. cbn in Heq. apply app_inj_tail in Heq as [_ Hnm].
    pose proof (stops_conflict_base b (ModTimeNS l) author) as Hlt. fold nm in Hlt. rewrite <- (stops_nfc nm), Hnm in Hlt. lia.
  - apply Forall_fmap. eapply Forall_impl; [exact Hall |]. intros c (_ & _ & _ & Hc). by apply nfc_no_sep.
Qed.

(** ** The outcome of a verdict *)

(** The leaf at the path once the verdict has been carried out. *)
Definition outcome (local : option FileInfo) (p : plan) : option FileInfo :=
  match kind p with
  | planNoOp => local
  | planInstall => Some (install p)
  | planConflict => Some (p_winner p)
  end.

(** Leaves as two honest peers hold them at one path. *)
Record leaf_pair `{Unicode} (a b : FileInfo) : Prop := mkLeafPair {
  lp_path : Path a = Path b;
  lp_key : plain_key (Path a);
  lp_vva : canonical (Version a);
  lp_vvb : canonical (Version b);
  lp_diff : same_content a b = false → distinguishable a b
}.
(** The mode byte has not drifted between them. *)
Definition same_modes (a b : FileInfo) : Prop := same_content a b = true → canonicalModeByte a = canonicalModeByte b.

(** What the resolver looks at: content, deletion and version, but not the mode. *)
Definition vkey (fi : FileInfo) : bytes * bool * VersionVector := (ContentHash fi, Deleted fi, Version fi).

Lemma skey_vkey x y : skey x = skey y ↔ vkey x = vkey y ∧ canonicalModeByte x = canonicalModeByte y.
Proof. unfold skey, vkey. split; [intros [= -> -> -> ->] | intros [[= -> -> ->] ->]]; done. Qed.

Lemma same_content_comm a b : same_content a b = same_content b a.
Proof. unfold same_content. f_equal; apply bool_decide_ext; split; congruence. Qed.

Lemma same_content_vkey a b vv : same_content a b = true → vkey (set_version a vv) = vkey (set_version b vv).
Proof. unfold same_content. rewrite andb_true_iff, !bool_decide_eq_true. intros [Hh Hd]. unfold vkey. cbn. by rewrite Hh, Hd. Qed.

Lemma set_version_id fi : set_version fi (Version fi) = fi.
Proof. by destruct fi. Qed.

Lemma leaf_pair_sym `{Unicode} a b : leaf_pair a b → leaf_pair b a.
Proof.
  intros [Hp Hk Ha Hb Hd]. split; try done; [by rewrite <- Hp |].
  rewrite same_content_comm. intros H1. destruct (Hd H1); [left | right]; congruence.
Qed.

(** The conflict verdict is the same on both sides: a winner, and the loser's
    copy unless the loser is a tombstone. *)
Lemma conflictPlan_spec `{UnicodeLaws} a b :
  Path a = Path b → plain_key (Path a) →
  kind (conflictPlan a b) = planConflict ∧
  p_winner (conflictPlan a b) = winner a b ∧
  match p_loser (conflictPlan a b) with
  | None => Deleted (loserOf a b) = true
  | Some cp => Deleted (loserOf a b) = false ∧ canonical_key (Path cp) ∧ Path cp ≠ Path a ∧
               cp = set_path (loserOf a b) (Path cp)
  end.
Proof.
  intros Hp Hk. unfold conflictPlan.
  assert (set_path (winner a b) (Path a) = winner a b) as Hw.
  { destruct (winner_loser_cases a b) as [[-> _] | [-> _]]; [| rewrite Hp]; apply set_path_id. }
  assert (Path (loserOf a b) = Path a) as Hl by (by destruct (winner_loser_cases a b) as [[_ ->] | [_ ->]]).
  rewrite Hw. destruct (Deleted (loserOf a b)) eqn:Hdel; [done |].
  destruct (conflictName_ok (loserOf a b) (loserAuthor (loserOf a b) (winner a b))) as (name & -> & Hn & Hne); [by rewrite Hl |].
  rewrite Hl in Hne. done.
Qed.

(** Executing both verdicts gives the same content, deletion and version; and the same
    mode, unless it had drifted. *)
Lemma resolve_agree_modes `{UnicodeLaws} a b sa sb :
  leaf_pair a b →
  let x := outcome (Some a) (resolve (Some a) (Some b) sa) in
  let y := outcome (Some b) (resolve (Some b) (Some a) sb) in
  vkey <$> x = vkey <$> y ∧ (same_modes a b → skey <$> x = skey <$> y).
Proof.
  intros Hlp. assert (Hlp' := Hlp). destruct Hlp' as [Hp Hk Ha Hb Hd]. cbv zeta.
  assert (∀ fi : option FileInfo, vkey <$> fi = vkey <$> fi ∧ (same_modes a b → skey <$> fi = skey <$> fi)) as Hrefl by done.
  assert (∀ vv, same_content a b = true → vkey <$> Some (set_version a vv) = vkey <$> Some (set_version b vv) ∧
    (same_modes a b → skey <$> Some (set_version a vv) = skey <$> Some (set_version b vv))) as Hsame.
  { intros vv Hs. pose proof (same_content_vkey a b vv Hs) as Hv. split; [cbn; by rewrite Hv |].
    intros Hm. cbn. f_equal. apply skey_vkey. split; [done |]. by apply Hm. }
  pose proof (same_content_comm b a) as Hsc. unfold resolve.
  rewrite (Compare_flip (Version a) (Version b)) by done.
  assert (same_content a b = false → outcome (Some b) (conflictPlan b a) = outcome (Some a) (conflictPlan a b)) as Hconf.
  { intros Hs. rewrite (conflictPlan_comm a b) by auto. destruct (conflictPlan_spec a b Hp Hk) as (Hkind & _).
    unfold outcome. by rewrite Hkind. }
  destruct (Compare (Version a) (Version b)) eqn:Hc; cbn [flip_ordering].
  - apply Compare_Equal in Hc; [| done..]. rewrite Hsc. destruct (same_content a b) eqn:Hs; [| by rewrite Hconf].
    cbn [outcome plan_noop kind]. pose proof (Hsame (Version a) eq_refl) as Hss. rewrite set_version_id, Hc, set_version_id in Hss. done.
  - cbn. apply Compare_Dominates in Hc; [| done..]. destruct Hc as [Hle _].
    by rewrite (Merge_absorb (Version b) (Version a)), set_version_id by done.
  - cbn. apply Compare_DominatedBy in Hc; [| done..]. destruct Hc as [Hle _].
    by rewrite (Merge_absorb (Version a) (Version b)), set_version_id by done.
  - rewrite Hsc. destruct (same_content a b) eqn:Hs; [| by rewrite Hconf].
    cbn [outcome plan_install kind install]. rewrite (Merge_comm (Version b)) by done. by apply Hsame.
Qed.

Lemma resolve_agree `{UnicodeLaws} a b sa sb :
  leaf_pair a b → same_modes a b →
  skey <$> outcome (Some a) (resolve (Some a) (Some b) sa) = skey <$> outcome (Some b) (resolve (Some b) (Some a) sb).
Proof. intros Hlp Hm. by apply (resolve_agree_modes a b sa sb Hlp). Qed.

Lemma resolve_settled `{Unicode} x y self :
  canonical (Version x) → vkey x = vkey y → resolve (Some x) (Some y) self = plan_noop.
Proof.
  intros Hc Hk. unfold vkey in Hk. injection Hk as Hh Hd Hv. unfold resolve. rewrite <- Hv.
  assert (Compare (Version x) (Version x) = Equal) as -> by (by apply Compare_Equal).
  unfold same_content. by rewrite Hh, Hd, !bool_decide_eq_true_2.
Qed.

Lemma outcome_canonical `{UnicodeLaws} a b s x :
  leaf_pair a b → outcome (Some a) (resolve (Some a) (Some b) s) = Some x → canonical (Version x).
Proof.
  intros Hlp. assert (Hlp' := Hlp). destruct Hlp' as [Hp Hk Ha Hb Hd]. unfold resolve.
  destruct (conflictPlan_spec a b Hp Hk) as (Hkind & Hwin & _).
  assert (outcome (Some a) (conflictPlan a b) = Some (winner a b)) as Hcp by (unfold outcome; by rewrite Hkind, Hwin).
  assert (canonical (Version (winner a b))) as Hw by (destruct (winner_loser_cases a b) as [[-> _] | [-> _]]; done).
  destruct (Compare (Version a) (Version b)); [destruct (same_content a b) | | | destruct (same_content a b)];
    rewrite ?Hcp; cbn; intros [= <-]; try done; by apply Merge_canonical.
Qed.

(** * Properties *)

(** C17: the resolver is symmetric and convergent: take two leaves of one plain path
    (canonical, without a colon or a backslash), with canonical versions in any causal
    order, which, if their content or deletion flag differs, differ in modification
    time or content hash. The peer holding the one and the peer holding the other end,
    once each has carried out its own verdict, with the same content, deletion flag and
    version; and with the same mode byte, hence the same leaf hash in the tree, unless
    the two had the same content under different mode bytes (a drift the resolver never
    looks at, see [Scanner.mode_drift_is_permanent]). Their conflict verdicts are
    identical, loser's copy included, and resolving again is a no-op on both sides. *)
Theorem resolve_converges `{UnicodeLaws} a b sa sb :
  leaf_pair a b →
  let pa := resolve (Some a) (Some b) sa in
  let pb := resolve (Some b) (Some a) sb in
  ∃ x y, outcome (Some a) pa = Some x ∧ outcome (Some b) pb = Some y ∧
    vkey x = vkey y ∧ (same_modes a b → skey x = skey y) ∧
    (kind pa = planConflict → pa = pb) ∧
    resolve (Some x) (Some y) sa = plan_noop ∧ resolve (Some y) (Some x) sb = plan_noop.
Proof.
  intros Hlp pa pb. pose proof (resolve_agree_modes a b sa sb Hlp) as [Hv Hm]. fold pa pb in Hv, Hm.
  assert (∀ l p, ∃ x, outcome (Some l) p = Some x) as Hsome.
  { intros l p. unfold outcome. destruct (kind p); eauto. }
  destruct (Hsome a pa) as [x Hx], (Hsome b pb) as [y Hy]. rewrite Hx, Hy in Hv, Hm. apply (inj Some) in Hv.
  exists x, y. split_and!; try done.
  - intros Hs. by apply (inj Some), Hm.
  - intros Hk. unfold pa, pb in *. assert (Hlp' := Hlp). destruct Hlp' as [Hp _ Ha Hb Hd].
    unfold resolve in *. rewrite (Compare_flip (Version a) (Version b)) by done. rewrite (same_content_comm b a).
    destruct (Compare (Version a) (Version b)), (same_content a b) eqn:Hsame; cbn in *; try done;
      symmetry; apply conflictPlan_comm; auto.
  - apply resolve_settled; [| done]. by apply (outcome_canonical a b sa).
  - apply resolve_settled; [| done]. apply leaf_pair_sym in Hlp. by apply (outcome_canonical b a sb).
Qed.

Definition edited_at (mtime : Z) (vv : VersionVector) : FileInfo :=
  mkFileInfo (go! "notes.txt") (be_enc 32 mtime) 4 420 mtime vv false TypeFile.

Lemma edited_pair : leaf_pair (edited_at 10 [mkCounter 1 2; mkCounter 2 1]) (edited_at 20 [mkCounter 1 1; mkCounter 2 2]).
Proof.
  split; try reflexivity; try vv_concrete; try (intros; discriminate).
  - split_and!; [apply (bool_decide_unpack _); vm_compute; exact I | discriminate |].
    apply (bool_decide_unpack _). vm_compute. exact I.
  - intros _. left. discriminate.
Qed.

Lemma resolve_converges_witness :
  let a := edited_at 10 [mkCounter 1 2; mkCounter 2 1] in
  let b := edited_at 20 [mkCounter 1 1; mkCounter 2 2] in
  kind (resolve (Some a) (Some b) 1) = planConflict ∧
  (Path <$> p_loser (resolve (Some a) (Some b) 1)) =
    Some (go! "notes.sync-conflict-19700101-000000-0000000000000001.txt") ∧
  ∃ x y, outcome (Some a) (resolve (Some a) (Some b) 1) = Some x ∧
    outcome (Some b) (resolve (Some b) (Some a) 2) = Some y ∧ vkey x = vkey y ∧ (same_modes a b → skey x = skey y) ∧
    (kind (resolve (Some a) (Some b) 1) = planConflict → resolve (Some a) (Some b) 1 = resolve (Some b) (Some a) 2) ∧
    resolve (Some x) (Some y) 1 = plan_noop ∧ resolve (Some y) (Some x) 2 = plan_noop.
Proof.
  intros a b. split; [reflexivity |]. split; [reflexivity |].
  exact (resolve_converges a b 1 2 edited_pair).
Defined.

(** C18: the resolver never drops content: take two leaves of one plain path (canonical,
    without a colon or a backslash). When the verdict replaces the local leaf's content
    or deletion flag, then either the remote leaf causally dominates the local one, or
    the verdict is a conflict that puts the remote leaf at the path and keeps the local
    one (unless it is a tombstone, which has no content) as a live copy, the same in
    every field but its path, which is another, canonical one. *)
Theorem resolve_no_content_loss `{UnicodeLaws} a b self x :
  Path a = Path b → plain_key (Path a) →
  outcome (Some a) (resolve (Some a) (Some b) self) = Some x → same_content a x = false →
  Compare (Version a) (Version b) = DominatedBy ∨
  (kind (resolve (Some a) (Some b) self) = planConflict ∧ x = b ∧
   match p_loser (resolve (Some a) (Some b) self) with
   | Some cp => Deleted a = false ∧ cp = set_path a (Path cp) ∧ Path cp ≠ Path a ∧ canonical_key (Path cp)
   | None => Deleted a = true
   end).
Proof.
  intros Hp Hk. destruct (conflictPlan_spec a b Hp Hk) as (Hkind & Hwin & Hloser).
  assert (∀ fi vv, same_content fi (set_version fi vv) = true ∧ same_content fi fi = true) as Hself.
  { intros fi vv. unfold same_content. cbn. by rewrite !bool_decide_eq_true_2. }
  assert (outcome (Some a) (conflictPlan a b) = Some x → same_content a x = false →
    x = b ∧ match p_loser (conflictPlan a b) with
            | Some cp => Deleted a = false ∧ cp = set_path a (Path cp) ∧ Path cp ≠ Path a ∧ canonical_key (Path cp)
            | None => Deleted a = true end) as Hconf.
  { unfold outcome. rewrite Hkind, Hwin. intros [= <-] Hne.
    destruct (winner_loser_cases a b) as [[Hw Hl] | [Hw Hl]]; rewrite Hw, Hl in *.
    - by rewrite (proj2 (Hself a [])) in Hne.
    - split; [done |]. destruct (p_loser _); [tauto | done]. }
  unfold resolve. destruct (Compare (Version a) (Version b)).
  - destruct (same_content a b); [cbn; intros [= <-] Hne; by rewrite (proj2 (Hself a [])) in Hne |].
    intros Ho Hne. right. split; [done | by apply Hconf].
  - cbn. intros [= <-] Hne. by rewrite (proj2 (Hself a [])) in Hne.
  - by left.
  - destruct (same_content a b); [cbn; intros [= <-] Hne; by rewrite (proj1 (Hself a _)) in Hne |].
    intros Ho Hne. right. split; [done | by apply Hconf].
Qed.

Lemma resolve_no_content_loss_witness :
  let a := edited_at 10 [mkCounter 1 2; mkCounter 2 1] in
  let b := edited_at 20 [mkCounter 1 1; mkCounter 2 2] in
  Compare (Version a) (Version b) = DominatedBy ∨
  (kind (resolve (Some a) (Some b) 1) = planConflict ∧ b = b ∧
   match p_loser (resolve (Some a) (Some b) 1) with
   | Some cp => Deleted a = false ∧ cp = set_path a (Path cp) ∧ Path cp ≠ Path a ∧ canonical_key (Path cp)
   | None => Deleted a = true
   end).
Proof.
  intros a b. exact (resolve_no_content_loss a b 1 b eq_refl (lp_key _ _ edited_pair) eq_refl eq_refl).
Defined.
