(* ===== verification/Scanner.v ===== *)
(** * Scanner: what a restart makes of the snapshot and the disk
    (internal/merkle/scanner.go; restoreVVs and dropInternal of internal/reconcile/engine.go)

    The scan itself reads a disk and is in Disk.v; here are the pure functions
    that combine the snapshot of the last run with the fresh scan. *)
From S2P Require Import Prelude Bytes VersionVector Messages Windows Pathnorm Hashing FileInfo.
From S2P Require Import Conflict.

Definition RescanCandidate (prev : FileInfo) (curSize curMTimeNS : Z) : bool :=
  negb (Size prev =? curSize) || negb (ModTimeNS prev =? curMTimeNS).

(** A set of records as the map [files]/[byPath]/[idx]: later entries win. *)
Definition files_of (set : list FileInfo) : gmap bytes FileInfo :=
  foldl (λ m fi, <[Path fi := fi]> m) ∅ set.

Definition SynthesizeDeletions (prev cur : list FileInfo) (self : Z) : list FileInfo :=
  match prev with
  | [] => cur
  | _ =>
    cur ++ concat ((λ p,
      if bool_decide (Path p ∈ Path <$> cur) then []
      else if Deleted p then [p]
      else [SetDeleted p self]) <$> prev)
  end.

Definition restore_one (byPath : gmap bytes FileInfo) (self : Z) (fi : FileInfo) : FileInfo :=
  match byPath !! Path fi with
  | None => fi
  | Some p =>
    if Deleted p then set_version fi (Bump (Version p) self)
    else if bool_decide (ContentHash p = ContentHash fi) && bool_decide (Type_ p = Type_ fi)
    then set_version fi (Version p)
    else set_version fi (Bump (Version p) self)
  end.
Definition restoreVVs (prev cur : list FileInfo) (self : Z) : list FileInfo :=
  match prev with
  | [] => cur
  | _ => restore_one (files_of prev) self <$> cur
  end.

Definition internalPrefix : bytes := go! ".msync-".
(** [path.Base] of a canonical key. *)
Definition path_Base (key : bytes) : bytes := default [] (last (split_on slash_c key)).
Definition internalFile (key : bytes) : bool := has_prefix internalPrefix (path_Base key).
Definition dropInternal (set : list FileInfo) : list FileInfo :=
  filter (λ fi, internalFile (Path fi) = false) set.

(** The map [e.files] that startupReconcile fills, before the de-pair sweep. *)
Definition startup_files (prev cur : list FileInfo) (self : Z) : gmap bytes FileInfo :=
  files_of (SynthesizeDeletions prev (restoreVVs prev (dropInternal cur) self) self).

(** ** Sets of records as maps *)

Lemma files_of_snoc set fi : files_of (set ++ [fi]) = <[Path fi := fi]> (files_of set).
Proof. unfold files_of. by rewrite foldl_app. Qed.

Lemma files_of_lookup_None set k : files_of set !! k = None ↔ k ∉ Path <$> set.
Proof.
  induction set as [|fi set IH] using rev_ind; [split; [intros _; apply not_elem_of_nil | done] |].
  rewrite files_of_snoc, fmap_app, not_elem_of_app, <- IH. simpl. rewrite list_elem_of_singleton.
  destruct (decide (Path fi = k)) as [<- | Hne].
  - rewrite lookup_insert_eq. naive_solver.
  - rewrite lookup_insert_ne by done. naive_solver.
Qed.

Lemma files_of_lookup set k fi :
  NoDup (Path <$> set) → files_of set !! k = Some fi ↔ fi ∈ set ∧ Path fi = k.
Proof.
  induction set as [|x set IH] using rev_ind; [intros _; split; [done | intros [?%not_elem_of_nil ?]; done] |].
  rewrite fmap_app, files_of_snoc. intros Hnd. apply NoDup_app in Hnd as (Hnd & Hdisj & _).
  rewrite elem_of_app, list_elem_of_singleton. destruct (decide (Path x = k)) as [<- | Hne].
  - rewrite lookup_insert_eq. split; [naive_solver |]. intros [[Hin | ->] Hp]; [| done].
    exfalso. apply (Hdisj (Path x)); [| simpl; by apply list_elem_of_singleton].
    rewrite <- Hp. by apply list_elem_of_fmap_2.
  - rewrite lookup_insert_ne by done. rewrite IH by done. naive_solver.
Qed.

Lemma files_of_app_fresh s1 s2 k :
  k ∉ Path <$> s2 → files_of (s1 ++ s2) !! k = files_of s1 !! k.
Proof.
  induction s2 as [|x s2 IH] using rev_ind; [by rewrite app_nil_r |].
  rewrite fmap_app, not_elem_of_app, app_assoc, files_of_snoc. intros [H1 H2].
  simpl in H2. rewrite list_elem_of_singleton in H2. rewrite lookup_insert_ne by congruence. by apply IH.
Qed.

Lemma files_of_app_absent s1 s2 k :
  k ∉ Path <$> s1 → files_of (s1 ++ s2) !! k = files_of s2 !! k.
Proof.
  intros Hn. induction s2 as [|x s2 IH] using rev_ind.
  - rewrite app_nil_r. by apply files_of_lookup_None.
  - rewrite app_assoc, !files_of_snoc. destruct (decide (Path x = k)) as [<- | Hne].
    + by rewrite !lookup_insert_eq.
    + rewrite !lookup_insert_ne by done. apply IH.
Qed.

Lemma restore_one_path byPath self fi : Path (restore_one byPath self fi) = Path fi.
Proof. unfold restore_one. repeat case_match; done. Qed.

Lemma files_of_fmap f set k :
  (∀ fi, Path (f fi) = Path fi) → files_of (f <$> set) !! k = f <$> files_of set !! k.
Proof.
  intros Hf. induction set as [|x set IH] using rev_ind; [done |].
  rewrite fmap_app, !files_of_snoc. simpl. rewrite files_of_snoc, Hf.
  destruct (decide (Path x = k)) as [<- | Hne]; [by rewrite !lookup_insert_eq |].
  by rewrite !lookup_insert_ne.
Qed.

Definition synthesized (cur : list FileInfo) (self : Z) (p : FileInfo) : list FileInfo :=
  if bool_decide (Path p ∈ Path <$> cur) then [] else if Deleted p then [p] else [SetDeleted p self].

Lemma synthesized_paths cur self prev k :
  k ∈ Path <$> concat (synthesized cur self <$> prev) ↔ k ∈ Path <$> prev ∧ k ∉ Path <$> cur.
Proof.
  induction prev as [|p prev IH]; cbn [fmap list_fmap concat]; [set_solver |].
  rewrite fmap_app, elem_of_app, IH, elem_of_cons. unfold synthesized at 1.
  case_bool_decide as Hin; [set_solver |]. destruct (Deleted p); simpl; rewrite list_elem_of_singleton; set_solver.
Qed.

Lemma synthesized_lookup cur self prev k :
  k ∉ Path <$> cur →
  files_of (concat (synthesized cur self <$> prev)) !! k =
    (λ p, if Deleted p then p else SetDeleted p self) <$> files_of prev !! k.
Proof.
  intros Hk. induction prev as [|p prev IH] using rev_ind; [done |].
  rewrite fmap_app, concat_app. cbn [fmap list_fmap concat]. rewrite app_nil_r, files_of_snoc.
  unfold synthesized at 2. destruct (decide (Path p = k)) as [<- | Hne].
  - rewrite bool_decide_eq_false_2 by done. rewrite lookup_insert_eq.
    destruct (Deleted p) eqn:Hd; rewrite files_of_snoc; simpl; rewrite lookup_insert_eq, Hd; done.
  - rewrite lookup_insert_ne by done. rewrite <- IH. apply files_of_app_fresh.
    case_bool_decide; [apply not_elem_of_nil |]. destruct (Deleted p); simpl; rewrite list_elem_of_singleton; done.
Qed.

(** The whole of the restart, path by path. *)
Lemma startup_lookup prev cur self k :
  prev ≠ [] →
  startup_files prev cur self !! k =
    match files_of (dropInternal cur) !! k with
    | Some c => Some (restore_one (files_of prev) self c)
    | None => (λ p, if Deleted p then p else SetDeleted p self) <$> files_of prev !! k
    end.
Proof.
  intros Hne. unfold startup_files. set (d := dropInternal cur).
  assert (SynthesizeDeletions prev (restoreVVs prev d self) self =
    (restore_one (files_of prev) self <$> d) ++ concat (synthesized (restore_one (files_of prev) self <$> d) self <$> prev)) as ->.
  { by destruct prev. }
  set (r := restore_one (files_of prev) self <$> d).
  assert (files_of r !! k = restore_one (files_of prev) self <$> files_of d !! k) as Hr.
  { apply files_of_fmap, restore_one_path. }
  destruct (files_of d !! k) as [c |] eqn:Hc; simpl in Hr.
  - rewrite files_of_app_fresh; [done |]. rewrite synthesized_paths. intros [_ Hn].
    apply files_of_lookup_None in Hn. congruence.
  - assert (k ∉ Path <$> r) as Hn by (by apply files_of_lookup_None).
    rewrite files_of_app_absent by done. by apply synthesized_lookup.
Qed.

(** * Properties *)

Definition unchanged (p c : FileInfo) : bool :=
  negb (Deleted p) && bool_decide (ContentHash p = ContentHash c) && bool_decide (Type_ p = Type_ c).

(** C25: a restart loses no deletion and no edit: every record of the snapshot has
    a successor. A path still on disk takes the content of the scan and keeps its
    version when nothing changed, while an edit made or a deleted file recreated
    while the daemon was down gets a version that dominates the recorded one; a
    path gone from disk becomes a tombstone dominating the record, and an old
    tombstone is carried forward unchanged. Without a snapshot nothing is
    deleted. *)
Theorem restart_correct prev cur self p :
  NoDup (Path <$> prev) → p ∈ prev → canonical (Version p) → Get (Version p) self < 2 ^ 64 - 1 →
  (∃ r, startup_files prev cur self !! Path p = Some r ∧
    match files_of (dropInternal cur) !! Path p with
    | Some c => ContentHash r = ContentHash c ∧ Deleted r = Deleted c ∧
                (if unchanged p c then Version r = Version p else Compare (Version r) (Version p) = Dominates)
    | None => Deleted r = true ∧
              (if Deleted p then r = p else Compare (Version r) (Version p) = Dominates)
    end) ∧
  startup_files [] cur self = files_of (dropInternal cur).
Proof.
  intros Hnd Hin Hc Hmax. destruct (Bump_step (Version p) self Hc Hmax) as (_ & _ & Hdom). split; [| done].
  rewrite startup_lookup by (by destruct prev as [|]; [apply not_elem_of_nil in Hin |]).
  assert (files_of prev !! Path p = Some p) as Hp by (by apply files_of_lookup).
  destruct (files_of (dropInternal cur) !! Path p) as [c |] eqn:Hcur.
  - eexists. split; [done |]. unfold restore_one.
    assert (Path c = Path p) as Hpc.
    { revert Hcur. generalize (dropInternal cur) as d. induction d as [|x d IH] using rev_ind; [done |].
      rewrite files_of_snoc. destruct (decide (Path x = Path p)) as [Heq | Hne].
      - rewrite Heq, lookup_insert_eq. by intros [= ->].
      - by rewrite lookup_insert_ne. }
    rewrite Hpc, Hp. unfold unchanged. destruct (Deleted p); [done |]. cbn [negb andb].
    by destruct (_ && _).
  - rewrite Hp. simpl. eexists. split; [done |]. by destruct (Deleted p) eqn:Hd.
Qed.

Lemma restart_correct_witness :
  let p := mkFileInfo (go! "a") (be_enc 32 1) 3 420 5 [mkCounter 1 4] false TypeFile in
  startup_files [p] [] 1 !! Path p = Some (SetDeleted p 1) ∧
  (∃ r, startup_files [p] [] 1 !! Path p = Some r ∧
    match files_of (dropInternal []) !! Path p with
    | Some c => ContentHash r = ContentHash c ∧ Deleted r = Deleted c ∧
                (if unchanged p c then Version r = Version p else Compare (Version r) (Version p) = Dominates)
    | None => Deleted r = true ∧
              (if Deleted p then r = p else Compare (Version r) (Version p) = Dominates)
    end).
Proof.
  intros p. split; [reflexivity |]. refine (proj1 (restart_correct [p] [] 1 p _ _ _ _)).
  - apply NoDup_singleton.
  - apply list_elem_of_here.
  - vv_concrete.
  - reflexivity.
Defined.

(** a permission change is invisible to versioning but not to the tree: a
    record restored over a scan with the same bytes keeps its version whatever the
    mode, so when the executable bit differs (a received file is created with
    mode 0600) the restored leaf hashes differently from the peer's while the
    resolver, seeing equal versions and equal content, does nothing on either
    side: the two trees stay different. *)
Theorem mode_drift_is_permanent `{Unicode} p c self selfA selfB :
  Path p = Path c → canonical (Version p) → Deleted p = false → Deleted c = false →
  ContentHash p = ContentHash c → Type_ p = TypeFile → Type_ c = TypeFile → executable p ≠ executable c →
  let r := restore_one (files_of [p]) self c in
  skey r ≠ skey p ∧
  resolve (Some r) (Some p) selfA = plan_noop ∧ resolve (Some p) (Some r) selfB = plan_noop.
Proof.
  intros Hpath Hc Hdp Hdc Hh Htp Htc Hx r.
  assert (r = set_version c (Version p)) as ->.
  { unfold r, restore_one. assert (files_of [p] !! Path c = Some p) as ->.
    { apply files_of_lookup; [apply NoDup_singleton |]. split; [apply list_elem_of_here | done]. }
    rewrite Hdp, !bool_decide_eq_true_2 by congruence. done. }
  assert (Compare (Version p) (Version p) = Equal) as Heq by (by apply Compare_Equal).
  split_and!.
  - unfold skey. intros [= _ Hm _]. apply Hx. unfold canonicalModeByte in Hm.
    change (executable (set_version c (Version p))) with (executable c) in Hm.
    cbn [Type_ set_version] in Hm. rewrite Htp, Htc in Hm. cbn in Hm.
    by destruct (executable p), (executable c).
  - unfold resolve, same_content. cbn. rewrite Heq, !bool_decide_eq_true_2 by congruence. done.
  - unfold resolve, same_content. cbn. rewrite Heq, !bool_decide_eq_true_2 by congruence. done.
Qed.

Lemma mode_drift_is_permanent_witness :
  let p := mkFileInfo (go! "run.sh") (be_enc 32 1) 3 493 5 [mkCounter 1 4] false TypeFile in
  let c := mkFileInfo (go! "run.sh") (be_enc 32 1) 3 384 5 [] false TypeFile in
  let r := restore_one (files_of [p]) 2 c in
  skey r ≠ skey p ∧ resolve (Some r) (Some p) 2 = plan_noop ∧ resolve (Some p) (Some r) 1 = plan_noop.
Proof.
  intros p c. refine (mode_drift_is_permanent p c 2 2 1 _ _ _ _ _ _ _ _); try reflexivity; [vv_concrete |].
  vm_compute. discriminate.
Defined.
