(* ===== verification/Disk.v ===== *)
(** * Disk: the sync root as the code sees it through package os
    (the scan of internal/merkle/scanner.go and hash.go, scanOne of internal/reconcile/engine.go)

    The root of a POSIX host is a map from relative paths to entries. On such a
    host ToOSPath(absRoot, key) is absRoot/key, so a canonical key names its
    entry directly, while the scan goes through FromOSPath as the code does. What
    opening a symbolic link reads is the operating system's business: [follow].
    A path below a symbolic link is not resolved by the model. *)
From S2P Require Import Prelude Bytes VersionVector Messages Windows Pathnorm Hashing FileInfo.
From S2P Require Import Conflict Scanner.

Inductive Entry :=
| EFile (content : bytes) (mode mtime : Z)
| ELink (target : bytes) (mode mtime : Z)
| EDir.
#[export] Instance Entry_eq_dec : EqDecision Entry.
Proof. solve_decision. Defined.
Notation Disk := (gmap bytes Entry).

(** Parameter: the content os.Open finds behind the link at a path, if any. *)
Class OS := { follow : Disk → bytes → option bytes }.

(** The proper ancestors of a path, outermost first. *)
Definition parents (path : bytes) : list bytes :=
  let comps := split_on slash_c path in
  (λ n, join_with [slash_c] (take n comps)) <$> seq 1 (length comps - 1).

(** [filepath.Dir] of a relative path, the root being the empty string. *)
Definition path_dir (path : bytes) : bytes :=
  let comps := split_on slash_c path in join_with [slash_c] (take (length comps - 1) comps).

(** [os.MkdirAll] on the ancestors; false when one of them is not a directory. *)
Fixpoint MkdirAll (d : Disk) (ps : list bytes) : Disk * bool :=
  match ps with
  | [] => (d, true)
  | p :: ps' =>
    match d !! p with
    | None => MkdirAll (<[p := EDir]> d) ps'
    | Some EDir => MkdirAll d ps'
    | Some _ => (d, false)
    end
  end.

Definition is_below (dir p : bytes) : bool := has_prefix (dir ++ [slash_c]) p.

(** [os.Remove]: a file, a link or an empty directory. *)
Definition Remove (d : Disk) (path : bytes) : Disk :=
  match d !! path with
  | None => d
  | Some EDir => if existsb (λ '(p, _), is_below path p) (map_to_list d) then d else delete path d
  | Some _ => delete path d
  end.

Section disk.
Context `{OS, Digest, Unicode}.
Context (absRoot : bytes).

(** Opening a file for reading, and reading all of it. *)
Definition read_file (d : Disk) (path : bytes) : option bytes :=
  match d !! path with
  | Some (EFile c _ _) => Some c
  | Some (ELink _ _ _) => follow d path
  | _ => None
  end.

(** ** hash.go *)
Definition HashBytes (b : bytes) : bytes := sum256 b.
Definition HashFileSize (d : Disk) (path : bytes) : option (bytes * Z) :=
  (λ c, (sum256 c, Z.of_nat (length c))) <$> read_file d path.
Definition HashFile (d : Disk) (path : bytes) : option bytes := fst <$> HashFileSize d path.

(** ** scanner.go *)

Definition os_path (rel : bytes) : bytes := absRoot ++ [slash_c] ++ rel.
Definition os_key (rel : bytes) : Result PathError bytes := FromOSPath absRoot (os_path rel) HostTarget.

(** The record of one entry, its version left empty; the body shared by the scan's
    callback and [scanOne]. *)
Definition entry_info (key path : bytes) (d : Disk) (e : Entry) : option FileInfo :=
  match e with
  | EDir => None
  | ELink target mode mtime =>
    let norm := NormalizeComponent (ToSlash target) in
    Some (mkFileInfo key (HashBytes norm) (Z.of_nat (length norm)) mode mtime [] false TypeSymlink)
  | EFile _ mode mtime =>
    match HashFileSize d path with
    | Some (h, n) => Some (mkFileInfo key h n mode mtime [] false TypeFile)
    | None => None
    end
  end.

(** Walk order: by component, as WalkDir reads each directory in lexical order. *)
Fixpoint comps_cmp (a b : list bytes) : comparison :=
  match a, b with
  | [], [] => Eq
  | [], _ => Lt
  | _, [] => Gt
  | x :: a', y :: b' => match bytes_cmp x y with Eq => comps_cmp a' b' | c => c end
  end.
Definition walk_le (p q : bytes * Entry) : Prop := comps_cmp (split_on slash_c p.1) (split_on slash_c q.1) ≠ Gt.
#[export] Instance walk_le_dec : RelDecision walk_le.
Proof. intros p q. unfold walk_le. apply _. Defined.

(** The callback over the entries in walk order; any error aborts the walk. *)
Fixpoint scan_entries (d : Disk) (es : list (bytes * Entry)) : Result PathError (list FileInfo) :=
  match es with
  | [] => Ok []
  | (path, e) :: es' =>
    match e with
    | EDir => scan_entries d es'
    | _ =>
      let! key := os_key path in
      match entry_info key path d e with
      | None => Err ErrRelativize
      | Some fi => let! out := scan_entries d es' in Ok (fi :: out)
      end
    end
  end.
Definition Scan (d : Disk) : Result PathError (list FileInfo) :=
  scan_entries d (merge_sort walk_le (map_to_list d)).

Definition scanOne (d : Disk) (key : bytes) (e : Entry) : option FileInfo := entry_info key key d e.

End disk.

(** ** Ancestors *)

Lemma join_take_shorter l n :
  (0 < n < length l)%nat → (length (join_with [slash_c] (take n l)) < length (join_with [slash_c] l))%nat.
Proof.
  intros Hn. rewrite <- (take_drop n l) at 2.
  assert (length (take n l) = n) by (rewrite length_take; lia).
  assert (length (drop n l) = length l - n)%nat by (rewrite length_drop; lia).
  rewrite join_with_app by (intros He; rewrite He in *; simpl in *; lia).
  rewrite !length_app. simpl. lia.
Qed.

Lemma parents_shorter path q : q ∈ parents path → (length q < length path)%nat.
Proof.
  unfold parents. rewrite list_elem_of_fmap. intros (n & -> & Hn).
  rewrite elem_of_seq in Hn. rewrite <- (join_split slash_c path) at 2. apply join_take_shorter. lia.
Qed.

Lemma not_own_parent path : path ∉ parents path.
Proof. intros Hin. apply parents_shorter in Hin. lia. Qed.

Lemma MkdirAll_frame d ps d' ok k :
  MkdirAll d ps = (d', ok) → d' !! k = d !! k ∨ (k ∈ ps ∧ d !! k = None ∧ d' !! k = Some EDir).
Proof.
  revert d. induction ps as [|p ps IH]; intros d; simpl; [intros [= <- <-]; by left |].
  destruct (d !! p) as [[| |] |] eqn:Hp.
  1, 2: intros [= <- <-]; by left.
  - intros Hm. destruct (IH _ Hm) as [? | (? & ? & ?)]; [by left | right; set_solver].
  - intros Hm. destruct (decide (p = k)) as [-> | Hne].
    + right. destruct (IH _ Hm) as [-> | (_ & Hn & _)]; rewrite lookup_insert_eq in *; [set_solver | done].
    + destruct (IH _ Hm) as [-> | (Hin & Hn & ->)]; rewrite lookup_insert_ne in * by done; [by left | right; set_solver].
Qed.

Lemma MkdirAll_keeps d ps d' ok k : MkdirAll d ps = (d', ok) → is_Some (d !! k) ∨ k ∉ ps → d' !! k = d !! k.
Proof. intros Hm Hk. destruct (MkdirAll_frame d ps d' ok k Hm) as [? | (? & Hn & _)]; [done |]. destruct Hk as [[]|]; congruence. Qed.

Lemma Remove_frame d p k : k ≠ p → Remove d p !! k = d !! k.
Proof.
  intros Hne. unfold Remove. destruct (d !! p) as [[| |] |]; [..| done]; [by rewrite lookup_delete_ne.. |].
  destruct (existsb _ _); [done | by rewrite lookup_delete_ne].
Qed.

Lemma Remove_file d p c m t : d !! p = Some (EFile c m t) → Remove d p = delete p d.
Proof. intros Hp. unfold Remove. by rewrite Hp. Qed.
