(* ===== verification/Transfer.v ===== *)
(** * Transfer: moving and installing content (internal/reconcile/transfer.go)

    The network is the function [ask] from requests to what requestChunk
    returns; a transfer between two engines is the composition with
    [serveRequest] of the other side's disk. [atomicWriteVerify] returns every
    intermediate disk as well as the last one, so that a crash at any point is a
    prefix of its trace. *)
From S2P Require Import Prelude Bytes VersionVector Framing Messages Windows Pathnorm Hashing.
From S2P Require Import FileInfo Tree Oracle Conflict Scanner Disk.

Definition BlockSize : Z := 32 * 1024.

(** ErrCanceled is the error of the context. *)
Inductive TransferError := ErrVerifyFailed | ErrSourceDeclined | ErrPeerGone | ErrRequestTimeout | ErrCanceled | ErrIO.

Definition numBlocks (size : Z) : Z :=
  if size =? 0 then 0 else wrap 64 (size + BlockSize - 1) / BlockSize.

Definition validateRequest (req : Request) (size : Z) : bool :=
  if (rq_Length req =? 0) || (MaxChunkLen <? rq_Length req) then false
  else if (size <? rq_Offset req) || (size <? wrap 64 (rq_Offset req + rq_Length req)) then false
  else true.

(** ** atomicWriteVerify *)

Definition temp_mode : Z := 384.   (* os.CreateTemp creates with mode 0600 *)

(** [tmp] is the name CreateTemp picks; [fill] is the chunks that were written and the
    error that stopped the writing. An error of Sync, of Close or of the rename is one
    after the last chunk, and one of CreateTemp is one before the first: the code
    returns each the same way, and the temporary file is removed if there is one (that
    the removal fails is not modelled). The result is the disks passed through, the
    last disk, and the error. *)
Definition atomicWriteVerify `{Digest} (d : Disk) (dst tmp expected : bytes)
    (fill : list bytes * option TransferError) (now : Z) : list Disk * Disk * option TransferError :=
  let '(d1, ok) := MkdirAll d (parents dst) in
  if negb ok then ([], d1, Some ErrIO) else
  let '(chunks, err) := fill in
  let writing := (λ n, <[tmp := EFile (concat (take n chunks)) temp_mode now]> d1) <$> seq 0 (S (length chunks)) in
  match err with
  | Some e => (writing, delete tmp d1, Some e)
  | None =>
    if negb (bool_decide (sum256 (concat chunks) = expected)) then (writing, delete tmp d1, Some ErrVerifyFailed)
    else match d1 !! dst with
         | Some EDir => (writing, delete tmp d1, Some ErrIO)     (* rename onto a directory *)
         | _ => (writing, <[dst := EFile (concat chunks) temp_mode now]> (delete tmp d1), None)
         end
  end.

(** ** Fetching *)

(** The loop of [fetchOverWire] from block [i], [n] blocks to go: the chunks
    written and the error. *)
Fixpoint fetch_loop (ask : Request → Result TransferError Response) (leaf : FileInfo)
    (reqID : Z) (n : nat) (i : Z) : list bytes * option TransferError :=
  match n with
  | O => ([], None)
  | S n' =>
    let offset := wrap 64 (i * BlockSize) in
    let remaining := wrap 64 (Size leaf - offset) in
    let length0 := if remaining <? BlockSize then wrap 32 remaining else BlockSize in
    let len := if MaxChunkLen <? length0 then MaxChunkLen else length0 in
    match ask (mkRequest reqID (Path leaf) (ContentHash leaf) offset len) with
    | Err e => ([], Some e)
    | Ok resp =>
      if negb (rs_Code resp =? CodeOK) then ([], Some ErrSourceDeclined)
      else if negb (Z.of_nat (length (rs_Data resp)) =? len) then ([], Some ErrSourceDeclined)
      else
        let '(rest, err) := fetch_loop ask leaf (wrap 32 (reqID + 1)) n' (i + 1) in
        (rs_Data resp :: rest, err)
    end
  end.
Definition fetchOverWire (ask : Request → Result TransferError Response) (leaf : FileInfo) (reqID : Z)
    : list bytes * option TransferError :=
  fetch_loop ask leaf reqID (Z.to_nat (numBlocks (Size leaf))) 0.

Section transfer.
Context `{OS, Digest, Unicode}.
Context (absRoot : bytes).

(** ** Serving *)

(** [os.Stat] as far as serveRequest looks: the size of a regular file, following links. *)
Definition stat_size (d : Disk) (path : bytes) : option Z := (λ c, Z.of_nat (length c)) <$> read_file d path.

Definition serveRequest (d : Disk) (req : Request) : Response :=
  let decline code := mkResponse (rq_ReqID req) code [] in
  match CanonicalizeSlash (rq_Path req) with
  | Err _ => decline CodeGeneric
  | Ok canonKey =>
    match stat_size d canonKey with
    | None => decline CodeNoSuchFile
    | Some size =>
      if negb (validateRequest req size) then decline CodeGeneric
      else match read_file d canonKey with
           | None => decline CodeNoSuchFile
           | Some content =>
             let data := slice content (Z.to_nat (rq_Offset req)) (Z.to_nat (rq_Length req)) in
             if Z.of_nat (length data) <? rq_Length req then decline CodeGeneric   (* ReadAt: EOF *)
             else mkResponse (rq_ReqID req) CodeOK data
           end
    end
  end.

(** ** Installing *)

Definition entry_name_le (p q : bytes * Entry) : Prop := bytes_le p.1 q.1.
#[export] Instance entry_name_le_dec : RelDecision entry_name_le.
Proof. intros p q. unfold entry_name_le. apply _. Defined.

(** [os.ReadDir]: the entries of a directory, sorted; the root always exists. *)
Definition ReadDir (d : Disk) (dir : bytes) : option (list bytes) :=
  if bool_decide (dir = []) || bool_decide (d !! dir = Some EDir) then
    Some (fst <$> merge_sort entry_name_le
      (filter (λ '(p, _), bool_decide (path_dir p = dir) = true) (map_to_list d)))
  else None.

Fixpoint clobber_loop (canonKey : bytes) (entries : list bytes) : option bytes :=
  match entries with
  | [] => None
  | ent :: rest =>
    match os_key absRoot ent with
    | Err _ | Ok [] => clobber_loop canonKey rest
    | Ok existKey =>
      if decide (existKey = canonKey) then None
      else if decide (Fold (path_Base existKey) = Fold (path_Base canonKey)) then Some existKey
      else clobber_loop canonKey rest
    end
  end.
Definition noClobberConflict (caseSensitive : bool) (d : Disk) (canonKey : bytes) : option bytes :=
  if caseSensitive then None
  else match ReadDir d (path_dir canonKey) with
       | None => None
       | Some entries => clobber_loop canonKey entries
       end.

(** The first live regular file of the map with the given content hash; the
    map's iteration order stands for Go's. *)
Definition localSource (files : gmap bytes FileInfo) (d : Disk) (hash excludeKey : bytes) : option bytes :=
  match list_find (λ '(key, fi), key ≠ excludeKey ∧ Deleted fi = false ∧ Type_ fi = TypeFile ∧ ContentHash fi = hash)
          (map_to_list files) with
  | None => None
  | Some (_, (candidate, _)) =>
    if decide (HashFile d candidate = Some hash) then Some candidate else None
  end.

(** What [materialise] reports: the content landed, or not, or was refused. *)
Inductive MatResult := MatOk | MatFailed | MatClobber.
#[export] Instance MatResult_eq_dec : EqDecision MatResult.
Proof. solve_decision. Defined.

(** What becomes of the content: what fetching it over the wire yields (with what stops
    its writing), and the error that stops the writing of a local copy, if any. *)
Definition Yield : Type := list bytes * option TransferError * option TransferError.

(** The disk after, and the outcome. [tmp] and [now] are the operating system's. *)
Definition materialise (caseSensitive : bool) (files : gmap bytes FileInfo) (d : Disk) (leaf : FileInfo)
    (tmp : bytes) (now : Z) (net : Yield) : Disk * MatResult :=
  if decide (Type_ leaf ≠ TypeFile) then (d, MatFailed)
  else if decide (HashFile d (Path leaf) = Some (ContentHash leaf)) then (d, MatOk)
  else match noClobberConflict caseSensitive d (Path leaf) with
  | Some _ => (d, MatClobber)
  | None =>
    let fetch d :=
      match atomicWriteVerify d (Path leaf) tmp (ContentHash leaf) net.1 now with
      | (_, d', None) => (d', MatOk)
      | (_, d', Some _) => (d', MatFailed)
      end in
    match localSource files d (ContentHash leaf) (Path leaf) with
    | None => fetch d
    | Some src =>
      let fill := match read_file d src with Some c => ([c], net.2) | None => ([], Some ErrIO) end in
      match atomicWriteVerify d (Path leaf) tmp (ContentHash leaf) fill now with
      | (_, d', None) => (d', MatOk)
      | (_, d', Some _) => fetch d'
      end
    end
  end.

End transfer.

(** ** The write is atomic *)

Lemma awv_mkdir `{Digest} d dst tmp expected fill now :
  atomicWriteVerify d dst tmp expected fill now =
    let '(d1, ok) := MkdirAll d (parents dst) in
    if negb ok then ([], d1, Some ErrIO) else
    let writing := (λ n, <[tmp := EFile (concat (take n fill.1)) temp_mode now]> d1) <$> seq 0 (S (length fill.1)) in
    if decide (fill.2 = None ∧ sum256 (concat fill.1) = expected ∧ d1 !! dst ≠ Some EDir)
    then (writing, <[dst := EFile (concat fill.1) temp_mode now]> (delete tmp d1), None)
    else (writing, delete tmp d1,
          Some (match fill.2 with
                | Some e => e
                | None => if bool_decide (sum256 (concat fill.1) = expected) then ErrIO else ErrVerifyFailed end)).
Proof.
  unfold atomicWriteVerify. destruct (MkdirAll d (parents dst)) as [d1 ok]. destruct ok; cbn [negb]; [| done].
  destruct fill as [chunks err]. cbn [fst snd]. destruct err as [e |].
  { rewrite decide_False by naive_solver. done. }
  destruct (decide (sum256 (concat chunks) = expected)) as [Hs | Hs].
  - rewrite bool_decide_eq_true_2 by done. cbn [negb].
    destruct (d1 !! dst) as [[| |] |] eqn:Hd1; case_decide; naive_solver.
  - rewrite bool_decide_eq_false_2 by done. cbn [negb]. rewrite decide_False by naive_solver. done.
Qed.

(** The temporary name is CreateTemp's: fresh. *)
Definition fresh_temp (d : Disk) (dst tmp : bytes) : Prop := d !! tmp = None ∧ tmp ≠ dst ∧ tmp ∉ parents dst.

(** What may be seen of the disk while [dst] is being replaced, [v] being the
    verified contents: the destination old or new, the rest unchanged but for the
    temporary file and created ancestors. *)
Definition install_state (d : Disk) (dst tmp : bytes) (verified : bytes → Prop) (s : Disk) : Prop :=
  (s !! dst = d !! dst ∨ ∃ c m t, s !! dst = Some (EFile c m t) ∧ verified c) ∧
  ∀ k, k ≠ dst → k ≠ tmp → s !! k = d !! k ∨ (k ∈ parents dst ∧ d !! k = None ∧ s !! k = Some EDir).

Lemma awv_states `{Digest} d dst tmp expected fill now states d' err :
  atomicWriteVerify d dst tmp expected fill now = (states, d', err) → fresh_temp d dst tmp →
  (∀ s, s ∈ states ++ [d'] → install_state d dst tmp (λ c, sum256 c = expected) s) ∧
  d' !! tmp = None ∧
  match err with
  | None => ∃ c, d' !! dst = Some (EFile c temp_mode now) ∧ sum256 c = expected
  | Some _ => d' !! dst = d !! dst
  end.
Proof.
  rewrite awv_mkdir. intros Hawv (Hfresh & Hne & Hnp).
  destruct (MkdirAll d (parents dst)) as [d1 ok] eqn:Hm.
  assert (d1 !! dst = d !! dst) as Hdst by (eapply MkdirAll_keeps; [done | right; apply not_own_parent]).
  assert (d1 !! tmp = None) as Htmp by (rewrite <- Hfresh; eapply MkdirAll_keeps; [done | by right]).
  assert (∀ k, d1 !! k = d !! k ∨ (k ∈ parents dst ∧ d !! k = None ∧ d1 !! k = Some EDir)) as Hframe.
  { intros k. by apply (MkdirAll_frame d (parents dst) d1 ok). }
  assert (∀ e, install_state d dst tmp (λ c, sum256 c = expected) (<[tmp := e]> d1)) as Hwriting.
  { intros e. split; [left; by rewrite lookup_insert_ne |].
    intros k Hk1 Hk2. rewrite lookup_insert_ne by done. apply Hframe. }
  assert (install_state d dst tmp (λ c, sum256 c = expected) (delete tmp d1)) as Hdel.
  { split; [left; by rewrite lookup_delete_ne |]. intros k Hk1 Hk2. rewrite lookup_delete_ne by done. apply Hframe. }
  destruct ok; cbn [negb] in Hawv.
  2:{ injection Hawv as <- <- <-. split_and!; [| done | done]. intros s Hs%list_elem_of_singleton. subst s.
      split; [by left | intros k _ _; apply Hframe]. }
  cbv zeta in Hawv. match type of Hawv with context [?f <$> seq 0 ?n] => set (writing := f <$> seq 0 n) in Hawv end.
  assert (∀ s, s ∈ writing → install_state d dst tmp (λ c, sum256 c = expected) s) as Hw.
  { intros s Hs. apply list_elem_of_fmap in Hs as (n & -> & _). apply Hwriting. }
  clearbody writing. case_decide as Hok; injection Hawv as <- <- <-; split_and!.
  - intros s [Hs | Hs]%elem_of_app.
    + by apply Hw.
    + apply list_elem_of_singleton in Hs as ->. destruct Hok as (_ & Hv & _). split.
      * right. rewrite lookup_insert_eq. eauto.
      * intros k Hk1 Hk2. rewrite lookup_insert_ne by done. by apply Hdel.
  - rewrite lookup_insert_ne by done. apply lookup_delete_eq.
  - exists (concat fill.1). rewrite lookup_insert_eq. split; [done | by destruct Hok as (_ & ? & _)].
  - intros s [Hs | Hs]%elem_of_app.
    + by apply Hw.
    + by apply list_elem_of_singleton in Hs as ->.
  - apply lookup_delete_eq.
  - by rewrite lookup_delete_ne.
Qed.

(** ** Block arithmetic *)

Lemma numBlocks_ceil size : 0 ≤ size ≤ 2 ^ 64 - BlockSize →
  size ≤ numBlocks size * BlockSize ∧ (numBlocks size - 1) * BlockSize < size ∨ size = 0 ∧ numBlocks size = 0.
Proof.
  intros Hs. unfold numBlocks. change BlockSize with 32768 in *. destruct (Z.eqb_spec size 0); [by right | left].
  rewrite wrap_small by (width; lia).
  pose proof (Z.div_mod (size + 32768 - 1) 32768 ltac:(lia)). pose proof (Z.mod_pos_bound (size + 32768 - 1) 32768 ltac:(lia)).
  lia.
Qed.

Lemma validateRequest_spec req size :
  0 ≤ size < 2 ^ 63 → 0 ≤ rq_Offset req < 2 ^ 64 → 0 ≤ rq_Length req < 2 ^ 32 →
  validateRequest req size = true ↔
    0 < rq_Length req ≤ MaxChunkLen ∧ rq_Offset req + rq_Length req ≤ size.
Proof.
  intros Hs Ho Hl. unfold validateRequest. change MaxChunkLen with 16777210.
  destruct (Z.eqb_spec (rq_Length req) 0); cbn [orb]; [split; [done | lia] |].
  destruct (Z.ltb_spec 16777210 (rq_Length req)); cbn [orb]; [split; [done | lia] |].
  destruct (Z.ltb_spec size (rq_Offset req)); cbn [orb]; [split; [done | lia] |].
  rewrite wrap_small by (width; lia).
  destruct (Z.ltb_spec size (rq_Offset req + rq_Length req)); split; try done; lia.
Qed.

Lemma slice_length (c : bytes) off len :
  0 ≤ off → 0 ≤ len → off + len ≤ Z.of_nat (length c) →
  Z.of_nat (length (slice c (Z.to_nat off) (Z.to_nat len))) = len.
Proof. intros. unfold slice. rewrite length_take, length_drop. lia. Qed.

Section transfer_proofs.
Context `{OS, Digest, Unicode}.

Lemma serveRequest_ok d req key content :
  CanonicalizeSlash (rq_Path req) = Ok key → read_file d key = Some content →
  Z.of_nat (length content) < 2 ^ 63 → 0 ≤ rq_Offset req < 2 ^ 64 → 0 ≤ rq_Length req < 2 ^ 32 →
  serveRequest d req =
    if decide (0 < rq_Length req ≤ MaxChunkLen ∧ rq_Offset req + rq_Length req ≤ Z.of_nat (length content))
    then mkResponse (rq_ReqID req) CodeOK (slice content (Z.to_nat (rq_Offset req)) (Z.to_nat (rq_Length req)))
    else mkResponse (rq_ReqID req) CodeGeneric [].
Proof.
  intros Hk Hr Hs Ho Hl. unfold serveRequest. rewrite Hk. unfold stat_size. rewrite Hr. cbn [fmap option_fmap option_map].
  pose proof (validateRequest_spec req (Z.of_nat (length content)) ltac:(lia) Ho Hl) as Hv.
  case_decide as Hd.
  - rewrite (proj2 Hv Hd). cbn [negb]. cbv zeta. rewrite slice_length by lia. by rewrite Z.ltb_irrefl.
  - destruct (validateRequest req _); [tauto | done].
Qed.

(** Fetching from a peer that serves the leaf's content yields the content. *)
Lemma fetch_loop_ok ask leaf content reqID n i :
  Size leaf = Z.of_nat (length content) → Size leaf ≤ 2 ^ 63 →
  (∀ rid off len, 0 ≤ off → 0 < len ≤ BlockSize → off + len ≤ Size leaf →
    ∃ rid', ask (mkRequest rid (Path leaf) (ContentHash leaf) off len) =
      Ok (mkResponse rid' CodeOK (slice content (Z.to_nat off) (Z.to_nat len)))) →
  0 ≤ i → Size leaf ≤ (i + Z.of_nat n) * BlockSize → (0 < Z.of_nat n → (i + Z.of_nat n - 1) * BlockSize < Size leaf) →
  ∃ chunks, fetch_loop ask leaf reqID n i = (chunks, None) ∧ concat chunks = drop (Z.to_nat (i * BlockSize)) content.
Proof.
  intros Hsz Hmax Hask. change BlockSize with 32768 in *. revert reqID i.
  induction n as [|n IH]; intros reqID i Hi Hle Hlt; cbn [fetch_loop].
  - exists []. split; [done |]. rewrite drop_ge; [done |]. lia.
  - specialize (Hlt ltac:(lia)). change BlockSize with 32768 in *. change MaxChunkLen with 16777210.
    rewrite (wrap_small 64 (i * 32768)) by (width; lia).
    rewrite (wrap_small 64 (Size leaf - i * 32768)) by (width; lia).
    set (rem := Size leaf - i * 32768).
    assert ((if 16777210 <? (if rem <? 32768 then wrap 32 rem else 32768) then 16777210
             else if rem <? 32768 then wrap 32 rem else 32768) = Z.min rem 32768) as ->.
    { destruct (Z.ltb_spec rem 32768); [rewrite wrap_small by (width; lia) |]; zcases. }
    destruct (Hask reqID (i * 32768) (Z.min rem 32768)) as [rid' ->]; [lia | lia | lia |].
    cbn [rs_Code rs_Data]. cbn [negb Z.eqb CodeOK].
    rewrite slice_length, Z.eqb_refl by lia. cbn [negb].
    destruct (IH (wrap 32 (reqID + 1)) (i + 1)) as (chunks & -> & Hc); [lia | lia | lia |].
    eexists. split; [done |]. cbn [concat]. rewrite Hc. unfold slice.
    destruct (Z.le_gt_cases rem 32768).
    + rewrite (drop_ge content (Z.to_nat ((i + 1) * 32768))) by lia.
      rewrite app_nil_r, take_ge; [done |]. rewrite length_drop. lia.
    + replace (Z.min rem 32768) with 32768 by lia.
      replace (Z.to_nat ((i + 1) * 32768)) with (Z.to_nat (i * 32768) + Z.to_nat 32768)%nat by lia.
      rewrite <- drop_drop. apply take_drop.
Qed.

Lemma fetchOverWire_ok ask leaf content reqID :
  Size leaf = Z.of_nat (length content) → Size leaf ≤ 2 ^ 63 →
  (∀ rid off len, 0 ≤ off → 0 < len ≤ BlockSize → off + len ≤ Size leaf →
    ∃ rid', ask (mkRequest rid (Path leaf) (ContentHash leaf) off len) =
      Ok (mkResponse rid' CodeOK (slice content (Z.to_nat off) (Z.to_nat len)))) →
  ∃ chunks, fetchOverWire ask leaf reqID = (chunks, None) ∧ concat chunks = content.
Proof.
  intros Hsz Hmax Hask. unfold fetchOverWire.
  destruct (numBlocks_ceil (Size leaf)) as [[Hn1 Hn2] | [Hn1 Hn2]]; [change BlockSize with 32768; lia | |].
  - destruct (fetch_loop_ok ask leaf content reqID (Z.to_nat (numBlocks (Size leaf))) 0) as (chunks & -> & Hc);
      [done | done | done | lia | | |].
    + change BlockSize with 32768 in *. lia.
    + change BlockSize with 32768 in *. lia.
    + exists chunks. split; [done |]. by rewrite Hc.
  - rewrite Hn2. exists []. split; [done |]. destruct content; simpl in *; [done | lia].
Qed.

(** Fetching from a peer that serves an unchanged file reconstructs it: for a
    file of fewer than 2^63 bytes whose path and size the leaf carries, the
    blocks written by fetchOverWire, each answered by serveRequest on the peer's
    disk, concatenate to exactly the file's content, without an error. *)
Theorem fetch_serve_roundtrip d leaf key content reqID :
  CanonicalizeSlash (Path leaf) = Ok key → read_file d key = Some content →
  Size leaf = Z.of_nat (length content) → Size leaf < 2 ^ 63 →
  ∃ chunks, fetchOverWire (λ req, Ok (serveRequest d req)) leaf reqID = (chunks, None) ∧ concat chunks = content.
Proof.
  intros Hk Hr Hs Hmax. apply fetchOverWire_ok; [done | lia |].
  intros rid off len Hoff Hlen Hle. exists rid. f_equal. change BlockSize with 32768 in Hlen.
  rewrite (serveRequest_ok d _ key content); cbn [rq_Path rq_Offset rq_Length rq_ReqID]; try done; try lia.
  rewrite decide_True; [done |]. change MaxChunkLen with 16777210. lia.
Qed.

End transfer_proofs.

Section materialise_proofs.
Context `{OS, Digest, Unicode}.
Context (absRoot : bytes).

Lemma read_written d path c m t : d !! path = Some (EFile c m t) → HashFile d path = Some (sum256 c).
Proof. intros Hp. unfold HashFile, HashFileSize, read_file. by rewrite Hp. Qed.

Lemma install_state_trans d d1 dst tmp P s :
  install_state d dst tmp P d1 → d1 !! dst = d !! dst → install_state d1 dst tmp P s → install_state d dst tmp P s.
Proof.
  intros [_ Hf1] Hd [Hs Hf2]. split; [by rewrite <- Hd |]. intros k Hk1 Hk2.
  destruct (Hf2 k Hk1 Hk2) as [-> | (Hin & Hn & ->)]; [by apply Hf1 |].
  destruct (Hf1 k Hk1 Hk2) as [Heq | (? & ? & Heq)]; [right; by rewrite <- Heq | congruence].
Qed.

Lemma install_state_refl d dst tmp P : install_state d dst tmp P d.
Proof. split; [by left | by left]. Qed.

Lemma fresh_temp_after `{Digest} d dst tmp expected fill now states d' err :
  atomicWriteVerify d dst tmp expected fill now = (states, d', err) → fresh_temp d dst tmp → fresh_temp d' dst tmp.
Proof.
  intros Hawv Hf. destruct (awv_states _ _ _ _ _ _ _ _ _ Hawv Hf) as (_ & Ht & _). destruct Hf as (_ & ? & ?). done.
Qed.

Definition mat_good (leaf : FileInfo) (tmp : bytes) (d d' : Disk) (r : MatResult) : Prop :=
  install_state d (Path leaf) tmp (λ c, sum256 c = ContentHash leaf) d' ∧
  (r = MatOk → HashFile d' (Path leaf) = Some (ContentHash leaf)) ∧
  (r ≠ MatOk → d' !! Path leaf = d !! Path leaf).

Lemma awv_good leaf tmp d fill now states d' err :
  atomicWriteVerify d (Path leaf) tmp (ContentHash leaf) fill now = (states, d', err) → fresh_temp d (Path leaf) tmp →
  mat_good leaf tmp d d' (match err with None => MatOk | Some _ => MatFailed end).
Proof.
  intros Hawv Hf. destruct (awv_states _ _ _ _ _ _ _ _ _ Hawv Hf) as (Hst & _ & Herr).
  split; [apply Hst, elem_of_app; right; by apply list_elem_of_singleton |]. destruct err; split; try done.
  intros _. destruct Herr as (c & Hc & <-). by eapply read_written.
Qed.

Lemma materialise_good cs files d leaf tmp now net d' r :
  fresh_temp d (Path leaf) tmp → materialise absRoot cs files d leaf tmp now net = (d', r) →
  mat_good leaf tmp d d' r.
Proof.
  intros Hf. unfold materialise.
  assert (∀ r, (r = MatOk → HashFile d (Path leaf) = Some (ContentHash leaf)) → mat_good leaf tmp d d r) as Hid.
  { intros r0 Hr. split_and!; [apply install_state_refl | done | done]. }
  case_decide; [intros [= <- <-]; by apply Hid |].
  case_decide as Hh; [intros [= <- <-]; by apply Hid |].
  destruct (noClobberConflict absRoot cs d (Path leaf)) as [other |]; [intros [= <- <-]; by apply Hid |].
  assert (∀ d0, fresh_temp d0 (Path leaf) tmp →
    match atomicWriteVerify d0 (Path leaf) tmp (ContentHash leaf) net.1 now with
    | (_, d', None) => (d', MatOk) | (_, d', Some _) => (d', MatFailed) end = (d', r) →
    mat_good leaf tmp d0 d' r) as Hfetch.
  { intros d0 Hf0. destruct (atomicWriteVerify d0 _ _ _ _ _) as [[st d1] err] eqn:Hawv.
    pose proof (awv_good leaf tmp d0 net.1 now st d1 err Hawv Hf0) as Hg.
    destruct err; by intros [= <- <-]. }
  destruct (localSource files d (ContentHash leaf) (Path leaf)) as [src |]; [| by apply Hfetch].
  destruct (atomicWriteVerify d (Path leaf) tmp (ContentHash leaf) _ now) as [[st d1] err] eqn:Hawv.
  pose proof (awv_good leaf tmp d _ now st d1 err Hawv Hf) as Hg.
  destruct err; [| by intros [= <- <-]]. intros Hr.
  destruct (Hfetch d1 (fresh_temp_after _ _ _ _ _ _ _ _ _ Hawv Hf) Hr) as (Hi & Hok & Hbad).
  destruct Hg as (Hi1 & _ & Hd1). specialize (Hd1 ltac:(done)).
  split_and!; [by eapply install_state_trans | done |]. intros Hne. by rewrite Hbad.
Qed.

(** With the bytes already on disk at another path, the network is not used. *)
Lemma materialise_local cs files d leaf tmp now net src content :
  Type_ leaf = TypeFile → noClobberConflict absRoot cs d (Path leaf) = None →
  localSource files d (ContentHash leaf) (Path leaf) = Some src → read_file d src = Some content →
  (MkdirAll d (parents (Path leaf))).2 = true → d !! Path leaf ≠ Some EDir → net.2 = None →
  (materialise absRoot cs files d leaf tmp now net).2 = MatOk.
Proof.
  intros Ht Hc Hsrc Hread Hmk Hdir Hlocal. unfold materialise. rewrite decide_False by auto.
  case_decide; [done |]. rewrite Hc, Hsrc, Hread, Hlocal, awv_mkdir.
  assert (sum256 content = ContentHash leaf) as Hsum.
  { unfold localSource in Hsrc. destruct (list_find _ _) as [[? [? ?]] |]; [| done]. case_decide as Hh; [| done].
    injection Hsrc as ->. unfold HashFile, HashFileSize in Hh. rewrite Hread in Hh. by injection Hh as ->. }
  destruct (MkdirAll d (parents (Path leaf))) as [d1 ok] eqn:Hm. cbn [snd] in Hmk. subst ok. cbn [negb].
  rewrite decide_True; [done |]. cbn [fst snd concat]. rewrite app_nil_r. split_and!; [done | done |].
  rewrite (MkdirAll_keeps _ _ _ _ (Path leaf) Hm); [done | right; apply not_own_parent].
Qed.

End materialise_proofs.

(** A host whose links lead nowhere, for closed runs. *)
#[export] Instance no_links : OS := {| follow _ _ := None |}.

(** * Properties *)

(** C22: installing a file is crash-safe: whatever the network sends, at every
    disk state atomicWriteVerify passes through the destination holds either what
    it held before or complete content with the expected hash, and every other
    path but the temporary file is unchanged except for created ancestor
    directories; at the end the temporary file is gone, and the destination has
    verified content exactly when no error is returned. *)
Theorem atomicWriteVerify_crash_safe `{Digest} d dst tmp expected fill now states d' err :
  atomicWriteVerify d dst tmp expected fill now = (states, d', err) → fresh_temp d dst tmp →
  (∀ s, s ∈ states ++ [d'] → install_state d dst tmp (λ c, sum256 c = expected) s) ∧
  d' !! tmp = None ∧
  match err with
  | None => ∃ c, d' !! dst = Some (EFile c temp_mode now) ∧ sum256 c = expected
  | Some _ => d' !! dst = d !! dst
  end.
Proof. apply awv_states. Qed.

Section crash_witness.
#[local] Existing Instance toy_digest.
Definition small_disk : Disk := {[ go! "a" := EFile (go! "old") 420 1 ]}.
Definition crash_run : list Disk * Disk * option TransferError :=
  atomicWriteVerify small_disk (go! "a") (go! ".msync-1.tmp") (sum256 (go! "new")) ([go! "ne"; go! "w"], None) 9.
Lemma atomicWriteVerify_crash_safe_witness :
  crash_run = (crash_run.1.1, crash_run.1.2, None) ∧
  crash_run.1.2 !! go! "a" = Some (EFile (go! "new") temp_mode 9) ∧
  (∀ s, s ∈ crash_run.1.1 ++ [crash_run.1.2] →
     install_state small_disk (go! "a") (go! ".msync-1.tmp") (λ c, sum256 c = sum256 (go! "new")) s) ∧
  crash_run.1.2 !! go! ".msync-1.tmp" = None.
Proof.
  assert (fresh_temp small_disk (go! "a") (go! ".msync-1.tmp")) as Hf.
  { apply (bool_decide_unpack _). vm_compute. exact I. }
  assert (crash_run.2 = None) as He by (vm_compute; reflexivity).
  assert (crash_run = (crash_run.1.1, crash_run.1.2, None)) as Hrun.
  { rewrite <- He. destruct crash_run as [[states d'] err]. reflexivity. }
  split; [exact Hrun |]. split; [vm_compute; reflexivity |].
  destruct (atomicWriteVerify_crash_safe small_disk (go! "a") (go! ".msync-1.tmp") (sum256 (go! "new")) ([go! "ne"; go! "w"], None) 9
    crash_run.1.1 crash_run.1.2 None Hrun Hf) as (H1 & H2 & _). split; [exact H1 | exact H2].
Defined.
End crash_witness.

(** C21: materialise is safe against any peer: whatever blocks or errors the
    network produces, the only file it can change is the leaf's (plus created
    ancestor directories); it reports success only when the file at the leaf's
    path has the leaf's content hash, and otherwise leaves that path as it was. *)
Theorem materialise_verified `{OS, Digest, Unicode} absRoot cs files d leaf tmp now net d' r :
  fresh_temp d (Path leaf) tmp → materialise absRoot cs files d leaf tmp now net = (d', r) →
  install_state d (Path leaf) tmp (λ c, sum256 c = ContentHash leaf) d' ∧
  (r = MatOk → HashFile d' (Path leaf) = Some (ContentHash leaf)) ∧
  (r ≠ MatOk → d' !! Path leaf = d !! Path leaf).
Proof. apply materialise_good. Qed.

(** a rename costs no network: when some live file of the map holds the
    leaf's content on disk and the path can be written without an error, materialise succeeds
    whatever the network would have answered. *)
Theorem materialise_reuses_local `{OS, Digest, Unicode} absRoot cs files d leaf tmp now net src content :
  Type_ leaf = TypeFile → noClobberConflict absRoot cs d (Path leaf) = None →
  localSource files d (ContentHash leaf) (Path leaf) = Some src → read_file d src = Some content →
  (MkdirAll d (parents (Path leaf))).2 = true → d !! Path leaf ≠ Some EDir → net.2 = None →
  (materialise absRoot cs files d leaf tmp now net).2 = MatOk.
Proof. apply materialise_local. Qed.

Section transfer_witness.
#[local] Existing Instance toy_digest.

Definition new_leaf (path : bytes) : FileInfo :=
  mkFileInfo path (sum256 (go! "old")) 3 420 7 [mkCounter 2 1] false TypeFile.

Lemma materialise_verified_witness :
  let run := materialise (go! "/r") false ∅ small_disk (new_leaf (go! "d/b")) (go! "d/.msync-1.tmp") 9 ([go! "evil"], None, None) in
  run.2 = MatFailed ∧
  install_state small_disk (go! "d/b") (go! "d/.msync-1.tmp") (λ c, sum256 c = sum256 (go! "old")) run.1 ∧
  run.1 !! go! "d/b" = None.
Proof.
  intros run. split; [vm_compute; reflexivity |].
  destruct (materialise_verified (go! "/r") false ∅ small_disk (new_leaf (go! "d/b")) (go! "d/.msync-1.tmp") 9 ([go! "evil"], None, None)
    run.1 run.2) as (H1 & _ & H3).
  - apply (bool_decide_unpack _). vm_compute. exact I.
  - apply surjective_pairing.
  - split; [exact H1 |]. apply H3. vm_compute. discriminate.
Defined.

Lemma materialise_reuses_local_witness :
  (materialise (go! "/r") false {[ go! "a" := new_leaf (go! "a") ]} small_disk (new_leaf (go! "b")) (go! ".msync-1.tmp") 9
    ([], Some ErrPeerGone, None)).2 = MatOk.
Proof.
  refine (materialise_reuses_local (go! "/r") false {[ go! "a" := new_leaf (go! "a") ]} small_disk (new_leaf (go! "b"))
    (go! ".msync-1.tmp") 9 ([], Some ErrPeerGone, None) (go! "a") (go! "old") _ _ _ _ _ _ _); try (vm_compute; reflexivity).
  vm_compute. discriminate.
Defined.

Lemma fetch_serve_roundtrip_witness :
  ∃ chunks, fetchOverWire (λ req, Ok (serveRequest small_disk req)) (new_leaf (go! "a")) 1 = (chunks, None) ∧
    concat chunks = go! "old".
Proof.
  refine (fetch_serve_roundtrip small_disk (new_leaf (go! "a")) (go! "a") (go! "old") 1 _ _ _ _); try (vm_compute; reflexivity).
Defined.
End transfer_witness.

(** serving never reads outside the file, whatever the request: an OK
    response carries exactly the requested range of the current content of the
    file at the request's canonical key, the length is in (0, MaxChunkLen], and
    an in-range request for a readable file is always served. *)
Theorem serveRequest_in_range `{OS, Digest, Unicode} d req key content :
  CanonicalizeSlash (rq_Path req) = Ok key → read_file d key = Some content →
  Z.of_nat (length content) < 2 ^ 63 → 0 ≤ rq_Offset req < 2 ^ 64 → 0 ≤ rq_Length req < 2 ^ 32 →
  let resp := serveRequest d req in
  rs_ReqID resp = rq_ReqID req ∧
  (rs_Code resp = CodeOK ↔ 0 < rq_Length req ≤ MaxChunkLen ∧ rq_Offset req + rq_Length req ≤ Z.of_nat (length content)) ∧
  (rs_Code resp = CodeOK →
    rs_Data resp = slice content (Z.to_nat (rq_Offset req)) (Z.to_nat (rq_Length req)) ∧
    Z.of_nat (length (rs_Data resp)) = rq_Length req).
Proof.
  intros Hk Hr Hs Ho Hl resp. unfold resp. rewrite (serveRequest_ok d req key content) by done.
  case_decide as Hd; cbn [rs_ReqID rs_Code rs_Data].
  - split_and!; [done | done |]. intros _. split; [done |]. apply slice_length; lia.
  - split_and!; [done | | done]. split; [done | tauto].
Qed.

Section serve_witness.
#[local] Existing Instance toy_digest.
Lemma serveRequest_in_range_witness :
  let req := mkRequest 5 (go! "a") zero32 (2 ^ 64 - 1) 2 in
  serveRequest small_disk req = mkResponse 5 CodeGeneric [] ∧
  (rs_Code (serveRequest small_disk req) = CodeOK ↔ 0 < 2 ≤ MaxChunkLen ∧ (2 ^ 64 - 1) + 2 ≤ 3).
Proof.
  intros req. split; [vm_compute; reflexivity |].
  destruct (serveRequest_in_range small_disk req (go! "a") (go! "old")) as (_ & H & _);
    [vm_compute; reflexivity | vm_compute; reflexivity | vm_compute; reflexivity | cbn; lia | cbn; lia |].
  exact H.
Defined.
End serve_witness.

(** the block count covers the file exactly for every size up to 2^64 - 32768:
    the last block starts inside the file and ends at or past its end. For the
    32767 larger sizes a uint64 can hold, the addition overflows and the count
    is zero, so such an advertised file is fetched as empty. *)
Theorem numBlocks_covers size :
  in_width 64 size →
  (size ≤ 2 ^ 64 - BlockSize →
    size ≤ numBlocks size * BlockSize ∧ (0 < size → (numBlocks size - 1) * BlockSize < size)) ∧
  (2 ^ 64 - BlockSize < size → numBlocks size = 0).
Proof.
  intros Hw. split.
  - intros Hs. destruct (numBlocks_ceil size) as [? | [-> ->]]; [width; lia | lia | lia].
  - intros Hs. unfold numBlocks. change BlockSize with 32768 in *. destruct (Z.eqb_spec size 0); [done |].
    width. rewrite <- (Z_mod_plus_full _ (-1)).
    rewrite Z.mod_small by lia. apply Z.div_small. lia.
Qed.

Lemma numBlocks_covers_witness :
  numBlocks 65537 = 3 ∧ numBlocks (2 ^ 64 - 1) = 0 ∧
  65537 ≤ numBlocks 65537 * BlockSize ∧ (0 < 65537 → (numBlocks 65537 - 1) * BlockSize < 65537).
Proof.
  split; [reflexivity |]. split; [reflexivity |].
  refine (proj1 (numBlocks_covers 65537 _) _); [width; lia | vm_compute; discriminate].
Defined.
