(* ===== verification/Replica.v ===== *)
(** * Replica: the recorded set of files and what is computed from it
    (internal/reconcile/broadcast.go, tombstone.go; rebuildLocked and the reseed
    of internal/reconcile/engine.go)

    [e.files] is a map from canonical keys to records; every handler of the
    engine keeps a record under its own path ([keyed]). Loops over the map whose
    iterations are independent are filters and maps of it. *)
From S2P Require Import Prelude Bytes VersionVector Messages Windows Pathnorm Hashing FileInfo Tree.
From S2P Require Import Conflict Scanner.

Notation Files := (gmap bytes FileInfo).

Definition keyed (files : Files) : Prop := map_Forall (λ k fi, Path fi = k) files.
#[export] Instance keyed_dec files : Decision (keyed files).
Proof. unfold keyed. apply _. Defined.

(** The records of the map, in Go's (unspecified) iteration order. *)
Definition set_of (files : Files) : list FileInfo := (map_to_list files).*2.

(** ** broadcast.go *)

Definition path_le (a b : FileInfo) : Prop := bytes_le (Path a) (Path b).
#[export] Instance path_le_dec : RelDecision path_le.
Proof. intros a b. unfold path_le. apply _. Defined.

Definition snapshotFilesLocked (files : Files) : list FileInfo := merge_sort path_le (set_of files).

Definition buildIndex `{Unicode} (folderID : bytes) (files : Files) : Result MerkleError Index :=
  let set := snapshotFilesLocked files in
  let! body := EncodeFileInfos set in
  Ok (mkIndex folderID (wrap 32 (Z.of_nat (length set))) body).

(** Not (b before a) in the comparison of orderCreatesBeforeDeletes. *)
Definition delta_le (a b : FileInfo) : Prop :=
  if decide (Deleted a = Deleted b) then bytes_le (Path a) (Path b) else Deleted a = false.
#[export] Instance delta_le_dec : RelDecision delta_le.
Proof. intros a b. unfold delta_le. case_decide; apply _. Defined.

Definition orderCreatesBeforeDeletes (delta : list FileInfo) : list FileInfo := merge_sort delta_le delta.

(** ** tombstone.go *)

Definition canGC (tomb : FileInfo) (peerIndex : Files) : bool :=
  match peerIndex !! Path tomb with
  | None => false
  | Some pf =>
    if negb (Deleted pf) then false
    else match Compare (Version pf) (Version tomb) with
         | Dominates | Equal => true
         | _ => false
         end
  end.

Definition collectable (peers : list Files) (fi : FileInfo) : bool := Deleted fi && forallb (canGC fi) peers.

Definition gcTombstonesLocked (peers : list Files) (files : Files) : Files * bool :=
  match peers with
  | [] => (files, false)
  | _ =>
    (filter (λ '(_, fi), collectable peers fi = false) files, existsb (collectable peers) (set_of files))
  end.

Definition dropFromVV (vv : VersionVector) (id : Z) : VersionVector := filter (λ c, ID c ≠ id) vv.

Definition dropCounterLocked (id : Z) (files : Files) : Files * bool :=
  let drop fi := dropFromVV (Version fi) id in
  ((λ fi, if negb (IsEqual (drop fi) (Version fi)) then set_version fi (drop fi) else fi) <$> files,
   existsb (λ fi, negb (IsEqual (drop fi) (Version fi))) (set_of files)).

(** The distinct ShortIDs outside the paired set, in order of first sight. *)
Definition dead_step (paired : list Z) (dead : list Z) (id : Z) : list Z :=
  if bool_decide (id ∈ paired) || bool_decide (id ∈ dead) then dead else dead ++ [id].
Definition dead_ids (paired : list Z) (files : Files) : list Z :=
  foldl (dead_step paired) [] (concat ((λ fi, ID <$> Version fi) <$> set_of files)).

(** [paired] is None when the paired set is not known. *)
Definition sweepDepairedCountersLocked (paired : option (list Z)) (files : Files) : Files * bool :=
  match paired with
  | None => (files, false)
  | Some paired =>
    foldl (λ '(files, changed) id, let '(files', c) := dropCounterLocked id files in (files', changed || c))
      (files, false) (dead_ids paired files)
  end.

(** ** engine.go *)

(** The body of the loop of doReseed: the reseeded record, when there is one. *)
Definition reseed_one (self : Z) (index : Files) (path : bytes) (lf : FileInfo) : option FileInfo :=
  if Deleted lf || negb (bool_decide (Version lf = [])) then None
  else match index !! path with
  | None => None
  | Some pf =>
    if Deleted pf then None
    else
      let merged := Version pf in
      Some (set_version lf (if decide (ContentHash lf = ContentHash pf) then merged else Bump merged self))
  end.
Definition reseed_files (self : Z) (index files : Files) : Files * list FileInfo :=
  (map_imap (λ path lf, Some (default lf (reseed_one self index path lf))) files,
   omap (λ '(path, lf), reseed_one self index path lf) (map_to_list files)).

Definition rebuildLocked `{Digest} (files : Files) (tree : option Node) : option Node :=
  match BuildTree (set_of files) with Err _ => tree | Ok t => Some t end.

(** ** Keyed maps *)

Lemma elem_of_set_of files fi : fi ∈ set_of files ↔ ∃ k, files !! k = Some fi.
Proof.
  unfold set_of. rewrite list_elem_of_fmap. split.
  - intros ([k fi'] & -> & Hin%elem_of_map_to_list). by exists k.
  - intros [k Hk]. exists (k, fi). split; [done |]. by apply elem_of_map_to_list.
Qed.

Lemma keyed_elem files fi : keyed files → fi ∈ set_of files ↔ files !! Path fi = Some fi.
Proof.
  intros Hk. rewrite elem_of_set_of. split; [| eauto]. intros [k Hin]. by rewrite (Hk k fi Hin).
Qed.

Lemma keyed_insert files k fi : keyed files → Path fi = k → keyed (<[k := fi]> files).
Proof. intros Hk Hp. by apply map_Forall_insert_2. Qed.
Lemma keyed_empty : keyed ∅.
Proof. apply map_Forall_empty. Qed.
Lemma keyed_filter (P : bytes * FileInfo → Prop) `{∀ x, Decision (P x)} files : keyed files → keyed (filter P files).
Proof. intros Hk k fi Hin%map_lookup_filter_Some_1_1. by apply Hk. Qed.
Lemma keyed_fmap f files : (∀ fi, Path (f fi) = Path fi) → keyed files → keyed (f <$> files).
Proof. intros Hf Hk k fi Hin. rewrite lookup_fmap_Some in Hin. destruct Hin as (x & <- & Hx). rewrite Hf. by apply Hk. Qed.
Lemma keyed_files_of set : keyed (files_of set).
Proof.
  induction set as [|fi set IH] using rev_ind; [apply keyed_empty |].
  rewrite files_of_snoc. by apply keyed_insert.
Qed.
#[export] Hint Resolve keyed_insert keyed_empty keyed_files_of : replica.

Lemma NoDup_paths files : keyed files → NoDup (Path <$> set_of files).
Proof.
  intros Hk. unfold set_of. rewrite <- list_fmap_compose.
  rewrite (list_fmap_ext _ fst (map_to_list files)); [apply NoDup_fst_map_to_list |].
  intros i [k fi] Hi. simpl. apply Hk. apply elem_of_map_to_list. by eapply list_elem_of_lookup_2.
Qed.

Lemma snapshot_perm files : snapshotFilesLocked files ≡ₚ set_of files.
Proof. apply merge_sort_Permutation. Qed.

Lemma files_of_snapshot files : keyed files → files_of (snapshotFilesLocked files) = files.
Proof.
  intros Hk. apply map_eq. intros k. apply option_eq. intros fi.
  rewrite files_of_lookup by (rewrite (snapshot_perm files); by apply NoDup_paths).
  rewrite snapshot_perm, keyed_elem by done. split; [by intros [Hin <-] |]. intros Hin.
  pose proof (Hk k fi Hin) as Hp. by rewrite Hp.
Qed.

(** ** Orders *)

#[export] Instance path_le_total : Total path_le.
Proof. intros a b. apply (total bytes_le). Qed.
#[export] Instance delta_le_total : Total delta_le.
Proof.
  intros a b. unfold delta_le. repeat case_decide; try congruence; [apply (total bytes_le) |].
  destruct (Deleted a), (Deleted b); naive_solver.
Qed.
#[export] Instance delta_le_trans : Transitive delta_le.
Proof.
  intros a b c. unfold delta_le. repeat case_decide; try congruence; [apply transitivity | ..].
  all: destruct (Deleted a), (Deleted b), (Deleted c); naive_solver.
Qed.

(** ** Tombstone collection *)

(** The peer advertises a deletion of the path at least as recent as [tomb]. *)
Definition acked (index : Files) (tomb : FileInfo) : Prop :=
  ∃ pf, index !! Path tomb = Some pf ∧ Deleted pf = true ∧ ∀ id, vget (Version tomb) id ≤ vget (Version pf) id.

Definition canonical_files (files : Files) : Prop := map_Forall (λ _ fi, canonical (Version fi)) files.

Lemma canonical_files_of set : Forall (λ fi, canonical (Version fi)) set → canonical_files (files_of set).
Proof.
  induction set as [|fi set IH] using rev_ind; [intros _; apply map_Forall_empty |].
  rewrite Forall_app, Forall_singleton, files_of_snoc. intros [Hs Hfi]. apply map_Forall_insert_2; [done | by apply IH].
Qed.

Lemma canGC_acked tomb index :
  canonical (Version tomb) → canonical_files index → canGC tomb index = true ↔ acked index tomb.
Proof.
  intros Ht Hi. unfold canGC, acked. destruct (index !! Path tomb) as [pf |] eqn:Hp; [| naive_solver].
  pose proof (Hi _ _ Hp) as Hpf. simpl in Hpf.
  destruct (Deleted pf) eqn:Hd; cbn [negb]; [| naive_solver].
  assert ((match Compare (Version pf) (Version tomb) with Dominates | Equal => true | _ => false end) = true ↔
          ∀ id, vget (Version tomb) id ≤ vget (Version pf) id) as ->; [| naive_solver].
  rewrite <- not_exceeds. pose proof (Compare_vget _ _ Hpf Ht) as Hv.
  destruct (Compare _ _); simpl in Hv; intuition congruence.
Qed.

Lemma collectable_iff peers fi :
  canonical (Version fi) → Forall canonical_files peers →
  collectable peers fi = true ↔ Deleted fi = true ∧ Forall (λ p, acked p fi) peers.
Proof.
  intros Hfi Hp. unfold collectable. rewrite andb_true_iff, forallb_forall, Forall_forall.
  setoid_rewrite <- list_elem_of_In. rewrite Forall_forall in Hp.
  split; intros [? Hall]; (split; [done |]); intros p Hin; specialize (Hall p Hin); by apply canGC_acked in Hall || apply canGC_acked; auto.
Qed.

Lemma gc_lookup peers files k fi :
  (gcTombstonesLocked peers files).1 !! k = Some fi ↔
  files !! k = Some fi ∧ (peers = [] ∨ collectable peers fi = false).
Proof.
  unfold gcTombstonesLocked. destruct peers as [|p peers]; [naive_solver |]. cbn [fst].
  rewrite map_lookup_filter_Some. naive_solver.
Qed.

Lemma gc_keyed peers files : keyed files → keyed (gcTombstonesLocked peers files).1.
Proof. intros Hk k fi [Hin _]%gc_lookup. by apply Hk. Qed.

(** ** Dropping counters *)

Lemma elem_dropFromVV vv id c : c ∈ dropFromVV vv id ↔ c ∈ vv ∧ ID c ≠ id.
Proof. unfold dropFromVV. rewrite list_elem_of_filter. tauto. Qed.

Lemma canonical_filter (P : Counter → Prop) `{∀ c, Decision (P c)} vv : canonical vv → canonical (filter P vv).
Proof.
  induction vv as [|c vv IH]; [done |]. rewrite canonical_cons. intros (Hv & Hlt & Hc). rewrite filter_cons.
  case_decide; [| by apply IH]. rewrite canonical_cons. split_and!; [done | | by apply IH].
  rewrite Forall_forall in Hlt |- *. intros d Hd%list_elem_of_filter. naive_solver.
Qed.

Lemma vget_filter (P : Z → Prop) `{∀ id, Decision (P id)} vv id :
  canonical vv → vget (filter (λ c, P (ID c)) vv) id = if decide (P id) then vget vv id else 0.
Proof.
  induction vv as [|c vv IH]; [by case_decide |]. rewrite canonical_cons. intros (Hv & Hlt & Hc).
  specialize (IH Hc). rewrite filter_cons. destruct (decide (P (ID c))) as [Hp | Hp]; cbn [vget].
  - destruct (Z.eqb_spec (ID c) id) as [<- |]; [by rewrite decide_True | done].
  - rewrite IH. destruct (Z.eqb_spec (ID c) id) as [<- |]; [by case_decide | done].
Qed.

Lemma IsEqual_iff a b : IsEqual a b = true ↔ a = b.
Proof.
  unfold IsEqual. rewrite andb_true_iff, bool_decide_eq_true.
  revert b. induction a as [|x a IH]; intros [|y b]; simpl; [done | by split; [intros [? _] |] | by split; [intros [? _] |] |].
  rewrite andb_true_iff, bool_decide_eq_true. specialize (IH b). split; [| naive_solver].
  intros (Hl & -> & Hf). f_equal. apply IH. auto with lia.
Qed.

Lemma set_version_same fi : set_version fi (Version fi) = fi.
Proof. by destruct fi. Qed.

Definition prune (keep : Z → Prop) `{∀ id, Decision (keep id)} (fi : FileInfo) : FileInfo :=
  set_version fi (filter (λ c, keep (ID c)) (Version fi)).

Lemma vget_prune keep `{∀ id, Decision (keep id)} fi id :
  canonical (Version fi) → vget (Version (prune keep fi)) id = if decide (keep id) then vget (Version fi) id else 0.
Proof. apply (vget_filter keep). Qed.

Lemma prune_canonical keep `{∀ id, Decision (keep id)} files :
  canonical_files files → canonical_files (prune keep <$> files).
Proof.
  intros Hc k fi Hin. rewrite lookup_fmap_Some in Hin. destruct Hin as (x & <- & Hx).
  apply canonical_filter. by apply (Hc k).
Qed.

Lemma changed_iff (f : FileInfo → FileInfo) files :
  (∃ fi, fi ∈ set_of files ∧ f fi ≠ fi) ↔ f <$> files ≠ files.
Proof.
  split.
  - intros (fi & [k Hk]%elem_of_set_of & Hne) Heq. apply Hne. apply (inj Some).
    apply (f_equal (lookup k)) in Heq. by rewrite lookup_fmap, Hk in Heq.
  - intros Hne. destruct (decide (Exists (λ fi, f fi ≠ fi) (set_of files))) as [He | He].
    + by apply Exists_exists in He.
    + exfalso. apply Hne, map_eq. intros k. rewrite lookup_fmap. destruct (files !! k) as [fi |] eqn:Hk; [| done].
      simpl. f_equal. destruct (decide (f fi = fi)); [done |]. exfalso. apply He, Exists_exists.
      exists fi. split; [| done]. apply elem_of_set_of. eauto.
Qed.

Lemma dropCounter_prune id files :
  canonical_files files →
  (dropCounterLocked id files).1 = prune (λ i, i ≠ id) <$> files ∧
  ((dropCounterLocked id files).2 = true ↔ prune (λ i, i ≠ id) <$> files ≠ files).
Proof.
  intros Hc.
  assert (∀ k fi, files !! k = Some fi →
    IsEqual (dropFromVV (Version fi) id) (Version fi) = true ↔ prune (λ i, i ≠ id) fi = fi) as Heq.
  { intros k fi Hk. pose proof (Hc k fi Hk) as Hfi. simpl in Hfi.
    rewrite IsEqual_iff. unfold prune, dropFromVV. split.
    - intros ->. apply set_version_same.
    - intros Hp. by apply (f_equal Version) in Hp. }
  split.
  - apply map_eq. intros k. cbn [fst dropCounterLocked]. rewrite !lookup_fmap. destruct (files !! k) as [fi |] eqn:Hk; [| done].
    simpl. f_equal. destruct (IsEqual _ _) eqn:He; cbn [negb]; [| done]. symmetry. by apply (Heq k fi).
  - rewrite <- changed_iff. cbn [snd dropCounterLocked]. rewrite existsb_exists. setoid_rewrite <- list_elem_of_In.
    split; intros (fi & Hin & Hne); exists fi; (split; [done |]); apply elem_of_set_of in Hin as [k Hk].
    + intros Hp. by rewrite (proj2 (Heq k fi Hk) Hp) in Hne.
    + destruct (IsEqual _ _) eqn:He; [| done]. by apply (Heq k fi) in He.
Qed.

Lemma dead_step_elem paired l dead id :
  id ∈ foldl (dead_step paired) dead l ↔ id ∈ dead ∨ (id ∈ l ∧ id ∉ paired).
Proof.
  revert dead. induction l as [|x l IH]; intros dead; simpl; [rewrite elem_of_nil; tauto |].
  rewrite IH. unfold dead_step. repeat case_bool_decide; simpl; rewrite ?elem_of_app, ?list_elem_of_singleton, ?elem_of_cons; naive_solver.
Qed.

Lemma dead_ids_elem paired files id :
  id ∈ dead_ids paired files ↔ id ∉ paired ∧ ∃ fi, fi ∈ set_of files ∧ id ∈ ID <$> Version fi.
Proof.
  unfold dead_ids. rewrite dead_step_elem, elem_of_nil, list_elem_of_In, in_concat. setoid_rewrite <- list_elem_of_In. split.
  - intros [[] | [(vs & Hvs%list_elem_of_fmap & Hid) ?]]. naive_solver.
  - intros [Hn (fi & Hin & Hid)]. right. split; [| done]. exists (ID <$> Version fi).
    split; [| done]. apply list_elem_of_fmap. eauto.
Qed.

Lemma prune_prune (P Q : Z → Prop) `{∀ id, Decision (P id)} `{∀ id, Decision (Q id)} fi :
  prune Q (prune P fi) = prune (λ id, Q id ∧ P id) fi.
Proof. unfold prune. destruct fi as [? ? ? ? ? vv ? ?]. unfold set_version. simpl. f_equal. by rewrite list_filter_filter. Qed.

Lemma prune_ext (P Q : Z → Prop) `{∀ id, Decision (P id)} `{∀ id, Decision (Q id)} fi :
  (∀ id, id ∈ ID <$> Version fi → P id ↔ Q id) → prune P fi = prune Q fi.
Proof.
  intros Hpq. unfold prune. f_equal. destruct fi as [? ? ? ? ? vv ? ?]. simpl in *.
  induction vv as [|c vv IH]; [done |]. simpl in Hpq. setoid_rewrite elem_of_cons in Hpq. rewrite !filter_cons.
  specialize (IH ltac:(naive_solver)). pose proof (Hpq (ID c) ltac:(by left)). repeat case_decide; [by rewrite IH | tauto | tauto | done].
Qed.


Lemma prune_same keep `{∀ id, Decision (keep id)} fi : (∀ id, id ∈ ID <$> Version fi → keep id) → prune keep fi = fi.
Proof.
  intros Hk. unfold prune. rewrite <- (set_version_same fi) at 3. f_equal.
  revert Hk. generalize (Version fi). intros vv Hk. induction vv as [|c vv IH]; [done |]. rewrite filter_cons.
  rewrite decide_True by (apply Hk; set_solver). f_equal. apply IH. set_solver.
Qed.

(** Dropping the dead counters one after the other prunes to the living ones. *)
Definition drop_step (acc : Files * bool) (id : Z) : Files * bool :=
  let '(files', c) := dropCounterLocked id acc.1 in (files', acc.2 || c).

Lemma drop_all ids files b :
  canonical_files files →
  (foldl drop_step (files, b) ids).1 = prune (λ i, i ∉ ids) <$> files ∧
  ((foldl drop_step (files, b) ids).2 = true ↔ b = true ∨ prune (λ i, i ∉ ids) <$> files ≠ files).
Proof.
  revert files b. induction ids as [|id ids IH]; intros files b Hc; cbn [foldl].
  - match goal with |- context [?p <$> files] => assert (p <$> files = files) as -> end; [| naive_solver].
    rewrite <- (map_fmap_id files) at 2. apply map_fmap_ext. intros k fi _. apply prune_same. set_solver.
  - unfold drop_step at 2 4. cbn [fst snd]. destruct (dropCounter_prune id files Hc) as [H1 H2].
    destruct (dropCounterLocked id files) as [files1 c]. cbn [fst snd] in *. subst files1.
    destruct (IH (prune (λ i, i ≠ id) <$> files) (b || c)) as [H3 H4]; [by apply prune_canonical |].
    assert (prune (λ i, i ∉ ids) <$> (prune (λ i, i ≠ id) <$> files) = prune (λ i, i ∉ id :: ids) <$> files) as Hpp.
    { rewrite <- map_fmap_compose. apply map_fmap_ext. intros k fi _. simpl. rewrite prune_prune.
      apply prune_ext. set_solver. }
    rewrite Hpp in *. split; [done |]. rewrite H4, orb_true_iff, H2.
    assert (prune (λ i, i ∉ id :: ids) <$> files = files → prune (λ i, i ≠ id) <$> files = files) as Hmore.
    { intros Heq. rewrite <- Heq at 1. rewrite <- Heq at 2. rewrite <- map_fmap_compose.
      apply map_fmap_ext. intros k fi _. simpl. rewrite prune_prune. apply prune_ext. set_solver. }
    destruct (decide (prune (λ i, i ≠ id) <$> files = files)) as [Hd | Hd]; [rewrite Hd; tauto | tauto].
Qed.

Lemma sweep_prune paired files :
  canonical_files files →
  (sweepDepairedCountersLocked (Some paired) files).1 = prune (λ i, i ∈ paired) <$> files ∧
  ((sweepDepairedCountersLocked (Some paired) files).2 = true ↔ prune (λ i, i ∈ paired) <$> files ≠ files).
Proof.
  intros Hc. unfold sweepDepairedCountersLocked.
  assert (prune (λ i, i ∉ dead_ids paired files) <$> files = prune (λ i, i ∈ paired) <$> files) as <-.
  { apply map_fmap_ext. intros k fi Hk. apply prune_ext. intros id Hid. rewrite dead_ids_elem.
    destruct (decide (id ∈ paired)) as [Hp | Hp]; [tauto |]. split; [| done]. intros Hn. exfalso. apply Hn.
    split; [done |]. exists fi. split; [| done]. apply elem_of_set_of. eauto. }
  destruct (drop_all (dead_ids paired files) files false Hc) as [H1 H2].
  assert (∀ l acc, foldl (λ '(files, changed) id, let '(files', c) := dropCounterLocked id files in (files', changed || c)) acc l =
                 foldl drop_step acc l) as ->; [| split; [done |]; rewrite H2; naive_solver].
  induction l as [|x l IHl]; intros acc; [done |]. simpl. rewrite IHl. by destruct acc.
Qed.

(** ** Reseeding *)

Lemma reseed_lookup self index files k :
  (reseed_files self index files).1 !! k =
  (λ lf, default lf (reseed_one self index k lf)) <$> files !! k.
Proof. unfold reseed_files. cbn [fst]. rewrite map_lookup_imap. by destruct (files !! k). Qed.

Lemma reseed_bumped self index files fi :
  fi ∈ (reseed_files self index files).2 ↔ ∃ k lf, files !! k = Some lf ∧ reseed_one self index k lf = Some fi.
Proof.
  unfold reseed_files. cbn [snd]. rewrite list_elem_of_omap. split.
  - intros ([k lf] & Hin%elem_of_map_to_list & Hr). eauto.
  - intros (k & lf & Hin & Hr). exists (k, lf). split; [by apply elem_of_map_to_list | done].
Qed.

Lemma reseed_one_path self index k lf fi : reseed_one self index k lf = Some fi → Path fi = Path lf.
Proof. unfold reseed_one. repeat case_match; naive_solver. Qed.

Lemma reseed_keyed self index files : keyed files → keyed (reseed_files self index files).1.
Proof.
  intros Hk k fi. rewrite reseed_lookup, fmap_Some. intros (lf & Hin & ->).
  destruct (reseed_one self index k lf) as [fi |] eqn:Hr; simpl; [| by apply Hk].
  rewrite (reseed_one_path _ _ _ _ _ Hr). by apply Hk.
Qed.
#[export] Hint Resolve gc_keyed reseed_keyed : replica.

(** * Properties *)

(** index exchange is faithful: the INDEX a peer builds of a set of files that
    fits the wire grammar is decoded by the receiver to a set that, recorded by
    path as onIndex does, is exactly the sender's map. *)
Theorem index_exchange `{Unicode} folderID files :
  keyed files → Forall wire_ok (set_of files) → in_width 32 (Z.of_nat (size files)) →
  ∃ m set, buildIndex folderID files = Ok m ∧ ix_Count m = Z.of_nat (size files) ∧
           DecodeFileInfos (ix_Body m) = Ok set ∧ files_of set = files.
Proof.
  intros Hk Hok Hlen. pose proof (snapshot_perm files) as Hp.
  assert (length (snapshotFilesLocked files) = size files) as Hsz.
  { rewrite Hp. unfold set_of. by rewrite length_fmap, length_map_to_list. }
  destruct (FileInfos_encode_decode (snapshotFilesLocked files)) as (b & He & Hd); [by rewrite Hp | by rewrite Hsz |].
  exists (mkIndex folderID (wrap 32 (Z.of_nat (size files))) b), (snapshotFilesLocked files).
  unfold buildIndex. rewrite He, Hsz. cbn [rbind ix_Count ix_Body]. split_and!; [done | by apply wrap_small | done |].
  by apply files_of_snapshot.
Qed.

Lemma index_exchange_witness :
  let files := files_of [sample_file; sample_link] in
  ∃ m set, buildIndex (go! "folder") files = Ok m ∧ ix_Count m = Z.of_nat (size files) ∧
           DecodeFileInfos (ix_Body m) = Ok set ∧ files_of set = files.
Proof.
  refine (index_exchange (go! "folder") (files_of [sample_file; sample_link]) _ _ _).
  - apply keyed_files_of.
  - change (set_of _) with [sample_file; sample_link].
    apply Forall_cons_2; [| apply Forall_cons_2; [| constructor]].
    all: split; [split | ..]; cbn; try reflexivity; try (width; lia); try lia; try vv_concrete.
    all: first [apply Forall_cons_2; [cbn; width; lia | constructor] | constructor].
  - change (size _) with 2%nat. width. lia.
Defined.

(** a broadcast batch is a reordering of the changed records in which every live
    record precedes every tombstone, so the create half of a rename is never
    behind the deletion of its source; each half is in path order. *)
Theorem orderCreatesBeforeDeletes_correct delta :
  orderCreatesBeforeDeletes delta ≡ₚ delta ∧
  ∀ i j a b, (i < j)%nat → orderCreatesBeforeDeletes delta !! i = Some a →
    orderCreatesBeforeDeletes delta !! j = Some b →
    (Deleted a = true → Deleted b = true) ∧ (Deleted a = Deleted b → bytes_le (Path a) (Path b)).
Proof.
  split; [apply merge_sort_Permutation |]. intros i j a b Hij Ha Hb.
  pose proof (StronglySorted_merge_sort delta_le delta) as Hs.
  assert (delta_le a b) as Hd by (by eapply StronglySorted_at).
  unfold delta_le in Hd. case_decide as He; [split; [congruence | done] |]. split; [congruence | done].
Qed.

(** C36: tombstone collection is safe: with peers connected it removes exactly the
    tombstones that every one of them has acknowledged by advertising a deletion of
    the path at least as recent; a live record, or any record when no peer is
    connected, is never removed; and it reports a change exactly when it made one. *)
Theorem gcTombstonesLocked_sound peers files k fi :
  canonical_files files → Forall canonical_files peers → files !! k = Some fi →
  ((gcTombstonesLocked peers files).1 !! k = None ↔
     peers ≠ [] ∧ Deleted fi = true ∧ Forall (λ p, acked p fi) peers) ∧
  ((gcTombstonesLocked peers files).1 !! k = None ∨ (gcTombstonesLocked peers files).1 !! k = Some fi) ∧
  ((gcTombstonesLocked peers files).2 = true ↔ (gcTombstonesLocked peers files).1 ≠ files).
Proof.
  intros Hf Hp Hk. pose proof (Hf k fi Hk) as Hfi. simpl in Hfi. pose proof (collectable_iff peers fi Hfi Hp) as Hc.
  assert ((gcTombstonesLocked peers files).1 !! k = Some fi ↔ peers = [] ∨ collectable peers fi = false) as Hl.
  { rewrite gc_lookup. tauto. }
  assert ((gcTombstonesLocked peers files).1 !! k = None ∨ (gcTombstonesLocked peers files).1 !! k = Some fi) as Hor.
  { destruct ((gcTombstonesLocked peers files).1 !! k) as [x |] eqn:Hx; [right | by left].
    apply gc_lookup in Hx as [Hx _]. congruence. }
  split_and!; [| done |].
  - destruct (collectable peers fi) eqn:Hcf.
    + destruct (decide (peers = [])) as [-> | Hne]; [split; [| tauto]; intros Hn; rewrite (proj2 Hl) in Hn; [done | by left] |].
      split; [tauto |]. intros _. destruct Hor as [|Hs]; [done |]. apply Hl in Hs as [? | ?]; done.
    + split; [intros Hn; rewrite (proj2 Hl) in Hn; [done | by right] |]. intros (_ & Hcol). apply Hc in Hcol. congruence.
  - split.
    { unfold gcTombstonesLocked. destruct peers as [|p peers]; [done |]. cbn [fst snd].
      intros (x & Hx%list_elem_of_In & Hcx)%existsb_exists Heq. apply elem_of_set_of in Hx as [k' Hx].
      rewrite <- Heq in Hx. apply map_lookup_filter_Some in Hx as [_ Hx]. cbn in Hx. congruence. }
    intros Hne. apply not_false_iff_true. intros Hch. apply Hne. apply map_eq. intros k'. apply option_eq. intros x. rewrite gc_lookup.
    split; [tauto |]. intros Hx. split; [done |]. unfold gcTombstonesLocked in Hch. destruct peers as [|p peers]; [by left | right].
    destruct (collectable (p :: peers) x) eqn:Hcx; [exfalso | done].
    assert (existsb (collectable (p :: peers)) (set_of files) = true); [| by simpl in Hch; congruence].
    apply existsb_exists. exists x. split; [| done]. apply list_elem_of_In, elem_of_set_of. eauto.
Qed.

Definition tombstone_at (path : bytes) (vv : VersionVector) : FileInfo :=
  mkFileInfo path zero32 0 420 0 vv true TypeFile.

Lemma gcTombstonesLocked_sound_witness :
  let tomb := tombstone_at (go! "gone") [mkCounter 1 2] in
  let files := files_of [tomb] in
  let peers := [files_of [tombstone_at (go! "gone") [mkCounter 1 2; mkCounter 2 1]]] in
  (gcTombstonesLocked peers files).1 !! go! "gone" = None ∧ Forall (λ p, acked p tomb) peers.
Proof.
  intros tomb files peers.
  destruct (gcTombstonesLocked_sound peers files (go! "gone") tomb) as [H1 _].
  - apply canonical_files_of, Forall_singleton. vv_concrete.
  - apply Forall_singleton, canonical_files_of, Forall_singleton. vv_concrete.
  - reflexivity.
  - assert ((gcTombstonesLocked peers files).1 !! go! "gone" = None) as Hn by (vm_compute; reflexivity).
    split; [exact Hn |]. exact (proj2 (proj2 (proj1 H1 Hn))).
Defined.

(** the de-pair sweep removes from every record exactly the counters of devices
    outside the paired set: every paired device keeps its counter, every other
    device counts 0, no other field changes, vectors stay canonical, and a change
    is reported exactly when there is one; with an unknown paired set nothing
    changes. *)
Theorem sweepDepairedCountersLocked_correct paired files :
  canonical_files files →
  let '(files', changed) := sweepDepairedCountersLocked (Some paired) files in
  canonical_files files' ∧ (changed = true ↔ files' ≠ files) ∧
  (∀ k, files' !! k = None ↔ files !! k = None) ∧
  (∀ k fi, files !! k = Some fi → ∃ vv, files' !! k = Some (set_version fi vv) ∧
     ∀ id, vget vv id = if decide (id ∈ paired) then vget (Version fi) id else 0) ∧
  sweepDepairedCountersLocked None files = (files, false).
Proof.
  intros Hc. destruct (sweep_prune paired files Hc) as [H1 H2].
  destruct (sweepDepairedCountersLocked (Some paired) files) as [files' changed]. cbn [fst snd] in *. subst files'.
  split_and!; [by apply prune_canonical | done | intros k; by rewrite lookup_fmap, fmap_None | | done].
  intros k fi Hk. exists (Version (prune (λ i, i ∈ paired) fi)). rewrite lookup_fmap, Hk. split; [done |]. intros id.
  rewrite vget_prune by apply (Hc k fi Hk). by repeat case_decide.
Qed.

Lemma sweepDepairedCountersLocked_correct_witness :
  let files := files_of [tombstone_at (go! "x") [mkCounter 1 2; mkCounter 9 4]] in
  canonical_files files ∧ (sweepDepairedCountersLocked (Some [1; 2]) files).2 = true ∧
  (sweepDepairedCountersLocked (Some [1; 2]) files).1 ≠ files.
Proof.
  intros files. assert (canonical_files files) as Hc by (apply canonical_files_of, Forall_singleton; vv_concrete).
  split; [exact Hc |]. assert ((sweepDepairedCountersLocked (Some [1; 2]) files).2 = true) as Hs by (vm_compute; reflexivity).
  split; [exact Hs |]. pose proof (sweepDepairedCountersLocked_correct [1; 2] files Hc) as Hsw.
  destruct (sweepDepairedCountersLocked (Some [1; 2]) files) as [files' changed]. exact (proj1 (proj1 (proj2 Hsw)) Hs).
Defined.

(** reseeding asserts authorship only where it is due: only a live record with an
    empty version (the signature of a wiped history), for which the peer
    advertises a live record, is touched, and only its version changes: equal
    content adopts the peer's version, different content a version that dominates
    it; the broadcast batch is exactly the touched records. *)
Theorem doReseed_correct self index files k lf :
  canonical_files index → files !! k = Some lf →
  (∀ pf, index !! k = Some pf → Get (Version pf) self < 2 ^ 64 - 1) →
  let '(files', bumped) := reseed_files self index files in
  match reseed_one self index k lf with
  | None => files' !! k = Some lf ∧ (Deleted lf = true ∨ Version lf ≠ [] ∨ index !! k = None ∨ ∃ pf, index !! k = Some pf ∧ Deleted pf = true)
  | Some lf' => files' !! k = Some lf' ∧ lf' ∈ bumped ∧ Deleted lf = false ∧ Version lf = [] ∧
      lf' = set_version lf (Version lf') ∧
      ∃ pf, index !! k = Some pf ∧ Deleted pf = false ∧
        Compare (Version lf') (Version pf) = if decide (ContentHash lf = ContentHash pf) then Equal else Dominates
  end.
Proof.
  intros Hc Hk Hb. pose proof (reseed_lookup self index files k) as Hl. rewrite Hk in Hl. cbn [fmap option_fmap option_map] in Hl.
  pose proof (λ fi, reseed_bumped self index files fi) as Hbump.
  destruct (reseed_files self index files) as [files' bumped]. cbn [fst snd] in *.
  destruct (reseed_one self index k lf) as [lf' |] eqn:Hr; simpl in Hl.
  - assert (lf' ∈ bumped) as Hin by (apply Hbump; eauto). unfold reseed_one in Hr.
    destruct (Deleted lf) eqn:Hd; [done |]. case_bool_decide as Hv; [| done]. simpl in Hr.
    destruct (index !! k) as [pf |] eqn:Hi; [| done]. destruct (Deleted pf) eqn:Hpd; [done |].
    apply (inj Some) in Hr. pose proof (Hc k pf Hi) as Hpf. simpl in Hpf.
    split_and!; [done | done | done | done | by subst lf' |]. exists pf. split_and!; [done | done |].
    subst lf'. case_decide; simpl; [by apply Compare_Equal |]. apply Bump_step; [done | by apply Hb].
  - split; [done |]. unfold reseed_one in Hr. destruct (Deleted lf); [by left |]. case_bool_decide; [| by right; left].
    simpl in Hr. destruct (index !! k) as [pf |]; [| by right; right; left].
    destruct (Deleted pf) eqn:Hpd; [| done]. right; right; right. eauto.
Qed.

Definition peer_copy : FileInfo := mkFileInfo (go! "f") (repeat "a"%char 32) 0 420 0 [mkCounter 5 3] false TypeFile.

Lemma doReseed_correct_witness :
  let lf := file_at (go! "f") [] in
  let lf' := set_version lf [mkCounter 5 3; mkCounter 7 1] in
  reseed_one 7 (files_of [peer_copy]) (go! "f") lf = Some lf' ∧
  (reseed_files 7 (files_of [peer_copy]) (files_of [lf])).1 !! go! "f" = Some lf' ∧
  Compare (Version lf') (Version peer_copy) = Dominates.
Proof.
  intros lf lf'. assert (reseed_one 7 (files_of [peer_copy]) (go! "f") lf = Some lf') as Hr by (vm_compute; reflexivity).
  split; [exact Hr |].
  assert (files_of [peer_copy] !! go! "f" = Some peer_copy) as Hi by (vm_compute; reflexivity).
  pose proof (doReseed_correct 7 (files_of [peer_copy]) (files_of [lf]) (go! "f") lf) as Hd.
  destruct (reseed_files 7 (files_of [peer_copy]) (files_of [lf])) as [files' bumped]. rewrite Hr in Hd.
  destruct Hd as (H1 & _ & _ & _ & _ & pf & H2 & _ & H3).
  - apply canonical_files_of, Forall_singleton. vv_concrete.
  - vm_compute. reflexivity.
  - intros pf Hpf. rewrite Hi in Hpf. apply (inj Some) in Hpf as <-. vm_compute. reflexivity.
  - split; [exact H1 |]. rewrite Hi in H2. apply (inj Some) in H2 as <-. exact H3.
Defined.
