(* ===== verification/Engine.v ===== *)
(** * Engine: the reconcile core (internal/reconcile/engine.go, scanloop.go's consumer side)

    The engine is one record; a handler of the select loop is a function from
    engine to engine, the per-peer goroutines contribute the steps
    [puller_step] and [server_step], and [step] interleaves them all with the
    user, who may change the disk at any moment. A peerState is shared by pointer
    (the map of peers, its goroutines), so they live in a store [e_states] and are
    named by addresses; [e_peers] maps a device to the address of its current
    connection. [e_sent] logs every message the engine hands to a connection's Send, in
    order; what Send does with it (queue it, or close a connection whose buffer is full)
    is [Transport.Send], and the engine looks at the result nowhere but in requestChunk,
    whose caller then gives up ([Rpc]). *)
From S2P Require Import Prelude Bytes VersionVector Framing Messages Windows Pathnorm Hashing.
From S2P Require Import FileInfo Tree Oracle Differ Conflict Scanner Disk Transfer Replica.

(** ** Data *)

Definition fetchQueueDepth : nat := 256.
Definition serveQueueDepth : nat := 64.
(** The depth of the channel of completions (chanDepth). *)
Definition completionsDepth : nat := 256.

Record fetchTask := mkFetchTask {
  ft_leaf : FileInfo; ft_advertise : bool; ft_preserve : option FileInfo; ft_preserveAdvertise : bool }.

(** [cp_sender] is not a field of the code: the peer state whose puller sent it. *)
Record completion := mkCompletion {
  cp_leaf : FileInfo; cp_ok : bool; cp_clobber : bool; cp_advertise : bool;
  cp_applyTomb : bool; cp_conflictAbort : bool; cp_peer : Z; cp_sender : nat }.

(** [ps_running] is the second half of the coupled task the puller has started. *)
Record peerState := mkPeerState {
  ps_device : DeviceID; ps_hello : Hello; ps_short : Z;
  ps_index : Files; ps_inflight : gset bytes;
  ps_fetchQ : list fetchTask; ps_running : option fetchTask; ps_serveQ : list Request;
  ps_resp : gmap Z (option Response); ps_nextReq : Z; ps_cancelled : bool }.

(** The snapshot file: what LoadSnapshot can find at its path. *)
Inductive SnapFile := SnapMissing | SnapUnreadable | SnapCorrupt | SnapFiles (version : Z) (files : list FileInfo).
Inductive SnapError := ErrSnapshotFormat | ErrSnapshotRead.
Definition snapshotVersion : Z := 1.

Record Config := mkConfig {
  cfg_FolderID : bytes; cfg_AbsRoot : bytes; cfg_Self : DeviceID;
  cfg_Peers : option (list DeviceID); cfg_hasSnapshotPath : bool; cfg_hasTransport : bool;
  cfg_caseSensitive : bool }.

Record Engine := mkEngine {
  e_files : Files; e_tree : option Node; e_peers : gmap bytes nat; e_states : gmap nat peerState; e_next : nat;
  e_outboundIndexUpdates : Z; e_reseed : bool; e_dialing : gset bytes; e_dials : list DeviceID;
  e_completions : list completion; e_sent : list (nat * Message); e_disk : Disk; e_snapshot : SnapFile }.

(** *** Field updates *)
Definition set_files (e : Engine) (x : Files) : Engine :=
  mkEngine x (e_tree e) (e_peers e) (e_states e) (e_next e) (e_outboundIndexUpdates e) (e_reseed e)
    (e_dialing e) (e_dials e) (e_completions e) (e_sent e) (e_disk e) (e_snapshot e).
Definition set_tree (e : Engine) (x : option Node) : Engine :=
  mkEngine (e_files e) x (e_peers e) (e_states e) (e_next e) (e_outboundIndexUpdates e) (e_reseed e)
    (e_dialing e) (e_dials e) (e_completions e) (e_sent e) (e_disk e) (e_snapshot e).
Definition set_peers (e : Engine) (x : gmap bytes nat) : Engine :=
  mkEngine (e_files e) (e_tree e) x (e_states e) (e_next e) (e_outboundIndexUpdates e) (e_reseed e)
    (e_dialing e) (e_dials e) (e_completions e) (e_sent e) (e_disk e) (e_snapshot e).
Definition set_states (e : Engine) (x : gmap nat peerState) : Engine :=
  mkEngine (e_files e) (e_tree e) (e_peers e) x (e_next e) (e_outboundIndexUpdates e) (e_reseed e)
    (e_dialing e) (e_dials e) (e_completions e) (e_sent e) (e_disk e) (e_snapshot e).
Definition set_next (e : Engine) (x : nat) : Engine :=
  mkEngine (e_files e) (e_tree e) (e_peers e) (e_states e) x (e_outboundIndexUpdates e) (e_reseed e)
    (e_dialing e) (e_dials e) (e_completions e) (e_sent e) (e_disk e) (e_snapshot e).
Definition set_outbound (e : Engine) (x : Z) : Engine :=
  mkEngine (e_files e) (e_tree e) (e_peers e) (e_states e) (e_next e) x (e_reseed e)
    (e_dialing e) (e_dials e) (e_completions e) (e_sent e) (e_disk e) (e_snapshot e).
Definition set_reseed (e : Engine) (x : bool) : Engine :=
  mkEngine (e_files e) (e_tree e) (e_peers e) (e_states e) (e_next e) (e_outboundIndexUpdates e) x
    (e_dialing e) (e_dials e) (e_completions e) (e_sent e) (e_disk e) (e_snapshot e).
Definition set_dialing (e : Engine) (x : gset bytes) (y : list DeviceID) : Engine :=
  mkEngine (e_files e) (e_tree e) (e_peers e) (e_states e) (e_next e) (e_outboundIndexUpdates e) (e_reseed e)
    x y (e_completions e) (e_sent e) (e_disk e) (e_snapshot e).
Definition set_completions (e : Engine) (x : list completion) : Engine :=
  mkEngine (e_files e) (e_tree e) (e_peers e) (e_states e) (e_next e) (e_outboundIndexUpdates e) (e_reseed e)
    (e_dialing e) (e_dials e) x (e_sent e) (e_disk e) (e_snapshot e).
Definition set_sent (e : Engine) (x : list (nat * Message)) : Engine :=
  mkEngine (e_files e) (e_tree e) (e_peers e) (e_states e) (e_next e) (e_outboundIndexUpdates e) (e_reseed e)
    (e_dialing e) (e_dials e) (e_completions e) x (e_disk e) (e_snapshot e).
Definition set_disk (e : Engine) (x : Disk) : Engine :=
  mkEngine (e_files e) (e_tree e) (e_peers e) (e_states e) (e_next e) (e_outboundIndexUpdates e) (e_reseed e)
    (e_dialing e) (e_dials e) (e_completions e) (e_sent e) x (e_snapshot e).
Definition set_snapshot (e : Engine) (x : SnapFile) : Engine :=
  mkEngine (e_files e) (e_tree e) (e_peers e) (e_states e) (e_next e) (e_outboundIndexUpdates e) (e_reseed e)
    (e_dialing e) (e_dials e) (e_completions e) (e_sent e) (e_disk e) x.

Definition ps_set_index (ps : peerState) (x : Files) : peerState :=
  mkPeerState (ps_device ps) (ps_hello ps) (ps_short ps) x (ps_inflight ps) (ps_fetchQ ps) (ps_running ps)
    (ps_serveQ ps) (ps_resp ps) (ps_nextReq ps) (ps_cancelled ps).
Definition ps_set_fetch (ps : peerState) (infl : gset bytes) (q : list fetchTask) (run : option fetchTask) : peerState :=
  mkPeerState (ps_device ps) (ps_hello ps) (ps_short ps) (ps_index ps) infl q run
    (ps_serveQ ps) (ps_resp ps) (ps_nextReq ps) (ps_cancelled ps).
Definition ps_set_serveQ (ps : peerState) (x : list Request) : peerState :=
  mkPeerState (ps_device ps) (ps_hello ps) (ps_short ps) (ps_index ps) (ps_inflight ps) (ps_fetchQ ps) (ps_running ps)
    x (ps_resp ps) (ps_nextReq ps) (ps_cancelled ps).
Definition ps_set_resp (ps : peerState) (x : gmap Z (option Response)) (n : Z) : peerState :=
  mkPeerState (ps_device ps) (ps_hello ps) (ps_short ps) (ps_index ps) (ps_inflight ps) (ps_fetchQ ps) (ps_running ps)
    (ps_serveQ ps) x n (ps_cancelled ps).
Definition ps_cancel (ps : peerState) : peerState :=
  mkPeerState (ps_device ps) (ps_hello ps) (ps_short ps) (ps_index ps) (ps_inflight ps) (ps_fetchQ ps) (ps_running ps)
    (ps_serveQ ps) (ps_resp ps) (ps_nextReq ps) true.

Definition upd_ps (e : Engine) (a : nat) (f : peerState → peerState) : Engine :=
  set_states e (alter f a (e_states e)).
Definition send (e : Engine) (a : nat) (m : Message) : Engine := set_sent e (e_sent e ++ [(a, m)]).

(** report. [e_completions] is the channel, [completionsDepth] long, followed by the
    values of the senders blocked on it, in the order in which they get in. *)
Definition report (e : Engine) (c : completion) : Engine := set_completions e (e_completions e ++ [c]).
(** The puller of [a] is blocked in a send. *)
Definition sending (e : Engine) (a : nat) : bool :=
  existsb (λ c, (cp_sender c =? a)%nat) (drop completionsDepth (e_completions e)).

Section engine.
Context `{OS, Digest, Unicode}.
Context (cfg : Config).

Definition selfShort : Z := Short (cfg_Self cfg).
(** {self} ∪ declared peers, when Config.Peers was given. *)
Definition pairedShorts : option (list Z) := (λ ps, selfShort :: (Short <$> ps)) <$> cfg_Peers cfg.

(** ** Lookups and small helpers *)

Definition rebuild (e : Engine) : Engine := set_tree e (rebuildLocked (e_files e) (e_tree e)).

(** The connections of the peer map, in its iteration order. *)
Definition addresses (e : Engine) : list nat := (map_to_list (e_peers e)).*2.
Definition peer_indexes (e : Engine) : list Files := ps_index <$> omap (λ a, e_states e !! a) (addresses e).

Definition peerByShort (e : Engine) (s : Z) : option nat :=
  snd <$> list_find (λ a, ps_short <$> e_states e !! a = Some s) (addresses e).

Definition clearInflight (e : Engine) (short : Z) (key : bytes) : Engine :=
  match peerByShort e short with
  | None => e
  | Some a => upd_ps e a (λ ps, ps_set_fetch ps (ps_inflight ps ∖ {[key]}) (ps_fetchQ ps) (ps_running ps))
  end.

Definition inflightLocked (e : Engine) (key : bytes) : bool :=
  existsb (λ a, match e_states e !! a with Some ps => bool_decide (key ∈ ps_inflight ps) | None => false end) (addresses e).

Definition ps_has_inflight (e : Engine) (a : nat) (key : bytes) : bool :=
  match e_states e !! a with Some ps => bool_decide (key ∈ ps_inflight ps) | None => false end.

Definition hasLocalContent (e : Engine) (hash : bytes) : bool :=
  existsb (λ fi, negb (Deleted fi) && bool_decide (Type_ fi = TypeFile) && bool_decide (ContentHash fi = hash))
    (set_of (e_files e)).

Definition broadcastUpdate (e : Engine) (changed : list FileInfo) : Engine :=
  match changed with
  | [] => e
  | _ =>
    let e := set_outbound e (to_int64 (wrap 64 (e_outboundIndexUpdates e + 1))) in
    let changed := orderCreatesBeforeDeletes changed in
    match EncodeFileInfos changed with
    | Err _ => e
    | Ok body =>
      let msg := MIndexUpdate (mkIndex (cfg_FolderID cfg) (wrap 32 (Z.of_nat (length changed))) body) in
      foldl (λ e a, send e a msg) e (addresses e)
    end
  end.

(** ** Snapshot (internal/merkle/snapshot.go) *)

Definition LoadSnapshot (s : SnapFile) : Result SnapError (list FileInfo) :=
  match s with
  | SnapMissing => Ok []
  | SnapUnreadable => Err ErrSnapshotRead
  | SnapCorrupt => Err ErrSnapshotFormat
  | SnapFiles v files => if negb (v =? snapshotVersion) then Err ErrSnapshotFormat else Ok files
  end.

(** [written] tells whether SaveSnapshot succeeds; an error is logged and the file that
    was there stays ([Persist.SaveSnapshot_crash_safe]). *)
Definition saveSnapshot (written : bool) (e : Engine) : Engine :=
  if negb (cfg_hasSnapshotPath cfg) then e
  else if negb written then e
  else set_snapshot e (SnapFiles snapshotVersion (snapshotFilesLocked (e_files e))).

(** ** Start-up *)

Inductive StartError := ErrAbsRootRequired | ErrLoadSnapshot | ErrInitialScan.

Definition startupReconcile (snap : SnapFile) (d : Disk) : Result StartError Engine :=
  let! prev :=
    if cfg_hasSnapshotPath cfg then
      match LoadSnapshot snap with
      | Ok p => Ok p
      | Err ErrSnapshotFormat => Ok []
      | Err ErrSnapshotRead => Err ErrLoadSnapshot
      end
    else Ok [] in
  let! cur := match Scan (cfg_AbsRoot cfg) d with Ok cur => Ok cur | Err _ => Err ErrInitialScan end in
  let files := (sweepDepairedCountersLocked pairedShorts (startup_files prev cur selfShort)).1 in
  let reseed := bool_decide (length prev = 0%nat) in
  Ok (rebuild (mkEngine files None ∅ ∅ 0 0 reseed ∅ [] [] [] d snap)).
Definition New (snap : SnapFile) (d : Disk) : Result StartError Engine :=
  if decide (cfg_AbsRoot cfg = []) then Err ErrAbsRootRequired else startupReconcile snap d.

Definition Hello_of (e : Engine) : Hello :=
  mkHello 1 (cfg_Self cfg) (cfg_FolderID cfg) (RootHash (e_tree e)) 0.

(** ** Fetch queue *)

Definition enqueueFetch (e : Engine) (a : nat) (leaf : FileInfo) (advertise : bool) : Engine :=
  upd_ps e a (λ ps,
    if decide (Path leaf ∈ ps_inflight ps) then ps
    else if (length (ps_fetchQ ps) <? fetchQueueDepth)%nat then
      ps_set_fetch ps ({[Path leaf]} ∪ ps_inflight ps)
        (ps_fetchQ ps ++ [mkFetchTask leaf advertise None false]) (ps_running ps)
    else ps).

Definition enqueueConflict (e : Engine) (a : nat) (loser winner : FileInfo) : Engine :=
  upd_ps e a (λ ps,
    if decide (Path winner ∈ ps_inflight ps) then ps
    else if (length (ps_fetchQ ps) <? fetchQueueDepth)%nat then
      ps_set_fetch ps ({[Path winner]} ∪ ps_inflight ps)
        (ps_fetchQ ps ++ [mkFetchTask winner false (Some loser) true]) (ps_running ps)
    else ps).

Definition enqueueRename (e : Engine) (a : nat) (newCreate oldTomb : FileInfo) : Engine :=
  upd_ps e a (λ ps,
    if decide (Path newCreate ∈ ps_inflight ps ∨ Path oldTomb ∈ ps_inflight ps) then ps
    else if (length (ps_fetchQ ps) <? fetchQueueDepth)%nat then
      ps_set_fetch ps ({[Path newCreate; Path oldTomb]} ∪ ps_inflight ps)
        (ps_fetchQ ps ++ [mkFetchTask oldTomb false (Some newCreate) false]) (ps_running ps)
    else ps).

(** ** Executing a plan *)

Definition applyTombstone (e : Engine) (t : FileInfo) : Engine :=
  let e := set_disk e (Remove (e_disk e) (Path t)) in
  let redundant :=
    match e_files e !! Path t with
    | Some prev => Deleted prev && IsEqual (Version prev) (Version t)
    | None => false
    end in
  let e := rebuild (set_files e (<[Path t := t]> (e_files e))) in
  if negb redundant then broadcastUpdate e [t] else e.

Definition execute (e : Engine) (a : nat) (p : plan) : Engine :=
  match kind p with
  | planNoOp => e
  | planInstall =>
    if Deleted (install p) then applyTombstone e (install p) else enqueueFetch e a (install p) false
  | planConflict =>
    match p_loser p with
    | Some l =>
      if hasLocalContent e (ContentHash l) then
        if WouldExceedMaxPath (cfg_AbsRoot cfg) (Path l) then e
        else enqueueConflict e a l (p_winner p)
      else if Deleted (p_winner p) then applyTombstone e (p_winner p)
      else enqueueFetch e a (p_winner p) false
    | None =>
      if Deleted (p_winner p) then applyTombstone e (p_winner p)
      else enqueueFetch e a (p_winner p) false
    end
  end.

(** ** Reconciliation *)

(** A tombstone to install, with the content it would delete when that content
    can be reused, and whether it has been paired with a create. *)
Record tombInstall := mkTombInstall { ti_plan : plan; ti_oldHash : option bytes; ti_paired : bool }.

Definition tomb_install (d : DiffEntry) (p : plan) : tombInstall :=
  mkTombInstall p
    (match Local d with
     | Some l => if negb (Deleted l) && bool_decide (Type_ l = TypeFile) then Some (ContentHash l) else None
     | None => None
     end) false.

(** The loop over the diff: conflicts are executed, installs are bucketed. *)
Fixpoint resolve_all (e : Engine) (a : nat) (ds : list DiffEntry) : Engine * list plan * list tombInstall :=
  match ds with
  | [] => (e, [], [])
  | d :: ds' =>
    if IsTypeClash d then resolve_all e a ds'
    else
      let p := resolve (Local d) (Remote d) selfShort in
      if bool_decide (kind p = planInstall) && negb (Deleted (install p)) then
        let '(e, creates, tombs) := resolve_all e a ds' in (e, p :: creates, tombs)
      else if bool_decide (kind p = planInstall) then
        let '(e, creates, tombs) := resolve_all e a ds' in (e, creates, tomb_install d p :: tombs)
      else resolve_all (execute e a p) a ds'
  end.

(** The first unpaired tombstone, not in flight, deleting content [hash]: itself
    and the list with it marked. *)
Fixpoint pair_tomb (e : Engine) (a : nat) (hash : bytes) (tombs : list tombInstall)
    : option (tombInstall * list tombInstall) :=
  match tombs with
  | [] => None
  | t :: tombs' =>
    if negb (ti_paired t) && bool_decide (ti_oldHash t = Some hash) &&
       negb (ps_has_inflight e a (Path (install (ti_plan t))))
    then Some (t, mkTombInstall (ti_plan t) (ti_oldHash t) true :: tombs')
    else '(t', rest) ← pair_tomb e a hash tombs'; Some (t', t :: rest)
  end.

(** The pairing loop: the creates left to execute on their own are returned. *)
Fixpoint pair_creates (e : Engine) (a : nat) (creates : list plan) (tombs : list tombInstall)
    : Engine * list plan * list tombInstall :=
  match creates with
  | [] => (e, [], tombs)
  | c :: creates' =>
    if ps_has_inflight e a (Path (install c)) then pair_creates e a creates' tombs
    else match pair_tomb e a (ContentHash (install c)) tombs with
         | Some (t, tombs') =>
           pair_creates (enqueueRename e a (install c) (install (ti_plan t))) a creates' tombs'
         | None =>
           let '(e, rest, tombs) := pair_creates e a creates' tombs in (e, c :: rest, tombs)
         end
  end.

Definition execute_tombs (e : Engine) (a : nat) (tombs : list tombInstall) : Engine :=
  foldl (λ e t,
    if negb (ti_paired t) && negb (ps_has_inflight e a (Path (install (ti_plan t))))
    then execute e a (ti_plan t) else e) e tombs.

Definition gcTombstones (e : Engine) : Engine :=
  let '(files, changed) := gcTombstonesLocked (peer_indexes e) (e_files e) in
  if changed then rebuild (set_files e files) else e.

Definition reconcileWithPeer (e : Engine) (a : nat) : Engine :=
  match e_states e !! a with
  | None => e
  | Some ps =>
    match BuildTree (snapshotFilesLocked (e_files e)), BuildTree (set_of (ps_index ps)) with
    | Ok localTree, Ok peerTree =>
      let '(e, creates, tombs) := resolve_all e a (Diff (Some localTree) (Some peerTree)) in
      let '(e, creates, tombs) := pair_creates e a creates tombs in
      let e := foldl (λ e c, execute e a c) e creates in
      let e := execute_tombs e a tombs in
      gcTombstones e
    | _, _ => e
    end
  end.

(** ** Index exchange *)

Definition doReseed (e : Engine) (a : nat) : Engine :=
  match e_states e !! a with
  | None => e
  | Some ps =>
    let '(files, bumped) := reseed_files selfShort (ps_index ps) (e_files e) in
    let e := if (0 <? length bumped)%nat then rebuild (set_files e files) else set_files e files in
    broadcastUpdate (set_reseed e false) bumped
  end.

Definition onIndex (e : Engine) (a : nat) (body : bytes) : Engine :=
  match DecodeFileInfos body with
  | Err _ => e
  | Ok set =>
    let e := upd_ps e a (λ ps, ps_set_index ps (files_of set)) in
    let e := if e_reseed e then doReseed e a else e in
    reconcileWithPeer e a
  end.

Definition onIndexUpdate (e : Engine) (a : nat) (body : bytes) : Engine :=
  match DecodeFileInfos body with
  | Err _ => e
  | Ok set =>
    let e := upd_ps e a (λ ps, ps_set_index ps (foldl (λ m fi, <[Path fi := fi]> m) (ps_index ps) set)) in
    reconcileWithPeer e a
  end.

(** ** Transport and discovery events *)

Definition addPeer (e : Engine) (id : DeviceID) (hello : Hello) : Engine * nat :=
  let a := e_next e in
  let ps := mkPeerState id hello (Short id) ∅ ∅ [] None [] ∅ 0 false in
  (set_next (set_peers (set_states e (<[a := ps]> (e_states e))) (<[id := a]> (e_peers e))) (S a), a).

Definition onPeerConnected (e : Engine) (conn : option (DeviceID * Hello)) : Engine :=
  match conn with
  | None => e
  | Some (id, hello) =>
    let '(e, a) := addPeer e id hello in
    if decide (h_RootHash hello = RootHash (e_tree e)) then e
    else match buildIndex (cfg_FolderID cfg) (e_files e) with
         | Err _ => e
         | Ok idx => send e a (MIndex idx)
         end
  end.

Definition removePeer (e : Engine) (id : DeviceID) : Engine :=
  match e_peers e !! id with
  | None => e
  | Some a => upd_ps (set_peers e (delete id (e_peers e))) a ps_cancel
  end.

Definition shutdownPeers (e : Engine) : Engine :=
  foldl (λ e a, upd_ps e a ps_cancel) (set_peers e ∅) (addresses e).

Definition routeRequest (e : Engine) (a : nat) (req : Request) : Engine :=
  match e_states e !! a with
  | None => e
  | Some ps =>
    if (length (ps_serveQ ps) <? serveQueueDepth)%nat then upd_ps e a (λ ps, ps_set_serveQ ps (ps_serveQ ps ++ [req]))
    else send e a (MResponse (mkResponse (rq_ReqID req) CodeGeneric []))
  end.

(** The channel of a request holds at most one response. *)
Definition routeResponse (e : Engine) (a : nat) (resp : Response) : Engine :=
  upd_ps e a (λ ps,
    match ps_resp ps !! rs_ReqID resp with
    | Some None => ps_set_resp ps (<[rs_ReqID resp := Some resp]> (ps_resp ps)) (ps_nextReq ps)
    | _ => ps
    end).

Definition handleMessage (e : Engine) (id : DeviceID) (m : Message) : Engine :=
  match e_peers e !! id with
  | None => e
  | Some a =>
    match m with
    | MIndex m => onIndex e a (ix_Body m)
    | MIndexUpdate m => onIndexUpdate e a (ix_Body m)
    | MRequest m => routeRequest e a m
    | MResponse m => routeResponse e a m
    | MPing | MClose _ => e
    | MHello _ => e
    end
  end.

Inductive TransportEvent :=
| PeerConnected (conn : option (DeviceID * Hello))
| PeerDisconnected (id : DeviceID)
| PeerMessage (id : DeviceID) (m : Message).

Definition handleTransportEvent (e : Engine) (ev : TransportEvent) : Engine :=
  match ev with
  | PeerConnected conn => onPeerConnected e conn
  | PeerDisconnected id => removePeer e id
  | PeerMessage id m => handleMessage e id m
  end.

(** A discovery event: the kind, the device, and whether the address is valid. *)
Definition onPeerDiscovered (e : Engine) (discovered : bool) (id : DeviceID) (addrValid : bool) : Engine :=
  if negb (cfg_hasTransport cfg) || negb discovered then e
  else if bool_decide (id = cfg_Self cfg) || negb addrValid then e
  else if bool_decide (is_Some (e_peers e !! id)) || bool_decide (id ∈ e_dialing e) then e
  else set_dialing e ({[id]} ∪ e_dialing e) (e_dials e ++ [id]).

Definition dialDone (e : Engine) (id : DeviceID) : Engine := set_dialing e (e_dialing e ∖ {[id]}) (e_dials e).
(** ** The per-peer goroutines *)

(** One step of pullLoop/runFetch: either half of a coupled task, or a plain task.
    [tmp], [now] and [net] are the temporary name, the clock and what becomes of the
    content fetched. The two reports of a task that ends without a
    second half are sent one after the other. *)
Definition materialise_step (e : Engine) (a : nat) (ps : peerState) (leaf : FileInfo) (advertise : bool)
    (tmp : bytes) (now : Z) (net : Yield) : Engine * bool :=
  let '(d, r) := materialise (cfg_AbsRoot cfg) (cfg_caseSensitive cfg) (e_files e) (e_disk e) leaf tmp now net in
  let ok := bool_decide (r = MatOk) in
  (report (set_disk e d)
     (mkCompletion leaf ok (bool_decide (r = MatClobber)) advertise false false (ps_short ps) a), ok).

Definition set_running (e : Engine) (a : nat) (q : list fetchTask) (run : option fetchTask) : Engine :=
  upd_ps e a (λ ps, ps_set_fetch ps (ps_inflight ps) q run).

Definition runFetch (e : Engine) (a : nat) (ps : peerState) (tmp : bytes) (now : Z) (net : Yield)
    : option Engine :=
  match ps_running ps with
  | Some task =>
    let e := set_running e a (ps_fetchQ ps) None in
    Some (materialise_step e a ps (ft_leaf task) (ft_advertise task) tmp now net).1
  | None =>
    match ps_fetchQ ps with
    | [] => None
    | task :: q =>
      let e := set_running e a q None in
      match ft_preserve task with
      | None => Some (materialise_step e a ps (ft_leaf task) (ft_advertise task) tmp now net).1
      | Some copy =>
        let '(e, ok) := materialise_step e a ps copy (ft_preserveAdvertise task) tmp now net in
        Some (if negb ok then
                report e (mkCompletion (ft_leaf task) false false false false true (ps_short ps) a)
              else if Deleted (ft_leaf task) then
                report e (mkCompletion (ft_leaf task) true false false true false (ps_short ps) a)
              else set_running e a q (Some task))
      end
    end
  end.

(** A step of pullLoop, unless the puller is still sending what it has to report. *)
Definition puller_step (e : Engine) (a : nat) (tmp : bytes) (now : Z) (net : Yield)
    : option Engine :=
  ps ← e_states e !! a;
  if sending e a then None else runFetch e a ps tmp now net.

(** One step of serveLoop. *)
Definition server_step (e : Engine) (a : nat) : option Engine :=
  ps ← e_states e !! a;
  match ps_serveQ ps with
  | [] => None
  | req :: q =>
    let e := upd_ps e a (λ ps, ps_set_serveQ ps q) in
    Some (send e a (MResponse (serveRequest (e_disk e) req)))
  end.

(** requestChunk, up to the wait and after it. *)
Definition requestChunk_send (e : Engine) (a : nat) (path hash : bytes) (offset len : Z) : Engine :=
  match e_states e !! a with
  | None => e
  | Some ps =>
    let reqID := wrap 32 (ps_nextReq ps + 1) in
    let e := upd_ps e a (λ ps, ps_set_resp ps (<[reqID := None]> (ps_resp ps)) reqID) in
    send e a (MRequest (mkRequest reqID path hash offset len))
  end.
Definition requestChunk_done (e : Engine) (a : nat) (reqID : Z) : Engine * option Response :=
  match e_states e !! a with
  | None => (e, None)
  | Some ps => (upd_ps e a (λ ps, ps_set_resp ps (delete reqID (ps_resp ps)) (ps_nextReq ps)), mjoin (ps_resp ps !! reqID))
  end.

(** ** Completions *)

Definition reconcileShort (e : Engine) (s : Z) : Engine :=
  match peerByShort e s with None => e | Some a => reconcileWithPeer e a end.

Definition handleCompletion (e : Engine) (c : completion) : Engine :=
  if cp_applyTomb c then
    let e := applyTombstone e (cp_leaf c) in
    let e := clearInflight e (cp_peer c) (Path (cp_leaf c)) in
    reconcileShort e (cp_peer c)
  else if cp_conflictAbort c then clearInflight e (cp_peer c) (Path (cp_leaf c))
  else
    let e :=
      if cp_ok c then
        let e := rebuild (set_files e (<[Path (cp_leaf c) := cp_leaf c]> (e_files e))) in
        if cp_advertise c then broadcastUpdate e [cp_leaf c] else e
      else e in
    let e := clearInflight e (cp_peer c) (Path (cp_leaf c)) in
    reconcileShort e (cp_peer c).

(** ** Local changes *)

Definition zero_version (prev : option FileInfo) : VersionVector :=
  match prev with Some p => Version p | None => [] end.
(** The recorded leaf holds this content: the condition both change paths share. *)
Definition unchanged_leaf (prev : option FileInfo) (nfi : FileInfo) : option FileInfo :=
  match prev with
  | Some p =>
    if negb (Deleted p) && bool_decide (ContentHash p = ContentHash nfi) && bool_decide (Type_ p = Type_ nfi)
       && (Size p =? Size nfi)
    then Some p else None
  | None => None
  end.
Definition set_mtime (fi : FileInfo) (ns : Z) : FileInfo :=
  mkFileInfo (Path fi) (ContentHash fi) (Size fi) (Mode fi) ns (Version fi) (Deleted fi) (Type_ fi).

Definition onLocalChange (e : Engine) (key : bytes) : Engine :=
  if internalFile key then e
  else
    let prev := e_files e !! key in
    if inflightLocked e key then e
    else match e_disk e !! key with
    | None =>
      match prev with
      | Some p =>
        if negb (Deleted p) then
          let tomb := SetDeleted p selfShort in
          broadcastUpdate (rebuild (set_files e (<[key := tomb]> (e_files e)))) [tomb]
        else e
      | None => e
      end
    | Some EDir => e
    | Some ent =>
      match scanOne (e_disk e) key ent with
      | None => e
      | Some nfi =>
        match unchanged_leaf prev nfi with
        | Some p =>
          if negb (ModTimeNS p =? ModTimeNS nfi)
          then set_files e (<[key := set_mtime p (ModTimeNS nfi)]> (e_files e)) else e
        | None =>
          let nfi := set_version nfi (Bump (zero_version prev) selfShort) in
          broadcastUpdate (rebuild (set_files e (<[key := nfi]> (e_files e)))) [nfi]
        end
      end
    end.

(** The loop of rescan over the scanned records. *)
Definition rescan_one (inflight : bytes → bool) (acc : Files * list FileInfo) (s : FileInfo) : Files * list FileInfo :=
  let '(files, delta) := acc in
  let prev := files !! Path s in
  match unchanged_leaf prev s with
  | Some p =>
    (if negb (ModTimeNS p =? ModTimeNS s) then <[Path s := set_mtime p (ModTimeNS s)]> files else files, delta)
  | None =>
    if inflight (Path s) then (files, delta)
    else
      let s := set_version s (Bump (zero_version prev) selfShort) in
      (<[Path s := s]> files, delta ++ [s])
  end.
(** Its loop over the recorded set: the tombstones of what is no longer there. *)
Definition rescan_gone (present : gset bytes) (files : Files) : Files * list FileInfo :=
  let gone path fi := negb (Deleted fi) && bool_decide (path ∉ present) in
  (map_imap (λ path fi, Some (if gone path fi then SetDeleted fi selfShort else fi)) files,
   omap (λ '(path, fi), if gone path fi then Some (SetDeleted fi selfShort) else None) (map_to_list files)).

(** What a scan changes in the recorded set, and the batch to broadcast. *)
Definition rescan_delta (inflight : bytes → bool) (files : Files) (scanned : list FileInfo) : Files * list FileInfo :=
  let present : gset bytes := list_to_set (Path <$> scanned) in
  let '(files, delta1) := foldl (rescan_one inflight) (files, []) scanned in
  let '(files, delta2) := rescan_gone present files in
  (files, delta1 ++ delta2).

Definition rescan (written : bool) (e : Engine) : Engine :=
  match Scan (cfg_AbsRoot cfg) (e_disk e) with
  | Err _ => e
  | Ok scanned =>
    let '(files, delta) := rescan_delta (inflightLocked e) (e_files e) (dropInternal scanned) in
    let '(files, collected) := gcTombstonesLocked (peer_indexes e) files in
    let e := set_files e files in
    let e := if (0 <? length delta)%nat || collected then rebuild e else e in
    let e := broadcastUpdate e delta in
    saveSnapshot written (foldl reconcileWithPeer e (addresses e))
  end.

Definition DropCounter (e : Engine) (id : Z) : Engine :=
  let '(files, changed) := dropCounterLocked id (e_files e) in
  let e := set_files e files in
  if changed then rebuild e else e.

Lemma puller_step_run e a tmp now net e' :
  puller_step e a tmp now net = Some e' → ∃ ps, e_states e !! a = Some ps ∧ sending e a = false ∧ runFetch e a ps tmp now net = Some e'.
Proof. unfold puller_step. destruct (e_states e !! a) as [ps |]; [| done]. cbn [mbind option_bind]. destruct (sending e a) eqn:Hs; [done |]. eauto. Qed.

(** ** The system *)

(** What happens without the transport: the user changes the disk, a case of the
    select loop other than a transport event, a step of a peer's goroutine. *)
Inductive own_step (e : Engine) : Engine → Prop :=
| step_user d : own_step e (set_disk e d)
| step_discovery k id v : own_step e (onPeerDiscovered e k id v)
| step_dialed id : own_step e (dialDone e id)
| step_local key : own_step e (onLocalChange e key)
| step_completion c cs : e_completions e = c :: cs → own_step e (handleCompletion (set_completions e cs) c)
| step_rescan written : own_step e (rescan written e)
| step_snapshot written : own_step e (saveSnapshot written e)
| step_drop id : own_step e (DropCounter e id)
| step_pull a tmp now net e' : puller_step e a tmp now net = Some e' → own_step e e'
| step_serve a e' : server_step e a = Some e' → own_step e e'
| step_request a path hash offset len : own_step e (requestChunk_send e a path hash offset len)
| step_requested a reqID : own_step e (requestChunk_done e a reqID).1.

Inductive step (e : Engine) : Engine → Prop :=
| step_own e' : own_step e e' → step e e'
| step_transport ev : step e (handleTransportEvent e ev)
| step_shutdown : step e (shutdownPeers e).

Definition reachable (e : Engine) : Prop :=
  ∃ snap d e0, New snap d = Ok e0 ∧ rtc step e0 e.

End engine.
