(* ===== verification/Story.v ===== *)
(** * Story: a closed run of the engine, executed inside the kernel

    One device with one peer: a file is edited, deleted, its deletion acknowledged
    and collected, and a file of the same name created again. The runs instantiate
    the theorems on engines; the digest is the rolling hash of Oracle.v. *)
From S2P Require Import Prelude Bytes VersionVector Framing Messages Windows Pathnorm Hashing.
From S2P Require Import FileInfo Tree Oracle Differ Conflict Scanner Disk Transfer Replica Engine.

#[local] Existing Instance toy_digest.

Definition device (c : ascii) : DeviceID := repeat c 32.
Definition home : Config := mkConfig (go! "folder") (go! "/r") (device "A") None true true true.
Definition here : Z := Short (device "A").
Definition there : Z := Short (device "B").

Definition note : bytes := go! "note".
Definition holding (content : bytes) (mtime : Z) : Disk := {[ note := EFile content 420 mtime ]}.

Definition update_body (set : list FileInfo) : bytes := match EncodeFileInfos set with Ok b => b | Err _ => [] end.
Definition update_from (set : list FileInfo) : TransportEvent :=
  PeerMessage (device "B") (MIndexUpdate (mkIndex (go! "folder") (Z.of_nat (length set)) (update_body set))).

Definition start (d : Disk) : Engine :=
  match New home SnapMissing d with Ok e => e | Err _ => mkEngine ∅ None ∅ ∅ 0 0 false ∅ [] [] [] ∅ SnapMissing end.

Definition e_start : Engine := start (holding (go! "v0") 1).
Definition e_connected : Engine :=
  handleTransportEvent home e_start (PeerConnected (Some (device "B", mkHello 1 (device "B") (go! "folder") zero32 0))).
Definition e_edited : Engine := onLocalChange home (set_disk e_connected (holding (go! "v1") 2)) note.
Definition e_deleted : Engine := onLocalChange home (set_disk e_edited ∅) note.
Definition tomb : FileInfo := match e_files e_deleted !! note with Some t => t | None => zeroFileInfo end.
(** The peer acknowledges the deletion; the tombstone is collected on both sides. *)
Definition e_collected : Engine := handleTransportEvent home e_deleted (update_from [tomb]).
Definition e_recreated : Engine := onLocalChange home (set_disk e_collected (holding (go! "new") 9)) note.

Lemma e_recreated_reachable : reachable home e_recreated.
Proof.
  exists SnapMissing, (holding (go! "v0") 1), e_start. split; [vm_compute; reflexivity |].
  eapply rtc_l; [apply (step_transport home _ (PeerConnected (Some (device "B", mkHello 1 (device "B") (go! "folder") zero32 0)))) |].
  fold e_connected. eapply rtc_l; [apply step_own, (step_user home _ (holding (go! "v1") 2)) |].
  eapply rtc_l; [apply step_own, (step_local home _ note) |]. fold e_edited.
  eapply rtc_l; [apply step_own, (step_user home _ ∅) |]. eapply rtc_l; [apply step_own, (step_local home _ note) |]. fold e_deleted.
  eapply rtc_l; [apply (step_transport home _ (update_from [tomb])) |]. fold e_collected.
  eapply rtc_l; [apply step_own, (step_user home _ (holding (go! "new") 9)) |].
  eapply rtc_l; [apply step_own, (step_local home _ note) |]. fold e_recreated. apply rtc_refl.
Qed.

Example tomb_version : Version tomb = [mkCounter here 2].
Proof. vm_compute. reflexivity. Qed.
Example collected_empty : map_to_list (e_files e_collected) = [].
Proof. vm_compute. reflexivity. Qed.
Example recreated_version : (λ fi, (Version fi, Deleted fi)) <$> e_files e_recreated !! note = Some ([mkCounter here 1], false).
Proof. vm_compute. reflexivity. Qed.

(** ** A conflict: the peer edited the same file concurrently, and later *)

Definition their_note : FileInfo := mkFileInfo note (sum256 (go! "theirs")) 6 420 5000000000 [mkCounter there 1] false TypeFile.
Definition e_conflict : Engine := handleTransportEvent home e_edited (update_from [their_note]).
Definition ps_conflict : peerState := match e_states e_conflict !! 0%nat with Some ps => ps | None => mkPeerState [] (mkHello 0 [] [] [] 0) 0 ∅ ∅ [] None [] ∅ 0 false end.
Definition coupled : fetchTask := match ps_fetchQ ps_conflict with t :: _ => t | [] => mkFetchTask zeroFileInfo false None false end.
Definition our_copy : FileInfo := default zeroFileInfo (ft_preserve coupled).
Definition copy_tmp : bytes := go! ".msync-1.tmp".

Example conflict_queued : length (ps_fetchQ ps_conflict) = 1%nat.
Proof. vm_compute. reflexivity. Qed.
Example conflict_winner : ContentHash (ft_leaf coupled) = sum256 (go! "theirs") ∧ ContentHash our_copy = sum256 (go! "v1").
Proof. vm_compute. split; reflexivity. Qed.

(** ** The second device

    [b_*] runs the peer's own engine, in an empty directory; what one engine sends
    is what the other receives. B is told of the file before and after the edit, so
    its first fetch fails verification and its second succeeds. *)

Definition away : Config := mkConfig (go! "folder") (go! "/s") (device "B") None true true true.
Definition messages_of (e : Engine) : list Message := (e_sent e).*2.
Definition deliver (cfg : Config) (from : DeviceID) (e : Engine) (ms : list Message) : Engine :=
  foldl (λ e m, handleTransportEvent cfg e (PeerMessage from m)) e ms.
Definition next_completion (cfg : Config) (e : Engine) : Engine :=
  match e_completions e with [] => e | c :: cs => handleCompletion cfg (set_completions e cs) c end.
Definition fetched (cfg : Config) (e : Engine) (net : list bytes * option TransferError) : Engine :=
  match puller_step cfg e 0 copy_tmp 7 (net, None) with Some e' => next_completion cfg e' | None => e end.

Definition b_start : Engine :=
  match New away SnapMissing ∅ with Ok e => e | Err _ => e_start end.
Definition b_connected : Engine :=
  handleTransportEvent away b_start (PeerConnected (Some (device "A", mkHello 1 (device "A") (go! "folder") (RootHash (e_tree e_start)) 0))).
Definition b_told : Engine := deliver away (device "A") b_connected (messages_of e_edited).
Definition b_refused : Engine := fetched away b_told ([go! "v1"], None).
Definition b_synced : Engine := fetched away b_refused ([go! "v1"], None).
Definition a_synced : Engine := deliver home (device "B") e_edited (messages_of b_synced).

Example b_first_fetch_fails : e_disk b_refused !! note = None ∧ length (e_sent e_edited) = 2%nat.
Proof. split; vm_compute; reflexivity. Qed.
Example b_has_the_edit : e_disk b_synced !! note = Some (EFile (go! "v1") 384 7).
Proof. vm_compute. reflexivity. Qed.
Example synced_roots : RootHash (e_tree a_synced) = RootHash (e_tree b_synced) ∧ map_to_list (e_files a_synced) = map_to_list (e_files b_synced).
Proof. split; vm_compute; reflexivity. Qed.

(** ** A tombstone the peer never had

    The file is deleted before the two devices meet. The peer ignores the deletion
    of a file it does not know, so it never acknowledges it: the tombstone is never
    collected and the root hashes never agree. *)
Definition a_gone : Engine := onLocalChange home (set_disk e_start ∅) note.
Definition a_met : Engine :=
  handleTransportEvent home a_gone (PeerConnected (Some (device "B", mkHello 1 (device "B") (go! "folder") (RootHash (e_tree b_start)) 0))).
Definition b_met : Engine := deliver away (device "A") b_connected (messages_of a_met).
Definition a_answered : Engine := deliver home (device "B") a_met (messages_of b_met).

Example tombstone_never_collected :
  (Deleted <$> e_files (reconcileWithPeer home a_answered 0) !! note) = Some true ∧ map_to_list (e_files b_met) = [] ∧
  bool_decide (RootHash (e_tree a_answered) = RootHash (e_tree b_met)) = false.
Proof. split_and!; vm_compute; reflexivity. Qed.

(** ** An edit while a fetch is in flight

    The two devices agree; A edits again and B queues the fetch. Before it runs the
    user of B edits the file as well. The watcher hint and the rescan are muted while
    the path is in flight, the fetch renames over the edit, and no rescan after that
    can find it: the edit is on no disk and on no record. *)
Definition a_again : Engine := onLocalChange home (set_disk a_synced (holding (go! "v2") 4000000000)) note.
Definition b_queued : Engine := deliver away (device "A") b_synced (drop (length (messages_of a_synced)) (messages_of a_again)).
Definition b_mine : Engine := set_disk b_queued (<[note := EFile (go! "mine") 384 5000000000]> (e_disk b_queued)).
Definition b_hinted : Engine := rescan away true (onLocalChange away b_mine note).
Definition b_lost : Engine := rescan away true (fetched away b_hinted ([go! "v2"], None)).
Definition holds (content : bytes) (e : Engine) : bool :=
  existsb (λ '(_, ent), match ent with EFile c _ _ => bool_decide (c = content) | _ => false end) (map_to_list (e_disk e)) ||
  existsb (λ fi, bool_decide (ContentHash fi = sum256 content)) (set_of (e_files e)).

Example concurrent_edit_lost :
  holds (go! "mine") b_mine = true ∧ holds (go! "mine") b_hinted = true ∧
  e_disk b_lost !! note = Some (EFile (go! "v2") 384 7) ∧ holds (go! "mine") b_lost = false.
Proof. split_and!; vm_compute; reflexivity. Qed.

(** * Properties *)

(** The record of a file created again where a deletion had been acknowledged and
    collected restarts its version, and the peer's acknowledgement, still held as
    its index, dominates it: the next reconciliation deletes the new file. *)
Theorem recreated_file_is_deleted :
  e_disk e_recreated !! note = Some (EFile (go! "new") 420 9) ∧
  e_disk (reconcileWithPeer home e_recreated 0) !! note = None.
Proof. split; vm_compute; reflexivity. Qed.
