(* ===== verification/Invariant.v ===== *)
(** * Invariant: what every reachable engine satisfies

    Records are filed under their own paths, and the cached tree has the root hash
    of the recorded set whenever that set forms a tree, so that the hash sent in
    HELLO is the hash of what INDEX would say. A handler that records a change
    rebuilds the tree, except for a change of mtime, which the hash ignores
    ([similar]). *)
From S2P Require Import Prelude Bytes VersionVector Framing Messages Windows Pathnorm Hashing.
From S2P Require Import FileInfo Tree Oracle Differ Conflict Scanner Disk Transfer Replica Engine.
From S2P Require Import Story.

(** ** Sets that differ in what the hash ignores *)

(** The same paths, with the same structural fields. *)
Definition similar (f g : Files) : Prop := ∀ k, skey <$> f !! k = skey <$> g !! k.

#[export] Instance similar_equiv : Equivalence similar.
Proof.
  split; [by intros f k | by intros f g Hs k | by intros f g h H1 H2 k; rewrite H1].
Qed.

Definition valid_paths (ps : list bytes) : Prop :=
  Forall path_ok ps ∧ ForallOrdPairs (λ a b, apart (split_on slash_c a) (split_on slash_c b)) ps.

Lemma ForallOrdPairs_fmap {A B} (f : A → B) (R : B → B → Prop) l :
  ForallOrdPairs R (f <$> l) ↔ ForallOrdPairs (λ a b, R (f a) (f b)) l.
Proof.
  induction l as [|x l IH]; [split; constructor |]. simpl. split; intros Hl; inversion Hl; subst;
    constructor; rewrite ?Forall_fmap in *; try apply IH; done.
Qed.

Lemma valid_set_paths set : valid_set set ↔ valid_paths (Path <$> set).
Proof. unfold valid_set, valid_paths. by rewrite Forall_fmap, ForallOrdPairs_fmap. Qed.

Lemma similar_dom f g : similar f g → ∀ k, is_Some (f !! k) ↔ is_Some (g !! k).
Proof. intros Hs k. specialize (Hs k). destruct (f !! k), (g !! k); done || (split; intros; eauto). Qed.

Lemma keyed_paths f : keyed f → Path <$> set_of f = (map_to_list f).*1.
Proof.
  intros Hk. unfold set_of. rewrite <- list_fmap_compose. apply list_fmap_ext.
  intros i [k fi] Hi. simpl. apply Hk. apply elem_of_map_to_list. by eapply list_elem_of_lookup_2.
Qed.

Lemma similar_paths f g : keyed f → keyed g → similar f g → Path <$> set_of f ≡ₚ Path <$> set_of g.
Proof.
  intros Hf Hg Hs. apply NoDup_Permutation; [by apply NoDup_paths.. |]. intros k.
  assert (∀ h, keyed h → k ∈ Path <$> set_of h ↔ is_Some (h !! k)) as Hin.
  { intros h Hh. rewrite keyed_paths, list_elem_of_fmap by done. split.
    - intros ([k' fi] & -> & Hi%elem_of_map_to_list). simpl. eauto.
    - intros [fi Hi]. exists (k, fi). split; [done |]. by apply elem_of_map_to_list. }
  rewrite !Hin by done. by apply similar_dom.
Qed.

Section invariant.
Context `{OS, Digest, Unicode}.
Context (cfg : Config).

Lemma leaf_at_files f t p fi :
  keyed f → BuildTree (set_of f) = Ok t → leaf_at t p = Some fi ↔ f !! Path fi = Some fi ∧ split_on slash_c (Path fi) = p.
Proof.
  intros Hk Hb. pose proof (BuildTree_spec (set_of f)) as Hs. rewrite Hb in Hs.
  destruct Hs as (_ & _ & _ & _ & Hl). by rewrite Hl, keyed_elem.
Qed.

(** Similar sets both form a tree or neither does, and the root hashes agree. *)
Lemma similar_tree f g t :
  keyed f → keyed g → similar f g → BuildTree (set_of f) = Ok t →
  ∃ t', BuildTree (set_of g) = Ok t' ∧ node_hash t' = node_hash t.
Proof.
  intros Hf Hg Hs Hb. pose proof (BuildTree_spec (set_of f)) as Hsp1. rewrite Hb in Hsp1.
  destruct Hsp1 as (Hv & Hwf & Hd & _). pose proof (BuildTree_spec (set_of g)) as Hsp2.
  assert (valid_set (set_of g)) as Hvg.
  { rewrite valid_set_paths in *. destruct Hv as [Hok Hop]. pose proof (similar_paths f g Hf Hg Hs) as Hp.
    split; [by rewrite <- Hp |]. eapply ForallOrdPairs_perm; [| done | done]. intros a b [? ?]. by split. }
  destruct (BuildTree (set_of g)) as [t' |] eqn:Hb'; [| tauto]. destruct Hsp2 as (_ & Hwf' & Hd' & _).
  exists t'. split; [done |]. symmetry. apply leaves_hash; [done | done | right; congruence |].
  assert (∀ f g t t', keyed f → keyed g → similar f g → BuildTree (set_of f) = Ok t → BuildTree (set_of g) = Ok t' →
    ∀ p fi, leaf_at t p = Some fi → skey <$> leaf_at t' p = Some (skey fi)) as Hhalf.
  { clear. intros f g t t' Hf Hg Hs Hb Hb' p fi Hl. apply (leaf_at_files f t p fi Hf Hb) in Hl as [Hfi Hp].
    specialize (Hs (Path fi)). rewrite Hfi in Hs. destruct (g !! Path fi) as [gi |] eqn:Hgi; [| done].
    pose proof (Hg _ _ Hgi) as Hpath.
    rewrite (proj2 (leaf_at_files g t' p gi Hg Hb')); [| by rewrite Hpath].
    simpl in Hs |- *. congruence. }
  intros p. destruct (leaf_at t p) as [fi |] eqn:Hl; [by rewrite (Hhalf f g t t' Hf Hg Hs Hb Hb' p fi Hl) |].
  destruct (leaf_at t' p) as [gi |] eqn:Hl'; [| done].
  pose proof (Hhalf g f t' t Hg Hf (symmetry Hs) Hb' Hb p gi Hl') as Hr. by rewrite Hl in Hr.
Qed.

(** ** The invariant *)

(** A peer's state: its index is filed by path, its queues are within their depths. *)
Record ps_ok (ps : peerState) : Prop := mkPsOk {
  po_index : keyed (ps_index ps);
  po_short : ps_short ps = Short (ps_device ps);
  po_fetchQ : (length (ps_fetchQ ps) ≤ fetchQueueDepth)%nat;
  po_serveQ : (length (ps_serveQ ps) ≤ serveQueueDepth)%nat
}.

Record inv (e : Engine) : Prop := mkInv {
  inv_keyed : keyed (e_files e);
  inv_coherent : ∀ t, BuildTree (set_of (e_files e)) = Ok t → RootHash (e_tree e) = node_hash t;
  inv_states : ∀ a ps, e_states e !! a = Some ps → (a < e_next e)%nat ∧ ps_ok ps;
  inv_peers : ∀ id a, e_peers e !! id = Some a →
    ∃ ps, e_states e !! a = Some ps ∧ ps_device ps = id ∧ ps_cancelled ps = false
}.

(** The part of the engine the invariant speaks of. *)
Definition core (e : Engine) := (e_files e, e_tree e, e_states e, e_next e, e_peers e).

Lemma inv_frame e e' : core e' = core e → inv e → inv e'.
Proof.
  unfold core. intros Hc [Hk Hco Hs Hp]. injection Hc as Hf Ht Hst Hn Hpe. split; rewrite ?Hf, ?Ht, ?Hst, ?Hn, ?Hpe; done.
Qed.

(** Updates outside the core. *)
Lemma inv_set_reseed e b : inv e → inv (set_reseed e b). Proof. by apply inv_frame. Qed.
Lemma inv_set_disk e d : inv e → inv (set_disk e d). Proof. by apply inv_frame. Qed.
Lemma inv_set_completions e cs : inv e → inv (set_completions e cs). Proof. by apply inv_frame. Qed.
Lemma inv_set_dialing e x y : inv e → inv (set_dialing e x y). Proof. by apply inv_frame. Qed.
Lemma inv_set_snapshot e x : inv e → inv (set_snapshot e x). Proof. by apply inv_frame. Qed.
Lemma inv_send e a m : inv e → inv (send e a m). Proof. by apply inv_frame. Qed.
Lemma inv_report e c : inv e → inv (report e c). Proof. by apply inv_frame. Qed.
#[local] Hint Resolve inv_set_reseed inv_set_disk inv_set_completions inv_set_dialing inv_set_snapshot inv_send inv_report : inv.

Lemma inv_rebuild e f : inv e → keyed f → inv (rebuild (set_files e f)).
Proof.
  intros [_ _ Hs Hp] Hk. split; [done | | done | done]. cbn. intros t Hb. unfold rebuildLocked. by rewrite Hb.
Qed.

Lemma inv_similar e f : inv e → keyed f → similar (e_files e) f → inv (set_files e f).
Proof.
  intros [Hk0 Hco Hs Hp] Hk Hsim. split; [done | | done | done]. cbn. intros t Hb.
  destruct (similar_tree f (e_files e) t Hk Hk0 (symmetry Hsim) Hb) as (t0 & Hb0 & <-). by apply Hco.
Qed.

Definition ps_frame (f : peerState → peerState) : Prop :=
  ∀ ps, ps_ok ps → ps_ok (f ps) ∧ ps_device (f ps) = ps_device ps ∧ ps_cancelled (f ps) = ps_cancelled ps.

Lemma inv_upd_ps_at e a f :
  (∀ ps, e_states e !! a = Some ps → ps_ok ps →
     ps_ok (f ps) ∧ ps_device (f ps) = ps_device ps ∧ ps_cancelled (f ps) = ps_cancelled ps) →
  inv e → inv (upd_ps e a f).
Proof.
  intros Hf [Hk Hco Hs Hp]. split; [done | done | |]; cbn.
  - intros b ps. destruct (decide (a = b)) as [-> | Hne].
    + rewrite lookup_alter_eq, fmap_Some. intros (ps0 & Hps0 & ->). destruct (Hs b ps0 Hps0). split; [done | by apply Hf].
    + rewrite lookup_alter_ne by done. apply Hs.
  - intros id b Hb. destruct (Hp id b Hb) as (ps & Hps & Hd & Hc). destruct (decide (a = b)) as [-> | Hne].
    + exists (f ps). rewrite lookup_alter_eq, Hps. destruct (Hs b ps Hps) as [_ Hok].
      destruct (Hf ps Hps Hok) as (_ & -> & ->). done.
    + exists ps. by rewrite lookup_alter_ne.
Qed.
Lemma inv_upd_ps e a f : ps_frame f → inv e → inv (upd_ps e a f).
Proof. intros Hf. apply inv_upd_ps_at. intros ps _. apply Hf. Qed.

Lemma core_send e a m : core (send e a m) = core e.
Proof. done. Qed.

Lemma core_foldl {A} (f : Engine → A → Engine) l e : (∀ e x, core (f e x) = core e) → core (foldl f e l) = core e.
Proof. intros Hf. revert e. induction l as [|x l IH]; intros e; simpl; [done | by rewrite IH]. Qed.

Lemma core_broadcast e changed : core (broadcastUpdate cfg e changed) = core e.
Proof.
  unfold broadcastUpdate. destruct changed; [done |]. destruct (EncodeFileInfos _); [| done].
  rewrite core_foldl; done.
Qed.

Lemma inv_broadcast e changed : inv e → inv (broadcastUpdate cfg e changed).
Proof. apply inv_frame, core_broadcast. Qed.

(** ** Preservation *)

Lemma frame_inflight key : ps_frame (λ ps, ps_set_fetch ps (ps_inflight ps ∖ {[key]}) (ps_fetchQ ps) (ps_running ps)).
Proof. intros ps [? ? ? ?]. by repeat split. Qed.

Lemma frame_enqueue (c : peerState → Prop) `{∀ ps, Decision (c ps)} (infl : peerState → gset bytes) task :
  ps_frame (λ ps, if decide (c ps) then ps
                  else if (length (ps_fetchQ ps) <? fetchQueueDepth)%nat
                       then ps_set_fetch ps (infl ps) (ps_fetchQ ps ++ [task]) (ps_running ps) else ps).
Proof.
  intros ps Hok. case_decide; [done |]. destruct (Nat.ltb_spec (length (ps_fetchQ ps)) fetchQueueDepth); [| done].
  destruct Hok. split; [| done]. split; [done | done | | done]. cbn. rewrite length_app. simpl. lia.
Qed.

Lemma inv_enqueueFetch e a leaf adv : inv e → inv (enqueueFetch e a leaf adv).
Proof. apply inv_upd_ps, (frame_enqueue (λ ps, Path leaf ∈ ps_inflight ps)). Qed.
Lemma inv_enqueueConflict e a l w : inv e → inv (enqueueConflict e a l w).
Proof. apply inv_upd_ps, (frame_enqueue (λ ps, Path w ∈ ps_inflight ps)). Qed.
Lemma inv_enqueueRename e a c t : inv e → inv (enqueueRename e a c t).
Proof. apply inv_upd_ps, (frame_enqueue (λ ps, Path c ∈ ps_inflight ps ∨ Path t ∈ ps_inflight ps)). Qed.
Lemma inv_clearInflight e s key : inv e → inv (clearInflight e s key).
Proof. intros Hi. unfold clearInflight. destruct (peerByShort e s) as [a |]; [| done]. by apply inv_upd_ps; [apply frame_inflight |]. Qed.

Lemma inv_applyTombstone e t : inv e → inv (applyTombstone cfg e t).
Proof.
  intros Hi. unfold applyTombstone. set (e1 := set_disk e _).
  assert (inv e1) as Hi1 by (by apply (inv_frame e)).
  assert (inv (rebuild (set_files e1 (<[Path t := t]> (e_files e1))))) as Hr.
  { apply inv_rebuild; [done |]. apply keyed_insert; [by destruct Hi1 | done]. }
  case_match; [by apply inv_broadcast | done].
Qed.
#[local] Hint Resolve inv_enqueueFetch inv_enqueueConflict inv_enqueueRename inv_clearInflight inv_applyTombstone inv_broadcast : inv.

Lemma inv_execute e a p : inv e → inv (execute cfg e a p).
Proof. intros Hi. unfold execute. repeat case_match; auto with inv. Qed.
#[local] Hint Resolve inv_execute : inv.

Lemma inv_resolve_all e a ds : inv e → inv (resolve_all cfg e a ds).1.1.
Proof.
  revert e. induction ds as [|d ds IH]; intros e Hi; cbn [resolve_all]; [done |].
  destruct (IsTypeClash d); [by apply IH |]. cbv zeta.
  specialize (IH e Hi) as IHe. destruct (_ && _); [by destruct (resolve_all cfg e a ds) as [[? ?] ?] |].
  destruct (bool_decide _); [by destruct (resolve_all cfg e a ds) as [[? ?] ?] |]. auto with inv.
Qed.

Lemma inv_pair_creates e a creates tombs : inv e → inv (pair_creates e a creates tombs).1.1.
Proof.
  revert e tombs. induction creates as [|c creates IH]; intros e tombs Hi; cbn [pair_creates]; [done |].
  destruct (ps_has_inflight e a _); [by apply IH |]. destruct (pair_tomb e a _ tombs) as [[t tombs'] |]; [auto with inv |].
  specialize (IH e tombs Hi). by destruct (pair_creates e a creates tombs) as [[? ?] ?].
Qed.

Lemma inv_foldl {A} (f : Engine → A → Engine) l e : (∀ e x, inv e → inv (f e x)) → inv e → inv (foldl f e l).
Proof. intros Hf. revert e. induction l as [|x l IH]; intros e Hi; simpl; auto. Qed.

Lemma inv_gcTombstones e : inv e → inv (gcTombstones e).
Proof.
  intros Hi. unfold gcTombstones. pose proof (gc_keyed (peer_indexes e) (e_files e) (inv_keyed e Hi)) as Hk.
  destruct (gcTombstonesLocked _ _) as [files changed]. destruct changed; [by apply inv_rebuild | done].
Qed.

Lemma inv_reconcileWithPeer e a : inv e → inv (reconcileWithPeer cfg e a).
Proof.
  intros Hi. unfold reconcileWithPeer. destruct (e_states e !! a) as [ps |]; [| done].
  destruct (BuildTree _) as [lt |]; [| done]. destruct (BuildTree _) as [pt |]; [| done].
  pose proof (inv_resolve_all e a (Diff (Some lt) (Some pt)) Hi) as Hi1.
  destruct (resolve_all _ _ _ _) as [[e1 creates] tombs].
  pose proof (inv_pair_creates e1 a creates tombs Hi1) as Hi2. destruct (pair_creates _ _ _ _) as [[e2 creates'] tombs'].
  apply inv_gcTombstones. unfold execute_tombs. apply inv_foldl; [intros; case_match; auto with inv |].
  apply inv_foldl; auto with inv.
Qed.
#[local] Hint Resolve inv_reconcileWithPeer inv_rebuild : inv.

Lemma inv_doReseed e a : inv e → inv (doReseed cfg e a).
Proof.
  intros Hi. unfold doReseed. destruct (e_states e !! a) as [ps |]; [| done].
  pose proof (reseed_keyed (selfShort cfg) (ps_index ps) (e_files e) (inv_keyed e Hi)) as Hk.
  assert ((reseed_files (selfShort cfg) (ps_index ps) (e_files e)).2 = [] →
          (reseed_files (selfShort cfg) (ps_index ps) (e_files e)).1 = e_files e) as Hsame.
  { intros Hn. apply map_eq. intros k. rewrite reseed_lookup. destruct (e_files e !! k) as [lf |] eqn:Hlf; [| done].
    simpl. destruct (reseed_one _ _ k lf) as [x |] eqn:Hr; [| done].
    exfalso. apply (not_elem_of_nil x). rewrite <- Hn. apply reseed_bumped. eauto. }
  destruct (reseed_files _ _ _) as [files bumped]. cbn [fst snd] in *.
  assert (inv (if (0 <? length bumped)%nat then rebuild (set_files e files) else set_files e files)) as Hi1.
  { destruct bumped as [|b bumped]; simpl; [| by apply inv_rebuild]. rewrite (Hsame eq_refl). by apply (inv_frame e). }
  auto with inv.
Qed.

Lemma keyed_foldl m set : keyed m → keyed (foldl (λ m fi, <[Path fi := fi]> m) m set).
Proof. revert m. induction set as [|fi set IH]; intros m Hm; simpl; [done |]. apply IH. by apply keyed_insert. Qed.

Lemma frame_index (f : peerState → Files) : (∀ ps, keyed (ps_index ps) → keyed (f ps)) → ps_frame (λ ps, ps_set_index ps (f ps)).
Proof. intros Hf ps [? ? ? ?]. split; [| done]. split; cbn; auto. Qed.

Lemma inv_onIndex e a body : inv e → inv (onIndex cfg e a body).
Proof.
  intros Hi. unfold onIndex. destruct (DecodeFileInfos body) as [set |]; [| done]. cbv zeta.
  assert (inv (upd_ps e a (λ ps, ps_set_index ps (files_of set)))) as Hi1.
  { apply inv_upd_ps; [apply frame_index; intros; apply keyed_files_of | done]. }
  apply inv_reconcileWithPeer. case_match; [by apply inv_doReseed | done].
Qed.

Lemma inv_onIndexUpdate e a body : inv e → inv (onIndexUpdate cfg e a body).
Proof.
  intros Hi. unfold onIndexUpdate. destruct (DecodeFileInfos body) as [set |]; [| done]. cbv zeta.
  apply inv_reconcileWithPeer, inv_upd_ps; [| done]. apply frame_index. intros. by apply keyed_foldl.
Qed.

Lemma inv_addPeer e id hello : inv e → inv (addPeer e id hello).1.
Proof.
  intros [Hk Hco Hs Hp]. split; [done | done | |]; cbn.
  - intros a ps. destruct (decide (e_next e = a)) as [<- | Hne].
    + rewrite lookup_insert_eq. intros Hps. apply (inj Some) in Hps as <-. split; [lia |].
      split; [apply keyed_empty | done | simpl; unfold fetchQueueDepth; lia | simpl; unfold serveQueueDepth; lia].
    + rewrite lookup_insert_ne by done. intros Hps. destruct (Hs a ps Hps). split; [lia | done].
  - intros id' a. destruct (decide (id = id')) as [<- | Hne].
    + rewrite lookup_insert_eq. intros Ha. apply (inj Some) in Ha as <-. rewrite lookup_insert_eq. eauto.
    + rewrite lookup_insert_ne by done. intros Ha. destruct (Hp id' a Ha) as (ps & Hps & ?).
      exists ps. rewrite lookup_insert_ne; [done |]. intros <-. destruct (Hs _ _ Hps). lia.
Qed.

Lemma inv_onPeerConnected e conn : inv e → inv (onPeerConnected cfg e conn).
Proof.
  intros Hi. unfold onPeerConnected. destruct conn as [[id hello] |]; [| done].
  pose proof (inv_addPeer e id hello Hi) as Hi1. destruct (addPeer e id hello) as [e1 a]. cbn [fst] in Hi1.
  case_decide; [done |]. destruct (buildIndex _ _); [auto with inv | done].
Qed.

(** Cancelling the state at an address no device is filed under. *)
Lemma inv_cancel e a : inv e → (∀ id b, e_peers e !! id = Some b → b ≠ a) → inv (upd_ps e a ps_cancel).
Proof.
  intros [Hk Hco Hs Hp] Hn. split; [done | done | |]; cbn.
  - intros b ps. destruct (decide (a = b)) as [-> | Hne].
    + rewrite lookup_alter_eq, fmap_Some. intros (ps0 & Hps0 & ->). destruct (Hs b ps0 Hps0) as [? [? ? ? ?]]. by repeat split.
    + rewrite lookup_alter_ne by done. apply Hs.
  - intros id b Hb. destruct (Hp id b Hb) as (ps & Hps & ?). exists ps.
    by rewrite lookup_alter_ne by (apply not_eq_sym; eauto).
Qed.

Lemma inv_removePeer e id : inv e → inv (removePeer e id).
Proof.
  intros Hi. unfold removePeer. destruct (e_peers e !! id) as [a |] eqn:Ha; [| done].
  pose proof (inv_peers e Hi) as Hp. apply inv_cancel.
  - destruct Hi as [Hk Hco Hs _]. split; [done | done | done |]. cbn. intros id' b [_ Hb]%lookup_delete_Some. by apply Hp.
  - cbn. intros id' b [Hne Hb]%lookup_delete_Some ->.
    destruct (Hp _ _ Ha) as (ps & Hps & Hd & _), (Hp _ _ Hb) as (ps' & Hps' & Hd' & _). congruence.
Qed.

Lemma inv_shutdownPeers e : inv e → inv (shutdownPeers e).
Proof.
  intros Hi. unfold shutdownPeers.
  assert (∀ l e, inv e ∧ e_peers e = ∅ → inv (foldl (λ e a, upd_ps e a ps_cancel) e l)) as Hl.
  { induction l as [|a l IH]; intros e1 [Hi1 He]; simpl; [done |]. apply IH. split; [| done].
    apply inv_cancel; [done |]. intros id b. rewrite He. by rewrite lookup_empty. }
  apply Hl. split; [| done]. destruct Hi as [Hk Hco Hs Hp]. split; [done | done | done |]. cbn. intros id a. by rewrite lookup_empty.
Qed.

Lemma inv_routeRequest e a req : inv e → inv (routeRequest e a req).
Proof.
  intros Hi. unfold routeRequest. destruct (e_states e !! a) as [ps |] eqn:Hps; [| done].
  destruct (Nat.ltb_spec (length (ps_serveQ ps)) serveQueueDepth) as [Hlt |]; [| auto with inv].
  apply inv_upd_ps_at; [| done]. intros ps' Hps' [? ? ? ?]. assert (ps' = ps) as -> by congruence.
  split; [| done]. split; [done | done | done |]. cbn. rewrite length_app. simpl. lia.
Qed.

Lemma frame_resp (f : peerState → gmap Z (option Response)) n : ps_frame (λ ps, ps_set_resp ps (f ps) (n ps)).
Proof. intros ps [? ? ? ?]. by repeat split. Qed.

Lemma inv_routeResponse e a resp : inv e → inv (routeResponse e a resp).
Proof. apply inv_upd_ps. intros ps [? ? ? ?]. repeat case_match; by repeat split. Qed.
#[local] Hint Resolve inv_onIndex inv_onIndexUpdate inv_routeRequest inv_routeResponse inv_onPeerConnected inv_removePeer : inv.

Lemma inv_handleTransportEvent e ev : inv e → inv (handleTransportEvent cfg e ev).
Proof. intros Hi. unfold handleTransportEvent, handleMessage. repeat case_match; auto with inv. Qed.

Lemma frame_running q run : (length q ≤ fetchQueueDepth)%nat → ps_frame (λ ps, ps_set_fetch ps (ps_inflight ps) q run).
Proof. intros Hq ps [? ? ? ?]. by repeat split. Qed.

Lemma core_materialise e a ps leaf adv tmp now net : core (materialise_step cfg e a ps leaf adv tmp now net).1 = core e.
Proof. unfold materialise_step. by destruct (materialise _ _ _ _ _ _ _ _). Qed.

Lemma inv_puller_step e a tmp now net e' : inv e → puller_step cfg e a tmp now net = Some e' → inv e'.
Proof.
  intros Hi (ps & Hps & _ & Hrf)%puller_step_run. revert Hrf. unfold runFetch.
  assert (length (ps_fetchQ ps) ≤ fetchQueueDepth)%nat as Hq by (by destruct (inv_states e Hi a ps Hps) as [_ [? ? ? ?]]).
  assert (∀ e q run, (length q ≤ fetchQueueDepth)%nat → inv e → inv (set_running e a q run)) as Hrun.
  { intros. apply inv_upd_ps; [by apply frame_running | done]. }
  destruct (ps_running ps) as [task |].
  - intros Heq. apply (inj Some) in Heq as <-. eapply inv_frame; [apply core_materialise |]. by apply Hrun.
  - destruct (ps_fetchQ ps) as [|task q]; [done |]. assert (length q ≤ fetchQueueDepth)%nat as Hq' by (simpl in Hq; lia).
    destruct (ft_preserve task) as [copy |]; intros Heq.
    + pose proof (core_materialise (set_running e a q None) a ps copy (ft_preserveAdvertise task) tmp now net) as Hm.
      destruct (materialise_step _ _ _ _ _ _ _ _ _) as [e1 ok]. apply (inj Some) in Heq as <-.
      assert (inv e1) as Hi1 by (eapply inv_frame; [apply Hm | by apply Hrun]).
      repeat case_match; [auto with inv.. | by apply Hrun].
    + apply (inj Some) in Heq as <-. eapply inv_frame; [apply core_materialise |]. by apply Hrun.
Qed.

Lemma inv_server_step e a e' : inv e → server_step e a = Some e' → inv e'.
Proof.
  intros Hi. unfold server_step. destruct (e_states e !! a) as [ps |] eqn:Hps; [| done]. cbn [mbind option_bind].
  destruct (ps_serveQ ps) as [|req q] eqn:Hq; [done |]. intros Heq. apply (inj Some) in Heq as <-.
  destruct (inv_states e Hi a ps Hps) as [_ [? ? ? Hlen]]. rewrite Hq in Hlen. simpl in Hlen.
  eapply inv_frame; [apply core_send |]. apply inv_upd_ps; [| done]. intros ps' [? ? ? ?].
  split; [| done]. split; [done | done | done |]. simpl. lia.
Qed.

Lemma inv_reconcileShort e s : inv e → inv (reconcileShort cfg e s).
Proof. intros Hi. unfold reconcileShort. case_match; auto with inv. Qed.
#[local] Hint Resolve inv_reconcileShort : inv.

Lemma inv_handleCompletion e c : inv e → inv (handleCompletion cfg e c).
Proof.
  intros Hi. unfold handleCompletion. cbv zeta.
  assert (inv (rebuild (set_files e (<[Path (cp_leaf c) := cp_leaf c]> (e_files e))))) as Hr.
  { apply inv_rebuild; [done |]. apply keyed_insert; [apply Hi | done]. }
  repeat case_match; auto 6 with inv.
Qed.
#[local] Hint Resolve inv_handleCompletion inv_handleTransportEvent : inv.

(** *** Local changes *)

Lemma scanOne_path d key ent nfi : scanOne d key ent = Some nfi → Path nfi = key.
Proof. unfold scanOne, entry_info. repeat case_match; naive_solver. Qed.

Lemma unchanged_leaf_Some prev nfi p : unchanged_leaf prev nfi = Some p → prev = Some p ∧ Deleted p = false ∧
  ContentHash p = ContentHash nfi ∧ Type_ p = Type_ nfi ∧ Size p = Size nfi.
Proof.
  unfold unchanged_leaf. destruct prev as [q |]; [| done]. destruct (Deleted q) eqn:Hd; [done |].
  repeat case_bool_decide; simpl; try done. destruct (Z.eqb_spec (Size q) (Size nfi)); naive_solver.
Qed.

(** A change of mtime alone is invisible to the hash. *)
Lemma similar_set_mtime f k p ns : f !! k = Some p → similar f (<[k := set_mtime p ns]> f).
Proof.
  intros Hp k'. destruct (decide (k = k')) as [<- | Hne]; [| by rewrite lookup_insert_ne].
  rewrite lookup_insert_eq, Hp. done.
Qed.

Lemma inv_set_mtime e k p ns : inv e → e_files e !! k = Some p → inv (set_files e (<[k := set_mtime p ns]> (e_files e))).
Proof.
  intros Hi Hp. apply inv_similar; [done | | by apply similar_set_mtime].
  apply keyed_insert; [apply Hi | exact (inv_keyed e Hi k p Hp)].
Qed.

Lemma inv_onLocalChange e key : inv e → inv (onLocalChange cfg e key).
Proof.
  intros Hi. unfold onLocalChange. destruct (internalFile key); [done |]. cbv zeta.
  destruct (inflightLocked e key); [done |]. pose proof (inv_keyed e Hi) as Hk.
  assert (∀ ent, inv (match scanOne (e_disk e) key ent with
      | None => e
      | Some nfi =>
        match unchanged_leaf (e_files e !! key) nfi with
        | Some p => if negb (ModTimeNS p =? ModTimeNS nfi)
                    then set_files e (<[key := set_mtime p (ModTimeNS nfi)]> (e_files e)) else e
        | None => broadcastUpdate cfg (rebuild (set_files e
            (<[key := set_version nfi (Bump (zero_version (e_files e !! key)) (selfShort cfg))]> (e_files e))))
            [set_version nfi (Bump (zero_version (e_files e !! key)) (selfShort cfg))]
        end end)) as Hent.
  { intros ent. destruct (scanOne (e_disk e) key ent) as [nfi |] eqn:Hn; [| done]. apply scanOne_path in Hn.
    destruct (unchanged_leaf _ nfi) as [p |] eqn:Hu.
    - apply unchanged_leaf_Some in Hu as [Hp _]. case_match; [by apply inv_set_mtime | done].
    - apply inv_broadcast, inv_rebuild; [done |]. by apply keyed_insert. }
  destruct (e_disk e !! key) as [[] |]; [apply Hent.. | done |].
  destruct (e_files e !! key) as [p |] eqn:Hp; [| done]. destruct (Deleted p); [done |].
  apply inv_broadcast, inv_rebuild; [done |]. apply keyed_insert; [done | exact (Hk key p Hp)].
Qed.

(** The first loop of a rescan: the map stays filed by path, and with no record
    authored it stays similar. *)
Lemma rescan_one_inv (infl : bytes → bool) (files0 files : Files) delta s :
  keyed files → (delta = [] → similar files0 files) →
  keyed (rescan_one cfg infl (files, delta) s).1 ∧
  ((rescan_one cfg infl (files, delta) s).2 = [] → similar files0 (rescan_one cfg infl (files, delta) s).1).
Proof.
  intros Hk Hs. unfold rescan_one. destruct (unchanged_leaf _ s) as [p |] eqn:Hu.
  - apply unchanged_leaf_Some in Hu as [Hp _]. pose proof (Hk _ _ Hp) as Hpp. cbn [fst snd]. case_match; [| done].
    split; [by apply keyed_insert |]. intros Hn. etransitivity; [by apply Hs |]. by apply similar_set_mtime.
  - destruct (infl (Path s)); [done |]. cbn [fst snd]. split; [by apply keyed_insert |]. intros Hn. by destruct delta.
Qed.

Lemma rescan_loop_inv (infl : bytes → bool) (files0 : Files) scanned files delta :
  keyed files → (delta = [] → similar files0 files) →
  let r := foldl (rescan_one cfg infl) (files, delta) scanned in keyed r.1 ∧ (r.2 = [] → similar files0 r.1).
Proof.
  revert files delta. induction scanned as [|s scanned IH]; intros files delta Hk Hs; [done |].
  cbn [foldl]. destruct (rescan_one_inv infl files0 files delta s Hk Hs) as [Hk1 Hs1].
  destruct (rescan_one cfg infl (files, delta) s) as [files1 delta1]. by apply IH.
Qed.

Lemma rescan_gone_lookup present files k :
  (rescan_gone cfg present files).1 !! k =
  (λ fi, if negb (Deleted fi) && bool_decide (k ∉ present) then SetDeleted fi (selfShort cfg) else fi) <$> files !! k.
Proof. unfold rescan_gone. cbn [fst]. rewrite map_lookup_imap. by destruct (files !! k). Qed.

Lemma rescan_gone_elem present files fi :
  fi ∈ (rescan_gone cfg present files).2 ↔
  ∃ k p, files !! k = Some p ∧ Deleted p = false ∧ k ∉ present ∧ fi = SetDeleted p (selfShort cfg).
Proof.
  unfold rescan_gone. cbn [snd]. rewrite list_elem_of_omap. split.
  - intros ([k p] & Hin%elem_of_map_to_list & Hr). destruct (Deleted p) eqn:Hd; [done |].
    case_bool_decide; [| done]. simpl in Hr. exists k, p. naive_solver.
  - intros (k & p & Hin & Hd & Hn & ->). exists (k, p). split; [by apply elem_of_map_to_list |].
    rewrite Hd. by rewrite bool_decide_eq_true_2.
Qed.

Lemma rescan_gone_inv present files :
  keyed files → keyed (rescan_gone cfg present files).1 ∧
  ((rescan_gone cfg present files).2 = [] → (rescan_gone cfg present files).1 = files).
Proof.
  intros Hk. split.
  - intros k fi. rewrite rescan_gone_lookup, fmap_Some. intros (p & Hp & ->). case_match; by apply (Hk k p).
  - intros Hn. apply map_eq. intros k. rewrite rescan_gone_lookup. destruct (files !! k) as [p |] eqn:Hp; [| done].
    simpl. f_equal. destruct (negb (Deleted p) && bool_decide (k ∉ present)) eqn:Hg; [exfalso | done].
    apply andb_true_iff in Hg as [Hd%negb_true_iff Hb%bool_decide_eq_true].
    apply (not_elem_of_nil (SetDeleted p (selfShort cfg))). rewrite <- Hn. apply rescan_gone_elem. eauto 10.
Qed.

Lemma rescan_delta_inv (infl : bytes → bool) files scanned :
  keyed files → keyed (rescan_delta cfg infl files scanned).1 ∧
  ((rescan_delta cfg infl files scanned).2 = [] → similar files (rescan_delta cfg infl files scanned).1).
Proof.
  intros Hk. unfold rescan_delta.
  destruct (rescan_loop_inv infl files scanned files [] Hk) as [Hk1 Hs1]; [done |].
  destruct (foldl _ _ scanned) as [files1 delta1]. cbn [fst snd] in *.
  destruct (rescan_gone_inv (list_to_set (Path <$> scanned)) files1 Hk1) as [Hk2 Hs2].
  destruct (rescan_gone _ _ files1) as [files2 delta2]. cbn [fst snd] in *. split; [done |].
  intros [-> ->]%app_nil. rewrite Hs2 by done. by apply Hs1.
Qed.

Lemma inv_saveSnapshot w e : inv e → inv (saveSnapshot cfg w e).
Proof. intros Hi. unfold saveSnapshot. repeat case_match; auto with inv. Qed.

Lemma gc_unchanged peers files :
  (gcTombstonesLocked peers files).2 = false → (gcTombstonesLocked peers files).1 = files.
Proof.
  intros Hch. apply map_eq. intros k. apply option_eq. intros x. rewrite gc_lookup.
  split; [tauto |]. intros Hx. split; [done |]. unfold gcTombstonesLocked in Hch. destruct peers as [|p peers]; [by left | right].
  destruct (collectable (p :: peers) x) eqn:Hcx; [exfalso | done].
  assert (existsb (collectable (p :: peers)) (set_of files) = true); [| by simpl in Hch; congruence].
  apply existsb_exists. exists x. split; [| done]. apply list_elem_of_In, elem_of_set_of. eauto.
Qed.

(** Broadcasting records nothing and touches no peer. *)
Lemma broadcast_frame e changed :
  e_states (broadcastUpdate cfg e changed) = e_states e ∧ e_peers (broadcastUpdate cfg e changed) = e_peers e ∧
  e_completions (broadcastUpdate cfg e changed) = e_completions e ∧
  e_snapshot (broadcastUpdate cfg e changed) = e_snapshot e.
Proof.
  assert (∀ m l e, let e' := foldl (λ e a, send e a m) e l in
    e_states e' = e_states e ∧ e_peers e' = e_peers e ∧ e_completions e' = e_completions e ∧
    e_snapshot e' = e_snapshot e) as Hl.
  { intros m l. induction l as [|a l IH]; intros e0; [done |]. cbn [foldl]. by apply (IH (send e0 a m)). }
  unfold broadcastUpdate. destruct changed; [done |]. cbv zeta. case_match; [| done].
  by match goal with |- context [foldl (λ e a, send e a ?m) ?e1 ?l] => destruct (Hl m l e1) as (-> & -> & -> & ->) end.
Qed.

(** What a rescan does before it reconciles with each peer keeps the invariant and
    changes no peer. *)
Lemma rescan_phases w e :
  inv e → rescan cfg w e = e ∨
  ∃ scanned e1, Scan (cfg_AbsRoot cfg) (e_disk e) = Ok scanned ∧ inv e1 ∧
    e_files e1 = (gcTombstonesLocked (peer_indexes e)
      (rescan_delta cfg (inflightLocked e) (e_files e) (dropInternal scanned)).1).1 ∧
    e_states e1 = e_states e ∧ e_peers e1 = e_peers e ∧ e_completions e1 = e_completions e ∧
    e_snapshot e1 = e_snapshot e ∧ rescan cfg w e = saveSnapshot cfg w (foldl (reconcileWithPeer cfg) e1 (addresses e1)).
Proof.
  intros Hi. unfold rescan. destruct (Scan _ _) as [scanned |]; [| by left]. right. exists scanned.
  destruct (rescan_delta_inv (inflightLocked e) (e_files e) (dropInternal scanned) (inv_keyed e Hi)) as [Hk Hs].
  destruct (rescan_delta _ _ _ _) as [files delta]. cbn [fst snd] in *.
  pose proof (gc_keyed (peer_indexes e) files Hk) as Hk'. pose proof (gc_unchanged (peer_indexes e) files) as Hu.
  destruct (gcTombstonesLocked _ files) as [files' collected]. cbn [fst snd] in *. cbv zeta.
  eexists. split; [reflexivity |]. split; [| split; [| split; [| split; [| split; [| split; [| reflexivity]]]]]].
  - apply inv_broadcast. destruct delta as [|x delta]; [| by apply inv_rebuild].
    destruct collected; simpl; [by apply inv_rebuild |]. rewrite (Hu eq_refl). apply inv_similar; auto.
  - pose proof core_broadcast as Hc. unfold core in Hc.
    match goal with |- e_files (broadcastUpdate _ ?x ?d) = _ => pose proof (f_equal (λ c, c.1.1.1.1) (Hc x d)) as Hcf end.
    cbn [fst] in Hcf. rewrite Hcf. by case_match.
  - rewrite (proj1 (broadcast_frame _ _)). by case_match.
  - rewrite (proj1 (proj2 (broadcast_frame _ _))). by case_match.
  - rewrite (proj1 (proj2 (proj2 (broadcast_frame _ _)))). by case_match.
  - rewrite (proj2 (proj2 (proj2 (broadcast_frame _ _)))). by case_match.
Qed.

Lemma inv_rescan w e : inv e → inv (rescan cfg w e).
Proof.
  intros Hi. destruct (rescan_phases w e Hi) as [-> | (_ & e1 & _ & Hi1 & _ & _ & _ & _ & _ & ->)]; [done |].
  apply inv_saveSnapshot, inv_foldl; [intros; auto with inv | done].
Qed.

Lemma dropCounter_keyed id files : keyed files → keyed (dropCounterLocked id files).1.
Proof. apply keyed_fmap. intros fi. by case_match. Qed.

Lemma dropCounter_unchanged id files : (dropCounterLocked id files).2 = false → (dropCounterLocked id files).1 = files.
Proof.
  intros Hn. apply map_eq. intros k. cbn [fst dropCounterLocked]. rewrite lookup_fmap. destruct (files !! k) as [fi |] eqn:Hk; [| done].
  simpl. f_equal. destruct (IsEqual _ _) eqn:He; [done |]. exfalso. cbn [snd dropCounterLocked] in Hn.
  assert (existsb (λ fi, negb (IsEqual (dropFromVV (Version fi) id) (Version fi))) (set_of files) = true); [| congruence].
  apply existsb_exists. exists fi. rewrite He. split; [| done]. apply list_elem_of_In, elem_of_set_of. eauto.
Qed.

Lemma inv_DropCounter e id : inv e → inv (DropCounter e id).
Proof.
  intros Hi. unfold DropCounter. pose proof (dropCounter_keyed id (e_files e) (inv_keyed e Hi)) as Hk.
  pose proof (dropCounter_unchanged id (e_files e)) as Hu.
  destruct (dropCounterLocked id (e_files e)) as [files changed]. cbn [fst snd] in *.
  destruct changed; [by apply inv_rebuild |]. rewrite (Hu eq_refl). by apply (inv_frame e).
Qed.

(** *** Start-up and steps *)

Lemma sweep_keyed paired files : keyed files → keyed (sweepDepairedCountersLocked paired files).1.
Proof.
  intros Hk. unfold sweepDepairedCountersLocked. destruct paired as [paired |]; [| done].
  generalize false. generalize (dead_ids paired files). intros ids. revert files Hk.
  induction ids as [|id ids IH]; intros files Hk b; [done |]. cbn [foldl].
  pose proof (dropCounter_keyed id files Hk). destruct (dropCounterLocked id files). by apply IH.
Qed.

Lemma inv_New snap d e : New cfg snap d = Ok e → inv e.
Proof.
  unfold New. case_decide; [done |]. unfold startupReconcile. rewrite rbind_Ok. intros (prev & _ & Hr). apply rbind_Ok in Hr as (cur & _ & Hr).
  apply Ok_inj in Hr as <-. split; cbn; [apply sweep_keyed, keyed_files_of | | done | done].
  intros t Hb. unfold rebuildLocked. by rewrite Hb.
Qed.

Lemma inv_own_step e e' : inv e → own_step cfg e e' → inv e'.
Proof.
  intros Hi Hs. destruct Hs; auto with inv.
  - unfold onPeerDiscovered. repeat case_match; auto with inv.
  - by apply inv_set_dialing.
  - by apply inv_onLocalChange.
  - by apply inv_rescan.
  - by apply inv_saveSnapshot.
  - by apply inv_DropCounter.
  - by eapply inv_puller_step.
  - by eapply inv_server_step.
  - unfold requestChunk_send. case_match; [| done]. cbv zeta. apply inv_send, inv_upd_ps; [| done].
    apply (frame_resp (λ ps, _) (λ _, _)).
  - unfold requestChunk_done. case_match; [| done]. cbn [fst]. apply inv_upd_ps; [| done].
    apply (frame_resp (λ ps, _) (λ ps, ps_nextReq ps)).
Qed.

Lemma inv_step e e' : inv e → step cfg e e' → inv e'.
Proof. intros Hi Hs. destruct Hs; [by eapply inv_own_step | auto with inv | by apply inv_shutdownPeers]. Qed.

Lemma reachable_inv e : reachable cfg e → inv e.
Proof.
  intros (snap & d & e0 & Hs & Hr). apply inv_New in Hs. induction Hr as [|e1 e2 e3 Hst _ IH]; [done |].
  apply IH. by eapply inv_step.
Qed.
End invariant.

(** * Properties *)

(** C14: in every reachable state of the engine, whatever the interleaving of local
    edits, peer messages, connections, the pullers and servers and the rescan:
    records are filed under their own paths; the root hash announced in HELLO is
    the root hash of the tree of the recorded set, whenever the set forms a tree;
    every peer on the map has its own live state; and every connection's index is
    filed by path and its queues are within their depths. *)
Theorem reachable_consistent `{OS, Digest, Unicode} cfg e :
  reachable cfg e →
  keyed (e_files e) ∧
  (∀ t, BuildTree (set_of (e_files e)) = Ok t → h_RootHash (Hello_of cfg e) = RootHash (Some t)) ∧
  (∀ id a, e_peers e !! id = Some a → ∃ ps, e_states e !! a = Some ps ∧ ps_device ps = id ∧ ps_cancelled ps = false) ∧
  (∀ a ps, e_states e !! a = Some ps → ps_ok ps).
Proof.
  intros [Hk Hco Hs Hp]%reachable_inv. split_and!; [done | done | done |].
  intros a ps Hps. by apply (Hs a ps Hps).
Qed.

Section invariant_witness.
#[local] Existing Instance toy_digest.
Lemma reachable_consistent_witness :
  ∃ t, BuildTree (set_of (e_files e_recreated)) = Ok t ∧ h_RootHash (Hello_of home e_recreated) = RootHash (Some t).
Proof.
  destruct (reachable_consistent home e_recreated e_recreated_reachable) as (_ & Hco & _).
  destruct (BuildTree (set_of (e_files e_recreated))) as [t |] eqn:Hb.
  - exists t. split; [reflexivity |]. exact (Hco t eq_refl).
  - exfalso. vm_compute in Hb. discriminate.
Defined.
End invariant_witness.
