(* ===== verification/Reconcile.v ===== *)
(** * Reconcile: what reconciling with a peer can do

    reconcileWithPeer is refined to a sequence of two kinds of effects: queueing
    work for the puller of that peer, and applying a deletion that is [due], that
    is, the verdict of the resolver on the two records of its path, and not one
    that destroys the only copy of content the peer does not supersede. What can
    be lost and what is broadcast follows from the effects alone. *)
From S2P Require Import Prelude Bytes VersionVector Framing Messages Windows Pathnorm Hashing.
From S2P Require Import FileInfo Tree Oracle Differ Conflict Scanner Disk Transfer Replica Engine.
From S2P Require Import Story Invariant.

Section reconcile.
Context `{OS, Digest, Unicode}.
Context (cfg : Config).

(** ** Effects *)

(** The deletion of the record [l] against the peer's [r] takes nothing with it:
    [l] is a tombstone already, or the peer's deletion dominates it, or it is not a
    regular file (whose content is not synchronised). *)
Definition lossless (l r : FileInfo) : Prop :=
  Deleted l = true ∨ (Deleted r = true ∧ (Type_ l ≠ TypeFile ∨ Compare (Version l) (Version r) = DominatedBy)).

Definition due (files idx : Files) (t : FileInfo) : Prop :=
  Deleted t = true ∧ ∃ l r, files !! Path t = Some l ∧ idx !! Path t = Some r ∧
    kind (resolve (Some l) (Some r) (selfShort cfg)) ≠ planNoOp ∧
    outcome (Some l) (resolve (Some l) (Some r) (selfShort cfg)) = Some t ∧ lossless l r.

(** The paths whose work a peer's state holds: both of a task still queued, the
    leaf's alone once its copy has been made. *)
Definition task_keys (t : fetchTask) : list bytes :=
  Path (ft_leaf t) :: (Path <$> option_list (ft_preserve t)).
Definition work_keys (ps : peerState) : list bytes :=
  concat (task_keys <$> ps_fetchQ ps) ++ ((λ t, Path (ft_leaf t)) <$> option_list (ps_running ps)).

Lemma elem_of_work_keys ps k :
  k ∈ work_keys ps ↔ (∃ t, t ∈ ps_fetchQ ps ∧ k ∈ task_keys t) ∨ (∃ t, ps_running ps = Some t ∧ Path (ft_leaf t) = k).
Proof.
  unfold work_keys. rewrite elem_of_app. f_equiv.
  - rewrite list_elem_of_In, in_concat. setoid_rewrite <- list_elem_of_In. setoid_rewrite list_elem_of_fmap. naive_solver.
  - destruct (ps_running ps) as [t |]; cbn; rewrite ?list_elem_of_singleton; [naive_solver |]. set_solver.
Qed.

(** An update of a peer's state that at most queues work: nothing leaves the queue or
    the set of paths in flight, and what enters that set has work queued. *)
Record enqueues (f : peerState → peerState) : Prop := mkEnqueues {
  enq_frame : ps_frame f;
  enq_short ps : ps_short (f ps) = ps_short ps;
  enq_index ps : ps_index (f ps) = ps_index ps;
  enq_calls ps : ps_resp (f ps) = ps_resp ps ∧ ps_nextReq (f ps) = ps_nextReq ps;
  enq_inflight ps : ps_inflight ps ⊆ ps_inflight (f ps);
  enq_length ps : (length (ps_fetchQ ps) ≤ length (ps_fetchQ (f ps)))%nat;
  enq_work ps : work_keys ps ⊆ work_keys (f ps);
  enq_backed ps k : k ∈ ps_inflight (f ps) → k ∈ ps_inflight ps ∨ k ∈ work_keys (f ps)
}.

(** [k] is in flight, or there is no room for it in the queue. *)
Definition occupied (ps : peerState) (k : bytes) : Prop :=
  k ∈ ps_inflight ps ∨ (fetchQueueDepth ≤ length (ps_fetchQ ps))%nat.

Inductive effect (files idx : Files) (a : nat) (e : Engine) : Engine → Prop :=
| effect_enqueue f : enqueues f → effect files idx a e (upd_ps e a f)
| effect_delete t : due files idx t → effect files idx a e (applyTombstone cfg e t).

(** ** The refinement *)

Section refinement.
Context (files idx : Files) (a : nat).
Notation eff := (effect files idx a).

(** Recorded leaves change only where a deletion was due. *)
Definition tracked (e : Engine) : Prop :=
  ∀ k, e_files e !! k = files !! k ∨ ∃ t, due files idx t ∧ Path t = k ∧ e_files e !! k = Some t.

Lemma e_files_broadcast e changed : e_files (broadcastUpdate cfg e changed) = e_files e.
Proof. pose proof (core_broadcast cfg e changed) as Hc. unfold core in Hc. by injection Hc. Qed.

Lemma e_files_applyTombstone e t : e_files (applyTombstone cfg e t) = <[Path t := t]> (e_files e).
Proof. unfold applyTombstone. cbv zeta. case_match; [by rewrite e_files_broadcast | done]. Qed.

Lemma effect_tracked e e' : eff e e' → tracked e → tracked e'.
Proof.
  intros [f _ | t Ht] Htr k; [apply Htr |]. rewrite e_files_applyTombstone.
  destruct (decide (Path t = k)) as [<- | Hne]; [right; exists t; by rewrite lookup_insert_eq |].
  rewrite lookup_insert_ne by done. apply Htr.
Qed.
Lemma effects_tracked e e' : rtc eff e e' → tracked e → tracked e'.
Proof. induction 1 as [|e1 e2 e3 Hs _ IH]; [done |]. intros Htr. by apply IH, (effect_tracked e1). Qed.

Lemma enqueues_if (c : peerState → Prop) `{∀ ps, Decision (c ps)} (keys : gset bytes) task :
  (∀ k, k ∈ keys → k ∈ task_keys task) →
  enqueues (λ ps, if decide (c ps) then ps
                  else if (length (ps_fetchQ ps) <? fetchQueueDepth)%nat
                       then ps_set_fetch ps (keys ∪ ps_inflight ps) (ps_fetchQ ps ++ [task]) (ps_running ps) else ps).
Proof.
  intros Hk. split; [by apply (frame_enqueue c (λ ps, keys ∪ ps_inflight ps)) |..]; intros ps;
    destruct (decide (c ps)); try destruct (length (ps_fetchQ ps) <? fetchQueueDepth)%nat;
    cbn [ps_set_fetch ps_inflight ps_fetchQ ps_index ps_short]; try done; try by left.
  - set_solver.
  - rewrite length_app. lia.
  - intros k. rewrite !elem_of_work_keys. intros [(t & Ht & Hkt) | Hrun]; [left; exists t | by right].
    split; [apply elem_of_app; by left | done].
  - intros k [Hin | Hin]%elem_of_union; [right | by left]. apply Hk in Hin.
    apply elem_of_work_keys. left. exists task. split; [apply elem_of_app; right; by apply list_elem_of_singleton | done].
Qed.
Lemma enqueued_occupied (c : peerState → Prop) `{∀ ps, Decision (c ps)} (keys : gset bytes) task k ps :
  (c ps → k ∈ ps_inflight ps) → k ∈ keys →
  occupied (if decide (c ps) then ps
            else if (length (ps_fetchQ ps) <? fetchQueueDepth)%nat
                 then ps_set_fetch ps (keys ∪ ps_inflight ps) (ps_fetchQ ps ++ [task]) (ps_running ps) else ps) k.
Proof.
  intros Hc Hk. destruct (decide (c ps)) as [Hp | _]; [left; auto |].
  destruct (Nat.ltb_spec (length (ps_fetchQ ps)) fetchQueueDepth); [left | by right].
  cbn [ps_set_fetch ps_inflight]. set_solver.
Qed.

(** What executing a verdict on the path [k] amounts to. *)
Inductive carried (k : bytes) (p : plan) (e : Engine) : Engine → Prop :=
| carried_noop : kind p = planNoOp → carried k p e e
| carried_refused c : p_loser p = Some c → WouldExceedMaxPath (cfg_AbsRoot cfg) (Path c) = true → carried k p e e
| carried_queued f : enqueues f → (∀ ps, occupied (f ps) k) → carried k p e (upd_ps e a f)
| carried_deleted t : due files idx t → Path t = k → carried k p e (applyTombstone cfg e t).

Lemma carried_effect k p e e' : carried k p e e' → rtc eff e e'.
Proof. intros []; try reflexivity; apply rtc_once; [by apply effect_enqueue | by apply effect_delete]. Qed.

Lemma carried_enqueueFetch e leaf adv p : carried (Path leaf) p e (enqueueFetch e a leaf adv).
Proof.
  apply carried_queued; [apply (enqueues_if (λ ps, Path leaf ∈ ps_inflight ps)); intros k ->%elem_of_singleton; left |].
  intros ps. refine (enqueued_occupied (λ ps, Path leaf ∈ ps_inflight ps) _ _ _ ps _ _); [done | by apply elem_of_singleton].
Qed.
Lemma carried_enqueueConflict e l w p : carried (Path w) p e (enqueueConflict e a l w).
Proof.
  apply carried_queued; [apply (enqueues_if (λ ps, Path w ∈ ps_inflight ps)); intros k ->%elem_of_singleton; left |].
  intros ps. refine (enqueued_occupied (λ ps, Path w ∈ ps_inflight ps) _ _ _ ps _ _); [done | by apply elem_of_singleton].
Qed.
Lemma effect_enqueueRename e c t : eff e (enqueueRename e a c t).
Proof.
  apply effect_enqueue, (enqueues_if (λ ps, Path c ∈ ps_inflight ps ∨ Path t ∈ ps_inflight ps)).
  intros k [->%elem_of_singleton | ->%elem_of_singleton]%elem_of_union; [right; left | left].
Qed.

(** An entry carries the two sides' records of its path. *)
Definition entry_ok (d : DiffEntry) : Prop :=
  (∀ l, Local d = Some l → files !! Path l = Some l) ∧ (∀ r, Remote d = Some r → idx !! Path r = Some r) ∧
  (∀ l r, Local d = Some l → Remote d = Some r → Path l = Path r).

(** The custodian of a conflict's live loser holds its content on record. *)
Lemma loser_held e l r :
  tracked e → files !! Path l = Some l → idx !! Path l = Some r →
  Deleted l = false → Type_ l = TypeFile → Compare (Version l) (Version r) ≠ DominatedBy →
  hasLocalContent e (ContentHash l) = true.
Proof.
  intros Htr Hl Hr Hd Ht Hc. destruct (Htr (Path l)) as [Hf | (t & (_ & l' & r' & Hl' & Hr' & _ & _ & Hloss) & Hp & _)].
  - unfold hasLocalContent. apply existsb_exists. exists l. split.
    + apply list_elem_of_In, elem_of_set_of. exists (Path l). by rewrite Hf.
    + rewrite Hd, !bool_decide_eq_true_2 by done. done.
  - exfalso. rewrite Hp in Hl', Hr'. assert (l' = l) as -> by congruence. assert (r' = r) as -> by congruence.
    destruct Hloss as [? | [_ [? | ?]]]; congruence.
Qed.

Lemma conflictPlan_cases l r :
  conflictPlan l r = plan_noop ∨
  (kind (conflictPlan l r) = planConflict ∧ Path (p_winner (conflictPlan l r)) = Path l ∧
   ((p_winner (conflictPlan l r) = set_path l (Path l) ∧ loserOf l r = r) ∨
    (p_winner (conflictPlan l r) = set_path r (Path l) ∧ loserOf l r = l)) ∧
   match p_loser (conflictPlan l r) with
   | Some cp => Deleted (loserOf l r) = false ∧ ContentHash cp = ContentHash (loserOf l r)
   | None => Deleted (loserOf l r) = true
   end).
Proof.
  unfold conflictPlan. assert (winner l r = l ∧ loserOf l r = r ∨ winner l r = r ∧ loserOf l r = l) as Hw.
  { unfold winner, loserOf. destruct (aWins l r); auto. }
  destruct (Deleted (loserOf l r)) eqn:Hd.
  - right. cbn. destruct Hw as [[-> ->] | [-> ->]]; naive_solver.
  - destruct (conflictName _ _); [right | by left]. cbn. destruct Hw as [[-> ->] | [-> ->]]; naive_solver.
Qed.

Lemma due_carried e l r t :
  files !! Path l = Some l → idx !! Path l = Some r → Path l = Path r →
  Deleted t = true → Path t = Path l → kind (resolve (Some l) (Some r) (selfShort cfg)) ≠ planNoOp →
  outcome (Some l) (resolve (Some l) (Some r) (selfShort cfg)) = Some t → lossless l r →
  carried (Path r) (resolve (Some l) (Some r) (selfShort cfg)) e (applyTombstone cfg e t).
Proof.
  intros Hl Hr Hp Hd Ht Hk Ho Hloss. apply carried_deleted; [| congruence]. split; [done |].
  exists l, r. by rewrite Ht.
Qed.

(** A conflict's winning deletion is carried out only when nothing is lost. *)
Lemma conflict_carries e l r :
  tracked e → files !! Path l = Some l → idx !! Path l = Some r → Path l = Path r →
  Compare (Version l) (Version r) ≠ DominatedBy → resolve (Some l) (Some r) (selfShort cfg) = conflictPlan l r →
  carried (Path r) (conflictPlan l r) e (execute cfg e a (conflictPlan l r)).
Proof.
  intros Htr Hl Hr Hp Hc Hres. destruct (conflictPlan_cases l r) as [-> | (Hk & Hpw & Hw & Hlo)]; [by apply carried_noop |].
  pose proof (due_carried e l r (p_winner (conflictPlan l r)) Hl Hr Hp) as Hdue. rewrite Hres in Hdue.
  unfold execute. rewrite Hk. rewrite Hp in Hpw.
  assert (Deleted (p_winner (conflictPlan l r)) = true → (p_loser (conflictPlan l r) = None ∨
      hasLocalContent e (ContentHash (loserOf l r)) = false) →
    carried (Path r) (conflictPlan l r) e (applyTombstone cfg e (p_winner (conflictPlan l r)))) as Hdel.
  { intros Hd Hcase. apply Hdue; [done | congruence | by rewrite Hk | unfold outcome; by rewrite Hk |].
    destruct (Deleted l) eqn:Hdl; [by left |]. right.
    destruct Hw as [[Hw Hlw] | [Hw Hlw]]; rewrite Hw in Hd; cbn in Hd; [congruence |]. split; [done |]. left.
    intros Ht. rewrite Hlw in Hlo, Hcase. destruct Hcase as [Hn | Hn]; [rewrite Hn in Hlo; congruence |].
    by rewrite (loser_held e l r) in Hn. }
  pose proof (carried_enqueueFetch e (p_winner (conflictPlan l r)) false (conflictPlan l r)) as Hfetch. rewrite Hpw in Hfetch.
  destruct (p_loser (conflictPlan l r)) as [cp |] eqn:Hcp.
  - destruct Hlo as [Hld Hch]. rewrite Hch. destruct (hasLocalContent e (ContentHash (loserOf l r))) eqn:Hloc.
    + destruct (WouldExceedMaxPath _ _) eqn:Hmax; [by apply (carried_refused _ _ _ cp) |].
      rewrite <- Hpw. apply carried_enqueueConflict.
    + destruct (Deleted (p_winner _)); [apply Hdel; auto | done].
  - destruct (Deleted (p_winner _)); [apply Hdel; auto | done].
Qed.

Definition entry_key (d : DiffEntry) : bytes := default [] (Path <$> Remote d).

Lemma execute_carries e d :
  tracked e → entry_ok d →
  let p := resolve (Local d) (Remote d) (selfShort cfg) in carried (entry_key d) p e (execute cfg e a p).
Proof.
  intros Htr (Hl & Hr & Hlr). cbv zeta. unfold entry_key.
  destruct (Remote d) as [r |]; [| destruct (Local d); by apply carried_noop].
  cbn [fmap option_fmap option_map default from_option id]. specialize (Hr r eq_refl). destruct (Local d) as [l |].
  2:{ unfold resolve. destruct (Deleted r) eqn:Hd; [by apply carried_noop |]. unfold execute. cbn [kind install plan_install].
      rewrite Hd. apply carried_enqueueFetch. }
  specialize (Hl l eq_refl). pose proof (Hlr l r eq_refl eq_refl) as Hp. rewrite <- Hp in Hr.
  pose proof (λ t, due_carried e l r t Hl Hr Hp) as Hdue.
  pose proof (conflict_carries e l r Htr Hl Hr Hp) as Hconf. unfold resolve in *.
  destruct (Compare (Version l) (Version r)) eqn:Hc.
  - destruct (same_content l r); [by apply carried_noop | by apply Hconf].
  - by apply carried_noop.
  - unfold execute. cbn [kind install plan_install]. destruct (Deleted (set_version r _)) eqn:Hd.
    + apply Hdue; try done. right. split; [done | by right].
    + apply (carried_enqueueFetch _ (set_version r _)).
  - destruct (same_content l r) eqn:Hs; [| by apply Hconf]. unfold execute. cbn [kind install plan_install].
    destruct (Deleted (set_version l _)) eqn:Hd.
    + apply Hdue; try done. by left.
    + rewrite <- Hp. apply (carried_enqueueFetch _ (set_version l _)).
Qed.

Lemma execute_refines e d :
  tracked e → entry_ok d → rtc eff e (execute cfg e a (resolve (Local d) (Remote d) (selfShort cfg))).
Proof. intros Htr Hd. eapply carried_effect. by apply execute_carries. Qed.

Lemma conflictPlan_no_install l r : kind (conflictPlan l r) ≠ planInstall.
Proof. destruct (conflictPlan_cases l r) as [-> | (-> & _)]; done. Qed.

Lemma install_due d :
  entry_ok d → let p := resolve (Local d) (Remote d) (selfShort cfg) in
  kind p = planInstall → Deleted (install p) = true → due files idx (install p).
Proof.
  intros (Hl & Hr & Hlr) p Hk Hd. unfold p in *. clear p.
  destruct (Remote d) as [r |]; [| by destruct (Local d)]. specialize (Hr r eq_refl).
  destruct (Local d) as [l |]; [| unfold resolve in *; by destruct (Deleted r) eqn:?; cbn in *; congruence].
  specialize (Hl l eq_refl). pose proof (Hlr l r eq_refl eq_refl) as Hp. rewrite <- Hp in Hr.
  assert (Path (install (resolve (Some l) (Some r) (selfShort cfg))) = Path l ∧ lossless l r) as [Hpi Hloss].
  { unfold resolve in *. destruct (Compare (Version l) (Version r)) eqn:Hc.
    - destruct (same_content l r); [done | by apply conflictPlan_no_install in Hk].
    - done.
    - cbn in *. split; [done |]. right. auto.
    - destruct (same_content l r); [| by apply conflictPlan_no_install in Hk]. cbn in *. split; [done | by left]. }
  split; [done |]. exists l, r. rewrite Hpi. split_and!; try done; [by rewrite Hk | unfold outcome; by rewrite Hk].
Qed.

Definition create_ok (c : plan) : Prop := kind c = planInstall ∧ Deleted (install c) = false.
Definition tomb_ok (t : tombInstall) : Prop := kind (ti_plan t) = planInstall ∧ due files idx (install (ti_plan t)).

Lemma resolve_all_refines e ds :
  tracked e → Forall entry_ok ds →
  let '(e', creates, tombs) := resolve_all cfg e a ds in
  rtc eff e e' ∧ Forall create_ok creates ∧ Forall tomb_ok tombs.
Proof.
  revert e. induction ds as [|d ds IH]; intros e Htr Hds; cbn [resolve_all]; [done |].
  apply Forall_cons in Hds as [Hd Hds]. destruct (IsTypeClash d); [by apply IH |]. cbv zeta.
  pose proof (install_due d Hd) as Hdue. cbv zeta in Hdue. pose proof (execute_refines e d Htr Hd) as Hexec.
  set (p := resolve (Local d) (Remote d) (selfShort cfg)) in *. clearbody p.
  destruct (decide (kind p = planInstall)) as [Hk | Hk].
  - rewrite !bool_decide_eq_true_2 by done. specialize (IH e Htr Hds). cbn [andb].
    destruct (Deleted (install p)) eqn:Hdel; cbn [negb];
      destruct (resolve_all cfg e a ds) as [[e' creates] tombs]; destruct IH as (He & Hc & Ht); split_and!; try done.
    + constructor; [split; cbn; auto | done].
    + by constructor.
  - rewrite !bool_decide_eq_false_2 by done. cbn [andb].
    specialize (IH (execute cfg e a p) (effects_tracked _ _ Hexec Htr) Hds).
    destruct (resolve_all cfg (execute cfg e a p) a ds) as [[e' creates] tombs].
    destruct IH as (He & ? & ?). split_and!; [by etransitivity | done | done].
Qed.

Lemma pair_tomb_ok e hash tombs t tombs' :
  pair_tomb e a hash tombs = Some (t, tombs') → Forall tomb_ok tombs → Forall tomb_ok tombs'.
Proof.
  revert tombs'. induction tombs as [|x tombs IH]; intros tombs'; cbn [pair_tomb]; [done |].
  intros Hp [Hx Ht]%Forall_cons. destruct (_ && _).
  - injection Hp as <- <-. by constructor.
  - destruct (pair_tomb e a hash tombs) as [[t1 rest] |]; [| done]. cbn in Hp. injection Hp as <- <-. constructor; auto.
Qed.

Lemma pair_creates_refines e creates tombs :
  Forall create_ok creates → Forall tomb_ok tombs →
  let '(e', creates', tombs') := pair_creates e a creates tombs in
  rtc eff e e' ∧ Forall create_ok creates' ∧ Forall tomb_ok tombs'.
Proof.
  revert e tombs. induction creates as [|c creates IH]; intros e tombs Hcs Hts; cbn [pair_creates]; [done |].
  apply Forall_cons in Hcs as [Hc Hcs]. destruct (ps_has_inflight e a _); [by apply IH |].
  destruct (pair_tomb e a _ tombs) as [[t tombs1] |] eqn:Hp.
  - specialize (IH (enqueueRename e a (install c) (install (ti_plan t))) tombs1 Hcs (pair_tomb_ok _ _ _ _ _ Hp Hts)).
    destruct (pair_creates _ a creates tombs1) as [[e' creates'] tombs']. destruct IH as (He & ? & ?).
    split_and!; [| done | done]. eapply rtc_l; [apply effect_enqueueRename | done].
  - specialize (IH e tombs Hcs Hts). destruct (pair_creates e a creates tombs) as [[e' creates'] tombs'].
    destruct IH as (He & ? & ?). split_and!; [done | by constructor | done].
Qed.

Lemma execute_creates_refines e creates : Forall create_ok creates → rtc eff e (foldl (λ e c, execute cfg e a c) e creates).
Proof.
  intros Hcs. revert e. induction Hcs as [|c creates [Hk Hd] _ IH]; intros e; [done |]. cbn [foldl].
  etransitivity; [| apply IH]. unfold execute. rewrite Hk, Hd. eapply carried_effect, (carried_enqueueFetch _ _ _ c).
Qed.

Lemma execute_tombs_refines e tombs : Forall tomb_ok tombs → rtc eff e (execute_tombs cfg e a tombs).
Proof.
  intros Hts. unfold execute_tombs. revert e. induction Hts as [|t tombs [Hk Hd] _ IH]; intros e; [done |]. cbn [foldl].
  etransitivity; [| apply IH]. case_match; [| done]. unfold execute. rewrite Hk.
  rewrite (proj1 Hd). by apply rtc_once, effect_delete.
Qed.
End refinement.

Lemma tree_entries_ok files idx lt pt :
  keyed files → keyed idx → BuildTree (snapshotFilesLocked files) = Ok lt → BuildTree (set_of idx) = Ok pt →
  Forall (entry_ok files idx) (Diff (Some lt) (Some pt)).
Proof.
  intros Hkf Hki Hlt Hpt. rewrite (BuildTree_perm_eq _ _ (snapshot_perm files)) in Hlt.
  rewrite Forall_forall. intros d Hd. apply Diff_sound in Hd as (p & Hl & Hr).
  pose proof (leaf_at_files files lt p) as Hf. pose proof (leaf_at_files idx pt p) as Hi. unfold entry_ok. rewrite Hl, Hr. split_and!.
  - intros l Hs. by apply Hf in Hs as [? _].
  - intros r Hs. by apply Hi in Hs as [? _].
  - intros l r Hs1 Hs2. apply Hf in Hs1 as [_ Hp1]; [| done..]. apply Hi in Hs2 as [_ Hp2]; [| done..].
    apply (split_on_inj slash_c). congruence.
Qed.

(** Reconciling is a sequence of effects, then tombstone collection. *)
Lemma reconcile_effects e a ps :
  inv e → e_states e !! a = Some ps →
  reconcileWithPeer cfg e a = e ∨
  ∃ e', rtc (effect (e_files e) (ps_index ps) a) e e' ∧ reconcileWithPeer cfg e a = gcTombstones e'.
Proof.
  intros Hi Hps. unfold reconcileWithPeer. rewrite Hps.
  destruct (BuildTree (snapshotFilesLocked (e_files e))) as [lt |] eqn:Hlt; [| by left].
  destruct (BuildTree (set_of (ps_index ps))) as [pt |] eqn:Hpt; [| by left]. right.
  destruct (inv_states e Hi a ps Hps) as [_ [Hix _ _ _]].
  pose proof (tree_entries_ok _ _ lt pt (inv_keyed e Hi) Hix Hlt Hpt) as Hds.
  pose proof (resolve_all_refines (e_files e) (ps_index ps) a e _ ltac:(by left) Hds) as H1'.
  destruct (resolve_all _ _ _ _) as [[e1 creates] tombs]. destruct H1' as (He1 & Hc & Ht).
  pose proof (pair_creates_refines (e_files e) (ps_index ps) a e1 creates tombs Hc Ht) as H2'.
  destruct (pair_creates _ _ _ _) as [[e2 creates'] tombs']. destruct H2' as (He2 & Hc' & Ht').
  eexists. split; [| reflexivity]. etransitivity; [done |]. etransitivity; [done |].
  etransitivity; [by apply execute_creates_refines | by apply execute_tombs_refines].
Qed.

(** ** What the effects do to the disk and to the network *)

Lemma due_unique files idx t t' : due files idx t → due files idx t' → Path t = Path t' → t = t'.
Proof.
  intros (_ & l & r & Hl & Hr & _ & Ho & _) (_ & l' & r' & Hl' & Hr' & _ & Ho' & _) Hp. rewrite Hp in Hl, Hr. congruence.
Qed.

Lemma foldl_send m l e : foldl (λ e a, send e a m) e l = set_sent e (e_sent e ++ ((λ a, (a, m)) <$> l)).
Proof.
  revert e. induction l as [|a l IH]; intros e; cbn [foldl fmap list_fmap]; [rewrite app_nil_r; by destruct e |].
  rewrite IH. unfold send. cbn. by rewrite <- app_assoc.
Qed.

(** The INDEX_UPDATE of a batch, when it can be encoded, and the counter's step. *)
Definition update_msg (changed : list FileInfo) : option Message :=
  match EncodeFileInfos (orderCreatesBeforeDeletes changed) with
  | Ok body => Some (MIndexUpdate (mkIndex (cfg_FolderID cfg)
      (wrap 32 (Z.of_nat (length (orderCreatesBeforeDeletes changed)))) body))
  | Err _ => None
  end.
Definition update_sends (peers : list nat) (changed : list FileInfo) : list (nat * Message) :=
  match update_msg changed with Some m => (λ a, (a, m)) <$> peers | None => [] end.
Definition count_one (n : Z) : Z := to_int64 (wrap 64 (n + 1)).

Lemma broadcast_sends e changed :
  changed ≠ [] →
  broadcastUpdate cfg e changed =
    set_sent (set_outbound e (count_one (e_outboundIndexUpdates e))) (e_sent e ++ update_sends (addresses e) changed).
Proof.
  intros Hne. unfold broadcastUpdate, update_sends, update_msg. destruct changed; [done |].
  destruct (EncodeFileInfos _); [by rewrite foldl_send |]. rewrite app_nil_r. by destruct e.
Qed.

Definition redundant (files : Files) (t : FileInfo) : bool :=
  match files !! Path t with
  | Some p => Deleted p && IsEqual (Version p) (Version t)
  | None => false
  end.

Lemma applyTombstone_eq e t :
  let e1 := rebuild (set_files (set_disk e (Remove (e_disk e) (Path t))) (<[Path t := t]> (e_files e))) in
  applyTombstone cfg e t = if negb (redundant (e_files e) t) then broadcastUpdate cfg e1 [t] else e1.
Proof. done. Qed.

Lemma applyTombstone_disk e t : e_disk (applyTombstone cfg e t) = Remove (e_disk e) (Path t).
Proof. rewrite applyTombstone_eq. cbv zeta. destruct (negb _); [by rewrite broadcast_sends |]. done. Qed.

(** The batches a run of effects sends: one per deletion not yet on record, which then
    is on record. *)
Record sends (files idx : Files) (e e' : Engine) (ts : list FileInfo) : Prop := mkSends {
  snd_due : Forall (λ t, due files idx t ∧ redundant files t = false) ts;
  snd_once : NoDup (Path <$> ts);
  snd_fresh : Forall (λ t, redundant (e_files e) t = false ∧ redundant (e_files e') t = true) ts;
  snd_sent : e_sent e' = e_sent e ++ concat ((λ t, update_sends (addresses e) [t]) <$> ts);
  snd_count : e_outboundIndexUpdates e' = Nat.iter (length ts) count_one (e_outboundIndexUpdates e);
  snd_peers : addresses e' = addresses e
}.

Lemma sends_none files idx e e' :
  e_sent e' = e_sent e → e_outboundIndexUpdates e' = e_outboundIndexUpdates e → addresses e' = addresses e → sends files idx e e' [].
Proof. intros Hs Ho Ha. split; try constructor; cbn; [by rewrite app_nil_r | done | done]. Qed.

Lemma redundant_recorded f t : Deleted t = true → redundant (<[Path t := t]> f) t = true.
Proof. intros Hd. unfold redundant. rewrite lookup_insert_eq, Hd. by apply IsEqual_iff. Qed.

(** A deletion on record stays on record. *)
Lemma redundant_effects files idx a e e' t :
  rtc (effect files idx a) e e' → due files idx t → redundant (e_files e) t = true → redundant (e_files e') t = true.
Proof.
  intros Hr Ht. induction Hr as [|e1 e2 e3 [f _ | t' Ht'] _ IH]; [done | done |]. intros Hred. apply IH.
  rewrite e_files_applyTombstone. destruct (decide (Path t' = Path t)) as [Hp | Hp].
  - rewrite (due_unique files idx t t') by done. apply redundant_recorded, Ht'.
  - unfold redundant. by rewrite lookup_insert_ne.
Qed.

Lemma effect_sends files idx a e e' :
  tracked files idx e → effect files idx a e e' → ∃ ts, sends files idx e e' ts.
Proof.
  intros Htr [f _ | t Ht]; [exists []; by apply sends_none |].
  pose proof (e_files_applyTombstone e t) as Hf. rewrite applyTombstone_eq in Hf |- *. cbv zeta in Hf |- *.
  destruct (redundant (e_files e) t) eqn:Hr; cbn [negb] in Hf |- *; [exists []; by apply sends_none |].
  exists [t]. split.
  - constructor; [| constructor]. split; [done |]. destruct (Htr (Path t)) as [Heq | (t' & Ht' & Hp & Hft)].
    + unfold redundant in Hr |- *. by rewrite <- Heq.
    + rewrite (due_unique files idx t' t) in Hft by done. unfold redundant in Hr. rewrite Hft, (proj1 Ht) in Hr.
      by rewrite (proj2 (IsEqual_iff _ _) eq_refl) in Hr.
  - apply NoDup_singleton.
  - constructor; [| constructor]. split; [done |]. rewrite Hf. apply redundant_recorded, Ht.
  - rewrite broadcast_sends by done. cbn. by rewrite app_nil_r.
  - by rewrite broadcast_sends.
  - by rewrite broadcast_sends.
Qed.

Lemma effects_sends files idx a e e' :
  tracked files idx e → rtc (effect files idx a) e e' → ∃ ts, sends files idx e e' ts.
Proof.
  intros Htr Hr. induction Hr as [e | e1 e2 e3 Hs Hr IH]; [exists []; by apply sends_none |].
  destruct (effect_sends files idx a e1 e2 Htr Hs) as [ts1 [H1d H1o H1f H1s H1c H1p]].
  destruct IH as [ts2 [H2d H2o H2f H2s H2c H2p]]; [by eapply effect_tracked |].
  pose proof (λ t, redundant_effects files idx a _ _ t (rtc_once _ _ Hs)) as Hkeep1.
  pose proof (λ t, redundant_effects files idx a _ _ t Hr) as Hkeep2.
  rewrite Forall_forall in H1d, H1f, H2d, H2f. exists (ts1 ++ ts2). split.
  - by apply Forall_app; split; apply Forall_forall.
  - rewrite fmap_app. apply NoDup_app. split_and!; [done | | done].
    intros k (t1 & -> & Hin1)%list_elem_of_fmap (t2 & Hp & Hin2)%list_elem_of_fmap.
    assert (t1 = t2) as -> by (apply (due_unique files idx); [apply H1d | apply H2d |]; done).
    destruct (H1f t2 Hin1) as [_ Hyes], (H2f t2 Hin2) as [Hno _]. congruence.
  - apply Forall_app. split; apply Forall_forall; intros t Hin.
    + destruct (H1f t Hin). split; [done |]. apply Hkeep2; [by apply H1d | done].
    + destruct (H2f t Hin) as [Hno Hyes]. split; [| done]. apply not_true_is_false. intros Hred.
      rewrite (Hkeep1 t) in Hno; [done | by apply H2d | done].
  - rewrite H2s, H1s, H1p, fmap_app, concat_app. by rewrite app_assoc.
  - rewrite H2c, H1c, length_app, <- Nat.iter_add, (Nat.add_comm (length ts2)). done.
  - congruence.
Qed.

Lemma effects_disk files idx a e e' k :
  rtc (effect files idx a) e e' → e_disk e' !! k = e_disk e !! k ∨ ∃ t, due files idx t ∧ Path t = k.
Proof.
  induction 1 as [e | e1 e2 e3 Hs _ IH]; [by left |]. destruct IH as [-> | ?]; [| by right].
  destruct Hs as [f _ | t Ht]; [by left |]. rewrite applyTombstone_disk.
  destruct (decide (k = Path t)) as [-> | Hne]; [right; eauto | left; by apply Remove_frame].
Qed.

Lemma gc_frame e : e_disk (gcTombstones e) = e_disk e ∧ e_sent (gcTombstones e) = e_sent e ∧
  e_outboundIndexUpdates (gcTombstones e) = e_outboundIndexUpdates e.
Proof. unfold gcTombstones. destruct (gcTombstonesLocked _ _) as [files []]; done. Qed.

(** A batch of live records leaves nothing due but what is on record already. *)
Lemma live_index_nothing_due files idx t :
  keyed files → map_Forall (λ _ r, Deleted r = false) idx → due files idx t → redundant files t = true.
Proof.
  intros Hk Hlive (Hd & l & r & Hl & Hr & Hkind & Ho & _). pose proof (Hlive _ _ Hr) as Hrd. simpl in Hrd.
  pose proof (Hk _ _ Hl) as Hp. simpl in Hp.
  assert (t = l) as ->.
  { unfold resolve in *. destruct (Compare (Version l) (Version r)).
    1, 4: destruct (same_content l r) eqn:Hs.
    all: try (cbn in Hkind; done).
    - destruct (conflictPlan_cases l r) as [Hn | (Hc & _ & Hw & _)]; [by rewrite Hn in Hkind |].
      unfold outcome in Ho. rewrite Hc in Ho. apply (inj Some) in Ho. subst t.
      destruct Hw as [[Hw _] | [Hw _]]; rewrite Hw in Hd |- *; cbn in Hd; [by destruct l | congruence].
    - unfold same_content in Hs. apply andb_true_iff in Hs as [_ Hs%bool_decide_eq_true]. cbn in Ho.
      apply (inj Some) in Ho. subst t. cbn in Hd. congruence.
    - destruct (conflictPlan_cases l r) as [Hn | (Hc & _ & Hw & _)]; [by rewrite Hn in Hkind |].
      unfold outcome in Ho. rewrite Hc in Ho. apply (inj Some) in Ho. subst t.
      destruct Hw as [[Hw _] | [Hw _]]; rewrite Hw in Hd |- *; cbn in Hd; [by destruct l | congruence].
    - cbn in Ho. apply (inj Some) in Ho. subst t. cbn in Hd. congruence. }
  unfold redundant. rewrite Hl, Hd. by apply IsEqual_iff.
Qed.
End reconcile.

(** * Properties *)

(** C4: Reconciling with a peer never destroys content that is not superseded: if the
    entry of a path on disk is changed, then both sides have a record of the path,
    and ours is a tombstone already, or the peer's is a deletion that causally
    dominates ours, or ours is not a regular file. Every other replacement goes
    through the puller, which verifies and copies first. *)
Theorem reconcile_no_loss `{OS, Digest, Unicode} cfg e a ps k :
  reachable cfg e → e_states e !! a = Some ps →
  e_disk (reconcileWithPeer cfg e a) !! k ≠ e_disk e !! k →
  ∃ l r, e_files e !! k = Some l ∧ ps_index ps !! k = Some r ∧ lossless l r.
Proof.
  intros Hr%reachable_inv Hps Hne. destruct (reconcile_effects cfg e a ps Hr Hps) as [Heq | (e' & He & Heq)]; rewrite Heq in Hne; [done |].
  rewrite (proj1 (gc_frame e')) in Hne. destruct (effects_disk cfg _ _ _ _ _ k He) as [? | (t & (_ & l & r & Hl & Hx & _ & _ & Hloss) & Hp)]; [done |].
  rewrite Hp in Hl, Hx. eauto.
Qed.

(** C6: reconciling makes no sync loop of its own: it sends nothing but INDEX_UPDATEs of single
    deletions that the resolver ordered and that were not on record, no two for one
    path, each once to every connected peer and each counted once; and against an index of live records it
    sends nothing at all. *)
Theorem reconcile_no_sync_loop `{OS, Digest, Unicode} cfg e a ps :
  reachable cfg e → e_states e !! a = Some ps →
  ∃ ts, Forall (λ t, due cfg (e_files e) (ps_index ps) t ∧ redundant (e_files e) t = false) ts ∧ NoDup (Path <$> ts) ∧
    e_sent (reconcileWithPeer cfg e a) = e_sent e ++ concat ((λ t, update_sends cfg (addresses e) [t]) <$> ts) ∧
    e_outboundIndexUpdates (reconcileWithPeer cfg e a) = Nat.iter (length ts) count_one (e_outboundIndexUpdates e) ∧
    (map_Forall (λ _ r, Deleted r = false) (ps_index ps) → ts = []).
Proof.
  intros Hr%reachable_inv Hps.
  assert (∃ ts, sends cfg (e_files e) (ps_index ps) e (reconcileWithPeer cfg e a) ts ∨
    ∃ e', sends cfg (e_files e) (ps_index ps) e e' ts ∧ reconcileWithPeer cfg e a = gcTombstones e') as (ts & Hts).
  { destruct (reconcile_effects cfg e a ps Hr Hps) as [-> | (e' & He & Heq)].
    - exists []. left. by apply sends_none.
    - destruct (effects_sends cfg (e_files e) (ps_index ps) a e e' ltac:(by left) He) as [ts Hts]. eauto. }
  exists ts. assert (Forall (λ t, due cfg (e_files e) (ps_index ps) t ∧ redundant (e_files e) t = false) ts) as Hall
    by (by destruct Hts as [[] | (e' & [] & _)]).
  split; [done |]. split; [by destruct Hts as [[] | (e' & [] & _)] |]. split; [| split].
  - destruct Hts as [[] | (e' & [] & ->)]; [done |]. by rewrite (proj1 (proj2 (gc_frame e'))).
  - destruct Hts as [[] | (e' & [] & ->)]; [done |]. by rewrite (proj2 (proj2 (gc_frame e'))).
  - intros Hlive. destruct Hall as [|t ts [Hd Hn] _]; [done | exfalso].
    rewrite (live_index_nothing_due cfg _ _ t (inv_keyed e Hr) Hlive Hd) in Hn. done.
Qed.

Section reconcile_witness.
#[local] Existing Instance toy_digest.

Lemma reconcile_no_loss_witness :
  ∃ ps l r, e_states e_recreated !! 0%nat = Some ps ∧ e_files e_recreated !! note = Some l ∧
    ps_index ps !! note = Some r ∧ lossless l r.
Proof.
  destruct (e_states e_recreated !! 0%nat) as [ps |] eqn:Hps; [| exfalso; vm_compute in Hps; discriminate].
  exists ps. destruct (reconcile_no_loss home e_recreated 0%nat ps note e_recreated_reachable Hps) as (l & r & H1 & H2 & H3).
  - vm_compute. discriminate.
  - exists l, r. split; [reflexivity |]. split; [exact H1 |]. split; [exact H2 | exact H3].
Defined.

Lemma reconcile_no_sync_loop_witness :
  ∃ ps ts, e_states e_recreated !! 0%nat = Some ps ∧
    e_sent (reconcileWithPeer home e_recreated 0) =
      e_sent e_recreated ++ concat ((λ t, update_sends home (addresses e_recreated) [t]) <$> ts) ∧
    Forall (λ t, due home (e_files e_recreated) (ps_index ps) t ∧ redundant (e_files e_recreated) t = false) ts.
Proof.
  destruct (e_states e_recreated !! 0%nat) as [ps |] eqn:Hps; [| exfalso; vm_compute in Hps; discriminate].
  destruct (reconcile_no_sync_loop home e_recreated 0%nat ps e_recreated_reachable Hps) as (ts & H1 & _ & H2 & _).
  exists ps, ts. split; [reflexivity |]. split; [exact H2 | exact H1].
Defined.
End reconcile_witness.
