(* ===== verification/Progress.v ===== *)
(** * Progress: reconciling leaves nothing undone

    After reconcileWithPeer every difference with the peer that the resolver does
    not settle by doing nothing is taken care of: its path has work in flight, or
    the peer's queue is full, or the deletion it calls for is on record. *)
From S2P Require Import Prelude Bytes VersionVector Framing Messages Windows Pathnorm Hashing.
From S2P Require Import FileInfo Tree Oracle Differ Conflict Scanner Disk Transfer Replica Engine.
From S2P Require Import Story Invariant Reconcile.

Section progress.
Context `{OS, Digest, Unicode}.
Context (cfg : Config) (files idx : Files) (a : nat).
Notation eff := (effect cfg files idx a).

Definition busy (e : Engine) (k : bytes) : Prop := ∃ ps, e_states e !! a = Some ps ∧ occupied ps k.
Definition recorded (e : Engine) (k : bytes) : Prop := ∃ t, due cfg files idx t ∧ Path t = k ∧ e_files e !! k = Some t.
Definition refused (p : plan) : Prop := ∃ c, p_loser p = Some c ∧ WouldExceedMaxPath (cfg_AbsRoot cfg) (Path c) = true.

(** The verdict [p] on the path [k] has been taken care of. *)
Definition handled (k : bytes) (p : plan) (e : Engine) : Prop := busy e k ∨ recorded e k ∨ refused p.

(** ** Effects only add to what is taken care of *)

Lemma states_applyTombstone e t : e_states (applyTombstone cfg e t) = e_states e.
Proof.
  unfold applyTombstone. cbv zeta. case_match; [| done].
  match goal with |- e_states (broadcastUpdate _ ?x ?l) = _ => pose proof (core_broadcast cfg x l) as Hc end.
  unfold core in Hc. by injection Hc.
Qed.

Lemma effect_known e e' : eff e e' → is_Some (e_states e !! a) → is_Some (e_states e' !! a).
Proof.
  intros [f _ | t _] [ps Hps]; [| rewrite states_applyTombstone; eauto].
  cbn. rewrite lookup_alter_eq, Hps. cbn. eauto.
Qed.
Lemma effect_busy e e' k : eff e e' → busy e k → busy e' k.
Proof.
  intros [f Hf | t _] (ps & Hps & Ho); [| exists ps; by rewrite states_applyTombstone].
  exists (f ps). split; [cbn; by rewrite lookup_alter_eq, Hps |].
  destruct Ho as [Hk | Hfull]; [left; by apply (enq_inflight f Hf) | right].
  pose proof (enq_length f Hf ps). lia.
Qed.
Lemma effect_recorded e e' k : eff e e' → recorded e k → recorded e' k.
Proof.
  intros [f _ | t Ht] (t' & Hdue & Hp & Hk); exists t'; [done |]. split_and!; [done | done |].
  rewrite e_files_applyTombstone. destruct (decide (Path t = k)) as [Heq | Hne]; [| by rewrite lookup_insert_ne].
  rewrite Heq, lookup_insert_eq. f_equal. apply (due_unique cfg files idx); [done | done | congruence].
Qed.

Lemma effects_known e e' : rtc eff e e' → is_Some (e_states e !! a) → is_Some (e_states e' !! a).
Proof. induction 1; eauto using effect_known. Qed.
Lemma effects_busy e e' k : rtc eff e e' → busy e k → busy e' k.
Proof. induction 1; eauto using effect_busy. Qed.
Lemma effects_recorded e e' k : rtc eff e e' → recorded e k → recorded e' k.
Proof. induction 1; eauto using effect_recorded. Qed.
Lemma effects_handled e e' k p : rtc eff e e' → handled k p e → handled k p e'.
Proof. unfold handled. intros He [? | [? | ?]]; eauto using effects_busy, effects_recorded. Qed.

Lemma carried_handled e e' k p :
  carried cfg files idx a k p e e' → kind p ≠ planNoOp → is_Some (e_states e !! a) → handled k p e'.
Proof.
  intros [Hn | c Hc Hm | f Hf Ho | t Ht Hp] Hk [ps Hps]; [done | right; right; by exists c | left | right; left].
  - exists (f ps). cbn. by rewrite lookup_alter_eq, Hps.
  - exists t. rewrite e_files_applyTombstone, Hp, lookup_insert_eq. done.
Qed.

Lemma inflight_busy e k : ps_has_inflight e a k = true → busy e k.
Proof.
  unfold ps_has_inflight. destruct (e_states e !! a) as [ps |] eqn:Hps; [| done].
  intros Hk%bool_decide_eq_true. exists ps. split; [done | by left].
Qed.

(** ** The phases of reconcileWithPeer *)

(** The diff: every verdict is executed or put in one of the two buckets. *)
Lemma resolve_all_handles e ds d :
  tracked cfg files idx e → is_Some (e_states e !! a) → Forall (entry_ok files idx) ds →
  d ∈ ds → IsTypeClash d = false → let p := resolve (Local d) (Remote d) (selfShort cfg) in kind p ≠ planNoOp →
  let '(e', creates, tombs) := resolve_all cfg e a ds in
  handled (entry_key d) p e' ∨ p ∈ creates ∨ tomb_install d p ∈ tombs.
Proof.
  revert e. induction ds as [|x ds IH]; intros e Htr Hsome Hds; [by intros ?%not_elem_of_nil |].
  intros Hin Hclash p Hk. pose proof Hds as [Hx Hds']%Forall_cons. cbn [resolve_all].
  destruct (IsTypeClash x) eqn:Hxc.
  { apply elem_of_cons in Hin as [-> | Hin]; [congruence | by apply IH]. }
  cbv zeta. pose proof (execute_carries cfg files idx a e x Htr Hx) as Hcar. cbv zeta in Hcar.
  set (q := resolve (Local x) (Remote x) (selfShort cfg)) in *.
  destruct (bool_decide (kind q = planInstall)) eqn:Hqk.
  - assert (d = x ∨ d ∈ ds) as Hd by (by apply elem_of_cons).
    specialize (IH e Htr Hsome Hds'). cbn [andb]. destruct (Deleted (install q)); cbn [negb];
      destruct (resolve_all cfg e a ds) as [[e' creates] tombs]; rewrite elem_of_cons;
      (destruct Hd as [-> | Hd]; [by right; auto | specialize (IH Hd Hclash Hk); tauto]).
  - cbn [andb]. pose proof (carried_effect _ _ _ _ _ _ _ _ Hcar) as Heff.
    assert (tracked cfg files idx (execute cfg e a q)) as Htr' by (by apply (effects_tracked cfg files idx a e)).
    pose proof (effects_known _ _ Heff Hsome) as Hsome'. apply elem_of_cons in Hin as [-> | Hin].
    + pose proof (resolve_all_refines cfg files idx a _ ds Htr' Hds') as Hrest.
      destruct (resolve_all cfg _ a ds) as [[e' creates] tombs]. left. apply (effects_handled _ _ _ _ (proj1 Hrest)).
      by apply (carried_handled e).
    + by apply IH.
Qed.

(** Every tombstone of [tombs] is among [tombs'], and if it was paired meanwhile then
    its path is busy. *)
Definition kept (e : Engine) (t : tombInstall) (tombs' : list tombInstall) : Prop :=
  ∃ t', t' ∈ tombs' ∧ ti_plan t' = ti_plan t ∧
    (ti_paired t' = true → ti_paired t = true ∨ busy e (Path (install (ti_plan t)))).

Lemma pair_tomb_spec e hash tombs t tombs' :
  pair_tomb e a hash tombs = Some (t, tombs') →
  ps_has_inflight e a (Path (install (ti_plan t))) = false ∧
  ∀ x, x ∈ tombs → ∃ x', x' ∈ tombs' ∧ ti_plan x' = ti_plan x ∧ (ti_paired x' = ti_paired x ∨ ti_plan x = ti_plan t).
Proof.
  revert tombs'. induction tombs as [|y tombs IH]; intros tombs'; cbn [pair_tomb]; [done |].
  destruct (_ && _) eqn:Hc.
  - intros [= <- <-]. apply andb_true_iff in Hc as [_ Hc%negb_true_iff]. split; [done |].
    intros x [-> | Hx]%elem_of_cons; [eexists; split; [apply list_elem_of_here | auto] |].
    exists x. split; [by apply list_elem_of_further | auto].
  - destruct (pair_tomb e a hash tombs) as [[t1 rest] |] eqn:Hp; [| done]. cbn. intros [= <- <-].
    destruct (IH rest eq_refl) as [Hn Hall]. split; [done |].
    intros x [-> | Hx]%elem_of_cons; [exists y; split; [apply list_elem_of_here | auto] |].
    destruct (Hall x Hx) as (x' & Hx' & ?). exists x'. split; [by apply list_elem_of_further | done].
Qed.

Lemma rename_busy e c t :
  is_Some (e_states e !! a) → ps_has_inflight e a (Path c) = false → ps_has_inflight e a (Path t) = false →
  busy (enqueueRename e a c t) (Path c) ∧ busy (enqueueRename e a c t) (Path t).
Proof.
  intros [ps Hps]. unfold ps_has_inflight. rewrite Hps, !bool_decide_eq_false. intros Hc Ht.
  assert (∀ k, k = Path c ∨ k = Path t → busy (enqueueRename e a c t) k) as Hb; [| auto].
  intros k Hk. eexists. split; [cbn; rewrite lookup_alter_eq, Hps; reflexivity |].
  refine (enqueued_occupied (λ ps, Path c ∈ ps_inflight ps ∨ Path t ∈ ps_inflight ps) {[Path c; Path t]} _ _ ps _ _); [tauto |].
  by rewrite elem_of_union, !elem_of_singleton.
Qed.

(** The pairing of renames: a create is paired or kept, a deletion too. *)
Lemma pair_creates_handles e creates tombs :
  is_Some (e_states e !! a) →
  Forall (create_ok) creates → Forall (tomb_ok cfg files idx) tombs →
  let '(e', creates', tombs') := pair_creates e a creates tombs in
  (∀ c, c ∈ creates → busy e' (Path (install c)) ∨ c ∈ creates') ∧ (∀ t, t ∈ tombs → kept e' t tombs').
Proof.
  revert e tombs. induction creates as [|c creates IH]; intros e tombs Hsome Hcs Hts; cbn [pair_creates].
  { split; [by intros c ?%not_elem_of_nil |]. intros t Ht. exists t. auto. }
  apply Forall_cons in Hcs as [Hc Hcs]. destruct (ps_has_inflight e a (Path (install c))) eqn:Hinf.
  { specialize (IH e tombs Hsome Hcs Hts). pose proof (pair_creates_refines cfg files idx a e creates tombs Hcs Hts) as Href.
    destruct (pair_creates e a creates tombs) as [[e' creates'] tombs']. destruct IH as [IHc IHt].
    split; [| done]. intros x [-> | Hx]%elem_of_cons; [left | auto].
    apply (effects_busy e); [apply Href | by apply inflight_busy]. }
  destruct (pair_tomb e a _ tombs) as [[t tombs1] |] eqn:Hp.
  - destruct (pair_tomb_spec _ _ _ _ _ Hp) as [Hn Hall]. destruct (rename_busy e _ _ Hsome Hinf Hn) as [Hbc Hbt].
    set (e1 := enqueueRename e a (install c) (install (ti_plan t))) in *.
    pose proof (pair_tomb_ok _ _ _ _ _ _ _ _ _ Hp Hts) as Hts1.
    assert (is_Some (e_states e1 !! a)) as Hsome1 by (destruct Hbc as (ps & Hps & _); eauto).
    specialize (IH e1 tombs1 Hsome1 Hcs Hts1). pose proof (pair_creates_refines cfg files idx a e1 creates tombs1 Hcs Hts1) as Href.
    destruct (pair_creates e1 a creates tombs1) as [[e' creates'] tombs']. destruct IH as [IHc IHt], Href as [Heff _].
    split; [intros x [-> | Hx]%elem_of_cons; [left; by apply (effects_busy e1) | auto] |].
    intros x Hx. destruct (Hall x Hx) as (x1 & Hx1 & Hpl & Hpair). destruct (IHt x1 Hx1) as (x' & Hx' & Hpl' & Hb).
    exists x'. rewrite <- Hpl. split_and!; [done | congruence |]. intros Hpd.
    destruct Hpair as [<- | Heq]; [auto |]. right. rewrite Hpl, Heq. by apply (effects_busy e1).
  - specialize (IH e tombs Hsome Hcs Hts). destruct (pair_creates e a creates tombs) as [[e' creates'] tombs'].
    destruct IH as [IHc IHt]. split; [| done]. intros x. rewrite !elem_of_cons. intros [-> | Hx]; [auto |].
    destruct (IHc x Hx); auto.
Qed.

Lemma creates_handled e creates c :
  is_Some (e_states e !! a) → Forall create_ok creates → c ∈ creates →
  busy (foldl (λ e c, execute cfg e a c) e creates) (Path (install c)).
Proof.
  intros Hsome Hcs Hc. revert e Hsome. induction Hcs as [|x creates [Hk Hd] Hcs IH]; intros e Hsome; [by apply not_elem_of_nil in Hc |].
  cbn [foldl]. assert (carried cfg files idx a (Path (install x)) x e (execute cfg e a x)) as Hcar.
  { unfold execute. rewrite Hk, Hd. apply carried_enqueueFetch. }
  apply elem_of_cons in Hc as [-> | Hc].
  - apply (effects_busy (execute cfg e a x)); [by apply execute_creates_refines |].
    unfold execute. rewrite Hk, Hd. destruct Hsome as [ps Hps]. eexists. split; [cbn; rewrite lookup_alter_eq, Hps; reflexivity |].
    refine (enqueued_occupied (λ ps, Path (install x) ∈ ps_inflight ps) _ _ _ ps _ _); [done | by apply elem_of_singleton].
  - apply IH; [done |]. eapply effects_known; [by eapply carried_effect | done].
Qed.

Lemma tombs_handled e tombs t :
  is_Some (e_states e !! a) → Forall (tomb_ok cfg files idx) tombs → t ∈ tombs →
  (ti_paired t = true → busy e (Path (install (ti_plan t)))) →
  let k := Path (install (ti_plan t)) in
  busy (execute_tombs cfg e a tombs) k ∨ recorded (execute_tombs cfg e a tombs) k.
Proof.
  intros Hsome Hts Hin Hpair k. unfold execute_tombs. revert e Hsome Hpair.
  induction Hts as [|x tombs [Hk Hd] Hts IH]; intros e Hsome Hpair; [by apply not_elem_of_nil in Hin |].
  cbn [foldl]. match goal with |- context [foldl ?f ?x tombs] => set (e1 := x) end.
  assert (rtc eff e e1) as Heff.
  { subst e1. case_match; [| done]. unfold execute. rewrite Hk, (proj1 Hd). by apply rtc_once, effect_delete. }
  apply elem_of_cons in Hin as [-> | Hin].
  - assert (busy e1 k ∨ recorded e1 k) as Hdone.
    { subst e1 k. destruct (ti_paired x) eqn:Hpx; cbn [negb andb]; [left; auto |].
      destruct (ps_has_inflight e a _) eqn:Hinf; cbn [negb]; [left; by apply inflight_busy | right].
      unfold execute. rewrite Hk, (proj1 Hd). exists (install (ti_plan x)).
      by rewrite e_files_applyTombstone, lookup_insert_eq. }
    pose proof (execute_tombs_refines cfg files idx a e1 tombs Hts) as Hrest. unfold execute_tombs in Hrest.
    destruct Hdone; [left; by eapply effects_busy | right; by eapply effects_recorded].
  - apply IH; [done | by eapply effects_known |]. intros Hp. eapply effects_busy; [exact Heff | auto].
Qed.

(** The two buckets: pairing, the creates left over, the deletions left over. *)
Definition run_buckets (e : Engine) (creates : list plan) (tombs : list tombInstall) : Engine :=
  let '(e, creates, tombs) := pair_creates e a creates tombs in
  execute_tombs cfg (foldl (λ e c, execute cfg e a c) e creates) a tombs.

Lemma buckets_handled e creates tombs :
  is_Some (e_states e !! a) → Forall create_ok creates → Forall (tomb_ok cfg files idx) tombs →
  let e' := run_buckets e creates tombs in
  rtc eff e e' ∧ (∀ c, c ∈ creates → busy e' (Path (install c))) ∧
  ∀ t, t ∈ tombs → ti_paired t = false → busy e' (Path (install (ti_plan t))) ∨ recorded e' (Path (install (ti_plan t))).
Proof.
  intros Hs Hc Ht e'. unfold e', run_buckets. clear e'.
  pose proof (pair_creates_refines cfg files idx a e creates tombs Hc Ht) as Href.
  pose proof (pair_creates_handles e creates tombs Hs Hc Ht) as Hh.
  destruct (pair_creates _ _ _ _) as [[e1 creates'] tombs']. destruct Href as (He1 & Hc' & Ht'), Hh as [Hhc Hht].
  pose proof (effects_known _ _ He1 Hs) as Hs1.
  pose proof (execute_creates_refines cfg files idx a e1 creates' Hc') as He2.
  pose proof (λ c, creates_handled e1 creates' c Hs1 Hc') as Hcr.
  set (e2 := foldl (λ e c, execute cfg e a c) e1 creates') in *.
  pose proof (effects_known _ _ He2 Hs1) as Hs2. pose proof (execute_tombs_refines cfg files idx a e2 tombs' Ht') as He3.
  split_and!.
  - by repeat (etransitivity; [done |]).
  - intros c Hin. apply (effects_busy e2); [done |]. destruct (Hhc c Hin); [by apply (effects_busy e1) | auto].
  - intros t Hin Hp. destruct (Hht t Hin) as (t' & Hin' & <- & Hb). apply tombs_handled; [done.. |].
    intros Hp'. destruct (Hb Hp') as [? | ?]; [congruence | by apply (effects_busy e1)].
Qed.

(** What an install verdict installs is at the entry's path. *)
Lemma install_path d :
  entry_ok files idx d → let p := resolve (Local d) (Remote d) (selfShort cfg) in
  kind p = planInstall → Path (install p) = entry_key d.
Proof.
  intros (_ & _ & Hlr) p Hk. unfold p, entry_key in *. clear p.
  destruct (Remote d) as [r |]; [| by destruct (Local d)]. cbn [fmap option_fmap option_map default from_option id].
  destruct (Local d) as [l |]; [| unfold resolve in *; by destruct (Deleted r)].
  pose proof (Hlr l r eq_refl eq_refl) as Hp. pose proof (conflictPlan_no_install l r) as Hno. unfold resolve in *.
  destruct (Compare (Version l) (Version r)); try destruct (same_content l r); done.
Qed.

(** The phases together. *)
Lemma phases_handle e ds d :
  tracked cfg files idx e → is_Some (e_states e !! a) → Forall (entry_ok files idx) ds →
  d ∈ ds → IsTypeClash d = false → let p := resolve (Local d) (Remote d) (selfShort cfg) in kind p ≠ planNoOp →
  let '(e1, creates, tombs) := resolve_all cfg e a ds in handled (entry_key d) p (run_buckets e1 creates tombs).
Proof.
  intros Htr Hs Hds Hd Hclash p Hk.
  pose proof (resolve_all_refines cfg files idx a e ds Htr Hds) as Href.
  pose proof (resolve_all_handles e ds d Htr Hs Hds Hd Hclash Hk) as Hh. fold p in Hh.
  destruct (resolve_all cfg e a ds) as [[e1 creates] tombs]. destruct Href as (He1 & Hc & Ht).
  destruct (buckets_handled e1 creates tombs (effects_known _ _ He1 Hs) Hc Ht) as (He2 & Hcr & Htm).
  assert (kind p = planInstall → Path (install p) = entry_key d) as Hp.
  { apply install_path. rewrite Forall_forall in Hds. by apply Hds. }
  destruct Hh as [Hh | [Hin | Hin]]; [by apply (effects_handled e1) | left | unfold handled].
  - rewrite <- Hp; [by apply Hcr |]. rewrite Forall_forall in Hc. by apply (Hc p Hin).
  - assert (kind p = planInstall) as Hki by (rewrite Forall_forall in Ht; by apply (Ht _ Hin)).
    rewrite <- (Hp Hki). destruct (Htm _ Hin eq_refl); auto.
Qed.
End progress.

(** Collection changes no peer, and at most removes a record. *)
Lemma gc_states `{Digest} e : e_states (gcTombstones e) = e_states e.
Proof. unfold gcTombstones. by destruct (gcTombstonesLocked _ _) as [files []]. Qed.
Lemma gc_files `{Digest} e k : e_files (gcTombstones e) !! k = e_files e !! k ∨ e_files (gcTombstones e) !! k = None.
Proof.
  unfold gcTombstones. pose proof (gc_lookup (peer_indexes e) (e_files e) k) as Hg.
  destruct (gcTombstonesLocked _ _) as [files []]; [| by left]. cbn [fst] in Hg. cbn.
  destruct (files !! k) as [fi |] eqn:Hk; [left | by right]. symmetry. by apply Hg.
Qed.


Lemma reconcile_handles `{OS, Digest, Unicode} cfg e a ps lt pt d :
  inv e → e_states e !! a = Some ps →
  BuildTree (snapshotFilesLocked (e_files e)) = Ok lt → BuildTree (set_of (ps_index ps)) = Ok pt →
  d ∈ Diff (Some lt) (Some pt) → IsTypeClash d = false →
  let p := resolve (Local d) (Remote d) (selfShort cfg) in
  let k := entry_key d in
  let e' := reconcileWithPeer cfg e a in
  kind p ≠ planNoOp →
  busy a e' k ∨
  (∃ t, due cfg (e_files e) (ps_index ps) t ∧ Path t = k ∧ (e_files e' !! k = Some t ∨ e_files e' !! k = None)) ∨
  refused cfg p.
Proof.
  intros Hi Hps Hlt Hpt Hd Hclash p k e' Hk.
  destruct (inv_states e Hi a ps Hps) as [_ [Hix _ _ _]].
  pose proof (tree_entries_ok _ _ lt pt (inv_keyed e Hi) Hix Hlt Hpt) as Hds.
  pose proof (phases_handle cfg (e_files e) (ps_index ps) a e _ d ltac:(by left) (ex_intro _ ps Hps) Hds Hd Hclash Hk) as Hh.
  fold p k in Hh. assert (∃ e0, e' = gcTombstones e0 ∧ handled cfg (e_files e) (ps_index ps) a k p e0) as (e0 & -> & [Hb | [Hr | Hr]]).
  { unfold e', reconcileWithPeer. rewrite Hps, Hlt, Hpt. destruct (resolve_all _ _ _ _) as [[e1 creates] tombs].
    unfold run_buckets in Hh. destruct (pair_creates _ _ _ _) as [[e2 creates'] tombs']. eexists. split; [reflexivity | exact Hh]. }
  - left. destruct Hb as (ps' & Hps' & Ho). exists ps'. by rewrite gc_states.
  - right. left. destruct Hr as (t & Hdue & Hp & Hf). exists t. split_and!; [done | done |].
    rewrite <- Hf. apply gc_files.
  - by right; right.
Qed.

(** * Properties *)

(** C7: reconciling leaves nothing undone: for every entry of the diff between the two
    trees that is not a type clash and on which the resolver's verdict is not to do
    nothing, once reconcileWithPeer returns the path is in flight with that peer or
    its fetch queue is full, or the deletion the verdict calls for is the record of
    the path (or has been collected already), or the verdict needs a conflict copy
    whose name Windows could not hold. *)
Theorem reconcile_complete `{OS, Digest, Unicode} cfg e a ps lt pt d :
  reachable cfg e → e_states e !! a = Some ps →
  BuildTree (snapshotFilesLocked (e_files e)) = Ok lt → BuildTree (set_of (ps_index ps)) = Ok pt →
  d ∈ Diff (Some lt) (Some pt) → IsTypeClash d = false →
  let p := resolve (Local d) (Remote d) (selfShort cfg) in
  let k := entry_key d in
  let e' := reconcileWithPeer cfg e a in
  kind p ≠ planNoOp →
  busy a e' k ∨
  (∃ t, due cfg (e_files e) (ps_index ps) t ∧ Path t = k ∧ (e_files e' !! k = Some t ∨ e_files e' !! k = None)) ∨
  refused cfg p.
Proof. intros Hi%reachable_inv. by apply reconcile_handles. Qed.

Section progress_witness.
#[local] Existing Instance toy_digest.

Definition old_entry : DiffEntry :=
  mkDiffEntry note (e_files e_recreated !! note) (e_states e_recreated !! 0%nat ≫= λ ps, ps_index ps !! note) false false.

Lemma reconcile_complete_witness :
  let p := resolve (Local old_entry) (Remote old_entry) (selfShort home) in
  kind p = planInstall ∧
  (busy 0 (reconcileWithPeer home e_recreated 0) note ∨
   (∃ ps t, due home (e_files e_recreated) (ps_index ps) t ∧ Path t = note ∧
      (e_files (reconcileWithPeer home e_recreated 0) !! note = Some t ∨
       e_files (reconcileWithPeer home e_recreated 0) !! note = None)) ∨
   refused home p).
Proof.
  split; [vm_compute; reflexivity |].
  destruct (e_states e_recreated !! 0%nat) as [ps |] eqn:Hps; [| exfalso; vm_compute in Hps; discriminate].
  assert (e_states e_recreated !! 0%nat = Some ps) as Hps' by exact Hps.
  vm_compute in Hps'. apply (inj Some) in Hps'.
  destruct (reconcile_complete home e_recreated 0%nat ps
    (match BuildTree (snapshotFilesLocked (e_files e_recreated)) with Ok t => t | Err _ => DirNode [] ∅ [] end)
    (match BuildTree (set_of (ps_index ps)) with Ok t => t | Err _ => DirNode [] ∅ [] end) old_entry e_recreated_reachable Hps)
    as [Hb | [(t & Ht) | Hr]].
  - vm_compute. reflexivity.
  - rewrite <- Hps'. vm_compute. reflexivity.
  - rewrite <- Hps'. vm_compute. left.
  - reflexivity.
  - vm_compute. discriminate.
  - left. exact Hb.
  - right. left. exists ps, t. exact Ht.
  - right. right. exact Hr.
Defined.
End progress_witness.
