(* ===== verification/Work.v ===== *)
(** * Work: what is in flight is being worked on

    A path in flight for a connected peer has a task in that peer's queue, or is
    being fetched, or its completion is waiting for the loop; nothing stays in
    flight for ever. Clearing goes by the peer's short id, so this needs connected
    devices to have distinct ones ([distinct_shorts]). A puller empties its queue and
    reports on every path of it, if the loop keeps receiving what it reports. *)
From S2P Require Import Prelude Bytes VersionVector Framing Messages Windows Pathnorm Hashing.
From S2P Require Import FileInfo Tree Oracle Differ Conflict Scanner Disk Transfer Replica Engine.
From S2P Require Import Story Invariant Reconcile Progress.

Definition pending (e : Engine) (short : Z) (k : bytes) : Prop :=
  ∃ c, c ∈ e_completions e ∧ cp_peer c = short ∧ Path (cp_leaf c) = k.
Definition held (e : Engine) (ps : peerState) (k : bytes) : Prop := k ∈ work_keys ps ∨ pending e (ps_short ps) k.

(** Every path in flight is held, but those that [P] excepts. *)
Definition backed (P : Z → bytes → Prop) (e : Engine) : Prop :=
  ∀ id a ps k, e_peers e !! id = Some a → e_states e !! a = Some ps → k ∈ ps_inflight ps → held e ps k ∨ P (ps_short ps) k.

Definition distinct_shorts (e : Engine) : Prop :=
  ∀ id1 id2, is_Some (e_peers e !! id1) → is_Some (e_peers e !! id2) → Short id1 = Short id2 → id1 = id2.

(** ** Transitions that let go of nothing *)

(** A peer's state later: what was held is, and what came in flight is held. *)
Definition ps_worked (e' : Engine) (ps ps' : peerState) : Prop :=
  ps_short ps' = ps_short ps ∧ (∀ k, k ∈ work_keys ps → held e' ps' k) ∧
  (∀ k, k ∈ ps_inflight ps' → k ∈ ps_inflight ps ∨ held e' ps' k).

Record worked (e e' : Engine) : Prop := mkWorked {
  wk_peers : e_peers e' = e_peers e;
  wk_completions : e_completions e ⊆ e_completions e';
  wk_states a ps' : e_states e' !! a = Some ps' → ∃ ps, e_states e !! a = Some ps ∧ ps_worked e' ps ps'
}.

Lemma pending_mono e e' s k : e_completions e ⊆ e_completions e' → pending e s k → pending e' s k.
Proof. intros Hsub (c & Hc & ?). exists c. split; [by apply Hsub | done]. Qed.
Lemma held_worked e e' ps ps' k :
  e_completions e ⊆ e_completions e' → ps_worked e' ps ps' → held e ps k → held e' ps' k.
Proof. intros Hc (Hs & Hw & _) [Hk | Hp]; [by apply Hw | right]. rewrite Hs. by eapply pending_mono. Qed.
Lemma ps_worked_refl e ps : ps_worked e ps ps.
Proof. split_and!; [done | by left | by left]. Qed.

#[export] Instance worked_preorder : PreOrder worked.
Proof.
  split.
  - intros e. split; [done | done |]. intros a ps Hps. exists ps. split; [done | apply ps_worked_refl].
  - intros e1 e2 e3 [Hp1 Hc1 Hs1] [Hp2 Hc2 Hs2]. split; [congruence | by etransitivity |].
    intros a ps3 Hps3. destruct (Hs2 a ps3 Hps3) as (ps2 & Hps2 & Hw2). destruct (Hs1 a ps2 Hps2) as (ps1 & Hps1 & Hw1).
    exists ps1. split; [done |]. pose proof (λ k, held_worked e2 e3 ps2 ps3 k Hc2 Hw2) as Hh.
    destruct Hw1 as (Hsh1 & Hk1 & Hi1), Hw2 as (Hsh2 & Hk2 & Hi2). split_and!; [congruence | auto |].
    intros k Hk. destruct (Hi2 k Hk) as [Hk' | ?]; [| by right]. destruct (Hi1 k Hk'); auto.
Qed.

Lemma backed_worked P e e' : worked e e' → backed P e → backed P e'.
Proof.
  intros [Hp Hc Hs] Hb id a ps' k Ha Hps' Hk. destruct (Hs a ps' Hps') as (ps & Hps & Hw).
  pose proof Hw as (Hsh & _ & Hi). destruct (Hi k Hk) as [Hin | ?]; [| by left]. rewrite Hsh.
  rewrite Hp in Ha. destruct (Hb id a ps k Ha Hps Hin); [left | by right]. by eapply held_worked.
Qed.

(** Forgetting peers forgets obligations. *)
Lemma backed_unpeer P e peers : peers ⊆ e_peers e → backed P e → backed P (set_peers e peers).
Proof. intros Hsub Hb id a ps k Ha. apply (Hb id a ps k). by eapply lookup_weaken. Qed.

(** The part of the engine this speaks of. *)
Definition calm (e : Engine) := (e_states e, e_peers e, e_completions e).

Lemma worked_calm e e' : calm e' = calm e → worked e e'.
Proof.
  unfold calm. intros [= Hs Hp Hc]. split; rewrite ?Hs, ?Hp, ?Hc; [done | done |].
  intros a ps Hps. exists ps. split; [done | apply ps_worked_refl].
Qed.

(** An update of one peer's state that keeps what is in flight and queued. *)
Lemma worked_upd e a f :
  (∀ ps, e_states e !! a = Some ps → ps_short (f ps) = ps_short ps ∧ work_keys ps ⊆ work_keys (f ps) ∧
     ∀ k, k ∈ ps_inflight (f ps) → k ∈ ps_inflight ps ∨ k ∈ work_keys (f ps)) →
  worked e (upd_ps e a f).
Proof.
  intros Hf. split; [done | done |]. cbn. intros b ps'. destruct (decide (a = b)) as [<- | Hne].
  - rewrite lookup_alter_eq, fmap_Some. intros (ps & Hps & ->). exists ps. split; [done |].
    destruct (Hf ps Hps) as (Hs & Hw & Hi). split_and!; [done | intros k Hk; left; by apply Hw |].
    intros k Hk. destruct (Hi k Hk); [by left | right; by left].
  - rewrite lookup_alter_ne by done. intros Hps. exists ps'. split; [done | apply ps_worked_refl].
Qed.
Lemma worked_upd_same e a f :
  (∀ ps, e_states e !! a = Some ps → ps_short (f ps) = ps_short ps ∧ ps_fetchQ (f ps) = ps_fetchQ ps ∧
     ps_running (f ps) = ps_running ps ∧ ps_inflight (f ps) ⊆ ps_inflight ps) →
  worked e (upd_ps e a f).
Proof.
  intros Hf. apply worked_upd. intros ps Hps. destruct (Hf ps Hps) as (Hs & Hq & Hr & Hi).
  unfold work_keys. rewrite Hq, Hr. split_and!; [done | done |]. intros k Hk. left. by apply Hi.
Qed.

Lemma calm_send e a m : calm (send e a m) = calm e.
Proof. done. Qed.
Lemma calm_foldl {A} (f : Engine → A → Engine) l e : (∀ e x, calm (f e x) = calm e) → calm (foldl f e l) = calm e.
Proof. intros Hf. revert e. induction l as [|x l IH]; intros e; [done |]. cbn [foldl]. by rewrite IH. Qed.
Lemma worked_foldl {A} (I : Engine → Prop) (f : Engine → A → Engine) l e :
  (∀ e x, I e → worked e (f e x) ∧ I (f e x)) → I e → worked e (foldl f e l).
Proof.
  intros Hf. revert e. induction l as [|x l IH]; intros e Hi; [reflexivity |]. cbn [foldl].
  destruct (Hf e x Hi). etransitivity; [done |]. by apply IH.
Qed.

Section work.
Context `{OS, Digest, Unicode}.
Context (cfg : Config).

Lemma calm_broadcast e changed : calm (broadcastUpdate cfg e changed) = calm e.
Proof. unfold calm. by destruct (broadcast_frame cfg e changed) as (-> & -> & -> & _). Qed.
Lemma calm_applyTombstone e t : calm (applyTombstone cfg e t) = calm e.
Proof. unfold applyTombstone. cbv zeta. case_match; [by rewrite calm_broadcast | done]. Qed.
Lemma calm_gc e : calm (gcTombstones e) = calm e.
Proof. unfold gcTombstones. by destruct (gcTombstonesLocked _ _) as [files []]. Qed.
Lemma calm_saveSnapshot w e : calm (saveSnapshot cfg w e) = calm e.
Proof. unfold saveSnapshot. by repeat case_match. Qed.

Lemma worked_effects files idx a e e' : rtc (effect cfg files idx a) e e' → worked e e'.
Proof.
  induction 1 as [e | e1 e2 e3 Hs _ IH]; [reflexivity |]. etransitivity; [| exact IH].
  destruct Hs as [f Hf | t _]; [| apply worked_calm, calm_applyTombstone]. apply worked_upd. intros ps _.
  split_and!; [apply (enq_short f Hf) | apply (enq_work f Hf) | apply (enq_backed f Hf)].
Qed.

Lemma worked_reconcile e a : inv e → worked e (reconcileWithPeer cfg e a).
Proof.
  intros Hi. destruct (e_states e !! a) as [ps |] eqn:Hps.
  2:{ unfold reconcileWithPeer. by rewrite Hps. }
  destruct (reconcile_effects cfg e a ps Hi Hps) as [-> | (e' & He & ->)]; [done |].
  etransitivity; [by eapply worked_effects | apply worked_calm, calm_gc].
Qed.

(** ** The handlers *)

Lemma calm_doReseed e a : calm (doReseed cfg e a) = calm e.
Proof.
  unfold doReseed. case_match; [| done]. destruct (reseed_files _ _ _) as [files bumped].
  cbv zeta. rewrite calm_broadcast. by destruct (0 <? length bumped)%nat.
Qed.
Lemma worked_doReseed e a : worked e (doReseed cfg e a).
Proof. apply worked_calm, calm_doReseed. Qed.

Lemma worked_onIndex e a body : inv e → worked e (onIndex cfg e a body).
Proof.
  intros Hi. unfold onIndex. destruct (DecodeFileInfos body) as [set |]; [| done]. cbv zeta.
  set (e1 := upd_ps e a (λ ps, ps_set_index ps (files_of set))).
  assert (inv e1) as Hi1 by (apply inv_upd_ps; [apply frame_index; intros; apply keyed_files_of | done]).
  assert (worked e e1) as Hw by (by apply worked_upd_same). etransitivity; [exact Hw |]. case_match.
  - etransitivity; [apply worked_doReseed |]. by apply worked_reconcile, inv_doReseed.
  - by apply worked_reconcile.
Qed.

Lemma worked_onIndexUpdate e a body : inv e → worked e (onIndexUpdate cfg e a body).
Proof.
  intros Hi. unfold onIndexUpdate. destruct (DecodeFileInfos body) as [set |]; [| done]. cbv zeta.
  match goal with |- worked _ (reconcileWithPeer _ ?x _) => set (e1 := x) end.
  assert (inv e1) as Hi1 by (apply inv_upd_ps; [apply frame_index; intros; by apply keyed_foldl | done]).
  assert (worked e e1) as Hw by (by apply worked_upd_same). etransitivity; [exact Hw |]. by apply worked_reconcile.
Qed.

Lemma worked_message e id m : inv e → worked e (handleMessage cfg e id m).
Proof.
  intros Hi. unfold handleMessage. destruct (e_peers e !! id) as [a |]; [| done].
  destruct m; try done; [by apply worked_onIndex | by apply worked_onIndexUpdate | |].
  - unfold routeRequest. case_match; [| done]. case_match; [| by apply worked_calm]. by apply worked_upd_same.
  - unfold routeResponse. apply worked_upd_same. intros ps _. by repeat case_match.
Qed.

Lemma backed_removePeer P e id : backed P e → backed P (removePeer e id).
Proof.
  intros Hb. unfold removePeer. destruct (e_peers e !! id) as [a |]; [| done].
  eapply backed_worked; [by apply worked_upd_same | by apply backed_unpeer; [apply delete_subseteq |]].
Qed.

Lemma backed_shutdown P e : backed P e → backed P (shutdownPeers e).
Proof.
  intros Hb. unfold shutdownPeers. eapply backed_worked; [| by apply (backed_unpeer P e ∅); [apply map_empty_subseteq |]].
  apply (worked_foldl (λ _, True)); [| done]. intros. split; [by apply worked_upd_same | done].
Qed.

Lemma worked_serve e a e' : server_step e a = Some e' → worked e e'.
Proof.
  unfold server_step. destruct (e_states e !! a) as [ps |]; [| done]. cbn [mbind option_bind].
  destruct (ps_serveQ ps) as [|req q]; [done |]. intros Heq. apply (inj Some) in Heq as <-.
  transitivity (upd_ps e a (λ ps, ps_set_serveQ ps q)); [by apply worked_upd_same | by apply worked_calm].
Qed.

Lemma worked_request e a path hash offset len : worked e (requestChunk_send e a path hash offset len).
Proof.
  unfold requestChunk_send. case_match; [| done]. cbv zeta. etransitivity; [apply worked_upd_same | by apply worked_calm]; done.
Qed.
Lemma worked_requested e a reqID : worked e (requestChunk_done e a reqID).1.
Proof. unfold requestChunk_done. case_match; [| done]. by apply worked_upd_same. Qed.

Lemma calm_onLocalChange e key : calm (onLocalChange cfg e key) = calm e.
Proof. unfold onLocalChange. cbv zeta. repeat (case_match; try done; rewrite ?calm_broadcast; try done). Qed.

Lemma worked_rescan w e : inv e → worked e (rescan cfg w e).
Proof.
  intros Hi. destruct (rescan_phases cfg w e Hi) as [-> | (_ & e1 & _ & Hi1 & _ & Hs & Hp & Hc & _ & ->)]; [done |].
  transitivity e1; [apply worked_calm; unfold calm; congruence |].
  etransitivity; [| apply worked_calm, calm_saveSnapshot]. apply (worked_foldl inv); [| done].
  intros e2 a Hi2. split; [by apply worked_reconcile | by apply inv_reconcileWithPeer].
Qed.

(** ** Completions *)

Lemma peerByShort_connected e s id a ps :
  inv e → distinct_shorts e → e_peers e !! id = Some a → e_states e !! a = Some ps → ps_short ps = s → peerByShort e s = Some a.
Proof.
  intros Hi Hd Ha Hps Hs. unfold peerByShort.
  destruct (list_find _ (addresses e)) as [[i b] |] eqn:Hf.
  - apply list_find_Some in Hf as (Hb & Hsb & _). cbn. f_equal. apply list_elem_of_lookup_2 in Hb.
    apply list_elem_of_fmap in Hb as ([id' b'] & -> & Hin%elem_of_map_to_list). cbn in *.
    destruct (inv_peers e Hi id a Ha) as (ps1 & Hps1 & Hd1 & _). destruct (inv_peers e Hi id' b' Hin) as (ps2 & Hps2 & Hd2 & _).
    rewrite Hps2 in Hsb. cbn in Hsb. apply (inj Some) in Hsb.
    destruct (inv_states e Hi a ps1 Hps1) as [_ [_ Hs1 _ _]], (inv_states e Hi b' ps2 Hps2) as [_ [_ Hs2 _ _]].
    assert (id' = id) as ->; [| congruence]. apply Hd; [eauto.. |]. congruence.
  - apply list_find_None in Hf. rewrite Forall_forall in Hf. exfalso. apply (Hf a).
    + apply list_elem_of_fmap. exists (id, a). split; [done | by apply elem_of_map_to_list].
    + rewrite Hps. cbn. by f_equal.
Qed.

(** Clearing a path settles the exception for it. *)
Lemma backed_clear e s key :
  inv e → distinct_shorts e → backed (λ s' k, s' = s ∧ k = key) e → backed (λ _ _, False) (clearInflight e s key).
Proof.
  intros Hi Hd Hb id a ps k. unfold clearInflight. destruct (peerByShort e s) as [b |] eqn:Hby.
  - cbn. intros Ha Hps Hk. destruct (decide (b = a)) as [-> | Hne].
    + rewrite lookup_alter_eq, fmap_Some in Hps. destruct Hps as (ps0 & Hps0 & ->). cbn [ps_set_fetch ps_inflight] in Hk.
      apply elem_of_difference in Hk as [Hk Hkk]. destruct (Hb id a ps0 k Ha Hps0 Hk) as [? | [_ ->]]; [by left |].
      by destruct Hkk; apply elem_of_singleton.
    + rewrite lookup_alter_ne in Hps by done. destruct (Hb id a ps k Ha Hps Hk) as [? | [Hs ->]]; [by left |].
      rewrite (peerByShort_connected e s id a ps) in Hby by done. congruence.
  - intros Ha Hps Hk. destruct (Hb id a ps k Ha Hps Hk) as [? | [Hs ->]]; [by left |].
    by rewrite (peerByShort_connected e s id a ps) in Hby.
Qed.

Lemma pop_backed e c cs :
  e_completions e = c :: cs → backed (λ _ _, False) e →
  backed (λ s k, s = cp_peer c ∧ k = Path (cp_leaf c)) (set_completions e cs).
Proof.
  intros Hc Hb id a ps k Ha Hps Hk. destruct (Hb id a ps k Ha Hps Hk) as [[Hw | (c' & Hin & Hp & Hkc)] | []]; [left; by left |].
  rewrite Hc in Hin. apply elem_of_cons in Hin as [-> | Hin]; [right; done |]. left. right. by exists c'.
Qed.

(** Every branch of handleCompletion clears the path of the completion, between
    changes that let go of nothing. *)
Lemma handleCompletion_phases e c :
  inv e → ∃ e1, inv e1 ∧ calm e1 = calm e ∧
    (handleCompletion cfg e c = clearInflight e1 (cp_peer c) (Path (cp_leaf c)) ∨
     handleCompletion cfg e c = reconcileShort cfg (clearInflight e1 (cp_peer c) (Path (cp_leaf c))) (cp_peer c)).
Proof.
  intros Hi. unfold handleCompletion. cbv zeta. destruct (cp_applyTomb c).
  { eexists. split; [| split; [| by right]]; [by apply inv_applyTombstone | apply calm_applyTombstone]. }
  destruct (cp_conflictAbort c); [exists e; auto |]. eexists. split; [| split; [| by right]].
  - assert (inv (rebuild (set_files e (<[Path (cp_leaf c) := cp_leaf c]> (e_files e))))) as Hr.
    { apply inv_rebuild; [done |]. apply keyed_insert; [apply Hi | done]. }
    destruct (cp_ok c); [| done]. destruct (cp_advertise c); [by apply inv_broadcast | done].
  - destruct (cp_ok c); [| done]. destruct (cp_advertise c); [by rewrite calm_broadcast | done].
Qed.

Lemma worked_reconcileShort e s : inv e → worked e (reconcileShort cfg e s).
Proof. intros Hi. unfold reconcileShort. case_match; [by apply worked_reconcile | done]. Qed.

Lemma backed_completion e c cs :
  inv e → distinct_shorts e → e_completions e = c :: cs → backed (λ _ _, False) e →
  backed (λ _ _, False) (handleCompletion cfg (set_completions e cs) c).
Proof.
  intros Hi Hd Hc Hb. pose proof (pop_backed e c cs Hc Hb) as Hb1.
  destruct (handleCompletion_phases (set_completions e cs) c) as (e1 & Hi1 & Hcalm & Hor); [by apply inv_set_completions |].
  assert (backed (λ _ _, False) (clearInflight e1 (cp_peer c) (Path (cp_leaf c)))) as Hcl.
  { apply backed_clear; [done | | by apply (backed_worked _ (set_completions e cs)); [apply worked_calm |]].
    unfold calm in Hcalm. injection Hcalm as _ Hp _. unfold distinct_shorts. by rewrite Hp. }
  destruct Hor as [-> | ->]; [done |]. eapply backed_worked; [by apply worked_reconcileShort, inv_clearInflight | done].
Qed.

(** ** The puller *)

(** A puller's step replaces the queue and the running half and reports. *)
Lemma worked_pulled e e' a ps q run cs :
  e_states e !! a = Some ps → e_peers e' = e_peers e → e_completions e' = e_completions e ++ cs →
  e_states e' = alter (λ ps, ps_set_fetch ps (ps_inflight ps) q run) a (e_states e) →
  (∀ k, k ∈ work_keys ps → k ∈ work_keys (ps_set_fetch ps (ps_inflight ps) q run) ∨
     ∃ c, c ∈ cs ∧ cp_peer c = ps_short ps ∧ Path (cp_leaf c) = k) →
  worked e e'.
Proof.
  intros Hps Hp Hc Hs Hk. split; [by rewrite Hp | rewrite Hc; intros c Hin; apply elem_of_app; by left |].
  rewrite Hs. intros b ps'. destruct (decide (a = b)) as [<- | Hne].
  - rewrite lookup_alter_eq, Hps. intros Heq. apply (inj Some) in Heq as <-. exists ps. split; [done |].
    split_and!; [done | | by left].
    intros k Hin. destruct (Hk k Hin) as [? | (c & Hcs & ?)]; [by left | right]. exists c. rewrite Hc, elem_of_app. auto.
  - rewrite lookup_alter_ne by done. intros Hps'. exists ps'. split; [done | apply ps_worked_refl].
Qed.

Lemma materialise_reports e a ps leaf adv tmp now net :
  let '(e', ok) := materialise_step cfg e a ps leaf adv tmp now net in
  ∃ c, e_completions e' = e_completions e ++ [c] ∧ cp_peer c = ps_short ps ∧ cp_leaf c = leaf ∧
    e_states e' = e_states e ∧ e_peers e' = e_peers e.
Proof. unfold materialise_step. destruct (materialise _ _ _ _ _ _ _ _). eexists. split; [done | done]. Qed.

Definition load (ps : peerState) : nat := 2 * length (ps_fetchQ ps) + (if ps_running ps then 1 else 0).

(** What one step does: the load drops, and each path that leaves is reported. *)
Lemma puller_step_spec e a ps tmp now net e' :
  e_states e !! a = Some ps → puller_step cfg e a tmp now net = Some e' →
  ∃ q run cs, e_peers e' = e_peers e ∧ e_completions e' = e_completions e ++ cs ∧
    e_states e' = alter (λ ps, ps_set_fetch ps (ps_inflight ps) q run) a (e_states e) ∧
    (0 < length cs ∧ load (ps_set_fetch ps (ps_inflight ps) q run) + length cs ≤ load ps)%nat ∧
    (∀ k, k ∈ work_keys ps → k ∈ work_keys (ps_set_fetch ps (ps_inflight ps) q run) ∨
       ∃ c, c ∈ cs ∧ cp_peer c = ps_short ps ∧ Path (cp_leaf c) = k).
Proof.
  intros Hps (ps0 & Hps0 & _ & Hrf)%puller_step_run. assert (ps0 = ps) as -> by congruence. revert Hrf.
  unfold runFetch. destruct (ps_running ps) as [task |] eqn:Hrun.
  - intros Heq. apply (inj Some) in Heq as <-.
    pose proof (materialise_reports (set_running e a (ps_fetchQ ps) None) a ps (ft_leaf task) (ft_advertise task) tmp now net) as Hm.
    destruct (materialise_step _ _ _ _ _ _ _ _ _) as [e1 ok]. destruct Hm as (c & Hc & Hcp & Hcl & Hs & Hp).
    exists (ps_fetchQ ps), None, [c]. split_and!; [done.. | cbn; lia | unfold load; rewrite Hrun; cbn; lia |].
    intros k. rewrite !elem_of_work_keys. intros [? | (t & Ht & Hk)]; [by left; left |]. right. exists c.
    assert (t = task) as -> by congruence. rewrite list_elem_of_singleton, Hcl. done.
  - destruct (ps_fetchQ ps) as [|task q] eqn:Hq; [done |].
    assert (∀ k, k ∈ work_keys ps → k ∈ work_keys (ps_set_fetch ps (ps_inflight ps) q None) ∨ k ∈ task_keys task) as Hsplit.
    { intros k. rewrite !elem_of_work_keys, Hq, Hrun. cbn [ps_set_fetch ps_fetchQ ps_running].
      intros [(t & [-> | Ht]%elem_of_cons & Hk) | (t & ? & _)]; [by right | left; left; eauto | done]. }
    assert (∀ run, load (ps_set_fetch ps (ps_inflight ps) q run) + (if run then 1 else 2) ≤ load ps)%nat as Hload.
    { intros run. unfold load. rewrite Hq, Hrun. cbn. destruct run; lia. }
    destruct (ft_preserve task) as [copy |] eqn:Hpre; intros Heq.
    + pose proof (materialise_reports (set_running e a q None) a ps copy (ft_preserveAdvertise task) tmp now net) as Hm.
      destruct (materialise_step _ _ _ _ _ _ _ _ _) as [e1 ok]. destruct Hm as (c & Hc & Hcp & Hcl & Hs & Hp).
      apply (inj Some) in Heq as <-.
      assert (∀ c2, Path (cp_leaf c2) = Path (ft_leaf task) → cp_peer c2 = ps_short ps → ∀ k, k ∈ task_keys task →
        ∃ c', c' ∈ [c; c2] ∧ cp_peer c' = ps_short ps ∧ Path (cp_leaf c') = k) as Hboth.
      { intros c2 Hl2 Hp2 k. unfold task_keys. rewrite Hpre. cbn. rewrite elem_of_cons, list_elem_of_singleton.
        intros [-> | ->]; [exists c2 | exists c]; rewrite elem_of_cons, list_elem_of_singleton; rewrite ?Hcl; auto. }
      destruct ok; cbn [negb]; [destruct (Deleted (ft_leaf task)) |].
      * eexists q, None, [c; _]. split_and!; [done | cbn; rewrite Hc, <- app_assoc; reflexivity | done | cbn; lia | apply (Hload None) |].
        intros k [? | ?]%Hsplit; [by left | right; by apply Hboth].
      * exists q, (Some task), [c]. split_and!; [done | done | | cbn; lia | apply (Hload (Some task)) |].
        { cbn. rewrite Hs. cbn. by rewrite alter_alter_eq. }
        intros k [Hk | Hk]%Hsplit.
        -- left. rewrite elem_of_work_keys in Hk |- *. destruct Hk as [? | (t & ? & _)]; [by left | done].
        -- unfold task_keys in Hk. rewrite Hpre in Hk. cbn in Hk. apply elem_of_cons in Hk as [-> | Hk%list_elem_of_singleton].
           ++ left. apply elem_of_work_keys. right. by exists task.
           ++ right. exists c. by rewrite list_elem_of_singleton, Hcl.
      * eexists q, None, [c; _]. split_and!; [done | cbn; rewrite Hc, <- app_assoc; reflexivity | done | cbn; lia | apply (Hload None) |].
        intros k [? | ?]%Hsplit; [by left | right; by apply Hboth].
    + pose proof (materialise_reports (set_running e a q None) a ps (ft_leaf task) (ft_advertise task) tmp now net) as Hm.
      destruct (materialise_step _ _ _ _ _ _ _ _ _) as [e1 ok]. destruct Hm as (c & Hc & Hcp & Hcl & Hs & Hp).
      apply (inj Some) in Heq as <-. exists q, None, [c]. split_and!; [done.. | cbn; lia | pose proof (Hload None); cbn in *; lia |].
      intros k [? | Hk]%Hsplit; [by left | right]. unfold task_keys in Hk. rewrite Hpre in Hk. cbn in Hk.
      apply list_elem_of_singleton in Hk as ->. exists c. by rewrite list_elem_of_singleton, Hcl.
Qed.

(** ** Connections and steps *)

Lemma backed_addPeer e id hello : inv e → backed (λ _ _, False) e → backed (λ _ _, False) (addPeer e id hello).1.
Proof.
  intros Hi Hb id' a ps k. cbn. destruct (decide (id = id')) as [<- | Hne].
  - rewrite lookup_insert_eq. intros Ha. apply (inj Some) in Ha as <-. rewrite lookup_insert_eq.
    intros Heq. apply (inj Some) in Heq as <-. cbn. by intros ?%not_elem_of_empty.
  - rewrite lookup_insert_ne by done. intros Ha. destruct (inv_peers e Hi id' a Ha) as (ps0 & Hps0 & _).
    destruct (inv_states e Hi a ps0 Hps0) as [Hlt _]. rewrite lookup_insert_ne by lia. intros Hps Hk.
    destruct (Hb id' a ps k Ha Hps Hk) as [[Hw | Hp] | []]; left; [by left | by right].
Qed.

Lemma backed_connected e conn : inv e → backed (λ _ _, False) e → backed (λ _ _, False) (onPeerConnected cfg e conn).
Proof.
  intros Hi Hb. destruct conn as [[id hello] |]; [| done]. unfold onPeerConnected.
  pose proof (backed_addPeer e id hello Hi Hb) as Ha. destruct (addPeer e id hello) as [e1 a]. cbn [fst] in Ha.
  case_decide; [done |]. destruct (buildIndex _ _); [| done]. eapply backed_worked; [by apply worked_calm | exact Ha].
Qed.

(** Every step of the engine's own lets go of nothing, but that of a completion. *)
Lemma own_step_worked e e' :
  inv e → own_step cfg e e' →
  worked e e' ∨ ∃ c cs, e_completions e = c :: cs ∧ e' = handleCompletion cfg (set_completions e cs) c.
Proof.
  intros Hi Hs. destruct Hs as [d | k id v | id | key | c cs Hc | | | id | a tmp now net e' Hpull | a e' Hserve
    | a path hash offset len | a reqID]; try by left; apply worked_calm.
  - left. apply worked_calm. unfold onPeerDiscovered. by repeat case_match.
  - left. apply worked_calm, calm_onLocalChange.
  - right. by exists c, cs.
  - left. by apply worked_rescan.
  - left. apply worked_calm, calm_saveSnapshot.
  - left. apply worked_calm. unfold DropCounter. by destruct (dropCounterLocked _ _) as [files []].
  - left. destruct (e_states e !! a) as [ps |] eqn:Hps; [| unfold puller_step in Hpull; by rewrite Hps in Hpull].
    destruct (puller_step_spec e a ps tmp now net e' Hps Hpull) as (q & run & cs & Hp & Hc & Hst & _ & Hk). by eapply worked_pulled.
  - left. by eapply worked_serve.
  - left. apply worked_request.
  - left. apply worked_requested.
Qed.

Lemma backed_step e e' :
  inv e → distinct_shorts e → step cfg e e' → backed (λ _ _, False) e → backed (λ _ _, False) e'.
Proof.
  intros Hi Hd Hs Hb. destruct Hs as [e' Hs | ev |]; [| destruct ev | by apply backed_shutdown].
  - destruct (own_step_worked e e' Hi Hs) as [Hw | (c & cs & Hc & ->)]; [by eapply backed_worked | by apply backed_completion].
  - by apply backed_connected.
  - by apply backed_removePeer.
  - eapply backed_worked; [by apply worked_message | done].
Qed.

(** Nothing the engine does of its own, nor a message, changes the map of peers. *)
Lemma peers_completion e c : inv e → e_peers (handleCompletion cfg e c) = e_peers e.
Proof.
  intros Hi. destruct (handleCompletion_phases e c Hi) as (e1 & Hi1 & Hcalm & Hor).
  assert (e_peers (clearInflight e1 (cp_peer c) (Path (cp_leaf c))) = e_peers e) as Hcl.
  { unfold calm in Hcalm. injection Hcalm as _ <- _. unfold clearInflight. by case_match. }
  destruct Hor as [-> | ->]; [done |]. rewrite <- Hcl. by apply wk_peers, worked_reconcileShort, inv_clearInflight.
Qed.

Lemma peers_own_step e e' : inv e → own_step cfg e e' → e_peers e' = e_peers e.
Proof.
  intros Hi Hs. destruct (own_step_worked e e' Hi Hs) as [Hw | (c & cs & _ & ->)]; [by apply wk_peers |].
  by rewrite peers_completion by by apply inv_set_completions.
Qed.

(** A step after which connected devices have distinct short ids. *)
Definition sstep (e e' : Engine) : Prop := step cfg e e' ∧ distinct_shorts e'.

Lemma ssteps_backed snap d e0 e :
  New cfg snap d = Ok e0 → rtc sstep e0 e → backed (λ _ _, False) e.
Proof.
  intros Hn Hr. assert (inv e0) as Hi by (by eapply inv_New).
  assert (backed (λ _ _, False) e0 ∧ distinct_shorts e0) as [Hb Hd].
  { unfold New in Hn. case_decide; [done |]. unfold startupReconcile in Hn. rewrite rbind_Ok in Hn.
    destruct Hn as (prev & _ & Hn). apply rbind_Ok in Hn as (cur & _ & Hn). apply Ok_inj in Hn as <-. split.
    - intros id a ps k. cbn. by rewrite lookup_empty.
    - intros id1 id2 [a Ha]. cbn in Ha. by rewrite lookup_empty in Ha. }
  clear Hn. induction Hr as [e | e1 e2 e3 [Hst Hd2] _ IH]; [done |]. apply IH; [by eapply inv_step | by eapply backed_step | done].
Qed.

(** ** A puller at work *)

(** Turns of the puller of [a] and receives of the loop from the channel of
    completions, in any order; [got] is what was received. *)
Inductive pull_run (a : nat) : nat → list completion → Engine → Engine → Prop :=
| pull_stop e : pull_run a 0 [] e e
| pull_turn tmp now net n got e e1 e2 :
    puller_step cfg e a tmp now net = Some e1 → pull_run a n got e1 e2 → pull_run a (S n) got e e2
| pull_receive c cs n got e e2 :
    e_completions e = c :: cs → pull_run a n got (set_completions e cs) e2 → pull_run a (S n) (c :: got) e e2.

Lemma puller_ready e a ps tmp now net :
  e_states e !! a = Some ps → sending e a = false → (0 < load ps)%nat → is_Some (puller_step cfg e a tmp now net).
Proof.
  intros Hps Hs Hl. unfold puller_step. rewrite Hps. cbn [mbind option_bind]. rewrite Hs. unfold runFetch, load in *.
  destruct (ps_running ps); [eauto |]. destruct (ps_fetchQ ps) as [|task q]; [cbn in Hl; lia |].
  destruct (ft_preserve task); [| eauto]. destruct (materialise_step _ _ _ _ _ _ _ _ _). eauto.
Qed.

(** A puller that is not at rest either can take a turn or is blocked in a send. *)
Lemma puller_stuck e a ps tmp now net :
  e_states e !! a = Some ps → puller_step cfg e a tmp now net = None ↔ load ps = 0%nat ∨ sending e a = true.
Proof.
  intros Hps. destruct (sending e a) eqn:Hs.
  - unfold puller_step. rewrite Hps. cbn [mbind option_bind]. rewrite Hs. tauto.
  - destruct (decide (load ps = 0%nat)) as [Hz | Hnz].
    + split; [by left | intros _]. destruct (puller_step cfg e a tmp now net) as [e' |] eqn:Hp; [exfalso | done].
      destruct (puller_step_spec e a ps tmp now net e' Hps Hp) as (q & run & cs & _ & _ & _ & [? ?] & _). lia.
    + destruct (puller_ready e a ps tmp now net Hps Hs ltac:(lia)) as [e' ->]. split; [done | naive_solver].
Qed.

Lemma sending_full e a : sending e a = true → (completionsDepth < length (e_completions e))%nat.
Proof.
  unfold sending. intros Hs. destruct (decide (completionsDepth < length (e_completions e))%nat) as [? | Hle]; [done |].
  by rewrite drop_ge in Hs by lia.
Qed.

(** Every path held is worked on, reported, or received by the loop. *)
Definition accounted (got : list completion) (e : Engine) (ps : peerState) (k : bytes) : Prop :=
  k ∈ work_keys ps ∨ ∃ c, c ∈ got ++ e_completions e ∧ cp_peer c = ps_short ps ∧ Path (cp_leaf c) = k.

Lemma pull_run_spec a n got e e' ps :
  pull_run a n got e e' → e_states e !! a = Some ps →
  ∃ ps', e_states e' !! a = Some ps' ∧ ps_inflight ps' = ps_inflight ps ∧ ps_short ps' = ps_short ps ∧
    (n + 2 * load ps' + length (e_completions e') ≤ 2 * load ps + length (e_completions e))%nat ∧
    (load ps' + length (e_completions e') ≤ load ps + length (e_completions e))%nat ∧
    ∀ k, accounted [] e ps k → accounted got e' ps' k.
Proof.
  intros Hr. revert ps. induction Hr as [e | tmp now net n got e e1 e2 Hp _ IH | c cs n got e e2 Hc _ IH]; intros ps Hps.
  - exists ps. split_and!; [done.. | lia | lia | done].
  - destruct (puller_step_spec e a ps tmp now net e1 Hps Hp) as (q & run & cs & _ & Hc & Hst & [Hcs Hl] & Hk).
    set (ps1 := ps_set_fetch ps (ps_inflight ps) q run) in *.
    destruct (IH ps1) as (ps2 & Hx1 & Hx2 & Hx3 & Hx4 & Hx5 & Hx6); [by rewrite Hst, lookup_alter_eq, Hps |].
    rewrite Hc, length_app in Hx4, Hx5. exists ps2. split_and!; [done.. | lia | lia |].
    intros k Ha. apply Hx6. unfold accounted. rewrite Hc. destruct Ha as [Hw | (c & Hin & ?)].
    + destruct (Hk k Hw) as [? | (c & Hin & ?)]; [by left | right]. exists c. split; [apply elem_of_app; right; apply elem_of_app; by right | done].
    + right. exists c. split; [| done]. apply elem_of_app. right. apply elem_of_app. by left.
  - destruct (IH ps Hps) as (ps2 & Hx1 & Hx2 & Hx3 & Hx4 & Hx5 & Hx6). cbn [e_completions set_completions] in Hx4, Hx5.
    rewrite Hc. cbn [length]. exists ps2. split_and!; [done.. | lia | lia |].
    intros k [Hw | (c' & Hin & ?)].
    + destruct (Hx6 k) as [? | (c' & Hin & ?)]; [by left | by left | right]. exists c'. split; [by apply list_elem_of_further | done].
    + rewrite Hc in Hin. apply elem_of_cons in Hin as [-> | Hin].
      * right. exists c. rewrite Hx3. split; [apply list_elem_of_here | done].
      * destruct (Hx6 k) as [? | (c2 & Hin2 & ?)]; [right; by exists c' | by left | right]. exists c2.
        split; [by apply list_elem_of_further | done].
Qed.

Lemma load_zero ps : load ps = 0%nat → ps_fetchQ ps = [] ∧ ps_running ps = None ∧ work_keys ps = [].
Proof.
  unfold load, work_keys. destruct (ps_running ps); [lia |]. destruct (ps_fetchQ ps); cbn; [done | lia].
Qed.
End work.

(** * Properties *)

(** C10: nothing stays in flight for ever: along any run in which connected devices
    have distinct short ids, a path in flight for a connected peer is in a task that
    peer's queue holds or its puller is working on, or a completion for it waits for
    the loop, which will clear it. *)
Theorem inflight_backed `{OS, Digest, Unicode} cfg snap d e0 e id a ps k :
  New cfg snap d = Ok e0 → rtc (sstep cfg) e0 e →
  e_peers e !! id = Some a → e_states e !! a = Some ps → k ∈ ps_inflight ps →
  k ∈ work_keys ps ∨ ∃ c, c ∈ e_completions e ∧ cp_peer c = ps_short ps ∧ Path (cp_leaf c) = k.
Proof.
  intros Hn Hr Ha Hps Hk. destruct (ssteps_backed cfg snap d e0 e Hn Hr id a ps k Ha Hps Hk) as [Hh | []]. exact Hh.
Qed.


Section work_witness.
#[local] Existing Instance toy_digest.

Lemma one_peer_distinct e p : map_to_list (e_peers e) = [p] → distinct_shorts e.
Proof.
  intros Hp id1 id2 [a1 H1] [a2 H2] _. apply elem_of_map_to_list in H1, H2.
  rewrite Hp, list_elem_of_singleton in H1, H2. congruence.
Qed.

Lemma conflict_run : rtc (sstep home) e_start e_conflict.
Proof.
  assert (∀ e e', map_to_list (e_peers e') = [(device "B", 0%nat)] → step home e e' → sstep home e e') as Hs.
  { intros e e' Hp Hst. split; [done | by eapply one_peer_distinct]. }
  eapply rtc_l; [apply Hs; [| apply (step_transport home _ (PeerConnected (Some (device "B", mkHello 1 (device "B") (go! "folder") zero32 0))))] |];
    [vm_compute; reflexivity |]. fold e_connected.
  eapply rtc_l; [apply Hs; [| apply step_own, (step_user home _ (holding (go! "v1") 2))]; vm_compute; reflexivity |].
  eapply rtc_l; [apply Hs; [| apply step_own, (step_local home _ note)] |]; [vm_compute; reflexivity |]. fold e_edited.
  eapply rtc_l; [apply Hs; [| apply (step_transport home _ (update_from [their_note]))] |]; [vm_compute; reflexivity |].
  fold e_conflict. apply rtc_refl.
Qed.

Lemma inflight_backed_witness :
  note ∈ ps_inflight ps_conflict ∧
  (note ∈ work_keys ps_conflict ∨ ∃ c, c ∈ e_completions e_conflict ∧ cp_peer c = ps_short ps_conflict ∧ Path (cp_leaf c) = note).
Proof.
  assert (note ∈ ps_inflight ps_conflict) as Hin by (apply (bool_decide_unpack _); vm_compute; exact I).
  split; [exact Hin |].
  apply (inflight_backed home SnapMissing (holding (go! "v0") 1) e_start e_conflict (device "B") 0%nat ps_conflict note).
  - vm_compute. reflexivity.
  - exact conflict_run.
  - vm_compute. reflexivity.
  - vm_compute. reflexivity.
  - exact Hin.
Defined.

Lemma chosen (o : option Engine) d : bool_decide (is_Some o) = true → o = Some (match o with Some e => e | None => d end).
Proof. intros [e ->]%bool_decide_eq_true. reflexivity. Qed.
Definition e_pulled : Engine :=
  match puller_step home e_conflict 0 copy_tmp 7 ([], Some ErrPeerGone, None) with Some e => e | None => e_conflict end.
Definition e_pulled_twice : Engine :=
  match puller_step home e_pulled 0 copy_tmp 8 ([], Some ErrPeerGone, None) with Some e => e | None => e_pulled end.

End work_witness.
