(* ===== verification/Converge.v ===== *)
(** * Converge: two quiet devices hold the same tree

    Two engines that know each other's records where they differ, and for which
    reconciling changes nothing and leaves nothing in flight, agree on every path,
    except a tombstone of a file the other never had. Then their root hashes are
    equal and a new connection sends no INDEX. The argument composes the exactness
    of the diff, the completeness of reconciling on each side and the agreement of
    the two verdicts. *)
From S2P Require Import Prelude Bytes VersionVector Framing Messages Windows Pathnorm Hashing.
From S2P Require Import FileInfo Tree Oracle Differ Conflict Scanner Disk Transfer Replica Engine.
From S2P Require Import Story Invariant Reconcile Progress.

(** ** Where two trees differ *)

Section differ.
Context `{Digest}.

Lemma differs_prefix l r p :
  skey <$> oleaf l p ≠ skey <$> oleaf r p → ∃ q q', p = q ++ q' ∧ differs_at l r q.
Proof.
  revert l r. induction p as [|k p IH]; intros l r Hd.
  - exists [], []. split; [done |]. split; [done |]. by intros [|? ?] k q'.
  - destruct (decide (oleaf l [] = None ∧ oleaf r [] = None)) as [[H1 H2] | Hn].
    + rewrite !oleaf_cons in Hd. destruct (IH _ _ Hd) as (q & q' & -> & Hq).
      exists (k :: q), q'. split; [done |]. by apply differs_at_cons.
    + exists [], (k :: p). split; [done |]. split; [| by intros [|? ?] k' q']. rewrite !oleaf_cons in Hd.
      destruct l as [[] |], r as [[] |]; cbn in *; rewrite ?lookup_empty in Hd; try done; exfalso; apply Hn; done.
Qed.

(** A leaf strictly below a position makes it a directory. *)
Lemma leaf_below_dir n q k q' : is_Some (oleaf n (q ++ k :: q')) → is_dir_at (owalk n q) = true.
Proof.
  revert n. induction q as [|x q IH]; intros n; cbn [app].
  - rewrite oleaf_cons. intros [fi Hl]. destruct n as [[] |]; cbn in *; rewrite ?lookup_empty in Hl; done.
  - rewrite oleaf_cons, owalk_cons. apply IH.
Qed.

(** Without a type clash the entry is at the path itself. *)
Lemma differs_entry l r p :
  owf (Some l) → owf (Some r) → collision_free (preimages l ++ preimages r) →
  (∀ d, d ∈ Diff (Some l) (Some r) → IsTypeClash d = false) →
  skey <$> leaf_at l p ≠ skey <$> leaf_at r p →
  ∃ d, d ∈ Diff (Some l) (Some r) ∧ Local d = leaf_at l p ∧ Remote d = leaf_at r p.
Proof.
  intros Hl Hr Hcf Hclash Hne. destruct (differs_prefix (Some l) (Some r) p Hne) as (q & q' & -> & Hq).
  set (d := entry_at (join_with [slash_c] q) (owalk (Some l) q) (owalk (Some r) q)).
  assert (d ∈ Diff (Some l) (Some r)) as Hd by (apply Diff_spec; [done.. |]; by exists q).
  destruct q' as [|k q']; [exists d; by rewrite app_nil_r |]. exfalso.
  specialize (Hclash d Hd). unfold IsTypeClash, d, entry_at in Hclash. cbn in Hclash. apply orb_false_iff in Hclash as [Hc1 Hc2].
  destruct (leaf_at l (q ++ k :: q')) as [fi |] eqn:H1.
  - pose proof (leaf_below_dir (Some l) q k q') as Hb. cbn in Hb. rewrite H1 in Hb. by rewrite Hb in Hc1.
  - destruct (leaf_at r (q ++ k :: q')) as [fi |] eqn:H2; [| done].
    pose proof (leaf_below_dir (Some r) q k q') as Hb. cbn in Hb. rewrite H2 in Hb. by rewrite Hb in Hc2.
Qed.

Lemma leaf_files f t k : keyed f → BuildTree (set_of f) = Ok t → leaf_at t (split_on slash_c k) = f !! k.
Proof.
  intros Hk Hb. apply option_eq. intros fi. rewrite (leaf_at_files f t _ fi Hk Hb). split.
  - intros [Hf Hs]. by rewrite <- (split_on_inj slash_c _ _ Hs).
  - intros Hf. pose proof (Hk k fi Hf) as Hp. simpl in Hp. by rewrite Hp.
Qed.
End differ.

(** ** A device at rest *)

Section rest.
Context `{OS, Digest, Unicode}.

(** Reconciling with the peer at [a], whose index is [idx], records nothing and leaves
    nothing in flight; the two sets form trees without a type clash and without a
    hash collision. *)
Record quiet (cfg : Config) (e : Engine) (a : nat) (idx : Files) : Prop := mkQuiet {
  q_reachable : reachable cfg e;
  q_peer : ps_index <$> e_states e !! a = Some idx;
  q_idle k : ¬ busy a (reconcileWithPeer cfg e a) k;
  q_same : e_files (reconcileWithPeer cfg e a) = e_files e;
  q_fits k l r : e_files e !! k = Some l → idx !! k = Some r → ¬ refused cfg (resolve (Some l) (Some r) (selfShort cfg));
  q_width : Forall fi_width (set_of (e_files e)) ∧ Forall fi_width (set_of idx);
  q_trees : ∃ lt pt, BuildTree (set_of (e_files e)) = Ok lt ∧ BuildTree (set_of idx) = Ok pt ∧
    collision_free (preimages lt ++ preimages pt) ∧ ∀ d, d ∈ Diff (Some lt) (Some pt) → IsTypeClash d = false
}.

(** Where the records differ, the verdict at rest is what is on record. *)
Lemma quiet_outcome cfg e a idx k :
  quiet cfg e a idx → skey <$> e_files e !! k ≠ skey <$> idx !! k →
  outcome (e_files e !! k) (resolve (e_files e !! k) (idx !! k) (selfShort cfg)) = e_files e !! k.
Proof.
  intros [Hr Hpeer Hidle Hsame Hfits [Hw1 Hw2] (lt & pt & Hlt & Hpt & Hcf & Hclash)] Hne. apply reachable_inv in Hr as Hi.
  apply fmap_Some in Hpeer as (ps & Hps & ->). destruct (inv_states e Hi a ps Hps) as [_ [Hix _ _ _]].
  pose proof (leaf_files (e_files e) lt k (inv_keyed e Hi) Hlt) as Hl. pose proof (leaf_files (ps_index ps) pt k Hix Hpt) as Hrm.
  destruct (differs_entry lt pt (split_on slash_c k)) as (d & Hd & HLd & HRd); [by eapply built_owf.. | done | done | by rewrite Hl, Hrm |].
  rewrite Hl in HLd. rewrite Hrm in HRd. rewrite <- HLd at 2 3. rewrite <- HRd.
  set (p := resolve (Local d) (Remote d) (selfShort cfg)).
  destruct (decide (kind p = planNoOp)) as [Hk | Hk]; [unfold outcome; by rewrite Hk |].
  assert (BuildTree (snapshotFilesLocked (e_files e)) = Ok lt) as Hlt' by (by rewrite (BuildTree_perm_eq _ _ (snapshot_perm _))).
  destruct (reconcile_handles cfg e a ps lt pt d Hi Hps Hlt' Hpt Hd (Hclash d Hd) Hk) as [Hb | [(t & Hdue & Hp & Ht) | Hf]].
  - by apply Hidle in Hb.
  - rewrite Hsame in Ht. destruct Hdue as (_ & l & r & Hfl & Hfr & _ & Ho & _). rewrite Hp in Hfl, Hfr.
    destruct (Remote d) as [r0 |] eqn:HRd'; [| subst p; by destruct (Local d)].
    assert (entry_key d = k) as Hek by (unfold entry_key; rewrite HRd'; by apply (Hix k r0)).
    rewrite Hek in Hfl, Hfr, Ht. rewrite Hfl in HLd. subst p. rewrite HLd, HRd, Hfr in *.
    destruct Ht as [Ht | Ht]; congruence.
  - destruct (Remote d) as [r0 |] eqn:HRd'; [| subst p; by destruct (Local d)].
    destruct (Local d) as [l0 |] eqn:HLd'; [| subst p; unfold resolve in Hf; destruct (Deleted r0); by destruct Hf as (c & ? & _)].
    exfalso. by apply (Hfits k l0 r0).
Qed.

(** ** Two devices at rest *)

(** A tombstone on one side of a path the other side has no record of. *)
Definition unknown_tombstone (x y : option FileInfo) : Prop :=
  (∃ t, x = Some t ∧ Deleted t = true ∧ y = None) ∨ (∃ t, y = Some t ∧ Deleted t = true ∧ x = None).

Lemma fixed_agree `{!UnicodeLaws} x y sa sb :
  (∀ a b, x = Some a → y = Some b → leaf_pair a b) →
  outcome x (resolve x y sa) = x → outcome y (resolve y x sb) = y →
  (vkey <$> x = vkey <$> y ∧ ((∀ a b, x = Some a → y = Some b → same_modes a b) → skey <$> x = skey <$> y)) ∨ unknown_tombstone x y.
Proof.
  intros Hlp Hx Hy. destruct x as [a |], y as [b |]; [left | right | right | by left].
  - pose proof (resolve_agree_modes a b sa sb (Hlp a b eq_refl eq_refl)) as Ha. cbv zeta in Ha. rewrite Hx, Hy in Ha.
    destruct Ha as [Hv Hm]. split; [done |]. intros Hs. by apply Hm, Hs.
  - left. exists a. split_and!; [done | | done]. unfold resolve in Hy. by destruct (Deleted a).
  - right. exists b. split_and!; [done | | done]. unfold resolve in Hx. by destruct (Deleted b).
Qed.

Lemma skey_vkey_opt (x y : option FileInfo) : skey <$> x = skey <$> y → vkey <$> x = vkey <$> y.
Proof. destruct x, y; try done. intros Hs%(inj Some)%skey_vkey. cbn. f_equal. apply Hs. Qed.

(** Engines that agree on every path have the same root hash. *)
Lemma similar_roots A B :
  inv A → inv B → similar (e_files A) (e_files B) → (∃ t, BuildTree (set_of (e_files A)) = Ok t) →
  RootHash (e_tree A) = RootHash (e_tree B).
Proof.
  intros HiA HiB Hsim [tA HtA].
  destruct (similar_tree (e_files A) (e_files B) tA (inv_keyed A HiA) (inv_keyed B HiB) Hsim HtA) as (tB & HtB & Hh).
  rewrite (inv_coherent A HiA tA HtA), (inv_coherent B HiB tB HtB). done.
Qed.

Lemma reachable_step cfg e e' : reachable cfg e → step cfg e e' → reachable cfg e'.
Proof. intros (snap & d & e0 & Hn & Hr) Hs. exists snap, d, e0. split; [done |]. by eapply rtc_r. Qed.

End rest.

(** * Properties *)

(** C3: devices at rest have converged: take two reachable engines, each connected to
    the other, for which reconciling records nothing and leaves nothing in flight (no
    conflict copy is refused for its length, the trees have no type clash and no hash
    collision), and which know each other's current record of every path where they
    differ; and let their records of a common path be a [leaf_pair]: a canonical key
    without colon or backslash, canonical versions, and, where content or deletion flag
    differ, different modification times or content hashes. Then on every path they agree on
    content, deletion flag and version, or one has a tombstone and the other no record.
    If moreover no common file of equal content has drifted in its mode byte, they
    agree structurally; and if also no such lone tombstone is left, their root hashes
    are equal and connecting anew sends no INDEX. *)
Theorem quiet_converged `{OS, Digest, UnicodeLaws} cfgA cfgB A B a b idxA idxB :
  quiet cfgA A a idxA → quiet cfgB B b idxB →
  (∀ k, skey <$> e_files A !! k ≠ skey <$> e_files B !! k → idxA !! k = e_files B !! k ∧ idxB !! k = e_files A !! k) →
  (∀ k x y, e_files A !! k = Some x → e_files B !! k = Some y → leaf_pair x y) →
  (∀ k, vkey <$> e_files A !! k = vkey <$> e_files B !! k ∨ unknown_tombstone (e_files A !! k) (e_files B !! k)) ∧
  ((∀ k x y, e_files A !! k = Some x → e_files B !! k = Some y → same_modes x y) →
   (∀ k, skey <$> e_files A !! k = skey <$> e_files B !! k ∨ unknown_tombstone (e_files A !! k) (e_files B !! k)) ∧
   ((∀ k, ¬ unknown_tombstone (e_files A !! k) (e_files B !! k)) →
    RootHash (e_tree A) = RootHash (e_tree B) ∧
    e_sent (onPeerConnected cfgA A (Some (cfg_Self cfgB, Hello_of cfgB B))) = e_sent A)).
Proof.
  intros HA HB Hinf Hlp.
  assert (∀ k, (vkey <$> e_files A !! k = vkey <$> e_files B !! k ∧
      ((∀ x y, e_files A !! k = Some x → e_files B !! k = Some y → same_modes x y) → skey <$> e_files A !! k = skey <$> e_files B !! k)) ∨
    unknown_tombstone (e_files A !! k) (e_files B !! k)) as Hag.
  { intros k. destruct (decide (skey <$> e_files A !! k = skey <$> e_files B !! k)) as [? | Hne]; [left; auto using skey_vkey_opt |].
    destruct (Hinf k Hne) as [HkA HkB]. pose proof (quiet_outcome cfgA A a idxA k HA) as HoA.
    pose proof (quiet_outcome cfgB B b idxB k HB) as HoB. rewrite HkA in HoA. rewrite HkB in HoB.
    eapply fixed_agree; [apply Hlp | by apply HoA | apply HoB; congruence]. }
  split; [intros k; destruct (Hag k) as [[? _] | ?]; auto |]. intros Hm.
  assert (∀ k, skey <$> e_files A !! k = skey <$> e_files B !! k ∨ unknown_tombstone (e_files A !! k) (e_files B !! k)) as Hsk.
  { intros k. destruct (Hag k) as [[_ Hs] | ?]; [left; apply Hs, Hm | by right]. }
  split; [done |]. intros Hno. destruct (q_trees _ _ _ _ HA) as (tA & _ & HtA & _).
  assert (RootHash (e_tree A) = RootHash (e_tree B)) as Hroot.
  { apply similar_roots; [by eapply reachable_inv, q_reachable.. | | by exists tA].
    intros k. destruct (Hsk k) as [? | ?]; [done | by destruct (Hno k)]. }
  split; [done |]. unfold onPeerConnected. destruct (addPeer A (cfg_Self cfgB) (Hello_of cfgB B)) as [e1 a1] eqn:Hadd.
  unfold addPeer in Hadd. injection Hadd as <- _. rewrite decide_True by done. done.
Qed.

Section converge_witness.
#[local] Existing Instance toy_digest.

Lemma deliver_reachable cfg from e ms : reachable cfg e → reachable cfg (deliver cfg from e ms).
Proof.
  revert e. unfold deliver. induction ms as [|m ms IH]; intros e Hr; [done |]. cbn [foldl].
  apply IH. eapply reachable_step; [exact Hr | apply step_transport].
Qed.
Lemma fetched_reachable cfg e net : reachable cfg e → reachable cfg (fetched cfg e net).
Proof.
  intros Hr. unfold fetched. destruct (puller_step cfg e 0 copy_tmp 7 (net, None)) as [e' |] eqn:Hp; [| done].
  assert (reachable cfg e') as Hr' by (eapply reachable_step; [exact Hr | eapply step_own; by eapply step_pull]).
  unfold next_completion. destruct (e_completions e') as [|c cs] eqn:Hc; [done |].
  eapply reachable_step; [exact Hr' | by apply step_own, step_completion].
Qed.

Lemma e_edited_reachable : reachable home e_edited.
Proof.
  assert (reachable home e_start) as H0 by (exists SnapMissing, (holding (go! "v0") 1), e_start; split; [vm_compute; reflexivity | apply rtc_refl]).
  assert (reachable home e_connected) as H1 by (eapply reachable_step; [exact H0 | apply step_transport]).
  eapply reachable_step; [eapply reachable_step; [exact H1 | apply step_own, (step_user home _ (holding (go! "v1") 2))] | apply step_own, step_local].
Qed.
Lemma a_synced_reachable : reachable home a_synced.
Proof. apply deliver_reachable, e_edited_reachable. Qed.
Lemma b_synced_reachable : reachable away b_synced.
Proof.
  do 2 apply fetched_reachable. apply deliver_reachable.
  assert (reachable away b_start) as H0 by (exists SnapMissing, ∅, b_start; split; [vm_compute; reflexivity | apply rtc_refl]).
  eapply reachable_step; [exact H0 | apply step_transport].
Qed.

(** Everything but reachability is decided by running the model. *)
Lemma quiet_run cfg e a ps lt pt :
  reachable cfg e → e_states e !! a = Some ps →
  (λ ps, (elements (ps_inflight ps), ps_fetchQ ps)) <$> e_states (reconcileWithPeer cfg e a) !! a = Some ([], []) →
  map_to_list (e_files (reconcileWithPeer cfg e a)) = map_to_list (e_files e) →
  forallb (λ l, match ps_index ps !! Path l with
                | Some r => is_nil (p_loser (resolve (Some l) (Some r) (selfShort cfg)))
                | None => true
                end) (set_of (e_files e)) = true →
  Forall fi_width (set_of (e_files e)) → Forall fi_width (set_of (ps_index ps)) →
  BuildTree (set_of (e_files e)) = Ok lt → BuildTree (set_of (ps_index ps)) = Ok pt →
  collision_free (preimages lt ++ preimages pt) → Forall (λ d, IsTypeClash d = false) (Diff (Some lt) (Some pt)) →
  quiet cfg e a (ps_index ps).
Proof.
  intros Hr Hps Hidle Hsame Hfits Hw1 Hw2 Hlt Hpt Hcf Hclash. pose proof (inv_keyed e (reachable_inv cfg e Hr)) as Hk. split.
  - done.
  - by rewrite Hps.
  - intros k (ps' & Hps' & Ho). rewrite Hps' in Hidle. cbn [fmap option_fmap option_map] in Hidle.
    apply (inj Some) in Hidle. injection Hidle as Hi Hq. destruct Ho as [Hin | Hfull].
    + apply elem_of_elements in Hin. rewrite Hi in Hin. by apply not_elem_of_nil in Hin.
    + rewrite Hq in Hfull. cbn in Hfull. unfold fetchQueueDepth in Hfull. lia.
  - apply map_to_list_inj. by rewrite Hsame.
  - intros k l r Hl Hr' (c & Hc & _). pose proof (Hk k l Hl) as Hp. simpl in Hp.
    apply forallb_forall with (x := l) in Hfits; [| apply list_elem_of_In, elem_of_set_of; eauto].
    rewrite Hp, Hr', Hc in Hfits. done.
  - done.
  - exists lt, pt. rewrite Forall_forall in Hclash. auto.
Qed.
Definition a_ps : peerState := match e_states a_synced !! 0%nat with Some ps => ps | None => ps_conflict end.
Definition b_ps : peerState := match e_states b_synced !! 0%nat with Some ps => ps | None => ps_conflict end.
Definition tree_of (set : list FileInfo) : Node := match BuildTree set with Ok t => t | Err _ => DirNode [] ∅ [] end.

(** A closed computation that succeeds is the value chosen for it. *)
Lemma state_chosen (o : option peerState) d : bool_decide (is_Some o) = true → o = Some (match o with Some ps => ps | None => d end).
Proof. intros [ps ->]%bool_decide_eq_true. done. Qed.
Lemma tree_chosen set : match BuildTree set with Ok _ => true | Err _ => false end = true → BuildTree set = Ok (tree_of set).
Proof. unfold tree_of. by destruct (BuildTree set). Qed.

Lemma a_quiet : quiet home a_synced 0 (ps_index a_ps).
Proof.
  apply (quiet_run home a_synced 0 a_ps (tree_of (set_of (e_files a_synced))) (tree_of (set_of (ps_index a_ps)))).
  - exact a_synced_reachable.
  - apply state_chosen. vm_compute. reflexivity.
  - vm_compute. reflexivity.
  - vm_compute. reflexivity.
  - vm_compute. reflexivity.
  - apply (bool_decide_unpack _). vm_compute. exact I.
  - apply (bool_decide_unpack _). vm_compute. exact I.
  - apply tree_chosen. vm_compute. reflexivity.
  - apply tree_chosen. vm_compute. reflexivity.
  - apply (bool_decide_unpack _). vm_compute. exact I.
  - apply (bool_decide_unpack _). vm_compute. exact I.
Qed.
Lemma b_quiet : quiet away b_synced 0 (ps_index b_ps).
Proof.
  apply (quiet_run away b_synced 0 b_ps (tree_of (set_of (e_files b_synced))) (tree_of (set_of (ps_index b_ps)))).
  - exact b_synced_reachable.
  - apply state_chosen. vm_compute. reflexivity.
  - vm_compute. reflexivity.
  - vm_compute. reflexivity.
  - vm_compute. reflexivity.
  - apply (bool_decide_unpack _). vm_compute. exact I.
  - apply (bool_decide_unpack _). vm_compute. exact I.
  - apply tree_chosen. vm_compute. reflexivity.
  - apply tree_chosen. vm_compute. reflexivity.
  - apply (bool_decide_unpack _). vm_compute. exact I.
  - apply (bool_decide_unpack _). vm_compute. exact I.
Qed.

Lemma synced_same : e_files a_synced = e_files b_synced.
Proof. apply map_to_list_inj. assert (map_to_list (e_files a_synced) = map_to_list (e_files b_synced)) as -> by (vm_compute; reflexivity). done. Qed.

Definition edited_note : FileInfo := mkFileInfo note (sum256 (go! "v1")) 2 420 2 [mkCounter here 1] false TypeFile.
Lemma synced_leaves k x : e_files a_synced !! k = Some x → leaf_pair x x.
Proof.
  intros Hx%elem_of_map_to_list. assert (map_to_list (e_files a_synced) = [(note, edited_note)]) as Hm by (vm_compute; reflexivity).
  rewrite Hm, list_elem_of_singleton in Hx. injection Hx as _ ->. split; [reflexivity | | | |].
  - split_and!; [apply (bool_decide_unpack _); vm_compute; exact I | discriminate |].
    apply (bool_decide_unpack _). vm_compute. exact I.
  - cbn [Version edited_note]. unfold here. vv_concrete.
  - cbn [Version edited_note]. unfold here. vv_concrete.
  - unfold same_content. rewrite !bool_decide_eq_true_2 by reflexivity. discriminate.
Qed.

Lemma quiet_converged_witness :
  quiet home a_synced 0 (ps_index a_ps) ∧ quiet away b_synced 0 (ps_index b_ps) ∧
  RootHash (e_tree a_synced) = RootHash (e_tree b_synced) ∧
  e_sent (onPeerConnected home a_synced (Some (cfg_Self away, Hello_of away b_synced))) = e_sent a_synced.
Proof.
  split; [exact a_quiet |]. split; [exact b_quiet |].
  destruct (quiet_converged home away a_synced b_synced 0 0 _ _ a_quiet b_quiet) as [_ Hroot].
  - intros k Hne. destruct Hne. by rewrite synced_same.
  - intros k x y Hx Hy. rewrite <- synced_same, Hx in Hy. apply (inj Some) in Hy as <-. exact (synced_leaves k x Hx).
  - apply Hroot; [intros k x y Hx Hy _; rewrite <- synced_same, Hx in Hy; by apply (inj Some) in Hy as <- |]. intros k [(t & Hx & _ & Hy) | (t & Hx & _ & Hy)]; rewrite synced_same in *; congruence.
Defined.
End converge_witness.
