(* ===== verification/Local.v ===== *)
(** * Local: what local change detection records and announces
    (onLocalChange and rescan of internal/reconcile/engine.go)

    A watcher hint re-examines one path, a rescan all of them. Either way the
    record ends up agreeing with the disk; a change of content is local authorship,
    a version that dominates the one it replaces, and is announced; an echo of our
    own writes, whose content is already on record, is neither. *)
From S2P Require Import Prelude Bytes VersionVector Framing Messages Windows Pathnorm Hashing.
From S2P Require Import FileInfo Tree Oracle Differ Conflict Scanner Disk Transfer Replica Engine.
From S2P Require Import Story Invariant Reconcile.

(** The record holds the content found on disk. *)
Record same_leaf (fi nfi : FileInfo) : Prop := mkSameLeaf {
  sl_live : Deleted fi = false;
  sl_hash : ContentHash fi = ContentHash nfi;
  sl_type : Type_ fi = Type_ nfi;
  sl_size : Size fi = Size nfi;
  sl_mtime : ModTimeNS fi = ModTimeNS nfi
}.

(** A version the device can still bump. *)
Definition bumpable (self : Z) (fi : FileInfo) : Prop := canonical (Version fi) ∧ Get (Version fi) self < 2 ^ 64 - 1.

Section local.
Context `{OS, Digest, Unicode}.
Context (cfg : Config).
Notation self := (selfShort cfg).

Lemma set_mtime_id fi : set_mtime fi (ModTimeNS fi) = fi.
Proof. by destruct fi. Qed.

Lemma skey_set_mtime fi ns : skey (set_mtime fi ns) = skey fi.
Proof. done. Qed.

Lemma unchanged_same_leaf prev nfi p : unchanged_leaf prev nfi = Some p → same_leaf (set_mtime p (ModTimeNS nfi)) nfi.
Proof. intros (_ & Hd & Hh & Ht & Hs)%unchanged_leaf_Some. by split. Qed.

(** The record of a newly authored leaf. *)
Definition authored (prev : option FileInfo) (nfi : FileInfo) : FileInfo :=
  set_version nfi (Bump (zero_version prev) self).

Lemma authored_same_leaf prev nfi : Deleted nfi = false → same_leaf (authored prev nfi) nfi.
Proof. intros Hd. by split. Qed.

Lemma zero_version_dominated prev :
  (∀ p, prev = Some p → bumpable self p) → Compare (Bump (zero_version prev) self) (zero_version prev) = Dominates.
Proof.
  intros Hp. assert (canonical (zero_version prev) ∧ Get (zero_version prev) self < 2 ^ 64 - 1) as [Hc Hb].
  { destruct prev as [p |]; [by apply Hp |]. split; [apply canonical_nil | reflexivity]. }
  by apply Bump_step.
Qed.

Lemma dominates_skey a b : canonical (Version b) → Compare (Version a) (Version b) = Dominates → skey a ≠ skey b.
Proof.
  intros Hb Hc Heq. assert (Version a = Version b) as Hv by (unfold skey in Heq; congruence).
  rewrite Hv in Hc. by rewrite (proj2 (Compare_Equal (Version b) (Version b) Hb Hb) eq_refl) in Hc.
Qed.

(** ** One path *)

(** [e'] records [q] at [key] and announces it to every peer. *)
Definition authors (e e' : Engine) (key : bytes) (q : FileInfo) : Prop :=
  e' = broadcastUpdate cfg (rebuild (set_files e (<[key := q]> (e_files e)))) [q].

Lemma authors_effect e e' key q :
  authors e e' key q →
  e_files e' = <[key := q]> (e_files e) ∧ e_disk e' = e_disk e ∧
  e_sent e' = e_sent e ++ update_sends cfg (addresses e) [q] ∧
  e_outboundIndexUpdates e' = count_one (e_outboundIndexUpdates e).
Proof. intros ->. by rewrite broadcast_sends. Qed.

(** What onLocalChange does with a path that is not muted. *)
Inductive local_case (e e' : Engine) (key : bytes) : Prop :=
| lc_none : e' = e → e_files e !! key = None → e_disk e !! key = None → local_case e e' key
| lc_gone_already p : e' = e → e_files e !! key = Some p → Deleted p = true → e_disk e !! key = None → local_case e e' key
| lc_unread ent : e' = e → e_disk e !! key = Some ent → scanOne (e_disk e) key ent = None → local_case e e' key
| lc_deleted p : e_files e !! key = Some p → Deleted p = false → e_disk e !! key = None →
    authors e e' key (SetDeleted p self) → local_case e e' key
| lc_echo p ent nfi : e_files e !! key = Some p → e_disk e !! key = Some ent →
    scanOne (e_disk e) key ent = Some nfi → unchanged_leaf (Some p) nfi = Some p →
    e' = set_files e (<[key := set_mtime p (ModTimeNS nfi)]> (e_files e)) → local_case e e' key
| lc_changed ent nfi : e_disk e !! key = Some ent → scanOne (e_disk e) key ent = Some nfi →
    unchanged_leaf (e_files e !! key) nfi = None →
    authors e e' key (authored (e_files e !! key) nfi) → local_case e e' key.

Lemma scanOne_EDir d key : scanOne d key EDir = None.
Proof. done. Qed.

Lemma set_files_id e : set_files e (e_files e) = e.
Proof. by destruct e. Qed.

Lemma onLocalChange_cases e key :
  internalFile key = false → inflightLocked e key = false → local_case e (onLocalChange cfg e key) key.
Proof.
  intros Hint Hinf. unfold onLocalChange. rewrite Hint, Hinf. cbv zeta.
  destruct (e_disk e !! key) as [ent |] eqn:Hd.
  - destruct (scanOne (e_disk e) key ent) as [nfi |] eqn:Hs.
    2:{ eapply lc_unread; [| done | done]. destruct ent; by rewrite ?Hs. }
    assert (local_case e (match unchanged_leaf (e_files e !! key) nfi with
        | Some p => if negb (ModTimeNS p =? ModTimeNS nfi)
                    then set_files e (<[key := set_mtime p (ModTimeNS nfi)]> (e_files e)) else e
        | None => broadcastUpdate cfg (rebuild (set_files e
            (<[key := authored (e_files e !! key) nfi]> (e_files e)))) [authored (e_files e !! key) nfi]
        end) key) as Hc.
    { destruct (unchanged_leaf (e_files e !! key) nfi) as [p |] eqn:Hu; [| by eapply lc_changed].
      pose proof (unchanged_leaf_Some _ _ _ Hu) as [Hp _]. rewrite Hp in Hu. eapply lc_echo; [done | done | done | done |].
      destruct (Z.eqb_spec (ModTimeNS p) (ModTimeNS nfi)) as [He |]; [| done]. cbn [negb].
      rewrite <- He, set_mtime_id, insert_id by done. by rewrite set_files_id. }
    destruct ent; [exact Hc.. | done].
  - destruct (e_files e !! key) as [p |] eqn:Hp; [| by apply lc_none].
    destruct (Deleted p) eqn:Hdel; [by eapply lc_gone_already | by eapply lc_deleted].
Qed.

Lemma scanOne_live d key ent nfi : scanOne d key ent = Some nfi → Deleted nfi = false.
Proof. unfold scanOne, entry_info. repeat case_match; naive_solver. Qed.

(** ** All paths *)

(** What the scan of [s] leaves on record at its path, from [prev]. *)
Definition recorded (prev : option FileInfo) (s : FileInfo) : FileInfo :=
  match unchanged_leaf prev s with Some p => set_mtime p (ModTimeNS s) | None => authored prev s end.
Definition announced (prev : option FileInfo) (s : FileInfo) : option FileInfo :=
  match unchanged_leaf prev s with Some _ => None | None => Some (authored prev s) end.

Lemma recorded_path (files : Files) s : keyed files → Path (recorded (files !! Path s) s) = Path s.
Proof.
  intros Hk. unfold recorded. destruct (unchanged_leaf _ s) as [p |] eqn:Hu; [| done].
  apply unchanged_leaf_Some in Hu as [Hp _]. exact (Hk _ _ Hp).
Qed.

Lemma recorded_same_leaf prev s : Deleted s = false → same_leaf (recorded prev s) s.
Proof.
  intros Hd. unfold recorded. destruct (unchanged_leaf prev s) as [p |] eqn:Hu; [by eapply unchanged_same_leaf | by apply authored_same_leaf].
Qed.

Lemma rescan_one_eq (infl : bytes → bool) files delta s :
  infl (Path s) = false →
  rescan_one cfg infl (files, delta) s =
    (<[Path s := recorded (files !! Path s) s]> files, delta ++ option_list (announced (files !! Path s) s)).
Proof.
  intros Hi. unfold rescan_one, recorded, announced. destruct (unchanged_leaf _ s) as [p |] eqn:Hu.
  - apply unchanged_leaf_Some in Hu as [Hp _]. simpl. rewrite app_nil_r.
    destruct (Z.eqb_spec (ModTimeNS p) (ModTimeNS s)) as [He |]; [| done]. cbn [negb].
    by rewrite <- He, set_mtime_id, insert_id.
  - by rewrite Hi.
Qed.

Lemma rescan_loop_lookup (infl : bytes → bool) scanned files delta :
  NoDup (Path <$> scanned) → Forall (λ s, infl (Path s) = false) scanned →
  let r := foldl (rescan_one cfg infl) (files, delta) scanned in
  (∀ s, s ∈ scanned → r.1 !! Path s = Some (recorded (files !! Path s) s)) ∧
  (∀ k, k ∉ Path <$> scanned → r.1 !! k = files !! k) ∧
  (∀ fi, fi ∈ r.2 ↔ fi ∈ delta ∨ ∃ s, s ∈ scanned ∧ announced (files !! Path s) s = Some fi).
Proof.
  revert files delta. induction scanned as [|s scanned IH]; intros files delta Hnd Hinf r.
  { split_and!; [by intros ? ?%not_elem_of_nil | done |]. intros fi. split; [by left |].
    intros [? | (s & ?%not_elem_of_nil & _)]; done. }
  unfold r. clear r. apply NoDup_cons in Hnd as [Hs Hnd]. apply Forall_cons in Hinf as [Hi Hinf]. cbn [foldl].
  rewrite rescan_one_eq by done. set (files1 := <[Path s := _]> files). set (delta1 := delta ++ _).
  destruct (IH files1 delta1 Hnd Hinf) as (IH1 & IH2 & IH3).
  assert (∀ k, k ≠ Path s → files1 !! k = files !! k) as Hf1 by (intros; by apply lookup_insert_ne).
  assert (∀ s', s' ∈ scanned → Path s' ≠ Path s) as Hne.
  { intros s' Hin Heq. apply Hs. fold (Path s). rewrite <- Heq. by apply list_elem_of_fmap_2. }
  split_and!.
  - intros s' [-> | Hin]%elem_of_cons.
    + rewrite IH2 by done. unfold files1. by rewrite lookup_insert_eq.
    + rewrite IH1 by done. by rewrite Hf1 by auto.
  - intros k Hk. rewrite fmap_cons, not_elem_of_cons in Hk. destruct Hk as [Hk1 Hk2]. rewrite IH2 by done. auto.
  - intros fi. rewrite IH3. unfold delta1. rewrite elem_of_app.
    assert (fi ∈ option_list (announced (files !! Path s) s) ↔ announced (files !! Path s) s = Some fi) as ->.
    { destruct (announced _ s); simpl; rewrite ?list_elem_of_singleton, ?elem_of_nil; naive_solver. }
    setoid_rewrite elem_of_cons. split.
    + intros [[? | ?] | (s' & Hin & Ha)]; [by left | right; eauto |]. right. exists s'. rewrite Hf1 in Ha by auto. auto.
    + intros [? | (s' & [-> | Hin] & Ha)]; [by left; left | by left; right |]. right. exists s'.
      rewrite Hf1 by auto. done.
Qed.
End local.

Lemma rescan_delta_lookup `{OS, Digest, Unicode} cfg (infl : bytes → bool) files scanned :
  NoDup (Path <$> scanned) → Forall (λ s, infl (Path s) = false) scanned →
  let r := rescan_delta cfg infl files scanned in
  (∀ s, s ∈ scanned → r.1 !! Path s = Some (recorded cfg (files !! Path s) s)) ∧
  (∀ k, k ∉ Path <$> scanned →
     r.1 !! k = (λ p, if Deleted p then p else SetDeleted p (selfShort cfg)) <$> files !! k) ∧
  (∀ fi, fi ∈ r.2 ↔
     (∃ s, s ∈ scanned ∧ announced cfg (files !! Path s) s = Some fi) ∨
     (∃ k p, k ∉ Path <$> scanned ∧ files !! k = Some p ∧ Deleted p = false ∧ fi = SetDeleted p (selfShort cfg))).
Proof.
  intros Hnd Hinf. unfold rescan_delta.
  destruct (rescan_loop_lookup cfg infl scanned files [] Hnd Hinf) as (L1 & L2 & L3).
  destruct (foldl _ _ scanned) as [files1 delta1]. cbn [fst snd] in *.
  pose proof (rescan_gone_lookup cfg (list_to_set (Path <$> scanned)) files1) as G1.
  pose proof (rescan_gone_elem cfg (list_to_set (Path <$> scanned)) files1) as G2.
  destruct (rescan_gone _ _ files1) as [files2 delta2]. cbn [fst snd] in *.
  assert (∀ k, k ∈ (list_to_set (Path <$> scanned) : gset bytes) ↔ k ∈ Path <$> scanned) as Hset by (intros; apply elem_of_list_to_set).
  split_and!.
  - intros s Hs. rewrite G1, L1 by done. simpl. rewrite (bool_decide_eq_false_2 (_ ∉ _)), andb_false_r; [done |].
    intros Hn. apply Hn, Hset. by apply list_elem_of_fmap_2.
  - intros k Hk. rewrite G1, L2 by done. rewrite (bool_decide_eq_true_2 (_ ∉ _)) by (by rewrite Hset).
    destruct (files !! k) as [p |]; [| done]. simpl. by destruct (Deleted p).
  - intros fi. rewrite elem_of_app, L3, G2. setoid_rewrite Hset. rewrite elem_of_nil. split.
    + intros [[[] | ?] | (k & p & Hp & Hd & Hn & ->)]; [by left |]. right. exists k, p. rewrite L2 in Hp by done. auto.
    + intros [? | (k & p & Hn & Hp & Hd & ->)]; [by left; right |]. right. exists k, p. rewrite L2 by done. auto.
Qed.

Lemma recorded_cases `{OS, Digest, Unicode} cfg prev s :
  (∀ p, prev = Some p → bumpable (selfShort cfg) p) →
  (∃ p, prev = Some p ∧ skey (recorded cfg prev s) = skey p ∧ announced cfg prev s = None) ∨
  (announced cfg prev s = Some (recorded cfg prev s) ∧
   Compare (Version (recorded cfg prev s)) (zero_version prev) = Dominates).
Proof.
  intros Hb. unfold recorded, announced. destruct (unchanged_leaf prev s) as [p |] eqn:Hu.
  - left. exists p. apply unchanged_leaf_Some in Hu as [-> _]. done.
  - right. split; [done |]. by apply zero_version_dominated.
Qed.

(** * Properties *)

(** C16: a watcher hint for a path that is not muted leaves the record agreeing with
    the disk (no live record where nothing is on disk, the hash, type, size and mtime
    of what is there otherwise) and touches nothing else; the record's structural
    fields change exactly when this is local authorship, in which case the new
    version dominates the old one and one update with the new record is announced to
    every peer; an echo of content already on record announces nothing. A path that
    is muted (our own artefacts, a path being applied) is left alone. *)
Theorem onLocalChange_correct `{OS, Digest, Unicode} cfg e key :
  (∀ p, e_files e !! key = Some p → bumpable (selfShort cfg) p) →
  let e' := onLocalChange cfg e key in
  if internalFile key || inflightLocked e key then e' = e
  else
    (∀ k, k ≠ key → e_files e' !! k = e_files e !! k) ∧ e_disk e' = e_disk e ∧
    (e_disk e !! key = None → ∀ fi, e_files e' !! key = Some fi → Deleted fi = true) ∧
    (∀ ent nfi, e_disk e !! key = Some ent → scanOne (e_disk e) key ent = Some nfi →
       ∃ fi, e_files e' !! key = Some fi ∧ same_leaf fi nfi) ∧
    ((skey <$> e_files e' !! key = skey <$> e_files e !! key ∧ e_sent e' = e_sent e ∧
        e_outboundIndexUpdates e' = e_outboundIndexUpdates e) ∨
     (∃ q, e_files e' !! key = Some q ∧
        Compare (Version q) (zero_version (e_files e !! key)) = Dominates ∧
        e_sent e' = e_sent e ++ update_sends cfg (addresses e) [q] ∧
        e_outboundIndexUpdates e' = count_one (e_outboundIndexUpdates e))).
Proof.
  intros Hb e'. destruct (internalFile key) eqn:Hint; [unfold e', onLocalChange; by rewrite Hint |].
  destruct (inflightLocked e key) eqn:Hinf; [unfold e', onLocalChange; by rewrite Hint, Hinf |]. cbn [orb].
  destruct (onLocalChange_cases cfg e key Hint Hinf) as
    [He Hf Hd | p He Hf Hdel Hd | ent He Hd Hs | p Hf Hdel Hd He | p ent nfi Hf Hd Hs Hu He | ent nfi Hd Hs Hu He]; fold e' in He.
  - rewrite He. split_and!; [done | done | intros _; by rewrite Hf | intros; by rewrite Hd in * | by left].
  - rewrite He. split_and!; [done | done | intros _; rewrite Hf; by intros ? [= <-] | intros; by rewrite Hd in * | by left].
  - rewrite He. split_and!; [done | done | by rewrite Hd | intros; by simplify_eq | by left].
  - apply authors_effect in He as (Hfi & Hdi & Hse & Hou). rewrite Hfi, Hdi, lookup_insert_eq. split_and!.
    + intros k Hne. by rewrite lookup_insert_ne.
    + done.
    + by intros _ ? [= <-].
    + intros; by rewrite Hd in *.
    + right. eexists. split_and!; [done | | done | done]. rewrite Hf. by apply Bump_step; apply Hb.
  - rewrite He. cbn. rewrite lookup_insert_eq. split_and!.
    + intros k Hne. by rewrite lookup_insert_ne.
    + done.
    + by rewrite Hd.
    + intros ent' nfi' Hd' Hs'. simplify_eq. eexists. split; [done |]. by eapply unchanged_same_leaf.
    + left. by rewrite Hf.
  - apply authors_effect in He as (Hfi & Hdi & Hse & Hou). rewrite Hfi, Hdi, lookup_insert_eq. split_and!.
    + intros k Hne. by rewrite lookup_insert_ne.
    + done.
    + by rewrite Hd.
    + intros ent' nfi' Hd' Hs'. simplify_eq. eexists. split; [done |]. apply authored_same_leaf. by eapply scanOne_live.
    + right. eexists. split_and!; [done | | done | done]. by apply zero_version_dominated.
Qed.

(** C15: the rescan is the source of truth: when no path scanned is being applied, it
    leaves exactly the scanned paths live, each with the content found; every record
    keeps its structural fields or gets a version that dominates the old one; and the
    batch to broadcast is exactly the records whose structural fields changed. *)
Theorem rescan_delta_correct `{OS, Digest, Unicode} cfg infl files scanned :
  keyed files → NoDup (Path <$> scanned) →
  Forall (λ s, Deleted s = false ∧ infl (Path s) = false) scanned →
  map_Forall (λ _ p, bumpable (selfShort cfg) p) files →
  let '(files', delta) := rescan_delta cfg infl files scanned in
  (∀ s, s ∈ scanned → ∃ fi, files' !! Path s = Some fi ∧ same_leaf fi s) ∧
  (∀ k fi, files' !! k = Some fi → Deleted fi = false → k ∈ Path <$> scanned) ∧
  (∀ k p, files !! k = Some p → ∃ q, files' !! k = Some q ∧
     (skey q = skey p ∨ Compare (Version q) (Version p) = Dominates)) ∧
  (∀ fi, fi ∈ delta ↔ files' !! Path fi = Some fi ∧ skey <$> files !! Path fi ≠ Some (skey fi)).
Proof.
  intros Hk Hnd Hsc Hb.
  assert (Forall (λ s, infl (Path s) = false) scanned) as Hinf by (eapply Forall_impl; [exact Hsc | by intros s []]).
  rewrite Forall_forall in Hsc. destruct (rescan_delta_lookup cfg infl files scanned Hnd Hinf) as (L1 & L2 & L3).
  destruct (rescan_delta cfg infl files scanned) as [files' delta]. cbn [fst snd] in *.
  assert (∀ k, (∃ s, s ∈ scanned ∧ Path s = k) ∨ k ∉ Path <$> scanned) as Hcase.
  { intros k. destruct (decide (k ∈ Path <$> scanned)) as [(s & -> & Hs)%list_elem_of_fmap |]; eauto. }
  assert (∀ s, s ∈ scanned → ∀ p, files !! Path s = Some p → bumpable (selfShort cfg) p) as Hbs by (intros s _ p; apply Hb).
  split_and!.
  - intros s Hs. eexists. split; [by apply L1 |]. apply recorded_same_leaf. by apply Hsc.
  - intros k fi Hfi Hd. destruct (Hcase k) as [(s & Hs & <-) | Hn]; [by apply list_elem_of_fmap_2 |]. exfalso.
    rewrite L2, fmap_Some in Hfi by done. destruct Hfi as (p & _ & ->). revert Hd. destruct (Deleted p) eqn:Hdp; [congruence | done].
  - intros k p Hp. destruct (Hcase k) as [(s & Hs & <-) | Hn].
    + eexists. split; [by apply L1 |]. destruct (recorded_cases cfg (files !! Path s) s (Hbs s Hs)) as [(p' & Hp' & Hsk & _) | [_ Hdom]].
      * left. congruence.
      * right. by rewrite Hp in Hdom |- *.
    + rewrite L2, Hp by done. eexists. split; [done |]. destruct (Deleted p); [by left | right]. by apply Bump_step; apply (Hb k).
  - intros fi. rewrite L3. split.
    + intros [(s & Hs & Ha) | (k & p & Hn & Hp & Hd & ->)].
      * destruct (recorded_cases cfg (files !! Path s) s (Hbs s Hs)) as [(p' & _ & _ & Hno) | [Ha' Hdom]]; [congruence |].
        assert (fi = recorded cfg (files !! Path s) s) as -> by congruence. rewrite recorded_path by done.
        split; [by apply L1 |]. destruct (files !! Path s) as [p |] eqn:Hp; [| done]. simpl. intros Heq. apply (inj Some) in Heq.
        symmetry in Heq. revert Heq. apply dominates_skey; [| done]. by apply (Hb (Path s)).
      * pose proof (Hk k p Hp) as Hkp. simpl in Hkp. change (Path (SetDeleted p (selfShort cfg))) with (Path p). rewrite Hkp, L2, Hp by done.
        simpl. rewrite Hd. split; [done |]. intros Heq. apply (inj Some) in Heq. symmetry in Heq. revert Heq.
        apply dominates_skey; [by apply (Hb k) |]. by apply Bump_step; apply (Hb k).
    + intros [Hfi Hne]. destruct (Hcase (Path fi)) as [(s & Hs & Heq) | Hn].
      * rewrite <- Heq in Hfi, Hne. rewrite L1 in Hfi by done. apply (inj Some) in Hfi. subst fi. left. exists s. split; [done |].
        destruct (recorded_cases cfg (files !! Path s) s (Hbs s Hs)) as [(p & Hp & Hsk & _) | [? _]]; [exfalso | done].
        apply Hne. rewrite Hp in Hsk |- *. simpl. by rewrite Hsk.
      * right. rewrite L2, fmap_Some in Hfi by done. destruct Hfi as (p & Hp & Hf).
        destruct (Deleted p) eqn:Hd; [exfalso; apply Hne; by rewrite Hp, Hf |]. exists (Path fi), p. auto.
Qed.

Section local_witness.
#[local] Existing Instance toy_digest.

Lemma bumpable_nil self fi : Version fi = [] → bumpable self fi.
Proof. intros Hv. unfold bumpable. rewrite Hv. split; [apply canonical_nil | reflexivity]. Qed.

Lemma onLocalChange_correct_witness :
  let e := set_disk e_connected (holding (go! "v1") 2) in
  internalFile note || inflightLocked e note = false ∧
  ∃ q, e_files (onLocalChange home e note) !! note = Some q ∧
       Compare (Version q) (zero_version (e_files e !! note)) = Dominates ∧
       e_sent (onLocalChange home e note) = e_sent e ++ update_sends home (addresses e) [q].
Proof.
  intros e. assert (internalFile note || inflightLocked e note = false) as Hm by (vm_compute; reflexivity).
  split; [exact Hm |]. pose proof (onLocalChange_correct home e note) as Hc. cbv zeta in Hc. rewrite Hm in Hc.
  destruct Hc as (_ & _ & _ & _ & [(Hs & _) | (q & H1 & H2 & H3 & _)]).
  - intros p Hp. apply bumpable_nil. vm_compute in Hp. injection Hp as <-. reflexivity.
  - exfalso. vm_compute in Hs. discriminate.
  - exists q. split; [exact H1 |]. split; [exact H2 | exact H3].
Defined.

Definition scanned_now : list FileInfo := [new_leaf (go! "a"); new_leaf (go! "b")].
Definition on_record : Files := files_of [file_at (go! "a") []; file_at (go! "c") []].

Lemma rescan_delta_correct_witness :
  Path <$> (rescan_delta home (λ _, false) on_record scanned_now).2 = [go! "a"; go! "b"; go! "c"] ∧
  ∃ fi, (rescan_delta home (λ _, false) on_record scanned_now).1 !! go! "a" = Some fi ∧ same_leaf fi (new_leaf (go! "a")).
Proof.
  split; [vm_compute; reflexivity |].
  pose proof (rescan_delta_correct home (λ _, false) on_record scanned_now) as Hr.
  destruct (rescan_delta home (λ _, false) on_record scanned_now) as [files' delta].
  destruct Hr as (H1 & _).
  - apply keyed_files_of.
  - apply (bool_decide_unpack _). vm_compute. exact I.
  - apply (bool_decide_unpack _). vm_compute. exact I.
  - intros k p Hp. apply bumpable_nil. unfold on_record in Hp. apply files_of_lookup in Hp as [Hp _].
    + apply elem_of_cons in Hp as [-> | Hp]; [reflexivity |]. apply list_elem_of_singleton in Hp as ->. reflexivity.
    + apply (bool_decide_unpack _). vm_compute. exact I.
  - apply (H1 (new_leaf (go! "a"))). apply elem_of_cons. by left.
Defined.
End local_witness.
