(* ===== verification/Puller.v ===== *)
(** * Puller: copy before destroy (runFetch of internal/reconcile/engine.go)

    A coupled task preserves content before its destructive half: the loser's copy
    before the winner of a conflict, the new name before the deletion of the old one
    in a rename. The two halves are separate steps of the puller, with any steps of
    the rest of the system in between. *)
From S2P Require Import Prelude Bytes VersionVector Framing Messages Windows Pathnorm Hashing.
From S2P Require Import FileInfo Tree Oracle Differ Conflict Scanner Disk Transfer Replica Engine.
From S2P Require Import Story.

Section puller.
Context `{OS, Digest, Unicode}.
Context (cfg : Config).

Definition running_of (e : Engine) (a : nat) : option fetchTask := e_states e !! a ≫= ps_running.

(** A disk changed at most at [path], the temporary name and created ancestors. *)
Definition only_at (d d' : Disk) (path tmp : bytes) : Prop :=
  ∀ k, k ≠ path → k ≠ tmp → d' !! k = d !! k ∨ (k ∈ parents path ∧ d !! k = None ∧ d' !! k = Some EDir).

Lemma materialise_step_spec e a ps leaf adv tmp now net :
  fresh_temp (e_disk e) (Path leaf) tmp →
  let '(e', ok) := materialise_step cfg e a ps leaf adv tmp now net in
  ∃ clobber, e' = report (set_disk e (e_disk e')) (mkCompletion leaf ok clobber adv false false (ps_short ps) a) ∧
    only_at (e_disk e) (e_disk e') (Path leaf) tmp ∧
    if ok then HashFile (e_disk e') (Path leaf) = Some (ContentHash leaf)
    else e_disk e' !! Path leaf = e_disk e !! Path leaf.
Proof.
  intros Hf. unfold materialise_step. destruct (materialise _ _ _ _ leaf tmp now net) as [d r] eqn:Hm.
  destruct (materialise_good _ _ _ _ _ _ _ _ _ _ Hf Hm) as ((_ & Hframe) & Hok & Hbad).
  eexists. split; [reflexivity |]. cbn. split; [exact Hframe |]. case_bool_decide; auto.
Qed.

Lemma running_set_running e a ps q run : e_states e !! a = Some ps → running_of (set_running e a q run) a = run.
Proof. intros Hps. unfold running_of. cbn. by rewrite lookup_alter_eq, Hps. Qed.
End puller.

(** * Properties *)

(** C5: the first step of a coupled task touches only the path of what it preserves
    (and created ancestors). Its destructive half is released (the puller left
    with the task to finish, or the deletion handed to the loop) exactly when the
    preserved leaf's content is then on disk at its path; otherwise the task is
    aborted with the path of the copy as it was, and nothing is left to run. *)
Theorem coupled_copy_first `{OS, Digest, Unicode} cfg e a ps task copy q tmp now net e' :
  e_states e !! a = Some ps → ps_running ps = None → ps_fetchQ ps = task :: q → ft_preserve task = Some copy →
  fresh_temp (e_disk e) (Path copy) tmp → puller_step cfg e a tmp now net = Some e' →
  only_at (e_disk e) (e_disk e') (Path copy) tmp ∧ e_files e' = e_files e ∧
  ((HashFile (e_disk e') (Path copy) = Some (ContentHash copy) ∧
    if Deleted (ft_leaf task) then
      running_of e' a = None ∧
      ∃ c, e_completions e' = e_completions e ++ [c; mkCompletion (ft_leaf task) true false false true false (ps_short ps) a] ∧
           cp_leaf c = copy ∧ cp_ok c = true
    else
      running_of e' a = Some task ∧
      ∃ c, e_completions e' = e_completions e ++ [c] ∧ cp_leaf c = copy ∧ cp_ok c = true) ∨
   (e_disk e' !! Path copy = e_disk e !! Path copy ∧ running_of e' a = None ∧
    ∃ c, e_completions e' = e_completions e ++ [c; mkCompletion (ft_leaf task) false false false false true (ps_short ps) a] ∧
         cp_leaf c = copy ∧ cp_ok c = false)).
Proof.
  intros Hps Hrun Hq Hpre Hf (ps0 & Hps0 & _ & Hrf)%puller_step_run. assert (ps0 = ps) as -> by congruence.
  revert Hrf. unfold runFetch. rewrite Hrun, Hq, Hpre.
  pose proof (materialise_step_spec cfg (set_running e a q None) a ps copy (ft_preserveAdvertise task) tmp now net Hf) as Hm.
  pose proof (running_set_running e a ps q None Hps) as Hnone. intros Heq.
  destruct (materialise_step _ _ _ _ _ _ _ _ _) as [e1 ok]. destruct Hm as (clobber & He1 & Honly & Hok).
  apply (inj Some) in Heq. subst e'. rewrite He1 in *. cbn [e_disk report set_completions set_disk] in Hok, Honly.
  destruct ok; cbn [negb].
  - destruct (Deleted (ft_leaf task)).
    + split; [exact Honly |]. split; [done |]. left. split; [exact Hok |]. split; [exact Hnone |].
      eexists. split; [cbn; by rewrite <- app_assoc | done].
    + split; [exact Honly |]. split; [done |]. left. split; [exact Hok |]. split.
      * unfold running_of. cbn. by rewrite !lookup_alter_eq, Hps.
      * eexists. split; [reflexivity | done].
  - split; [exact Honly |]. split; [done |]. right. split; [exact Hok |]. split; [exact Hnone |].
    eexists. split; [cbn; by rewrite <- app_assoc | done].
Qed.

Section puller_witness.
#[local] Existing Instance toy_digest.

Definition e_copied : Engine :=
  match puller_step home e_conflict 0 copy_tmp 7 ([], Some ErrPeerGone, None) with Some e => e | None => e_conflict end.
Lemma coupled_copy_first_witness :
  e_disk e_copied !! Path our_copy = Some (EFile (go! "v1") temp_mode 7) ∧
  only_at (e_disk e_conflict) (e_disk e_copied) (Path our_copy) copy_tmp ∧ e_files e_copied = e_files e_conflict.
Proof.
  split; [vm_compute; reflexivity |].
  assert (is_Some (puller_step home e_conflict 0 copy_tmp 7 ([], Some ErrPeerGone, None))) as Hsome
    by (apply (bool_decide_unpack _); vm_compute; exact I).
  assert (puller_step home e_conflict 0 copy_tmp 7 ([], Some ErrPeerGone, None) = Some e_copied) as Hp.
  { unfold e_copied. destruct Hsome as [e' He]. rewrite He. reflexivity. }
  destruct (coupled_copy_first home e_conflict 0 ps_conflict coupled our_copy [] copy_tmp 7 ([], Some ErrPeerGone, None) e_copied)
    as (H1 & H2 & _).
  - vm_compute. reflexivity.
  - vm_compute. reflexivity.
  - vm_compute. reflexivity.
  - vm_compute. reflexivity.
  - apply (bool_decide_unpack _). vm_compute. exact I.
  - exact Hp.
  - split; [exact H1 | exact H2].
Defined.
End puller_witness.
