(* ===== verification/Discovery.v ===== *)
(** * Discovery: announcements and the registry of peers
    (internal/discovery/announce.go, registry.go and the reader of discovery.go)

    An input is a received datagram, with its source address and receive time, or a
    sweep tick; the registry actor handles them one at a time and logs the events it
    emits. Times are nanoseconds; [Sub] saturates as time.Time's does. *)
From S2P Require Import Prelude Bytes Messages.

(** ** announce.go *)

Definition announceVersion : byte := byte_of_Z 1.
Definition deviceIDLen : nat := 32.
Definition announceSize : nat := (4 + 1 + deviceIDLen + 2)%nat.
Definition announceMagic : bytes := go! "MSYN".

Inductive AnnounceError := ErrAnnounceTooShort | ErrAnnounceMagic | ErrAnnounceVersion | ErrAnnouncePort.

Record announcement := mkAnnouncement { an_DeviceID : DeviceID; an_TCPPort : Z }.

Definition encodeAnnounce (a : announcement) : bytes :=
  announceMagic ++ [announceVersion] ++ an_DeviceID a ++ be_enc 2 (an_TCPPort a).

Definition decodeAnnounce (b : bytes) : Result AnnounceError announcement :=
  if (length b <? announceSize)%nat then Err ErrAnnounceTooShort
  else if decide (take 4 b ≠ announceMagic) then Err ErrAnnounceMagic
  else if decide (b !! 4%nat ≠ Some announceVersion) then Err ErrAnnounceVersion
  else
    let a := mkAnnouncement (slice b 5 deviceIDLen) (be_dec (slice b (5 + deviceIDLen) 2)) in
    if an_TCPPort a =? 0 then Err ErrAnnouncePort else Ok a.

(** ** registry.go *)

(** netip.AddrPort: the address bytes, 4 or 16 of them, and the port. *)
Record AddrPort := mkAddrPort { ap_ip : bytes; ap_port : Z }.
#[export] Instance AddrPort_eq_dec : EqDecision AddrPort.
Proof. solve_decision. Defined.

Inductive Event :=
| PeerDiscovered (id : DeviceID) (addr : AddrPort)
| PeerEvicted (id : DeviceID).

Record peerEntry := mkPeerEntry { pe_addr : AddrPort; pe_lastSeen : Z }.
Record inAnnounce := mkInAnnounce { ia_deviceID : DeviceID; ia_addr : AddrPort; ia_at : Z }.

(** [now.Sub(then)], saturating at the int64 bounds. *)
Definition Sub (now then_ : Z) : Z := Z.max (- 2 ^ 63) (Z.min (2 ^ 63 - 1) (now - then_)).

Record registry := mkRegistry { rg_peers : gmap bytes peerEntry; rg_events : list Event }.

Definition handleAnnounce (r : registry) (i : inAnnounce) : registry :=
  let prev := rg_peers r !! ia_deviceID i in
  mkRegistry (<[ia_deviceID i := mkPeerEntry (ia_addr i) (ia_at i)]> (rg_peers r))
    (match prev with
     | Some p => if decide (pe_addr p = ia_addr i) then rg_events r
                 else rg_events r ++ [PeerDiscovered (ia_deviceID i) (ia_addr i)]
     | None => rg_events r ++ [PeerDiscovered (ia_deviceID i) (ia_addr i)]
     end).

Definition expired (evictTimeout now : Z) (e : peerEntry) : bool := evictTimeout <? Sub now (pe_lastSeen e).

Definition sweep (evictTimeout : Z) (r : registry) (now : Z) : registry :=
  mkRegistry (filter (λ '(_, e), expired evictTimeout now e = false) (rg_peers r))
    (rg_events r ++ ((λ '(id, _), PeerEvicted id) <$>
      filter (λ '(_, e), expired evictTimeout now e = true) (map_to_list (rg_peers r)))).

(** ** discovery.go: the reader *)

Definition maxDatagram : nat := 512.

(** [netip.Addr.Unmap]: an IPv4 address mapped into IPv6 becomes the IPv4 address. *)
Definition mapped_prefix : bytes := repeat (byte_of_Z 0) 10 ++ repeat (byte_of_Z 255) 2.
Definition Unmap (ip : bytes) : bytes :=
  if decide (length ip = 16%nat ∧ take 12 ip = mapped_prefix) then drop 12 ip else ip.

(** What the reader forwards of a datagram: nothing when it does not decode or is
    our own echo, else the claim with the source's address and the announced port. *)
Definition read_one (self : DeviceID) (src datagram : bytes) (now : Z) : option inAnnounce :=
  match decodeAnnounce (take maxDatagram datagram) with
  | Err _ => None
  | Ok ann =>
    if decide (an_DeviceID ann = self) then None
    else Some (mkInAnnounce (an_DeviceID ann) (mkAddrPort (Unmap src) (an_TCPPort ann)) now)
  end.

Inductive Input := Datagram (src payload : bytes) (now : Z) | Tick (now : Z).

Definition run_one (self : DeviceID) (evictTimeout : Z) (r : registry) (i : Input) : registry :=
  match i with
  | Datagram src b now => match read_one self src b now with Some a => handleAnnounce r a | None => r end
  | Tick now => sweep evictTimeout r now
  end.
Definition run (self : DeviceID) (evictTimeout : Z) (inputs : list Input) : registry :=
  foldl (run_one self evictTimeout) (mkRegistry ∅ []) inputs.

(** ** The events tell the registry *)

(** The device an event is about, and the address it leaves the device at. *)
Definition event_id (ev : Event) : DeviceID := match ev with PeerDiscovered id _ | PeerEvicted id => id end.
Definition event_addr (ev : Event) : option AddrPort := match ev with PeerDiscovered _ a => Some a | PeerEvicted _ => None end.
(** What a listener of the events knows of a device. *)
Definition view (events : list Event) (id : DeviceID) : option AddrPort :=
  foldl (λ v ev, if decide (event_id ev = id) then event_addr ev else v) None events.

Arguments view : simpl never.
Lemma view_snoc events ev id :
  view (events ++ [ev]) id = if decide (event_id ev = id) then event_addr ev else view events id.
Proof. unfold view. by rewrite foldl_app. Qed.

(** Every event tells its listener something new. *)
Definition informative (events : list Event) : Prop :=
  ∀ pre ev post, events = pre ++ ev :: post → view pre (event_id ev) ≠ event_addr ev.

Lemma informative_snoc events ev :
  informative events → view events (event_id ev) ≠ event_addr ev → informative (events ++ [ev]).
Proof.
  intros Hi Hne pre ev' post Heq. destruct (decide (post = [])) as [-> | Hp].
  - apply app_inj_tail in Heq as [<- <-]. done.
  - destruct (exists_last Hp) as (post' & x & ->). rewrite app_comm_cons, app_assoc in Heq.
    apply app_inj_tail in Heq as [Heq _]. by eapply Hi.
Qed.

Record tracked (self : DeviceID) (r : registry) : Prop := mkTracked {
  tr_view : ∀ id, view (rg_events r) id = pe_addr <$> rg_peers r !! id;
  tr_informative : informative (rg_events r);
  tr_not_self : ∀ ev, ev ∈ rg_events r → event_id ev ≠ self
}.

Lemma handleAnnounce_tracked self r i : tracked self r → ia_deviceID i ≠ self → tracked self (handleAnnounce r i).
Proof.
  intros [Hv Hi Hs] Hne. unfold handleAnnounce.
  assert (view (rg_events r) (ia_deviceID i) ≠ Some (ia_addr i) →
    tracked self (mkRegistry (<[ia_deviceID i := mkPeerEntry (ia_addr i) (ia_at i)]> (rg_peers r))
      (rg_events r ++ [PeerDiscovered (ia_deviceID i) (ia_addr i)]))) as Hnew.
  { intros Hd. split; cbn.
    - intros id. rewrite view_snoc. cbn [event_id event_addr]. case_decide as Hid; [subst; by rewrite lookup_insert_eq |].
      by rewrite lookup_insert_ne.
    - by apply informative_snoc.
    - intros ev [Hin | ->%list_elem_of_singleton]%elem_of_app; [by apply Hs | done]. }
  rewrite Hv in Hnew. destruct (rg_peers r !! ia_deviceID i) as [p |] eqn:Hp; [| by apply Hnew].
  case_decide as Ha; [| apply Hnew; simpl; congruence]. split; cbn; [| done | done].
  intros id. rewrite Hv. destruct (decide (ia_deviceID i = id)) as [<- |]; [| by rewrite lookup_insert_ne].
  rewrite lookup_insert_eq, Hp. simpl. by rewrite Ha.
Qed.

(** The evictions of a sweep, one at a time. *)
Lemma evictions_tracked ids events :
  NoDup ids → (∀ id, id ∈ ids → is_Some (view events id)) → informative events →
  informative (events ++ (PeerEvicted <$> ids)) ∧
  ∀ id, view (events ++ (PeerEvicted <$> ids)) id = if decide (id ∈ ids) then None else view events id.
Proof.
  intros Hnd. revert events. induction Hnd as [|id ids Hn Hnd IH]; intros events Hv Hi; rewrite ?fmap_nil, ?fmap_cons.
  - rewrite app_nil_r. split; [done |]. intros id. by rewrite decide_False by apply not_elem_of_nil.
  - rewrite cons_middle, app_assoc. destruct (IH (events ++ [PeerEvicted id])) as [IH1 IH2].
    + intros id' Hin. rewrite view_snoc. cbn [event_id event_addr]. rewrite decide_False by (intros ->; done). apply Hv. by apply elem_of_cons; right.
    + apply informative_snoc; [done |]. cbn. destruct (Hv id ltac:(by apply elem_of_cons; left)) as [a ->]. done.
    + split; [done |]. intros id'. rewrite IH2, view_snoc. cbn [event_id event_addr]. repeat case_decide; try done; set_solver.
Qed.

Lemma sweep_tracked self timeout r now : tracked self r → tracked self (sweep timeout r now).
Proof.
  intros [Hv Hi Hs]. unfold sweep.
  set (gone := filter (λ '(_, e), expired timeout now e = true) (map_to_list (rg_peers r))).
  assert (((λ '(id, _), PeerEvicted id) <$> gone) = PeerEvicted <$> gone.*1) as Heq.
  { rewrite <- list_fmap_compose. apply list_fmap_ext. by intros i [id e] _. }
  assert (∀ id e, (id, e) ∈ gone ↔ rg_peers r !! id = Some e ∧ expired timeout now e = true) as Hgone.
  { intros id e. unfold gone. rewrite list_elem_of_filter, elem_of_map_to_list. tauto. }
  assert (∀ id, id ∈ gone.*1 ↔ ∃ e, rg_peers r !! id = Some e ∧ expired timeout now e = true) as Hgone1.
  { intros id. rewrite list_elem_of_fmap. setoid_rewrite <- Hgone. split; [intros ([? e] & -> & ?); eauto |].
    intros [e ?]. by exists (id, e). }
  assert (NoDup gone.*1) as Hnd.
  { apply NoDup_fmap_fst; [| apply NoDup_filter, NoDup_map_to_list].
    intros id e1 e2 [H1 _]%Hgone [H2 _]%Hgone. congruence. }
  destruct (evictions_tracked gone.*1 (rg_events r) Hnd) as [H1 H2].
  { intros id (e & He & _)%Hgone1. rewrite Hv, He. by eexists. }
  { done. }
  rewrite Heq. split; cbn [rg_events rg_peers]; [| done |].
  - intros id. rewrite H2, Hv. destruct (rg_peers r !! id) as [e |] eqn:He.
    + destruct (expired timeout now e) eqn:Hex.
      * rewrite decide_True by (apply Hgone1; eauto). symmetry. apply fmap_None, map_lookup_filter_None.
        right. intros e' He'. simplify_eq. by rewrite Hex.
      * rewrite decide_False by (rewrite Hgone1; intros (e' & ? & ?); congruence).
        symmetry. apply fmap_Some. exists e. split; [by apply map_lookup_filter_Some | done].
    + rewrite decide_False by (rewrite Hgone1; intros (e' & ? & ?); congruence).
      symmetry. apply fmap_None, map_lookup_filter_None. by left.
  - intros ev [Hin | Hin]%elem_of_app; [by apply Hs |].
    apply list_elem_of_fmap in Hin as (id & -> & (e & He & _)%Hgone1). cbn.
    intros ->. pose proof (Hv self) as Hself. rewrite He in Hself. revert Hself Hs. clear.
    intros Hself Hs. assert (∀ evs, (∀ ev, ev ∈ evs → event_id ev ≠ self) → view evs self = None) as Hnone.
    { induction evs as [|ev evs IH] using rev_ind; [done |]. intros Hne. rewrite view_snoc.
      rewrite decide_False by (apply Hne; set_solver). apply IH. intros ev' Hin. apply Hne. set_solver. }
    by rewrite Hnone in Hself.
Qed.

Lemma run_tracked self timeout inputs : tracked self (run self timeout inputs).
Proof.
  unfold run. assert (tracked self (mkRegistry ∅ [])) as H0.
  { split; cbn; [intros id; by rewrite lookup_empty | by intros [|] ? ? | by intros ? ?%not_elem_of_nil]. }
  revert H0. generalize (mkRegistry ∅ []). induction inputs as [|i inputs IH]; intros r Hr; [done |]. simpl. apply IH.
  destruct i as [src b now | now]; cbn; [| by apply sweep_tracked]. unfold read_one.
  destruct (decodeAnnounce _) as [ann |]; [| done]. case_decide; [done |]. by apply handleAnnounce_tracked.
Qed.

(** ** The codec *)

Record announcement_ok (a : announcement) : Prop := mkAnnouncementOk {
  ao_id : length (an_DeviceID a) = deviceIDLen;
  ao_port : 0 < an_TCPPort a < 65536
}.

Lemma decode_encode a rest : announcement_ok a → decodeAnnounce (encodeAnnounce a ++ rest) = Ok a.
Proof.
  intros [Hid Hport]. destruct a as [id port]. cbn [an_DeviceID an_TCPPort] in *. set (b := encodeAnnounce _ ++ rest).
  assert (announceSize ≤ length b)%nat as Hlen.
  { unfold b, encodeAnnounce. cbn [an_DeviceID an_TCPPort]. rewrite !length_app, length_be_enc, Hid. cbn. lia. }
  assert (take 4 b = announceMagic) as Hm by done. assert (b !! 4%nat = Some announceVersion) as Hv by done.
  assert (slice b 5 deviceIDLen = id) as Hs1.
  { unfold slice. change (drop 5 b) with ((id ++ be_enc 2 port) ++ rest). rewrite <- app_assoc. by apply take_app_length'. }
  assert (slice b (5 + deviceIDLen) 2 = be_enc 2 port) as Hs2.
  { unfold slice, b, encodeAnnounce. cbn [an_DeviceID an_TCPPort].
    rewrite <- !app_assoc, (app_assoc announceMagic), (app_assoc _ id), drop_app_length'; [apply take_be_enc |].
    by rewrite !length_app, Hid. }
  clearbody b. unfold decodeAnnounce. destruct (Nat.ltb_spec (length b) announceSize); [lia |].
  rewrite decide_False by (intros Hn; by apply Hn). rewrite decide_False by (intros Hn; by apply Hn). cbv zeta.
  rewrite Hs1, Hs2, be_dec_enc_small by (cbn; lia). cbn [an_TCPPort]. destruct (Z.eqb_spec port 0); [lia | done].
Qed.

Lemma decode_sound b a :
  decodeAnnounce b = Ok a → announcement_ok a ∧ take announceSize b = encodeAnnounce a.
Proof.
  unfold decodeAnnounce. destruct (Nat.ltb_spec (length b) announceSize) as [| Hlen]; [done |].
  case_decide as Hm; [done |]. case_decide as Hv; [done |]. cbv zeta. cbn [an_TCPPort].
  destruct (Z.eqb_spec (be_dec (slice b (5 + deviceIDLen) 2)) 0) as [| Hp]; [done |]. intros Hok.
  apply Ok_inj in Hok as <-. change announceSize with 39%nat in *. change (5 + deviceIDLen)%nat with 37%nat in *. change deviceIDLen with 32%nat.
  assert (length (slice b 37 2) = 2%nat) as Hl2 by (unfold slice; rewrite length_take, length_drop; lia).
  assert (length (slice b 5 32) = 32%nat) as Hl32 by (unfold slice; rewrite length_take, length_drop; lia).
  pose proof (be_dec_range (slice b 37 2)) as Hr. rewrite Hl2 in Hr. split; [split; cbn [an_DeviceID an_TCPPort]; [done | lia] |].
  unfold encodeAnnounce. cbn [an_DeviceID an_TCPPort]. rewrite (be_enc_dec 2) by done. rewrite <- Hm.
  assert ([announceVersion] = slice b 4 1) as ->.
  { unfold slice. by rewrite (drop_S b announceVersion 4). }
  assert (∀ n m, take (n + m) b = take n b ++ slice b n m) as Hsplit.
  { intros n m. unfold slice. by rewrite take_take_drop. }
  change 39%nat with (37 + 2)%nat. rewrite (Hsplit 37%nat 2%nat).
  change (take 37 b) with (take (5 + 32) b). rewrite (Hsplit 5%nat 32%nat).
  change (take 5 b) with (take (4 + 1) b). rewrite (Hsplit 4%nat 1%nat). by rewrite <- !app_assoc.
Qed.

(** * Properties *)

(** the announcement codec is total and exact: a datagram is accepted exactly when
    its first 39 bytes are the encoding of an announcement with a 32-byte id and a
    non-zero port, which is then the result; what follows is ignored, and everything
    else is an error value. *)
Theorem announce_codec b a :
  decodeAnnounce b = Ok a ↔ announcement_ok a ∧ ∃ rest, b = encodeAnnounce a ++ rest.
Proof.
  split.
  - intros [Hok Ht]%decode_sound. split; [done |]. exists (drop announceSize b). by rewrite <- Ht, take_drop.
  - intros [Hok [rest ->]]. by apply decode_encode.
Qed.

(** the events are a faithful account of the registry: after any datagrams
    (well-formed or not) and sweeps, what a listener that applied every event knows of
    each device is exactly the address on record; no event repeats what the listener
    already knows; and no event is about this device itself. *)
Theorem registry_events_faithful self evictTimeout inputs :
  let r := run self evictTimeout inputs in
  (∀ id, view (rg_events r) id = pe_addr <$> rg_peers r !! id) ∧
  (∀ pre ev post, rg_events r = pre ++ ev :: post → view pre (event_id ev) ≠ event_addr ev) ∧
  (∀ ev, ev ∈ rg_events r → event_id ev ≠ self).
Proof. intros r. by destruct (run_tracked self evictTimeout inputs) as [? ? ?]. Qed.

Definition claim_of (c : ascii) (port : Z) : bytes := encodeAnnounce (mkAnnouncement (repeat c 32) port).
(** Two sightings, a moved peer, our own echo, garbage, and a sweep that evicts one. *)
Definition sightings : list Input :=
  [Datagram [byte_of_Z 10] (claim_of "B" 7000) 0; Datagram [byte_of_Z 10] (claim_of "B" 7000) 5;
   Datagram [byte_of_Z 11] (claim_of "C" 7000) 6; Datagram [byte_of_Z 11] (claim_of "C" 7001) 40;
   Datagram [byte_of_Z 9] (claim_of "A" 1) 41; Datagram [] (go! "MSYN") 42; Tick 50].
Example sightings_events :
  rg_events (run (repeat "A"%char 32) 30 sightings) =
    [PeerDiscovered (repeat "B"%char 32) (mkAddrPort [byte_of_Z 10] 7000);
     PeerDiscovered (repeat "C"%char 32) (mkAddrPort [byte_of_Z 11] 7000);
     PeerDiscovered (repeat "C"%char 32) (mkAddrPort [byte_of_Z 11] 7001);
     PeerEvicted (repeat "B"%char 32)].
Proof. vm_compute. reflexivity. Qed.
