(* ===== verification/Debounce.v ===== *)
(** * Debounce: coalescing watcher events (internal/reconcile/scanloop.go)

    The actor's loop is a fold over its inputs, raw events and ticks with the time
    each is received; what it emits is logged with the time of the tick. *)
From S2P Require Import Prelude Bytes Discovery.

Inductive DebInput := DebEvent (p : bytes) (now : Z) | DebTick (now : Z).
Record debouncer := mkDebouncer { db_pending : gmap bytes Z; db_emitted : list (bytes * Z) }.

(** A path quiet for the window. *)
Definition quiet (window now last : Z) : bool := window <=? Sub now last.

Definition debounce_one (window : Z) (d : debouncer) (i : DebInput) : debouncer :=
  match i with
  | DebEvent p now => mkDebouncer (<[p := now]> (db_pending d)) (db_emitted d)
  | DebTick now =>
    mkDebouncer (filter (λ '(_, last), quiet window now last = false) (db_pending d))
      (db_emitted d ++ ((λ '(p, _), (p, now)) <$>
        filter (λ '(_, last), quiet window now last = true) (map_to_list (db_pending d))))
  end.
Definition debounce (window : Z) (inputs : list DebInput) : debouncer :=
  foldl (debounce_one window) (mkDebouncer ∅ []) inputs.

(** ** The specification: one timer per path *)

(** The timer of [p]: armed or rearmed by an event on [p], and, at a tick that
    finds it quiet for the window, fired and disarmed. *)
Definition timer_one (window : Z) (p : bytes) (t : option Z * list Z) (i : DebInput) : option Z * list Z :=
  match i with
  | DebEvent q now => if decide (q = p) then (Some now, t.2) else t
  | DebTick now =>
    match t.1 with
    | Some last => if quiet window now last then (None, t.2 ++ [now]) else t
    | None => t
    end
  end.
Definition timer (window : Z) (p : bytes) (inputs : list DebInput) : option Z * list Z :=
  foldl (timer_one window p) (None, []) inputs.

(** The times at which [p] was emitted. *)
Definition fired (d : debouncer) (p : bytes) : list Z := snd <$> filter (λ '(q, _), q = p) (db_emitted d).

Lemma emit_once (l : list (bytes * Z)) (p : bytes) (now : Z) :
  NoDup l.*1 →
  snd <$> filter (λ '(q, _), q = p) ((λ '(q, _), (q, now)) <$> l) = if decide (p ∈ l.*1) then [now] else [].
Proof.
  induction l as [|[q last] l IH]; [done |]. rewrite !fmap_cons, NoDup_cons. cbn [fst]. intros [Hq Hnd].
  specialize (IH Hnd). rewrite filter_cons. destruct (decide (q = p)) as [-> | Hne].
  - rewrite fmap_cons, IH. rewrite (decide_False (P := p ∈ l.*1)), decide_True by set_solver. done.
  - rewrite IH. repeat case_decide; set_solver.
Qed.

Lemma quiet_one (window now : Z) (p : bytes) (m : gmap bytes Z) :
  snd <$> filter (λ '(q, _), q = p) ((λ '(q, _), (q, now)) <$>
    filter (λ '(_, last), quiet window now last = true) (map_to_list m)) =
  match m !! p with Some last => if quiet window now last then [now] else [] | None => [] end.
Proof.
  set (l := filter _ (map_to_list m)).
  assert (∀ q last, (q, last) ∈ l ↔ m !! q = Some last ∧ quiet window now last = true) as Hl.
  { intros q last. unfold l. rewrite list_elem_of_filter, elem_of_map_to_list. tauto. }
  assert (NoDup l.*1) as Hnd.
  { apply NoDup_fmap_fst; [| apply NoDup_filter, NoDup_map_to_list]. intros q a b [H1 _]%Hl [H2 _]%Hl. congruence. }
  rewrite emit_once by done.
  assert (p ∈ l.*1 ↔ ∃ last, m !! p = Some last ∧ quiet window now last = true) as Hp.
  { rewrite list_elem_of_fmap. setoid_rewrite <- Hl. split; [intros ([? e] & -> & ?); eauto |].
    intros [e ?]. by exists (p, e). }
  case_decide as Hin.
  - apply Hp in Hin as (last & -> & ->). done.
  - destruct (m !! p) as [last |]; [| done]. destruct (quiet window now last) eqn:Hq; [| done]. exfalso. apply Hin, Hp. eauto.
Qed.

Lemma debounce_timer window p inputs :
  db_pending (debounce window inputs) !! p = (timer window p inputs).1 ∧
  fired (debounce window inputs) p = (timer window p inputs).2.
Proof.
  unfold debounce, timer. induction inputs as [|i inputs [IH1 IH2]] using rev_ind; [done |].
  rewrite !foldl_app. cbn [foldl]. set (d := foldl (debounce_one window) _ inputs) in *.
  set (t := foldl (timer_one window p) _ inputs) in *. clearbody d t. destruct i as [q now | now]; cbn.
  - case_decide as Hq; [subst q; by rewrite lookup_insert_eq |]. by rewrite lookup_insert_ne.
  - unfold fired in *. cbn [db_emitted]. rewrite filter_app, fmap_app, IH2, quiet_one, IH1.
    destruct t as [[last |] l]; cbn [fst snd] in *.
    + destruct (quiet window now last) eqn:Hq; (split; [| by rewrite ?app_nil_r]).
      * apply map_lookup_filter_None. right. intros x Hx. rewrite Hx in IH1. simplify_eq. by rewrite Hq.
      * apply map_lookup_filter_Some. done.
    + rewrite app_nil_r. split; [| done]. apply map_lookup_filter_None. by left.
Qed.

(** * Properties *)

(** the debouncer is one independent timer per path: after any inputs, a path is
    pending exactly when its own timer is armed, with the same time, and has been
    emitted exactly when its timer fired; an event, however many others surround it,
    rearms only its own path's timer, and nothing is lost or emitted twice. *)
Theorem debounce_is_timers window inputs p :
  db_pending (debounce window inputs) !! p = (timer window p inputs).1 ∧
  fired (debounce window inputs) p = (timer window p inputs).2.
Proof. apply debounce_timer. Qed.

(** a burst becomes one emission: once [p] has an event at [last], with later ticks
    too early and other paths busy, the first tick at least the window after it
    emits [p] exactly once more and leaves it no longer pending. *)
Theorem debounce_coalesces window before p last between now :
  (∀ i, i ∈ between → match i with
    | DebEvent q _ => q ≠ p
    | DebTick t => quiet window t last = false end) →
  quiet window now last = true →
  let d0 := debounce window before in
  let d := debounce window (before ++ [DebEvent p last] ++ between ++ [DebTick now]) in
  fired d p = fired d0 p ++ [now] ∧ db_pending d !! p = None.
Proof.
  intros Hb Hq d0 d. unfold d, d0. rewrite !(proj2 (debounce_timer window p _)), (proj1 (debounce_timer window p _)).
  unfold timer. rewrite !foldl_app. set (t0 := foldl _ _ before). clearbody t0. cbn [foldl timer_one]. rewrite decide_True by done.
  assert (foldl (timer_one window p) (Some last, t0.2) between = (Some last, t0.2)) as ->.
  { induction between as [|i between IH]; [done |]. cbn [foldl].
    assert (timer_one window p (Some last, t0.2) i = (Some last, t0.2)) as ->.
    { specialize (Hb i ltac:(apply elem_of_cons; by left)). destruct i; cbn; [by rewrite decide_False | by rewrite Hb]. }
    apply IH. intros j Hj. apply Hb. apply elem_of_cons. by right. }
  cbn. rewrite Hq. done.
Qed.

Lemma debounce_coalesces_witness :
  let d := debounce 150 ([DebEvent (go! "a") 0; DebEvent (go! "b") 1; DebTick 75] ++ [DebEvent (go! "a") 80] ++
    [DebEvent (go! "b") 81; DebTick 150; DebTick 225] ++ [DebTick 300]) in
  fired d (go! "a") = [300] ∧ db_pending d !! go! "a" = None.
Proof.
  refine (debounce_coalesces 150 [DebEvent (go! "a") 0; DebEvent (go! "b") 1; DebTick 75] (go! "a") 80
    [DebEvent (go! "b") 81; DebTick 150; DebTick 225] 300 _ _); [| reflexivity].
  intros i Hi. repeat (apply elem_of_cons in Hi as [-> | Hi]; [first [discriminate | reflexivity] |]).
  by apply not_elem_of_nil in Hi.
Defined.
