(* ===== verification/Transport.v ===== *)
(** * Transport: authenticated peer connections (internal/transport)

    The allow-list and the handshake are functions. The running transport is one
    record: the connection objects live in a heap (they are shared by their reader,
    writer, supervisor and the engine), [conns] is the transport's own table of
    them, and the Events channel is a bounded queue followed by the log of what was
    taken from it. Every atomic action of a goroutine (one frame read, one channel
    operation, one critical section) is an [act]; [exec] performs it where the code
    is able to, so an execution is any interleaving of the goroutines. TLS itself,
    sockets and the certificate format are outside: a handshake is described by
    whether TLS succeeded and by the certificates it presented. *)
From S2P Require Import Prelude Bytes Framing Messages Hashing.

(** ** The allow-list and the pinning check (tls.go) *)

Definition Allowlist := gset bytes.
Definition NewAllowlist (ids : list DeviceID) : Allowlist := list_to_set ids.
Definition Add (a : Allowlist) (id : DeviceID) : Allowlist := {[id]} ∪ a.
Definition RemoveID (a : Allowlist) (id : DeviceID) : Allowlist := a ∖ {[id]}.
Definition Allowed (a : Allowlist) (id : DeviceID) : bool := bool_decide (id ∈ a).

Inductive PinError := ErrUntrustedDevice | ErrNoPeerCert.
Inductive EstablishError :=
| ErrTLS                                  (* the handshake itself failed *)
| ErrPin (e : PinError)                   (* VerifyConnection refused it *)
| ErrWriteHello (e : option WriteError)   (* [None]: the network *)
| ErrReadHello (e : FrameError)
| ErrHelloExpected
| ErrDecodeHello (e : DecError)
| ErrHelloDeviceMismatch.

Section handshake.
Context `{Digest}.

Definition DeviceIDFromCert (der : bytes) : DeviceID := sum256 der.

Definition pinVerifier (allow : Allowlist) (certs : list bytes) : option PinError :=
  match certs with
  | [] => Some ErrNoPeerCert
  | raw :: _ => if negb (Allowed allow (DeviceIDFromCert raw)) then Some ErrUntrustedDevice else None
  end.

(** HandshakeContext, which runs VerifyConnection and fails when it does, and the
    device pinned from the certificate. *)
Definition handshake (allow : Allowlist) (tls : bool) (certs : list bytes) : Result EstablishError DeviceID :=
  if negb tls then Err ErrTLS
  else match pinVerifier allow certs with
       | Some e => Err (ErrPin e)
       | None =>
         match certs with
         | [] => Err (ErrPin ErrNoPeerCert)
         | raw :: _ => Ok (DeviceIDFromCert raw)
         end
       end.

End handshake.

Definition readHello (r : list bytes) : Result EstablishError (Hello * list bytes) :=
  match ReadFrame r with
  | (Err e, _) => Err (ErrReadHello e)
  | (Ok (typ, payload), r') =>
    if negb (typ =? MsgHello) then Err ErrHelloExpected
    else match DecodeMessage typ payload with
         | Err e => Err (ErrDecodeHello e)
         | Ok (MHello h) => Ok (h, r')
         | Ok _ => Err ErrHelloExpected
         end
  end.

(** The HELLO exchange: what is written, and the peer's HELLO with the rest of its
    stream. [wrote] tells whether the network took our HELLO. *)
Definition exchange (self : DeviceID) (myHello : Hello) (pinned : DeviceID) (wrote : bool) (r : list bytes)
    : Result EstablishError (bytes * Hello * list bytes) :=
  let myHello := mkHello (h_ProtoVersion myHello) self (h_FolderID myHello) (h_RootHash myHello) (h_FeatureFlags myHello) in
  match WriteMessage [] (MHello myHello) with
  | Err e => Err (ErrWriteHello (Some e))
  | Ok w =>
    if negb wrote then Err (ErrWriteHello None)
    else let! hr := readHello r in
         let '(h, r') := hr in
         if decide (h_DeviceID h = pinned) then Ok (w, h, r') else Err ErrHelloDeviceMismatch
  end.

(** ** Connections and the transport *)

Inductive ConnErr :=
| ErrTransportClosed | ErrOutboundOverflow
| ErrRead (e : FrameError) | ErrNetwork
| ErrFatalFrame (t : Z) | ErrDecode (e : DecError) | ErrWrite (e : WriteError).

(** The reader is between frames, or has a message to deliver, or has exited; the
    writer is waiting, or has taken a message, or has exited. *)
Inductive reader := Reading | Delivering (m : Message) | ReaderDone.
Inductive writer := Waiting | Writing (m : Message) | WriterDone.
(** How far [register] and the supervisor it spawns have got. *)
Inductive registering := Unregistered | Emitting | Opening | Registered | Rejected.
Inductive supervising := Unsupervised | Supervising | Reaped | Reported.

Record Conn := mkConn {
  c_device : DeviceID; c_hello : Hello;
  c_in : list bytes; c_reader : reader;
  c_outbound : list Message; c_writer : writer; c_out : bytes;
  c_gate : bool; c_closed : bool; c_err : option ConnErr;
  c_reg : registering; c_sup : supervising }.

(** An Event; the connection of a disconnect is not carried by the code's value and
    is recorded here to tell two connections to one device apart. *)
Inductive TEvent :=
| Connected (i : nat) (id : DeviceID)
| Disconnected (i : nat) (id : DeviceID) (err : option ConnErr)
| Received (i : nat) (id : DeviceID) (m : Message).

Definition eventsBuffer : nat := 64.
Definition defaultOutboundBuffer : nat := 64.

Record Transport := mkTransport {
  t_self : DeviceID; t_outBuf : nat;
  t_allow : Allowlist; t_pinned : list DeviceID;
  t_heap : gmap nat Conn; t_next : nat; t_conns : gset nat;
  t_closing : bool; t_closed : bool; t_cancelled : bool; t_toClose : list nat;
  t_taken : list TEvent; t_queue : list TEvent }.

(** Every event emitted so far, in the order of the channel. *)
Definition t_log (t : Transport) : list TEvent := t_taken t ++ t_queue t.

Definition set_io (c : Conn) (inp : list bytes) (rd : reader) : Conn :=
  mkConn (c_device c) (c_hello c) inp rd (c_outbound c) (c_writer c) (c_out c) (c_gate c) (c_closed c) (c_err c) (c_reg c) (c_sup c).
Definition set_out (c : Conn) (outbound : list Message) (wr : writer) (out : bytes) : Conn :=
  mkConn (c_device c) (c_hello c) (c_in c) (c_reader c) outbound wr out (c_gate c) (c_closed c) (c_err c) (c_reg c) (c_sup c).
Definition set_reg (c : Conn) (gate : bool) (rg : registering) : Conn :=
  mkConn (c_device c) (c_hello c) (c_in c) (c_reader c) (c_outbound c) (c_writer c) (c_out c) gate (c_closed c) (c_err c) rg (c_sup c).
Definition set_sup (c : Conn) (sp : supervising) : Conn :=
  mkConn (c_device c) (c_hello c) (c_in c) (c_reader c) (c_outbound c) (c_writer c) (c_out c) (c_gate c) (c_closed c) (c_err c) (c_reg c) sp.

(** closeOnce: only the first cause is recorded. *)
Definition closeWith (c : Conn) (err : option ConnErr) : Conn :=
  if c_closed c then c
  else mkConn (c_device c) (c_hello c) (c_in c) (c_reader c) (c_outbound c) (c_writer c) (c_out c) (c_gate c) true err (c_reg c) (c_sup c).

Definition newConn (id : DeviceID) (hello : Hello) (rest : list bytes) : Conn :=
  mkConn id hello rest Reading [] Waiting [] false false None Unregistered Unsupervised.

(** Send: the result, and the connection after it. When the connection is closed and
    the buffer has room both cases of the select are ready, and [pick] chooses. *)
Definition sendable (outBuf : nat) (c : Conn) : bool :=
  (length (c_outbound c) <? outBuf)%nat ||
  ((outBuf =? 0)%nat && match c_writer c with Waiting => true | _ => false end).
Definition enqueue (outBuf : nat) (c : Conn) (m : Message) : Conn :=
  if (outBuf =? 0)%nat then set_out c (c_outbound c) (Writing m) (c_out c)
  else set_out c (c_outbound c ++ [m]) (c_writer c) (c_out c).
Definition Send (outBuf : nat) (pick : bool) (c : Conn) (m : Message) : Conn * bool :=
  if c_closed c then
    if sendable outBuf c && pick then (enqueue outBuf c m, true) else (c, false)
  else if sendable outBuf c then (enqueue outBuf c m, true)
  else (closeWith c (Some ErrOutboundOverflow), false).

(** One turn of readLoop, up to the delivery; the deferred closeWith of an exit
    included. *)
Definition read_exit (c : Conn) (inp : list bytes) (err : option ConnErr) : Conn :=
  closeWith (set_io c inp ReaderDone) err.
Definition read_turn (c : Conn) : Conn :=
  match ReadFrame (c_in c) with
  | (Err EOF, r) => read_exit c r None
  | (Err e, r) => read_exit c r (Some (ErrRead e))
  | (Ok (typ, payload), r) =>
    match recv_action typ with
    | ActionFatal => read_exit c r (Some (ErrFatalFrame typ))
    | ActionSkip => set_io c r Reading
    | ActionDispatch =>
      match DecodeMessage typ payload with
      | Err e => read_exit c r (Some (ErrDecode e))
      | Ok m => set_io c r (Delivering m)
      end
    end
  end.

(** One write of writeLoop; [sent] tells whether the network took the frame. *)
Definition write_exit (c : Conn) (err : option ConnErr) : Conn :=
  closeWith (set_out c (c_outbound c) WriterDone (c_out c)) err.
Definition write_turn (c : Conn) (m : Message) (sent : bool) : Conn :=
  match WriteMessage (c_out c) m with
  | Err e => write_exit c (Some (ErrWrite e))
  | Ok w => if sent && negb (c_closed c) then set_out c (c_outbound c) Waiting w else write_exit c (Some ErrNetwork)
  end.

(** *** Updates of the transport *)
Definition put (t : Transport) (i : nat) (c : Conn) : Transport :=
  mkTransport (t_self t) (t_outBuf t) (t_allow t) (t_pinned t) (<[i := c]> (t_heap t)) (t_next t) (t_conns t)
    (t_closing t) (t_closed t) (t_cancelled t) (t_toClose t) (t_taken t) (t_queue t).
Definition set_trust (t : Transport) (allow : Allowlist) (pinned : list DeviceID) : Transport :=
  mkTransport (t_self t) (t_outBuf t) allow pinned (t_heap t) (t_next t) (t_conns t)
    (t_closing t) (t_closed t) (t_cancelled t) (t_toClose t) (t_taken t) (t_queue t).
Definition set_conns (t : Transport) (conns : gset nat) : Transport :=
  mkTransport (t_self t) (t_outBuf t) (t_allow t) (t_pinned t) (t_heap t) (t_next t) conns
    (t_closing t) (t_closed t) (t_cancelled t) (t_toClose t) (t_taken t) (t_queue t).
Definition set_life (t : Transport) (closing closed cancelled : bool) (toClose : list nat) : Transport :=
  mkTransport (t_self t) (t_outBuf t) (t_allow t) (t_pinned t) (t_heap t) (t_next t) (t_conns t)
    closing closed cancelled toClose (t_taken t) (t_queue t).
Definition set_events (t : Transport) (taken queue : list TEvent) : Transport :=
  mkTransport (t_self t) (t_outBuf t) (t_allow t) (t_pinned t) (t_heap t) (t_next t) (t_conns t)
    (t_closing t) (t_closed t) (t_cancelled t) (t_toClose t) taken queue.
(** The connection [newConn] makes, under the next number. *)
Definition adopt (t : Transport) (c : Conn) : Transport :=
  mkTransport (t_self t) (t_outBuf t) (t_allow t) (t_pinned t) (<[t_next t := c]> (t_heap t)) (S (t_next t)) (t_conns t)
    (t_closing t) (t_closed t) (t_cancelled t) (t_toClose t) (t_taken t) (t_queue t).

(** [t.events <- ev], possible while the buffer has room; emit gives up instead once
    the transport is closed ([abandon]). *)
Definition push (t : Transport) (ev : TEvent) : option Transport :=
  if (length (t_queue t) <? eventsBuffer)%nat then Some (set_events t (t_taken t) (t_queue t ++ [ev])) else None.
Definition emit (t : Transport) (ev : TEvent) (abandon : bool) : option Transport :=
  if abandon then (if t_closed t then Some t else None) else push t ev.

(** ** The actions *)

Inductive act :=
| AAllow (id : DeviceID) | ADisallow (id : DeviceID)
| AHandshake (tls : bool) (certs : list bytes)
| AHello (k : nat) (myHello : Hello) (wrote : bool) (r : list bytes)
| ARegister (i : nat) | AConnected (i : nat) (abandon : bool) | AOpen (i : nat)
| ARead (i : nat) | AReadFail (i : nat) | ADeliver (i : nat) | ADeliverStop (i : nat)
| ASend (i : nat) (m : Message) (pick : bool)
| ATake (i : nat) | AWrite (i : nat) (sent : bool) | AWriterStop (i : nat)
| AReap (i : nat) | ADisconnected (i : nat) (abandon : bool)
| ACancel | AClosing | AClosed | ACloseConn
| ANext.

Section exec.
Context `{Digest}.

Definition exec_trust (t : Transport) (a : act) : option Transport :=
  match a with
  | AAllow id => Some (set_trust t (Add (t_allow t) id) (t_pinned t))
  | ADisallow id => Some (set_trust t (RemoveID (t_allow t) id) (t_pinned t))
  | AHandshake tls certs =>
    match handshake (t_allow t) tls certs with
    | Ok id => Some (set_trust t (t_allow t) (t_pinned t ++ [id]))
    | Err _ => Some t
    end
  | AHello k myHello wrote r =>
    id ← t_pinned t !! k;
    let t := set_trust t (t_allow t) (delete k (t_pinned t)) in
    match exchange (t_self t) myHello id wrote r with
    | Ok (_, h, r') => Some (adopt t (newConn id h r'))
    | Err _ => Some t
    end
  | _ => None
  end.

(** register and superviseConn. *)
Definition exec_lifecycle (t : Transport) (i : nat) (c : Conn) (a : act) : option Transport :=
  match a, c_reg c, c_sup c with
  | ARegister _, Unregistered, _ =>
    if t_closing t then Some (put t i (closeWith (set_reg c (c_gate c) Rejected) (Some ErrTransportClosed)))
    else Some (put (set_conns t ({[i]} ∪ t_conns t)) i (set_sup (set_reg c (c_gate c) Emitting) Supervising))
  | AConnected _ abandon, Emitting, _ =>
    emit (put t i (set_reg c (c_gate c) Opening)) (Connected i (c_device c)) abandon
  | AOpen _, Opening, _ => Some (put t i (set_reg c true Registered))
  | AReap _, _, Supervising =>
    match c_reader c, c_writer c with
    | ReaderDone, WriterDone => Some (put (set_conns t (t_conns t ∖ {[i]})) i (set_sup c Reaped))
    | _, _ => None
    end
  | ADisconnected _ abandon, _, Reaped =>
    emit (put t i (set_sup c Reported)) (Disconnected i (c_device c) (c_err c)) abandon
  | _, _, _ => None
  end.

(** The reader, the writer and Send. *)
Definition exec_io (t : Transport) (i : nat) (c : Conn) (a : act) : option Transport :=
  match a with
  | ARead _ => match c_reader c with Reading => Some (put t i (read_turn c)) | _ => None end
  | AReadFail _ =>
    match c_reader c with Reading => Some (put t i (read_exit c (c_in c) (Some ErrNetwork))) | _ => None end
  | ADeliver _ =>
    match c_reader c with
    | Delivering m =>
      if c_gate c then push (put t i (set_io c (c_in c) Reading)) (Received i (c_device c) m) else None
    | _ => None
    end
  | ADeliverStop _ =>
    match c_reader c with
    | Delivering _ => if c_closed c || t_closed t then Some (put t i (read_exit c (c_in c) None)) else None
    | _ => None
    end
  | ASend _ m pick => Some (put t i (Send (t_outBuf t) pick c m).1)
  | ATake _ =>
    match c_writer c, c_outbound c with
    | Waiting, m :: q => Some (put t i (set_out c q (Writing m) (c_out c)))
    | _, _ => None
    end
  | AWrite _ sent =>
    match c_writer c with Writing m => Some (put t i (write_turn c m sent)) | _ => None end
  | AWriterStop _ =>
    match c_writer c with
    | Waiting => if c_closed c || t_cancelled t then Some (put t i (write_exit c None)) else None
    | _ => None
    end
  | _ => None
  end.

(** teardown, and the engine's receive from the Events channel. *)
Definition exec_life (t : Transport) (a : act) : option Transport :=
  match a with
  | ACancel => Some (set_life t (t_closing t) (t_closed t) true (t_toClose t))
  | AClosing =>
    if t_closing t then None else Some (set_life t true (t_closed t) (t_cancelled t) (elements (t_conns t)))
  | AClosed => if t_closing t && negb (t_closed t) then Some (set_life t true true (t_cancelled t) (t_toClose t)) else None
  | ACloseConn =>
    match t_toClose t with
    | i :: rest =>
      if t_closed t && t_cancelled t then
        c ← t_heap t !! i;
        Some (put (set_life t (t_closing t) true true rest) i (closeWith c (Some ErrTransportClosed)))
      else None
    | [] => None
    end
  | ANext => match t_queue t with ev :: q => Some (set_events t (t_taken t ++ [ev]) q) | [] => None end
  | _ => None
  end.

Definition exec (t : Transport) (a : act) : option Transport :=
  match a with
  | AAllow _ | ADisallow _ | AHandshake _ _ | AHello _ _ _ _ => exec_trust t a
  | ARegister i | AConnected i _ | AOpen i | AReap i | ADisconnected i _ =>
    c ← t_heap t !! i; exec_lifecycle t i c a
  | ARead i | AReadFail i | ADeliver i | ADeliverStop i | ASend i _ _ | ATake i | AWrite i _ | AWriterStop i =>
    c ← t_heap t !! i; exec_io t i c a
  | ACancel | AClosing | AClosed | ACloseConn | ANext => exec_life t a
  end.

Definition exec_all (t : Transport) (acts : list act) : option Transport :=
  foldl (λ ot a, t ← ot; exec t a) (Some t) acts.

Definition init (self : DeviceID) (allow : Allowlist) (outBuf : nat) : Transport :=
  mkTransport self outBuf allow [] ∅ 0 ∅ false false false [] [] [].
Definition tstep (t t' : Transport) : Prop := ∃ a, exec t a = Some t'.
Definition runs (t : Transport) : Prop := ∃ self allow outBuf, rtc tstep (init self allow outBuf) t.

End exec.

(** ** What each connection's event history can be *)

Definition event_conn (ev : TEvent) : nat :=
  match ev with Connected i _ => i | Disconnected i _ _ => i | Received i _ _ => i end.
Definition about (i : nat) (log : list TEvent) : list TEvent := filter (λ ev, event_conn ev = i) log.
Definition received (log : list TEvent) : list Message :=
  omap (λ ev, match ev with Received _ _ m => Some m | _ => None end) log.

(** The events of a connection: nothing; announced, its messages, and at most one
    disconnect at the end, with the recorded cause; or a disconnect that overtook
    the announcement. *)
Inductive history (i : nat) (d : DeviceID) (err : option ConnErr) : list TEvent → Prop :=
| hist_none : history i d err []
| hist_open ms : history i d err (Connected i d :: (Received i d <$> ms))
| hist_closed ms : history i d err (Connected i d :: (Received i d <$> ms) ++ [Disconnected i d err])
| hist_stillborn : history i d err [Disconnected i d err]
| hist_overtaken : history i d err [Disconnected i d err; Connected i d].

Definition reported (i : nat) (c : Conn) : list TEvent :=
  match c_sup c with Reported => [Disconnected i (c_device c) (c_err c)] | _ => [] end.

(** The history a connection's phase implies. *)
Definition phase_history (i : nat) (c : Conn) (h : list TEvent) : Prop :=
  let d := c_device c in
  match c_reg c with
  | Unregistered | Rejected => h = []
  | Emitting => h = reported i c
  | Opening => h = Connected i d :: reported i c ∨ h = reported i c ++ [Connected i d]
  | Registered =>
    (∃ ms, h = Connected i d :: (Received i d <$> ms) ++ reported i c) ∨ h = reported i c ++ [Connected i d]
  end.

Record conn_ok (closed : bool) (outBuf i : nat) (c : Conn) (h : list TEvent) : Prop := mkConnOk {
  co_hello : h_DeviceID (c_hello c) = c_device c;
  co_outbound : (length (c_outbound c) ≤ outBuf)%nat;
  co_closed : c_reader c = ReaderDone → c_closed c = true;
  co_reaped : c_sup c = Reaped ∨ c_sup c = Reported → c_reader c = ReaderDone ∧ c_writer c = WriterDone;
  co_gate : c_gate c = true → c_reg c = Registered;
  co_sup : c_reg c = Unregistered ∨ c_reg c = Rejected → c_sup c = Unsupervised;
  co_history : closed = false → phase_history i c h }.

Record tinv (t : Transport) : Prop := mkTinv {
  ti_fresh : ∀ i, (t_next t ≤ i)%nat → t_heap t !! i = None;
  ti_silent : ∀ i, t_heap t !! i = None → about i (t_log t) = [];
  ti_conn : ∀ i c, t_heap t !! i = Some c → conn_ok (t_closed t) (t_outBuf t) i c (about i (t_log t)) }.

Lemma about_snoc i log ev : about i (log ++ [ev]) = about i log ++ (if decide (event_conn ev = i) then [ev] else []).
Proof.
  unfold about. rewrite filter_app. by f_equal.
Qed.

Lemma emit_cases t i c ev abandon t' :
  emit (put t i c) ev abandon = Some t' →
  (abandon = true ∧ t_closed t = true ∧ t' = put t i c) ∨ (abandon = false ∧ push (put t i c) ev = Some t').
Proof.
  destruct abandon; cbn [emit]; [| by right].
  change (t_closed (put t i c)) with (t_closed t). destruct (t_closed t); intros ?; simplify_eq; by left.
Qed.

(** ** Every action keeps a connection in order *)
Section conn_ok.
Context (closed : bool) (outBuf i : nat).
Local Notation ok := (conn_ok closed outBuf i).

Lemma unreported c h : ok c h → c_reader c ≠ ReaderDone → c_sup c ≠ Reaped ∧ c_sup c ≠ Reported.
Proof. intros Hok Hr. split; intros Hs; apply Hr; by destruct (co_reaped _ _ _ _ _ Hok); [auto |]. Qed.
Lemma unreported_closed c h : ok c h → c_closed c = false → c_sup c ≠ Reaped ∧ c_sup c ≠ Reported.
Proof. intros Hok Hc. apply (unreported c h Hok). intros Hr. apply (co_closed _ _ _ _ _ Hok) in Hr. congruence. Qed.

Lemma ok_io c h inp rd : ok c h → c_reader c ≠ ReaderDone → rd ≠ ReaderDone → ok (set_io c inp rd) h.
Proof.
  intros Hok Hr Hrd. destruct (unreported c h Hok Hr). destruct Hok. split; simpl; try done. by intros [?|?].
Qed.
Lemma ok_exit c h inp err : ok c h → c_reader c ≠ ReaderDone → ok (read_exit c inp err) h.
Proof.
  intros Hok Hr. destruct (unreported c h Hok Hr). destruct Hok.
  unfold read_exit, closeWith. simpl. destruct (c_closed c) eqn:Hc; split; simpl; try done; try by intros [?|?].
  intros Hcl. specialize (co_history0 Hcl). unfold phase_history, reported in *. simpl. by destruct (c_sup c).
Qed.
Lemma ok_close c h err : ok c h → ok (closeWith c err) h.
Proof.
  intros Hok. unfold closeWith. destruct (c_closed c) eqn:Hc; [done |].
  destruct (unreported_closed c h Hok Hc). destruct Hok. split; simpl; try done.
  intros Hcl. specialize (co_history0 Hcl). unfold phase_history, reported in *. simpl. by destruct (c_sup c).
Qed.
Lemma ok_out c h ob wr out :
  ok c h → (length ob ≤ outBuf)%nat → (c_writer c = WriterDone → wr = WriterDone) → ok (set_out c ob wr out) h.
Proof. intros Hok Hl Hw. destruct Hok as [? ? ? Hre ? ? ?]. split; simpl; try done.
  intros Hs. destruct (Hre Hs). auto. Qed.

Lemma ok_send c h pick m : ok c h → ok (Send outBuf pick c m).1 h.
Proof.
  intros Hok. assert (sendable outBuf c = true → ok (enqueue outBuf c m) h) as Henq.
  { unfold sendable, enqueue. intros Hs. pose proof (co_outbound _ _ _ _ _ Hok).
    destruct (Nat.eqb_spec outBuf 0).
    - apply ok_out; [done | done |]. intros Hw. rewrite Hw in Hs. destruct (Nat.ltb_spec (length (c_outbound c)) outBuf); [lia | done].
    - rewrite orb_false_r in Hs. apply Nat.ltb_lt in Hs. apply ok_out; [done | rewrite length_app; simpl; lia | done]. }
  unfold Send. destruct (c_closed c); simpl; destruct (sendable outBuf c); simpl; auto using ok_close.
  by destruct pick; simpl; auto.
Qed.

Lemma ok_read c h : ok c h → c_reader c = Reading → ok (read_turn c) h.
Proof.
  intros Hok Hr. assert (c_reader c ≠ ReaderDone) by congruence. unfold read_turn.
  destruct (ReadFrame (c_in c)) as [[[typ payload] | e] r].
  - destruct (recv_action typ); [by apply ok_exit | | by apply ok_io].
    destruct (DecodeMessage typ payload); [by apply ok_io | by apply ok_exit].
  - destruct e; by apply ok_exit.
Qed.

Lemma ok_write c h m sent : ok c h → c_writer c = Writing m → ok (write_turn c m sent) h.
Proof.
  intros Hok Hw. pose proof (co_outbound _ _ _ _ _ Hok) as Hl.
  assert (∀ err, ok (write_exit c err) h) as Hx by (intros err; apply ok_close, ok_out; done).
  unfold write_turn. destruct (WriteMessage (c_out c) m); [| done].
  destruct (sent && negb (c_closed c)); [| done]. apply ok_out; [done | done | congruence].
Qed.

(** register and superviseConn, phase by phase. *)
Lemma ok_reg c h h' gate rg :
  ok c h → (gate = true → rg = Registered) → rg ≠ Unregistered → (rg = Rejected → c_sup c = Unsupervised) →
  (closed = false → phase_history i c h → phase_history i (set_reg c gate rg) h') → ok (set_reg c gate rg) h'.
Proof.
  intros [? ? ? ? ? ? Hh] Hg Hu Hr Hph. split; simpl; try done; [| by auto].
  intros [? | ?]; [done | by apply Hr].
Qed.
Lemma ok_sup c h h' sp :
  ok c h → c_reg c ≠ Unregistered → c_reg c ≠ Rejected →
  (sp = Reaped ∨ sp = Reported → c_reader c = ReaderDone ∧ c_writer c = WriterDone) →
  (closed = false → phase_history i c h → phase_history i (set_sup c sp) h') → ok (set_sup c sp) h'.
Proof. intros [? ? ? ? ? ? Hh] Hu Hr Hs Hph. split; simpl; try done; [by intros [?|?] | by auto]. Qed.

Lemma ok_emitting c h : ok c h → c_reg c = Unregistered → ok (set_sup (set_reg c (c_gate c) Emitting) Supervising) h.
Proof.
  intros Hok Hr. pose proof (co_sup _ _ _ _ _ Hok (or_introl Hr)) as Hs.
  pose proof (co_gate _ _ _ _ _ Hok) as Hg. rewrite Hr in Hg.
  apply (ok_sup _ h); simpl; [| done | done | by intros [?|?] |].
  - apply (ok_reg _ h); [done | intros Ht; by apply Hg in Ht | done | done |].
    unfold phase_history, reported. intros _. rewrite Hr. simpl. by rewrite Hs.
  - unfold phase_history, reported. simpl. by rewrite Hs.
Qed.
Lemma ok_reject c h : ok c h → c_reg c = Unregistered → ok (set_reg c (c_gate c) Rejected) h.
Proof.
  intros Hok Hr. apply (ok_reg _ h); [done | | done | |].
  - intros Hg. apply (co_gate _ _ _ _ _ Hok) in Hg. congruence.
  - intros _. apply (co_sup _ _ _ _ _ Hok). by left.
  - unfold phase_history. simpl. by rewrite Hr.
Qed.
Lemma ok_connected c h h' :
  ok c h → c_reg c = Emitting → (closed = false → h' = h ++ [Connected i (c_device c)]) → ok (set_reg c (c_gate c) Opening) h'.
Proof.
  intros Hok Hr Hh. apply (ok_reg _ h); [done | | done | done |].
  - intros Hg. apply (co_gate _ _ _ _ _ Hok) in Hg. congruence.
  - intros Hcl. unfold phase_history. rewrite Hr, (Hh Hcl). intros ->. by right.
Qed.
Lemma ok_open c h : ok c h → c_reg c = Opening → ok (set_reg c true Registered) h.
Proof.
  intros Hok Hr. apply (ok_reg _ h); [done | done | done | done |].
  unfold phase_history. rewrite Hr. intros _ [-> | ->]; [left; by exists [] | by right].
Qed.
Lemma ok_reap c h : ok c h → c_sup c = Supervising → c_reader c = ReaderDone → c_writer c = WriterDone → ok (set_sup c Reaped) h.
Proof.
  intros Hok Hs Hrd Hw. pose proof (co_sup _ _ _ _ _ Hok) as Hsu. rewrite Hs in Hsu.
  apply (ok_sup _ h); [done | intros ?; exfalso; naive_solver.. | done |].
  unfold phase_history, reported. simpl. by rewrite Hs.
Qed.
Lemma ok_reported c h h' :
  ok c h → c_sup c = Reaped → (closed = false → h' = h ++ [Disconnected i (c_device c) (c_err c)]) → ok (set_sup c Reported) h'.
Proof.
  intros Hok Hs Hh. pose proof (co_sup _ _ _ _ _ Hok) as Hsu. rewrite Hs in Hsu.
  pose proof (co_reaped _ _ _ _ _ Hok) as Hre.
  apply (ok_sup _ h); [done | intros ?; exfalso; naive_solver.. | auto |].
  intros Hcl. rewrite (Hh Hcl). unfold phase_history, reported. simpl. rewrite Hs.
  destruct (c_reg c); try (exfalso; naive_solver).
  - by intros ->.
  - intros [-> | ->]; by left.
  - intros [[ms ->] | ->]; left; [exists ms | by exists []].
    by rewrite app_nil_r.
Qed.
Lemma ok_deliver c h m inp :
  ok c h → c_reader c = Delivering m → c_gate c = true → ok (set_io c inp Reading) (h ++ [Received i (c_device c) m]).
Proof.
  intros Hok Hr Hg. pose proof (co_gate _ _ _ _ _ Hok Hg) as Hreg.
  destruct (unreported c h Hok) as [Hs1 Hs2]; [congruence |].
  destruct Hok as [? ? ? ? ? ? Hh]. split; simpl; try done; [by intros [?|?] |].
  intros Hcl. specialize (Hh Hcl). unfold phase_history, reported in *. simpl. rewrite Hreg in *.
  assert (∀ A (x y : A), match c_sup c with Reported => x | _ => y end = y) as Hm by by destruct (c_sup c).
  rewrite Hm, app_nil_l in Hh. rewrite Hm, app_nil_l. left. destruct Hh as [[ms ->] | ->].
  - exists (ms ++ [m]). rewrite fmap_app, !app_nil_r. done.
  - by exists [m].
Qed.

End conn_ok.

(** ** The steps of one connection

    [conn_step] is what an action can do to a connection, with the events it emits
    for it; [exec_conn] projects an execution step onto each connection. *)
Inductive conn_step (closed : bool) (outBuf i : nat) (c : Conn) : Conn → list TEvent → Prop :=
| cs_idle : conn_step closed outBuf i c c []
| cs_reject : c_reg c = Unregistered →
    conn_step closed outBuf i c (closeWith (set_reg c (c_gate c) Rejected) (Some ErrTransportClosed)) []
| cs_register : c_reg c = Unregistered →
    conn_step closed outBuf i c (set_sup (set_reg c (c_gate c) Emitting) Supervising) []
| cs_connected evs : c_reg c = Emitting → (closed = false → evs = [Connected i (c_device c)]) → received evs = [] →
    conn_step closed outBuf i c (set_reg c (c_gate c) Opening) evs
| cs_open : c_reg c = Opening → conn_step closed outBuf i c (set_reg c true Registered) []
| cs_reap : c_sup c = Supervising → c_reader c = ReaderDone → c_writer c = WriterDone →
    conn_step closed outBuf i c (set_sup c Reaped) []
| cs_reported evs : c_sup c = Reaped →
    (closed = false → evs = [Disconnected i (c_device c) (c_err c)]) → received evs = [] →
    conn_step closed outBuf i c (set_sup c Reported) evs
| cs_read : c_reader c = Reading → conn_step closed outBuf i c (read_turn c) []
| cs_exit inp err : c_reader c ≠ ReaderDone → conn_step closed outBuf i c (read_exit c inp err) []
| cs_deliver m : c_reader c = Delivering m → c_gate c = true →
    conn_step closed outBuf i c (set_io c (c_in c) Reading) [Received i (c_device c) m]
| cs_send pick m : conn_step closed outBuf i c (Send outBuf pick c m).1 []
| cs_take m q : c_writer c = Waiting → c_outbound c = m :: q →
    conn_step closed outBuf i c (set_out c q (Writing m) (c_out c)) []
| cs_write m sent : c_writer c = Writing m → conn_step closed outBuf i c (write_turn c m sent) []
| cs_stop : c_writer c = Waiting → conn_step closed outBuf i c (write_exit c None) []
| cs_close err : conn_step closed outBuf i c (closeWith c err) [].

Lemma conn_step_ok closed outBuf i c h c' evs :
  conn_ok closed outBuf i c h → conn_step closed outBuf i c c' evs → conn_ok closed outBuf i c' (h ++ evs).
Proof.
  intros Hok Hs. pose proof (co_outbound _ _ _ _ _ Hok) as Hl.
  destruct Hs as [| | | evs Hr He _ | | | evs Hr He _ | | | | | m q Hw Ho | | |]; rewrite ?app_nil_r.
  - done.
  - by apply ok_close, ok_reject.
  - by apply ok_emitting.
  - eapply ok_connected; [done | done |]. intros Hcl. by rewrite He.
  - by apply ok_open.
  - by apply ok_reap.
  - eapply ok_reported; [done | done |]. intros Hcl. by rewrite He.
  - by apply ok_read.
  - by apply ok_exit.
  - by apply ok_deliver.
  - by apply ok_send.
  - rewrite Ho in Hl. simpl in Hl. apply ok_out; [done | lia | congruence].
  - by apply ok_write.
  - apply ok_close, ok_out; [done | done | congruence].
  - by apply ok_close.
Qed.

Section invariant.
Context `{Digest}.

(** A step puts at most one connection and appends events about it. *)
Definition touches (t t' : Transport) (i : nat) (c' : Conn) (evs : list TEvent) : Prop :=
  t_heap t' = <[i := c']> (t_heap t) ∧ t_log t' = t_log t ++ evs ∧ Forall (λ ev, event_conn ev = i) evs ∧
  t_next t' = t_next t ∧ t_outBuf t' = t_outBuf t ∧ t_closed t' = t_closed t ∧ t_pinned t' = t_pinned t.
Definition keeps (t t' : Transport) : Prop :=
  t_heap t' = t_heap t ∧ t_log t' = t_log t ∧ t_next t' = t_next t ∧ t_outBuf t' = t_outBuf t ∧
  (t_closed t' = false → t_closed t = false).

Lemma touches_put t t1 i c' :
  keeps t t1 → t_closed t1 = t_closed t → t_pinned t1 = t_pinned t → touches t (put t1 i c') i c' [].
Proof. intros (Hh & Hl & Hn & Ho & _) Hc Hp. unfold touches. simpl. rewrite <- Hh, app_nil_r. done. Qed.
Lemma touches_push t i c' ev t' : event_conn ev = i → push (put t i c') ev = Some t' → touches t t' i c' [ev].
Proof.
  intros Hev Hp. unfold push in Hp. case_match; [| done]. injection Hp as <-. split_and!; try done.
  - unfold t_log. simpl. by rewrite app_assoc.
  - by repeat constructor.
Qed.

Ltac touched := apply touches_put; [by unfold keeps | done | done].

Lemma exec_lifecycle_touches t i c a t' :
  exec_lifecycle t i c a = Some t' → ∃ c' evs, touches t t' i c' evs ∧ conn_step (t_closed t) (t_outBuf t) i c c' evs.
Proof.
  intros He. unfold exec_lifecycle in He. destruct a; try done.
  - destruct (c_reg c) eqn:Hr; try done. destruct (t_closing t); simplify_eq; do 2 eexists;
      (split; [touched | by constructor]).
  - destruct (c_reg c) eqn:Hr; try done. apply emit_cases in He as [(_ & Hcl & ->) | [_ He]]; do 2 eexists.
    + split; [touched |]. apply cs_connected; [done | by rewrite Hcl | done].
    + split; [eapply touches_push; [| exact He]; done |]. by apply cs_connected.
  - destruct (c_reg c) eqn:Hr; simplify_eq. do 2 eexists. split; [touched | by constructor].
  - assert (c_sup c = Supervising) as Hs by by destruct (c_reg c), (c_sup c).
    assert (c_reader c = ReaderDone ∧ c_writer c = WriterDone ∧
            t' = put (set_conns t (t_conns t ∖ {[i]})) i (set_sup c Reaped)) as (Hr & Hw & ->).
    { rewrite Hs in He. destruct (c_reg c), (c_reader c), (c_writer c); by simplify_eq. }
    do 2 eexists. split; [touched | by constructor].
  - assert (c_sup c = Reaped) as Hs by by destruct (c_reg c), (c_sup c).
    assert (emit (put t i (set_sup c Reported)) (Disconnected i (c_device c) (c_err c)) abandon = Some t') as He'
      by by rewrite Hs in He; destruct (c_reg c).
    clear He. apply emit_cases in He' as [(_ & Hcl & ->) | [_ He]]; do 2 eexists.
    + split; [touched |]. apply cs_reported; [done | by rewrite Hcl | done].
    + split; [eapply touches_push; [| exact He]; done |]. by apply cs_reported.
Qed.

Lemma exec_io_touches t i c a t' :
  exec_io t i c a = Some t' → ∃ c' evs, touches t t' i c' evs ∧ conn_step (t_closed t) (t_outBuf t) i c c' evs.
Proof.
  intros He. unfold exec_io in He. destruct a; try done.
  - destruct (c_reader c) eqn:Hr; simplify_eq. do 2 eexists. split; [touched | by constructor].
  - destruct (c_reader c) eqn:Hr; simplify_eq. do 2 eexists. split; [touched | constructor; congruence].
  - destruct (c_reader c) eqn:Hr; try done. destruct (c_gate c) eqn:Hg; [| done].
    do 2 eexists. split; [eapply touches_push; [| exact He]; done | by constructor].
  - destruct (c_reader c) eqn:Hr; try done. destruct (_ || _); simplify_eq.
    do 2 eexists. split; [touched | constructor; congruence].
  - simplify_eq. do 2 eexists. split; [touched | by constructor].
  - destruct (c_writer c) eqn:Hw; try done. destruct (c_outbound c) as [|m q] eqn:Ho; simplify_eq.
    do 2 eexists. split; [touched | by constructor].
  - destruct (c_writer c) eqn:Hw; simplify_eq. do 2 eexists. split; [touched | by constructor].
  - destruct (c_writer c) eqn:Hw; try done. destruct (_ || _); simplify_eq.
    do 2 eexists. split; [touched | by constructor].
Qed.

(** What any action does: nothing to the connections, a new connection, or one step
    of one connection. *)
Inductive effect (t t' : Transport) : Prop :=
| eff_keeps : keeps t t' → effect t t'
| eff_new id h r : t_heap t' = <[t_next t := newConn id h r]> (t_heap t) → h_DeviceID h = id → id ∈ t_pinned t →
    t_log t' = t_log t → t_next t' = S (t_next t) → t_outBuf t' = t_outBuf t → t_closed t' = t_closed t → effect t t'
| eff_step i c c' evs : t_heap t !! i = Some c → touches t t' i c' evs →
    conn_step (t_closed t) (t_outBuf t) i c c' evs → effect t t'.

Lemma exec_trust_effect t a t' : exec_trust t a = Some t' → effect t t'.
Proof.
  intros He. unfold exec_trust in He.
  destruct a as [| | tls certs | k my wrote r | | | | | | | | | | | | | | | | | |]; simplify_eq/=.
  - by apply eff_keeps.
  - by apply eff_keeps.
  - destruct (handshake _ tls certs); simplify_eq; by apply eff_keeps.
  - destruct (t_pinned t !! k) as [id |] eqn:Hk; simplify_eq/=.
    destruct (exchange _ my id wrote r) as [[[w h] r'] |] eqn:Hx; simplify_eq; [| by apply eff_keeps].
    apply (eff_new _ _ id h r'); try done; [| by eapply list_elem_of_lookup_2].
    unfold exchange in Hx. destruct (WriteMessage _ _); [| done]. destruct wrote; [| done].
    simpl in Hx. destruct (readHello r) as [[h1 r1] |]; [| done]. simpl in Hx. case_decide; by simplify_eq.
Qed.

Lemma exec_life_effect t a t' : exec_life t a = Some t' → effect t t'.
Proof.
  intros He. unfold exec_life in He. destruct a; try done.
  - simplify_eq. by apply eff_keeps.
  - destruct (t_closing t); simplify_eq. by apply eff_keeps.
  - destruct (t_closing t && negb (t_closed t)); simplify_eq. by apply eff_keeps.
  - destruct (t_toClose t) as [|i rest]; [done |]. destruct (t_closed t && t_cancelled t) eqn:Hb; [| done].
    destruct (t_heap t !! i) as [c |] eqn:Hc; simplify_eq/=. apply andb_true_iff in Hb as [Hcl _].
    eapply eff_step; [done | | by apply cs_close]. apply touches_put; [by unfold keeps | by rewrite Hcl | done].
  - destruct (t_queue t) as [|ev q] eqn:Hq; simplify_eq. apply eff_keeps. unfold keeps, t_log. simpl.
    by rewrite Hq, <- app_assoc.
Qed.

Lemma exec_effect t a t' : exec t a = Some t' → effect t t'.
Proof.
  intros He. unfold exec in He.
  destruct a; cbv beta iota in He; first [by eapply exec_trust_effect | by eapply exec_life_effect |
    destruct (t_heap t !! i) as [c |] eqn:Hc; [cbn [mbind option_bind] in He | done];
    first [apply exec_lifecycle_touches in He as (? & ? & ? & ?) | apply exec_io_touches in He as (? & ? & ? & ?)];
    by eapply eff_step].
Qed.

Lemma about_touched i j log evs :
  Forall (λ ev, event_conn ev = i) evs → about j (log ++ evs) = about j log ++ (if decide (i = j) then evs else []).
Proof.
  intros Hf. unfold about. rewrite filter_app. f_equal. destruct (decide (i = j)) as [-> | Hne].
  - induction Hf as [|ev evs Hev _ IH]; [done |]. rewrite filter_cons_True by done. by f_equal.
  - induction Hf as [|ev evs Hev _ IH]; [done |]. by rewrite filter_cons_False by congruence.
Qed.

Lemma effect_inv t t' : effect t t' → tinv t → tinv t'.
Proof.
  intros He [Hf Hn Hc]. destruct He as [(Hh & Hl & Hx & Ho & Hcl) | id h r Hh Hid _ Hl Hx Ho Hcl
    | i c c' evs Hi (Hh & Hl & Hev & Hx & Ho & Hcl & _) Hs]; split; rewrite ?Hh, ?Hl, ?Hx, ?Ho; try done.
  - intros i c Hi. destruct (Hc i c Hi). split; try done. auto.
  - intros i Hi. rewrite lookup_insert_ne by lia. apply Hf. lia.
  - intros i Hi. apply lookup_insert_None in Hi as [Hi _]. by apply Hn.
  - intros i c Hi. rewrite Hcl. destruct (decide (t_next t = i)) as [<- | Hne].
    + rewrite lookup_insert_eq in Hi. injection Hi as <-. rewrite (Hn (t_next t)) by by apply Hf.
      split; simpl; try done; [lia | by intros [?|?]].
    + rewrite lookup_insert_ne in Hi by done. by apply Hc.
  - intros j Hj. apply Hf in Hj as Hj'. rewrite lookup_insert_ne; [done | congruence].
  - intros j Hj. apply lookup_insert_None in Hj as [Hj Hne].
    rewrite (about_touched i), decide_False, app_nil_r by done. by apply Hn.
  - intros j c1 Hj. rewrite (about_touched i) by done. rewrite Hcl. destruct (decide (i = j)) as [<- | Hne].
    + rewrite lookup_insert_eq in Hj. injection Hj as <-. by eapply conn_step_ok; [apply Hc |].
    + rewrite lookup_insert_ne in Hj by done. rewrite app_nil_r. by apply Hc.
Qed.

Lemma runs_inv t : runs t → tinv t.
Proof.
  intros (self & allow & outBuf & Hr). remember (init self allow outBuf) as t0 eqn:Ht.
  assert (tinv t0) as H0 by (by subst). clear Ht. induction Hr as [| x y z [a Ha] _ IH]; [done |].
  by apply IH, (effect_inv x), H0; eapply exec_effect.
Qed.

(** *** What a step leaves alone *)

Lemma conn_step_identity closed outBuf i c c' evs :
  conn_step closed outBuf i c c' evs → c_device c' = c_device c ∧ c_hello c' = c_hello c.
Proof.
  assert (∀ c0 err, c_device c0 = c_device c → c_hello c0 = c_hello c →
    c_device (closeWith c0 err) = c_device c ∧ c_hello (closeWith c0 err) = c_hello c) as Hcl
    by (intros c0 err ? ?; unfold closeWith; by destruct (c_closed c0)).
  destruct 1; try done; try by apply Hcl.
  - unfold read_turn, read_exit. destruct (ReadFrame (c_in c)) as [[[typ payload] | []] r]; try by apply Hcl.
    destruct (recv_action typ); [by apply Hcl | | done]. by destruct (DecodeMessage typ payload); [| apply Hcl].
  - unfold Send, enqueue. destruct (c_closed c), (sendable outBuf c), pick, (outBuf =? 0)%nat; simpl;
      first [done | by apply Hcl].
  - unfold write_turn, write_exit. destruct (WriteMessage (c_out c) m); [| by apply Hcl].
    by destruct (sent && negb (c_closed c)); [| apply Hcl].
Qed.

(** closeOnce: a closed connection stays closed, with the cause it was closed with. *)
Lemma conn_step_closed closed outBuf i c c' evs :
  conn_step closed outBuf i c c' evs → c_closed c = true → c_closed c' = true ∧ c_err c' = c_err c.
Proof.
  intros Hs Hc. assert (∀ c0 err, c_closed c0 = c_closed c → c_err c0 = c_err c →
    c_closed (closeWith c0 err) = true ∧ c_err (closeWith c0 err) = c_err c) as Hcl.
  { intros c0 err H1 H2. unfold closeWith. rewrite Hc in H1. by rewrite H1. }
  destruct Hs; try done; try by apply Hcl.
  - unfold read_turn, read_exit. destruct (ReadFrame (c_in c)) as [[[typ payload] | []] r]; try by apply Hcl.
    destruct (recv_action typ); [by apply Hcl | | done]. by destruct (DecodeMessage typ payload); [| apply Hcl].
  - unfold Send, enqueue. rewrite Hc. destruct (sendable outBuf c && pick); simpl; [| done].
    by destruct (outBuf =? 0)%nat.
  - unfold write_turn, write_exit. destruct (WriteMessage (c_out c) m); [| by apply Hcl].
    by destruct (sent && negb (c_closed c)); [| apply Hcl].
Qed.

Lemma effect_conn t t' i c :
  tinv t → effect t t' → t_heap t !! i = Some c →
  ∃ c' evs, t_heap t' !! i = Some c' ∧ about i (t_log t') = about i (t_log t) ++ evs ∧
    conn_step (t_closed t) (t_outBuf t) i c c' evs.
Proof.
  intros [Hf _ _] He Hc. destruct He as [(Hh & Hl & _) | id h r Hh _ _ Hl _ _ _ | j cj c' evs Hj (Hh & Hl & Hev & _) Hs].
  - exists c, []. rewrite Hh, Hl, app_nil_r. split_and!; [done | done | by constructor].
  - exists c, []. rewrite Hh, Hl, app_nil_r. rewrite lookup_insert_ne; [split_and!; [done | done | by constructor] |].
    intros <-. by rewrite (Hf (t_next t)) in Hc.
  - rewrite Hh, Hl, (about_touched j) by done. destruct (decide (j = i)) as [<- | Hne].
    + exists c', evs. rewrite lookup_insert_eq. simplify_eq. done.
    + exists c, []. rewrite lookup_insert_ne by done. split_and!; [done | done | by constructor].
Qed.

(** Every run of steps is a run of steps of each connection in it. *)
Lemma rtc_conn (P : Conn → list TEvent → Prop) t t' i c :
  (∀ closed outBuf c1 h c2 evs, P c1 h → conn_step closed outBuf i c1 c2 evs → P c2 (h ++ evs)) →
  tinv t → rtc tstep t t' → t_heap t !! i = Some c → P c (about i (t_log t)) →
  ∃ c', t_heap t' !! i = Some c' ∧ P c' (about i (t_log t')).
Proof.
  intros Hstep Hi Hr. revert c. induction Hr as [| x y z [a Ha] _ IH]; intros c Hc HP; [by eauto |].
  apply exec_effect in Ha. destruct (effect_conn x y i c Hi Ha Hc) as (c' & evs & Hc' & Hl & Hs).
  apply (IH (effect_inv x y Ha Hi) c' Hc'). rewrite Hl. by eapply Hstep.
Qed.

(** ** What arrives on a stream *)

(** The messages a reader dispatches from a stream, up to its end or its first fatal
    frame: [n] bounds the frames, which are fewer than the bytes. *)
Fixpoint dispatched (n : nat) (r : list bytes) : list Message :=
  match n with
  | O => []
  | S n =>
    match ReadFrame r with
    | (Err _, _) => []
    | (Ok (typ, payload), r') =>
      match recv_action typ with
      | ActionFatal => []
      | ActionSkip => dispatched n r'
      | ActionDispatch =>
        match DecodeMessage typ payload with Err _ => [] | Ok m => m :: dispatched n r' end
      end
    end
  end.
Definition stream_messages (r : list bytes) : list Message := dispatched (S (length (concat r))) r.

Lemma ReadFrame_shrinks r f r' : ReadFrame r = (Ok f, r') → (length (concat r') < length (concat r))%nat.
Proof.
  intros Hr. destruct (ReadFrame_parts r f.1 f.2 r') as (_ & _ & ->); [by destruct f |]. unfold frame_bytes.
  rewrite !length_app, length_be_enc. simpl. lia.
Qed.
Lemma dispatched_fuel n k r : (length (concat r) < n)%nat → (length (concat r) < k)%nat → dispatched n r = dispatched k r.
Proof.
  revert k r. induction n as [|n IH]; intros k r Hn Hk; [lia |]. destruct k as [|k]; [lia |]. cbn [dispatched].
  destruct (ReadFrame r) as [[[typ payload] | e] r'] eqn:Hr; [| done]. apply ReadFrame_shrinks in Hr.
  rewrite (IH k r') by lia. done.
Qed.
Lemma stream_messages_unfold r :
  stream_messages r =
    match ReadFrame r with
    | (Err _, _) => []
    | (Ok (typ, payload), r') =>
      match recv_action typ with
      | ActionFatal => []
      | ActionSkip => stream_messages r'
      | ActionDispatch => match DecodeMessage typ payload with Err _ => [] | Ok m => m :: stream_messages r' end
      end
    end.
Proof.
  unfold stream_messages at 1. cbn [dispatched].
  destruct (ReadFrame r) as [[[typ payload] | e] r'] eqn:Hr; [| done]. apply ReadFrame_shrinks in Hr.
  unfold stream_messages. by rewrite (dispatched_fuel (length (concat r)) (S (length (concat r'))) r') by lia.
Qed.

Fixpoint write_messages (w : bytes) (ms : list Message) : Result WriteError bytes :=
  match ms with
  | [] => Ok w
  | m :: ms => match WriteMessage w m with Err e => Err e | Ok w' => write_messages w' ms end
  end.
Definition frame_of (m : Message) : bytes := frame_bytes (msg_type m) (payload_of m).
Definition sendable_msg (m : Message) : Prop :=
  msg_width m ∧ msg_strings_ok m ∧ FrameTypeLen + Z.of_nat (length (payload_of m)) ≤ MaxFrameLen.

Lemma WriteMessage_frame w m w' :
  WriteMessage w m = Ok w' →
  w' = w ++ frame_of m ∧ msg_strings_ok m ∧ FrameTypeLen + Z.of_nat (length (payload_of m)) ≤ MaxFrameLen.
Proof.
  unfold WriteMessage. destruct (EncodeMessage m) as [p |] eqn:He; [| done]. apply EncodeMessage_ok in He as [-> Hs].
  destruct (WriteFrame w (msg_type m) (payload_of m)) as [w1 |] eqn:Hw; [| done]. intros [= <-].
  by apply WriteFrame_ok in Hw as [-> Hl].
Qed.
Lemma write_messages_flat ms w w' :
  Forall msg_width ms → write_messages w ms = Ok w' → w' = w ++ concat (frame_of <$> ms) ∧ Forall sendable_msg ms.
Proof.
  intros Hf. revert w. induction Hf as [|m ms Hm _ IH]; intros w Hw; cbn [write_messages] in Hw.
  - apply Ok_inj in Hw as ->. split; [symmetry; apply app_nil_r | constructor].
  - destruct (WriteMessage w m) as [w1 |] eqn:H1; [| done]. apply WriteMessage_frame in H1 as (-> & Hs & Hl).
    apply IH in Hw as [-> Hf]. rewrite <- app_assoc. split; [done | by constructor].
Qed.

Lemma msg_type_dispatch m : recv_action (msg_type m) = ActionDispatch ∧ in_width 8 (msg_type m).
Proof. destruct m; (split; [reflexivity | by vm_compute]). Qed.

(** A frame that starts a prefix of another frame's bytes is not shorter. *)
Lemma frame_prefix_length t p rest t' p' rest' s :
  FrameTypeLen + Z.of_nat (length p) ≤ MaxFrameLen → FrameTypeLen + Z.of_nat (length p') ≤ MaxFrameLen →
  frame_bytes t p ++ rest ++ s = frame_bytes t' p' ++ rest' → length p = length p'.
Proof.
  rewrite MaxFrameLen_val. unfold frame_bytes, FrameTypeLen. intros Hl Hl' Heq.
  rewrite <- !app_assoc in Heq. apply (f_equal (take 4)) in Heq. rewrite !take_be_enc in Heq.
  apply (f_equal be_dec) in Heq. rewrite !wrap_small in Heq by (width; lia).
  rewrite !be_dec_enc_small in Heq by (change (256 ^ Z.of_nat 4) with 4294967296; lia). lia.
Qed.

Lemma stream_messages_nil r : concat r = [] → stream_messages r = [].
Proof.
  intros Hnil. rewrite stream_messages_unfold. destruct (ReadFrame r) as [[[t p] | e] r'] eqn:Hrf; [| done].
  apply ReadFrame_shrinks in Hrf. rewrite Hnil in Hrf. simpl in Hrf. lia.
Qed.

(** What is dispatched from a prefix of the bytes a peer wrote is a prefix of the
    messages it sent. *)
Lemma stream_messages_sent ms r s :
  Forall sendable_msg ms → concat r ++ s = concat (frame_of <$> ms) →
  stream_messages r `prefix_of` ms ∧ (s = [] → stream_messages r = ms).
Proof.
  intros Hf. revert r. induction Hf as [|m ms (Hw & Hs & Hl) _ IH]; intros r Hr.
  - rewrite stream_messages_nil by (by destruct (concat r)). done.
  - destruct (msg_type_dispatch m) as [Ha Ht].
    rewrite stream_messages_unfold. destruct (decide (length (frame_of m) ≤ length (concat r))%nat) as [Hlen | Hlen].
    + assert (concat r = frame_of m ++ drop (length (frame_of m)) (concat r)) as Hcut.
      { apply (f_equal (take (length (frame_of m)))) in Hr. rewrite take_app_le in Hr by done.
        rewrite fmap_cons in Hr. cbn [concat] in Hr. rewrite take_app_length in Hr. rewrite <- Hr at 1. by rewrite take_drop. }
      destruct (ReadFrame_front r (msg_type m) (payload_of m) _ Ht Hl Hcut) as (r' & -> & Hr').
      rewrite Ha, (Decode_payload_of m Hw Hs). destruct (IH r') as [Hp He].
      * rewrite Hr'. rewrite Hcut, fmap_cons in Hr. cbn [concat] in Hr. rewrite <- app_assoc in Hr. by apply app_inv_head in Hr.
      * split; [by apply prefix_cons | intros Hnil; by rewrite He].
    + split; [| intros ->; destruct Hlen; rewrite app_nil_r in Hr; rewrite Hr, fmap_cons; cbn [concat]; rewrite length_app; apply Nat.le_add_r].
      destruct (ReadFrame r) as [[[t p] | e] r'] eqn:Hrf; [| apply prefix_nil].
      exfalso. apply ReadFrame_parts in Hrf as (_ & Hl1 & Hcat). apply Hlen. rewrite Hcat in Hr |- *.
      rewrite <- app_assoc, fmap_cons in Hr. cbn [concat] in Hr. apply (frame_prefix_length _ _ _ _ _ _ _ Hl1 Hl) in Hr.
      rewrite length_app. unfold frame_of, frame_bytes. rewrite !length_app, !length_be_enc. cbn [length]. lia.
Qed.

(** *** The reader loses nothing and invents nothing *)
Definition pending (c : Conn) : list Message := match c_reader c with Delivering m => [m] | _ => [] end.
Definition flows (all : list Message) (c : Conn) (h : list TEvent) : Prop :=
  ∃ rest, all = received h ++ pending c ++ rest ∧ (c_reader c ≠ ReaderDone → rest = stream_messages (c_in c)).

Lemma closeWith_io c err : c_reader (closeWith c err) = c_reader c ∧ c_in (closeWith c err) = c_in c.
Proof. unfold closeWith. by destruct (c_closed c). Qed.

(** A step that leaves the reader alone emits no message. *)
Lemma flows_same all c c' h evs :
  flows all c h → c_reader c' = c_reader c → c_in c' = c_in c → received evs = [] → flows all c' (h ++ evs).
Proof.
  intros (rest & -> & Hr) H1 H2 H3. exists rest. unfold pending, received in *. rewrite H1, H2, omap_app, H3, app_nil_r. done.
Qed.
Lemma flows_exit all c h inp err : flows all c h → flows all (read_exit c inp err) (h ++ []).
Proof.
  intros (rest & -> & _). exists (pending c ++ rest). rewrite app_nil_r. unfold read_exit, pending.
  destruct (closeWith_io (set_io c inp ReaderDone) err) as [-> _]. done.
Qed.

Lemma flows_step all closed outBuf i c h c' evs :
  flows all c h → conn_step closed outBuf i c c' evs → flows all c' (h ++ evs).
Proof.
  intros Hfl Hs.
  assert (∀ c0 err, c_reader c0 = c_reader c → c_in c0 = c_in c → flows all (closeWith c0 err) (h ++ [])) as Hcl.
  { intros c0 err H1 H2. destruct (closeWith_io c0 err). apply (flows_same _ c); [done | congruence.. | done]. }
  destruct Hs as [| | | evs ? ? He | | | evs ? ? He | Hr | inp err Hr | m Hr _ | pick m | | m sent | |];
    try (by apply (flows_same _ c)); try by apply Hcl.
  - unfold read_turn. destruct Hfl as (rest & -> & Hrest). rewrite Hrest, stream_messages_unfold by congruence.
    unfold pending at 1. rewrite Hr, app_nil_l.
    assert (∀ inp err l, flows (received h ++ l) (read_exit c inp err) (h ++ [])) as Hex.
    { intros inp err l. exists l. rewrite app_nil_r. unfold read_exit, pending.
      by destruct (closeWith_io (set_io c inp ReaderDone) err) as [-> _]. }
    destruct (ReadFrame (c_in c)) as [[[typ payload] | []] r]; try apply Hex.
    destruct (recv_action typ); [apply Hex | | exists (stream_messages r); by rewrite app_nil_r].
    destruct (DecodeMessage typ payload); [| apply Hex]. exists (stream_messages r). by rewrite app_nil_r.
  - by apply flows_exit.
  - destruct Hfl as (rest & -> & Hrest). exists rest. rewrite Hrest by congruence. unfold pending at 1, received.
    rewrite Hr, omap_app. simpl. rewrite <- app_assoc. done.
  - unfold Send, enqueue. destruct (c_closed c), (sendable outBuf c), pick, (outBuf =? 0)%nat; simpl;
      first [by apply (flows_same _ c) | by apply Hcl].
  - unfold write_turn, write_exit. destruct (WriteMessage (c_out c) m); [| by apply Hcl].
    destruct (sent && negb (c_closed c)); [by apply (flows_same _ c) | by apply Hcl].
Qed.

(** *** Trust *)
Lemma exec_pinned t a t' id :
  exec t a = Some t' → id ∈ t_pinned t' →
  id ∈ t_pinned t ∨ (Allowed (t_allow t) id = true ∧ ∃ raw rest, id = DeviceIDFromCert raw ∧ a = AHandshake true (raw :: rest)).
Proof.
  intros He Hid. unfold exec in He.
  destruct a as [| | tls certs | k my wrote r | i | i g | i | i | i | i | i | i m p | i | i sent | i | i | i g | | | | |];
    cbv beta iota in He;
    try (destruct (t_heap t !! i) as [c |]; [cbn [mbind option_bind] in He | done];
         first [apply exec_lifecycle_touches in He as (? & ? & (_ & _ & _ & _ & _ & _ & Hp) & _)
               | apply exec_io_touches in He as (? & ? & (_ & _ & _ & _ & _ & _ & Hp) & _)];
         left; congruence).
  - simpl in He. simplify_eq. by left.
  - simpl in He. simplify_eq. by left.
  - cbn [exec_trust] in He. unfold handshake in He. destruct tls; simpl in He; [| by simplify_eq; left].
    destruct certs as [|raw certs]; simpl in He; [by simplify_eq; left |].
    destruct (Allowed (t_allow t) (DeviceIDFromCert raw)) eqn:Ha; simpl in He; simplify_eq; [| by left].
    simpl in Hid. apply elem_of_app in Hid as [? | Hid%list_elem_of_singleton]; [by left |]. subst. right. eauto 6.
  - cbn [exec_trust] in He. destruct (t_pinned t !! k) as [d |]; simplify_eq/=. left.
    destruct (exchange _ my d wrote r) as [[[w h] r'] |]; simplify_eq; simpl in Hid;
      by eapply elem_of_submseteq; [| apply sublist_submseteq, sublist_delete].
  - simpl in He. simplify_eq. by left.
  - simpl in He. destruct (t_closing t); simplify_eq. by left.
  - simpl in He. destruct (_ && _); simplify_eq. by left.
  - simpl in He. destruct (t_toClose t) as [|i rest]; [done |]. destruct (_ && _); [| done].
    destruct (t_heap t !! i); simplify_eq/=. by left.
  - simpl in He. destruct (t_queue t); simplify_eq. by left.
Qed.

(** In the run from [t0] to [t] a TLS handshake completed with a first certificate
    that hashes to [id], while [id] was on the allow-list. *)
Definition vouched (t0 t : Transport) (id : DeviceID) : Prop :=
  ∃ raw rest t1 t2, rtc tstep t0 t1 ∧ exec t1 (AHandshake true (raw :: rest)) = Some t2 ∧ rtc tstep t2 t ∧
    id = DeviceIDFromCert raw ∧ Allowed (t_allow t1) id = true.
Definition trusted (t0 t : Transport) : Prop :=
  (∀ id, id ∈ t_pinned t → vouched t0 t id) ∧
  (∀ i c, t_heap t !! i = Some c → vouched t0 t (c_device c) ∧ h_DeviceID (c_hello c) = c_device c).

Lemma vouched_step t0 t t' id : vouched t0 t id → tstep t t' → vouched t0 t' id.
Proof. intros (raw & rest & t1 & t2 & H1 & H2 & H3 & ?) Hs. exists raw, rest, t1, t2. split_and!; [done | done | by eapply rtc_r | naive_solver..]. Qed.

Lemma trusted_step t0 t t' : rtc tstep t0 t → trusted t0 t → tstep t t' → trusted t0 t'.
Proof.
  intros Hr [Hp Hc] Hs. destruct Hs as [a Ha]. assert (tstep t t') as Hs by by exists a.
  split.
  - intros id Hid. destruct (exec_pinned t a t' id Ha Hid) as [Hin | (Hal & raw & rest & Hraw & ->)].
    + by eapply vouched_step; [apply Hp |].
    + exists raw, rest, t, t'. split_and!; [done | done | apply rtc_refl | done | done].
  - intros i c Hi. pose proof (exec_effect t a t' Ha) as He.
    destruct He as [(Hh & _) | id h r Hh Hid Hpin _ _ _ _ | j cj c' evs Hj (Hh & _) Hst]; rewrite Hh in Hi.
    + destruct (Hc i c Hi). split; [by eapply vouched_step | done].
    + destruct (decide (t_next t = i)) as [<- | Hne].
      * rewrite lookup_insert_eq in Hi. simplify_eq. simpl. split; [by eapply vouched_step; [apply Hp |] | done].
      * rewrite lookup_insert_ne in Hi by done. destruct (Hc i c Hi). split; [by eapply vouched_step | done].
    + destruct (decide (j = i)) as [<- | Hne].
      * rewrite lookup_insert_eq in Hi. simplify_eq. apply conn_step_identity in Hst as [Hd Hhe].
        destruct (Hc j cj Hj). rewrite Hd, Hhe. split; [by eapply vouched_step | done].
      * rewrite lookup_insert_ne in Hi by done. destruct (Hc i c Hi). split; [by eapply vouched_step | done].
Qed.

End invariant.

(** ** A closed run *)

Lemma exec_all_rtc `{Digest} acts t t' : exec_all t acts = Some t' → rtc tstep t t'.
Proof.
  unfold exec_all. revert t. induction acts as [|a acts IH]; intros t He; simpl in He; [by simplify_eq |].
  destruct (exec t a) as [t1 |] eqn:Ha.
  - eapply rtc_l; [by exists a | by apply IH].
  - exfalso. clear IH Ha. induction acts; simpl in He; [done | by apply IHacts].
Qed.

Section story.
#[local] Existing Instance toy_digest.

Definition der_B : bytes := go! "certificate of B".
Definition id_B : DeviceID := DeviceIDFromCert der_B.
Definition hello_A : Hello := mkHello 1 zero32 (go! "folder") zero32 0.
Definition hello_B : Hello := mkHello 1 id_B (go! "folder") zero32 0.
(** What B writes after TLS: its HELLO, then a ping and a close, torn in two. *)
Definition from_B : list bytes :=
  match write_messages [] [MHello hello_B], write_messages [] [MPing; MClose (go! "bye")] with
  | Ok h, Ok w => [h ++ take 3 w; drop 3 w]
  | _, _ => []
  end.
Definition alone : Transport := init zero32 (NewAllowlist [id_B]) 2.
Definition at_handshake : list act := [AHandshake true [der_B]; AHello 0 hello_A true from_B].
Definition t_new : Transport := default alone (exec_all alone at_handshake).
Definition talk : list act := [ARegister 0; ARead 0; AConnected 0 false; AOpen 0; ADeliver 0; ANext; ARead 0; ADeliver 0].
Definition t_talking : Transport := default alone (exec_all t_new talk).
Definition leave : list act := [ARead 0; AWriterStop 0; AReap 0; ADisconnected 0 false].
Definition t_left : Transport := default alone (exec_all t_talking leave).
Definition conn0 (t : Transport) : Conn := default (newConn [] hello_A []) (t_heap t !! 0%nat).

Example t_left_log :
  t_log t_left = [Connected 0 id_B; Received 0 id_B MPing; Received 0 id_B (MClose (go! "bye")); Disconnected 0 id_B None].
Proof. vm_compute. reflexivity. Qed.

Lemma story_runs :
  rtc tstep alone t_new ∧ rtc tstep t_new t_talking ∧ rtc tstep t_talking t_left ∧
  t_heap t_new !! 0%nat = Some (conn0 t_new) ∧ t_heap t_talking !! 0%nat = Some (conn0 t_talking) ∧
  t_heap t_left !! 0%nat = Some (conn0 t_left).
Proof.
  split_and!; [| | | vm_compute; reflexivity..].
  - apply (exec_all_rtc at_handshake). vm_compute. reflexivity.
  - apply (exec_all_rtc talk). vm_compute. reflexivity.
  - apply (exec_all_rtc leave). vm_compute. reflexivity.
Qed.
Lemma t_left_runs : runs t_left.
Proof.
  destruct story_runs as (H1 & H2 & H3 & _). exists zero32, (NewAllowlist [id_B]), 2%nat.
  by etrans; [| etrans].
Qed.
End story.

(** The history of a connection follows from its phase. *)
Lemma conn_history `{Digest} t i c :
  runs t → t_closed t = false → t_heap t !! i = Some c → history i (c_device c) (c_err c) (about i (t_log t)).
Proof.
  intros Hr Hcl Hi. pose proof (ti_conn t (runs_inv t Hr) i c Hi) as Hok.
  pose proof (co_history _ _ _ _ _ Hok Hcl) as Hh. unfold phase_history, reported in Hh.
  destruct (c_reg c), (c_sup c); cbn [app] in Hh; repeat match goal with E : _ ∨ _ |- _ => destruct E | E : ∃ _, _ |- _ => destruct E end; subst;
    try match goal with E : about _ _ = _ |- _ => rewrite E end; rewrite ?app_nil_r;
    try constructor; first [apply (hist_open _ _ _ []) | apply (hist_closed _ _ _ [])].
Qed.

(** * Properties *)

(** C26: a connection exists only for a device that proved itself: for every connection
    object there is a step of the run at which a TLS handshake completed, presenting a
    list of certificates whose first one has the SHA-256 that is the connection's
    device; that device was on the allow-list at that very step; and the HELLO the
    connection carries names the same device. *)
Theorem connections_authenticated `{Digest} self allow outBuf t i c :
  rtc tstep (init self allow outBuf) t → t_heap t !! i = Some c →
  h_DeviceID (c_hello c) = c_device c ∧
  ∃ raw rest t1 t2,
    rtc tstep (init self allow outBuf) t1 ∧ exec t1 (AHandshake true (raw :: rest)) = Some t2 ∧ rtc tstep t2 t ∧
    c_device c = DeviceIDFromCert raw ∧ Allowed (t_allow t1) (c_device c) = true.
Proof.
  intros Hr. revert i c. assert (trusted (init self allow outBuf) t) as [_ Hc].
  { revert t Hr. apply rtc_ind_r; [split; [by intros id Hid%not_elem_of_nil | done] |]. intros t t' Hr Hs IH. by apply (trusted_step _ t). }
  intros i c Hi. by destruct (Hc i c Hi) as [? ?].
Qed.

#[local] Existing Instance toy_digest.
Lemma connections_authenticated_witness :
  h_DeviceID (c_hello (conn0 t_left)) = id_B ∧ ∃ raw rest t1 t2, exec t1 (AHandshake true (raw :: rest)) = Some t2 ∧ id_B = DeviceIDFromCert raw.
Proof.
  destruct story_runs as (H1 & H2 & H3 & _ & _ & Hl).
  destruct (connections_authenticated zero32 (NewAllowlist [id_B]) 2 t_left 0%nat (conn0 t_left)
    (transitivity H1 (transitivity H2 H3)) Hl) as (Hh & raw & rest & t1 & t2 & _ & He & _ & Hraw & _).
  split; [exact Hh |]. exists raw, rest, t1, t2. split; [exact He | exact Hraw].
Defined.

(** C28: the events the engine receives about a connection while the transport is open
    follow the protocol: one PeerConnected, then the connection's messages, then one
    PeerDisconnected with the recorded close cause; no message precedes the
    announcement, none follows the disconnect. The only exception is the history
    whose disconnect came before the announcement, which carries no message. *)
Theorem peer_history `{Digest} t i c :
  runs t → t_closed t = false → t_heap t !! i = Some c → history i (c_device c) (c_err c) (about i (t_log t)).
Proof. by apply conn_history. Qed.

Lemma peer_history_witness : history 0 id_B None (about 0 (t_log t_left)).
Proof.
  destruct story_runs as (_ & _ & _ & _ & _ & Hl).
  exact (peer_history t_left 0%nat (conn0 t_left) t_left_runs eq_refl Hl).
Defined.

(** C29: the engine sees exactly what the peer wrote: whatever chunks the bytes arrive
    in, and wherever the stream is cut, the messages delivered from a connection are a
    prefix of the messages the peer sent, in order and without repetition; and all of
    them once the reader has consumed an uncut stream. *)
Theorem stream_delivered `{Digest} t t' i id hello r c' ms w :
  runs t → t_heap t !! i = Some (newConn id hello r) → about i (t_log t) = [] →
  Forall msg_width ms → write_messages [] ms = Ok w → concat r `prefix_of` w →
  rtc tstep t t' → t_heap t' !! i = Some c' →
  received (about i (t_log t')) `prefix_of` ms ∧
  (concat r = w → c_reader c' = Reading → concat (c_in c') = [] → received (about i (t_log t')) = ms).
Proof.
  intros Hruns Hi Hnone Hw Hwr [s Hs] Hr Hc'. apply write_messages_flat in Hwr as [-> Hok]; [| done].
  destruct (stream_messages_sent ms r s Hok (eq_sym Hs)) as [Hpre Hall].
  destruct (rtc_conn (flows (stream_messages r)) t t' i (newConn id hello r)) as (c1 & Hc1 & rest & Heq & Hrest).
  - intros closed ob c1 h c2 evs. apply flows_step.
  - by apply runs_inv.
  - done.
  - done.
  - rewrite Hnone. by exists (stream_messages r).
  - assert (c1 = c') as -> by congruence. split.
    + etrans; [| exact Hpre]. rewrite Heq. by apply prefix_app_r.
    + intros Hcr Hrd Hin. rewrite <- Hall; [| rewrite Hcr in Hs; symmetry; apply (app_inv_head (concat (frame_of <$> ms))); by rewrite app_nil_r].
      rewrite Heq. unfold pending. rewrite Hrd, Hrest by congruence.
      by rewrite stream_messages_nil, !app_nil_r by done.
Qed.

Lemma stream_delivered_witness : received (about 0 (t_log t_talking)) = [MPing; MClose (go! "bye")].
Proof.
  destruct story_runs as (H1 & H2 & _ & Hn & Ht & _).
  refine (proj2 (stream_delivered t_new t_talking 0%nat id_B hello_B (c_in (conn0 t_new)) (conn0 t_talking)
    [MPing; MClose (go! "bye")] (concat (c_in (conn0 t_new))) _ _ _ _ _ (PreOrder_Reflexive _) H2 Ht) _ _ _).
  - by exists zero32, (NewAllowlist [id_B]), 2%nat.
  - vm_compute. reflexivity.
  - vm_compute. reflexivity.
  - by repeat constructor.
  - vm_compute. reflexivity.
  - reflexivity.
  - vm_compute. reflexivity.
  - vm_compute. reflexivity.
Defined.

(** C30: sending never blocks the caller and never drops a message silently: in every
    state and for every resolution of the select, Send returns; the outbound queue
    never exceeds its bound; an accepted message is queued behind the others (or in
    the writer's hands), and a refused one means the connection is closed. *)
Theorem Send_sheds `{Digest} t i c m pick :
  runs t → t_heap t !! i = Some c →
  let r := Send (t_outBuf t) pick c m in
  exec t (ASend i m pick) = Some (put t i r.1) ∧
  (length (c_outbound r.1) ≤ t_outBuf t)%nat ∧
  (if r.2 then c_outbound r.1 = c_outbound c ++ [m] ∨ (c_writer c = Waiting ∧ c_writer r.1 = Writing m)
   else c_closed r.1 = true ∧ c_outbound r.1 = c_outbound c ∧ (c_closed c = false → c_err r.1 = Some ErrOutboundOverflow)).
Proof.
  intros Hr Hi. cbv zeta. split_and!.
  - unfold exec. by rewrite Hi.
  - apply (co_outbound (t_closed t) _ i _ (about i (t_log t))), ok_send, (ti_conn t (runs_inv t Hr) i c Hi).
  - unfold Send, sendable, enqueue, closeWith.
    destruct (c_closed c) eqn:Hc, (Nat.eqb_spec (t_outBuf t) 0), (Nat.ltb_spec (length (c_outbound c)) (t_outBuf t)),
      (c_writer c) eqn:Hw, pick; simpl; rewrite ?Hc; simpl; first [lia | by auto | done].
Qed.

Lemma Send_sheds_witness :
  (Send 2 true (conn0 t_talking) MPing).2 = true ∧
  c_outbound (Send 2 true (conn0 t_talking) MPing).1 = [MPing].
Proof.
  destruct story_runs as (H1 & H2 & _ & _ & Ht & _).
  destruct (Send_sheds t_talking 0%nat (conn0 t_talking) MPing true) as (_ & _ & Hq).
  - exists zero32, (NewAllowlist [id_B]), 2%nat. by etrans.
  - exact Ht.
  - split; [vm_compute; reflexivity |].
    replace (Send (t_outBuf t_talking) true (conn0 t_talking) MPing) with (Send 2 true (conn0 t_talking) MPing) in Hq by reflexivity.
    vm_compute in Hq. destruct Hq as [Hq | [_ Hq]]; [exact Hq | discriminate].
Defined.

(** the first cause a connection is closed with is the one it keeps: whatever the
    goroutines do afterwards, it stays closed with that cause. *)
Theorem close_is_final `{Digest} t t' i c :
  runs t → rtc tstep t t' → t_heap t !! i = Some c → c_closed c = true →
  ∃ c', t_heap t' !! i = Some c' ∧ c_closed c' = true ∧ c_err c' = c_err c ∧ c_device c' = c_device c.
Proof.
  intros Hruns Hr Hi Hc.
  apply (rtc_conn (λ c1 _, c_closed c1 = true ∧ c_err c1 = c_err c ∧ c_device c1 = c_device c) t t' i c);
    [| by apply runs_inv | done | done | done].
  intros closed ob c1 h c2 evs (Hc1 & He & Hd) Hs. destruct (conn_step_closed _ _ _ _ _ _ Hs Hc1) as [-> ->].
  destruct (conn_step_identity _ _ _ _ _ _ Hs) as [-> _]. done.
Qed.

Lemma close_is_final_witness :
  ∃ c', t_heap t_left !! 0%nat = Some c' ∧ c_closed c' = true ∧ c_err c' = None.
Proof.
  destruct (close_is_final t_left t_left 0%nat (conn0 t_left) t_left_runs (rtc_refl _ _) (proj2 (proj2 (proj2 (proj2 (proj2 story_runs)))))
    eq_refl) as (c' & H1 & H2 & H3 & _).
  exists c'. split; [exact H1 | split; [exact H2 | exact H3]].
Defined.
