(* ===== verification/Link.v ===== *)
(** * Link: the transport's events drive the engine

    A node is a transport and an engine; its steps are the actions of the transport's
    goroutines, the engine's own steps, and the engine's loop taking the next event
    from the transport's queue. The map of peers is then exactly what the taken
    events say, and a message is never dropped for want of its peer, as long as a
    device has one connection. The disconnect that overtakes its connect (the
    history [hist_overtaken]) leaves a peer that is never forgotten. *)
From S2P Require Import Prelude Bytes VersionVector Framing Messages Windows Pathnorm Hashing.
From S2P Require Import FileInfo Tree Oracle Differ Conflict Scanner Disk Transfer Replica Engine.
From S2P Require Import Story Invariant Reconcile Progress Work Transport.

Section link.
Context `{OS, Digest, Unicode}.
Context (cfg : Config).

(** The Event the engine receives: a connect carries the connection object. *)
Definition engine_event (t : Transport) (ev : TEvent) : TransportEvent :=
  match ev with
  | Connected i id => PeerConnected ((λ c, (id, c_hello c)) <$> t_heap t !! i)
  | Disconnected i id err => PeerDisconnected id
  | Received i id m => PeerMessage id m
  end.

Inductive nstep : Transport * Engine → Transport * Engine → Prop :=
| nstep_transport t e a t' : a ≠ ANext → exec t a = Some t' → nstep (t, e) (t', e)
| nstep_event t e t' ev q : t_queue t = ev :: q → exec t ANext = Some t' →
    nstep (t, e) (t', handleTransportEvent cfg e (engine_event t ev))
| nstep_engine t e e' : own_step cfg e e' → nstep (t, e) (t, e').

Definition nreach (n : Transport * Engine) : Prop :=
  ∃ self allow outBuf snap d e0, New cfg snap d = Ok e0 ∧ rtc nstep (init self allow outBuf, e0) n.

(** ** What the taken events say *)

(** A connect or a disconnect of the device. *)
Definition lifecycle (id : DeviceID) (ev : TEvent) : option bool :=
  match ev with
  | Connected _ d => if decide (d = id) then Some true else None
  | Disconnected _ d _ => if decide (d = id) then Some false else None
  | Received _ _ _ => None
  end.
Definition up (id : DeviceID) (log : list TEvent) : bool := default false (last (omap (lifecycle id) log)).

Lemma up_snoc id log ev : up id (log ++ [ev]) = match lifecycle id ev with Some b => b | None => up id log end.
Proof.
  unfold up. rewrite omap_app. cbn. destruct (lifecycle id ev) as [b |]; [by rewrite last_snoc | by rewrite app_nil_r].
Qed.

Lemma exec_taken t a t' : a ≠ ANext → exec t a = Some t' → t_taken t' = t_taken t.
Proof.
  assert (∀ i c ev ab t', emit (put t i c) ev ab = Some t' → t_taken t' = t_taken t) as Hemit.
  { intros i c ev ab t1 He. apply emit_cases in He as [(_ & _ & ->) | [_ Hp]]; [done |].
    unfold push in Hp. case_match; [| done]. by injection Hp as <-. }
  intros Hne He. unfold exec in He. destruct a; cbv beta iota in He; try done.
  all: try (destruct (t_heap t !! i) as [c |]; [cbn [mbind option_bind] in He | done]).
  all: unfold exec_trust, exec_lifecycle, exec_io, exec_life in He.
  all: repeat match type of He with
       | emit _ _ _ = _ => by apply Hemit in He
       | push _ _ = _ => unfold push in He
       | context [match ?x with _ => _ end] => destruct x; try done
       end.
  all: try by simplify_eq/=.
  - destruct (t_pinned t !! k) as [id |]; [| done]. cbn [mbind option_bind] in He.
    destruct (exchange _ _ _ _ _) as [[[w h] r'] |]; by simplify_eq/=.
  - destruct (t_heap t !! _) as [c |]; by simplify_eq/=.
Qed.

(** ** The map of peers is what the events say *)

Record ninv (n : Transport * Engine) : Prop := mkNinv {
  ni_runs : runs n.1;
  ni_inv : inv n.2;
  ni_up id : is_Some (e_peers n.2 !! id) ↔ up id (t_taken n.1) = true
}.

Lemma event_conn_known t ev : tinv t → ev ∈ t_log t → is_Some (t_heap t !! event_conn ev).
Proof.
  intros Ht Hev. destruct (t_heap t !! event_conn ev) as [c |] eqn:Hc; [eauto | exfalso].
  pose proof (ti_silent t Ht _ Hc) as Hn. apply (not_elem_of_nil ev). rewrite <- Hn.
  by apply list_elem_of_filter.
Qed.

Lemma event_peers e ev t id :
  inv e → is_Some (t_heap t !! event_conn ev) →
  is_Some (e_peers (handleTransportEvent cfg e (engine_event t ev)) !! id) ↔
    match lifecycle id ev with Some b => b = true | None => is_Some (e_peers e !! id) end.
Proof.
  intros Hi [c Hc]. destruct ev as [i d | i d err | i d m]; cbn [engine_event lifecycle event_conn handleTransportEvent] in *.
  - rewrite Hc. cbn [fmap option_fmap option_map]. assert (∀ e1 a, addPeer e d (c_hello c) = (e1, a) →
      e_peers (onPeerConnected cfg e (Some (d, c_hello c))) = <[d := e_next e]> (e_peers e)) as Hp.
    { intros e1 a Ha. unfold onPeerConnected. rewrite Ha. unfold addPeer in Ha. injection Ha as <- _.
      case_decide; [done |]. by destruct (buildIndex _ _). }
    rewrite (Hp _ _ eq_refl). case_decide as Hd; [subst; rewrite lookup_insert_eq; by split; eauto | by rewrite lookup_insert_ne].
  - unfold removePeer. case_decide as Hd.
    + subst. destruct (e_peers e !! id) as [a |] eqn:Ha; [| rewrite Ha; split; [by intros [? ?] | done]].
      cbn. rewrite lookup_delete_eq. split; [by intros [? ?] | done].
    + destruct (e_peers e !! d) as [a |]; [| done]. cbn. by rewrite lookup_delete_ne.
  - by rewrite (wk_peers _ _ (worked_message cfg e d m Hi)).
Qed.

Lemma ninv_step n n' : ninv n → nstep n n' → ninv n'.
Proof.
  intros [Hr Hi Hu] Hs. destruct Hs as [t e a t' Hne He | t e t' ev q Hq He | t e e' He]; cbn [fst snd] in *.
  - assert (runs t') as Hr' by (destruct Hr as (s & al & ob & Hrt); exists s, al, ob; eapply rtc_r; [done | by exists a]).
    split; [done | done |]. intros id. cbn. by rewrite (exec_taken _ _ _ Hne He).
  - assert (runs t') as Hr' by (destruct Hr as (s & al & ob & Hrt); exists s, al, ob; eapply rtc_r; [done | by exists ANext]).
    split; [done | by apply inv_handleTransportEvent |]. intros id. cbn in *. rewrite Hq in He. injection He as <-. cbn.
    rewrite up_snoc, (event_peers e ev t id Hi); [by destruct (lifecycle id ev) |].
    apply event_conn_known; [by apply runs_inv |]. unfold t_log. rewrite Hq, elem_of_app. right. left.
  - split; [done | by eapply inv_own_step |]. intros id. cbn. by rewrite (peers_own_step cfg e e' Hi He).
Qed.

Lemma nreach_ninv n : nreach n → ninv n.
Proof.
  intros (self & allow & outBuf & snap & d & e0 & Hn & Hr). remember (init self allow outBuf, e0) as n0 eqn:Hn0.
  assert (ninv n0) as H0'.
  { subst. split; cbn; [exists self, allow, outBuf; apply rtc_refl | by eapply inv_New |]. intros id.
    unfold New in Hn. case_decide; [done |]. unfold startupReconcile in Hn. rewrite rbind_Ok in Hn.
    destruct Hn as (prev & _ & Hn). apply rbind_Ok in Hn as (cur & _ & Hn). apply Ok_inj in Hn as <-. cbn.
    rewrite lookup_empty. split; [by intros [? ?] | done]. }
  clear Hn Hn0. induction Hr as [| x y z Hs _ IH]; [done | by eapply IH, ninv_step].
Qed.

(** ** A message finds its peer *)

(** What comes before a message in a connection's history. *)
Lemma history_before i d err h1 h2 id m :
  history i d err (h1 ++ Received i id m :: h2) → id = d ∧ ∃ ms, h1 = Connected i d :: (Received i d <$> ms).
Proof.
  assert (∀ ms h1 h2, (Received i d <$> ms) = h1 ++ Received i id m :: h2 → id = d ∧ ∃ ms', h1 = Received i d <$> ms') as Hmsgs.
  { induction ms as [|x ms IH]; intros [|y h] h' Heq; cbn in Heq; [done | done | |].
    - injection Heq as -> _ _. split; [done | by exists []].
    - injection Heq as <- Heq. destruct (IH h h' Heq) as [-> [ms' ->]]. split; [done | by exists (x :: ms')]. }
  remember (h1 ++ Received i id m :: h2) as h eqn:Hh. intros Hhist.
  assert (Received i id m ∈ h) as Hin by (rewrite Hh, elem_of_app; right; left).
  destruct Hhist as [| ms | ms | |].
  - by apply not_elem_of_nil in Hin.
  - destruct h1 as [|x h1]; [done |]. cbn in Hh. injection Hh as <- Hh. destruct (Hmsgs ms h1 h2 Hh) as [-> [ms' ->]]. eauto.
  - destruct h1 as [|x h1]; [done |]. cbn in Hh. injection Hh as <- Hh.
    destruct (decide (h2 = [])) as [-> | Hne].
    { change (Received i id m :: []) with ([] ++ [Received i id m]) in Hh. rewrite app_nil_l in Hh.
      apply app_inj_tail in Hh as [_ ?]. done. }
    destruct (exists_last Hne) as (h2' & y & ->). change (Received i id m :: h2' ++ [y]) with ((Received i id m :: h2') ++ [y]) in Hh.
    rewrite app_assoc in Hh. apply app_inj_tail in Hh as [Hh _]. destruct (Hmsgs ms h1 h2' Hh) as [-> [ms' ->]]. eauto.
  - by apply list_elem_of_singleton in Hin.
  - apply elem_of_cons in Hin as [? | Hin]; [done | by apply list_elem_of_singleton in Hin].
Qed.

(** Every event about a connection names its device. *)
Definition event_device (ev : TEvent) : DeviceID :=
  match ev with Connected _ d => d | Disconnected _ d _ => d | Received _ d _ => d end.
Lemma history_device i d err h : history i d err h → Forall (λ ev, event_device ev = d) h.
Proof.
  assert (∀ ms, Forall (λ ev, event_device ev = d) (Received i d <$> ms)) as Hm by (intros ms; apply Forall_fmap, Forall_true; done).
  destruct 1; repeat constructor; try done. apply Forall_app. split; [done | by repeat constructor].
Qed.

Lemma omap_about {B} (f : TEvent → option B) i log :
  (∀ ev, ev ∈ log → event_conn ev ≠ i → f ev = None) → omap f log = omap f (about i log).
Proof.
  intros Hf. induction log as [|ev log IH]; [done |]. unfold about. rewrite filter_cons. cbn [omap list_omap].
  assert (omap f log = omap f (about i log)) as Heq by (apply IH; intros; apply Hf; [by right | done]).
  case_decide as Hc; cbn [omap list_omap]; [by destruct (f ev); rewrite Heq |].
  rewrite (Hf ev) by (done || by left). exact Heq.
Qed.


Definition one_each (t : Transport) : Prop :=
  ∀ i j ci cj, t_heap t !! i = Some ci → t_heap t !! j = Some cj → c_device ci = c_device cj → i = j.

Lemma message_peer t e i id m q :
  ninv (t, e) → t_closed t = false → one_each t → t_queue t = Received i id m :: q → up id (t_taken t) = true.
Proof.
  intros [Hr _ _] Hcl Hone Hq. cbn in Hr. pose proof (runs_inv t Hr) as Ht.
  assert (Received i id m ∈ t_log t) as Hin by (unfold t_log; rewrite Hq, elem_of_app; right; left).
  destruct (event_conn_known t _ Ht Hin) as [c Hc]. cbn in Hc.
  assert (∀ j cj, t_heap t !! j = Some cj → history j (c_device cj) (c_err cj) (about j (t_log t))) as Hhist.
  { intros j cj Hj. by apply conn_history. }
  pose proof (Hhist i c Hc) as Hh. unfold t_log in Hh. rewrite Hq in Hh. unfold about in Hh.
  rewrite filter_app, filter_cons_True in Hh by done. apply history_before in Hh as (-> & ms & Htk).
  unfold up. rewrite (omap_about (lifecycle (c_device c)) i).
  - unfold about. rewrite Htk. cbn. rewrite decide_True by done.
    assert (omap (lifecycle (c_device c)) (Received i (c_device c) <$> ms) = []) as ->; [| done].
    clear. by induction ms.
  - intros ev Hev Hne. assert (ev ∈ t_log t) as Hlog by (unfold t_log; rewrite elem_of_app; by left).
    destruct (event_conn_known t ev Ht Hlog) as [cj Hj]. pose proof (history_device _ _ _ _ (Hhist _ _ Hj)) as Hd.
    rewrite Forall_forall in Hd. specialize (Hd ev). assert (event_device ev = c_device cj) as He by (apply Hd, list_elem_of_filter; done).
    assert (c_device cj ≠ c_device c) as Hdne by (intros Heq; apply Hne; by apply (Hone _ _ cj c)).
    destruct ev; cbn [event_device lifecycle] in *; [| | done]; rewrite decide_False; done || congruence.
Qed.
End link.

(** * Properties *)

(** C31: the engine's map of peers is what the transport told it: in every state of a
    node, whatever the interleaving of the transport's goroutines with the engine's
    own steps, a device is on the map exactly when the last connect or disconnect
    taken for it was a connect. And while the transport is open and each device has
    one connection, the next event, when it is a message, finds its device on the
    map with a live state, so that no message is dropped as from an unknown peer. *)
Theorem peers_follow_transport `{OS, Digest, Unicode} cfg t e :
  nreach cfg (t, e) →
  (∀ id, is_Some (e_peers e !! id) ↔ up id (t_taken t) = true) ∧
  (t_closed t = false → one_each t →
   ∀ i id m q, t_queue t = Received i id m :: q →
     ∃ a ps, e_peers e !! id = Some a ∧ e_states e !! a = Some ps ∧ ps_device ps = id ∧ ps_cancelled ps = false).
Proof.
  intros Hn%nreach_ninv. pose proof Hn as [_ Hi Hu]. cbn in Hi, Hu. split; [exact Hu |].
  intros Hcl Hone i id m q Hq. pose proof (message_peer t e i id m q Hn Hcl Hone Hq) as Hup.
  apply Hu in Hup as [a Ha]. destruct (inv_peers e Hi id a Ha) as (ps & Hps & ? & ?). by exists a, ps.
Qed.

Section link_witness.
#[local] Existing Instance toy_digest.

(** *** A node whose peer talks *)
Lemma exec_all_nstep cfg acts t t' e :
  Forall (λ a, a ≠ ANext) acts → exec_all t acts = Some t' → rtc (nstep cfg) (t, e) (t', e).
Proof.
  intros Hf. unfold exec_all. revert t. induction Hf as [|a acts Ha Hf IH]; intros t He; simpl in He; [by simplify_eq |].
  destruct (exec t a) as [t1 |] eqn:Hx.
  - eapply rtc_l; [by apply (nstep_transport cfg t e a t1) | by apply IH].
  - exfalso. clear IH Hx Hf. induction acts; simpl in He; [done | by apply IHacts].
Qed.

Definition listen : list act := [ARegister 0; ARead 0; AConnected 0 false; AOpen 0; ADeliver 0].
Definition t_told : Transport := default alone (exec_all t_new listen).
Definition t_taking : Transport := default alone (exec t_told ANext).
Definition e_taking : Engine := handleTransportEvent home e_start (engine_event t_told (Connected 0 id_B)).

Lemma node_taking : nreach home (t_taking, e_taking).
Proof.
  exists zero32, (NewAllowlist [id_B]), 2%nat, SnapMissing, (holding (go! "v0") 1), e_start. split; [vm_compute; reflexivity |].
  etrans; [apply (exec_all_nstep home at_handshake _ t_new); [by repeat constructor | vm_compute; reflexivity] |].
  etrans; [apply (exec_all_nstep home listen _ t_told); [by repeat constructor | vm_compute; reflexivity] |].
  apply rtc_once, (nstep_event home t_told e_start t_taking (Connected 0 id_B) [Received 0 id_B MPing]); vm_compute; reflexivity.
Qed.

Lemma peers_follow_transport_witness :
  ∃ a ps, e_peers e_taking !! id_B = Some a ∧ e_states e_taking !! a = Some ps ∧ ps_device ps = id_B ∧ ps_cancelled ps = false.
Proof.
  destruct (peers_follow_transport home t_taking e_taking node_taking) as [_ Hm].
  refine (Hm _ _ 0%nat id_B MPing [] _).
  - vm_compute. reflexivity.
  - intros i j ci cj Hi Hj _.
    assert (∀ k c, t_heap t_taking !! k = Some c → k = 0%nat) as H0.
    { intros k c Hk. apply elem_of_map_to_list in Hk.
      assert ((map_to_list (t_heap t_taking)).*1 = [0%nat]) as Hone by (vm_compute; reflexivity).
      apply (list_elem_of_fmap_2 fst) in Hk. rewrite Hone in Hk. by apply list_elem_of_singleton in Hk. }
    by rewrite (H0 i ci Hi), (H0 j cj Hj).
  - vm_compute. reflexivity.
Defined.
(** *** A connection that ends at once *)

Definition hello_only : list bytes := match write_messages [] [MHello hello_B] with Ok h => [h] | Err _ => [] end.
Definition t_met : Transport := default alone (exec_all alone [AHandshake true [der_B]; AHello 0 hello_A true hello_only]).
(** The supervisor that [register] spawned reports the end before [register] has
    announced the connection. *)
Definition overtake : list act :=
  [ARegister 0; ARead 0; AWriterStop 0; AReap 0; ADisconnected 0 false; AConnected 0 false; AOpen 0].
Definition t_over : Transport := default alone (exec_all t_met overtake).
Definition t_over1 : Transport := default alone (exec t_over ANext).
Definition t_over2 : Transport := default alone (exec t_over1 ANext).
Definition e_over : Engine :=
  handleTransportEvent home (handleTransportEvent home e_start (engine_event t_over (Disconnected 0 id_B None)))
    (engine_event t_over1 (Connected 0 id_B)).

(** a peer that is never forgotten: there is a run of a node after which the
    transport has no connection and nothing queued, the only connection there ever
    was is closed and its disconnect reported, and yet the engine holds a live peer
    for the device, so that discovering the device again does not dial it. *)
Theorem zombie_peer :
  nreach home (t_over2, e_over) ∧ t_closed t_over2 = false ∧ t_queue t_over2 = [] ∧ elements (t_conns t_over2) = [] ∧
  (λ c, (c_closed c, c_sup c)) <$> (map_to_list (t_heap t_over2)).*2 = [(true, Reported)] ∧
  is_Some (e_peers e_over !! id_B) ∧ onPeerDiscovered home e_over true id_B true = e_over.
Proof.
  assert (is_Some (e_peers e_over !! id_B)) as Hp by (apply (bool_decide_unpack _); vm_compute; exact I).
  split_and!; [| vm_compute; reflexivity.. | exact Hp |].
  - exists zero32, (NewAllowlist [id_B]), 2%nat, SnapMissing, (holding (go! "v0") 1), e_start. split; [vm_compute; reflexivity |].
    etrans; [apply (exec_all_nstep home [AHandshake true [der_B]; AHello 0 hello_A true hello_only] _ t_met);
      [by repeat constructor | vm_compute; reflexivity] |].
    etrans; [apply (exec_all_nstep home overtake _ t_over); [by repeat constructor | vm_compute; reflexivity] |].
    eapply rtc_l; [apply (nstep_event home t_over e_start t_over1 (Disconnected 0 id_B None) [Connected 0 id_B]); vm_compute; reflexivity |].
    apply rtc_once, (nstep_event home t_over1 _ t_over2 (Connected 0 id_B) []); vm_compute; reflexivity.
  - unfold onPeerDiscovered. destruct (negb (cfg_hasTransport home) || negb true); [done |].
    destruct (_ || _); [done |]. by rewrite (bool_decide_eq_true_2 (is_Some (e_peers e_over !! id_B))).
Qed.
End link_witness.
