(* ===== verification/Persist.v ===== *)
(** * Persist: state on disk (internal/merkle/snapshot.go, internal/transport/identity.go)

    Both files replace a file by writing a temporary one beside it and renaming.
    [writeFileAtomic] returns every state of the disk a crash can leave, the state
    after the call and whether it succeeded; which step of package os fails is an
    input. Gob, PEM and X.509 are parameters with their documented round trips. *)
From S2P Require Import Prelude Bytes VersionVector Framing Messages Windows Pathnorm Hashing.
From S2P Require Import FileInfo Tree Oracle Differ Conflict Scanner Disk Transfer Replica Engine.
From S2P Require Import Story Transport.

(** ** Replacing a file *)

Inductive stage := AtCreate | AtChmod | AtWrite | AtSync | AtClose | AtRename.

(** What CreateTemp makes: an empty file of mode 0600. *)
Definition private_mode : Z := 384.

(** [fail] is the step that fails, if any, and [short] how much a failing write wrote. *)
Definition writeFileAtomic (fail : option stage) (short : nat) (d : Disk) (path data tmp : bytes) (perm now : Z)
    : list Disk * Disk * bool :=
  let created := <[tmp := EFile [] private_mode now]> d in
  let writing := λ n, <[tmp := EFile (take n data) perm now]> d in
  let failed := delete tmp d in
  let written := created :: (writing <$> seq 0 (S (length data))) in
  match fail with
  | Some AtCreate => ([], d, false)
  | Some AtChmod => ([created], failed, false)
  | Some AtWrite => (created :: (writing <$> seq 0 (S (short `min` length data))), failed, false)
  | Some AtSync | Some AtClose | Some AtRename => (written, failed, false)
  | None => if decide (d !! path = Some EDir) then (written, failed, false)
            else (written, <[path := EFile data perm now]> (delete tmp d), true)
  end.

(** ** The snapshot *)

Class Gob := {
  gob_enc : Z * list FileInfo → option bytes;
  gob_dec : bytes → option (Z * list FileInfo)
}.
Class GobLaws `{Gob} : Prop := gob_roundtrip s b : gob_enc s = Some b → gob_dec b = Some s.

(** What os.ReadFile returns: the content, or an error that is ErrNotExist or not.
    [link_missing] tells which for a symbolic link that cannot be read. *)
Class LinkOS := { link_missing : Disk → bytes → bool }.
Inductive ReadError := NotExist | ReadFailed.
Definition ReadFile `{OS, LinkOS} (d : Disk) (path : bytes) : Result ReadError bytes :=
  match d !! path with
  | None => Err NotExist
  | Some EDir => Err ReadFailed
  | Some (EFile c _ _) => Ok c
  | Some (ELink _ _ _) =>
    match follow d path with
    | Some c => Ok c
    | None => Err (if link_missing d path then NotExist else ReadFailed)
    end
  end.

(** SaveSnapshot does not change the mode CreateTemp gave, so it has no chmod to
    fail; a failed gob encoding happens before anything is created. *)
Definition SaveSnapshot `{Gob} (fail : option stage) (short : nat) (d : Disk) (path : bytes) (files : list FileInfo)
    (tmp : bytes) (now : Z) : list Disk * Disk * bool :=
  match gob_enc (snapshotVersion, files) with
  | None => ([], d, false)
  | Some buf =>
    writeFileAtomic (match fail with Some AtChmod => None | f => f end) short d path buf tmp private_mode now
  end.

(** What LoadSnapshot finds at its path. *)
Definition snapshot_at `{OS, LinkOS, Gob} (d : Disk) (path : bytes) : SnapFile :=
  match ReadFile d path with
  | Err NotExist => SnapMissing
  | Err ReadFailed => SnapUnreadable
  | Ok b => match gob_dec b with None => SnapCorrupt | Some (v, files) => SnapFiles v files end
  end.

(** ** The identity *)

Record Identity := mkIdentity { id_cert : bytes; id_key : bytes; id_device : DeviceID }.

(** PEM encoding, PKCS#8, the parsers: [X509KeyPair] gives the certificate chain and the
    private key of two PEM files that match. *)
Class Certs := {
  cert_pem : bytes → option bytes;
  key_pem : bytes → option bytes;
  X509KeyPair : bytes → bytes → option (list bytes * bytes);
  parse_cert : bytes → bool;
  (** the certificate [der] was made for this private key *)
  issued : bytes → bytes → Prop
}.
Class CertsLaws `{Certs} : Prop := mkCertsLaws {
  issued_parses der key : issued der key → parse_cert der = true;
  pem_roundtrip der key c k : issued der key → cert_pem der = Some c → key_pem key = Some k → X509KeyPair c k = Some ([der], key)
}.

Inductive IdentityError :=
| ErrGenerate | ErrParseCertificate | ErrEncodePEM | ErrWriteKey | ErrWriteCertificate
| ErrConfigDir | ErrLoadKeyPair | ErrNoCertificate | ErrInconsistentIdentity.

Definition certFileName : bytes := go! "device.crt".
Definition keyFileName : bytes := go! "device.key".
Definition in_dir (dir name : bytes) : bytes := match dir with [] => name | _ => dir ++ [slash_c] ++ name end.

(** The environment of one call: what the random source and the clock lead x509 to
    mint, the temporary names, and the step that fails in each of the two writes. *)
Record mint := mkMint {
  mt_pair : option (bytes * bytes); mt_tmp_key : bytes; mt_tmp_cert : bytes; mt_now : Z;
  mt_fail_key : option stage; mt_fail_cert : option stage; mt_short : nat }.

Section identity.
Context `{OS, LinkOS, Digest, Certs}.

Definition GenerateIdentity (mt : mint) : Result IdentityError Identity :=
  match mt_pair mt with
  | None => Err ErrGenerate
  | Some (der, key) =>
    if parse_cert der then Ok (mkIdentity der key (DeviceIDFromCert der)) else Err ErrParseCertificate
  end.

Definition persistIdentity (mt : mint) (id : Identity) (d : Disk) (certPath keyPath : bytes)
    : list Disk * Disk * option IdentityError :=
  match cert_pem (id_cert id), key_pem (id_key id) with
  | Some certPEM, Some keyPEM =>
    let '(s1, d1, ok1) := writeFileAtomic (mt_fail_key mt) (mt_short mt) d keyPath keyPEM (mt_tmp_key mt) 384 (mt_now mt) in
    if negb ok1 then (s1, d1, Some ErrWriteKey)
    else
      let '(s2, d2, ok2) := writeFileAtomic (mt_fail_cert mt) (mt_short mt) d1 certPath certPEM (mt_tmp_cert mt) 420 (mt_now mt) in
      (s1 ++ d1 :: s2, d2, if negb ok2 then Some ErrWriteCertificate else None)
  | _, _ => ([], d, Some ErrEncodePEM)
  end.

Definition identityFromPEM (certPEM keyPEM : bytes) : Result IdentityError Identity :=
  match X509KeyPair certPEM keyPEM with
  | None => Err ErrLoadKeyPair
  | Some ([], _) => Err ErrNoCertificate
  | Some (der :: _, key) =>
    if parse_cert der then Ok (mkIdentity der key (DeviceIDFromCert der)) else Err ErrParseCertificate
  end.

Definition LoadOrCreateIdentity (mt : mint) (d : Disk) (dir : bytes) : list Disk * Disk * Result IdentityError Identity :=
  let certPath := in_dir dir certFileName in
  let keyPath := in_dir dir keyFileName in
  let '(d, made) := MkdirAll d (parents certPath) in
  if negb made then ([], d, Err ErrConfigDir)
  else
    match ReadFile d certPath, ReadFile d keyPath with
    | Ok certPEM, Ok keyPEM => ([d], d, identityFromPEM certPEM keyPEM)
    | Err NotExist, Err NotExist =>
      match GenerateIdentity mt with
      | Err e => ([d], d, Err e)
      | Ok id =>
        let '(states, d', failed) := persistIdentity mt id d certPath keyPath in
        (d :: states, d', match failed with Some e => Err e | None => Ok id end)
      end
    | _, _ => ([d], d, Err ErrInconsistentIdentity)
    end.
End identity.

(** ** What a replaced file can look like *)

Lemma writeFileAtomic_spec fail short d path data tmp perm now :
  let '(states, d', ok) := writeFileAtomic fail short d path data tmp perm now in
  (∀ s k, s ∈ states → k ≠ tmp → s !! k = d !! k) ∧
  (if ok then d' = <[path := EFile data perm now]> (delete tmp d) else d' = d ∨ d' = delete tmp d) ∧
  (fail = None → d !! path ≠ Some EDir → ok = true).
Proof.
  set (writing := λ n, <[tmp := EFile (take n data) perm now]> d).
  assert (∀ n s k, s ∈ (<[tmp := EFile [] private_mode now]> d) :: (writing <$> seq 0 n) → k ≠ tmp → s !! k = d !! k) as Hs.
  { intros n s k [-> | (i & -> & _)%list_elem_of_fmap]%elem_of_cons Hk; [| unfold writing]; by rewrite lookup_insert_ne. }
  unfold writeFileAtomic. fold writing. destruct fail as [[] |].
  - split_and!; [by intros s k ?%not_elem_of_nil | by left | done].
  - split_and!; [intros s k ->%list_elem_of_singleton Hk; by rewrite lookup_insert_ne | by right | done].
  - split_and!; [apply Hs | by right | done].
  - split_and!; [apply Hs | by right | done].
  - split_and!; [apply Hs | by right | done].
  - split_and!; [apply Hs | by right | done].
  - destruct (decide (d !! path = Some EDir)); split_and!; [apply Hs | by right | done | apply Hs | done | done].
Qed.

Definition no_link (d : Disk) (p : bytes) : Prop := ∀ t m ts, d !! p ≠ Some (ELink t m ts).

Lemma ReadFile_eq `{OS, LinkOS} d d' p : no_link d p → d' !! p = d !! p → ReadFile d' p = ReadFile d p.
Proof. intros Hn Heq. unfold ReadFile. rewrite Heq. destruct (d !! p) as [[] |] eqn:Hp; [done | | done..]. by destruct (Hn _ _ _ Hp). Qed.

Lemma snapshot_at_eq `{OS, LinkOS, Gob} d d' p : no_link d p → d' !! p = d !! p → snapshot_at d' p = snapshot_at d p.
Proof. intros Hn Heq. unfold snapshot_at. by rewrite (ReadFile_eq d d' p). Qed.

(** ** The identity on disk *)

Section identity_facts.
Context `{OS, LinkOS, Digest, CertsLaws}.

Lemma identity_of_pem der key c k :
  issued der key → cert_pem der = Some c → key_pem key = Some k →
  identityFromPEM c k = Ok (mkIdentity der key (DeviceIDFromCert der)).
Proof.
  intros Hi Hc Hk. unfold identityFromPEM. rewrite (pem_roundtrip der key c k Hi Hc Hk).
  by rewrite (issued_parses der key Hi).
Qed.

Lemma in_dir_file_name dir : in_dir dir certFileName ≠ in_dir dir keyFileName.
Proof. destruct dir; cbn [in_dir]; [done |]. intros Heq%app_inv_head. done. Qed.

(** The directory is there after a call that got past MkdirAll, so making it again
    changes nothing. *)
Lemma MkdirAll_again d ps d1 : MkdirAll d ps = (d1, true) → Forall (λ p, d1 !! p = Some EDir) ps.
Proof.
  revert d. induction ps as [|p ps IH]; intros d; simpl; [done |]. destruct (d !! p) as [[| |] |] eqn:Hp; try done.
  - intros Hm. constructor; [| by eapply IH]. rewrite (MkdirAll_keeps d ps d1 true p Hm); [done | left; eauto].
  - intros Hm. constructor; [| by eapply IH].
    rewrite (MkdirAll_keeps _ ps d1 true p Hm); [by rewrite lookup_insert_eq | left; rewrite lookup_insert_eq; eauto].
Qed.
Lemma MkdirAll_done d ps : Forall (λ p, d !! p = Some EDir) ps → MkdirAll d ps = (d, true).
Proof. induction 1 as [|p ps Hp _ IH]; [done |]. simpl. by rewrite Hp. Qed.

(** A disk that agrees with the one MkdirAll left on the directory and the two files. *)
Lemma load_at mt d dir :
  Forall (λ p, d !! p = Some EDir) (parents (in_dir dir certFileName)) →
  LoadOrCreateIdentity mt d dir =
    match ReadFile d (in_dir dir certFileName), ReadFile d (in_dir dir keyFileName) with
    | Ok c, Ok k => ([d], d, identityFromPEM c k)
    | Err NotExist, Err NotExist =>
      match GenerateIdentity mt with
      | Err e => ([d], d, Err e)
      | Ok id =>
        let '(states, d', failed) := persistIdentity mt id d (in_dir dir certFileName) (in_dir dir keyFileName) in
        (d :: states, d', match failed with Some e => Err e | None => Ok id end)
      end
    | _, _ => ([d], d, Err ErrInconsistentIdentity)
    end.
Proof. intros Hd. unfold LoadOrCreateIdentity. by rewrite (MkdirAll_done d _ Hd). Qed.

(** The names CreateTemp gives are new and are not those of the identity files. *)
Definition mint_ok (mt : mint) (certPath keyPath : bytes) : Prop :=
  Forall (λ tmp, tmp ∉ parents certPath ∧ tmp ≠ certPath ∧ tmp ≠ keyPath) [mt_tmp_key mt; mt_tmp_cert mt].

(** What can be at the paths of the two files: neither, the key alone, or both. *)
Definition file_at (d : Disk) (p : bytes) : option bytes :=
  match d !! p with Some (EFile c _ _) => Some c | _ => None end.
Inductive identity_state (s : Disk) (certPath keyPath certPEM keyPEM : bytes) : Prop :=
| id_absent : s !! certPath = None → s !! keyPath = None → identity_state s certPath keyPath certPEM keyPEM
| id_key_only : s !! certPath = None → file_at s keyPath = Some keyPEM → identity_state s certPath keyPath certPEM keyPEM
| id_complete : file_at s certPath = Some certPEM → file_at s keyPath = Some keyPEM →
    identity_state s certPath keyPath certPEM keyPEM.

Lemma file_at_read d p c : file_at d p = Some c → ReadFile d p = Ok c.
Proof. unfold file_at, ReadFile. by destruct (d !! p) as [[] |]; intros [= ->]. Qed.
Lemma absent_read d p : d !! p = None → ReadFile d p = Err NotExist.
Proof. unfold ReadFile. by intros ->. Qed.

Lemma persist_states mt id d certPath keyPath certPEM keyPEM :
  certPath ≠ keyPath → mint_ok mt certPath keyPath → d !! certPath = None → d !! keyPath = None →
  cert_pem (id_cert id) = Some certPEM → key_pem (id_key id) = Some keyPEM →
  let '(states, d', failed) := persistIdentity mt id d certPath keyPath in
  (∀ s, s ∈ d' :: states → identity_state s certPath keyPath certPEM keyPEM ∧
     ∀ k, k ∈ parents certPath → k ∉ [certPath; keyPath] → s !! k = d !! k) ∧
  (failed = None → file_at d' certPath = Some certPEM ∧ file_at d' keyPath = Some keyPEM).
Proof.
  intros Hne Hmt Hcn Hkn Hcp Hkp. unfold persistIdentity. rewrite Hcp, Hkp.
  apply Forall_cons in Hmt as [(Hpar1 & Hc1 & Hk1) Hmt]. apply Forall_singleton in Hmt as (Hpar2 & Hc2 & Hk2).
  pose proof (writeFileAtomic_spec (mt_fail_key mt) (mt_short mt) d keyPath keyPEM (mt_tmp_key mt) 384 (mt_now mt)) as Hw1.
  destruct (writeFileAtomic _ _ d keyPath _ _ _ _) as [[s1 d1] ok1]. destruct Hw1 as (Hs1 & Hd1 & _).
  assert (∀ s, (∀ k, k ≠ mt_tmp_key mt → s !! k = d !! k) → identity_state s certPath keyPath certPEM keyPEM ∧
    ∀ k, k ∈ parents certPath → k ∉ [certPath; keyPath] → s !! k = d !! k) as Hold.
  { intros s Hsk. split; [apply id_absent; by rewrite Hsk by done |]. intros k Hk _. apply Hsk. by intros ->. }
  destruct ok1; cbn [negb].
  2:{ split; [| done]. intros s [-> | Hin]%elem_of_cons; [| apply Hold; intros k Hk; by apply Hs1]. apply Hold. intros k Hk.
      destruct Hd1 as [-> | ->]; [done | by rewrite lookup_delete_ne]. }
  assert (d1 !! certPath = None ∧ file_at d1 keyPath = Some keyPEM) as [Hdc Hdk].
  { subst d1. unfold file_at. rewrite lookup_insert_eq, lookup_insert_ne by done. by rewrite lookup_delete_ne. }
  assert (∀ k, k ∈ parents certPath → k ∉ [certPath; keyPath] → d1 !! k = d !! k) as Hdp.
  { intros k Hk Hn. subst d1. rewrite lookup_insert_ne; [| intros ->; apply Hn; right; left].
    rewrite lookup_delete_ne; [done | by intros <-]. }
  pose proof (writeFileAtomic_spec (mt_fail_cert mt) (mt_short mt) d1 certPath certPEM (mt_tmp_cert mt) 420 (mt_now mt)) as Hw2.
  destruct (writeFileAtomic _ _ d1 certPath _ _ _ _) as [[s2 d2] ok2]. destruct Hw2 as (Hs2 & Hd2 & _).
  assert (∀ s, (∀ k, k ≠ mt_tmp_cert mt → s !! k = d1 !! k) → identity_state s certPath keyPath certPEM keyPEM ∧
    ∀ k, k ∈ parents certPath → k ∉ [certPath; keyPath] → s !! k = d !! k) as Hmid.
  { intros s Hsk. split; [apply id_key_only; unfold file_at; by rewrite Hsk by done |].
    intros k Hk Hn. rewrite Hsk; [by apply Hdp | by intros ->]. }
  assert (ok2 = true → file_at d2 certPath = Some certPEM ∧ file_at d2 keyPath = Some keyPEM) as Hboth.
  { intros ->. subst d2. unfold file_at. rewrite lookup_insert_eq, lookup_insert_ne by done. by rewrite lookup_delete_ne. }
  split; [| destruct ok2; [intros _; by apply Hboth | done]].
  intros s [-> | [Hin | [-> | Hin]%elem_of_cons]%elem_of_app]%elem_of_cons.
  - destruct ok2.
    + destruct (Hboth eq_refl). split; [by apply id_complete |]. intros k Hk Hn. subst d2.
      rewrite lookup_insert_ne; [| intros ->; apply Hn; left]. rewrite lookup_delete_ne; [by apply Hdp | by intros <-].
    + apply Hmid. intros k Hk. destruct Hd2 as [-> | ->]; [done | by rewrite lookup_delete_ne].
  - apply Hold. intros k Hk. by apply Hs1.
  - by apply Hmid.
  - apply Hmid. intros k Hk. by apply Hs2.
Qed.

Lemma key_not_parent dir : in_dir dir keyFileName ∉ parents (in_dir dir certFileName).
Proof.
  intros Hin%parents_shorter. assert (length (in_dir dir keyFileName) = length (in_dir dir certFileName)); [| lia].
  destruct dir; cbn [in_dir]; [done |]. by rewrite !length_app.
Qed.

Lemma load_crash mt mt' d dir :
  let certPath := in_dir dir certFileName in let keyPath := in_dir dir keyFileName in
  (∀ der key, mt_pair mt = Some (der, key) → issued der key) → mint_ok mt certPath keyPath →
  d !! certPath = None → d !! keyPath = None →
  let '(states, d', r) := LoadOrCreateIdentity mt d dir in
  ∀ s, s ∈ d' :: states →
    let '(_, s', r') := LoadOrCreateIdentity mt' s dir in
    (s !! certPath = None ∧ s !! keyPath = None) ∨
    (s' = s ∧ (r' = Err ErrInconsistentIdentity ∨
               ∃ der key, mt_pair mt = Some (der, key) ∧ r' = Ok (mkIdentity der key (DeviceIDFromCert der)))).
Proof.
  intros certPath keyPath Hiss Hmt Hc Hk. unfold LoadOrCreateIdentity at 1.
  fold certPath keyPath. destruct (MkdirAll d (parents certPath)) as [d1 made] eqn:Hm.
  assert (d1 !! certPath = None ∧ d1 !! keyPath = None) as [Hc1 Hk1].
  { split; rewrite (MkdirAll_keeps _ _ _ _ _ Hm); try done; right; [apply not_own_parent | apply key_not_parent]. }
  destruct made; cbn [negb].
  2:{ intros s ->%list_elem_of_singleton. destruct (LoadOrCreateIdentity mt' d1 dir) as [[? ?] ?]. by left. }
  rewrite !absent_read by done. pose proof (MkdirAll_again d _ d1 Hm) as Hdirs.
  destruct (GenerateIdentity mt) as [id |] eqn:Hgen.
  2:{ intros s Hs. assert (s = d1) as -> by (apply elem_of_cons in Hs as [? | ?%list_elem_of_singleton]; done).
      destruct (LoadOrCreateIdentity mt' d1 dir) as [[? ?] ?]. by left. }
  assert (∃ der key, mt_pair mt = Some (der, key) ∧ id = mkIdentity der key (DeviceIDFromCert der)) as (der & key & Hpair & ->).
  { unfold GenerateIdentity in Hgen. destruct (mt_pair mt) as [[der key] |]; [| done].
    destruct (parse_cert der); [| done]. injection Hgen as <-. eauto. }
  specialize (Hiss der key Hpair).
  destruct (cert_pem der) as [c |] eqn:Hcp; [destruct (key_pem key) as [k |] eqn:Hkp |].
  2,3: unfold persistIdentity; cbn [id_cert id_key]; rewrite Hcp, ?Hkp; intros s Hs;
    assert (s = d1) as -> by (apply elem_of_cons in Hs as [? | ?%list_elem_of_singleton]; done);
    destruct (LoadOrCreateIdentity mt' d1 dir) as [[? ?] ?]; by left.
  pose proof (persist_states mt (mkIdentity der key (DeviceIDFromCert der)) d1 certPath keyPath c k
    (in_dir_file_name dir) Hmt Hc1 Hk1 Hcp Hkp) as Hps.
  destruct (persistIdentity _ _ _ _ _) as [[states d2] failed]. destruct Hps as [Hst _].
  intros s Hs. assert (s = d1 ∨ s ∈ d2 :: states) as [-> | Hin].
  { apply elem_of_cons in Hs as [-> | [-> | Hs]%elem_of_cons]; [right; left | by left | right; by right]. }
  { destruct (LoadOrCreateIdentity mt' d1 dir) as [[? ?] ?]. by left. }
  destruct (Hst s Hin) as [Hid Hpar]. destruct Hid as [? ? | Hcn Hkf | Hcf Hkf].
  { destruct (LoadOrCreateIdentity mt' s dir) as [[? ?] ?]. by left. }
  all: rewrite load_at; [fold certPath keyPath |].
  - rewrite (absent_read _ _ Hcn), (file_at_read _ _ _ Hkf). right. split; [done | by left].
  - apply Forall_forall. intros p Hp. rewrite Forall_forall in Hdirs. rewrite Hpar; [by apply Hdirs | done |].
    rewrite elem_of_cons, list_elem_of_singleton. intros [-> | ->]; [by apply not_own_parent in Hp | by apply key_not_parent in Hp].
  - rewrite (file_at_read _ _ _ Hcf), (file_at_read _ _ _ Hkf). right. split; [done | right].
    exists der, key. split; [done | by apply identity_of_pem].
  - apply Forall_forall. intros p Hp. rewrite Forall_forall in Hdirs. rewrite Hpar; [by apply Hdirs | done |].
    rewrite elem_of_cons, list_elem_of_singleton. intros [-> | ->]; [by apply not_own_parent in Hp | by apply key_not_parent in Hp].
Qed.
Lemma load_keeps mt d dir :
  let certPath := in_dir dir certFileName in let keyPath := in_dir dir keyFileName in
  (∀ der key, mt_pair mt = Some (der, key) → issued der key) → mint_ok mt certPath keyPath →
  no_link d certPath → no_link d keyPath →
  let '(_, d', r) := LoadOrCreateIdentity mt d dir in
  ∀ id mt', r = Ok id → LoadOrCreateIdentity mt' d' dir = ([d'], d', Ok id).
Proof.
  intros certPath keyPath Hiss Hmt Hlc Hlk. unfold LoadOrCreateIdentity at 1. fold certPath keyPath.
  destruct (MkdirAll d (parents certPath)) as [d1 made] eqn:Hm. destruct made; cbn [negb]; [| done].
  pose proof (MkdirAll_again d _ d1 Hm) as Hdirs.
  assert (d1 !! certPath = d !! certPath ∧ d1 !! keyPath = d !! keyPath) as [Hc1 Hk1].
  { split; rewrite (MkdirAll_keeps _ _ _ _ _ Hm); try done; right; [apply not_own_parent | apply key_not_parent]. }
  assert (∀ p, d1 !! p = d !! p → no_link d p → ReadFile d1 p = Err NotExist → d1 !! p = None) as Habs.
  { intros p Hp Hl Hr. unfold ReadFile in Hr. rewrite Hp in *. destruct (d !! p) as [[] |] eqn:He; try done. by destruct (Hl _ _ _ He). }
  destruct (ReadFile d1 certPath) as [c | []] eqn:Hrc, (ReadFile d1 keyPath) as [k | []] eqn:Hrk; try done.
  { intros id mt' Hr. rewrite load_at by done. fold certPath keyPath. by rewrite Hrc, Hrk, Hr. }
  apply Habs in Hrc; [| done..]. apply Habs in Hrk; [| done..].
  destruct (GenerateIdentity mt) as [id0 |] eqn:Hgen; [| done].
  assert (∃ der key, mt_pair mt = Some (der, key) ∧ id0 = mkIdentity der key (DeviceIDFromCert der)) as (der & key & Hpair & ->).
  { unfold GenerateIdentity in Hgen. destruct (mt_pair mt) as [[der key] |]; [| done].
    destruct (parse_cert der); [| done]. injection Hgen as <-. eauto. }
  specialize (Hiss der key Hpair).
  destruct (cert_pem der) as [c |] eqn:Hcp; [destruct (key_pem key) as [k |] eqn:Hkp |].
  2,3: unfold persistIdentity; cbn [id_cert id_key]; by rewrite Hcp, ?Hkp.
  pose proof (persist_states mt (mkIdentity der key (DeviceIDFromCert der)) d1 certPath keyPath c k
    (in_dir_file_name dir) Hmt Hrc Hrk Hcp Hkp) as Hps.
  destruct (persistIdentity _ _ _ _ _) as [[states d2] [err |]]; [done |]. destruct Hps as [Hst Hdone].
  destruct (Hdone eq_refl) as [Hcf Hkf]. destruct (Hst d2) as [_ Hpar]; [left |].
  intros id mt' Hid. apply Ok_inj in Hid as <-. rewrite load_at; [fold certPath keyPath |].
  - rewrite (file_at_read _ _ _ Hcf), (file_at_read _ _ _ Hkf). by rewrite (identity_of_pem der key c k).
  - apply Forall_forall. intros p Hp. rewrite Forall_forall in Hdirs. rewrite Hpar; [by apply Hdirs | done |].
    rewrite elem_of_cons, list_elem_of_singleton. intros [-> | ->]; [by apply not_own_parent in Hp | by apply key_not_parent in Hp].
Qed.
End identity_facts.

(** ** A toy certificate format, for the closed runs

    A certificate file holds the certificate, a key file the key after a mark, and
    they match when the certificate names the key. *)
#[export] Instance toy_certs : Certs := {|
  cert_pem c := Some (go! "CERT" ++ c);
  key_pem k := Some (go! "KEY" ++ k);
  X509KeyPair c k :=
    if has_prefix (go! "CERT") c && has_prefix (go! "KEY") k && bool_decide (drop 4 c = drop 3 k)
    then Some ([drop 4 c], drop 3 k) else None;
  parse_cert _ := true;
  issued der key := der = key
|}.
#[export] Instance toy_certs_laws : CertsLaws.
Proof.
  split; [done |]. intros der key c k -> [= <-] [= <-]. cbn. rewrite !bool_decide_eq_true_2 by done. by rewrite !drop_0.
Qed.
#[export] Instance toy_links : LinkOS := {| link_missing _ _ := true |}.

(** A toy encoding of snapshots: the version and the INDEX body of the records. *)
#[export] Instance toy_gob : Gob := {|
  gob_enc s :=
    match EncodeFileInfos s.2 with
    | Ok b =>
      match DecodeFileInfos b with Ok set => if bool_decide ((1, set) = s) then Some b else None | Err _ => None end
    | Err _ => None
    end;
  gob_dec b := match DecodeFileInfos b with Ok set => Some (1, set) | Err _ => None end
|}.
#[export] Instance toy_gob_laws : GobLaws.
Proof.
  intros s b. unfold gob_enc, gob_dec. cbn. destruct (EncodeFileInfos s.2) as [b' |]; [| done].
  destruct (DecodeFileInfos b') as [set |] eqn:Hd; [| done]. case_bool_decide as Hb; [| done]. intros [= <-].
  by rewrite Hd, Hb.
Qed.

(** * Properties *)

(** saving the snapshot replaces it atomically: at every point of SaveSnapshot where
    the process may die, and whenever it reports an error, LoadSnapshot finds what it
    would have found before; when it succeeds LoadSnapshot returns the saved records,
    and the file is the snapshot the engine's saveSnapshot leaves; and it succeeds
    unless a step of the file system fails. *)
Theorem SaveSnapshot_crash_safe `{OS, LinkOS, Digest, Unicode, GobLaws} cfg e fail short d path tmp now :
  no_link d path → tmp ≠ path → cfg_hasSnapshotPath cfg = true →
  let '(states, d', ok) := SaveSnapshot fail short d path (snapshotFilesLocked (e_files e)) tmp now in
  (∀ s, s ∈ states → snapshot_at s path = snapshot_at d path) ∧
  (if ok then LoadSnapshot (snapshot_at d' path) = Ok (snapshotFilesLocked (e_files e)) ∧
              snapshot_at d' path = e_snapshot (saveSnapshot cfg true e)
   else snapshot_at d' path = snapshot_at d path) ∧
  (fail = None → is_Some (gob_enc (snapshotVersion, snapshotFilesLocked (e_files e))) → d !! path ≠ Some EDir → ok = true).
Proof.
  intros Hl Htmp Hcfg. unfold SaveSnapshot. set (files := snapshotFilesLocked (e_files e)).
  destruct (gob_enc (snapshotVersion, files)) as [buf |] eqn:Hg.
  2:{ split_and!; [by intros s ?%not_elem_of_nil | done | by intros _ [? ?]]. }
  pose proof (writeFileAtomic_spec (match fail with Some AtChmod => None | f => f end) short d path buf tmp private_mode now) as Hw.
  destruct (writeFileAtomic _ _ _ _ _ _ _ _) as [[states d'] ok]. destruct Hw as (Hs & Hd & Hok). split_and!.
  - intros s Hin. apply snapshot_at_eq; [done |]. by apply Hs.
  - destruct ok.
    + assert (snapshot_at d' path = SnapFiles snapshotVersion files) as ->.
      { subst d'. unfold snapshot_at, ReadFile. rewrite lookup_insert_eq. by rewrite (gob_roundtrip _ _ Hg). }
      split; [done |]. unfold saveSnapshot. by rewrite Hcfg.
    + apply snapshot_at_eq; [done |]. destruct Hd as [-> | ->]; [done | by rewrite lookup_delete_ne].
  - intros -> _. by apply Hok.
Qed.

(** an identity once established is never rotated: what LoadOrCreateIdentity returned
    it returns on every later start, without touching the disk. On a first run that
    dies anywhere, or fails, the next start finds neither file and may mint anew, or
    loads exactly the identity that was being minted, or refuses; it refuses for ever
    when only the key was written. *)
Theorem identity_stable `{OS, LinkOS, Digest, CertsLaws} mt d dir :
  let certPath := in_dir dir certFileName in let keyPath := in_dir dir keyFileName in
  (∀ der key, mt_pair mt = Some (der, key) → issued der key) → mint_ok mt certPath keyPath →
  no_link d certPath → no_link d keyPath →
  let '(states, d', r) := LoadOrCreateIdentity mt d dir in
  (∀ id mt', r = Ok id → LoadOrCreateIdentity mt' d' dir = ([d'], d', Ok id)) ∧
  (d !! certPath = None → d !! keyPath = None → ∀ s mt', s ∈ d' :: states →
     let '(_, s', r') := LoadOrCreateIdentity mt' s dir in
     (s !! certPath = None ∧ s !! keyPath = None) ∨
     (s' = s ∧ (r' = Err ErrInconsistentIdentity ∨
                ∃ der key, mt_pair mt = Some (der, key) ∧ r' = Ok (mkIdentity der key (DeviceIDFromCert der))))).
Proof.
  intros certPath keyPath Hiss Hmt Hlc Hlk.
  assert (∀ mt', d !! certPath = None → d !! keyPath = None → let '(states, d', _) := LoadOrCreateIdentity mt d dir in
    ∀ s, s ∈ d' :: states → let '(_, s', r') := LoadOrCreateIdentity mt' s dir in
      (s !! certPath = None ∧ s !! keyPath = None) ∨ (s' = s ∧ (r' = Err ErrInconsistentIdentity ∨
        ∃ der key, mt_pair mt = Some (der, key) ∧ r' = Ok (mkIdentity der key (DeviceIDFromCert der))))) as Hcrash
    by (intros mt' Hc Hk; by apply load_crash).
  pose proof (load_keeps mt d dir Hiss Hmt Hlc Hlk) as Hkeep. fold certPath keyPath in Hkeep.
  destruct (LoadOrCreateIdentity mt d dir) as [[states d'] r]. split; [exact Hkeep |].
  intros Hc Hk s mt' Hs. by apply (Hcrash mt' Hc Hk).
Qed.

Section persist_witness.
#[local] Existing Instance toy_digest.
Definition snapshot_name : bytes := go! "snapshot.gob".
Definition tmp_name : bytes := go! ".tmp-1".

Lemma SaveSnapshot_crash_safe_witness :
  let d : Disk := {[ snapshot_name := EFile (go! "old") 384 0 ]} in
  let '(states, d', ok) := SaveSnapshot None 0 d snapshot_name (snapshotFilesLocked (e_files e_edited)) tmp_name 7 in
  ok = true ∧ LoadSnapshot (snapshot_at d' snapshot_name) = Ok (snapshotFilesLocked (e_files e_edited)) ∧
  snapshot_at d snapshot_name = SnapCorrupt ∧ ∀ s, s ∈ states → snapshot_at s snapshot_name = SnapCorrupt.
Proof.
  intros d. assert (no_link d snapshot_name) as Hl by (intros t m ts; vm_compute; discriminate).
  assert (tmp_name ≠ snapshot_name) as Hne by (vm_compute; discriminate).
  pose proof (SaveSnapshot_crash_safe home e_edited None 0 d snapshot_name tmp_name 7 Hl Hne eq_refl) as Hs.
  assert (is_Some (gob_enc (snapshotVersion, snapshotFilesLocked (e_files e_edited)))) as Hg
    by (apply (bool_decide_unpack _); vm_compute; exact I).
  assert (snapshot_at d snapshot_name = SnapCorrupt) as Hold by (vm_compute; reflexivity).
  destruct (SaveSnapshot _ _ _ _ _ _ _) as [[states d'] ok]. destruct Hs as (Hst & Hok & Htrue).
  specialize (Htrue eq_refl Hg ltac:(vm_compute; discriminate)). subst ok. destruct Hok as [Hload _].
  split; [reflexivity |]. split; [exact Hload |]. split; [exact Hold |]. intros s Hin. rewrite <- Hold. exact (Hst s Hin).
Defined.

(** A first run whose second write fails: the key is there, the certificate is not. *)
Definition mint_of (fail_cert : option stage) (key : bytes) : mint :=
  mkMint (Some (key, key)) (go! "c/.tmp-1") (go! "c/.tmp-2") 7 None fail_cert 0.
Lemma identity_stable_witness :
  let r1 := LoadOrCreateIdentity (mint_of None (go! "a")) ∅ (go! "c") in
  let r2 := LoadOrCreateIdentity (mint_of (Some AtWrite) (go! "a")) ∅ (go! "c") in
  (∃ id, r1.2 = Ok id ∧ (LoadOrCreateIdentity (mint_of None (go! "b")) r1.1.2 (go! "c")).2 = Ok id) ∧
  (LoadOrCreateIdentity (mint_of None (go! "b")) r2.1.2 (go! "c")).2 = Err ErrInconsistentIdentity.
Proof.
  intros r1 r2. split; [| vm_compute; reflexivity].
  assert (r1.2 = Ok (mkIdentity (go! "a") (go! "a") (DeviceIDFromCert (go! "a")))) as Hr by (vm_compute; reflexivity).
  eexists. split; [exact Hr |].
  pose proof (identity_stable (mint_of None (go! "a")) ∅ (go! "c")) as Hst. cbv zeta in Hst.
  unfold r1 in *. clear r1 r2.
  assert (LoadOrCreateIdentity (mint_of None (go! "a")) ∅ (go! "c") =
    ((LoadOrCreateIdentity (mint_of None (go! "a")) ∅ (go! "c")).1.1, (LoadOrCreateIdentity (mint_of None (go! "a")) ∅ (go! "c")).1.2,
     (LoadOrCreateIdentity (mint_of None (go! "a")) ∅ (go! "c")).2)) as He by (by destruct (LoadOrCreateIdentity _ _ _) as [[? ?] ?]).
  rewrite He in Hst. destruct Hst as [Hkeep _].
  - by intros der key [= <- <-].
  - repeat constructor; apply (bool_decide_unpack _); vm_compute; exact I.
  - intros t m ts. vm_compute. discriminate.
  - intros t m ts. vm_compute. discriminate.
  - rewrite (Hkeep _ (mint_of None (go! "b")) Hr). reflexivity.
Defined.
End persist_witness.
