(* ===== verification/Main.v ===== *)
(** * Main: the daemon (cmd/msync/main.go)

    [run] up to the engine's loop: the identity, the allow-list of paired devices, the
    snapshot and the engine's start. What the host answers (whether the directory
    can be resolved and is one, whether the sockets open) is an input. The default
    configuration directory is inside the synchronised folder, on the same disk; an
    explicit one is taken to be outside it. *)
From S2P Require Import Prelude Bytes VersionVector Framing Messages Windows Pathnorm Hashing.
From S2P Require Import FileInfo Tree Oracle Differ Conflict Scanner Disk Transfer Replica Engine.
From S2P Require Import Story Invariant Local Transport Persist.

(** *** strings.TrimSpace: the white space of Unicode, in UTF-8 *)
Definition spaces : list bytes :=
  ((λ v, [chr v]) <$> [9; 10; 11; 12; 13; 32]) ++
  ((λ '(a, b), [chr a; chr b]) <$> [(194, 133); (194, 160)]) ++
  ((λ '(a, b, c), [chr a; chr b; chr c]) <$>
     [(225, 154, 128); (226, 128, 128); (226, 128, 129); (226, 128, 130); (226, 128, 131); (226, 128, 132);
      (226, 128, 133); (226, 128, 134); (226, 128, 135); (226, 128, 136); (226, 128, 137); (226, 128, 138);
      (226, 128, 168); (226, 128, 169); (226, 128, 175); (226, 129, 159); (227, 128, 128)]).

Fixpoint trim_left (n : nat) (seps : list bytes) (s : bytes) : bytes :=
  match n with
  | O => s
  | S n' =>
    match list_find (λ w, has_prefix w s = true) seps with
    | Some (_, w) => trim_left n' seps (drop (length w) s)
    | None => s
    end
  end.
Definition TrimSpace (s : bytes) : bytes :=
  let s := trim_left (length s) spaces s in
  rev (trim_left (length s) ((λ w, rev w) <$> spaces) (rev s)).

(** *** The repeatable flag *)
Definition stringList := list bytes.
Definition stringList_Set (s : stringList) (v : bytes) : stringList := s ++ [v].

Inductive RunError :=
| ErrResolveDir | ErrCannotWatch | ErrNotDirectory | ErrIdentity (e : IdentityError)
| ErrInvalidPeer (p : bytes) (e : DeviceIDError) | ErrDiscovery | ErrEngine (e : StartError) | ErrListen.

(** What the host answers: the absolute path, whether it is a directory, whether an
    explicit configuration directory can be made, whether the sockets open. *)
Record Host := mkHost {
  ho_abs : option bytes; ho_stat : option bool; ho_config : bool; ho_discovery : bool; ho_listen : bool;
  ho_caseSensitive : bool }.

Record Daemon := mkDaemon { dm_id : Identity; dm_allow : Allowlist; dm_config : Config; dm_engine : Engine }.

(** The loop over the -peer flags: the allow-list and the declared pairs, [None] while
    none was given. *)
Fixpoint pair_peers (allow : Allowlist) (paired : option (list DeviceID)) (ps : stringList)
    : Result RunError (Allowlist * option (list DeviceID)) :=
  match ps with
  | [] => Ok (allow, paired)
  | p :: ps' =>
    match ParseDeviceID (TrimSpace p) with
    | Err e => Err (ErrInvalidPeer p e)
    | Ok did => pair_peers (Add allow did) (Some (default [] paired ++ [did])) ps'
    end
  end.

Definition configDirName : bytes := go! ".msync".
Definition snapshotFileName : bytes := go! "snapshot.gob".

Section main.
Context `{OS, LinkOS, Digest, Unicode, Certs, Gob}.

(** The Hello the transport asks for: before the engine exists its root is unset. *)
Definition daemon_hello (folderID : bytes) (eng : option (Config * Engine)) : Hello :=
  match eng with
  | None => mkHello 1 zero32 folderID zero32 0
  | Some (cfg, e) => Hello_of cfg e
  end.

(** The two disks after, and the daemon. *)
Definition run (h : Host) (mt : mint) (root conf : Disk) (folderID configDir : bytes) (peerIDs : stringList)
    : Disk * Disk * Result RunError Daemon :=
  match ho_abs h, ho_stat h with
  | None, _ => (root, conf, Err ErrResolveDir)
  | Some _, None => (root, conf, Err ErrCannotWatch)
  | Some _, Some false => (root, conf, Err ErrNotDirectory)
  | Some absDir, Some true =>
    let inside := bool_decide (configDir = []) in
    let dir := if inside then configDirName else [] in
    if negb (inside || ho_config h) then (root, conf, Err (ErrIdentity ErrConfigDir))
    else
      let '(_, store, r) := LoadOrCreateIdentity mt (if inside then root else conf) dir in
      let root := if inside then store else root in
      let conf := if inside then conf else store in
      (root, conf,
       match r with
       | Err e => Err (ErrIdentity e)
       | Ok id =>
         let! ap := pair_peers (NewAllowlist [id_device id]) None peerIDs in
         let '(allow, paired) := ap in
         if negb (ho_discovery h) then Err ErrDiscovery
         else
           let cfg := mkConfig folderID absDir (id_device id) paired true true (ho_caseSensitive h) in
           match New cfg (snapshot_at store (in_dir dir snapshotFileName)) root with
           | Err e => Err (ErrEngine e)
           | Ok eng => if negb (ho_listen h) then Err ErrListen else Ok (mkDaemon id allow cfg eng)
           end
       end)
  end.

(** The daemon's engine saves its snapshot to the disk it was loaded from. With the
    default configuration that is its own root: a rescan, which ends by saving. *)
Definition rescan_on_disk (cfg : Config) (env : bytes * Z) (e : Engine) : Engine :=
  match Scan (cfg_AbsRoot cfg) (e_disk e) with
  | Err _ => e
  | Ok _ =>
    let e := rescan cfg true e in
    set_disk e (SaveSnapshot None 0 (e_disk e) (in_dir configDirName snapshotFileName)
                  (snapshotFilesLocked (e_files e)) env.1 env.2).1.2
  end.
Fixpoint rounds (cfg : Config) (env : nat → bytes * Z) (n : nat) (e : Engine) : Engine :=
  match n with O => e | S n' => rescan_on_disk cfg (env n') (rounds cfg env n' e) end.
End main.

Example trim_spaces : TrimSpace (go! " 	ab c " ++ [chr 194; chr 160]) = go! "ab c".
Proof. vm_compute. reflexivity. Qed.

(** ** Pairing *)

Definition parses (p : bytes) (did : DeviceID) : Prop := ParseDeviceID (TrimSpace p) = Ok did.

Lemma pair_peers_ok allow paired ps allow' paired' :
  pair_peers allow paired ps = Ok (allow', paired') →
  ∃ dids, Forall2 parses ps dids ∧ allow' = foldl Add allow dids ∧
    paired' = if decide (ps = []) then paired else Some (default [] paired ++ dids).
Proof.
  revert allow paired. induction ps as [|p ps IH]; intros allow paired; simpl; [intros [= <- <-]; by exists [] |].
  destruct (ParseDeviceID (TrimSpace p)) as [did |] eqn:Hp; [| done]. intros Hr.
  destruct (IH _ _ Hr) as (dids & Hps & -> & ->). exists (did :: dids). split; [by constructor |]. split; [done |].
  case_decide as Hnil; [subst ps; by apply Forall2_nil_inv_l in Hps as -> |].
  simpl. by rewrite <- (app_assoc _ [did] dids).
Qed.

Lemma pair_peers_err allow paired ps e :
  pair_peers allow paired ps = Err e → ∃ p pe, p ∈ ps ∧ e = ErrInvalidPeer p pe ∧ ParseDeviceID (TrimSpace p) = Err pe.
Proof.
  revert allow paired. induction ps as [|p ps IH]; intros allow paired; simpl; [done |].
  destruct (ParseDeviceID (TrimSpace p)) as [did | pe] eqn:Hp.
  - intros Hr. destruct (IH _ _ Hr) as (q & pe & Hq & He). exists q, pe. split; [by apply elem_of_cons; right | done].
  - intros [= <-]. exists p, pe. split; [apply elem_of_cons; by left | done].
Qed.

Lemma trusted dids (allow : Allowlist) id : Allowed (foldl Add allow dids) id = true ↔ id ∈ allow ∨ id ∈ dids.
Proof.
  unfold Allowed. rewrite bool_decide_eq_true. revert allow. induction dids as [|d dids IH]; intros allow; simpl; [set_solver |].
  rewrite IH. unfold Add. set_solver.
Qed.

(** ** Scanning a disk of canonical names *)

Section plain.
Context `{OS, Digest, Unicode}.

Definition plain (root : bytes) (d : Disk) : Prop := map_Forall (λ p e, e ≠ EDir → os_key root p = Ok p) d.

Lemma entry_info_path key path d e fi : entry_info key path d e = Some fi → Path fi = key ∧ Deleted fi = false ∧ Version fi = [].
Proof. unfold entry_info. repeat case_match; naive_solver. Qed.

Definition entry_at (d : Disk) (pe : bytes * Entry) : option FileInfo := entry_info pe.1 pe.1 d pe.2.

Lemma entry_info_own d p e : d !! p = Some e → e ≠ EDir → is_Some (entry_info p p d e).
Proof.
  intros Hp He. destruct e; [| by eexists | done]. unfold entry_info, HashFileSize, read_file. rewrite Hp. by eexists.
Qed.

Lemma scan_entries_plain root d es :
  Forall (λ pe, d !! pe.1 = Some pe.2 ∧ (pe.2 ≠ EDir → os_key root pe.1 = Ok pe.1)) es →
  scan_entries root d es = Ok (omap (entry_at d) es).
Proof.
  induction 1 as [|[p e] es [Hp Hk] _ IH]; [done |]. cbn [fst snd] in *. cbn [scan_entries omap list_omap].
  unfold entry_at at 1. cbn [fst snd]. destruct (decide (e = EDir)) as [-> | Hne]; [exact IH |].
  destruct (entry_info_own d p e Hp Hne) as [fi Hfi]. rewrite Hfi. destruct e; [| | done].
  all: rewrite (Hk Hne); cbn [rbind]; rewrite Hfi, IH; done.
Qed.

Lemma entries_paths d es : NoDup es.*1 → NoDup (Path <$> omap (entry_at d) es).
Proof.
  induction es as [|[p e] es IH]; intros Hnd; [constructor |]. apply NoDup_cons in Hnd as [Hp Hnd]. cbn [omap list_omap].
  destruct (entry_at d (p, e)) as [fi |] eqn:Hfi; [| by apply IH]. apply NoDup_cons. split; [| by apply IH].
  apply entry_info_path in Hfi as [-> _]. intros (gi & Hgi & [[q f] [Hin Hq]]%list_elem_of_omap)%list_elem_of_fmap.
  apply entry_info_path in Hq as [Hq _]. cbn in *. apply Hp. rewrite Hgi, Hq. by apply (list_elem_of_fmap_2 fst _ (q, f)).
Qed.

Lemma scan_plain root d :
  plain root d → ∃ l, Scan root d = Ok l ∧ NoDup (Path <$> l) ∧
    ∀ fi, fi ∈ l ↔ ∃ p e, d !! p = Some e ∧ entry_info p p d e = Some fi.
Proof.
  intros Hpl. set (es := merge_sort walk_le (map_to_list d)).
  assert (es ≡ₚ map_to_list d) as Hperm by apply merge_sort_Permutation.
  exists (omap (entry_at d) es). split_and!.
  - unfold Scan. apply scan_entries_plain, Forall_forall. intros [p e] Hin. rewrite Hperm in Hin.
    apply elem_of_map_to_list in Hin. split; [done | by apply (Hpl p)].
  - apply entries_paths. rewrite Hperm. apply NoDup_fst_map_to_list.
  - intros fi. rewrite list_elem_of_omap. split.
    + intros ([p e] & Hin & Hfi). rewrite Hperm in Hin. apply elem_of_map_to_list in Hin. by exists p, e.
    + intros (p & e & Hp & Hfi). exists (p, e). split; [| done]. rewrite Hperm. by apply elem_of_map_to_list.
Qed.
End plain.

(** ** The snapshot inside the synchronised folder *)

Definition snapshot_key : bytes := in_dir configDirName snapshotFileName.

Section churn.
Context `{OS, Digest, Unicode, LinkOS, GobLaws}.
Context (cfg : Config).

(** A device alone, whose folder holds its snapshot: what the snapshot's own record
    says of its content is out of date. *)
Record unsettled (e : Engine) (c : bytes) (prev : option (bytes * FileInfo)) : Prop := mkUnsettled {
  un_inv : inv e;
  un_alone : e_peers e = ∅;
  un_plain : plain (cfg_AbsRoot cfg) (e_disk e);
  un_disk : ∃ m t, e_disk e !! snapshot_key = Some (EFile c m t);
  un_saved : gob_enc (snapshotVersion, snapshotFilesLocked (e_files e)) = Some c;
  un_record : match prev with
              | None => e_files e !! snapshot_key = None
              | Some (c0, fi) => e_files e !! snapshot_key = Some fi ∧ ContentHash fi = sum256 c0 ∧ c0 ≠ c
              end
}.

Lemma foldl_alone e : e_peers e = ∅ → addresses e = [].
Proof. unfold addresses. by intros ->. Qed.

Lemma inflight_alone e key : e_peers e = ∅ → inflightLocked e key = false.
Proof. unfold inflightLocked. intros He. by rewrite foldl_alone. Qed.

(** Alone, a rescan is its effect on the records. *)
Lemma rescan_alone e l :
  e_peers e = ∅ → Scan (cfg_AbsRoot cfg) (e_disk e) = Ok l →
  e_files (rescan cfg true e) = (rescan_delta cfg (inflightLocked e) (e_files e) (dropInternal l)).1 ∧
  e_disk (rescan cfg true e) = e_disk e ∧ e_peers (rescan cfg true e) = ∅.
Proof.
  intros He Hl. unfold rescan. rewrite Hl. destruct (rescan_delta _ _ _ _) as [files delta].
  unfold peer_indexes. rewrite (foldl_alone e He). cbn [omap list_omap fmap list_fmap gcTombstonesLocked fst].
  set (e1 := if _ || _ then _ else _).
  assert (e_files e1 = files ∧ e_disk e1 = e_disk e ∧ e_peers e1 = ∅) as (Hf & Hd & Hp) by (unfold e1; by case_match).
  clearbody e1.
  assert (e_files (broadcastUpdate cfg e1 delta) = files ∧ e_disk (broadcastUpdate cfg e1 delta) = e_disk e ∧
    e_peers (broadcastUpdate cfg e1 delta) = ∅) as (Hf' & Hd' & Hp').
  { unfold broadcastUpdate. destruct delta; [done |]. destruct (EncodeFileInfos _); [| done].
    change (addresses (set_outbound e1 ?x)) with (addresses e1). by rewrite (foldl_alone e1 Hp). }
  rewrite (foldl_alone _ Hp'). cbn [foldl]. unfold saveSnapshot. by case_match.
Qed.
Lemma key_not_internal : internalFile snapshot_key = false.
Proof. vm_compute. reflexivity. Qed.

Lemma elem_of_dropInternal fi l : fi ∈ dropInternal l ↔ fi ∈ l ∧ internalFile (Path fi) = false.
Proof. unfold dropInternal. rewrite list_elem_of_filter. tauto. Qed.

Lemma dropInternal_NoDup l : NoDup (Path <$> l) → NoDup (Path <$> dropInternal l).
Proof. intros Hnd. eapply sublist_NoDup; [exact Hnd |]. apply fmap_sublist, sublist_filter. Qed.

(** What a rescan on a canonical disk leaves at the snapshot's path. *)
Lemma rescan_at_snapshot e :
  e_peers e = ∅ → plain (cfg_AbsRoot cfg) (e_disk e) →
  (∃ l, Scan (cfg_AbsRoot cfg) (e_disk e) = Ok l) ∧ e_disk (rescan cfg true e) = e_disk e ∧ e_peers (rescan cfg true e) = ∅ ∧
  (e_disk e !! snapshot_key = None → e_files e !! snapshot_key = None → e_files (rescan cfg true e) !! snapshot_key = None) ∧
  (∀ c m t, e_disk e !! snapshot_key = Some (EFile c m t) →
     (∀ fi, e_files e !! snapshot_key = Some fi → ContentHash fi ≠ sum256 c) →
     ∃ fi, e_files (rescan cfg true e) !! snapshot_key = Some fi ∧ ContentHash fi = sum256 c ∧
       Version fi = Bump (zero_version (e_files e !! snapshot_key)) (selfShort cfg)).
Proof.
  intros Hp Hpl. destruct (scan_plain _ _ Hpl) as (l & Hl & Hnd & Hin).
  destruct (rescan_alone e l Hp Hl) as (Hf & Hd & Hp'). split; [by exists l |]. split; [done |]. split; [done |].
  assert (Forall (λ s, inflightLocked e (Path s) = false) (dropInternal l)) as Hinf
    by (apply Forall_forall; intros; by apply inflight_alone).
  destruct (rescan_delta_lookup cfg (inflightLocked e) (e_files e) (dropInternal l) (dropInternal_NoDup l Hnd) Hinf) as (L1 & L2 & _).
  rewrite Hf. split.
  - intros Hdk Hfk. rewrite L2, Hfk; [done |]. intros (fi & Hk & [Hfi _]%elem_of_dropInternal)%list_elem_of_fmap.
    apply Hin in Hfi as (p & e0 & Hpe & Hfi). apply entry_info_path in Hfi as [Hpath _]. congruence.
  - intros c m t Hdk Hne. set (s := mkFileInfo snapshot_key (sum256 c) (Z.of_nat (length c)) m t [] false TypeFile).
    assert (s ∈ dropInternal l) as Hs.
    { apply elem_of_dropInternal. split; [| exact key_not_internal]. apply Hin. exists snapshot_key, (EFile c m t).
      split; [done |]. unfold entry_info, HashFileSize, read_file. by rewrite Hdk. }
    pose proof (L1 s Hs) as Hr. change (Path s) with snapshot_key in Hr. eexists. split; [exact Hr |]. unfold recorded.
    destruct (unchanged_leaf (e_files e !! snapshot_key) s) as [p |] eqn:Hu; [| by split].
    apply unchanged_leaf_Some in Hu as (Hpr & _ & Hh & _). by destruct (Hne p Hpr).
Qed.

Lemma save_effect d files c tmp now :
  gob_enc (snapshotVersion, files) = Some c → d !! snapshot_key ≠ Some EDir →
  (SaveSnapshot None 0 d snapshot_key files tmp now).1.2 = <[snapshot_key := EFile c private_mode now]> (delete tmp d).
Proof. intros Hc Hd. unfold SaveSnapshot. rewrite Hc. unfold writeFileAtomic. by rewrite decide_False. Qed.

Lemma plain_saved d c tmp now :
  plain (cfg_AbsRoot cfg) d → os_key (cfg_AbsRoot cfg) snapshot_key = Ok snapshot_key →
  plain (cfg_AbsRoot cfg) (<[snapshot_key := EFile c private_mode now]> (delete tmp d)).
Proof.
  intros Hpl Hk p e [[<- <-] | [_ [_ Hd]%lookup_delete_Some]]%lookup_insert_Some; [done | by apply Hpl].
Qed.

(** A rescan and the save that ends it, from a state where the record of the snapshot
    does not describe the file. *)
Lemma round_effect e env c' :
  inv e → e_peers e = ∅ → plain (cfg_AbsRoot cfg) (e_disk e) → os_key (cfg_AbsRoot cfg) snapshot_key = Ok snapshot_key →
  e_disk e !! snapshot_key ≠ Some EDir →
  gob_enc (snapshotVersion, snapshotFilesLocked (e_files (rescan_on_disk cfg env e))) = Some c' →
  let e' := rescan_on_disk cfg env e in
  e_files e' = e_files (rescan cfg true e) ∧ inv e' ∧ e_peers e' = ∅ ∧ plain (cfg_AbsRoot cfg) (e_disk e') ∧
  e_disk e' !! snapshot_key = Some (EFile c' private_mode env.2).
Proof.
  intros Hi Hp Hpl Hk Hdir Hc. destruct (rescan_at_snapshot e Hp Hpl) as ((l & Hl) & Hd & Hp' & _).
  unfold rescan_on_disk in Hc |- *. rewrite Hl in Hc |- *.
  change (e_files (set_disk (rescan cfg true e) ?d)) with (e_files (rescan cfg true e)) in Hc. fold snapshot_key.
  rewrite (save_effect _ _ c') by (done || by rewrite Hd). split; [done |].
  split; [apply (inv_own_step cfg (rescan cfg true e)); [by apply inv_rescan | constructor] |]. split; [done |]. cbn [e_disk set_disk].
  rewrite Hd. split; [by apply plain_saved | by rewrite lookup_insert_eq].
Qed.

Lemma round_unsettled e c prev env :
  unsettled e c prev → (∀ c0 fi, prev = Some (c0, fi) → sum256 c0 ≠ sum256 c) →
  is_Some (gob_enc (snapshotVersion, snapshotFilesLocked (e_files (rescan_on_disk cfg env e)))) →
  ∃ c' fi, unsettled (rescan_on_disk cfg env e) c' (Some (c, fi)) ∧
    Version fi = Bump (zero_version (e_files e !! snapshot_key)) (selfShort cfg).
Proof.
  intros [Hi Hp Hpl (m & t & Hd) Hsv Hrec] Hcol [c' Hc'].
  assert (os_key (cfg_AbsRoot cfg) snapshot_key = Ok snapshot_key) as Hk by (by apply (Hpl _ _ Hd)).
  destruct (round_effect e env c' Hi Hp Hpl Hk ltac:(by rewrite Hd) Hc') as (Hf & Hi' & Hp' & Hpl' & Hd').
  destruct (rescan_at_snapshot e Hp Hpl) as (_ & _ & _ & _ & Hnew).
  assert (∀ fi, e_files e !! snapshot_key = Some fi → ContentHash fi ≠ sum256 c) as Hne.
  { intros fi Hfi. destruct prev as [[c0 fi0] |]; [| by rewrite Hrec in Hfi]. destruct Hrec as (Hfi0 & Hh & _).
    rewrite Hfi0 in Hfi. apply (inj Some) in Hfi. subst fi0. rewrite Hh. by eapply Hcol. }
  destruct (Hnew c m t Hd Hne) as (fi & Hfi & Hh & Hv). exists c', fi. split; [| done].
  split; [done | done | done | by eauto | done |]. rewrite Hf. split_and!; [done | done |]. intros <-.
  pose proof (gob_roundtrip _ _ Hsv) as Hsame. rewrite (gob_roundtrip _ _ Hc') in Hsame. apply (inj Some) in Hsame.
  apply (f_equal snd) in Hsame. cbn [snd] in Hsame. apply (f_equal files_of) in Hsame.
  rewrite !files_of_snapshot in Hsame by (by apply inv_keyed). apply (Hne fi); [| done]. by rewrite <- Hsame, Hf.
Qed.

Definition saved (e : Engine) (c : bytes) : Prop := ∃ m t, e_disk e !! snapshot_key = Some (EFile c m t).

(** The counter of the snapshot's record after [n] rounds that saw it. *)
Definition count (n : nat) : VersionVector :=
  match n with O => [] | S _ => [mkCounter (selfShort cfg) (Z.of_nat n)] end.

Lemma Bump_count n : Z.of_nat n + 1 < 2 ^ 64 → Bump (count n) (selfShort cfg) = count (S n).
Proof.
  intros Hn. destruct n as [|n]; [done |]. rewrite Bump_list by (apply canonical_cons; split_and!; [cbn; lia | by constructor | apply canonical_nil]).
  unfold count, bump_list. cbn [ID Value]. rewrite Z.ltb_irrefl, Z.eqb_refl, wrap_small by (split; lia). by rewrite (Nat2Z.inj_succ (S n)).
Qed.

Lemma rounds_unsettled (env : nat → bytes * Z) e n :
  inv e → e_peers e = ∅ → plain (cfg_AbsRoot cfg) (e_disk e) → os_key (cfg_AbsRoot cfg) snapshot_key = Ok snapshot_key →
  e_disk e !! snapshot_key = None → e_files e !! snapshot_key = None → Z.of_nat n < 2 ^ 64 →
  (∀ i, (i ≤ S n)%nat → is_Some (gob_enc (snapshotVersion, snapshotFilesLocked (e_files (rounds cfg env i e))))) →
  (∀ i c c', (i ≤ n)%nat → saved (rounds cfg env i e) c → saved (rounds cfg env (S i) e) c' → sum256 c = sum256 c' → c = c') →
  ∃ c prev, unsettled (rounds cfg env (S n) e) c prev ∧
    (∀ c0 fi, prev = Some (c0, fi) → saved (rounds cfg env n e) c0) ∧
    zero_version (e_files (rounds cfg env (S n) e) !! snapshot_key) = count n.
Proof.
  intros Hi Hp Hpl Hk Hd Hf. induction n as [|n IH]; intros Hn Henc Hcol.
  - destruct (Henc 1%nat ltac:(lia)) as [c Hc]. cbn [rounds] in *.
    destruct (round_effect e (env 0%nat) c Hi Hp Hpl Hk ltac:(by rewrite Hd) Hc) as (Hf1 & Hi1 & Hp1 & Hpl1 & Hd1).
    destruct (rescan_at_snapshot e Hp Hpl) as (_ & _ & _ & Hnone & _). specialize (Hnone Hd Hf).
    exists c, None. rewrite Hf1, Hnone. split; [| done]. split; [done | done | done | by eauto | done | by rewrite Hf1].
  - destruct IH as (c & prev & Hu & Hprev & Hv).
    { lia. } { intros i Hin. apply Henc. lia. } { intros i ? ? Hin. apply Hcol. lia. }
    change (rounds cfg env (S (S n)) e) with (rescan_on_disk cfg (env (S n)) (rounds cfg env (S n) e)) in *.
    destruct (round_unsettled _ c prev (env (S n)) Hu) as (c' & fi & Hu' & Hvf).
    + intros c0 fi0 Heq Hsum. destruct Hu as [_ _ _ Hds _ Hrec]. rewrite Heq in Hrec. destruct Hrec as (_ & _ & Hne).
      apply Hne. apply (Hcol n); [lia | by eapply Hprev | exact Hds | done].
    + apply (Henc (S (S n))). lia.
    + exists c', (Some (c, fi)). split; [done |]. destruct Hu' as [_ _ _ _ _ (Hfi & _ & _)]. rewrite Hfi. cbn [zero_version from_option].
      split; [intros c0 fi0 [= <- <-]; exact (un_disk _ _ _ Hu) |]. rewrite Hvf, Hv. apply Bump_count. lia.
Qed.
End churn.

(** ** Two devices with the default configuration, in closed runs *)

Section two_devices.
(** The rolling checksum in front, so that device ids differ in their ShortID. *)
#[local] Instance head_digest : Digest.
Proof.
  refine {| sum256 s := be_enc 4 (toy_sum s) ++ repeat (byte_of_Z 0) 28 |}.
  intros s. by rewrite length_app, length_be_enc, repeat_length.
Defined.

Notation Run := (Disk * Disk * Result RunError Daemon)%type.
Definition host (r : bytes) : Host := mkHost (Some r) (Some true) true true true true.
Definition minted (key : bytes) (now : Z) : mint :=
  mkMint (Some (key, key)) (go! ".msync/.tmp-1") (go! ".msync/.tmp-2") now None None 0.
Definition engine_of (x : Run) : Engine := match x.2 with Ok d => dm_engine d | Err _ => e_start end.
Definition config_of (x : Run) : Config := match x.2 with Ok d => dm_config d | Err _ => home end.
(** A first run in an empty folder, stopped at once: Run ends by saving the snapshot. *)
Definition first_run (r key : bytes) (now : Z) : Run := run (host r) (minted key now) ∅ ∅ (go! "folder") [] [].
Definition stopped (x : Run) (now : Z) : Disk :=
  (SaveSnapshot None 0 (e_disk (engine_of x)) snapshot_key (snapshotFilesLocked (e_files (engine_of x)))
     (go! ".msync/.snapshot-1.tmp") now).1.2.
Definition a_first : Run := first_run (go! "/a") (go! "alpha") 5000000000.
Definition b_first : Run := first_run (go! "/b") (go! "beta") 9000000000.
Definition a_id : DeviceID := cfg_Self (config_of a_first).
Definition b_id : DeviceID := cfg_Self (config_of b_first).

(** Then each is started with the other's id. *)
Definition a_run : Run :=
  run (host (go! "/a")) (minted [] 0) (stopped a_first 6000000000) ∅ (go! "folder") [] [DeviceID_String b_id].
Definition b_run : Run :=
  run (host (go! "/b")) (minted [] 0) (stopped b_first 9500000000) ∅ (go! "folder") [] [DeviceID_String a_id].
Definition a_meets : Engine :=
  handleTransportEvent (config_of a_run) (engine_of a_run) (PeerConnected (Some (b_id, Hello_of (config_of b_run) (engine_of b_run)))).
Definition b_meets : Engine :=
  handleTransportEvent (config_of b_run) (engine_of b_run) (PeerConnected (Some (a_id, Hello_of (config_of a_run) (engine_of a_run)))).
Definition a_compares : Engine := deliver (config_of a_run) b_id a_meets (messages_of b_meets).
Definition b_compares : Engine := deliver (config_of b_run) a_id b_meets (messages_of a_meets).

(** The puller runs until it has nothing to do; what the wire brings is the content of
    the peer's file, and a completion is handled before the next task. *)
Definition next_task (e : Engine) : option FileInfo :=
  ps ← e_states e !! 0%nat; match ps_running ps with Some t => Some (ft_leaf t) | None => ft_leaf <$> head (ps_fetchQ ps) end.
Definition pull_one (cfg : Config) (peer : Disk) (e : Engine) : Engine :=
  match e_completions e with
  | _ :: _ => next_completion cfg e
  | [] =>
    match next_task e with
    | None => e
    | Some l => default e (puller_step cfg e 0 (go! ".msync/.msync-1.tmp") 77 ([default [] (read_file peer (Path l))], None, None))
    end
  end.
Definition a_pulled : Engine := Nat.iter 12 (pull_one (config_of a_run) (e_disk b_compares)) a_compares.

Definition key_name : bytes := in_dir configDirName keyFileName.
Definition stolen : Request :=
  mkRequest 1 key_name (sum256 (go! "KEYbeta")) 0 7.
End two_devices.

(** * Properties *)

(** the daemon trusts exactly itself and the devices given with -peer, every one of
    which parses; the declared pairs handed to the engine, which its de-pair sweep
    prunes by, are unset exactly when no flag was given; the engine started is the one
    on the identity, the snapshot and the root found on disk. A flag that does not
    parse stops it with that flag, and nothing is written when there is no directory
    to watch. *)
Theorem run_correct `{OS, LinkOS, Digest, Unicode, Certs, Gob} h mt root conf folderID configDir peers :
  let '(root', conf', r) := run h mt root conf folderID configDir peers in
  (configDir ≠ [] → root' = root) ∧ (configDir = [] → conf' = conf) ∧
  (ho_stat h ≠ Some true → root' = root ∧ conf' = conf) ∧
  match r with
  | Ok dm =>
    (∃ dids, Forall2 parses peers dids ∧
       (∀ id, Allowed (dm_allow dm) id = true ↔ id = id_device (dm_id dm) ∨ id ∈ dids) ∧
       cfg_Peers (dm_config dm) = if decide (peers = []) then None else Some dids) ∧
    cfg_Self (dm_config dm) = id_device (dm_id dm) ∧
    New (dm_config dm)
      (if decide (configDir = []) then snapshot_at root' snapshot_key else snapshot_at conf' snapshotFileName) root' =
      Ok (dm_engine dm)
  | Err (ErrInvalidPeer p e) => p ∈ peers ∧ ParseDeviceID (TrimSpace p) = Err e
  | Err _ => True
  end.
Proof.
  unfold run. destruct (ho_abs h) as [absDir |]; [| done]. destruct (ho_stat h) as [[] |]; [| done..].
  destruct (decide (configDir = [])) as [Hin | Hout]; [rewrite bool_decide_eq_true_2 by done | rewrite bool_decide_eq_false_2 by done];
    cbn [orb]; [| destruct (ho_config h); cbn [negb]; [| done]].
  all: destruct (LoadOrCreateIdentity _ _ _) as [[states store] r]; cbv zeta; cbn [negb];
    split; [done |]; split; [done |]; split; [done |].
  all: destruct r as [id | e]; [| done]; destruct (pair_peers _ _ peers) as [[allow paired] | e] eqn:Hps; cbn [rbind];
    [| destruct (pair_peers_err _ _ _ _ Hps) as (p & pe & Hp & -> & Hpe); done].
  all: destruct (ho_discovery h); cbn [negb]; [| done]; destruct (New _ _ _) as [eng |] eqn:Hnew; [| done].
  all: destruct (ho_listen h); cbn [negb]; [| done].
  all: apply pair_peers_ok in Hps as (dids & Hd & -> & ->); cbn [dm_allow dm_config dm_id dm_engine cfg_Self cfg_Peers].
  all: split; [| split; [done | exact Hnew]]; exists dids; split; [done |]; split; [| done].
  all: intros did; rewrite trusted; unfold NewAllowlist; set_solver.
Qed.

(** with the default configuration the snapshot is a file of the synchronised
    folder, and it lists the record of itself: on a device alone, in a folder nobody
    touches, each rescan after the first finds the snapshot it wrote itself at the last
    one changed, authors a new version of it, and writes it anew, for as long as the
    digest tells successive snapshots apart. *)
Theorem snapshot_never_settles `{OS, Digest, Unicode, LinkOS, GobLaws} cfg env e n :
  reachable cfg e → e_peers e = ∅ → plain (cfg_AbsRoot cfg) (e_disk e) →
  os_key (cfg_AbsRoot cfg) snapshot_key = Ok snapshot_key →
  e_disk e !! snapshot_key = None → e_files e !! snapshot_key = None → Z.of_nat (S n) < 2 ^ 64 →
  (∀ i, (i ≤ S (S n))%nat → is_Some (gob_enc (snapshotVersion, snapshotFilesLocked (e_files (rounds cfg env i e))))) →
  (∀ i c c', (i ≤ S n)%nat → saved (rounds cfg env i e) c → saved (rounds cfg env (S i) e) c' → sum256 c = sum256 c' → c = c') →
  ∃ fi c c', e_files (rounds cfg env (S (S n)) e) !! snapshot_key = Some fi ∧
    Version fi = [mkCounter (selfShort cfg) (Z.of_nat (S n))] ∧
    saved (rounds cfg env (S n) e) c ∧ saved (rounds cfg env (S (S n)) e) c' ∧ ContentHash fi = sum256 c ∧ c ≠ c'.
Proof.
  intros Hr Hp Hpl Hk Hd Hf Hn Henc Hcol.
  destruct (rounds_unsettled cfg env e (S n) (reachable_inv cfg e Hr) Hp Hpl Hk Hd Hf Hn Henc Hcol) as (c' & prev & Hu & Hprev & Hv).
  destruct Hu as [_ _ _ Hds _ Hrec]. destruct prev as [[c fi] |]; [| by rewrite Hrec in Hv].
  destruct Hrec as (Hfi & Hh & Hne). rewrite Hfi in Hv. cbn [zero_version from_option] in Hv.
  exists fi, c, c'. split_and!; [done | exact Hv | by eapply Hprev | done | done | done].
Qed.

Section churn_witness.
#[local] Existing Instance toy_digest.

(** An empty folder, and the temporary names and times of its rescans. *)
Definition fresh : Engine := start ∅.
Definition env (i : nat) : bytes * Z := (go! ".msync/.snapshot-1.tmp", Z.of_nat i).
Definition content (e : Engine) : bytes := match e_disk e !! snapshot_key with Some (EFile c _ _) => c | _ => [] end.
Definition told_apart (i : nat) : bool :=
  bool_decide (e_disk (rounds home env i fresh) !! snapshot_key = None) ||
  negb (bool_decide (sum256 (content (rounds home env i fresh)) = sum256 (content (rounds home env (S i) fresh)))).

Lemma saved_content e c : saved e c → c = content e.
Proof. intros (m & t & Hc). unfold content. by rewrite Hc. Qed.

Lemma all_told_apart i c c' :
  forallb told_apart (seq 0 3) = true → (i ≤ 2)%nat → saved (rounds home env i fresh) c →
  saved (rounds home env (S i) fresh) c' → sum256 c = sum256 c' → c = c'.
Proof.
  intros Hall Hi Hc Hc' Hsum. rewrite forallb_forall in Hall. specialize (Hall i). rewrite <- list_elem_of_In, elem_of_seq in Hall.
  specialize (Hall ltac:(lia)). exfalso. unfold told_apart in Hall. apply orb_prop in Hall as [Hn | Hne].
  - apply bool_decide_eq_true in Hn. destruct Hc as (m & t & Hc). congruence.
  - apply negb_true_iff, bool_decide_eq_false in Hne. apply Hne. by rewrite <- (saved_content _ _ Hc), <- (saved_content _ _ Hc').
Qed.

Lemma snapshot_never_settles_witness :
  ∃ fi, e_files (rounds home env 3 fresh) !! snapshot_key = Some fi ∧ Version fi = [mkCounter (selfShort home) 2].
Proof.
  destruct (snapshot_never_settles home env fresh 1) as (fi & c & c' & Hfi & Hv & _).
  - exists SnapMissing, ∅, fresh. split; [vm_compute; reflexivity | apply rtc_refl].
  - vm_compute. reflexivity.
  - apply map_Forall_empty.
  - vm_compute. reflexivity.
  - reflexivity.
  - vm_compute. reflexivity.
  - lia.
  - assert (forallb (λ i, bool_decide (is_Some (gob_enc (snapshotVersion, snapshotFilesLocked (e_files (rounds home env i fresh))))))
      (seq 0 4) = true) as Hall by (vm_compute; reflexivity).
    rewrite forallb_forall in Hall. intros i Hi. apply (bool_decide_eq_true _). apply Hall. apply list_elem_of_In, elem_of_seq. lia.
  - intros i c0 c1 Hi. apply all_told_apart; [vm_compute; reflexivity | lia].
  - exists fi. split; [exact Hfi | exact Hv].
Defined.

End churn_witness.

Section main_witness.
#[local] Existing Instance head_digest.

(** two devices started with the default configuration, paired with -peer and
    connected: the private key of each is a record of its index, served on request,
    and once the older device has pulled what the conflict resolution queued, the
    identity on its disk is the other device's. *)
Theorem identities_merge :
  bool_decide (a_id = b_id) = false ∧
  cfg_Self (config_of a_run) = a_id ∧ cfg_Self (config_of b_run) = b_id ∧
  is_Some (e_files (engine_of b_run) !! key_name) ∧
  serveRequest (e_disk b_compares) stolen = mkResponse 1 CodeOK (go! "KEYbeta") ∧
  match (LoadOrCreateIdentity (minted [] 0) (e_disk a_pulled) configDirName).2 with
  | Ok id => bool_decide (id_device id = b_id) = true
  | Err _ => False
  end.
Proof.
  split; [vm_compute; reflexivity |]. split; [vm_compute; reflexivity |]. split; [vm_compute; reflexivity |].
  split; [apply (bool_decide_unpack _); vm_compute; exact I |]. split; vm_compute; reflexivity.
Qed.
End main_witness.
