(* ===== verification/Watcher.v ===== *)
(** * Watcher: from file-system events to the engine (internal/reconcile/watcher.go,
    startWatcher of engine.go, the debouncer of scanloop.go)

    Two machines. The first is the set of watched directories: fsnotify watches one
    directory at a time, so a directory made or moved in below the root has to be
    found by the walk that its Create event starts; adding a watch, reading a
    directory or looking at a new entry may fail, and the kernel may lose events, all of
    which the code leaves to the next rescan. The second is the pipeline of
    channels between the watcher and the select loop: every goroutine's receive and
    send is one action, a send is enabled only while the channel has room.
    What the kernel reports is the documented behaviour of fsnotify: a Create event for
    an entry that appears in a watched directory. *)
From S2P Require Import Prelude Bytes VersionVector Messages Windows Pathnorm Hashing FileInfo.
From S2P Require Import Tree Conflict Scanner Disk Transfer Replica Engine Story Invariant Local Discovery Debounce.

(** ** The watched directories *)

(** A directory below the root by the names on its path; the root is the empty list. *)
Notation dir := (list bytes) (only parsing).
Definition parent (x : dir) : dir := take (length x - 1) x.

(** The walk of addTree is a stack of directories still to visit; visiting one adds
    its watch and then reads its entries. [wa_events]: Create events not yet read.
    [wa_missed] is not in the code: the directories at which something failed since
    the last walk that went over them, so that they, or what is below them, may be
    unwatched. *)
Record Watches := mkWatches {
  wa_dirs : gset dir; wa_watched : gset dir; wa_events : list dir; wa_walk : list dir; wa_missed : list dir }.

Definition children (ds : gset dir) (x : dir) : list dir :=
  elements (filter (λ y, y ≠ [] ∧ parent y = x) ds).

Inductive FsAct :=
| FsAppear (y : dir) (tree : gset dir) (kept : bool)
    (* mkdir, or a directory moved in with all it holds; its event may be lost (ErrEventOverflow) *)
| FsVanish (y : dir)                    (* a directory removed with all it holds *)
| WatchEvent (stat : bool)              (* run takes a Create event; os.Stat may fail *)
| WatchVisit (added : bool) (partial : option (gset dir))
    (* addTree visits the next directory of the walk: AddWith may fail, and the read of
       its entries, of which it then has some *)
| WatchFail.                            (* a directory of the walk that is gone *)

Definition outside (y : dir) (l : list dir) : list dir := filter (λ x, ¬ y `prefix_of` x) l.

Definition watch_step (w : Watches) (a : FsAct) : option Watches :=
  let '(mkWatches dirs watched events walk missed) := w in
  match a with
  | FsAppear y tree kept =>
    if decide (y ≠ [] ∧ parent y ∈ dirs ∧ y ∉ dirs ∧ y ∈ tree ∧
               (∀ x, x ∈ tree → y `prefix_of` x) ∧ (∀ x, x ∈ tree → x ≠ y → parent x ∈ tree))
    then let due := bool_decide (parent y ∈ watched) in
         Some (mkWatches (dirs ∪ tree) watched (if due && kept then events ++ [y] else events) walk
                 (if due && negb kept then y :: missed else missed))
    else None
  | FsVanish y =>
    if decide (y ≠ []) then
      Some (mkWatches (filter (λ x, ¬ y `prefix_of` x) dirs) (filter (λ x, ¬ y `prefix_of` x) watched) events walk (outside y missed))
    else None
  | WatchEvent stat =>
    match events, walk with
    | y :: q, [] =>
      Some (if decide (y ∈ dirs) then
              if stat then mkWatches dirs watched q [y] (outside y missed) else mkWatches dirs watched q [] (y :: missed)
            else mkWatches dirs watched q [] missed)
    | _, _ => None
    end
  | WatchVisit added partial =>
    match walk with
    | y :: rest =>
      if decide (y ∈ dirs)
      then let kids := match partial with None => children dirs y | Some read => filter (λ c, c ∈ read) (children dirs y) end in
           Some (mkWatches dirs (if added then {[y]} ∪ watched else watched) events (kids ++ rest)
                   (if added && bool_decide (partial = None) then missed else y :: missed))
      else None
    | [] => None
    end
  | WatchFail =>
    match walk with
    | y :: rest => if decide (y ∉ dirs) then Some (mkWatches dirs watched events rest missed) else None
    | [] => None
    end
  end.

Definition open_watch (ds : gset dir) : Watches := mkWatches ds ∅ [] [[]] [].
Inductive wstep (P : FsAct → Prop) (w w' : Watches) : Prop :=
| wstep_act a : P a → watch_step w a = Some w' → wstep P w w'.
(** Nothing fails and no event is lost. *)
Definition faultless (a : FsAct) : Prop :=
  match a with
  | FsAppear _ _ kept => kept = true | WatchEvent stat => stat = true
  | WatchVisit added partial => added = true ∧ partial = None | FsVanish _ | WatchFail => True
  end.
(** The watcher's own actions, while the file system is quiet. *)
Definition own_act (a : FsAct) : Prop := match a with FsAppear _ _ _ | FsVanish _ => False | _ => True end.
Definition own_faultless (a : FsAct) : Prop := own_act a ∧ faultless a.

Lemma parent_prefix x : parent x `prefix_of` x.
Proof. exists (drop (length x - 1) x). unfold parent. by rewrite take_drop. Qed.

Lemma parent_snoc x n : parent (x ++ [n]) = x.
Proof. unfold parent. rewrite length_app, Nat.add_sub. apply take_app_length. Qed.

(** A set of directories has the parent of each. *)
Definition closed (ds : gset dir) : Prop := [] ∈ ds ∧ ∀ x, x ∈ ds → x ≠ [] → parent x ∈ ds.

Lemma closed_prefix ds x y : closed ds → x ∈ ds → y `prefix_of` x → y ∈ ds.
Proof.
  intros [_ Hc] Hx [k ->]. induction k as [|n k IH] using rev_ind; [by rewrite app_nil_r in Hx |].
  rewrite app_assoc in Hx. apply IH. apply Hc in Hx; [| by intros [_ ?]%app_nil]. by rewrite parent_snoc in Hx.
Qed.

Lemma elem_of_children ds x y : y ∈ children ds x ↔ y ∈ ds ∧ y ≠ [] ∧ parent y = x.
Proof. unfold children. rewrite elem_of_elements, elem_of_filter. tauto. Qed.

Lemma child_between ds x y :
  closed ds → x ∈ ds → y `prefix_of` x → y ≠ x → ∃ c, c ∈ children ds y ∧ c `prefix_of` x.
Proof.
  intros Hc Hx [[|n k] ->] Hne; [by rewrite app_nil_r in Hne |]. exists (y ++ [n]).
  assert (y ++ [n] `prefix_of` y ++ n :: k) as Hp by (exists k; by rewrite <- app_assoc).
  split; [| done]. apply elem_of_children. split; [by eapply closed_prefix |]. split; [by intros [_ ?]%app_nil | apply parent_snoc].
Qed.

(** Every directory is watched, or a pending event or the walk will reach it, or it is
    at or below one that was missed. *)
Record covered (w : Watches) : Prop := mkCovered {
  co_closed : closed (wa_dirs w);
  co_cover : ∀ x, x ∈ wa_dirs w → x ∈ wa_watched w ∨ ∃ y, y `prefix_of` x ∧ (y ∈ wa_events w ∨ y ∈ wa_walk w ∨ y ∈ wa_missed w)
}.

Lemma open_covered ds : closed ds → covered (open_watch ds).
Proof.
  intros Hc. split; [done |]. intros x _. right. exists []. split; [apply prefix_nil | right; left; apply list_elem_of_singleton; done].
Qed.

Lemma elem_of_outside y l x : x ∈ outside y l ↔ ¬ y `prefix_of` x ∧ x ∈ l.
Proof. unfold outside. by rewrite list_elem_of_filter. Qed.
(** What was missed below [y] does not matter to what is not below it. *)
Lemma outside_cover y l x z : z `prefix_of` x → z ∈ l → y `prefix_of` x ∨ z ∈ outside y l.
Proof. intros Hz Hl. destruct (decide (y `prefix_of` z)); [left; by etrans | right; by apply elem_of_outside]. Qed.

Lemma covered_appear dirs watched events walk missed y tree (kept : bool) :
  covered (mkWatches dirs watched events walk missed) → parent y ∈ dirs →
  (∀ x, x ∈ tree → y `prefix_of` x) → (∀ x, x ∈ tree → x ≠ y → parent x ∈ tree) →
  let due := bool_decide (parent y ∈ watched) in
  covered (mkWatches (dirs ∪ tree) watched (if due && kept then events ++ [y] else events) walk
             (if due && negb kept then y :: missed else missed)).
Proof.
  intros [[Hroot Hcl] Hcov] Hp Hpre Htree due. cbn in *.
  assert (∀ y', y' ∈ events ∨ y' ∈ walk ∨ y' ∈ missed →
    y' ∈ (if due && kept then events ++ [y] else events) ∨ y' ∈ walk ∨ y' ∈ (if due && negb kept then y :: missed else missed)) as Hmono.
  { intros y' [? | [? | ?]]; [left; case_match; [apply elem_of_app; by left | done] | by right; left |].
    right; right. case_match; [by apply list_elem_of_further | done]. }
  split; cbn [wa_dirs wa_watched wa_events wa_walk wa_missed].
  - split; [set_solver |]. intros x [Hx | Hx]%elem_of_union Hne; apply elem_of_union.
    + left. by apply Hcl.
    + destruct (decide (x = y)) as [-> | Hxy]; [by left | right; by apply Htree].
  - intros x [Hx | Hx]%elem_of_union.
    + destruct (Hcov x Hx) as [? | (z & Hz & Hin)]; [by left | right; exists z; auto].
    + right. destruct (decide (parent y ∈ watched)) as [Hw | Hw].
      * exists y. split; [by apply Hpre |]. unfold due. rewrite bool_decide_eq_true_2 by done.
        destruct kept; [left; apply elem_of_app; right; by apply list_elem_of_singleton | right; right; apply list_elem_of_here].
      * destruct (Hcov (parent y) Hp) as [? | (z & Hz & Hin)]; [done |]. exists z. split; [| auto].
        etrans; [exact Hz |]. etrans; [apply parent_prefix | by apply Hpre].
Qed.

Lemma covered_vanish dirs watched events walk missed y :
  y ≠ [] → covered (mkWatches dirs watched events walk missed) →
  covered (mkWatches (filter (λ x, ¬ y `prefix_of` x) dirs) (filter (λ x, ¬ y `prefix_of` x) watched) events walk (outside y missed)).
Proof.
  intros Hy [[Hroot Hcl] Hcov]. split; cbn in *.
  - split.
    + apply elem_of_filter. split; [| done]. intros ?%prefix_nil_inv. done.
    + intros x [Hx1 Hx2]%elem_of_filter Hne. apply elem_of_filter. split; [| by apply Hcl].
      intros Hpre. apply Hx1. etrans; [exact Hpre | apply parent_prefix].
  - intros x [Hx1 Hx2]%elem_of_filter. destruct (Hcov x Hx2) as [? | (z & Hz & Hin)]; [left; by apply elem_of_filter |].
    right. exists z. split; [done |]. destruct Hin as [? | [? | Hm]]; [by left | by right; left | right; right].
    by destruct (outside_cover y missed x z Hz Hm).
Qed.

Lemma covered_event dirs watched y q missed (stat : bool) :
  covered (mkWatches dirs watched (y :: q) [] missed) →
  covered (if decide (y ∈ dirs) then
             if stat then mkWatches dirs watched q [y] (outside y missed) else mkWatches dirs watched q [] (y :: missed)
           else mkWatches dirs watched q [] missed).
Proof.
  intros [Hcl Hcov]. cbn in *. assert (∀ x, x ∈ dirs → x ∈ watched ∨ y `prefix_of` x ∧ y ∈ dirs ∨
    ∃ z, z `prefix_of` x ∧ (z ∈ q ∨ z ∈ missed)) as Hc.
  { intros x Hx. destruct (Hcov x Hx) as [? | (z & Hz & [[-> | ?]%elem_of_cons | [?%not_elem_of_nil | ?]])];
      [by left | right; left | right; right; eauto | done | right; right; eauto]. split; [done | by eapply closed_prefix]. }
  case_decide as Hy; [destruct stat |]; (split; [done |]); cbn; intros x Hx; destruct (Hc x Hx) as [? | [[Hp Hd] | (z & Hz & Hor)]]; auto.
  - right. exists y. split; [done | right; left; by apply list_elem_of_singleton].
  - right. destruct Hor as [? | Hm]; [eauto |]. destruct (outside_cover y missed x z Hz Hm) as [? | ?]; [| eauto].
    exists y. split; [done | right; left; by apply list_elem_of_singleton].
  - right. exists y. split; [done | right; right; apply list_elem_of_here].
  - right. exists z. split; [done |]. destruct Hor; [by left | right; right; by apply list_elem_of_further].
  - done.
  - right. exists z. split; [done |]. destruct Hor; auto.
Qed.

Lemma covered_visit (dirs watched : gset dir) (events : list dir) (y : dir) (rest missed : list dir) (added : bool) (partial : option (gset dir)) :
  y ∈ dirs → covered (mkWatches dirs watched events (y :: rest) missed) →
  let kids := match partial with None => children dirs y | Some read => filter (λ c, c ∈ read) (children dirs y) end in
  covered (mkWatches dirs (if added then {[y]} ∪ watched else watched) events (kids ++ rest)
             (if added && bool_decide (partial = None) then missed else y :: missed)).
Proof.
  intros Hy [Hcl Hcov] kids. split; [done |]. cbn in *. intros x Hx.
  set (missed' := if added && bool_decide (partial = None) then missed else y :: missed).
  assert (∀ z, z ∈ missed → z ∈ missed') as Hm by (intros z Hz; unfold missed'; case_match; [done | by apply list_elem_of_further]).
  destruct (Hcov x Hx) as [? | (z & Hz & [? | [[-> | ?]%elem_of_cons | ?]])].
  - left. destruct added; set_solver.
  - right. eauto 8.
  - destruct (added && bool_decide (partial = None)) eqn:Hok.
    2:{ right. exists y. split; [done | right; right; apply list_elem_of_here]. }
    apply andb_true_iff in Hok as [-> Hp%bool_decide_eq_true]. unfold kids. rewrite Hp.
    destruct (decide (y = x)) as [-> | Hne]; [left; set_solver |]. right.
    destruct (child_between _ x y Hcl Hx Hz Hne) as (c & Hc & Hpre). exists c. split; [done | right; left; set_solver].
  - right. exists z. split; [done | right; left; apply elem_of_app; by right].
  - right. eauto 8.
Qed.

Lemma covered_step w a w' : covered w → watch_step w a = Some w' → covered w'.
Proof.
  destruct w as [dirs watched events walk missed]. intros Hc Hs. destruct a as [y tree kept | y | stat | added partial |]; cbn [watch_step] in Hs.
  - case_decide as Hy; [| done]. apply (inj Some) in Hs as <-. destruct Hy as (_ & Hp & _ & _ & Hpre & Htree). by apply covered_appear.
  - case_decide as Hy; [| done]. apply (inj Some) in Hs as <-. by apply covered_vanish.
  - destruct events as [|y q]; [done |]. destruct walk; [| done]. apply (inj Some) in Hs as <-. by apply covered_event.
  - destruct walk as [|y rest]; [done |]. case_decide as Hy; [| done]. apply (inj Some) in Hs as <-. by apply covered_visit.
  - destruct walk as [|y rest]; [done |]. case_decide as Hy; [| done]. apply (inj Some) in Hs as <-.
    destruct Hc as [Hcl Hcov]. split; [done |]. cbn in *. intros x Hx.
    destruct (Hcov x Hx) as [? | (z & Hz & [? | [[-> | ?]%elem_of_cons | ?]])]; [by left | right; eauto | | right; eauto | right; eauto].
    exfalso. apply Hy. by eapply closed_prefix.
Qed.

(** Without failures nothing is missed. *)
Lemma faultless_step w a w' : faultless a → watch_step w a = Some w' → wa_missed w' ⊆ wa_missed w.
Proof.
  assert (∀ y l, outside y l ⊆ l) as Hout by (intros y l x [_ ?]%elem_of_outside; done).
  destruct w as [dirs watched events walk missed]. intros Hf Hs. destruct a as [y tree kept | y | stat | added partial |]; cbn in Hf, Hs.
  - subst kept. case_decide; [| done]. apply (inj Some) in Hs as <-. cbn. by rewrite andb_false_r.
  - case_decide; [| done]. apply (inj Some) in Hs as <-. apply Hout.
  - subst stat. destruct events as [|y q]; [done |]. destruct walk; [| done]. apply (inj Some) in Hs as <-. case_decide; [apply Hout | done].
  - destruct Hf as [-> ->]. destruct walk as [|y rest]; [done |]. case_decide; [| done]. by apply (inj Some) in Hs as <-.
  - destruct walk as [|y rest]; [done |]. case_decide; [| done]. by apply (inj Some) in Hs as <-.
Qed.
Lemma faultless_run (P : FsAct → Prop) w w' : (∀ a, P a → faultless a) → rtc (wstep P) w w' → wa_missed w' ⊆ wa_missed w.
Proof. intros HP. induction 1 as [|w1 w2 w3 [a Ha Hs] _ IH]; [done |]. etrans; [exact IH |]. eapply faultless_step; eauto. Qed.

(** *** The walk ends *)

Definition below (ds : gset dir) (y : dir) : gset dir := filter (λ x, y `prefix_of` x) ds.

Lemma below_child ds y c : y ∈ ds → c ∈ children ds y → (size (below ds c) < size (below ds y))%nat.
Proof.
  intros Hy (Hc & Hne & <-)%elem_of_children. apply subset_size. split.
  - intros x [Hx ?]%elem_of_filter. apply elem_of_filter. split; [| done]. etrans; [apply parent_prefix | done].
  - intros Hsub. assert (parent c ∈ below ds c) as [Hp _]%elem_of_filter by (by apply Hsub, elem_of_filter).
    apply prefix_length in Hp. unfold parent in Hp. rewrite length_take in Hp. destruct c; [done |]. simpl in Hp. lia.
Qed.

Lemma walk_ends n dirs watched events y rest missed :
  (size (below dirs y) ≤ n)%nat →
  ∃ ws, rtc (wstep own_faultless) (mkWatches dirs watched events (y :: rest) missed) (mkWatches dirs ws events rest missed).
Proof.
  revert watched y rest. induction n as [|n IH]; intros watched y rest Hn.
  all: destruct (decide (y ∈ dirs)) as [Hy | Hy];
    [| exists watched; apply rtc_once, (wstep_act _ _ _ WatchFail); [done |]; cbn; by rewrite decide_True].
  - exfalso. assert (y ∈ below dirs y) as Hin by (by apply elem_of_filter).
    apply Nat.le_0_r, size_empty_inv in Hn. apply Hn in Hin. set_solver.
  - assert (∀ cs ws, Forall (λ c, size (below dirs c) ≤ n)%nat cs →
      ∃ ws', rtc (wstep own_faultless) (mkWatches dirs ws events (cs ++ rest) missed) (mkWatches dirs ws' events rest missed)) as Hcs.
    { induction cs as [|c cs IHc]; intros ws Hall; [exists ws; apply rtc_refl |]. apply Forall_cons in Hall as [Hc Hall].
      destruct (IH ws c (cs ++ rest) Hc) as (ws1 & H1). destruct (IHc ws1 Hall) as (ws2 & H2). exists ws2. by etrans. }
    destruct (Hcs (children dirs y) ({[y]} ∪ watched)) as (ws & Hrun).
    { apply Forall_forall. intros c Hc. pose proof (below_child _ _ _ Hy Hc). lia. }
    exists ws. eapply rtc_l; [| exact Hrun]. apply (wstep_act _ _ _ (WatchVisit true None)); [done |]. cbn [watch_step].
    by rewrite decide_True.
Qed.

Lemma walks_end dirs watched events walk missed :
  ∃ ws, rtc (wstep own_faultless) (mkWatches dirs watched events walk missed) (mkWatches dirs ws events [] missed).
Proof.
  revert watched. induction walk as [|y walk IH]; intros watched; [exists watched; apply rtc_refl |].
  destruct (walk_ends _ dirs watched events y walk missed (Nat.le_refl _)) as (ws1 & H1).
  destruct (IH ws1) as (ws2 & H2). exists ws2. by etrans.
Qed.

Lemma events_end w : ∃ ws ms, rtc (wstep own_faultless) w (mkWatches (wa_dirs w) ws [] [] ms).
Proof.
  destruct w as [dirs watched events walk missed]. cbn. revert watched walk missed.
  induction events as [|y evs IH]; intros watched walk missed.
  - destruct (walks_end dirs watched [] walk missed) as (ws & Hrun). eauto.
  - destruct (walks_end dirs watched (y :: evs) walk missed) as (ws1 & H1).
    destruct (decide (y ∈ dirs)) as [Hy | Hy].
    + destruct (IH ws1 [y] (outside y missed)) as (ws2 & ms & H2). exists ws2, ms. etrans; [exact H1 |]. eapply rtc_l; [| exact H2].
      apply (wstep_act _ _ _ (WatchEvent true)); [done |]. cbn. by rewrite decide_True.
    + destruct (IH ws1 [] missed) as (ws2 & ms & H2). exists ws2, ms. etrans; [exact H1 |]. eapply rtc_l; [| exact H2].
      apply (wstep_act _ _ _ (WatchEvent true)); [done |]. cbn. by rewrite decide_False.
Qed.

Lemma covered_run P w w' : covered w → rtc (wstep P) w w' → covered w'.
Proof. intros Hc. induction 1 as [|w1 w2 w3 [a _ Hs] _ IH]; [done |]. apply IH. by eapply covered_step. Qed.

(** ** The pipeline *)

(** What each goroutine and channel holds: [pi_held] is the key run is sending on
    changes, [pi_forward] the one the forwarder is sending on debounceIn, [pi_firing]
    what the debouncer's tick still has to emit. *)
Record Pipe := mkPipe {
  pi_held : option bytes; pi_changes : list bytes; pi_overflow : bool;
  pi_forward : option bytes; pi_debounceIn : list bytes; pi_rescanNow : bool;
  pi_pending : gmap bytes Z; pi_firing : list bytes; pi_local : list bytes
}.
Definition pipe0 : Pipe := mkPipe None [] false None [] false ∅ [] [].

Definition chanDepth : nat := 256.

Inductive PipeAct :=
| PEvent (rel : bytes)     (* run reads an event on the absolute path of [rel] *)
| PError (overflow : bool) (* run reads an error *)
| PChange                  (* run sends on changes *)
| PForward | PDebounceIn   (* the forwarder receives from changes, sends on debounceIn *)
| POverflow                (* the forwarder receives from overflow *)
| PPending (now : Z)       (* the debouncer receives *)
| PTick (now : Z) | PEmit  (* the debouncer's tick, one emission *)
| PLocal | PRescan.        (* the select loop receives from localChanges, from rescanNow *)

(** What the select loop gets. *)
Inductive Hint := HLocal (key : bytes) | HRescan.

Section pipe.
Context `{Unicode}.
Context (absRoot : bytes) (window : Z).

Definition watch_key (rel : bytes) : option bytes :=
  match os_key absRoot rel with Ok [] => None | Ok key => Some key | Err _ => None end.

Definition room (q : list bytes) : bool := (length q <? chanDepth)%nat.
Arguments room : simpl never.

Definition pipe_step (p : Pipe) (a : PipeAct) : option (Pipe * option Hint) :=
  let '(mkPipe held changes ovf fwd deb resc pend firing loc) := p in
  match a with
  | PEvent rel =>
    if held then None else Some (mkPipe (watch_key rel) changes ovf fwd deb resc pend firing loc, None)
  | PError o => if held then None else Some (mkPipe held changes (ovf || o) fwd deb resc pend firing loc, None)
  | PChange =>
    match held with
    | Some k => if room changes then Some (mkPipe None (changes ++ [k]) ovf fwd deb resc pend firing loc, None) else None
    | None => None
    end
  | PForward =>
    match fwd, changes with
    | None, k :: q => Some (mkPipe held q ovf (Some k) deb resc pend firing loc, None)
    | _, _ => None
    end
  | POverflow =>
    match fwd, ovf with None, true => Some (mkPipe held changes false fwd deb true pend firing loc, None) | _, _ => None end
  | PDebounceIn =>
    match fwd with
    | Some k => if room deb then Some (mkPipe held changes ovf None (deb ++ [k]) resc pend firing loc, None) else None
    | None => None
    end
  | PPending now =>
    match firing, deb with
    | [], k :: q => Some (mkPipe held changes ovf fwd q resc (<[k := now]> pend) firing loc, None)
    | _, _ => None
    end
  | PTick now =>
    match firing with
    | [] => Some (mkPipe held changes ovf fwd deb resc pend
                    (filter (λ '(_, last), Debounce.quiet window now last = true) (map_to_list pend)).*1 loc, None)
    | _ => None
    end
  | PEmit =>
    match firing with
    | k :: f => if room loc then Some (mkPipe held changes ovf fwd deb resc (delete k pend) f (loc ++ [k]), None) else None
    | [] => None
    end
  | PLocal => match loc with k :: q => Some (mkPipe held changes ovf fwd deb resc pend firing q, Some (HLocal k)) | [] => None end
  | PRescan => if resc then Some (mkPipe held changes ovf fwd deb false pend firing loc, Some HRescan) else None
  end.

Fixpoint pipe_run (p : Pipe) (acts : list PipeAct) : option (Pipe * list Hint) :=
  match acts with
  | [] => Some (p, [])
  | a :: acts' =>
    '(p', h) ← pipe_step p a; '(p'', hs) ← pipe_run p' acts'; Some (p'', option_list h ++ hs)
  end.

(** *** Nothing is lost on the way *)

Definition carries (p : Pipe) (k : bytes) : Prop :=
  pi_held p = Some k ∨ k ∈ pi_changes p ∨ pi_forward p = Some k ∨ k ∈ pi_debounceIn p ∨
  is_Some (pi_pending p !! k) ∨ k ∈ pi_firing p ∨ k ∈ pi_local p.
Definition owes_rescan (p : Pipe) : Prop := pi_overflow p = true ∨ pi_rescanNow p = true.

Lemma carries_step p a p' h k :
  carries p k → pipe_step p a = Some (p', h) → carries p' k ∨ h = Some (HLocal k).
Proof.
  unfold carries. destruct p as [held changes ovf fwd deb resc pend firing loc]. cbn. intros Hc Hs.
  destruct a; cbn in Hs; repeat case_match; simplify_eq; cbn;
    rewrite ?elem_of_app, ?elem_of_cons, ?elem_of_nil in *; try tauto.
  all: try naive_solver.
  - destruct (decide (l = k)) as [-> | Hne]; rewrite ?lookup_insert_eq, ?lookup_insert_ne by done; naive_solver.
  - destruct (decide (l = k)) as [-> | Hne]; rewrite ?lookup_delete_ne by done; naive_solver.
Qed.

Lemma owes_step p a p' h : owes_rescan p → pipe_step p a = Some (p', h) → owes_rescan p' ∨ h = Some HRescan.
Proof.
  unfold owes_rescan. destruct p as [held changes ovf fwd deb resc pend firing loc]. cbn. intros Hc Hs.
  destruct a; cbn in Hs; repeat case_match; simplify_eq; cbn; rewrite ?orb_true_iff; naive_solver.
Qed.

Lemma pipe_run_keeps (P : Pipe → Prop) (h : Hint) p acts p' hs :
  (∀ p a p' o, P p → pipe_step p a = Some (p', o) → P p' ∨ o = Some h) →
  P p → pipe_run p acts = Some (p', hs) → P p' ∨ h ∈ hs.
Proof.
  intros Hstep. revert p hs. induction acts as [|a acts IH]; intros p hs Hp Hrun; cbn in Hrun; [simplify_eq; by left |].
  destruct (pipe_step p a) as [[p1 o] |] eqn:Ha; [cbn in Hrun | done].
  destruct (pipe_run p1 acts) as [[p2 hs2] |] eqn:Hr; cbn in Hrun; [simplify_eq | done].
  destruct (Hstep _ _ _ _ Hp Ha) as [Hp1 | ->]; [| right; simpl; apply elem_of_cons; by left].
  destruct (IH _ _ Hp1 Hr) as [? | ?]; [by left | right; apply elem_of_app; by right].
Qed.

(** *** The pipeline cannot block for good *)

Record piped (p : Pipe) : Prop := mkPiped {
  pp_firing : NoDup (pi_firing p);
  pp_pending : ∀ k, k ∈ pi_firing p → is_Some (pi_pending p !! k);
  pp_bounds : (length (pi_changes p) ≤ chanDepth ∧ length (pi_debounceIn p) ≤ chanDepth ∧ length (pi_local p) ≤ chanDepth)%nat
}.

Lemma elem_of_quiet (pend : gmap bytes Z) now k :
  k ∈ (filter (λ '(_, last), Debounce.quiet window now last = true) (map_to_list pend)).*1 ↔
  ∃ last, pend !! k = Some last ∧ Debounce.quiet window now last = true.
Proof.
  rewrite list_elem_of_fmap. split.
  - intros ([q last] & -> & [Hq Hin]%list_elem_of_filter). apply elem_of_map_to_list in Hin. eauto.
  - intros (last & Hk & Hq). exists (k, last). split; [done |]. apply list_elem_of_filter. split; [done |].
    by apply elem_of_map_to_list.
Qed.

Lemma room_lt q : room q = true → (length q + 1 ≤ chanDepth)%nat.
Proof. unfold room. rewrite Nat.ltb_lt. lia. Qed.

Lemma piped_step p a p' h : piped p → pipe_step p a = Some (p', h) → piped p'.
Proof.
  destruct p as [held changes ovf fwd deb resc pend firing loc]. intros [Hnd Hpd (B1 & B2 & B3)] Hs. cbn in *.
  destruct a; cbn [pipe_step] in Hs; repeat case_match; simplify_eq;
    repeat match goal with Hr : room _ = true |- _ => apply room_lt in Hr end;
    split; cbn in *; rewrite ?length_app; cbn; try done; try lia.
  - intros k ?%not_elem_of_nil. done.
  - apply NoDup_fmap_fst; [| apply NoDup_filter, NoDup_map_to_list].
    intros q x y [_ Hx]%list_elem_of_filter [_ Hy]%list_elem_of_filter. apply elem_of_map_to_list in Hx, Hy. congruence.
  - intros k (last & Hk & _)%elem_of_quiet. eauto.
  - by apply NoDup_cons in Hnd as [_ ?].
  - intros k Hk. apply NoDup_cons in Hnd as [Hn _]. rewrite lookup_delete_ne by (by intros ->). apply Hpd, elem_of_cons. by right.
Qed.

Lemma piped_run p acts p' hs : piped p → pipe_run p acts = Some (p', hs) → piped p'.
Proof.
  revert p hs. induction acts as [|a acts IH]; intros p hs Hp Hrun; cbn in Hrun; [by simplify_eq |].
  destruct (pipe_step p a) as [[p1 o] |] eqn:Ha; [cbn in Hrun | done].
  destruct (pipe_run p1 acts) as [[p2 hs2] |] eqn:Hr; cbn in Hrun; [simplify_eq | done].
  eapply IH; [by eapply piped_step | done].
Qed.

(** The actions of our own goroutines. *)
Definition internal (a : PipeAct) : Prop := match a with PEvent _ | PError _ => False | _ => True end.

(** How far everything is from the select loop. *)
Definition distance (p : Pipe) : nat :=
  (7 * length (option_list (pi_held p)) + 6 * length (pi_changes p) + 5 * length (option_list (pi_forward p)) +
   4 * length (pi_debounceIn p) + 3 * size (pi_pending p) + length (pi_local p) +
   (if pi_firing p then 1 else 0) + 2 * Nat.b2n (pi_overflow p) + Nat.b2n (pi_rescanNow p))%nat.

(** A tick late enough finds every pending path quiet. *)
Lemma late_enough (pend : gmap bytes Z) :
  window < 2 ^ 63 → ∃ now, ∀ k last, pend !! k = Some last → Debounce.quiet window now last = true.
Proof.
  intros Hw. assert (∃ now, ∀ k last, pend !! k = Some last → last + 2 ^ 63 ≤ now) as [now Hnow].
  { induction pend as [|k last pend Hk IH] using map_ind; [by exists 0 |]. destruct IH as [now Hnow].
    exists (Z.max now (last + 2 ^ 63)). intros q l [[<- <-] | [_ Hq]]%lookup_insert_Some; [lia |]. specialize (Hnow q l Hq). lia. }
  exists now. intros k last Hk. specialize (Hnow k last Hk). unfold Debounce.quiet, Sub. apply Z.leb_le. lia.
Qed.

Lemma pipe_progress p :
  window < 2 ^ 63 → piped p → (∃ k, carries p k) ∨ owes_rescan p →
  ∃ a p' o, internal a ∧ pipe_step p a = Some (p', o) ∧ (distance p' < distance p)%nat.
Proof.
  intros Hw Hp Hsome. pose proof (pp_pending p Hp) as Hpd. destruct p as [held changes ovf fwd deb resc pend firing loc].
  cbn in Hpd. clear Hp. unfold distance. cbn [pi_held pi_changes pi_overflow pi_forward pi_debounceIn pi_rescanNow pi_pending pi_firing pi_local].
  destruct resc; [exists PRescan; do 2 eexists; split_and!; [done | reflexivity | cbn; lia] |].
  destruct loc as [|k loc]; [| exists PLocal; do 2 eexists; split_and!; [done | reflexivity | cbn; lia]].
  destruct firing as [|k firing].
  2:{ exists PEmit. do 2 eexists. split_and!; [done | reflexivity |]. cbn. destruct (Hpd k ltac:(apply elem_of_cons; by left)) as [last Hk].
      rewrite map_size_delete_Some by eauto. assert (size pend ≠ 0%nat) by (intros ->%map_size_empty_inv; by rewrite lookup_empty in Hk).
      destruct firing; lia. }
  destruct (decide (pend = ∅)) as [-> | Hne].
  2:{ destruct (late_enough pend Hw) as [now Hnow]. exists (PTick now). do 2 eexists. split_and!; [done | reflexivity |]. cbn.
      apply map_choose in Hne as (k & last & Hk).
      assert (k ∈ (filter (λ '(_, last), Debounce.quiet window now last = true) (map_to_list pend)).*1) as Hin
        by (apply elem_of_quiet; eauto).
      destruct (filter _ _).*1 as [|x l]; [by apply not_elem_of_nil in Hin | lia]. }
  destruct deb as [|k deb].
  2:{ exists (PPending 0). do 2 eexists. split_and!; [done | reflexivity |]. cbn. rewrite map_size_insert_None by apply lookup_empty.
      rewrite map_size_empty. lia. }
  destruct fwd as [k |]; [exists PDebounceIn; do 2 eexists; split_and!; [done | reflexivity | cbn; lia] |].
  destruct ovf; [exists POverflow; do 2 eexists; split_and!; [done | reflexivity | cbn; lia] |].
  destruct changes as [|k changes]; [| exists PForward; do 2 eexists; split_and!; [done | reflexivity | cbn; lia]].
  destruct held as [k |]; [exists PChange; do 2 eexists; split_and!; [done | reflexivity | cbn; lia] |].
  exfalso. destruct Hsome as [[k Hc] | [? | ?]]; [| done..]. unfold carries in Hc. cbn in Hc. rewrite !elem_of_nil, lookup_empty in Hc.
  destruct Hc as [? | [[] | [? | [[] | [[? ?] | [[] | []]]]]]]; done.
Qed.

Lemma pipe_drains p :
  window < 2 ^ 63 → piped p →
  ∃ acts p' hs, Forall internal acts ∧ pipe_run p acts = Some (p', hs) ∧ (∀ k, ¬ carries p' k) ∧ ¬ owes_rescan p'.
Proof.
  intros Hw. remember (distance p) as n eqn:Hn. revert p Hn. induction (lt_wf n) as [n _ IH]. intros p Hn Hp.
  destruct (decide ((option_list (pi_held p) ++ pi_changes p ++ option_list (pi_forward p) ++ pi_debounceIn p ++
    (map_to_list (pi_pending p)).*1 ++ pi_firing p ++ pi_local p = [] ∧ pi_overflow p || pi_rescanNow p = false))) as [[Hk Ho] | Hne].
  - exists [], p, []. split_and!; [done | done | |].
    + intros k Hc. apply (not_elem_of_nil k). rewrite <- Hk. unfold carries in Hc. rewrite !elem_of_app.
      destruct Hc as [-> | [? | [-> | [? | [[last Hl] | [? | ?]]]]]]; cbn; rewrite ?list_elem_of_singleton; try tauto.
      do 4 right. left. apply (list_elem_of_fmap_2 fst _ (k, last)). by apply elem_of_map_to_list.
    + apply orb_false_iff in Ho as [Ho1 Ho2]. unfold owes_rescan. rewrite Ho1, Ho2. by intros [|].
  - destruct (pipe_progress p Hw Hp) as (a & p1 & o & Ha & Hs & Hd).
    { destruct (pi_overflow p || pi_rescanNow p) eqn:Ho; [right; by apply orb_true_iff |]. left.
      destruct (option_list (pi_held p) ++ _) as [|k l] eqn:Hl; [by destruct Hne |]. exists k.
      assert (k ∈ k :: l) as Hin by (apply elem_of_cons; by left). rewrite <- Hl, !elem_of_app in Hin. unfold carries.
      destruct Hin as [Hin | [? | [Hin | [? | [Hin | [? | ?]]]]]]; try tauto.
      - left. destruct (pi_held p); cbn in Hin; [apply list_elem_of_singleton in Hin; by subst | by apply not_elem_of_nil in Hin].
      - do 2 right. left. destruct (pi_forward p); cbn in Hin; [apply list_elem_of_singleton in Hin; by subst | by apply not_elem_of_nil in Hin].
      - do 4 right. left. apply list_elem_of_fmap in Hin as ([q last] & -> & Hin). apply elem_of_map_to_list in Hin. eauto. }
    destruct (IH (distance p1) ltac:(lia) p1 eq_refl ltac:(by eapply piped_step)) as (acts & p2 & hs & Hall & Hrun & Hdone).
    exists (a :: acts), p2, (option_list o ++ hs). split; [by constructor |]. split; [| done]. cbn. rewrite Hs. cbn. by rewrite Hrun.
Qed.
End pipe.

(** ** The engine at the end of the pipeline *)

Section hints.
Context `{OS, Digest, Unicode}.
Context (cfg : Config).

(** The cases of the select loop that receive from the pipeline. *)
Definition take_hint (saved : bool) (e : Engine) (h : Hint) : Engine :=
  match h with HLocal key => onLocalChange cfg e key | HRescan => rescan cfg saved e end.

(** The record at [key] agrees with the disk. *)
Definition agrees (e : Engine) (key : bytes) : Prop :=
  (e_disk e !! key = None → ∀ fi, e_files e !! key = Some fi → Deleted fi = true) ∧
  (∀ ent nfi, e_disk e !! key = Some ent → scanOne (e_disk e) key ent = Some nfi →
     ∃ fi, e_files e !! key = Some fi ∧ same_leaf fi nfi).

Lemma authors_frame e e' key q : authors cfg e e' key q → e_states e' = e_states e ∧ e_peers e' = e_peers e.
Proof.
  intros ->. by destruct (broadcast_frame cfg (rebuild (set_files e (<[key := q]> (e_files e)))) [q]) as (-> & -> & _).
Qed.

Lemma onLocalChange_frame e key :
  e_states (onLocalChange cfg e key) = e_states e ∧ e_peers (onLocalChange cfg e key) = e_peers e ∧
  e_disk (onLocalChange cfg e key) = e_disk e ∧ (∀ k, k ≠ key → e_files (onLocalChange cfg e key) !! k = e_files e !! k).
Proof.
  destruct (internalFile key) eqn:Hint; [unfold onLocalChange; by rewrite Hint |].
  destruct (inflightLocked e key) eqn:Hinf; [unfold onLocalChange; by rewrite Hint, Hinf |].
  destruct (onLocalChange_cases cfg e key Hint Hinf) as [-> | ? -> | ? -> | p Hf Hdel Hd He | p ent nfi Hf Hd Hs Hu -> | ent nfi Hd Hs Hu He];
    [done | done | done | | | ].
  2: split_and!; [done | done | done |]; intros k Hk; cbn [e_files set_files]; by rewrite lookup_insert_ne.
  all: destruct (authors_effect _ _ _ _ _ He) as (-> & -> & _); destruct (authors_frame _ _ _ _ He) as (-> & ->);
    split_and!; [done | done | done | intros k Hk; by rewrite lookup_insert_ne].
Qed.

Lemma onLocalChange_agrees e key :
  internalFile key = false → inflightLocked e key = false → agrees (onLocalChange cfg e key) key.
Proof.
  intros Hint Hinf. pose proof (onLocalChange_frame e key) as (_ & _ & Hdk & _). unfold agrees. rewrite Hdk.
  destruct (onLocalChange_cases cfg e key Hint Hinf) as
    [-> Hf Hd | p -> Hf Hdel Hd | ent -> Hd Hs | p Hf Hdel Hd He | p ent nfi Hf Hd Hs Hu -> | ent nfi Hd Hs Hu He].
  - split; [intros _ fi; by rewrite Hf | intros ? ?; by rewrite Hd].
  - split; [intros _ fi; rewrite Hf; by intros [= <-] | intros ? ?; by rewrite Hd].
  - split; [by rewrite Hd |]. intros ent' nfi' Hd' Hs'. simplify_eq.
  - destruct (authors_effect _ _ _ _ _ He) as (-> & _). rewrite lookup_insert_eq.
    split; [by intros _ fi [= <-] | intros ? ?; by rewrite Hd].
  - split; [by rewrite Hd |]. intros ent' nfi' Hd' Hs'. simplify_eq. cbn [e_files set_files]. rewrite lookup_insert_eq.
    eexists. split; [done |]. by eapply unchanged_same_leaf.
  - destruct (authors_effect _ _ _ _ _ He) as (-> & _). rewrite lookup_insert_eq.
    split; [by rewrite Hd |]. intros ent' nfi' Hd' Hs'. simplify_eq. eexists. split; [done |].
    apply authored_same_leaf. by eapply scanOne_live.
Qed.

Lemma inflight_frame e e' key :
  e_states e' = e_states e → e_peers e' = e_peers e → inflightLocked e' key = inflightLocked e key.
Proof. intros Hs Hp. unfold inflightLocked, addresses. by rewrite Hs, Hp. Qed.

Lemma take_local_agrees e q key :
  internalFile key = false → inflightLocked e key = false →
  (agrees e key → agrees (onLocalChange cfg e q) key) ∧ (q = key → agrees (onLocalChange cfg e q) key).
Proof.
  intros Hint Hinf. split; [| by intros ->; apply onLocalChange_agrees].
  destruct (decide (q = key)) as [-> | Hne]; [intros _; by apply onLocalChange_agrees |].
  pose proof (onLocalChange_frame e q) as (_ & _ & Hd & Hf). unfold agrees. rewrite Hd, Hf; done.
Qed.

Lemma hints_agree saved e hs key :
  internalFile key = false → inflightLocked e key = false → HRescan ∉ hs →
  e_disk (foldl (take_hint saved) e hs) = e_disk e ∧
  (agrees e key ∨ HLocal key ∈ hs → agrees (foldl (take_hint saved) e hs) key).
Proof.
  revert e. induction hs as [|h hs IH]; intros e Hint Hinf Hr; [split; [done |]; intros [? | ?%not_elem_of_nil]; done |].
  apply not_elem_of_cons in Hr as [Hh Hr]. destruct h as [q |]; [| done]. cbn [foldl take_hint].
  destruct (onLocalChange_frame e q) as (Hst & Hpe & Hdk & _).
  destruct (IH (onLocalChange cfg e q)) as [IHd IHa]; [done | by rewrite (inflight_frame e) | done |].
  destruct (take_local_agrees e q key Hint Hinf) as [Hkeep Hown]. split; [by rewrite IHd |].
  intros [Hag | [Heq | Hin]%elem_of_cons]; apply IHa; [left; by apply Hkeep | left; apply Hown; congruence | by right].
Qed.
End hints.

(** ** A decomposed name on a POSIX host

    Canonical keys are composed (NFC), and on a POSIX host the path of a key is the
    key. A file whose name on disk is decomposed is recorded under a path at which
    nothing is: no peer can be served it, a watcher hint records its deletion, and the
    next rescan records it again. *)
Section decomposed.
#[local] Existing Instance toy_digest.
Definition composed : bytes := [chr 195; chr 169].       (* e with acute, one code point *)
Definition decomposed : bytes := [chr 101; chr 204; chr 129].  (* e, combining acute *)
#[local] Instance acute_unicode : Unicode :=
  {| nfc s := if bool_decide (s = decomposed) then composed else s; cases_fold s := s |}.

Definition d_start : Engine :=
  match New home SnapMissing {[ decomposed := EFile (go! "v0") 420 1 ]} with Ok e => e | Err _ => e_start end.
Definition d_hinted : Engine := onLocalChange home d_start composed.
Definition d_rescanned : Engine := rescan home true d_hinted.
Definition live_at (e : Engine) (k : bytes) : option bool := (λ fi, negb (Deleted fi)) <$> e_files e !! k.

Example decomposed_name_flaps :
  live_at d_start composed = Some true ∧
  rs_Code (serveRequest (e_disk d_start) (mkRequest 1 composed (sum256 (go! "v0")) 0 2)) = CodeNoSuchFile ∧
  watch_key (cfg_AbsRoot home) decomposed = Some composed ∧
  live_at d_hinted composed = Some false ∧ live_at d_rescanned composed = Some true.
Proof. split_and!; vm_compute; reflexivity. Qed.
End decomposed.

(** * Properties *)

(** C33: whatever directories appear, with what they hold, or vanish while the watcher
    works, and whatever fails (adding a watch, reading a directory, looking at a new
    entry, an event lost to an overflow): once no event is unread and no walk under
    way, a directory that is not watched lies at or below one where something failed
    since the last walk over it, and if nothing failed every directory is watched. At
    any time the watcher can work off its events and walks, missing nothing more on
    the way unless something fails again. *)
Theorem watcher_covers ds w :
  closed ds → rtc (wstep (λ _, True)) (open_watch ds) w →
  (wa_events w = [] → wa_walk w = [] → ∀ x, x ∈ wa_dirs w → x ∈ wa_watched w ∨ ∃ y, y ∈ wa_missed w ∧ y `prefix_of` x) ∧
  (rtc (wstep faultless) (open_watch ds) w → wa_missed w = []) ∧
  ∃ w', rtc (wstep own_faultless) w w' ∧ wa_dirs w' = wa_dirs w ∧ wa_events w' = [] ∧ wa_walk w' = [] ∧
    wa_missed w' ⊆ wa_missed w ∧ ∀ x, x ∈ wa_dirs w → x ∈ wa_watched w' ∨ ∃ y, y ∈ wa_missed w' ∧ y `prefix_of` x.
Proof.
  intros Hcl Hrun. assert (covered w) as Hc by (eapply covered_run; [by apply open_covered | exact Hrun]).
  assert (∀ w', covered w' → wa_events w' = [] → wa_walk w' = [] →
    ∀ x, x ∈ wa_dirs w' → x ∈ wa_watched w' ∨ ∃ y, y ∈ wa_missed w' ∧ y `prefix_of` x) as Hq.
  { intros w' [_ Hcov] He Hw x Hx. destruct (Hcov x Hx) as [? | (y & Hp & Hy)]; [by left | right].
    rewrite He, Hw in Hy. exists y. destruct Hy as [?%not_elem_of_nil | [?%not_elem_of_nil | ?]]; done. }
  split; [by apply Hq |]. split.
  - intros Hf. apply list_nil_subseteq. exact (faultless_run faultless _ _ (λ _, id) Hf).
  - destruct (events_end w) as (ws & ms & Hend). eexists. split; [exact Hend |]. split_and!; [done.. | |].
    + exact (faultless_run own_faultless _ _ (λ a, @proj2 _ _) Hend).
    + apply (Hq (mkWatches (wa_dirs w) ws [] [] ms)); [| done..]. by eapply covered_run.
Qed.

(** C32: an event the watcher has read is never lost between the goroutines: however
    they interleave, its key is in a channel, in a goroutine's hands or pending until
    the select loop gets it, and a reported overflow until the loop rescans; the
    channels cannot block each other for good; and once the pipeline is empty, the
    record of the event's path agrees with the disk, as far as the pipeline only
    carried hints, the path is not one of the program's own files and it is not being
    applied. *)
Theorem edits_recorded `{OS, Digest, Unicode} cfg window acts0 p hs0 :
  window < 2 ^ 63 → pipe_run (cfg_AbsRoot cfg) window pipe0 acts0 = Some (p, hs0) →
  (∀ rel key p', pipe_step (cfg_AbsRoot cfg) window p (PEvent rel) = Some (p', None) →
     watch_key (cfg_AbsRoot cfg) rel = Some key → carries p' key) ∧
  (∀ acts p' hs, pipe_run (cfg_AbsRoot cfg) window p acts = Some (p', hs) →
     (∀ key, carries p key → carries p' key ∨ HLocal key ∈ hs) ∧
     (owes_rescan p → owes_rescan p' ∨ HRescan ∈ hs)) ∧
  (∃ acts p' hs, Forall internal acts ∧ pipe_run (cfg_AbsRoot cfg) window p acts = Some (p', hs) ∧
     (∀ key, ¬ carries p' key) ∧ ¬ owes_rescan p') ∧
  (∀ acts p' hs e key saved, pipe_run (cfg_AbsRoot cfg) window p acts = Some (p', hs) → (∀ k, ¬ carries p' k) → HRescan ∉ hs →
     carries p key → internalFile key = false → inflightLocked e key = false →
     let e' := foldl (take_hint cfg saved) e hs in e_disk e' = e_disk e ∧ agrees e' key).
Proof.
  intros Hw Hrun.
  assert (piped p) as Hp.
  { eapply piped_run; [| exact Hrun]. split; [constructor | intros k ?%not_elem_of_nil; done | cbn; lia]. }
  assert (∀ acts p' hs key, pipe_run (cfg_AbsRoot cfg) window p acts = Some (p', hs) → carries p key → carries p' key ∨ HLocal key ∈ hs)
    as Hcarry.
  { intros acts p' hs key Hr Hc. eapply (pipe_run_keeps _ _ (λ p, carries p key)); [| exact Hc | exact Hr].
    intros p1 a p2 o Hc1 Hs. by eapply carries_step. }
  split_and!.
  - intros rel key p' Hs Hk. destruct p as [held changes ovf fwd deb resc pend firing loc]. cbn in Hs.
    destruct held; [done |]. injection Hs as <-. left. exact Hk.
  - intros acts p' hs Hr. split; [intros key; by eapply Hcarry |]. intros Ho.
    eapply (pipe_run_keeps _ _ owes_rescan); [| exact Ho | exact Hr]. intros p1 a p2 o Ho1 Hs. by eapply owes_step.
  - by apply pipe_drains.
  - intros acts p' hs e key saved Hr Hempty Hresc Hc Hint Hinf e'. destruct (hints_agree cfg saved e hs key Hint Hinf Hresc) as [Hd Ha].
    split; [done |]. apply Ha. right. destruct (Hcarry _ _ _ _ Hr Hc) as [Hc' |]; [by destruct (Hempty key) | done].
Qed.

Section watcher_witness.
#[local] Existing Instance toy_digest.

(** The root, and a directory moved in with one below it while the first walk runs, its event not
    read yet. *)
Definition moved_in : Watches :=
  mkWatches ({[[]]} ∪ ({[ [go! "a"] ]} ∪ {[ [go! "a"; go! "b"] ]})) {[[]]} [[go! "a"]] [] [].

Lemma watcher_covers_witness :
  ∃ w', rtc (wstep own_faultless) moved_in w' ∧ wa_missed w' ⊆ [] ∧ wa_events w' = [] ∧ wa_walk w' = [] ∧
    ∀ x, x ∈ wa_dirs moved_in → x ∈ wa_watched w' ∨ ∃ y, y ∈ wa_missed w' ∧ y `prefix_of` x.
Proof.
  destruct (watcher_covers {[[]]} moved_in) as (_ & _ & w' & H1 & H2 & H3 & H4 & H5 & H6).
  - split; [by apply elem_of_singleton | by intros x ->%elem_of_singleton].
  - eapply rtc_l; [apply (wstep_act _ _ _ (WatchVisit true None)); [exact I | reflexivity] |].
    eapply rtc_l; [| apply rtc_refl].
    apply (wstep_act _ _ _ (FsAppear [go! "a"] ({[ [go! "a"] ]} ∪ {[ [go! "a"; go! "b"] ]}) true)); [exact I |].
    unfold watch_step. rewrite decide_True; [vm_compute; reflexivity |].
    split_and!; [done | apply (bool_decide_unpack _); vm_compute; exact I.. | |].
    + intros x [->%elem_of_singleton | ->%elem_of_singleton]%elem_of_union; [done | by exists [go! "b"]].
    + intros x [->%elem_of_singleton | ->%elem_of_singleton]%elem_of_union Hne; [done | by apply elem_of_union_l, elem_of_singleton].
  - exists w'. split; [exact H1 |]. split; [exact H5 |]. split; [exact H3 |]. split; [exact H4 | exact H6].
Defined.

(** The edit of Story.v as the watcher sees it: two events, coalesced into one hint. *)
Definition events_read : list PipeAct := [PEvent note; PChange; PForward; PDebounceIn; PPending 0; PEvent note].
Definition drained : list PipeAct :=
  [PChange; PForward; PDebounceIn; PPending 10; PTick 100; PTick 500; PEmit; PLocal].
Definition window_ns : Z := 150.

Lemma edits_recorded_witness :
  ∃ p hs0 p' hs, pipe_run (cfg_AbsRoot home) window_ns pipe0 events_read = Some (p, hs0) ∧
    pipe_run (cfg_AbsRoot home) window_ns p drained = Some (p', hs) ∧ hs = [HLocal note] ∧
    agrees (foldl (take_hint home true) (set_disk e_connected (holding (go! "v1") 2)) hs) note.
Proof.
  assert (pipe_run (cfg_AbsRoot home) window_ns pipe0 events_read =
    Some (mkPipe (Some note) [] false None [] false {[note := 0]} [] [], [])) as H0 by (vm_compute; reflexivity).
  assert (pipe_run (cfg_AbsRoot home) window_ns (mkPipe (Some note) [] false None [] false {[note := 0]} [] []) drained =
    Some (pipe0, [HLocal note])) as H1 by (vm_compute; reflexivity).
  do 4 eexists. split; [exact H0 |]. split; [exact H1 |]. split; [reflexivity |].
  destruct (edits_recorded home window_ns events_read _ _ ltac:(reflexivity) H0) as (_ & _ & _ & Hag).
  apply (Hag drained pipe0 [HLocal note] (set_disk e_connected (holding (go! "v1") 2)) note true H1).
  - intros k Hc. unfold carries, pipe0 in Hc. cbn in Hc. rewrite !elem_of_nil, lookup_empty in Hc.
    destruct Hc as [? | [[] | [? | [[] | [[? ?] | [[] | []]]]]]]; done.
  - intros [? | ?%not_elem_of_nil]%elem_of_cons; done.
  - left. reflexivity.
  - vm_compute. reflexivity.
  - vm_compute. reflexivity.
Defined.
End watcher_witness.
