(* ===== verification/Service.v ===== *)
(** * Service: the discovery service around the registry
    (internal/discovery/discovery.go and multicast.go)

    Construction with its options and defaults, the choice of the socket's interface
    and addresses, the announcer, the event channel. What the host's interfaces are and
    which socket calls succeed are inputs. Times are nanoseconds. *)
From S2P Require Import Prelude Bytes Messages Discovery.

(** ** Construction *)

Definition second : Z := 1000000000.
Definition defaultAnnounceInterval : Z := 10 * second.
Definition defaultEvictTimeout : Z := 30 * second.
Definition defaultSweepInterval : Z := 10 * second.
Definition defaultEventsBuffer : Z := 32.
Definition DefaultGroup : AddrPort := mkAddrPort (byte_of_Z <$> [239; 192; 0; 77]) 21027.

(** The fields that configure a Discovery; the interface by its index. *)
Record Service := mkService {
  sv_self : DeviceID; sv_tcpPort : Z; sv_group : AddrPort; sv_iface : option nat;
  sv_announceInterval : Z; sv_evictTimeout : Z; sv_sweepInterval : Z; sv_eventsBuf : Z
}.

Inductive Option :=
| WithGroup (g : AddrPort) | WithInterface (ifi : option nat) | WithAnnounceInterval (dur : Z)
| WithEvictTimeout (dur : Z) | WithSweepInterval (dur : Z) | WithEventsBuffer (n : Z).

(** netip: the zero Addr is the one that is not valid. *)
Definition IsValid (a : AddrPort) : bool := negb (bool_decide (ap_ip a = [])).
Definition Is4 (a : AddrPort) : bool := (length (ap_ip a) =? 4)%nat.

Definition apply_option (d : Service) (o : Option) : Service :=
  let '(mkService self port group ifi announce evict sweep buf) := d in
  match o with
  | WithGroup g => if IsValid g then mkService self port g ifi announce evict sweep buf else d
  | WithInterface i => mkService self port group i announce evict sweep buf
  | WithAnnounceInterval dur => if 0 <? dur then mkService self port group ifi dur evict sweep buf else d
  | WithEvictTimeout dur => if 0 <? dur then mkService self port group ifi announce dur sweep buf else d
  | WithSweepInterval dur => if 0 <? dur then mkService self port group ifi announce evict dur buf else d
  | WithEventsBuffer n => if 0 <=? n then mkService self port group ifi announce evict sweep n else d
  end.

Definition configured (self : DeviceID) (tcpPort : Z) (opts : list Option) : Service :=
  foldl apply_option
    (mkService self tcpPort DefaultGroup None defaultAnnounceInterval defaultEvictTimeout defaultSweepInterval defaultEventsBuffer)
    opts.

(** ** multicast.go *)

(** An address of an interface: an IPNet or an IPAddr with its bytes, or another kind. *)
Inductive IfAddr := IPNet (ip : bytes) | IPAddr (ip : bytes) | OtherAddr.
Record Interface := mkInterface { if_up : bool; if_multicast : bool; if_loopback : bool; if_addrs : option (list IfAddr) }.

Definition To4 (ip : bytes) : option bytes :=
  if (length ip =? 4)%nat then Some ip
  else if decide (length ip = 16%nat ∧ take 12 ip = mapped_prefix) then Some (drop 12 ip) else None.
Definition addr_ip (a : IfAddr) : bytes := match a with IPNet ip | IPAddr ip => ip | OtherAddr => [] end.
Definition firstIPv4 (ifi : Interface) : option bytes :=
  match if_addrs ifi with
  | None => None
  | Some addrs => head (omap (λ a, To4 (addr_ip a)) addrs)
  end.
Definition usable (ifi : Interface) : bool :=
  if_up ifi && if_multicast ifi && negb (if_loopback ifi) && bool_decide (is_Some (firstIPv4 ifi)).
Definition defaultMulticastInterface (ifaces : option (list Interface)) : option Interface :=
  match ifaces with None => None | Some l => snd <$> list_find (λ i, usable i = true) l end.
Definition resolveInterface (pinned : option Interface) (ifaces : option (list Interface)) : option Interface :=
  match pinned with Some i => Some i | None => defaultMulticastInterface ifaces end.

Inductive SocketError := ErrInvalidGroup | ErrJoinGroup | ErrSendSocket.
Definition IPv4zero : bytes := byte_of_Z <$> [0; 0; 0; 0].

(** The address the send socket is bound to. [joins]: the receive socket opens;
    [binds]: the addresses a send socket can be bound to. *)
Definition newUDPMulticast (group : AddrPort) (ifi : option Interface) (joins : bool) (binds : bytes → bool)
    : Result SocketError bytes :=
  if negb (IsValid group && Is4 group) then Err ErrInvalidGroup
  else if negb joins then Err ErrJoinGroup
  else
    let laddr := default IPv4zero (ifi ≫= firstIPv4) in
    if binds laddr then Ok laddr
    else if negb (bool_decide (laddr = IPv4zero)) && binds IPv4zero then Ok IPv4zero else Err ErrSendSocket.

(** ** The announcer and the event channel *)

(** What is written to the group: at once, and at each of [ticks] ticks. *)
Definition announceLoop (d : Service) (ticks : nat) : list bytes :=
  replicate (S ticks) (encodeAnnounce (mkAnnouncement (sv_self d) (sv_tcpPort d))).

(** emit on a channel holding [q]: [None] while it blocks. When there is room and the
    service is closed both cases of the select are ready, and [pick] chooses. *)
Definition emit (d : Service) (closed pick : bool) (q : list Event) (ev : Event) : option (list Event) :=
  let room := Z.of_nat (length q) <? sv_eventsBuf d in
  if closed && (negb room || pick) then Some q
  else if room then Some (q ++ [ev]) else None.

(** ** Hearing a peer *)

(** The ticks of [inputs] come within the timeout of the last sighting of [id], last
    seen at [t], and whoever claims [id] does so from [addr]. *)
Fixpoint kept (self : DeviceID) (evict : Z) (id : DeviceID) (addr : AddrPort) (t : Z) (inputs : list Input) : Prop :=
  match inputs with
  | [] => True
  | Tick now :: rest => Sub now t ≤ evict ∧ kept self evict id addr t rest
  | Datagram src b now :: rest =>
    match read_one self src b now with
    | Some a => if decide (ia_deviceID a = id) then ia_addr a = addr ∧ kept self evict id addr now rest
                else kept self evict id addr t rest
    | None => kept self evict id addr t rest
    end
  end.

(** The events about [id]. *)
Definition about (id : DeviceID) (events : list Event) : list Event := filter (λ ev, event_id ev = id) events.

Lemma about_app id l l' : about id (l ++ l') = about id l ++ about id l'.
Proof. apply filter_app. Qed.

Lemma about_none id l : (∀ ev, ev ∈ l → event_id ev ≠ id) → about id l = [].
Proof.
  induction l as [|ev l IH]; intros Hl; [done |]. unfold about. rewrite filter_cons_False by (apply Hl, elem_of_cons; by left).
  apply IH. intros ev' Hin. apply Hl, elem_of_cons. by right.
Qed.

Lemma read_announce self peer src now :
  length (sv_self peer) = deviceIDLen → 0 < sv_tcpPort peer < 65536 → sv_self peer ≠ self → ∀ b, b ∈ announceLoop peer 0 →
  read_one self src b now = Some (mkInAnnounce (sv_self peer) (mkAddrPort (Unmap src) (sv_tcpPort peer)) now).
Proof.
  intros Hid Hport Hne b ->%list_elem_of_singleton. unfold read_one.
  assert (decodeAnnounce (take maxDatagram (encodeAnnounce (mkAnnouncement (sv_self peer) (sv_tcpPort peer)))) =
    Ok (mkAnnouncement (sv_self peer) (sv_tcpPort peer))) as ->; [| cbn [an_DeviceID an_TCPPort]; by rewrite decide_False].
  rewrite take_ge; [| unfold encodeAnnounce; cbn [an_DeviceID]; rewrite !length_app, Hid, length_be_enc; apply (bool_decide_unpack _); reflexivity].
  rewrite <- (app_nil_r (encodeAnnounce _)). apply decode_encode. by split.
Qed.

Lemma sweep_keeps evict r now id e :
  rg_peers r !! id = Some e → Sub now (pe_lastSeen e) ≤ evict →
  rg_peers (sweep evict r now) !! id = Some e ∧ about id (rg_events (sweep evict r now)) = about id (rg_events r).
Proof.
  intros He Hle. assert (expired evict now e = false) as Hex by (unfold expired; apply Z.ltb_ge; lia).
  unfold sweep. cbn [rg_peers rg_events]. split; [by apply map_lookup_filter_Some |]. rewrite about_app.
  assert (about id ((λ '(id, _), PeerEvicted id) <$> filter (λ '(_, e), expired evict now e = true) (map_to_list (rg_peers r))) = [])
    as ->; [| apply app_nil_r].
  apply about_none. intros ev Hin Hev. apply list_elem_of_fmap in Hin as ([id' e'] & -> & Hin).
  apply list_elem_of_filter in Hin as [Hx Hin]. apply elem_of_map_to_list in Hin. cbn in Hev. subst id'. congruence.
Qed.

Lemma handle_other r i id :
  ia_deviceID i ≠ id → rg_peers (handleAnnounce r i) !! id = rg_peers r !! id ∧
  about id (rg_events (handleAnnounce r i)) = about id (rg_events r).
Proof.
  intros Hne. unfold handleAnnounce. cbn [rg_peers rg_events]. split; [by rewrite lookup_insert_ne |].
  assert (∀ a, about id (rg_events r ++ [PeerDiscovered (ia_deviceID i) a]) = about id (rg_events r)) as Hn.
  { intros a. rewrite about_app, (about_none id [_]); [apply app_nil_r |]. by intros ev ->%list_elem_of_singleton. }
  repeat case_match; done || apply Hn.
Qed.

Lemma handle_same r i :
  rg_peers (handleAnnounce r i) !! ia_deviceID i = Some (mkPeerEntry (ia_addr i) (ia_at i)) ∧
  (pe_addr <$> rg_peers r !! ia_deviceID i = Some (ia_addr i) → rg_events (handleAnnounce r i) = rg_events r) ∧
  (pe_addr <$> rg_peers r !! ia_deviceID i ≠ Some (ia_addr i) →
     rg_events (handleAnnounce r i) = rg_events r ++ [PeerDiscovered (ia_deviceID i) (ia_addr i)]).
Proof.
  unfold handleAnnounce. cbn [rg_peers rg_events]. split; [by rewrite lookup_insert_eq |].
  destruct (rg_peers r !! ia_deviceID i) as [p |]; cbn [fmap option_fmap option_map]; [case_decide |];
    (split; intros; [try done; congruence | try done; exfalso; congruence]).
Qed.

Lemma read_one_at self src b now a : read_one self src b now = Some a → ia_at a = now.
Proof. unfold read_one. repeat case_match; naive_solver. Qed.

Lemma kept_run self evict id addr t inputs r e :
  kept self evict id addr t inputs → rg_peers r !! id = Some e → pe_addr e = addr → pe_lastSeen e = t →
  (pe_addr <$> rg_peers (foldl (run_one self evict) r inputs) !! id = Some addr) ∧
  about id (rg_events (foldl (run_one self evict) r inputs)) = about id (rg_events r).
Proof.
  revert t r e. induction inputs as [|i inputs IH]; intros t r e Hk He Ha Ht; [cbn; by rewrite He, <- Ha |].
  cbn [foldl]. destruct i as [src b now | now]; cbn [kept run_one] in *.
  - destruct (read_one self src b now) as [a |] eqn:Hread; [| by eapply IH]. case_decide as Hid.
    + destruct Hk as [Haddr Hk]. destruct (handle_same r a) as (Hl & Hsame & _). rewrite Hid in *.
      assert (rg_events (handleAnnounce r a) = rg_events r) as Hev by (apply Hsame; rewrite He; cbn; congruence).
      rewrite <- Hev. eapply IH; [| exact Hl | done | done].
      assert (ia_at a = now) as -> by (by eapply read_one_at). exact Hk.
    + destruct (handle_other r a id Hid) as [Hl Hev]. rewrite <- Hev. eapply IH; [done | by rewrite Hl | done | done].
  - destruct Hk as [Hle Hk]. subst t. destruct (sweep_keeps evict r now id e He Hle) as [Hl Hev]. rewrite <- Hev. by eapply IH.
Qed.

Lemma configured_identity id port opts :
  sv_self (configured id port opts) = id ∧ sv_tcpPort (configured id port opts) = port.
Proof.
  unfold configured. generalize DefaultGroup as g, (@None nat) as i, defaultAnnounceInterval as a, defaultEvictTimeout as ev,
    defaultSweepInterval as s, defaultEventsBuffer as n.
  induction opts as [|o opts IH]; intros; [done |]. cbn [foldl apply_option]. destruct o; repeat case_match; apply IH.
Qed.

(** By default two announcements in a row may be lost. *)
Example default_tolerance id port :
  let d := configured id port [] in 3 * sv_announceInterval d ≤ sv_evictTimeout d.
Proof. done. Qed.

(** An announced port of zero (msync -port 0 listens on a port of the host's choice
    and announces zero) is dropped by every reader. *)
Lemma port_zero_unheard self id opts src now b :
  length id = deviceIDLen → b ∈ announceLoop (configured id 0 opts) 0 → read_one self src b now = None.
Proof.
  intros Hid ->%list_elem_of_singleton. destruct (configured_identity id 0 opts) as [-> ->]. unfold read_one.
  destruct (decodeAnnounce _) as [a |] eqn:Ha; [| done]. exfalso. apply decode_sound in Ha as [[Hl Hp] Heq].
  rewrite take_take in Heq. rewrite take_ge in Heq.
  2:{ unfold encodeAnnounce. cbn [an_DeviceID]. rewrite !length_app, Hid, length_be_enc. apply (bool_decide_unpack _); reflexivity. }
  unfold encodeAnnounce in Heq. cbn [an_DeviceID an_TCPPort] in Heq. do 2 apply app_inv_head in Heq.
  apply app_inj_1 in Heq as [_ Heq]; [| congruence]. apply (f_equal be_dec) in Heq.
  rewrite (be_dec_enc_small 2 (an_TCPPort a)) in Heq by (cbn; lia). rewrite <- Heq in Hp. by destruct Hp.
Qed.

(** * Properties *)

(** a paired device that announces is found, kept and, once silent, forgotten:
    whatever came before, the first announcement another device sends, with any
    options, puts it on record at the source's address and the port it announced, with
    one event, unless the listener already knew; while each sweep comes within the
    timeout of its last announcement, and nobody else claims its id, it stays there and
    no further event is about it; and a sweep after a longer silence evicts it. *)
Theorem discovery_live self evict id port opts src pre post t0 b :
  length id = deviceIDLen → 0 < port < 65536 → id ≠ self →
  b ∈ announceLoop (configured id port opts) 0 →
  let addr := mkAddrPort (Unmap src) port in
  kept self evict id addr t0 post →
  let r0 := run self evict pre in
  let inputs := pre ++ Datagram src b t0 :: post in
  let r := run self evict inputs in
  pe_addr <$> rg_peers r !! id = Some addr ∧
  about id (rg_events r) =
    about id (rg_events r0) ++ (if decide (view (rg_events r0) id = Some addr) then [] else [PeerDiscovered id addr]) ∧
  ∀ now e, rg_peers r !! id = Some e → evict < Sub now (pe_lastSeen e) →
    rg_peers (run self evict (inputs ++ [Tick now])) !! id = None ∧
    PeerEvicted id ∈ rg_events (run self evict (inputs ++ [Tick now])).
Proof.
  intros Hid Hport Hne Hb addr Hk r0 inputs r. destruct (configured_identity id port opts) as [Hs Hp].
  assert (read_one self src b t0 = Some (mkInAnnounce id addr t0)) as Hread.
  { rewrite (read_announce self (configured id port opts) src t0); rewrite ?Hs, ?Hp; done. }
  assert (r = foldl (run_one self evict) (handleAnnounce r0 (mkInAnnounce id addr t0)) post) as Hr.
  { unfold r, inputs, run. rewrite foldl_app. cbn [foldl run_one]. by rewrite Hread. }
  destruct (handle_same r0 (mkInAnnounce id addr t0)) as (Hl & Hold & Hnew). cbn [ia_deviceID ia_addr ia_at] in *.
  destruct (kept_run self evict id addr t0 post _ _ Hk Hl eq_refl eq_refl) as [Haddr Habout]. rewrite <- Hr in Haddr, Habout.
  split; [done |]. split.
  - rewrite Habout. pose proof (tr_view _ _ (run_tracked self evict pre) id) as Hv. fold r0 in Hv. rewrite Hv.
    case_decide as Hd; [rewrite (Hold Hd); by rewrite app_nil_r |]. rewrite (Hnew Hd), about_app.
    unfold about at 2. by rewrite filter_cons_True, filter_nil by done.
  - intros now e He Hlate. unfold run. rewrite foldl_app. cbn [foldl run_one]. fold (run self evict inputs). fold r.
    assert (expired evict now e = true) as Hex by (unfold expired; apply Z.ltb_lt; lia). unfold sweep. cbn [rg_peers rg_events]. split.
    + apply map_lookup_filter_None. right. intros e' He'. simplify_eq. by rewrite Hex.
    + apply elem_of_app. right. apply list_elem_of_fmap. exists (id, e). split; [done |]. apply list_elem_of_filter. split; [done |].
      by apply elem_of_map_to_list.
Qed.

(** Two announcements lost, a sweep within the timeout, then silence. *)
Lemma discovery_live_witness :
  let b := encodeAnnounce (mkAnnouncement (repeat "B"%char 32) 7000) in
  let inputs := [Datagram [byte_of_Z 10] b 0; Tick (30 * second); Datagram [byte_of_Z 10] b (30 * second); Tick (40 * second)] in
  pe_addr <$> rg_peers (run (repeat "A"%char 32) defaultEvictTimeout inputs) !! repeat "B"%char 32 = Some (mkAddrPort [byte_of_Z 10] 7000) ∧
  rg_events (run (repeat "A"%char 32) defaultEvictTimeout (inputs ++ [Tick (61 * second)])) =
    [PeerDiscovered (repeat "B"%char 32) (mkAddrPort [byte_of_Z 10] 7000); PeerEvicted (repeat "B"%char 32)].
Proof.
  intros b inputs. split; [| vm_compute; reflexivity].
  destruct (discovery_live (repeat "A"%char 32) defaultEvictTimeout (repeat "B"%char 32) 7000 [] [byte_of_Z 10] []
    [Tick (30 * second); Datagram [byte_of_Z 10] b (30 * second); Tick (40 * second)] 0 b) as [Haddr _].
  - reflexivity.
  - lia.
  - discriminate.
  - apply elem_of_cons. left. reflexivity.
  - vm_compute. split; [discriminate |]. split; [reflexivity |]. split; [discriminate | exact I].
  - exact Haddr.
Defined.
