(* ===== verification/Listener.v ===== *)
(** * Listener: accepting and dialling (internal/transport/listener.go, dial.go,
    the listeners' part of teardown in transport.go)

    A call of Listen, the accept loops, the goroutines that establish what was accepted
    and the teardown interleave; a listening socket is a number. [ls_wg] is the
    WaitGroup that Close waits on, without the ctx watcher's own count. Which socket
    calls succeed is the environment's choice. *)
From S2P Require Import Prelude Bytes Messages Transport.

(** A call of Listen past its first check, or holding an open socket. *)
Inductive calling := Checked | Opened.

Record Listeners := mkListeners {
  ls_closing : bool; ls_closed : bool; ls_listeners : gset nat; ls_toClose : list nat;
  ls_open : gset nat; ls_calls : gmap nat calling; ls_used : gset nat;
  ls_loops : gset nat; ls_handshakes : nat; ls_wg : nat
}.
Definition listeners0 : Listeners := mkListeners false false ∅ [] ∅ ∅ ∅ ∅ 0 0.

Inductive ListenAct :=
| LCheck (i : nat)              (* Listen: the first check; [i] is the socket it will open *)
| LOpen (i : nat) (ok : bool)   (* net.Listen *)
| LRegister (i : nat)           (* the second critical section *)
| LAccept (i : nat)             (* Accept returns a connection *)
| LAcceptErr (i : nat)          (* Accept fails, on an open socket or a closed one *)
| LEstablished                  (* an establish goroutine ends *)
| LClosing | LClosed | LCloseNext. (* teardown: the critical section, close(t.closed), a Close *)

(** The result a call of Listen returns with, at the action that ends it. *)
Inductive ListenResult := Listening (i : nat) | ListenFailed | ListenClosed.

Definition listen_step (l : Listeners) (a : ListenAct) : option (Listeners * option ListenResult) :=
  let '(mkListeners closing closed lns todo opn calls used loops hs wg) := l in
  match a with
  | LCheck i =>
    if closing then Some (l, Some ListenClosed)
    else if decide (i ∈ used) then None
    else Some (mkListeners closing closed lns todo opn (<[i := Checked]> calls) ({[i]} ∪ used) loops hs wg, None)
  | LOpen i ok =>
    match calls !! i with
    | Some Checked =>
      if ok then Some (mkListeners closing closed lns todo ({[i]} ∪ opn) (<[i := Opened]> calls) used loops hs wg, None)
      else Some (mkListeners closing closed lns todo opn (delete i calls) used loops hs wg, Some ListenFailed)
    | _ => None
    end
  | LRegister i =>
    match calls !! i with
    | Some Opened =>
      if closing then
        Some (mkListeners closing closed lns todo (opn ∖ {[i]}) (delete i calls) used loops hs wg, Some ListenClosed)
      else
        Some (mkListeners closing closed ({[i]} ∪ lns) todo opn (delete i calls) used ({[i]} ∪ loops) hs (S wg),
              Some (Listening i))
    | _ => None
    end
  | LAccept i =>
    if decide (i ∈ loops ∧ i ∈ opn)
    then Some (mkListeners closing closed lns todo opn calls used loops (S hs) (S wg), None) else None
  | LAcceptErr i =>
    if decide (i ∈ loops)
    then Some (mkListeners closing closed lns todo opn calls used (loops ∖ {[i]}) hs (wg - 1), None) else None
  | LEstablished =>
    match hs with
    | S hs' => Some (mkListeners closing closed lns todo opn calls used loops hs' (wg - 1), None)
    | O => None
    end
  | LClosing =>
    if closing then None else Some (mkListeners true closed lns (elements lns) opn calls used loops hs wg, None)
  | LClosed =>
    if closing && negb closed then Some (mkListeners closing true lns todo opn calls used loops hs wg, None) else None
  | LCloseNext =>
    match todo with
    | i :: rest => if closed then Some (mkListeners closing closed lns rest (opn ∖ {[i]}) calls used loops hs wg, None) else None
    | [] => None
    end
  end.

(** Dial: the closed channel, the dialer, then establish as for an accepted socket. *)
Inductive DialError := DialClosed | DialFailed | DialEstablish (e : EstablishError).
Definition Dial {A} (closed : bool) (dialed : bool) (establish : Result EstablishError A) : Result DialError A :=
  if closed then Err DialClosed
  else if negb dialed then Err DialFailed
  else match establish with Err e => Err (DialEstablish e) | Ok c => Ok c end.

(** ** The invariant *)

(** An open socket belongs to a call still under way, or is registered and, once the
    teardown has begun, on its list; the WaitGroup counts the loops and the establish
    goroutines. *)
Record listening (l : Listeners) : Prop := mkListening {
  lg_open : ∀ i, i ∈ ls_open l → ls_calls l !! i = Some Opened ∨ (i ∈ ls_listeners l ∧ (ls_closing l = true → i ∈ ls_toClose l));
  lg_used : ∀ i, i ∈ ls_listeners l ∨ is_Some (ls_calls l !! i) → i ∈ ls_used l;
  lg_calls : ∀ i, i ∈ ls_listeners l → ls_calls l !! i = None;
  lg_loops : ls_loops l ⊆ ls_listeners l;
  lg_wg : ls_wg l = (size (ls_loops l) + ls_handshakes l)%nat;
  lg_closed : ls_closed l = true → ls_closing l = true;
  lg_todo : ∀ i, i ∈ ls_toClose l → i ∈ ls_listeners l ∧ ls_closing l = true
}.

Lemma listening0 : listening listeners0.
Proof. split; cbn; try done; try set_solver. intros i [? | [x Hx]]; [set_solver | by rewrite lookup_empty in Hx]. Qed.

Lemma listening_step l a l' r : listening l → listen_step l a = Some (l', r) → listening l'.
Proof.
  destruct l as [closing closed lns todo opn calls used loops hs wg]. intros [Hop Hus Hca Hlo Hwg Hcl Htd] Hs. cbn in *.
  destruct a as [i | i ok | i | i | i | | | |]; cbn in Hs.
  - destruct closing; [by simplify_eq |]. case_decide as Hi; [done |]. simplify_eq. split; cbn; try done.
    + intros j Hj. destruct (Hop j Hj) as [Hc | ?]; [left | by right]. rewrite lookup_insert_ne; [done |].
      intros <-. apply Hi, Hus. right. by eexists.
    + intros j [Hj | Hj]; [set_solver |]. destruct (decide (i = j)) as [-> |]; [set_solver |].
      rewrite lookup_insert_ne in Hj by done. set_solver.
    + intros j Hj. rewrite lookup_insert_ne; [by apply Hca |]. intros <-. apply Hi, Hus. by left.
  - destruct (calls !! i) as [[] |] eqn:Hc; [| done..]. assert (i ∉ lns) as Hn by (intros Hin; by rewrite (Hca i Hin) in Hc).
    destruct ok; simplify_eq; split; cbn; try done.
    + intros j [->%elem_of_singleton | Hj]%elem_of_union; [left; by rewrite lookup_insert_eq |].
      destruct (decide (i = j)) as [<- |]; [left; by rewrite lookup_insert_eq | rewrite lookup_insert_ne by done; auto].
    + intros j Hj. apply Hus. destruct (decide (i = j)) as [<- |]; [right; by eexists | by rewrite lookup_insert_ne in Hj].
    + intros j Hj. rewrite lookup_insert_ne; [by apply Hca | by intros <-].
    + intros j Hj. destruct (Hop j Hj) as [Hj' | ?]; [left | by right]. rewrite lookup_delete_ne; [done | intros <-; congruence].
    + intros j Hj. apply Hus. destruct (decide (i = j)) as [<- |]; [right; by eexists | by rewrite lookup_delete_ne in Hj].
    + intros j Hj. rewrite lookup_delete_ne; [by apply Hca | by intros <-].
  - destruct (calls !! i) as [[] |] eqn:Hc; [done | | done]. assert (i ∉ lns) as Hn by (intros Hin; by rewrite (Hca i Hin) in Hc).
    destruct closing; simplify_eq; split; cbn; try done.
    + intros j [Hj Hne]%elem_of_difference. destruct (Hop j Hj) as [? | ?]; [left | by right].
      rewrite lookup_delete_ne; [done | intros <-; set_solver].
    + intros j Hj. apply Hus. destruct (decide (i = j)) as [<- |]; [right; by eexists | by rewrite lookup_delete_ne in Hj].
    + intros j Hj. rewrite lookup_delete_ne; [by apply Hca | by intros <-].
    + intros j Hj. destruct (decide (i = j)) as [<- | Hne]; [right; split; [set_solver | done] |]. rewrite lookup_delete_ne by done.
      destruct (Hop j Hj) as [? | [? ?]]; [by left | right; set_solver].
    + intros j Hj. destruct (decide (i = j)) as [<- | Hne]; [apply Hus; right; by eexists |]. rewrite lookup_delete_ne in Hj by done. set_solver.
    + intros j [->%elem_of_singleton | Hj]%elem_of_union; [by rewrite lookup_delete_eq |].
      rewrite lookup_delete_ne; [by apply Hca | by intros <-].
    + set_solver.
    + rewrite size_union by set_solver. rewrite size_singleton. lia.
    + intros j Hj. by destruct (Htd j Hj).
  - case_decide; [| done]. simplify_eq. split; cbn; done || lia.
  - case_decide as Hi; [| done]. simplify_eq. split; cbn; try done; [set_solver |].
    rewrite size_difference by set_solver. rewrite size_singleton. assert (size loops ≠ 0%nat) by (intros ?%size_empty_inv; set_solver). lia.
  - destruct hs as [|hs]; [done |]. simplify_eq. split; cbn; done || lia.
  - destruct closing; [done |]. simplify_eq. split; cbn; try done.
    + intros j Hj. destruct (Hop j Hj) as [? | [? _]]; [by left | right]. split; [done |]. intros _. by apply elem_of_elements.
    + intros j Hj%elem_of_elements. done.
  - destruct closing, closed; cbn in Hs; [done | | done..]. simplify_eq. by split.
  - destruct todo as [|i todo]; [done |]. destruct closed; [| done]. simplify_eq. split; cbn; try done.
    + intros j [Hj Hne]%elem_of_difference. destruct (Hop j Hj) as [? | [? Ht]]; [by left | right]. split; [done |].
      intros Hc. apply Ht, elem_of_cons in Hc as [-> | ?]; [set_solver | done].
    + intros j Hj. apply Htd, elem_of_cons. by right.
Qed.

Inductive lstep (l l' : Listeners) : Prop := lstep_act a r : listen_step l a = Some (l', r) → lstep l l'.

Lemma listening_run l : rtc lstep listeners0 l → listening l.
Proof.
  intros Hrun. assert (∀ l0, rtc lstep l0 l → listening l0 → listening l) as Hall.
  { clear. induction 1 as [|l1 l2 l3 [a r Hs] _ IH]; [done |]. intros Hl. apply IH. by eapply listening_step. }
  apply (Hall _ Hrun), listening0.
Qed.

(** * Properties *)

(** however calls of Listen, the accept loops and the teardown interleave, no
    listening socket is leaked: once the teardown has closed its list and no call is
    under way, none is open; then every loop still running can only fail and the
    WaitGroup counts exactly the loops and the connections being established, so that
    when they are done it is zero and Close returns. A call that comes after the
    teardown began does not return a listener, and after it the WaitGroup is never
    raised from zero. *)
Theorem no_leaked_listener l :
  rtc lstep listeners0 l →
  (ls_closed l = true → ls_toClose l = [] → ls_calls l = ∅ → ls_open l = ∅) ∧
  (ls_wg l = 0%nat ↔ ls_loops l = ∅ ∧ ls_handshakes l = 0%nat) ∧
  (∀ i, i ∈ ls_loops l → i ∉ ls_open l → listen_step l (LAccept i) = None ∧ ∃ l', listen_step l (LAcceptErr i) = Some (l', None)) ∧
  (∀ a l' r, ls_closing l = true → listen_step l a = Some (l', r) →
     (∀ i, r ≠ Some (Listening i)) ∧ ls_closing l' = true ∧ (ls_wg l = 0%nat → ls_wg l' = 0%nat)).
Proof.
  intros Hl%listening_run. destruct Hl as [Hop _ _ Hlo Hwg Hcl _]. split_and!.
  - intros Hc Ht Hn. apply set_eq. intros i. split; [| set_solver]. intros Hi. destruct (Hop i Hi) as [Hi' | [_ Hi']].
    + by rewrite Hn, lookup_empty in Hi'.
    + rewrite Ht in Hi'. specialize (Hi' (Hcl Hc)). by apply not_elem_of_nil in Hi'.
  - rewrite Hwg. rewrite Nat.eq_add_0. by rewrite size_empty_iff, leibniz_equiv_iff.
  - intros i Hi Hno. destruct l as [closing closed lns todo opn calls used loops hs wg]. cbn in *. split.
    + rewrite decide_False; [done | naive_solver].
    + rewrite decide_True by done. by eexists.
  - intros a l' r Hc Hs. destruct l as [closing closed lns todo opn calls used loops hs wg]. cbn in Hc. subst closing. cbn in *.
    destruct a as [i | i ok | i | i | i | | | |]; cbn in Hs.
    all: repeat case_match; simplify_eq; cbn; split_and!; try done; try lia.
    all: destruct_and?; intros Hz; assert (size loops ≠ 0%nat) by (intros ?%size_empty_inv; set_solver); lia.
Qed.

(** A call of Listen that the teardown overtakes between its two checks. *)
Definition overtaken : list ListenAct :=
  [LCheck 0; LOpen 0 true; LRegister 0; LCheck 1; LAccept 0; LOpen 1 true; LClosing; LClosed; LCloseNext; LRegister 1].
Definition exec_listen (acts : list ListenAct) : option Listeners :=
  foldl (λ l a, l ← l; fst <$> listen_step l a) (Some listeners0) acts.

Lemma exec_listen_run acts l : exec_listen acts = Some l → rtc lstep listeners0 l.
Proof.
  unfold exec_listen. revert l. induction acts as [|a acts IH] using rev_ind; intros l; [by intros [= <-] |].
  rewrite foldl_app. cbn. destruct (foldl _ _ acts) as [l1 |]; [cbn | done].
  destruct (listen_step l1 a) as [[l2 r] |] eqn:Hs; [| done]. intros [= <-]. eapply rtc_r; [by apply IH |]. by econstructor.
Qed.

Lemma no_leaked_listener_witness :
  ∃ l, exec_listen overtaken = Some l ∧ ls_open l = ∅ ∧ ls_wg l ≠ 0%nat ∧
       ∃ l', listen_step l (LAcceptErr 0) = Some (l', None).
Proof.
  assert (is_Some (exec_listen overtaken)) as [l Hl] by (apply (bool_decide_unpack _); vm_compute; exact I).
  exists l. split; [exact Hl |].
  assert ((λ l, (ls_closed l, ls_toClose l, map_to_list (ls_calls l), elements (ls_loops l), ls_handshakes l)) <$> exec_listen overtaken =
    Some (true, [], [], [0%nat], 1%nat)) as Hv by (vm_compute; reflexivity).
  rewrite Hl in Hv. apply (inj Some) in Hv. injection Hv as Hc Ht Hn Hlo Hh. apply map_to_list_empty_iff in Hn.
  destruct (no_leaked_listener l (exec_listen_run _ _ Hl)) as (Hopen & Hwg & Hloop & _). specialize (Hopen Hc Ht Hn).
  split; [exact Hopen |]. split; [intros Hz; apply Hwg in Hz as [_ Hz]; congruence |].
  apply (Hloop 0%nat).
  - apply elem_of_elements. rewrite Hlo. by apply elem_of_cons; left.
  - rewrite Hopen. apply not_elem_of_empty.
Defined.
