(* ===== verification/Provenance.v ===== *)
(** * Provenance: where the counters of a version vector come from

    A device writes its own counter and no other: every version it holds, in its
    records, its peers' indexes, its queued work, its completions or its saved
    snapshot, is built from the versions it was given by bumping its own counter,
    merging, and dropping counters. [VersionClosed] states what a set of versions
    needs for that; [vouched] is the invariant for any such set, and the theorems
    are its instances. *)
From S2P Require Import Prelude Bytes VersionVector Framing Messages Windows Pathnorm Hashing.
From S2P Require Import FileInfo Tree Oracle Differ Conflict Scanner Disk Transfer Replica Engine.
From S2P Require Import Story Invariant.

(** The interface between the vectors and the engine: the closure of a set of versions. *)
Class VersionClosed (self : Z) (V : VersionVector → Prop) : Prop := {
  vc_nil : V [];
  vc_bump v : V v → V (Bump v self);
  vc_merge v w : V v → V w → V (Merge v w);
  vc_drop v id : V v → V (dropFromVV v id)
}.

(** What the snapshot file gives the engine. *)
Definition snap_records (s : SnapFile) : list FileInfo := match LoadSnapshot s with Ok p => p | Err _ => [] end.

Section provenance.
Context `{OS, Digest, Unicode}.
Context (cfg : Config) (V : VersionVector → Prop) `{HV : !VersionClosed (selfShort cfg) V}.

Definition ok (fi : FileInfo) : Prop := V (Version fi).
Notation all_ok := (map_Forall (λ _ fi, ok fi)).

(** ** The invariant *)

Definition task_ok (t : fetchTask) : Prop := ok (ft_leaf t) ∧ ∀ c, ft_preserve t = Some c → ok c.
Record ps_vouched (ps : peerState) : Prop := mkPsVouched {
  pv_index : all_ok (ps_index ps);
  pv_fetchQ : Forall task_ok (ps_fetchQ ps);
  pv_running : ∀ t, ps_running ps = Some t → task_ok t
}.
Definition snap_ok (s : SnapFile) : Prop := Forall ok (snap_records s).
Record vouched (e : Engine) : Prop := mkVouched {
  vo_files : all_ok (e_files e);
  vo_states : map_Forall (λ _ ps, ps_vouched ps) (e_states e);
  vo_completions : Forall (λ c, ok (cp_leaf c)) (e_completions e);
  vo_snapshot : snap_ok (e_snapshot e)
}.

(** The part of the engine the invariant speaks of. *)
Definition vcore (e : Engine) := (e_files e, e_states e, e_completions e, e_snapshot e).
Lemma vouched_frame e e' : vcore e' = vcore e → vouched e → vouched e'.
Proof.
  unfold vcore. intros Hc [Hf Hs Hco Hsn]. injection Hc as E1 E2 E3 E4. split; rewrite ?E1, ?E2, ?E3, ?E4; done.
Qed.

Lemma vouched_set_files e f : vouched e → all_ok f → vouched (set_files e f).
Proof. intros [? ? ? ?] ?. by split. Qed.
Lemma vouched_rebuild e : vouched e → vouched (rebuild e).
Proof. by apply vouched_frame. Qed.
Lemma vouched_set_disk e d : vouched e → vouched (set_disk e d).
Proof. by apply vouched_frame. Qed.
Lemma vouched_set_reseed e b : vouched e → vouched (set_reseed e b).
Proof. by apply vouched_frame. Qed.
Lemma vouched_set_dialing e x y : vouched e → vouched (set_dialing e x y).
Proof. by apply vouched_frame. Qed.
Lemma vouched_send e a m : vouched e → vouched (send e a m).
Proof. by apply vouched_frame. Qed.
Lemma vouched_set_completions e cs : vouched e → Forall (λ c, ok (cp_leaf c)) cs → vouched (set_completions e cs).
Proof. intros [? ? ? ?] ?. by split. Qed.
Lemma vouched_report e c : vouched e → ok (cp_leaf c) → vouched (report e c).
Proof. intros He Hc. apply vouched_set_completions; [done |]. apply Forall_app. split; [apply He | by constructor]. Qed.
Lemma vouched_upd_ps e a f : (∀ ps, ps_vouched ps → ps_vouched (f ps)) → vouched e → vouched (upd_ps e a f).
Proof.
  intros Hf [? Hs ? ?]. split; try done. cbn. intros b ps. destruct (decide (a = b)) as [<- | Hne].
  - rewrite lookup_alter_eq, fmap_Some. intros (ps0 & Hps0 & ->). apply Hf. exact (Hs a ps0 Hps0).
  - rewrite lookup_alter_ne by done. apply Hs.
Qed.
Lemma vouched_foldl {A} (f : Engine → A → Engine) (P : A → Prop) l e :
  (∀ e x, P x → vouched e → vouched (f e x)) → Forall P l → vouched e → vouched (foldl f e l).
Proof. intros Hf Hl. revert e. induction Hl as [|x l Hx _ IH]; intros e He; simpl; auto. Qed.

Lemma vouched_broadcast e changed : vouched e → vouched (broadcastUpdate cfg e changed).
Proof.
  intros He. unfold broadcastUpdate. destruct changed; [done |]. cbv zeta. case_match; [| by apply (vouched_frame e)].
  apply (vouched_foldl _ (λ _, True)); [| by apply Forall_true | by apply (vouched_frame e)].
  intros e1 b _. by apply vouched_frame.
Qed.

Lemma all_ok_insert (f : Files) k fi : all_ok f → ok fi → all_ok (<[k := fi]> f).
Proof. intros. by apply map_Forall_insert_2. Qed.
Lemma all_ok_foldl (m : Files) set : all_ok m → Forall ok set → all_ok (foldl (λ m fi, <[Path fi := fi]> m) m set).
Proof. intros Hm Hs. revert m Hm. induction Hs as [|fi set Hfi _ IH]; intros m Hm; simpl; auto using all_ok_insert. Qed.
Lemma all_ok_files_of set : Forall ok set → all_ok (files_of set).
Proof. intros. by apply all_ok_foldl; [apply map_Forall_empty |]. Qed.
Lemma all_ok_set_of f : all_ok f → Forall ok (set_of f).
Proof. intros Hf. apply Forall_forall. intros fi [k Hk]%elem_of_set_of. exact (Hf k fi Hk). Qed.
Lemma ok_SetDeleted fi : ok fi → ok (SetDeleted fi (selfShort cfg)).
Proof. intros Hv. exact (vc_bump _ Hv). Qed.
Lemma ok_zero_version prev : (∀ p, prev = Some p → ok p) → V (zero_version prev).
Proof. destruct prev; simpl; [naive_solver | intros _; exact vc_nil]. Qed.

#[local] Hint Resolve vouched_set_files vouched_rebuild vouched_set_disk vouched_set_completions vouched_report
  vouched_set_reseed vouched_set_dialing vouched_send
  vouched_broadcast all_ok_insert all_ok_files_of ok_SetDeleted vo_files : vouch.

(** ** Verdicts *)

Record plan_ok (p : plan) : Prop := mkPlanOk {
  plo_install : ok (install p); plo_winner : ok (p_winner p); plo_loser : ∀ l, p_loser p = Some l → ok l }.

Lemma plan_ok_noop : plan_ok plan_noop.
Proof. split; [exact vc_nil.. | done]. Qed.
Lemma plan_ok_install fi : ok fi → plan_ok (plan_install fi).
Proof. split; [done | exact vc_nil | done]. Qed.
Lemma plan_ok_conflict a b : ok a → ok b → plan_ok (conflictPlan a b).
Proof.
  intros Ha Hb. unfold conflictPlan. cbv zeta. destruct (winner_loser_cases a b) as [[-> ->] | [-> ->]];
    repeat case_match; try apply plan_ok_noop; (split; [exact vc_nil | done | by intros ? [= <-]]).
Qed.
Lemma plan_ok_resolve l r s : (∀ x, l = Some x → ok x) → (∀ x, r = Some x → ok x) → plan_ok (resolve l r s).
Proof.
  intros Hl Hr. unfold resolve. destruct r as [r |]; [specialize (Hr r eq_refl) | destruct l; apply plan_ok_noop].
  destruct l as [l |]; [specialize (Hl l eq_refl) |]; repeat case_match;
    auto using plan_ok_noop, plan_ok_install, plan_ok_conflict; apply plan_ok_install; by refine (vc_merge _ _ _ _).
Qed.

(** ** Reconciliation *)

Lemma vouched_applyTombstone e t : vouched e → ok t → vouched (applyTombstone cfg e t).
Proof. intros He Ht. unfold applyTombstone. cbv zeta. case_match; auto 8 with vouch. Qed.

Lemma vouched_enqueue (c : peerState → Prop) `{∀ ps, Decision (c ps)} (infl : peerState → gset bytes) task e a :
  task_ok task → vouched e →
  vouched (upd_ps e a (λ ps, if decide (c ps) then ps
                  else if (length (ps_fetchQ ps) <? fetchQueueDepth)%nat
                       then ps_set_fetch ps (infl ps) (ps_fetchQ ps ++ [task]) (ps_running ps) else ps)).
Proof.
  intros Ht. apply vouched_upd_ps. intros ps Hps. case_decide; [done |]. case_match; [| done]. destruct Hps.
  split; [done | | done]. cbn. apply Forall_app. split; [done | by constructor].
Qed.
Lemma vouched_enqueueFetch e a leaf adv : vouched e → ok leaf → vouched (enqueueFetch e a leaf adv).
Proof. intros He Hl. by apply (vouched_enqueue (λ ps, Path leaf ∈ ps_inflight ps)). Qed.
Lemma vouched_enqueueConflict e a l w : vouched e → ok l → ok w → vouched (enqueueConflict e a l w).
Proof. intros He Hl Hw. apply (vouched_enqueue (λ ps, Path w ∈ ps_inflight ps)); [| done]. split; [done | by intros ? [= <-]]. Qed.
Lemma vouched_enqueueRename e a c t : vouched e → ok c → ok t → vouched (enqueueRename e a c t).
Proof.
  intros He Hc Ht. apply (vouched_enqueue (λ ps, Path c ∈ ps_inflight ps ∨ Path t ∈ ps_inflight ps)); [| done].
  split; [done | by intros ? [= <-]].
Qed.
Lemma vouched_clearInflight e s key : vouched e → vouched (clearInflight e s key).
Proof. intros He. unfold clearInflight. case_match; [| done]. apply vouched_upd_ps; [| done]. by intros ps []. Qed.
#[local] Hint Resolve vouched_applyTombstone vouched_enqueueFetch vouched_enqueueConflict vouched_enqueueRename
  vouched_clearInflight plo_install plo_winner plo_loser : vouch.

Lemma vouched_execute e a p : vouched e → plan_ok p → vouched (execute cfg e a p).
Proof. intros He [? ? Hl]. unfold execute. repeat case_match; auto with vouch. Qed.

Definition tomb_plan_ok (t : tombInstall) : Prop := plan_ok (ti_plan t).
Definition entry_vouched (d : DiffEntry) : Prop :=
  (∀ l, Local d = Some l → ok l) ∧ (∀ r, Remote d = Some r → ok r).

Lemma vouched_resolve_all e a ds :
  vouched e → Forall entry_vouched ds →
  let '(e', creates, tombs) := resolve_all cfg e a ds in
  vouched e' ∧ Forall plan_ok creates ∧ Forall tomb_plan_ok tombs.
Proof.
  intros He Hds. revert e He. induction Hds as [|d ds [Hl Hr] _ IH]; intros e He; cbn [resolve_all]; [done |].
  destruct (IsTypeClash d); [by apply IH |]. cbv zeta.
  pose proof (plan_ok_resolve (Local d) (Remote d) (selfShort cfg) Hl Hr) as Hp. pose proof (IH e He) as IHe.
  destruct (_ && _); [destruct (resolve_all cfg e a ds) as [[? ?] ?]; naive_solver |].
  destruct (bool_decide _); [destruct (resolve_all cfg e a ds) as [[? ?] ?]; naive_solver |].
  apply IH. by apply vouched_execute.
Qed.

Lemma pair_tomb_vouched e a hash tombs t tombs' :
  pair_tomb e a hash tombs = Some (t, tombs') → Forall tomb_plan_ok tombs → tomb_plan_ok t ∧ Forall tomb_plan_ok tombs'.
Proof.
  revert tombs'. induction tombs as [|x tombs IH]; intros tombs'; cbn [pair_tomb]; [done |].
  intros Hp [Hx Ht]%Forall_cons. destruct (_ && _).
  - injection Hp as <- <-. split; [done | by constructor].
  - destruct (pair_tomb e a hash tombs) as [[t1 rest] |]; [| done]. cbn in Hp. injection Hp as <- <-.
    destruct (IH rest eq_refl Ht). split; [done | by constructor].
Qed.

Lemma vouched_pair_creates e a creates tombs :
  vouched e → Forall plan_ok creates → Forall tomb_plan_ok tombs →
  let '(e', creates', tombs') := pair_creates e a creates tombs in
  vouched e' ∧ Forall plan_ok creates' ∧ Forall tomb_plan_ok tombs'.
Proof.
  intros He Hcs. revert e tombs He. induction Hcs as [|c creates Hc Hcs IH]; intros e tombs He Hts; cbn [pair_creates]; [done |].
  destruct (ps_has_inflight e a _); [by apply IH |].
  destruct (pair_tomb e a _ tombs) as [[t tombs1] |] eqn:Hp.
  - destruct (pair_tomb_vouched _ _ _ _ _ _ Hp Hts) as [Ht Hts1]. apply IH; [| done].
    apply vouched_enqueueRename; [done | by apply plo_install..].
  - specialize (IH e tombs He Hts). destruct (pair_creates e a creates tombs) as [[e' creates'] tombs'].
    destruct IH as (? & ? & ?). split_and!; [done | by constructor | done].
Qed.

Lemma vouched_execute_tombs e a tombs : vouched e → Forall tomb_plan_ok tombs → vouched (execute_tombs cfg e a tombs).
Proof.
  intros He Hts. unfold execute_tombs. apply (vouched_foldl _ tomb_plan_ok); [| done | done].
  intros e1 t Ht He1. case_match; [by apply vouched_execute | done].
Qed.

Lemma all_ok_gc peers files : all_ok files → all_ok (gcTombstonesLocked peers files).1.
Proof. intros Hf k fi [Hk _]%gc_lookup. exact (Hf k fi Hk). Qed.
Lemma vouched_gc e : vouched e → vouched (gcTombstones e).
Proof.
  intros He. unfold gcTombstones. pose proof (all_ok_gc (peer_indexes e) (e_files e) (vo_files e He)).
  destruct (gcTombstonesLocked _ _) as [files []]; auto with vouch.
Qed.

(** The entries of a diff are records of the two sides. *)
Lemma Diff_vouched files idx lt pt :
  keyed files → keyed idx → all_ok files → all_ok idx →
  BuildTree (snapshotFilesLocked files) = Ok lt → BuildTree (set_of idx) = Ok pt →
  Forall entry_vouched (Diff (Some lt) (Some pt)).
Proof.
  intros Hkf Hki Hf Hi Hlt Hpt. rewrite (BuildTree_perm_eq _ _ (snapshot_perm files)) in Hlt.
  apply Forall_forall. intros d (p & Hl & Hr)%Diff_sound.
  split; [rewrite Hl; intros l Hs | rewrite Hr; intros r Hs];
    [apply (leaf_at_files files) in Hs as [Hs _] | apply (leaf_at_files idx) in Hs as [Hs _]]; try done;
    [exact (Hf _ _ Hs) | exact (Hi _ _ Hs)].
Qed.

Lemma vouched_reconcileWithPeer e a : inv e → vouched e → vouched (reconcileWithPeer cfg e a).
Proof.
  intros Hi He. unfold reconcileWithPeer. destruct (e_states e !! a) as [ps |] eqn:Hps; [| done].
  destruct (BuildTree (snapshotFilesLocked (e_files e))) as [lt |] eqn:Hlt; [| done].
  destruct (BuildTree (set_of (ps_index ps))) as [pt |] eqn:Hpt; [| done].
  destruct (inv_states e Hi a ps Hps) as [_ [Hix _ _ _]].
  pose proof (Diff_vouched _ _ lt pt (inv_keyed e Hi) Hix (vo_files e He) (pv_index ps (vo_states e He a ps Hps)) Hlt Hpt) as Hds.
  pose proof (vouched_resolve_all e a _ He Hds) as Hra. destruct (resolve_all _ _ _ _) as [[e1 creates] tombs].
  destruct Hra as (He1 & Hc & Ht). pose proof (vouched_pair_creates e1 a creates tombs He1 Hc Ht) as Hpc.
  destruct (pair_creates _ _ _ _) as [[e2 creates'] tombs']. destruct Hpc as (He2 & Hc' & Ht').
  apply vouched_gc, vouched_execute_tombs; [| done].
  apply (vouched_foldl _ plan_ok); [| done | done]. intros. by apply vouched_execute.
Qed.
#[local] Hint Resolve vouched_reconcileWithPeer : vouch.

(** ** Messages and peers *)

(** The records a message carries. *)
Definition carried_records (m : Message) : list FileInfo :=
  match m with
  | MIndex i | MIndexUpdate i => match DecodeFileInfos (ix_Body i) with Ok set => set | Err _ => [] end
  | _ => []
  end.
Definition received (ev : TransportEvent) : list FileInfo :=
  match ev with PeerMessage _ m => carried_records m | _ => [] end.

Lemma vouched_doReseed e a : vouched e → vouched (doReseed cfg e a).
Proof.
  intros He. unfold doReseed. destruct (e_states e !! a) as [ps |] eqn:Hps; [| done].
  assert (all_ok (reseed_files (selfShort cfg) (ps_index ps) (e_files e)).1) as Hr.
  { intros k fi. rewrite reseed_lookup, fmap_Some. intros (lf & Hlf & ->).
    destruct (reseed_one _ _ k lf) as [x |] eqn:Hx; [| exact (vo_files e He k lf Hlf)]. simpl.
    unfold reseed_one in Hx. case_match; [done |]. destruct (ps_index ps !! k) as [pf |] eqn:Hpf; [| done].
    case_match; [done |]. injection Hx as <-. pose proof (pv_index ps (vo_states e He a ps Hps) k pf Hpf) as Hok.
    unfold ok. cbn. case_decide; [done | exact (vc_bump _ Hok)]. }
  destruct (reseed_files _ _ _) as [files bumped]. cbn [fst] in Hr. case_match; auto with vouch.
Qed.

Lemma vouched_set_index (e : Engine) (a : nat) (f : peerState → Files) :
  (∀ ps, all_ok (ps_index ps) → all_ok (f ps)) → vouched e → vouched (upd_ps e a (λ ps, ps_set_index ps (f ps))).
Proof. intros Hf. apply vouched_upd_ps. intros ps [? ? ?]. split; cbn; auto. Qed.

Lemma vouched_handleMessage e id m :
  inv e → vouched e → Forall ok (carried_records m) → vouched (handleMessage cfg e id m).
Proof.
  intros Hi He Hm. unfold handleMessage. destruct (e_peers e !! id) as [a |]; [| done]. destruct m as [h | i | i | r | r | |]; try done.
  - unfold onIndex. cbn in Hm. destruct (DecodeFileInfos (ix_Body i)) as [set |]; [| done]. cbv zeta.
    set (e1 := upd_ps e a (λ ps, ps_set_index ps (files_of set))).
    assert (inv e1) as Hi1 by (apply inv_upd_ps; [apply frame_index; intros; apply keyed_files_of | done]).
    assert (vouched e1) as He1 by (apply vouched_set_index; auto with vouch).
    apply vouched_reconcileWithPeer; case_match; auto using inv_doReseed, vouched_doReseed.
  - unfold onIndexUpdate. cbn in Hm. destruct (DecodeFileInfos (ix_Body i)) as [set |]; [| done]. cbv zeta.
    apply vouched_reconcileWithPeer.
    + apply inv_upd_ps; [apply frame_index; intros; by apply keyed_foldl | done].
    + apply vouched_set_index; [| done]. intros. by apply all_ok_foldl.
  - unfold routeRequest. repeat case_match; auto with vouch. apply vouched_upd_ps; [| done]. by intros ? [].
  - apply vouched_upd_ps; [| done]. intros ps []. repeat case_match; done.
Qed.

Lemma vouched_handleTransportEvent e ev :
  inv e → vouched e → Forall ok (received ev) → vouched (handleTransportEvent cfg e ev).
Proof.
  intros Hi He Hr. destruct ev as [[[id hello] |] | id | id m]; cbn [handleTransportEvent]; [| done | | by apply vouched_handleMessage].
  - unfold onPeerConnected. destruct (addPeer e id hello) as [e1 a] eqn:Ha.
    assert (vouched e1) as He1.
    { unfold addPeer in Ha. injection Ha as <- _. destruct He as [? Hs ? ?]. split; try done. cbn.
      apply map_Forall_insert_2; [| done]. split; [apply map_Forall_empty | constructor | done]. }
    repeat case_match; auto with vouch.
  - unfold removePeer. case_match; [| done]. apply vouched_upd_ps; [by intros ? [] | by apply (vouched_frame e)].
Qed.

Lemma vouched_shutdown e : vouched e → vouched (shutdownPeers e).
Proof.
  intros He. unfold shutdownPeers. apply (vouched_foldl _ (λ _, True)); [| by apply Forall_true | by apply (vouched_frame e)].
  intros e1 a _. apply vouched_upd_ps. by intros ? [].
Qed.

(** ** The goroutines and the completions *)

Lemma vouched_materialise e a ps leaf adv tmp now net :
  vouched e → ok leaf → vouched (materialise_step cfg e a ps leaf adv tmp now net).1.
Proof. intros He Hl. unfold materialise_step. destruct (materialise _ _ _ _ _ _ _ _). apply vouched_report; [by apply (vouched_frame e) | done]. Qed.

Lemma vouched_set_running e a q run :
  vouched e → Forall task_ok q → (∀ t, run = Some t → task_ok t) → vouched (set_running e a q run).
Proof. intros He Hq Hr. apply vouched_upd_ps; [| done]. by intros ps []. Qed.

Lemma vouched_puller_step e a tmp now net e' : vouched e → puller_step cfg e a tmp now net = Some e' → vouched e'.
Proof.
  intros He (ps & Hps & _ & Hrf)%puller_step_run. revert Hrf. unfold runFetch.
  destruct (vo_states e He a ps Hps) as [_ Hq Hrun]. destruct (ps_running ps) as [task |].
  - intros Heq. apply (inj Some) in Heq as <-. apply vouched_materialise; [by apply vouched_set_running | by apply Hrun].
  - destruct (ps_fetchQ ps) as [|task q]; [done |]. apply Forall_cons in Hq as [[Hleaf Hpre] Hq].
    assert (vouched (set_running e a q None)) as He1 by (by apply vouched_set_running).
    destruct (ft_preserve task) as [copy |] eqn:Hcopy; intros Heq.
    + pose proof (vouched_materialise _ a ps copy (ft_preserveAdvertise task) tmp now net He1 (Hpre copy eq_refl)) as Hm.
      destruct (materialise_step _ _ _ _ _ _ _ _ _) as [e1 ok1]. apply (inj Some) in Heq as <-. cbn [fst] in Hm.
      repeat case_match; auto with vouch. apply vouched_set_running; [done | done |]. intros t [= <-].
      split; [done |]. by rewrite Hcopy.
    + apply (inj Some) in Heq as <-. by apply vouched_materialise.
Qed.

Lemma vouched_server_step e a e' : vouched e → server_step e a = Some e' → vouched e'.
Proof.
  intros He. unfold server_step. destruct (e_states e !! a) as [ps |]; [| done]. cbn [mbind option_bind].
  destruct (ps_serveQ ps) as [|req q]; [done |]. intros Heq. apply (inj Some) in Heq as <-.
  apply vouched_send, vouched_upd_ps; [| done]. by intros ? [].
Qed.

Lemma vouched_reconcileShort e s : inv e → vouched e → vouched (reconcileShort cfg e s).
Proof. intros. unfold reconcileShort. case_match; auto with vouch. Qed.

Lemma vouched_handleCompletion e c : inv e → vouched e → ok (cp_leaf c) → vouched (handleCompletion cfg e c).
Proof.
  intros Hi He Hc. unfold handleCompletion. cbv zeta.
  assert (inv (rebuild (set_files e (<[Path (cp_leaf c) := cp_leaf c]> (e_files e))))) as Hr.
  { apply inv_rebuild; [done |]. apply keyed_insert; [apply Hi | done]. }
  repeat case_match; first [apply vouched_reconcileShort; [apply inv_clearInflight |] | idtac];
    auto 8 using inv_applyTombstone, inv_broadcast with vouch.
Qed.

(** ** Local changes, rescans and the disk *)

Lemma vouched_saveSnapshot w e : vouched e → vouched (saveSnapshot cfg w e).
Proof.
  intros [? ? ? ?]. unfold saveSnapshot. repeat case_match; split; try done.
  change (Forall ok (snapshotFilesLocked (e_files e))). rewrite snapshot_perm. by apply all_ok_set_of.
Qed.

Lemma ok_unchanged prev nfi p ns : (∀ q, prev = Some q → ok q) → unchanged_leaf prev nfi = Some p → ok (set_mtime p ns).
Proof. intros Hp [Hq _]%unchanged_leaf_Some. exact (Hp p Hq). Qed.
Lemma ok_authored prev nfi : (∀ q, prev = Some q → ok q) → ok (set_version nfi (Bump (zero_version prev) (selfShort cfg))).
Proof. intros Hp. exact (vc_bump _ (ok_zero_version prev Hp)). Qed.

Lemma vouched_onLocalChange e key : vouched e → vouched (onLocalChange cfg e key).
Proof.
  intros He. assert (∀ q, e_files e !! key = Some q → ok q) as Hprev by (intros q; apply (vo_files e He)).
  unfold onLocalChange. cbv zeta. repeat (case_match; try done); subst;
    try (apply vouched_broadcast, vouched_rebuild); apply vouched_set_files, all_ok_insert; auto with vouch.
  all: first [by eapply ok_unchanged | by apply ok_authored].
Qed.

Lemma all_ok_rescan_one (infl : bytes → bool) acc s : all_ok acc.1 → all_ok (rescan_one cfg infl acc s).1.
Proof.
  destruct acc as [files delta]. cbn [fst]. intros Hf.
  assert (∀ q, files !! Path s = Some q → ok q) as Hprev by (intros q; apply Hf).
  unfold rescan_one. destruct (unchanged_leaf _ s) as [p |] eqn:Hu; cbn [fst]; case_match; try done; cbn [fst];
    apply all_ok_insert; try done; [by eapply ok_unchanged | by apply ok_authored].
Qed.

Lemma all_ok_rescan_delta (infl : bytes → bool) files scanned :
  all_ok files → all_ok (rescan_delta cfg infl files scanned).1.
Proof.
  intros Hf. unfold rescan_delta.
  assert (∀ acc, all_ok acc.1 → all_ok (foldl (rescan_one cfg infl) acc scanned).1) as Hl.
  { induction scanned as [|s scanned IH]; intros acc Hacc; [done |]. cbn [foldl]. apply IH. by apply all_ok_rescan_one. }
  specialize (Hl (files, []) Hf). destruct (foldl _ _ scanned) as [files1 delta1]. cbn [fst] in Hl. cbv zeta.
  pose proof (rescan_gone_lookup cfg (list_to_set (Path <$> scanned)) files1) as Hg.
  destruct (rescan_gone _ _ files1) as [files2 delta2]. cbn [fst] in *. intros k fi. rewrite Hg, fmap_Some.
  intros (p & Hp & ->). pose proof (Hl k p Hp). case_match; [by apply ok_SetDeleted | done].
Qed.

Lemma vouched_rescan w e : inv e → vouched e → vouched (rescan cfg w e).
Proof.
  intros Hi He. destruct (rescan_phases cfg w e Hi) as [-> | (scanned & e1 & _ & Hi1 & Hf & Hs & _ & Hc & Hsn & ->)]; [done |].
  apply vouched_saveSnapshot.
  assert (vouched e1) as He1.
  { destruct He. split; rewrite ?Hf, ?Hs, ?Hc, ?Hsn; try done. by apply all_ok_gc, all_ok_rescan_delta. }
  generalize (addresses e1). intros l. clear Hf Hs Hc Hsn. revert e1 Hi1 He1.
  induction l as [|a l IH]; intros e1 Hi1 He1; [done |]. apply IH; auto using inv_reconcileWithPeer with vouch.
Qed.

Lemma all_ok_drop id files : all_ok files → all_ok (dropCounterLocked id files).1.
Proof.
  intros Hf k fi. cbn [fst dropCounterLocked]. rewrite lookup_fmap, fmap_Some. intros (p & Hp & ->).
  pose proof (Hf k p Hp) as Hok. case_match; [| done]. exact (vc_drop _ id Hok).
Qed.
Lemma vouched_DropCounter e id : vouched e → vouched (DropCounter e id).
Proof.
  intros He. unfold DropCounter. pose proof (all_ok_drop id (e_files e) (vo_files e He)).
  destruct (dropCounterLocked id (e_files e)) as [files []]; auto with vouch.
Qed.

(** ** Start-up *)

Lemma all_ok_sweep paired files : all_ok files → all_ok (sweepDepairedCountersLocked paired files).1.
Proof.
  intros Hk. unfold sweepDepairedCountersLocked. destruct paired as [paired |]; [| done].
  generalize false. generalize (dead_ids paired files). intros ids. revert files Hk.
  induction ids as [|id ids IH]; intros files Hk b; [done |]. cbn [foldl].
  pose proof (all_ok_drop id files Hk). destruct (dropCounterLocked id files). by apply IH.
Qed.

(** A scanned record has no version of its own. *)
Lemma Scan_versions absRoot d cur : Scan absRoot d = Ok cur → Forall (λ fi, Version fi = []) cur.
Proof.
  unfold Scan. generalize (merge_sort walk_le (map_to_list d)). intros es. revert cur.
  induction es as [|[path ent] es IH]; intros cur; cbn [scan_entries]; [intros Heq; apply Ok_inj in Heq as <-; constructor |].
  destruct ent; [.. | by apply IH]; intros (key & _ & Hr)%rbind_Ok;
    (destruct (entry_info _ _ _ _) as [fi |] eqn:Hfi; [| done]); apply rbind_Ok in Hr as (out & Ho & Heq);
    apply Ok_inj in Heq as <-; (constructor; [| by apply IH]); unfold entry_info in Hfi; repeat case_match; naive_solver.
Qed.

Lemma ok_restore_one (byPath : Files) fi : all_ok byPath → ok fi → ok (restore_one byPath (selfShort cfg) fi).
Proof.
  intros Hb Hfi. unfold restore_one. destruct (byPath !! Path fi) as [p |] eqn:Hp; [| done].
  pose proof (Hb _ _ Hp) as Hok. repeat case_match; first [exact Hok | exact (vc_bump _ Hok)].
Qed.
Lemma ok_startup prev cur :
  Forall ok prev → Forall (λ fi, Version fi = []) cur → all_ok (startup_files prev cur (selfShort cfg)).
Proof.
  intros Hp Hc. unfold startup_files. apply all_ok_files_of.
  assert (∀ fi, Version fi = [] → ok fi) as Hnil by (intros fi Hfi; unfold ok; rewrite Hfi; apply vc_nil).
  assert (Forall ok (restoreVVs prev (dropInternal cur) (selfShort cfg))) as Hr.
  { assert (Forall (λ fi, Version fi = []) (dropInternal cur)) as Hd.
    { apply Forall_forall. intros fi [_ Hfi]%list_elem_of_filter. by eapply Forall_forall in Hc. }
    unfold restoreVVs. destruct prev as [|p0 prev']; [eapply Forall_impl; [exact Hd | exact Hnil] |].
    apply Forall_fmap. eapply Forall_impl; [exact Hd |]. intros fi Hfi. apply ok_restore_one; [by apply all_ok_files_of | auto]. }
  unfold SynthesizeDeletions. destruct prev as [|p0 prev']; [done |]. apply Forall_app. split; [done |].
  apply Forall_concat, Forall_fmap. eapply Forall_impl; [exact Hp |]. intros p Hok. cbn.
  repeat case_match; repeat constructor; [done | by apply ok_SetDeleted].
Qed.

Lemma vouched_New snap d e : snap_ok snap → New cfg snap d = Ok e → vouched e.
Proof.
  intros Hs. unfold New. case_decide; [done |]. unfold startupReconcile. rewrite rbind_Ok.
  intros (prev & Hprev & Hr). apply rbind_Ok in Hr as (cur & Hcur & Hr). apply Ok_inj in Hr as <-.
  assert (Forall ok prev) as Hok.
  { destruct (cfg_hasSnapshotPath cfg); [| apply Ok_inj in Hprev as <-; constructor].
    unfold snap_ok, snap_records in Hs. destruct (LoadSnapshot snap) as [p | []]; try discriminate; by apply Ok_inj in Hprev as <-. }
  destruct (Scan (cfg_AbsRoot cfg) d) as [cur0 |] eqn:Hscan; [| discriminate]. apply Ok_inj in Hcur as ->.
  apply Scan_versions in Hscan. split; cbn; [| apply map_Forall_empty | constructor | done].
  by apply all_ok_sweep, ok_startup.
Qed.

(** ** Lives of a device *)

Lemma vouched_own_step e e' : inv e → vouched e → own_step cfg e e' → vouched e'.
Proof.
  intros Hi He Hs. destruct Hs as [d | k id v | id | key | c cs Hcs | | | id | a tmp now net e' Hp | a e' Hp | a path hash offset len | a reqID].
  - by apply vouched_set_disk.
  - unfold onPeerDiscovered. repeat case_match; auto with vouch.
  - by apply vouched_set_dialing.
  - by apply vouched_onLocalChange.
  - pose proof (vo_completions e He) as Hc. rewrite Hcs in Hc. apply Forall_cons in Hc as [Hc Hrest].
    apply vouched_handleCompletion; [by apply inv_set_completions | auto with vouch | done].
  - by apply vouched_rescan.
  - by apply vouched_saveSnapshot.
  - by apply vouched_DropCounter.
  - by eapply vouched_puller_step.
  - by eapply vouched_server_step.
  - unfold requestChunk_send. case_match; [| done]. apply vouched_send, vouched_upd_ps; [by intros ? [] | done].
  - unfold requestChunk_done. case_match; [| done]. apply vouched_upd_ps; [by intros ? [] | done].
Qed.

(** A step with the records it receives. *)
Inductive heard_step (e : Engine) : list FileInfo → Engine → Prop :=
| heard_own e' : own_step cfg e e' → heard_step e [] e'
| heard_event ev : heard_step e (received ev) (handleTransportEvent cfg e ev)
| heard_shutdown : heard_step e [] (shutdownPeers e).

(** The life of a device with the records it has been given: by its first snapshot
    file and by its peers. It may be stopped anywhere and started again on the
    snapshot it last saved and whatever is on disk by then. *)
Inductive life (snap : SnapFile) : list FileInfo → Engine → Prop :=
| life_start d e : New cfg snap d = Ok e → life snap (snap_records snap) e
| life_step recs e new e' : life snap recs e → heard_step e new e' → life snap (recs ++ new) e'
| life_restart recs e d e' : life snap recs e → New cfg (e_snapshot e) d = Ok e' → life snap recs e'.

Lemma heard_step_step e new e' : heard_step e new e' → step cfg e e'.
Proof. intros []; by constructor. Qed.

Lemma life_vouched snap recs e : life snap recs e → Forall ok recs → inv e ∧ vouched e.
Proof.
  induction 1 as [d e Hn | recs e new e' _ IH Hs | recs e d e' _ IH Hn]; intros Hok.
  - split; [by eapply inv_New | by eapply vouched_New].
  - apply Forall_app in Hok as [Hok Hnew]. destruct (IH Hok) as [Hi He].
    split; [eapply inv_step; [done | by eapply heard_step_step] |].
    destruct Hs as [e' Hs | ev |]; [by eapply vouched_own_step | by apply vouched_handleTransportEvent | by apply vouched_shutdown].
  - destruct (IH Hok) as [Hi He]. split; [by eapply inv_New |]. eapply vouched_New; [apply He | done].
Qed.

(** The records a device holds anywhere in its state. *)
Inductive held (e : Engine) : FileInfo → Prop :=
| held_record k fi : e_files e !! k = Some fi → held e fi
| held_index a ps k fi : e_states e !! a = Some ps → ps_index ps !! k = Some fi → held e fi
| held_task a ps t fi : e_states e !! a = Some ps → t ∈ ps_fetchQ ps ∨ ps_running ps = Some t →
    fi = ft_leaf t ∨ ft_preserve t = Some fi → held e fi
| held_completion c : c ∈ e_completions e → held e (cp_leaf c)
| held_snapshot fi : fi ∈ snap_records (e_snapshot e) → held e fi.

Lemma vouched_held e fi : vouched e → held e fi → ok fi.
Proof.
  intros [Hf Hs Hc Hsn] Hh.
  destruct Hh as [k fi Hk | a ps k fi Hps Hk | a ps t fi Hps Ht Hfi | c Hin | fi Hin].
  - exact (Hf k fi Hk).
  - exact (pv_index ps (Hs a ps Hps) k fi Hk).
  - destruct (Hs a ps Hps) as [_ Hq Hr]. rewrite Forall_forall in Hq.
    assert (task_ok t) as [Hl Hp] by (destruct Ht; auto). destruct Hfi as [-> |]; auto.
  - rewrite Forall_forall in Hc. auto.
  - unfold snap_ok in Hsn. rewrite Forall_forall in Hsn. auto.
Qed.
End provenance.

(** ** Two sets of versions *)

(** Every counter but the device's own is one that was given. *)
Definition told (self : Z) (recs : list FileInfo) (v : VersionVector) : Prop :=
  ∀ c, c ∈ v → ID c ≠ self → ∃ r, r ∈ recs ∧ c ∈ Version r.

(** The counters a bump or a merge yields are the new one and those there were. *)
Lemma elem_of_Bump v self c : c ∈ Bump v self → ID c = self ∨ c ∈ v.
Proof.
  unfold Bump. generalize (search v self). intros i.
  assert (c ∈ take i v ++ mkCounter self 1 :: drop i v → ID c = self ∨ c ∈ v) as Hins.
  { rewrite elem_of_app, elem_of_cons. intros [Hin | [-> | Hin]]; [right | by left | right];
      rewrite <- (take_drop i v); apply elem_of_app; auto. }
  destruct (v !! i) as [x |]; [| done]. destruct (ID x =? self); [| done].
  intros [j Hj]%list_elem_of_lookup. destruct (decide (i = j)) as [-> | Hne].
  - left. destruct (decide (j < length v)%nat) as [Hlt | Hge]; [rewrite list_lookup_insert_eq in Hj by done; by injection Hj as <- |].
    rewrite list_insert_ge in Hj by lia. apply lookup_lt_Some in Hj. lia.
  - right. rewrite list_lookup_insert_ne in Hj by done. by eapply list_elem_of_lookup_2.
Qed.

Lemma elem_of_Merge a b c : c ∈ Merge a b → c ∈ a ∨ c ∈ b.
Proof.
  revert a b. apply (vv_pair_ind (λ a b, c ∈ Merge a b → c ∈ a ∨ c ∈ b)).
  - intros b. rewrite Merge_nil_l. by right.
  - intros a. rewrite Merge_nil_r. by left.
  - intros x a y b IH1 IH2 IH3. rewrite Merge_cons, !elem_of_cons. rewrite !elem_of_cons in IH1, IH2.
    destruct (Z.ltb_spec (ID x) (ID y)); [rewrite elem_of_cons; tauto |].
    destruct (Z.ltb_spec (ID y) (ID x)); [rewrite elem_of_cons; tauto |].
    assert (ID x = ID y) as Hid by lia. rewrite elem_of_cons. intros [-> | Hin]; [| tauto].
    destruct (Value x <? Value y); [right | left]; left; [rewrite Hid; by destruct y | by destruct x].
Qed.

#[export] Instance told_closed self recs : VersionClosed self (told self recs).
Proof.
  split.
  - intros c Hc. by apply not_elem_of_nil in Hc.
  - intros v Hv c Hc Hne. destruct (elem_of_Bump v self c Hc); [done | auto].
  - intros v w Hv Hw c Hc Hne. destruct (elem_of_Merge v w c Hc); auto.
  - intros v id Hv c [Hc _]%elem_dropFromVV. auto.
Qed.

(** Sorted by id, every counter within its 64 bits, and none zero but the device's own
    (which is zero after 2^64 edits). *)
Record tidy (self : Z) (v : VersionVector) : Prop := mkTidy {
  tidy_sorted : StronglySorted Z.lt (ID <$> v);
  tidy_values : Forall (λ c, in_width 64 (Value c) ∧ (Value c = 0 → ID c = self)) v
}.

(** Which ids a bump or a merge yields does not depend on the values. *)
Definition unit_counter (c : Counter) : Counter := mkCounter (ID c) 1.
Definition units (v : VersionVector) : VersionVector := unit_counter <$> v.

Lemma units_ids v : ID <$> units v = ID <$> v.
Proof. unfold units. rewrite <- list_fmap_compose. by apply list_fmap_ext. Qed.
Lemma units_canonical v : StronglySorted Z.lt (ID <$> v) → canonical (units v).
Proof. intros Hs. split; [by rewrite units_ids |]. apply Forall_fmap, Forall_true. intros c. cbn. lia. Qed.
Lemma canonical_tidy self v : canonical v → vv_width v → tidy self v.
Proof.
  intros [Hs Hn] Hw. split; [done |]. rewrite Forall_forall in Hn |- *. unfold vv_width in Hw. rewrite Forall_forall in Hw.
  intros c Hc. destruct (Hw c Hc). specialize (Hn c Hc). split; [done |]. simpl in Hn. lia.
Qed.

Lemma search_units v id : search (units v) id = search v id.
Proof.
  unfold search, sort_Search, units. rewrite length_fmap.
  assert (∀ i, id_at_least (unit_counter <$> v) id i = id_at_least v id i) as Hf.
  { intros i. unfold id_at_least. rewrite list_lookup_fmap. by destruct (v !! i). }
  generalize 0%nat. generalize (length v) at 2 4. generalize (length v).
  induction n as [|n IH]; intros j i; cbn [search_loop]; [done |]. by rewrite Hf, !IH.
Qed.

Lemma ids_Bump v self : ID <$> Bump v self = ID <$> Bump (units v) self.
Proof.
  unfold Bump. rewrite search_units. generalize (search v self). intros i. unfold units.
  rewrite list_lookup_fmap.
  assert (ID <$> (take i v ++ mkCounter self 1 :: drop i v) =
          ID <$> (take i (unit_counter <$> v) ++ mkCounter self 1 :: drop i (unit_counter <$> v))) as Hins.
  { rewrite <- fmap_take, <- fmap_drop, !fmap_app, !fmap_cons. pose proof units_ids as Hu. unfold units in Hu. by rewrite !Hu. }
  destruct (v !! i) as [c |]; cbn [fmap option_fmap option_map]; [| done].
  change (ID (unit_counter c)) with (ID c). destruct (ID c =? self); [| done].
  rewrite !list_fmap_insert. cbn [ID]. f_equal. symmetry. apply (units_ids v).
Qed.

Lemma ids_Merge a b : ID <$> Merge a b = ID <$> Merge (units a) (units b).
Proof.
  revert a b. apply (vv_pair_ind (λ a b, ID <$> Merge a b = ID <$> Merge (units a) (units b))).
  - intros b. rewrite !Merge_nil_l. by rewrite units_ids.
  - intros a. rewrite !Merge_nil_r. by rewrite units_ids.
  - intros x a y b IH1 IH2 IH3. unfold units in *. rewrite !fmap_cons, !Merge_cons in *. cbn [ID unit_counter].
    destruct (ID x <? ID y); [| destruct (ID y <? ID x)]; rewrite !fmap_cons; cbn [ID unit_counter]; f_equal; done.
Qed.

Lemma vget_units v id : vget (units v) id ≤ 1.
Proof. induction v as [|c v IH]; cbn; [lia |]. destruct (ID c =? id); [lia | done]. Qed.

#[export] Instance tidy_closed self : VersionClosed self (tidy self).
Proof.
  split.
  - split; constructor.
  - intros v [Hs Hv]. split.
    + rewrite ids_Bump. pose proof (units_canonical v Hs) as Hc. rewrite Bump_list by done.
      apply bump_canonical; [done |]. pose proof (vget_units v self). width; lia.
    + rewrite Forall_forall in *. intros c Hc. unfold Bump in Hc. generalize dependent (search v self). intros i Hc.
      assert (c ∈ take i v ++ mkCounter self 1 :: drop i v → in_width 64 (Value c) ∧ (Value c = 0 → ID c = self)) as Hins.
      { rewrite elem_of_app, elem_of_cons. intros [Hin | [-> | Hin]]; [| split; [cbn; width; lia | done] |];
          apply Hv; rewrite <- (take_drop i v); apply elem_of_app; auto. }
      destruct (v !! i) as [x |]; [| auto]. destruct (ID x =? self); [| auto].
      apply list_elem_of_lookup in Hc as [j Hj]. apply list_lookup_insert_Some in Hj as [(_ & <- & _) | [_ Hj]].
      * split; [by apply wrap_in_width | done].
      * apply Hv. by eapply list_elem_of_lookup_2.
  - intros v w [Hs1 Hv1] [Hs2 Hv2]. split.
    + rewrite ids_Merge. apply Merge_canonical; by apply units_canonical.
    + rewrite Forall_forall in *. intros c Hc. destruct (elem_of_Merge v w c Hc); auto.
  - intros v id [Hs Hv]. unfold dropFromVV. split.
    + pose proof (canonical_filter (λ c, ID c ≠ id) (units v) (units_canonical v Hs)) as [Hf _].
      assert (filter (λ c, ID c ≠ id) (units v) = units (filter (λ c, ID c ≠ id) v)) as Heq; [| by rewrite Heq, units_ids in Hf].
      clear. induction v as [|c v IH]; [done |]. unfold units in *. rewrite fmap_cons, !filter_cons. cbn [ID unit_counter].
      case_decide; [by rewrite fmap_cons, IH | done].
    + rewrite Forall_forall in *. intros c [Hc _]%elem_dropFromVV. auto.
Qed.

(** What arrives on the wire has been checked. *)
Lemma received_tidy `{UnicodeLaws} self ev : Forall (ok (tidy self)) (received ev).
Proof.
  destruct ev as [| | id m]; [constructor.. |]. assert (∀ b, Forall (ok (tidy self))
    (match DecodeFileInfos b with Ok set => set | Err _ => [] end)) as Hd.
  { intros b. pose proof (DecodeFileInfos_inv b) as Hb. destruct (DecodeFileInfos b) as [set |]; [| constructor].
    destruct Hb as [Hset _]. eapply Forall_impl; [exact Hset |]. intros fi [Hw Hc _ _]. apply canonical_tidy; [done | apply Hw]. }
  destruct m; apply Hd || constructor.
Qed.

(** * Properties *)

(** C11: Only a device writes its own counter: through any life, with its restarts,
    whatever it is sent and however its handlers, pullers and rescans interleave,
    every counter of another device in any record it holds (its own set, its peers'
    indexes, queued and running work, completions, saved snapshot) stands as it is,
    id and value, in a record it was given. It never invents or advances the clock
    of another device, which is what makes a dominating version mean "has seen". *)
Theorem foreign_counters_heard `{OS, Digest, Unicode} cfg snap recs e fi c :
  life cfg snap recs e → held e fi → c ∈ Version fi → ID c ≠ selfShort cfg → ∃ r, r ∈ recs ∧ c ∈ Version r.
Proof.
  intros Hl Hh Hc Hne. destruct (life_vouched cfg (told (selfShort cfg) recs) snap recs e Hl) as [_ He].
  - apply Forall_forall. intros r Hr c' Hc' _. eauto.
  - exact (vouched_held _ e fi He Hh c Hc Hne).
Qed.

(** C12: Every version a device holds is well formed, whatever its peers send: the ids
    are strictly ascending, which the binary searches of Get and Bump rely on, every
    value fits its 64 bits, and no counter is zero, as the comparison requires, but
    possibly the device's own (whose increment wraps). It needs the first snapshot
    file to be well formed; what arrives on the wire is checked by the decoder. *)
Theorem held_versions_tidy `{OS, Digest, UnicodeLaws} cfg snap recs e fi :
  Forall (λ r, tidy (selfShort cfg) (Version r)) (snap_records snap) →
  life cfg snap recs e → held e fi → tidy (selfShort cfg) (Version fi).
Proof.
  intros Hs Hl Hh. destruct (life_vouched cfg (tidy (selfShort cfg)) snap recs e Hl) as [_ He]; [| exact (vouched_held _ e fi He Hh)].
  clear Hh fi. induction Hl as [d e Hn | recs e new e' _ IH Hst | recs e d e' _ IH Hn]; [done | | done].
  apply Forall_app. split; [done |]. destruct Hst; [constructor | by apply received_tidy | constructor].
Qed.

Section provenance_witness.
#[local] Existing Instance toy_digest.

Lemma e_conflict_life : life home SnapMissing [their_note] e_conflict.
Proof.
  assert (received (update_from [their_note]) = [their_note]) as Hr by (vm_compute; reflexivity).
  change [their_note] with ([] ++ [their_note]). rewrite <- Hr at 1. eapply life_step; [| apply heard_event].
  change (@nil FileInfo) with (([] ++ []) ++ @nil FileInfo). eapply life_step; [| apply heard_own, (step_local home _ note)].
  eapply life_step; [| apply heard_own, (step_user home _ (holding (go! "v1") 2))].
  change (@nil FileInfo) with (snap_records SnapMissing ++ received (PeerConnected (Some (device "B", mkHello 1 (device "B") (go! "folder") zero32 0)))).
  eapply life_step; [| apply heard_event]. apply life_start with (d := holding (go! "v0") 1). vm_compute. reflexivity.
Qed.

Lemma e_conflict_held : held e_conflict (ft_leaf coupled).
Proof.
  assert (e_states e_conflict !! 0%nat = Some ps_conflict) as Hps by (vm_compute; reflexivity).
  assert (coupled ∈ ps_fetchQ ps_conflict) as Hq.
  { assert (ps_fetchQ ps_conflict = [coupled]) as -> by (vm_compute; reflexivity). by apply list_elem_of_singleton. }
  eapply held_task; [exact Hps | left; exact Hq | by left].
Qed.

Lemma foreign_counters_heard_witness :
  mkCounter there 1 ∈ Version (ft_leaf coupled) ∧ ∃ r, r ∈ [their_note] ∧ mkCounter there 1 ∈ Version r.
Proof.
  assert (mkCounter there 1 ∈ Version (ft_leaf coupled)) as Hc by (apply (bool_decide_unpack _); vm_compute; exact I).
  split; [exact Hc |].
  refine (foreign_counters_heard home SnapMissing [their_note] e_conflict _ _ e_conflict_life e_conflict_held Hc _).
  vm_compute. discriminate.
Defined.
Lemma held_versions_tidy_witness :
  tidy (selfShort home) (Version (ft_leaf coupled)).
Proof.
  refine (held_versions_tidy home SnapMissing [their_note] e_conflict _ _ e_conflict_life e_conflict_held).
  constructor.
Defined.
End provenance_witness.
