(* ===== verification/Rpc.v ===== *)
(** * Rpc: a request and its response (requestChunk and fetchOverWire of
    internal/reconcile/transfer.go, against routeResponse of the select loop)

    Transfer.v takes the network as a function from requests to responses. Here the
    puller of one connection runs block by block, each request registered in the
    connection's table of calls, sent, and answered, or not, by what the select loop
    routes while every other part of the engine goes on. The run refines the
    sequential loop: what it did is what fetchOverWire does with some function that
    answers each request with a response the connection delivered for it. *)
From S2P Require Import Prelude Bytes VersionVector Framing Messages Windows Pathnorm Hashing.
From S2P Require Import FileInfo Tree Oracle Differ Conflict Scanner Disk Transfer Replica Engine.
From S2P Require Import Story Invariant Reconcile Progress Work.

(** ** The table of calls *)

Definition calls (e : Engine) (a : nat) : option (gmap Z (option Response) * Z) :=
  (λ ps, (ps_resp ps, ps_nextReq ps)) <$> e_states e !! a.

(** Every connection's calls are as they were. *)
Definition kept (e e' : Engine) : Prop := ∀ a c, calls e a = Some c → calls e' a = Some c.
#[export] Instance kept_preorder : PreOrder kept.
Proof. split; [by intros e a c | intros e1 e2 e3 H1 H2 a c Hc; auto]. Qed.

Lemma kept_states e e' : e_states e' = e_states e → kept e e'.
Proof. intros Hs a c. unfold calls. by rewrite Hs. Qed.
Lemma kept_calm e e' : calm e' = calm e → kept e e'.
Proof. unfold calm. intros [= Hs _ _]. by apply kept_states. Qed.
Lemma kept_upd_at e b f a :
  a ≠ b ∨ (∀ ps, ps_resp (f ps) = ps_resp ps ∧ ps_nextReq (f ps) = ps_nextReq ps) → calls (upd_ps e b f) a = calls e a.
Proof.
  intros Hf. unfold calls. cbn. destruct (decide (b = a)) as [<- | Hne]; [| by rewrite lookup_alter_ne].
  destruct Hf as [? | Hf]; [done |]. rewrite lookup_alter_eq. destruct (e_states e !! b) as [ps |]; [| done].
  cbn. by destruct (Hf ps) as [-> ->].
Qed.
Lemma kept_upd e b f : (∀ ps, ps_resp (f ps) = ps_resp ps ∧ ps_nextReq (f ps) = ps_nextReq ps) → kept e (upd_ps e b f).
Proof. intros Hf a c Hc. rewrite kept_upd_at; auto. Qed.

Section rpc.
Context `{OS, Digest, Unicode}.
Context (cfg : Config).

Lemma kept_foldl {A} (I : Engine → Prop) (f : Engine → A → Engine) l e :
  (∀ e x, I e → kept e (f e x) ∧ I (f e x)) → I e → kept e (foldl f e l).
Proof.
  intros Hf. revert e. induction l as [|x l IH]; intros e Hi; [done |]. cbn [foldl].
  destruct (Hf e x Hi). etransitivity; [done |]. by apply IH.
Qed.

Lemma kept_reconcile e a : inv e → kept e (reconcileWithPeer cfg e a).
Proof.
  intros Hi. destruct (e_states e !! a) as [ps |] eqn:Hps.
  2:{ unfold reconcileWithPeer. by rewrite Hps. }
  destruct (reconcile_effects cfg e a ps Hi Hps) as [-> | (e' & He & ->)]; [done |].
  etransitivity; [| apply kept_calm, calm_gc]. clear Hi Hps.
  induction He as [e0 | e1 e2 e3 Hs _ IH]; [done |]. etransitivity; [| exact IH].
  destruct Hs as [f Hf | t _]; [by apply kept_upd, enq_calls | apply kept_calm, calm_applyTombstone].
Qed.

(** The responses an event carries. *)
Definition responses (ev : TransportEvent) : list Response :=
  match ev with PeerMessage _ (MResponse r) => [r] | _ => [] end.

Lemma kept_onIndex e a body : inv e → kept e (onIndex cfg e a body).
Proof.
  intros Hi. unfold onIndex. destruct (DecodeFileInfos body) as [set |]; [| done]. cbv zeta.
  set (e1 := upd_ps e a (λ ps, ps_set_index ps (files_of set))).
  assert (inv e1) as Hi1 by (apply inv_upd_ps; [apply frame_index; intros; apply keyed_files_of | done]).
  transitivity e1; [by apply kept_upd |]. case_match; [| by apply kept_reconcile].
  transitivity (doReseed cfg e1 a); [apply kept_calm, calm_doReseed |]. by apply kept_reconcile, inv_doReseed.
Qed.

Lemma kept_onIndexUpdate e a body : inv e → kept e (onIndexUpdate cfg e a body).
Proof.
  intros Hi. unfold onIndexUpdate. destruct (DecodeFileInfos body) as [set |]; [| done]. cbv zeta.
  match goal with |- kept _ (reconcileWithPeer _ ?x _) => set (e1 := x) end.
  assert (inv e1) as Hi1 by (apply inv_upd_ps; [apply frame_index; intros; by apply keyed_foldl | done]).
  transitivity e1; [by apply kept_upd | by apply kept_reconcile].
Qed.

(** An event without a response, or with one for another connection, keeps a call; a
    response goes to the call with its id, if that still has no answer. *)
Definition routed (tbl : gmap Z (option Response)) (r : Response) : gmap Z (option Response) :=
  match tbl !! rs_ReqID r with Some None => <[rs_ReqID r := Some r]> tbl | _ => tbl end.

Lemma calls_event e ev a tbl n :
  inv e → calls e a = Some (tbl, n) →
  let e' := handleTransportEvent cfg e ev in
  calls e' a = Some (tbl, n) ∨ ∃ r, r ∈ responses ev ∧ calls e' a = Some (routed tbl r, n).
Proof.
  intros Hi Hc. cbv zeta. destruct ev as [[[id hello] |] | id | id m]; cbn [handleTransportEvent]; [left.. | ].
  - unfold onPeerConnected, addPeer.
    assert (a ≠ e_next e) as Hne.
    { unfold calls in Hc. destruct (e_states e !! a) as [ps |] eqn:Hps; [| done]. destruct (inv_states e Hi a ps Hps). lia. }
    repeat case_match; unfold calls; cbn; by rewrite lookup_insert_ne.
  - done.
  - unfold removePeer. case_match; [| done]. by rewrite kept_upd_at by by right.
  - unfold handleMessage. destruct (e_peers e !! id) as [b |]; [| by left]. destruct m as [h | i | i | q | r | |]; try by left.
    + left. by apply kept_onIndex.
    + left. by apply kept_onIndexUpdate.
    + left. unfold routeRequest. repeat case_match; [by rewrite kept_upd_at by by right | done..].
    + destruct (decide (a = b)) as [<- | Hne]; [| left; unfold routeResponse; by rewrite kept_upd_at by by left].
      right. exists r. split; [by apply list_elem_of_singleton |]. unfold calls, routeResponse, routed in *. cbn.
      rewrite lookup_alter_eq. destruct (e_states e !! a) as [ps |]; [| done]. cbn in *. injection Hc as <- <-.
      by repeat case_match.
Qed.

Lemma kept_shutdown e : kept e (shutdownPeers e).
Proof.
  unfold shutdownPeers. transitivity (set_peers e ∅); [by apply kept_states |].
  apply (kept_foldl (λ _, True)); [| done]. intros. split; [by apply kept_upd | done].
Qed.

Lemma kept_puller e a tmp now net e' : puller_step cfg e a tmp now net = Some e' → kept e e'.
Proof.
  intros (ps & Hps & _ & Hp)%puller_step_run. unfold runFetch in Hp.
  assert (∀ e1 leaf adv, kept e1 (materialise_step cfg e1 a ps leaf adv tmp now net).1) as Hm.
  { intros. unfold materialise_step. destruct (materialise _ _ _ _ _ _ _ _). by apply kept_states. }
  assert (∀ e1 q run, kept e1 (set_running e1 a q run)) as Hr by (intros; by apply kept_upd).
  destruct (ps_running ps) as [task |]; [| destruct (ps_fetchQ ps) as [|task q]; [done |]; destruct (ft_preserve task) as [copy |]].
  - apply (inj Some) in Hp as <-. etransitivity; [apply Hr | apply Hm].
  - pose proof (Hm (set_running e a q None) copy (ft_preserveAdvertise task)) as Hm1.
    destruct (materialise_step _ _ _ _ _ _ _ _ _) as [e1 ok]. apply (inj Some) in Hp as <-.
    etransitivity; [apply Hr |]. etransitivity; [apply Hm1 |]. repeat case_match; [by apply kept_states.. | apply Hr].
  - apply (inj Some) in Hp as <-. etransitivity; [apply Hr | apply Hm].
Qed.

(** A step of the engine's own that is not a request on the connection [a]. *)
Definition spares (a : nat) (e e' : Engine) : Prop :=
  (∀ path hash off len, e' ≠ requestChunk_send e a path hash off len) ∧ ∀ id, e' ≠ (requestChunk_done e a id).1.

Lemma kept_completion e c : inv e → kept e (handleCompletion cfg e c).
Proof.
  intros Hi. destruct (handleCompletion_phases cfg e c Hi) as (e1 & Hi1 & Hcalm & Hor).
  assert (kept e (clearInflight e1 (cp_peer c) (Path (cp_leaf c)))) as Hcl.
  { transitivity e1; [by apply kept_calm |]. unfold clearInflight. case_match; [by apply kept_upd | done]. }
  destruct Hor as [-> | ->]; [done |]. etransitivity; [exact Hcl |]. unfold reconcileShort. case_match; [| done].
  by apply kept_reconcile, inv_clearInflight.
Qed.

Lemma kept_rescan w e : inv e → kept e (rescan cfg w e).
Proof.
  intros Hi. destruct (rescan_phases cfg w e Hi) as [-> | (_ & e1 & _ & Hi1 & _ & Hs & _ & _ & _ & ->)]; [done |].
  transitivity e1; [by apply kept_states |]. etransitivity; [| apply kept_calm, calm_saveSnapshot].
  apply (kept_foldl inv); [| done]. intros e2 a Hi2. split; [by apply kept_reconcile | by apply inv_reconcileWithPeer].
Qed.

Lemma calls_own e e' a c : inv e → own_step cfg e e' → spares a e e' → calls e a = Some c → calls e' a = Some c.
Proof.
  intros Hi Hs [Hsp1 Hsp2].
  destruct Hs as [d | k id v | id | key | cp cs Hcs | | | id | b tmp now net e' Hp | b e' Hp | b path hash offset len | b reqID].
  1, 2, 3, 4, 7, 8: apply kept_states.
  - done.
  - unfold onPeerDiscovered. by repeat case_match.
  - done.
  - pose proof (calm_onLocalChange cfg e key) as Hcalm. unfold calm in Hcalm. by injection Hcalm.
  - pose proof (calm_saveSnapshot cfg written e) as Hcalm. unfold calm in Hcalm. by injection Hcalm.
  - unfold DropCounter. by destruct (dropCounterLocked _ _) as [files []].
  - intros Hc. apply kept_completion; [by apply inv_set_completions | done].
  - by apply kept_rescan.
  - by apply (kept_puller e b tmp now net).
  - unfold server_step in Hp. destruct (e_states e !! b) as [ps |]; [| done]. cbn [mbind option_bind] in Hp.
    destruct (ps_serveQ ps) as [|req q]; [done |]. apply (inj Some) in Hp as <-. intros Hc.
    change (calls (upd_ps e b (λ ps, ps_set_serveQ ps q)) a = Some c). by rewrite kept_upd_at by by right.
  - intros Hc. destruct (decide (a = b)) as [<- | Hne]; [by destruct (Hsp1 path hash offset len) |].
    unfold requestChunk_send. case_match; [| done]. cbv zeta.
    match goal with |- calls (send ?x _ _) _ = _ => change (calls x a = Some c) end. by rewrite kept_upd_at by by left.
  - intros Hc. destruct (decide (a = b)) as [<- | Hne]; [by destruct (Hsp2 reqID) |].
    unfold requestChunk_done. case_match; [| done]. cbn [fst]. by rewrite kept_upd_at by by left.
Qed.

(** ** The puller of a connection, fetching a file *)

(** The request of a block, as fetchOverWire computes it. *)
Definition block_request (leaf : FileInfo) (reqID i : Z) : Request :=
  let offset := wrap 64 (i * BlockSize) in
  let remaining := wrap 64 (Size leaf - offset) in
  let length0 := if remaining <? BlockSize then wrap 32 remaining else BlockSize in
  let len := if MaxChunkLen <? length0 then MaxChunkLen else length0 in
  mkRequest reqID (Path leaf) (ContentHash leaf) offset len.

(** The loop's variable and the blocks to go, what has been written, the request that
    is waited for, and the error once it has returned. *)
Record fetch := mkFetch {
  f_block : Z; f_left : nat; f_got : list bytes; f_wait : option Request; f_end : option (option TransferError) }.
Definition fetch0 (leaf : FileInfo) : fetch := mkFetch 0 (Z.to_nat (numBlocks (Size leaf))) [] None None.
Definition ended (f : fetch) (err : option TransferError) : fetch :=
  mkFetch (f_block f) (f_left f) (f_got f) None (Some err).
(** What fetchOverWire does with a response. *)
Definition answered (f : fetch) (req : Request) (r : Response) : fetch :=
  if negb (rs_Code r =? CodeOK) then ended f (Some ErrSourceDeclined)
  else if negb (Z.of_nat (length (rs_Data r)) =? rq_Length req) then ended f (Some ErrSourceDeclined)
  else mkFetch (f_block f + 1) (pred (f_left f)) (f_got f ++ [rs_Data r]) None None.

Definition next_id (e : Engine) (a : nat) : Z := match calls e a with Some (_, n) => wrap 32 (n + 1) | None => 0 end.

Section fetching.
Context (a : nat) (leaf : FileInfo).

(** A step of the puller, or of the rest of the system with the responses it takes in. *)
Inductive fstep : fetch * Engine → list Response → fetch * Engine → Prop :=
| fetch_ask f e n : f_end f = None → f_wait f = None → f_left f = S n →
    let req := block_request leaf (next_id e a) (f_block f) in
    fstep (f, e) [] (mkFetch (f_block f) (f_left f) (f_got f) (Some req) None,
                     requestChunk_send e a (rq_Path req) (rq_ContentHash req) (rq_Offset req) (rq_Length req))
| fetch_answer f e req r : f_end f = None → f_wait f = Some req → (requestChunk_done e a (rq_ReqID req)).2 = Some r →
    fstep (f, e) [] (answered f req r, (requestChunk_done e a (rq_ReqID req)).1)
| fetch_fail f e req err : f_end f = None → f_wait f = Some req → err ∈ [ErrPeerGone; ErrRequestTimeout; ErrCanceled] →
    fstep (f, e) [] (ended f (Some err), (requestChunk_done e a (rq_ReqID req)).1)
| fetch_return f e : f_end f = None → f_wait f = None → f_left f = 0%nat → fstep (f, e) [] (ended f None, e)
| fetch_own f e e' : own_step cfg e e' → spares a e e' → fstep (f, e) [] (f, e')
| fetch_event f e ev : fstep (f, e) (responses ev) (f, handleTransportEvent cfg e ev)
| fetch_shutdown f e : fstep (f, e) [] (f, shutdownPeers e).

Inductive fruns (s : fetch * Engine) : list Response → fetch * Engine → Prop :=
| fruns_here : fruns s [] s
| fruns_step heard s' new s'' : fruns s heard s' → fstep s' new s'' → fruns s (heard ++ new) s''.

(** *** What the table holds *)

(** Nothing, or the one call that is waited for, with its own answer if any. *)
Definition tabled (f : fetch) (e : Engine) (heard : list Response) (tbl : gmap Z (option Response)) (n : Z) : Prop :=
  calls e a = Some (tbl, n) ∧
  match f_wait f with
  | None => tbl = ∅
  | Some req => f_end f = None ∧ f_left f ≠ 0%nat ∧ rq_ReqID req = n ∧ req = block_request leaf n (f_block f) ∧
      (tbl = {[n := None]} ∨ ∃ r, r ∈ heard ∧ rs_ReqID r = n ∧ tbl = {[n := Some r]})
  end.

Lemma calls_send e tbl n path hash off len :
  calls e a = Some (tbl, n) →
  calls (requestChunk_send e a path hash off len) a = Some (<[wrap 32 (n + 1) := None]> tbl, wrap 32 (n + 1)).
Proof.
  unfold calls, requestChunk_send. destruct (e_states e !! a) as [ps |] eqn:Hps; [| done]. cbn. intros [= <- <-].
  by rewrite lookup_alter_eq, Hps.
Qed.
Lemma calls_done e tbl n id :
  calls e a = Some (tbl, n) →
  calls (requestChunk_done e a id).1 a = Some (delete id tbl, n) ∧ (requestChunk_done e a id).2 = mjoin (tbl !! id).
Proof.
  unfold calls, requestChunk_done. destruct (e_states e !! a) as [ps |] eqn:Hps; [| done]. cbn. intros [= <- <-].
  by rewrite lookup_alter_eq, Hps.
Qed.

Lemma tabled_mono f e heard new tbl n : tabled f e heard tbl n → tabled f e (heard ++ new) tbl n.
Proof.
  intros [Hc Hw]. split; [done |]. destruct (f_wait f) as [req |]; [| done]. destruct Hw as (? & ? & ? & ? & Ht). split_and!; try done.
  destruct Ht as [? | (r & Hr & ?)]; [by left | right]. exists r. by rewrite elem_of_app; auto.
Qed.

Lemma tabled_step f e heard new f' e' tbl n :
  inv e → fstep (f, e) new (f', e') → tabled f e heard tbl n →
  ∃ tbl' n', tabled f' e' (heard ++ new) tbl' n' ∧ (f_wait f' = None → n' = n).
Proof.
  intros Hi Hs [Hc Hw]. inversion Hs as [f0 e0 k Hend Hwait Hleft | f0 e0 req r Hend Hwait Hr | f0 e0 req err Hend Hwait Herr
    | f0 e0 Hend Hwait Hleft | f0 e0 e1 Hown Hsp | f0 e0 ev | f0 e0]; subst.
  - rewrite Hwait in Hw. subst tbl. exists {[wrap 32 (n + 1) := None]}, (wrap 32 (n + 1)). unfold req, next_id. rewrite Hc.
    split; [| done]. split; [by apply calls_send |]. cbn [f_wait f_end f_block]. split_and!; [done | by rewrite Hleft | done | done | by left].
  - destruct (calls_done e tbl n (rq_ReqID req) Hc) as [Hd _]. rewrite Hwait in Hw. destruct Hw as (_ & _ & Hid & _ & Ht).
    exists ∅, n. split; [| done]. split; [rewrite Hd, Hid; destruct Ht as [-> | (? & _ & _ & ->)]; by rewrite delete_singleton_eq |].
    unfold answered. by repeat case_match.
  - destruct (calls_done e tbl n (rq_ReqID req) Hc) as [Hd _]. rewrite Hwait in Hw. destruct Hw as (_ & _ & Hid & _ & Ht).
    exists ∅, n. split; [| done]. split; [rewrite Hd, Hid; destruct Ht as [-> | (? & _ & _ & ->)]; by rewrite delete_singleton_eq | done].
  - rewrite Hwait in Hw. exists tbl, n. split; [by split | done].
  - exists tbl, n. split; [apply tabled_mono | done]. split; [by apply (calls_own e) | done].
  - destruct (calls_event e ev a tbl n Hi Hc) as [Hc' | (r & Hr & Hc')].
    + exists tbl, n. split; [apply tabled_mono | done]. by split.
    + exists (routed tbl r), n. split; [| done]. split; [done |]. destruct (f_wait f') as [req |].
      2:{ subst tbl. unfold routed. by rewrite lookup_empty. }
      destruct Hw as (? & ? & ? & ? & Ht). split_and!; try done. unfold routed.
      destruct Ht as [-> | (r0 & Hr0 & Hid & ->)]; (destruct (decide (rs_ReqID r = n)) as [<- | Hne];
        [rewrite lookup_singleton_eq | rewrite lookup_singleton_ne by done]).
      * right. exists r. split; [apply elem_of_app; by right |]. split; [done |]. by rewrite insert_singleton_eq.
      * by left.
      * right. exists r0. rewrite elem_of_app. auto.
      * right. exists r0. rewrite elem_of_app. auto.
  - exists tbl, n. split; [apply tabled_mono | done]. split; [by apply kept_shutdown | done].
Qed.

(** *** The sequential run it refines *)

(** The network that answers the request of block [i] with [ans i], if that is a
    response to it. *)
Definition ask_of (ans : Z → Result TransferError Response) (req : Request) : Result TransferError Response :=
  match ans (rq_Offset req / BlockSize) with
  | Ok r => if rs_ReqID r =? rq_ReqID req then Ok r else Err ErrPeerGone
  | Err e => Err e
  end.

Lemma fetch_loop_block ask reqID n i :
  fetch_loop ask leaf reqID (S n) i =
    match ask (block_request leaf reqID i) with
    | Err e => ([], Some e)
    | Ok r =>
      if negb (rs_Code r =? CodeOK) then ([], Some ErrSourceDeclined)
      else if negb (Z.of_nat (length (rs_Data r)) =? rq_Length (block_request leaf reqID i)) then ([], Some ErrSourceDeclined)
      else let '(rest, err) := fetch_loop ask leaf (wrap 32 (reqID + 1)) n (i + 1) in (rs_Data r :: rest, err)
    end.
Proof. done. Qed.

Lemma block_index reqID i : 0 ≤ i < 2 ^ 49 → rq_Offset (block_request leaf reqID i) / BlockSize = i.
Proof.
  intros Hi. cbn [rq_Offset block_request]. change BlockSize with 32768. rewrite wrap_small by (width; lia). by rewrite Z.div_mul.
Qed.

Definition blocks : nat := Z.to_nat (numBlocks (Size leaf)).
Lemma blocks_bound : Z.of_nat blocks ≤ 2 ^ 49.
Proof.
  unfold blocks, numBlocks. destruct (Size leaf =? 0); [cbn; lia |].
  pose proof (wrap_in_width 64 (Size leaf + BlockSize - 1) ltac:(lia)) as Hw. revert Hw. generalize (wrap 64 (Size leaf + BlockSize - 1)).
  intros z Hz. change BlockSize with 32768. width. pose proof (Z.div_lt_upper_bound z 32768 562949953421312 ltac:(lia) ltac:(lia)). lia.
Qed.

(** Fetching with [ans] up to the block the puller is at writes what it has written. *)
Definition simulated (id0 : Z) (f : fetch) (n : Z) (heard : list Response) : Prop :=
  0 ≤ f_block f ∧ f_block f + Z.of_nat (f_left f) = Z.of_nat blocks ∧
  ∃ ans, (∀ i r, ans i = Ok r → r ∈ heard) ∧
    match f_end f with
    | Some err => fetchOverWire (ask_of ans) leaf id0 = (f_got f, err)
    | None => ∀ ans', (∀ j, 0 ≤ j < f_block f → ans' j = ans j) →
        fetchOverWire (ask_of ans') leaf id0 =
          let '(rest, err) := fetch_loop (ask_of ans') leaf
             (match f_wait f with Some req => rq_ReqID req | None => wrap 32 (n + 1) end) (f_left f) (f_block f) in
          (f_got f ++ rest, err)
    end.

Lemma simulated_mono id0 f n heard new : simulated id0 f n heard → simulated id0 f n (heard ++ new).
Proof.
  intros (Hb & Hl & ans & Hans & Hsim). split_and!; [done | done |]. exists ans. split; [| done].
  intros i r Hr. apply elem_of_app. left. by eapply Hans.
Qed.

Lemma simulated0 n : simulated (wrap 32 (n + 1)) (fetch0 leaf) n [].
Proof.
  split; [done |]. split; [done |]. exists (λ _, Err ErrPeerGone). split; [done |]. cbn [f_end fetch0].
  intros ans' _. cbn. unfold fetchOverWire. by destruct (fetch_loop _ _ _ _ _).
Qed.

(** The step of the puller that ends a block: [res] is its answer. *)
Lemma simulated_block id0 f req n heard res f' :
  f_end f = None → f_wait f = Some req → rq_ReqID req = n → req = block_request leaf n (f_block f) →
  (∀ r, res = Ok r → r ∈ heard ∧ rs_ReqID r = n) → f_left f ≠ 0%nat →
  f' = match res with Ok r => answered f req r | Err err => ended f (Some err) end →
  simulated id0 f n heard → simulated id0 f' n heard.
Proof.
  intros Hend Hwait Hid Hreq Hres Hleft -> (Hb & Hl & ans & Hans & Hsim). rewrite Hend, Hwait, Hid in Hsim.
  destruct (f_left f) as [|k] eqn:Hk; [done |]. pose proof blocks_bound as Hbound.
  set (ans1 := λ i, if decide (i = f_block f) then res else ans i).
  assert (∀ ans', ans' (f_block f) = res → ask_of ans' req = res) as Hask.
  { intros ans' Ha. unfold ask_of. rewrite Hreq at 1. rewrite block_index by lia. rewrite Ha.
    destruct res as [r |]; [| done]. destruct (Hres r eq_refl) as [_ Hrid]. by rewrite Hrid, Hid, Z.eqb_refl. }
  assert (ans1 (f_block f) = res) as Hans1 by (unfold ans1; by rewrite decide_True).
  assert (∀ i r, ans1 i = Ok r → r ∈ heard) as Hheard.
  { intros i r. unfold ans1. case_decide; [intros Hr; by apply Hres | apply Hans]. }
  assert (∀ j, 0 ≤ j < f_block f → ans1 j = ans j) as Hbelow by (intros j Hj; unfold ans1; rewrite decide_False; [done | lia]).
  assert (∀ ans', (∀ j, 0 ≤ j < f_block f → ans' j = ans1 j) → ans' (f_block f) = res →
    fetchOverWire (ask_of ans') leaf id0 = let '(rest, err) :=
      match res with
      | Err e => ([], Some e)
      | Ok r =>
        if negb (rs_Code r =? CodeOK) then ([], Some ErrSourceDeclined)
        else if negb (Z.of_nat (length (rs_Data r)) =? rq_Length req) then ([], Some ErrSourceDeclined)
        else let '(rest, err) := fetch_loop (ask_of ans') leaf (wrap 32 (n + 1)) k (f_block f + 1) in (rs_Data r :: rest, err)
      end in (f_got f ++ rest, err)) as Hnext.
  { intros ans' Hj Ha. rewrite Hsim by (intros j Hjj; rewrite Hj by done; by apply Hbelow).
    rewrite fetch_loop_block. rewrite <- Hreq. by rewrite (Hask ans' Ha). }
  assert (∀ err, (match res with Err e => err = e | Ok r => err = ErrSourceDeclined ∧ (rs_Code r ≠ CodeOK ∨ Z.of_nat (length (rs_Data r)) ≠ rq_Length req) end) →
    simulated id0 (ended f (Some err)) n heard) as Hfail.
  { intros err Herr. split; [done |]. split; [cbn; by rewrite Hk |]. exists ans1. split; [done |]. cbn [f_end ended f_got].
    rewrite (Hnext ans1 (λ _ _, eq_refl) Hans1). destruct res as [r |]; [destruct Herr as [-> Hbad] | subst err; by rewrite app_nil_r].
    destruct (Z.eqb_spec (rs_Code r) CodeOK); cbn [negb]; [| by rewrite app_nil_r].
    destruct (Z.eqb_spec (Z.of_nat (length (rs_Data r))) (rq_Length req)); cbn [negb]; [| by rewrite app_nil_r]. by destruct Hbad. }
  destruct res as [r | err]; [| by apply Hfail]. unfold answered.
  destruct (Z.eqb_spec (rs_Code r) CodeOK) as [Hcode | Hcode]; cbn [negb]; [| apply Hfail; split; [done | by left]].
  destruct (Z.eqb_spec (Z.of_nat (length (rs_Data r))) (rq_Length req)) as [Hlen | Hlen]; cbn [negb]; [| apply Hfail; split; [done | by right]].
  split; [cbn; lia |]. split; [cbn; rewrite Hk; lia |]. exists ans1. split; [done |]. cbn [f_end f_wait f_block f_left f_got].
  intros ans' Hj. rewrite Hnext by (first [intros j Hjj; apply Hj; lia | rewrite Hj by lia; done]).
  cbn [negb]. rewrite Hk. cbn [pred].
  destruct (fetch_loop _ _ _ k _) as [rest err]. by rewrite <- app_assoc.
Qed.

Lemma simulated_step id0 f e heard new f' e' tbl n :
  inv e → fstep (f, e) new (f', e') → tabled f e heard tbl n → simulated id0 f n heard →
  ∃ tbl' n', tabled f' e' (heard ++ new) tbl' n' ∧ simulated id0 f' n' (heard ++ new).
Proof.
  intros Hi Hs Ht Hsim. destruct (tabled_step f e heard new f' e' tbl n Hi Hs Ht) as (tbl' & n' & Ht' & Hn').
  exists tbl', n'. split; [done |]. destruct Ht as [Hc Hw]. destruct Ht' as [_ Hw'].
  inversion Hs as [f0 e0 k Hend Hwait Hleft req | f0 e0 req r Hend Hwait Hr | f0 e0 req err Hend Hwait Herr
    | f0 e0 Hend Hwait Hleft | f0 e0 e1 Hown Hsp | f0 e0 ev | f0 e0]; subst.
  - apply simulated_mono. destruct Hsim as (Hb & Hl & ans & Hans & Hsim). split; [done |]. split; [done |]. exists ans. split; [done |].
    rewrite Hend, Hwait in Hsim. cbn [f_end f_wait f_block f_left f_got]. assert (rq_ReqID req = wrap 32 (n + 1)) as ->; [| done].
    unfold req, next_id. by rewrite Hc.
  - apply simulated_mono. rewrite Hwait in Hw. destruct Hw as (_ & Hleft & Hid & Hreq & Htbl).
    assert (n' = n) as -> by (apply Hn'; unfold answered; by repeat case_match).
    eapply (simulated_block id0 f req n heard (Ok r)); try done.
    intros r' Hr'. apply Ok_inj in Hr' as <-. destruct (calls_done e tbl n (rq_ReqID req) Hc) as [_ Hd]. rewrite Hr, Hid in Hd.
    destruct Htbl as [-> | (r0 & Hr0 & Hrid & ->)]; rewrite lookup_singleton_eq in Hd; cbn in Hd; [done |]. by apply (inj Some) in Hd as <-.
  - apply simulated_mono. rewrite Hwait in Hw. destruct Hw as (_ & Hleft & Hid & Hreq & _).
    assert (n' = n) as -> by (by apply Hn'). by eapply (simulated_block id0 f req n heard (Err err)).
  - apply simulated_mono. destruct Hsim as (Hb & Hl & ans & Hans & Hsim). split; [done |]. split; [done |]. exists ans. split; [done |].
    rewrite Hend, Hwait, Hleft in Hsim. cbn [f_end ended f_got]. rewrite (Hsim ans (λ _ _, eq_refl)). cbn [fetch_loop]. by rewrite app_nil_r.
  - destruct (f_wait f') as [req |] eqn:Hwait; [| by rewrite (Hn' eq_refl); apply simulated_mono].
    apply simulated_mono. unfold simulated in *. by rewrite Hwait in *.
  - destruct (f_wait f') as [req |] eqn:Hwait; [| by rewrite (Hn' eq_refl); apply simulated_mono].
    apply simulated_mono. unfold simulated in *. by rewrite Hwait in *.
  - destruct (f_wait f') as [req |] eqn:Hwait; [| by rewrite (Hn' eq_refl); apply simulated_mono].
    apply simulated_mono. unfold simulated in *. by rewrite Hwait in *.
Qed.

Lemma inv_fstep f e new f' e' : inv e → fstep (f, e) new (f', e') → inv e'.
Proof.
  intros Hi Hs. inversion Hs; subst; try done.
  - apply (inv_own_step cfg e); [exact Hi | apply step_request].
  - apply (inv_own_step cfg e); [exact Hi | apply step_requested].
  - apply (inv_own_step cfg e); [exact Hi | apply step_requested].
  - by apply (inv_own_step cfg e).
  - by apply inv_handleTransportEvent.
  - by apply inv_shutdownPeers.
Qed.

Lemma fruns_simulated e n s heard :
  inv e → calls e a = Some (∅, n) → fruns (fetch0 leaf, e) heard s →
  inv s.2 ∧ ∃ tbl m, tabled s.1 s.2 heard tbl m ∧ simulated (wrap 32 (n + 1)) s.1 m heard.
Proof.
  intros Hi Hc. induction 1 as [| heard [f1 e1] new [f2 e2] _ (Hi1 & tbl & m & Ht & Hsim) Hs].
  - split; [done |]. exists ∅, n. split; [done | apply simulated0].
  - split; [by eapply inv_fstep |]. by eapply simulated_step.
Qed.

(** *** The puller's own steps *)

(** What is left of the puller's steps. *)
Definition to_go (f : fetch) : nat :=
  match f_end f with
  | Some _ => 0
  | None => match f_wait f with Some _ => 2 * f_left f | None => S (2 * f_left f) end
  end.

Lemma fstep_to_go f e new f' e' heard tbl n :
  fstep (f, e) new (f', e') → tabled f e heard tbl n → f' = f ∨ (to_go f' < to_go f)%nat.
Proof.
  intros Hs [_ Hw]. inversion Hs as [f0 e0 k Hend Hwait Hleft req | f0 e0 req r Hend Hwait Hr | f0 e0 req err Hend Hwait Herr
    | f0 e0 Hend Hwait Hleft | | |]; subst; try (by left); right; unfold to_go; rewrite Hend, Hwait in *; cbn; try lia.
  destruct Hw as (_ & Hleft & _). unfold answered. repeat case_match; cbn in *; simplify_eq; lia.
Qed.

(** The puller is never stuck: a call that stays without an answer times out. *)
Lemma fetch_enabled f e : f_end f = None → ∃ f' e', fstep (f, e) [] (f', e') ∧ f' ≠ f.
Proof.
  intros Hend. destruct (f_wait f) as [req |] eqn:Hwait.
  - eexists _, _. split; [by eapply (fetch_fail f e req ErrRequestTimeout); [done | done | set_solver] |].
    intros Heq. by rewrite <- Heq in Hend.
  - destruct (f_left f) as [|k] eqn:Hleft.
    + eexists _, _. split; [by apply fetch_return |]. intros Heq. by rewrite <- Heq in Hend.
    + eexists _, _. split; [by eapply fetch_ask |]. intros Heq. by rewrite <- Heq in Hwait.
Qed.
End fetching.
End rpc.

(** * Properties *)

(** C24: fetching over the wire, as it really runs, is the sequential loop over a network:
    whatever the loop, the other goroutines and the peer do in between, the puller's
    stop-and-wait exchange writes the same blocks and returns the same error as
    fetchOverWire does with some function from requests to answers, every response of
    which this connection delivered during the fetch and carries the id of its request,
    so that no block is filled from an answer to another. It leaves no call open, is
    never stuck before it returns, and takes at most two steps per block and one more. *)
Theorem fetch_refines `{OS, Digest, Unicode} cfg a leaf e n f e' heard :
  inv e → calls e a = Some (∅, n) → fruns cfg a leaf (fetch0 leaf, e) heard (f, e') →
  (∀ err, f_end f = Some err →
     (∃ m, calls e' a = Some (∅, m)) ∧
     ∃ ask, fetchOverWire ask leaf (wrap 32 (n + 1)) = (f_got f, err) ∧
       ∀ req r, ask req = Ok r → r ∈ heard ∧ rs_ReqID r = rq_ReqID req) ∧
  (f_end f = None → ∃ f1 e1, fstep cfg a leaf (f, e') [] (f1, e1) ∧ f1 ≠ f) ∧
  (∀ new f1 e1, fstep cfg a leaf (f, e') new (f1, e1) → f1 = f ∨ (to_go f1 < to_go f)%nat) ∧
  to_go (fetch0 leaf) = S (2 * blocks leaf).
Proof.
  intros Hi Hc Hr. destruct (fruns_simulated cfg a leaf e n _ heard Hi Hc Hr) as [_ (tbl & m & Ht & Hsim)]. cbn [fst snd] in *. split_and!.
  - intros err Hend. destruct Hsim as (_ & _ & ans & Hans & Hsim). rewrite Hend in Hsim. split.
    + destruct Ht as [Hc' Hw]. destruct (f_wait f) as [req |]; [destruct Hw as (Hn & _); congruence |]. subst tbl. by exists m.
    + exists (ask_of ans). split; [done |]. intros req r. unfold ask_of. destruct (ans _) as [r' |] eqn:Ha; [| done].
      destruct (Z.eqb_spec (rs_ReqID r') (rq_ReqID req)); [| done]. intros Hr'. apply Ok_inj in Hr' as <-. split; [by eapply Hans | done].
  - apply fetch_enabled.
  - intros new f1 e1 Hs. by eapply fstep_to_go.
  - done.
Qed.

Section rpc_witness.
#[local] Existing Instance toy_digest.

(** A stale response, then the answer. *)
Definition stale : TransportEvent := PeerMessage (device "B") (MResponse (mkResponse 9 CodeOK (go! "stale!"))).
Definition answer : TransportEvent := PeerMessage (device "B") (MResponse (mkResponse 1 CodeOK (go! "theirs"))).
Definition e_asked : Engine := requestChunk_send e_connected 0 note (ContentHash their_note) 0 6.
Definition e_routed : Engine := handleTransportEvent home (handleTransportEvent home e_asked stale) answer.
Definition e_fetched : Engine := (requestChunk_done e_routed 0 1).1.
Definition f_fetched : fetch := mkFetch 1 0 [go! "theirs"] None (Some None).

Lemma fetched_run :
  fruns home 0 their_note (fetch0 their_note, e_connected)
    (((([] ++ []) ++ responses stale) ++ responses answer) ++ [] ++ []) (f_fetched, e_fetched).
Proof.
  set (f1 := mkFetch 0 1 [] (Some (mkRequest 1 note (ContentHash their_note) 0 6)) None).
  assert (fstep home 0 their_note (fetch0 their_note, e_connected) [] (f1, e_asked)) as Hask.
  { assert (block_request their_note (next_id e_connected 0) 0 = mkRequest 1 note (ContentHash their_note) 0 6) as Hreq by (vm_compute; reflexivity).
    pose proof (fetch_ask home 0 their_note (fetch0 their_note) e_connected 0 eq_refl eq_refl eq_refl) as Hs.
    cbv zeta in Hs. change (f_block (fetch0 their_note)) with 0 in Hs. rewrite Hreq in Hs. exact Hs. }
  rewrite app_assoc. eapply fruns_step; [eapply fruns_step; [eapply fruns_step; [eapply fruns_step; [eapply fruns_step |] |] |] |].
  - apply fruns_here.
  - exact Hask.
  - apply fetch_event.
  - apply fetch_event.
  - apply (fetch_answer home 0 their_note f1 e_routed (mkRequest 1 note (ContentHash their_note) 0 6) (mkResponse 1 CodeOK (go! "theirs")));
      [reflexivity | reflexivity | vm_compute; reflexivity].
  - apply (fetch_return home 0 their_note (mkFetch 1 0 [go! "theirs"] None None)); reflexivity.
Qed.

Lemma fetch_refines_witness :
  ∃ ask, fetchOverWire ask their_note 1 = ([go! "theirs"], None) ∧
    ∀ req r, ask req = Ok r → rs_Data r ∈ [go! "stale!"; go! "theirs"] ∧ rs_ReqID r = rq_ReqID req.
Proof.
  assert (reachable home e_connected) as Hreach.
  { exists SnapMissing, (holding (go! "v0") 1), e_start. split; [vm_compute; reflexivity |].
    eapply rtc_l; [| apply rtc_refl]. exact (step_transport home _ (PeerConnected (Some (device "B", mkHello 1 (device "B") (go! "folder") zero32 0)))). }
  assert (calls e_connected 0 = Some (∅, 0)) as Hc by (vm_compute; reflexivity).
  destruct (fetch_refines home 0 their_note e_connected 0 f_fetched e_fetched _ (reachable_inv home e_connected Hreach) Hc fetched_run)
    as (Hend & _). destruct (Hend None eq_refl) as (_ & ask & Hf & Hok). exists ask. split; [exact Hf |].
  intros req r Hr. destruct (Hok req r Hr) as [Hin Hid]. split; [| exact Hid]. cbn in Hin.
  apply elem_of_cons in Hin as [-> | Hin]; [apply elem_of_cons; left; reflexivity |].
  apply list_elem_of_singleton in Hin as ->. apply elem_of_cons. right. apply list_elem_of_singleton. reflexivity.
Defined.
End rpc_witness.
