(* ===== verification/Tls.v ===== *)
(** * Tls: the configurations given to crypto/tls (internal/transport/tls.go, the
    construction in transport.go)

    What crypto/tls does with a configuration is a parameter, with what the package
    documents as its laws: what a completed handshake has checked, whatever was at the
    other end, and when two configurations do complete a handshake with each other. The
    theorem is that the two configurations make the pin the authentication of both
    sides, and that it lets exactly the paired devices in. *)
From S2P Require Import Prelude Bytes Messages Hashing Transport.

Definition VersionTLS13 : Z := 772.   (* 0x0304 *)
Inductive ClientAuth := NoClientCert | RequestClientCert | RequireAnyClientCert | VerifyClientCertIfGiven | RequireAndVerifyClientCert.
Inductive Side := Server | Client.

Record TLSConfig := mkTLSConfig {
  Certificates : list bytes; MinVersion : Z; MaxVersion : Z; InsecureSkipVerify : bool;
  VerifyConnection : list bytes → option PinError; tc_ClientAuth : ClientAuth }.

Section tls.
Context `{Digest}.

Definition baseTLSConfig (cert : bytes) (allow : Allowlist) : TLSConfig :=
  mkTLSConfig [cert] VersionTLS13 VersionTLS13 true (pinVerifier allow) NoClientCert.
Definition serverTLSConfig (cert : bytes) (allow : Allowlist) : TLSConfig :=
  let cfg := baseTLSConfig cert allow in
  mkTLSConfig (Certificates cfg) (MinVersion cfg) (MaxVersion cfg) (InsecureSkipVerify cfg) (VerifyConnection cfg) RequireAnyClientCert.
Definition clientTLSConfig (cert : bytes) (allow : Allowlist) : TLSConfig := baseTLSConfig cert allow.
Definition tls_config (s : Side) (cert : bytes) (allow : Allowlist) : TLSConfig :=
  match s with Server => serverTLSConfig cert allow | Client => clientTLSConfig cert allow end.
End tls.

(** Parameter: does a handshake complete on a side, at a version, with the certificates
    the other side presented and proved it holds the key of. *)
Class TLSStack := { completes : Side → TLSConfig → Z → list bytes → bool }.

(** What a client presents to a server: its certificates, if the server asks. *)
Definition client_presents (client server : TLSConfig) : list bytes :=
  match tc_ClientAuth server with NoClientCert => [] | _ => Certificates client end.
(** The server's demand of a certificate, where it does not verify a chain. *)
Definition client_accepted (server : TLSConfig) (certs : list bytes) : Prop :=
  match tc_ClientAuth server with
  | NoClientCert | RequestClientCert => True
  | RequireAnyClientCert => certs ≠ []
  | VerifyClientCertIfGiven | RequireAndVerifyClientCert => False
  end.
Definition callback (cfg : TLSConfig) (certs : list bytes) : Prop := VerifyConnection cfg certs = None.

(** What the documentation of tls.Config says: of a handshake that completes, with
    whatever peer; and of two configurations over a network that delivers: it completes
    on both sides when there is a common version, the server has a certificate, the
    client does not verify its chain, the demands on the client are met and both
    callbacks agree. *)
Class TLSLaws `{TLSStack} : Prop := {
  completes_version s cfg v certs : completes s cfg v certs = true → MinVersion cfg ≤ v ≤ MaxVersion cfg;
  completes_verified s cfg v certs : completes s cfg v certs = true → callback cfg certs;
  completes_between client server v :
    MinVersion client ≤ v ≤ MaxVersion client → MinVersion server ≤ v ≤ MaxVersion server →
    Certificates server ≠ [] → InsecureSkipVerify client = true → callback client (Certificates server) →
    client_accepted server (client_presents client server) → callback server (client_presents client server) →
    completes Client client v (Certificates server) = true ∧ completes Server server v (client_presents client server) = true
}.

(** A stack that completes whatever it may: the laws can hold. *)
Definition lenient : TLSStack :=
  {| completes s cfg v certs := bool_decide (MinVersion cfg ≤ v ≤ MaxVersion cfg) && bool_decide (VerifyConnection cfg certs = None) |}.
Lemma lenient_laws : @TLSLaws lenient.
Proof.
  split; cbn; unfold callback.
  - by intros s cfg v certs [Hv%bool_decide_eq_true _]%andb_true_iff.
  - by intros s cfg v certs [_ Hv%bool_decide_eq_true]%andb_true_iff.
  - intros client server v Hc Hs _ _ Hvc _ Hvs. by rewrite !bool_decide_eq_true_2.
Qed.

Lemma config_version `{Digest} s cert allow : MinVersion (tls_config s cert allow) = VersionTLS13 ∧ MaxVersion (tls_config s cert allow) = VersionTLS13.
Proof. by destruct s. Qed.
Lemma config_callback `{Digest} s cert allow certs :
  callback (tls_config s cert allow) certs ↔ ∃ raw rest, certs = raw :: rest ∧ Allowed allow (DeviceIDFromCert raw) = true.
Proof.
  assert (callback (tls_config s cert allow) certs ↔ pinVerifier allow certs = None) as -> by (by destruct s).
  unfold pinVerifier. destruct certs as [|raw rest]; [split; [done | by intros (? & ? & ? & _)] |].
  destruct (Allowed allow (DeviceIDFromCert raw)) eqn:Ha; cbn; split; try done; [intros _; eauto | intros (? & ? & [= <- <-] & ?); congruence].
Qed.

(** A handshake that completes, from either side's configuration. *)
Lemma completes_pins `{Digest, TLSLaws} s cert allow v certs :
  completes s (tls_config s cert allow) v certs = true →
  v = VersionTLS13 ∧ ∃ raw rest, certs = raw :: rest ∧ Allowed allow (DeviceIDFromCert raw) = true.
Proof.
  intros Hc. pose proof (completes_version _ _ _ _ Hc) as Hv. destruct (config_version s cert allow) as [-> ->] in Hv.
  split; [lia |]. eapply config_callback, completes_verified, Hc.
Qed.

(** * Properties *)

(** C27: the configurations authenticate both ends, and only that. Whatever peer and
    network a device deals with, dialling or listening: a handshake that completes is
    TLS 1.3, the peer presented a certificate whose SHA-256 is on the device's own
    allow-list, and [establish] goes on with exactly that device; a peer that presents no
    certificate, or one that is not paired, is refused, although no chain is verified.
    And between a dialling and a listening device over a network that delivers, the
    handshake completes on both sides, each with the other's certificate, exactly when
    each has the other's DeviceID on its allow-list. *)
Theorem mutual_authentication `{Digest, TLSLaws} :
  (∀ s cert allow v certs, completes s (tls_config s cert allow) v certs = true →
     v = VersionTLS13 ∧ ∃ raw rest, certs = raw :: rest ∧ Allowed allow (DeviceIDFromCert raw) = true ∧
       handshake allow true certs = Ok (DeviceIDFromCert raw)) ∧
  (∀ dialler listener allow_d allow_l,
     let client := clientTLSConfig dialler allow_d in
     let server := serverTLSConfig listener allow_l in
     Certificates server = [listener] ∧ client_presents client server = [dialler] ∧
     (completes Client client VersionTLS13 [listener] = true ∧ completes Server server VersionTLS13 [dialler] = true ↔
      Allowed allow_d (DeviceIDFromCert listener) = true ∧ Allowed allow_l (DeviceIDFromCert dialler) = true)).
Proof.
  split.
  - intros s cert allow v certs Hc. destruct (completes_pins s _ _ _ _ Hc) as (-> & raw & rest & -> & Ha). split; [done |].
    exists raw, rest. split_and!; [done | done |]. unfold handshake, pinVerifier. cbn [negb]. by rewrite Ha.
  - intros dialler listener allow_d allow_l client server. split_and!; [done | done |]. split.
    + intros [Hd Hl]. destruct (completes_pins Client _ _ _ _ Hd) as (_ & ? & ? & [= <- <-] & ?).
      by destruct (completes_pins Server _ _ _ _ Hl) as (_ & ? & ? & [= <- <-] & ?).
    + intros [Hd Hl]. apply (completes_between client server); try done.
      * apply (config_callback Client). eauto.
      * apply (config_callback Server). eauto.
Qed.

Section tls_witness.
#[local] Existing Instance toy_digest.
#[local] Existing Instance lenient.
#[local] Existing Instance lenient_laws.

Lemma mutual_authentication_witness :
  let a := go! "cert-A" in let b := go! "cert-B" in
  let knows c := NewAllowlist [DeviceIDFromCert c] in
  completes Client (clientTLSConfig a (knows b)) VersionTLS13 [b] = true ∧
  completes Server (serverTLSConfig b (knows a)) VersionTLS13 [a] = true ∧
  handshake (knows b) true [b] = Ok (DeviceIDFromCert b).
Proof.
  intros a b knows. destruct mutual_authentication as [Hsafe Hlive].
  destruct (Hlive a b (knows b) (knows a)) as (_ & _ & _ & Hpair).
  assert (completes Client (clientTLSConfig a (knows b)) VersionTLS13 [b] = true ∧
    completes Server (serverTLSConfig b (knows a)) VersionTLS13 [a] = true) as [Hd Hl] by (apply Hpair; vm_compute; auto).
  split; [exact Hd |]. split; [exact Hl |].
  destruct (Hsafe Client a (knows b) VersionTLS13 [b] Hd) as (_ & raw & rest & Heq & _ & Hh). injection Heq as <- <-. exact Hh.
Defined.
End tls_witness.
