(* ===== verification/Probe.v ===== *)
(** * Probe: does the file system distinguish case (probeCaseSensitive of
    internal/reconcile/transfer.go)

    A file system that files a name under [file_id name]: the identity on a
    case-sensitive one, a folding of case on another. A write fails leaving nothing, an
    empty file or a part of it; a read may fail. *)
From S2P Require Import Prelude Bytes VersionVector Framing Messages Windows Pathnorm Hashing.
From S2P Require Import FileInfo Conflict Scanner Disk Transfer.

Section probe.
Context (file_id : bytes → bytes).
Notation Files := (gmap bytes bytes).

(** [os.WriteFile]: [None] when it succeeds, else what it leaves of the content, if
    it got as far as creating the file. *)
Definition WriteFile (d : Files) (name content : bytes) (fails : option (option nat)) : Files * bool :=
  match fails with
  | None => (<[file_id name := content]> d, true)
  | Some None => (d, false)
  | Some (Some n) => (<[file_id name := take n content]> d, false)
  end.
Definition RemoveFile (d : Files) (name : bytes) : Files := delete (file_id name) d.
Definition ReadBack (d : Files) (name : bytes) (readable : bool) : option bytes :=
  if readable then d !! file_id name else None.

Definition probe_lower : bytes := go! ".msync-caseprobe-x".
Definition probe_upper : bytes := go! ".msync-caseprobe-X".

Definition probeCaseSensitive (d : Files) (fails1 fails2 : option (option nat)) (readable : bool) : bool * Files :=
  let '(d, ok) := WriteFile d probe_lower (go! "x") fails1 in
  if negb ok then (false, d)
  else
    let '(d, ok) := WriteFile d probe_upper (go! "X") fails2 in
    if negb ok then (false, RemoveFile d probe_lower)
    else
      let b := ReadBack d probe_lower readable in
      let d := RemoveFile (RemoveFile d probe_upper) probe_lower in
      (match b with None => false | Some b => negb (bool_decide (b = go! "X")) end, d).

Lemma probe_distinct d fails1 fails2 readable :
  (probeCaseSensitive d fails1 fails2 readable).1 = true → file_id probe_lower ≠ file_id probe_upper.
Proof.
  unfold probeCaseSensitive, WriteFile, ReadBack. intros Hp Heq. destruct fails1 as [[] |]; [done.. |].
  destruct fails2 as [[] |]; [done.. |]. cbn [negb] in Hp. destruct readable; [| done].
  rewrite Heq, lookup_insert_eq in Hp. cbn in Hp. done.
Qed.

Lemma probe_frame d fails1 fails2 readable k :
  k ≠ file_id probe_lower → k ≠ file_id probe_upper → (probeCaseSensitive d fails1 fails2 readable).2 !! k = d !! k.
Proof.
  intros Hl Hu. unfold probeCaseSensitive, WriteFile, RemoveFile.
  destruct fails1 as [[] |], fails2 as [[] |]; cbn; by rewrite ?lookup_delete_ne, ?lookup_insert_ne.
Qed.

(** What a probe leaves is the engine's own, which no scan takes in. *)
Example probe_files_internal : internalFile probe_lower = true ∧ internalFile probe_upper = true.
Proof. split; vm_compute; reflexivity. Qed.
End probe.

(** * Properties *)

(** the probe errs on the safe side: it says case-sensitive only of a file system that
    keeps the two names apart, so that the clobber check of materialise is on wherever
    it is needed, and also after any failure; where nothing fails it says so of exactly
    those, and leaves no file of its own; and it touches no other file. *)
Theorem probe_safe `{OS, Digest, Unicode} file_id d fails1 fails2 readable :
  let '(cs, d') := probeCaseSensitive file_id d fails1 fails2 readable in
  (cs = true → file_id probe_lower ≠ file_id probe_upper) ∧
  (file_id probe_lower = file_id probe_upper → ∀ absRoot disk key,
     noClobberConflict absRoot cs disk key = noClobberConflict absRoot false disk key) ∧
  (fails1 = None → fails2 = None → readable = true →
     (cs = true ↔ file_id probe_lower ≠ file_id probe_upper) ∧
     d' !! file_id probe_lower = None ∧ d' !! file_id probe_upper = None) ∧
  ∀ k, k ≠ file_id probe_lower → k ≠ file_id probe_upper → d' !! k = d !! k.
Proof.
  pose proof (probe_distinct file_id d fails1 fails2 readable) as Hd.
  pose proof (λ k, probe_frame file_id d fails1 fails2 readable k) as Hf.
  destruct (probeCaseSensitive file_id d fails1 fails2 readable) as [cs d'] eqn:Hp. cbn [fst snd] in *.
  split_and!; [done | | | done].
  - intros Heq absRoot disk key. destruct cs; [by destruct (Hd eq_refl) | done].
  - intros -> -> ->. unfold probeCaseSensitive, WriteFile, ReadBack, RemoveFile in Hp. cbn [negb] in Hp. injection Hp as <- <-.
    split_and!; [| apply lookup_delete_eq |].
    + split; [done |]. intros Hne. by rewrite lookup_insert_ne, lookup_insert_eq by done.
    + apply lookup_delete_None. right. apply lookup_delete_eq.
Qed.
