(* ===== verification/Teardown.v ===== *)
(** * Teardown: the discovery service running and closing
    (New, Close, teardown and the four goroutines of internal/discovery/discovery.go)

    The context watcher, the reader, the announcer and the registry actor run next to
    the engine that takes the events, anyone who cancels the context or calls Close, and
    the network. [disco_step] performs one action of one of them where the code is able
    to. The concurrent service refines the registry of Discovery.v, and it closes. *)
From S2P Require Import Prelude Bytes Messages Discovery Service.

(** ** The running service *)

(** The reader is in ReadDatagram, or in the select that forwards; the announcer has
    its first announcement to send, or waits for the ticker; the actor, while it runs,
    has events to emit, none when it is in its select. [d_once] is closeOnce: how many of
    the three statements of teardown have run. [d_heard] and [d_taken] log what the
    reader decoded and what the engine took. *)
Inductive readerState := Parked | Forwarding (a : inAnnounce) | ReaderExit.
Inductive announcerState := Starting | Ticking | AnnouncerExit.

Record Disco := mkDisco {
  d_cancelled : bool; d_closed : bool; d_sock : bool; d_once : option nat;
  d_watcher : bool; d_reader : readerState; d_announcer : announcerState; d_actor : option (list Event);
  d_inbound : list inAnnounce; d_events : list Event; d_reg : registry;
  d_wg : nat; d_out : list bytes; d_heard : list inAnnounce; d_taken : list Event
}.
Definition inboundBuffer : nat := 64.
(** New, once the socket is open. *)
Definition disco0 : Disco :=
  mkDisco false false true None true Parked Starting (Some []) [] [] (mkRegistry ∅ []) 4 [] [] [].

Inductive disco_act :=
| DCancel                              (* the parent context *)
| DOnce                                (* closeOnce.Do runs teardown: Close, or the watcher *)
| DTeardown                            (* its next statement *)
| DWatcherExit
| DRead (src b : bytes) (now : Z) | DReadErr | DForward | DReaderStop
| DAnnounce | DAnnounceStop
| DTake | DSweep (now : Z) | DEmit (pick : bool) | DHandOver | DActorStop
| DDrain.                              (* the engine takes an event *)

Section service.
Context (sv : Service).

Definition set_reader (d : Disco) (r : readerState) (inbound heard : list inAnnounce) (wg : nat) : Disco :=
  mkDisco (d_cancelled d) (d_closed d) (d_sock d) (d_once d) (d_watcher d) r (d_announcer d) (d_actor d)
    inbound (d_events d) (d_reg d) wg (d_out d) heard (d_taken d).
Definition set_actor (d : Disco) (a : option (list Event)) (inbound : list inAnnounce) (events : list Event)
    (reg : registry) (wg : nat) (taken : list Event) : Disco :=
  mkDisco (d_cancelled d) (d_closed d) (d_sock d) (d_once d) (d_watcher d) (d_reader d) (d_announcer d) a
    inbound events reg wg (d_out d) (d_heard d) taken.
Definition set_flags (d : Disco) (cancelled closed sock : bool) (once : option nat) (watcher : bool)
    (ann : announcerState) (wg : nat) (out : list bytes) : Disco :=
  mkDisco cancelled closed sock once watcher (d_reader d) ann (d_actor d)
    (d_inbound d) (d_events d) (d_reg d) wg out (d_heard d) (d_taken d).

Definition teardown_step (d : Disco) (n : nat) : option Disco :=
  let set cancelled closed sock :=
    Some (set_flags d cancelled closed sock (Some (S n)) (d_watcher d) (d_announcer d) (d_wg d) (d_out d)) in
  match n with
  | 0%nat => set (d_cancelled d) true (d_sock d)
  | 1%nat => set true (d_closed d) (d_sock d)
  | 2%nat => set (d_cancelled d) (d_closed d) false
  | _ => None
  end.

(** What the actor's handling of [reg'] leaves it to emit. *)
Definition to_emit (reg reg' : registry) : list Event := drop (length (rg_events reg)) (rg_events reg').

Definition disco_step (d : Disco) (a : disco_act) : option Disco :=
  match a with
  | DCancel => Some (set_flags d true (d_closed d) (d_sock d) (d_once d) (d_watcher d) (d_announcer d) (d_wg d) (d_out d))
  | DOnce =>
    match d_once d with
    | None => Some (set_flags d (d_cancelled d) (d_closed d) (d_sock d) (Some 0%nat) (d_watcher d) (d_announcer d) (d_wg d) (d_out d))
    | Some _ => None
    end
  | DTeardown => n ← d_once d; teardown_step d n
  | DWatcherExit =>
    if d_cancelled d && d_watcher d && bool_decide (d_once d = Some 3%nat)
    then Some (set_flags d (d_cancelled d) (d_closed d) (d_sock d) (d_once d) false (d_announcer d) (pred (d_wg d)) (d_out d)) else None
  | DRead src b now =>
    match d_reader d with
    | Parked =>
      if d_sock d then
        match read_one (sv_self sv) src b now with
        | None => Some d
        | Some a => Some (set_reader d (Forwarding a) (d_inbound d) (d_heard d ++ [a]) (d_wg d))
        end
      else None
    | _ => None
    end
  | DReadErr => match d_reader d with Parked => Some (set_reader d ReaderExit (d_inbound d) (d_heard d) (pred (d_wg d))) | _ => None end
  | DForward =>
    match d_reader d with
    | Forwarding a =>
      if (length (d_inbound d) <? inboundBuffer)%nat then Some (set_reader d Parked (d_inbound d ++ [a]) (d_heard d) (d_wg d)) else None
    | _ => None
    end
  | DReaderStop =>
    match d_reader d with
    | Forwarding _ => if d_cancelled d then Some (set_reader d ReaderExit (d_inbound d) (d_heard d) (pred (d_wg d))) else None
    | _ => None
    end
  | DAnnounce =>
    match d_announcer d with
    | AnnouncerExit => None
    | _ => Some (set_flags d (d_cancelled d) (d_closed d) (d_sock d) (d_once d) (d_watcher d) Ticking (d_wg d)
                   (if d_sock d then d_out d ++ announceLoop sv 0 else d_out d))
    end
  | DAnnounceStop =>
    match d_announcer d with
    | Ticking =>
      if d_cancelled d
      then Some (set_flags d (d_cancelled d) (d_closed d) (d_sock d) (d_once d) (d_watcher d) AnnouncerExit (pred (d_wg d)) (d_out d)) else None
    | _ => None
    end
  | DTake =>
    match d_actor d, d_inbound d with
    | Some [], a :: q =>
      let reg := handleAnnounce (d_reg d) a in
      Some (set_actor d (Some (to_emit (d_reg d) reg)) q (d_events d) reg (d_wg d) (d_taken d))
    | _, _ => None
    end
  | DSweep now =>
    match d_actor d with
    | Some [] =>
      let reg := sweep (sv_evictTimeout sv) (d_reg d) now in
      Some (set_actor d (Some (to_emit (d_reg d) reg)) (d_inbound d) (d_events d) reg (d_wg d) (d_taken d))
    | _ => None
    end
  | DEmit pick =>
    match d_actor d with
    | Some (ev :: evs) =>
      q ← emit sv (d_closed d) pick (d_events d) ev;
      Some (set_actor d (Some evs) (d_inbound d) q (d_reg d) (d_wg d) (d_taken d))
    | _ => None
    end
  | DHandOver =>
    match d_actor d, d_events d with
    | Some (ev :: evs), [] => Some (set_actor d (Some evs) (d_inbound d) [] (d_reg d) (d_wg d) (d_taken d ++ [ev]))
    | _, _ => None
    end
  | DActorStop =>
    match d_actor d with
    | Some [] =>
      if d_cancelled d then Some (set_actor d None (d_inbound d) (d_events d) (d_reg d) (pred (d_wg d)) (d_taken d)) else None
    | _ => None
    end
  | DDrain =>
    match d_events d with
    | [] => None
    | ev :: q => Some (set_actor d (d_actor d) (d_inbound d) q (d_reg d) (d_wg d) (d_taken d ++ [ev]))
    end
  end.

Inductive dstep (d d' : Disco) : Prop := dstep_act a : disco_step d a = Some d' → dstep d d'.

(** ** What holds throughout *)

Definition b2n (b : bool) : nat := if b then 1 else 0.
Definition reader_on (r : readerState) : bool := match r with ReaderExit => false | _ => true end.
Definition announcer_on (r : announcerState) : bool := match r with AnnouncerExit => false | _ => true end.
Definition actor_on (a : option (list Event)) : bool := match a with None => false | Some _ => true end.

(** Announcements the reader holds, events the actor does. *)
Definition in_hand (r : readerState) : list inAnnounce := match r with Forwarding a => [a] | _ => [] end.
Definition heard_of (i : Input) : option inAnnounce :=
  match i with Datagram src b now => read_one (sv_self sv) src b now | Tick _ => None end.
(** In the channel, or on its way to it. *)
Definition emitted (d : Disco) : list Event := d_taken d ++ d_events d ++ default [] (d_actor d).

(** Where the teardown is, what the actor has done of what was heard, and what has
    become of the events it emitted. *)
Definition stage_ok (d : Disco) : Prop :=
  match d_once d with
  | None => d_closed d = false ∧ d_sock d = true
  | Some n => (n ≤ 3)%nat ∧ ((1 ≤ n)%nat → d_closed d = true) ∧ ((2 ≤ n)%nat → d_cancelled d = true) ∧ (n = 3%nat → d_sock d = false)
  end.
Definition heard_ok (d : Disco) : Prop :=
  ∃ lost, Forall (λ a, ∃ src b now, read_one (sv_self sv) src b now = Some a) (d_heard d) ∧
    (d_reader d ≠ ReaderExit → lost = []) ∧
    ∃ inputs, d_reg d = run (sv_self sv) (sv_evictTimeout sv) inputs ∧
      d_heard d = omap heard_of inputs ++ d_inbound d ++ in_hand (d_reader d) ++ lost.
Definition emitted_ok (d : Disco) : Prop :=
  sublist (emitted d) (rg_events (d_reg d)) ∧ (d_closed d = false → emitted d = rg_events (d_reg d)).

Record serving (d : Disco) : Prop := mkServing {
  sg_wg : d_wg d = (b2n (d_watcher d) + b2n (reader_on (d_reader d)) + b2n (announcer_on (d_announcer d)) + b2n (actor_on (d_actor d)))%nat;
  sg_stage : stage_ok d;
  sg_inbound : (length (d_inbound d) ≤ inboundBuffer)%nat;
  sg_events : Z.of_nat (length (d_events d)) ≤ Z.max 0 (sv_eventsBuf sv);
  sg_heard : heard_ok d;
  sg_emitted : emitted_ok d
}.

Lemma serving0 : serving disco0.
Proof.
  split; cbn; [done | done | unfold inboundBuffer; lia | lia | | done].
  exists []. split; [constructor |]. split; [done |]. by exists [].
Qed.

Lemma to_emit_grows reg reg' new : rg_events reg' = rg_events reg ++ new → to_emit reg reg' = new.
Proof. intros Heq. unfold to_emit. by rewrite Heq, drop_app_length. Qed.
Lemma handle_grows reg a : rg_events (handleAnnounce reg a) = rg_events reg ++ to_emit reg (handleAnnounce reg a).
Proof.
  unfold to_emit, handleAnnounce. cbn [rg_events]. destruct (rg_peers reg !! _); [case_decide |];
    rewrite ?drop_app_length, ?drop_all, ?app_nil_r; done.
Qed.
Lemma sweep_grows evict reg now : rg_events (sweep evict reg now) = rg_events reg ++ to_emit reg (sweep evict reg now).
Proof. unfold to_emit, sweep. cbn [rg_events]. by rewrite drop_app_length. Qed.

Lemma temit_cases closed pick q ev q' :
  emit sv closed pick q ev = Some q' → (closed = true ∧ q' = q) ∨ (q' = q ++ [ev] ∧ Z.of_nat (length q) < sv_eventsBuf sv).
Proof.
  unfold emit. destruct (Z.ltb_spec (Z.of_nat (length q)) (sv_eventsBuf sv)); destruct closed, pick; cbn;
    intros Heq; simplify_eq; auto.
Qed.

Lemma heard_ok_read d a : d_reader d = Parked → (∃ src b now, read_one (sv_self sv) src b now = Some a) →
  heard_ok d → heard_ok (set_reader d (Forwarding a) (d_inbound d) (d_heard d ++ [a]) (d_wg d)).
Proof.
  intros Hr Ha (lost & Hall & Hl & inputs & Hreg & Hh). exists []. split; [cbn; apply Forall_app; by split; [| constructor] |].
  split; [done |]. exists inputs. split; [done |]. cbn. rewrite Hr in Hl, Hh. rewrite Hh, (Hl ltac:(done)). cbn [in_hand].
  by rewrite !app_nil_r, <- app_assoc.
Qed.

Lemma heard_ok_take d reg a q input :
  d_inbound d = a :: q → heard_of input = Some a →
  heard_ok d → reg = run_one (sv_self sv) (sv_evictTimeout sv) (d_reg d) input →
  heard_ok (set_actor d (Some (to_emit (d_reg d) reg)) q (d_events d) reg (d_wg d) (d_taken d)).
Proof.
  intros Hq Hi (lost & Hall & Hl & inputs & Hreg & Hh) ->. exists lost. split; [done |]. split; [done |].
  exists (inputs ++ [input]). cbn. split; [unfold run; rewrite foldl_app; cbn; by rewrite Hreg |].
  rewrite Hh, Hq, omap_app. cbn. rewrite Hi. cbn. by rewrite <- !app_assoc.
Qed.

Lemma emitted_ok_handle d reg q inbound :
  d_actor d = Some [] → rg_events reg = rg_events (d_reg d) ++ to_emit (d_reg d) reg → emitted_ok d →
  emitted_ok (set_actor d (Some (to_emit (d_reg d) reg)) inbound (d_events d) reg q (d_taken d)).
Proof.
  unfold emitted_ok, emitted. cbn. intros -> -> [Hs He]. cbn in *. rewrite app_nil_r in *. rewrite app_assoc.
  split; [by apply sublist_app |]. intros Hc. by rewrite He.
Qed.

(** The fields an action leaves as they are, and the counts. *)
Local Ltac serve := split; try done; try (cbn in *; rewrite ?length_app; cbn; lia); try (cbn in *; congruence);
  try (unfold stage_ok in *; cbn; match goal with |- context [d_once ?x] => destruct (d_once x) end; naive_solver).

Lemma serving_step d a d' : disco_step d a = Some d' → serving d → serving d'.
Proof.
  intros Hs Hserv. pose proof Hserv as [Hwg Hst Hin Hev Hh He].
  assert (∀ d', (d_reader d', d_inbound d', d_reg d', d_heard d') = (d_reader d, d_inbound d, d_reg d, d_heard d) → heard_ok d') as Hhk.
  { unfold heard_ok. intros d1 [= -> -> -> ->]. exact Hh. }
  destruct a as [| | | | src b now | | | | | | | now | pick | | |]; cbn [disco_step] in Hs.
  - simplify_eq. serve.
  - destruct (d_once d) eqn:Ho; [done |]. simplify_eq. serve; unfold stage_ok in *; cbn;
    split_and!; lia || done.
  - destruct (d_once d) as [n |] eqn:Ho; [| done]. cbn in Hs. unfold stage_ok in Hst. rewrite Ho in Hst.
    destruct Hst as (Hn & Hc & Hk & Hsk).
    destruct He as [Hs1 Hs2]. destruct n as [|[|[|n]]]; cbn in Hs; [.. | done]; simplify_eq.
    all: serve; first [by split; cbn; auto | unfold stage_ok; cbn; split_and!; intros; auto with lia].
  - destruct (_ && _) eqn:Hg in Hs; [| done]. apply andb_true_iff in Hg as [[Hc Hw]%andb_true_iff Ho%bool_decide_eq_true]. simplify_eq.
    rewrite Hw in Hwg. serve.
  - destruct (d_reader d) eqn:Hr; [| done..]. destruct (d_sock d) eqn:Hsk; [| done].
    destruct (read_one _ src b now) as [a |] eqn:Ha; simplify_eq; [| exact Hserv].
    serve. apply heard_ok_read; eauto.
  - destruct (d_reader d) eqn:Hr; [| done..]. simplify_eq. serve.
    destruct Hh as (lost & Hall & Hl & inputs & Hreg & Hheard). exists []. split; [done |]. split; [done |]. exists inputs.
    cbn. rewrite ?Hr in Hheard, Hl. by rewrite (Hl ltac:(done)) in Hheard.
  - destruct (d_reader d) as [| a |] eqn:Hr; [done | | done]. destruct (Nat.ltb_spec (length (d_inbound d)) inboundBuffer); [| done].
    simplify_eq. serve.
    destruct Hh as (lost & Hall & Hl & inputs & Hreg & Hheard). exists []. split; [done |]. split; [done |]. exists inputs.
    cbn. rewrite ?Hr in Hheard, Hl. rewrite (Hl ltac:(done)) in Hheard. cbn in Hheard. split; [done |]. by rewrite Hheard, <- app_assoc.
  - destruct (d_reader d) as [| a |] eqn:Hr; [done | | done]. destruct (d_cancelled d) eqn:Hc; [| done]. simplify_eq.
    serve.
    destruct Hh as (lost & Hall & Hl & inputs & Hreg & Hheard). exists [a]. split; [done |]. split; [done |]. exists inputs.
    cbn. rewrite ?Hr in Hheard, Hl. by rewrite (Hl ltac:(done)) in Hheard.
  - destruct (d_announcer d) eqn:Ha; simplify_eq; serve.
  - destruct (d_announcer d) eqn:Ha; [done | | done]. destruct (d_cancelled d) eqn:Hc; [| done]. simplify_eq.
    serve.
  - destruct (d_actor d) as [[|] |] eqn:Ha; [| done..]. destruct (d_inbound d) as [|a q] eqn:Hq; [done |]. cbv zeta in Hs. simplify_eq.
    serve.
    + pose proof Hh as (lost & Hall & _ & inputs & _ & Hheard). rewrite Forall_forall in Hall.
      destruct (Hall a) as (src & b & now & Hread).
      { rewrite Hheard, Hq. apply elem_of_app. right. by apply elem_of_cons; left. }
      eapply (heard_ok_take d _ a q (Datagram src b now)); [done | done | done |]. cbn. by rewrite Hread.
    + apply emitted_ok_handle; [done | apply handle_grows | done].
  - destruct (d_actor d) as [[|] |] eqn:Ha; [| done..]. cbv zeta in Hs. simplify_eq. serve.
    + destruct Hh as (lost & Hall & Hl & inputs & Hreg & Hheard). exists lost. split; [done |]. split; [done |].
      exists (inputs ++ [Tick now]). cbn. split; [unfold run; rewrite foldl_app; cbn; by rewrite Hreg |].
      by rewrite omap_app, app_nil_r.
    + apply emitted_ok_handle; [done | apply sweep_grows | done].
  - destruct (d_actor d) as [[|ev evs] |] eqn:Ha; [done | | done].
    destruct (emit sv (d_closed d) pick (d_events d) ev) as [q |] eqn:Hemit; [| done]. cbn in Hs. simplify_eq.
    apply temit_cases in Hemit as [[Hc ->] | [-> Hlt]]; serve.
    + unfold emitted_ok, emitted in *. rewrite Ha in He. cbn in *. split; [| congruence]. destruct He as [He _].
      etransitivity; [| exact He]. apply sublist_app; [done |]. apply sublist_app; [done | by apply sublist_cons].
    + unfold emitted_ok, emitted in *. rewrite Ha in He. cbn in *. by rewrite <- (app_assoc (d_events d)).
  - destruct (d_actor d) as [[|ev evs] |] eqn:Ha; [done | | done]. destruct (d_events d) eqn:Hq; [| done]. simplify_eq.
    serve.
    unfold emitted_ok, emitted in *. rewrite Ha, Hq in He. cbn in *. by rewrite <- app_assoc.
  - destruct (d_actor d) as [[|] |] eqn:Ha; [| done..]. destruct (d_cancelled d) eqn:Hc; [| done]. simplify_eq.
    serve.
    unfold emitted_ok, emitted in *. by rewrite Ha in He.
  - destruct (d_events d) as [|ev q] eqn:Hq; [done |]. simplify_eq. serve.
    unfold emitted_ok, emitted in *. rewrite Hq in He. cbn in *. by rewrite <- app_assoc.
Qed.

Lemma dstep_serving d : rtc dstep disco0 d → serving d.
Proof.
  intros Hr. assert (∀ d0, rtc dstep d0 d → serving d0 → serving d) as Hall; [| apply (Hall _ Hr), serving0].
  clear. induction 1 as [| d1 d2 d3 [a Hs] _ IH]; [done |]. intros Hd. apply IH. by eapply serving_step.
Qed.

(** ** Closing *)

(** The context is cancelled, or Close has been called. *)
Definition stopping (d : Disco) : Prop := d_cancelled d = true ∨ d_once d ≠ None.
Definition all_done (d : Disco) : Prop := d_wg d = 0%nat ∧ d_once d = Some 3%nat.

(** What is left to do: the teardown's statements, a final step per goroutine, the
    announcement not yet sent, the events in the actor's hand. *)
Definition left_over (d : Disco) : nat :=
  (match d_once d with None => 4 | Some n => 3 - n end + b2n (d_watcher d) + b2n (reader_on (d_reader d)) +
   (match d_announcer d with Starting => 2 | Ticking => 1 | AnnouncerExit => 0 end) +
   match d_actor d with None => 0 | Some evs => S (length evs) end)%nat.

(** The actions the service takes of itself while it stops: no datagram, tick or taker
    of events is waited for, and a read fails only because its socket is closed. *)
Definition unaided (d : Disco) (a : disco_act) : Prop :=
  match a with
  | DOnce => d_cancelled d = true
  | DReadErr => d_sock d = false
  | DTeardown | DWatcherExit | DReaderStop | DAnnounce | DAnnounceStop | DEmit _ | DActorStop => True
  | _ => False
  end.
Definition unaided_step (d d' : Disco) : Prop := ∃ a, unaided d a ∧ disco_step d a = Some d' ∧ (left_over d' < left_over d)%nat.

Lemma stopping_step d a d' : disco_step d a = Some d' → stopping d → stopping d'.
Proof.
  unfold stopping, disco_step. intros Hs Hst. destruct a; cbn in Hs;
    repeat first [discriminate | progress simplify_eq | progress cbn in * | case_match
      | match goal with E : _ ≫= _ = Some _ |- _ => apply bind_Some in E as (? & ? & ?) end]; try (by auto); try (right; congruence).
  unfold teardown_step in *. repeat case_match; simplify_eq; cbn; right; congruence.
Qed.

Lemma left_over_done d : serving d → left_over d = 0%nat → all_done d.
Proof.
  intros [Hwg Hst _ _ _ _] Hl. unfold left_over, stage_ok, all_done in *.
  destruct (d_once d) as [n |]; [| lia]. destruct (d_reader d), (d_announcer d), (d_actor d); cbn in *; try lia.
  split; [lia |]. f_equal. lia.
Qed.

Lemma stopping_progress d : serving d → stopping d → all_done d ∨ ∃ d', unaided_step d d'.
Proof.
  intros Hserv Hstop. pose proof Hserv as [_ Hst _ _ _ _]. destruct (decide (left_over d = 0%nat)) as [Hz | Hnz]; [left; by apply left_over_done |].
  right. unfold stopping, stage_ok in *. destruct (d_once d) as [n |] eqn:Ho.
  2:{ destruct Hstop as [Hc |]; [| done]. eexists. exists DOnce. split; [done |]. cbn. rewrite Ho.
      split; [done |]. unfold left_over. cbn. rewrite Ho. lia. }
  destruct Hst as (Hn & H1 & H2 & H3). destruct (decide (n = 3%nat)) as [-> | Hne].
  2:{ destruct n as [|[|[|n]]]; [.. | lia]; eexists; exists DTeardown; cbn; rewrite Ho; cbn; (split; [done |]; split; [reflexivity |]).
      all: unfold left_over; cbn; rewrite Ho; lia. }
  specialize (H1 ltac:(lia)). specialize (H2 ltac:(lia)). specialize (H3 eq_refl).
  destruct (d_watcher d) eqn:Hw.
  { eexists. exists DWatcherExit. cbn. rewrite H2, Hw, Ho. split; [done |]. split; [reflexivity |]. unfold left_over. cbn. rewrite Ho, Hw. cbn. lia. }
  destruct (d_reader d) as [| a |] eqn:Hr.
  { eexists. exists DReadErr. cbn. rewrite Hr. split; [done |]. split; [reflexivity |]. unfold left_over. cbn. rewrite Hr. cbn. lia. }
  { eexists. exists DReaderStop. cbn. rewrite Hr, H2. split; [done |]. split; [reflexivity |]. unfold left_over. cbn. rewrite Hr. cbn. lia. }
  destruct (d_announcer d) eqn:Ha.
  { eexists. exists DAnnounce. cbn. rewrite Ha. split; [done |]. split; [reflexivity |]. unfold left_over. cbn. rewrite Ha. cbn. lia. }
  { eexists. exists DAnnounceStop. cbn. rewrite Ha, H2. split; [done |]. split; [reflexivity |]. unfold left_over. cbn. rewrite Ha. cbn. lia. }
  destruct (d_actor d) as [[|ev evs] |] eqn:Hact.
  - eexists. exists DActorStop. cbn. rewrite Hact, H2. split; [done |]. split; [reflexivity |]. unfold left_over. cbn. rewrite Hact. cbn. lia.
  - assert (emit sv (d_closed d) true (d_events d) ev = Some (d_events d)) as He by (unfold emit; rewrite H1, orb_true_r; done).
    eexists. exists (DEmit true). cbn. rewrite Hact, He. split; [done |]. split; [reflexivity |]. unfold left_over. cbn. rewrite Hact. cbn. lia.
  - exfalso. apply Hnz. unfold left_over. by rewrite Ho, Hw, Hr, Ha, Hact.
Qed.

Lemma stopping_finishes d : serving d → stopping d → ∃ d', rtc unaided_step d d' ∧ all_done d'.
Proof.
  intros Hserv Hstop. remember (left_over d) as n eqn:Hn. revert d Hserv Hstop Hn.
  induction n as [n IH] using lt_wf_ind. intros d Hserv Hstop ->.
  destruct (stopping_progress d Hserv Hstop) as [Hd | (d1 & a & Ha & Hs & Hlt)]; [by exists d |].
  destruct (IH (left_over d1) Hlt d1) as (d' & Hr & Hd); [by eapply serving_step | by eapply stopping_step | done |].
  exists d'. split; [| done]. eapply rtc_l; [| exact Hr]. by exists a.
Qed.
End service.

(** * Properties *)

(** C34: the running service refines the registry: however its goroutines, the network and
    the engine interleave, the peers it keeps are those the registry computes from some
    sequence of datagrams and sweeps, whose announcements are the first it heard, in
    order; while it is not closing, what the engine has taken and what waits for it, in
    order, are exactly the events of that registry, none lost or repeated; when it
    closes, some may be left out but never reordered; and both channels stay within
    their sizes. *)
Theorem service_refines_registry sv d :
  rtc (dstep sv) disco0 d →
  (∃ inputs, d_reg d = run (sv_self sv) (sv_evictTimeout sv) inputs ∧
     omap (heard_of sv) inputs `prefix_of` d_heard d) ∧
  (d_closed d = false → d_taken d ++ d_events d ++ default [] (d_actor d) = rg_events (d_reg d)) ∧
  sublist (d_taken d ++ d_events d) (rg_events (d_reg d)) ∧
  (length (d_inbound d) ≤ inboundBuffer)%nat ∧ Z.of_nat (length (d_events d)) ≤ Z.max 0 (sv_eventsBuf sv).
Proof.
  intros Hr%dstep_serving. destruct Hr as [_ _ Hin Hev (lost & _ & _ & inputs & Hreg & Hh) [Hs He]]. split_and!; [| done | | done | done].
  - exists inputs. split; [done |]. rewrite Hh. by eexists.
  - etransitivity; [| exact Hs]. unfold emitted. rewrite app_assoc. by apply sublist_inserts_r.
Qed.

(** C35: Close returns: from any state in which the context is cancelled or Close has been
    called, whatever has happened and whatever else still happens, the service can stop
    by itself: some action of its own, that waits for no datagram, ticker or taker of
    events, brings it nearer, until the teardown has run once, the WaitGroup is zero and
    nothing of it can ever run again. *)
Theorem Close_returns sv d :
  rtc (dstep sv) disco0 d → stopping d →
  (∀ a d', disco_step sv d a = Some d' → stopping d') ∧
  (¬ all_done d → ∃ d', unaided_step sv d d') ∧
  (∃ d', rtc (unaided_step sv) d d' ∧ all_done d' ∧
     ∀ a d'', disco_step sv d' a = Some d'' → a = DCancel ∨ a = DDrain).
Proof.
  intros Hr%dstep_serving Hstop. split_and!.
  - intros a d' Hs. by eapply stopping_step.
  - intros Hn. by destruct (stopping_progress sv d Hr Hstop).
  - destruct (stopping_finishes sv d Hr Hstop) as (d' & Hrun & Hd). exists d'. split; [done |]. split; [done |].
    assert (serving sv d') as [Hwg _ _ _ _ _].
    { clear Hd. induction Hrun as [| d1 d2 d3 (b & _ & Hs & _) _ IH]; [done |]. apply IH; [by eapply serving_step | by eapply stopping_step]. }
    destruct Hd as [Hz Ho]. rewrite Hz in Hwg. intros a d'' Hs.
    destruct (d_watcher d') eqn:Hw, (d_reader d') eqn:Hrd, (d_announcer d') eqn:Ha, (d_actor d') eqn:Hact; cbn in Hwg; try lia.
    destruct a; cbn in Hs; rewrite ?Hw, ?Hrd, ?Ha, ?Hact, ?Ho, ?andb_false_r in Hs; cbn in Hs; try done; auto.
Qed.

(** The actor is blocked on a full channel when the context is cancelled. *)
Definition small : Service := configured (repeat "A"%char 32) 7000 [WithEventsBuffer 1].
Definition blocked : list disco_act :=
  [DAnnounce; DRead [byte_of_Z 10] (claim_of "B" 7000) 0; DForward; DTake; DEmit false;
   DRead [byte_of_Z 10] (claim_of "C" 7000) 1; DForward; DTake; DRead [byte_of_Z 9] (claim_of "D" 7000) 2; DCancel; DOnce].
Definition exec_disco (acts : list disco_act) : option Disco :=
  foldl (λ d a, d ← d; disco_step small d a) (Some disco0) acts.

Lemma exec_disco_run acts d : exec_disco acts = Some d → rtc (dstep small) disco0 d.
Proof.
  unfold exec_disco. revert d. induction acts as [|a acts IH] using rev_ind; intros d; [by intros [= <-] |].
  rewrite foldl_app. cbn. destruct (foldl _ _ acts) as [d1 |]; [cbn | done].
  intros Hs. eapply rtc_r; [by apply IH |]. by exists a.
Qed.

Lemma blocked_runs : ∃ d, exec_disco blocked = Some d ∧ d_once d = Some 0%nat ∧ d_closed d = false ∧
  d_wg d = 4%nat ∧ d_events d = [PeerDiscovered (repeat "B"%char 32) (mkAddrPort [byte_of_Z 10] 7000)] ∧
  d_actor d = Some [PeerDiscovered (repeat "C"%char 32) (mkAddrPort [byte_of_Z 10] 7000)] ∧ disco_step small d (DEmit true) = None.
Proof.
  assert (is_Some (exec_disco blocked)) as [d Hd] by (apply (bool_decide_unpack _); vm_compute; exact I).
  assert ((λ d, (d_once d, d_closed d, d_wg d, d_events d, d_actor d)) <$> exec_disco blocked =
    Some (Some 0%nat, false, 4%nat, [PeerDiscovered (repeat "B"%char 32) (mkAddrPort [byte_of_Z 10] 7000)],
      Some [PeerDiscovered (repeat "C"%char 32) (mkAddrPort [byte_of_Z 10] 7000)])) as Hv by (vm_compute; reflexivity).
  rewrite Hd in Hv. apply (inj Some) in Hv. injection Hv as H1 H2 H3 H4 H5. exists d. split_and!; try done.
  cbn. rewrite H5. unfold emit. by rewrite H2, H4.
Qed.

Lemma service_refines_registry_witness :
  ∃ d, exec_disco blocked = Some d ∧ d_events d ≠ [] ∧
    d_taken d ++ d_events d ++ default [] (d_actor d) = rg_events (d_reg d).
Proof.
  destruct blocked_runs as (d & Hd & _ & Hc & _ & Hev & _). exists d. split; [exact Hd |]. split; [rewrite Hev; discriminate |].
  destruct (service_refines_registry small d (exec_disco_run _ _ Hd)) as (_ & He & _). exact (He Hc).
Defined.

Lemma Close_returns_witness :
  ∃ d d', exec_disco blocked = Some d ∧ disco_step small d (DEmit true) = None ∧ rtc (unaided_step small) d d' ∧ all_done d'.
Proof.
  destruct blocked_runs as (d & Hd & Ho & _ & _ & _ & _ & Hblock).
  destruct (Close_returns small d (exec_disco_run _ _ Hd)) as (_ & _ & d' & Hr & Hdone & _).
  - right. rewrite Ho. discriminate.
  - exists d, d'. split; [exact Hd |]. split; [exact Hblock |]. split; [exact Hr | exact Hdone].
Defined.
