(* ===== verification/Storm.v ===== *)
(** * Storm: a conflict is never over on the side that won it

    The winner of a conflict stays at its path with its own version, and a record
    that was fetched is never announced. So the side that held the winner keeps the
    loser as the peer's record of the path: every reconcile finds the conflict
    again, queues the same work, whose completion reconciles, and once the copy has
    come back each turn announces it anew.

    Engines that differ only in their logs, their trees and their snapshots behave
    alike, so one turn, run in the kernel, is every turn. *)
From S2P Require Import Prelude Bytes VersionVector Framing Messages Windows Pathnorm Hashing.
From S2P Require Import FileInfo Tree Oracle Differ Conflict Scanner Disk Transfer Replica Engine.
From S2P Require Import Story Invariant Reconcile Progress Work Converge.

(** ** Engines alike *)

(** [e] has sent [s] before what [e'] has; what the loop and the puller read is the
    same on both. *)
Record alike (s : list (nat * Message)) (e e' : Engine) : Prop := mkAlike {
  al_files : e_files e = e_files e';
  al_peers : e_peers e = e_peers e';
  al_states : e_states e = e_states e';
  al_completions : e_completions e = e_completions e';
  al_disk : e_disk e = e_disk e';
  al_sent : e_sent e = s ++ e_sent e'
}.

Section alike.
Context `{OS, Digest, Unicode}.
Context (cfg : Config) (s : list (nat * Message)).

(** Reads the fields of an update off those of the engines. *)
Ltac fields := intros [Hf Hp Hs Hc Hd Hl]; split; cbn; congruence.

Lemma alike_files e e' x : alike s e e' → alike s (set_files e x) (set_files e' x).
Proof. fields. Qed.
Lemma alike_tree e e' x y : alike s e e' → alike s (set_tree e x) (set_tree e' y).
Proof. fields. Qed.
Lemma alike_outbound e e' x y : alike s e e' → alike s (set_outbound e x) (set_outbound e' y).
Proof. fields. Qed.
Lemma alike_states e e' x : alike s e e' → alike s (set_states e x) (set_states e' x).
Proof. fields. Qed.
Lemma alike_completions e e' x : alike s e e' → alike s (set_completions e x) (set_completions e' x).
Proof. fields. Qed.
Lemma alike_disk e e' x : alike s e e' → alike s (set_disk e x) (set_disk e' x).
Proof. fields. Qed.
Lemma alike_rebuild e e' : alike s e e' → alike s (rebuild e) (rebuild e').
Proof. apply alike_tree. Qed.
Lemma alike_upd e e' a f : alike s e e' → alike s (upd_ps e a f) (upd_ps e' a f).
Proof. unfold upd_ps. intros He. rewrite (al_states _ _ _ He). by apply alike_states. Qed.
Lemma alike_report e e' c : alike s e e' → alike s (report e c) (report e' c).
Proof. unfold report. intros He. rewrite (al_completions _ _ _ He). by apply alike_completions. Qed.
Lemma alike_send e e' a m : alike s e e' → alike s (send e a m) (send e' a m).
Proof. intros [Hf Hp Hs Hc Hd Hl]. split; cbn; try congruence. by rewrite Hl, app_assoc. Qed.
Lemma alike_foldl {A} (f : Engine → A → Engine) l e e' :
  (∀ x y z, alike s x y → alike s (f x z) (f y z)) → alike s e e' → alike s (foldl f e l) (foldl f e' l).
Proof. intros Hf. revert e e'. induction l as [|x l IH]; intros e e' He; [done |]. cbn [foldl]. auto. Qed.
Lemma alike_addresses e e' : alike s e e' → addresses e = addresses e'.
Proof. intros He. unfold addresses. by rewrite (al_peers _ _ _ He). Qed.

Lemma alike_broadcast e e' changed : alike s e e' → alike s (broadcastUpdate cfg e changed) (broadcastUpdate cfg e' changed).
Proof.
  intros He. unfold broadcastUpdate. destruct changed as [|x l]; [done |]. cbv zeta.
  assert (∀ n n', alike s (set_outbound e n) (set_outbound e' n')) as Ho by (intros; by apply alike_outbound).
  destruct (EncodeFileInfos _); [| apply Ho].
  change (addresses (set_outbound e ?n)) with (addresses e). change (addresses (set_outbound e' ?n)) with (addresses e').
  rewrite (alike_addresses e e' He). apply alike_foldl; [intros; by apply alike_send | apply Ho].
Qed.
Lemma alike_tombstone e e' t : alike s e e' → alike s (applyTombstone cfg e t) (applyTombstone cfg e' t).
Proof.
  intros He. unfold applyTombstone. cbn [e_files set_disk]. rewrite (al_files _ _ _ He), (al_disk _ _ _ He). cbv zeta.
  assert (alike s (rebuild (set_files (set_disk e (Remove (e_disk e') (Path t))) (<[Path t:=t]> (e_files e'))))
                  (rebuild (set_files (set_disk e' (Remove (e_disk e') (Path t))) (<[Path t:=t]> (e_files e'))))) as Hr
    by by apply alike_rebuild, alike_files, alike_disk.
  case_match; [by apply alike_broadcast | done].
Qed.

Lemma alike_execute e e' a p : alike s e e' → alike s (execute cfg e a p) (execute cfg e' a p).
Proof.
  intros He. unfold execute. assert (∀ h, hasLocalContent e h = hasLocalContent e' h) as Hh
    by (intros; unfold hasLocalContent; by rewrite (al_files _ _ _ He)).
  repeat (case_match; rewrite ?Hh in *; try congruence); try done;
    first [by apply alike_tombstone | by apply alike_upd].
Qed.

Lemma alike_resolve_all e e' a ds : alike s e e' →
  alike s (resolve_all cfg e a ds).1.1 (resolve_all cfg e' a ds).1.1 ∧
  (resolve_all cfg e a ds).1.2 = (resolve_all cfg e' a ds).1.2 ∧ (resolve_all cfg e a ds).2 = (resolve_all cfg e' a ds).2.
Proof.
  revert e e'. induction ds as [|d ds IH]; intros e e' He; [done |]. cbn [resolve_all].
  destruct (IsTypeClash d); [by apply IH |]. cbv zeta. specialize (IH e e' He) as IH'.
  destruct (resolve_all cfg e a ds) as [[e1 c1] t1], (resolve_all cfg e' a ds) as [[e2 c2] t2]. cbn in IH'.
  destruct IH' as (? & -> & ->). case_match; [done |]. case_match; [done |]. by apply IH, alike_execute.
Qed.

Lemma alike_has_inflight e e' a k : alike s e e' → ps_has_inflight e a k = ps_has_inflight e' a k.
Proof. intros He. unfold ps_has_inflight. by rewrite (al_states _ _ _ He). Qed.
Lemma alike_pair_tomb e e' a h tombs : alike s e e' → pair_tomb e a h tombs = pair_tomb e' a h tombs.
Proof. intros He. induction tombs as [|t tombs IH]; [done |]. cbn [pair_tomb]. by rewrite (alike_has_inflight e e'), IH. Qed.
Lemma alike_pair_creates e e' a cs tombs : alike s e e' →
  alike s (pair_creates e a cs tombs).1.1 (pair_creates e' a cs tombs).1.1 ∧
  (pair_creates e a cs tombs).1.2 = (pair_creates e' a cs tombs).1.2 ∧ (pair_creates e a cs tombs).2 = (pair_creates e' a cs tombs).2.
Proof.
  revert e e' tombs. induction cs as [|c cs IH]; intros e e' tombs He; [done |]. cbn [pair_creates].
  rewrite (alike_has_inflight e e') by done. destruct (ps_has_inflight _ _ _); [by apply IH |].
  rewrite (alike_pair_tomb e e') by done. destruct (pair_tomb _ _ _ _) as [[t tombs'] |]; [by apply IH, alike_upd |].
  specialize (IH e e' tombs He). destruct (pair_creates e a cs tombs) as [[e1 c1] t1], (pair_creates e' a cs tombs) as [[e2 c2] t2].
  cbn in *. destruct IH as (? & -> & ->). done.
Qed.

Lemma alike_gc e e' : alike s e e' → alike s (gcTombstones e) (gcTombstones e').
Proof.
  intros He. unfold gcTombstones, peer_indexes.
  rewrite (alike_addresses e e'), (al_states _ _ _ He), (al_files _ _ _ He) by done.
  destruct (gcTombstonesLocked _ _) as [files []]; [by apply alike_rebuild, alike_files | done].
Qed.

Lemma alike_reconcile e e' a : alike s e e' → alike s (reconcileWithPeer cfg e a) (reconcileWithPeer cfg e' a).
Proof.
  intros He. unfold reconcileWithPeer. rewrite (al_states _ _ _ He), (al_files _ _ _ He).
  destruct (e_states e' !! a) as [ps |]; [| done].
  destruct (BuildTree (snapshotFilesLocked _)) as [lt |]; [| done]. destruct (BuildTree (set_of _)) as [pt |]; [| done].
  match goal with |- context [resolve_all cfg e a ?ds] => pose proof (alike_resolve_all e e' a ds He) as Hr end.
  destruct (resolve_all cfg e a _) as [[e1 c1] t1], (resolve_all cfg e' a _) as [[e2 c2] t2]. cbn in Hr. destruct Hr as (He1 & -> & ->).
  pose proof (alike_pair_creates e1 e2 a c2 t2 He1) as Hr.
  destruct (pair_creates e1 _ _ _) as [[e3 c3] t3], (pair_creates e2 _ _ _) as [[e4 c4] t4]. cbn in Hr. destruct Hr as (He2 & -> & ->).
  apply alike_gc. unfold execute_tombs. apply alike_foldl; [| by apply alike_foldl; [intros; by apply alike_execute |]].
  intros x y t Hxy. rewrite (alike_has_inflight x y) by done. case_match; [by apply alike_execute | done].
Qed.

Lemma alike_update e e' id m : alike s e e' →
  alike s (handleTransportEvent cfg e (PeerMessage id (MIndexUpdate m))) (handleTransportEvent cfg e' (PeerMessage id (MIndexUpdate m))).
Proof.
  intros He. cbn [handleTransportEvent handleMessage]. unfold handleMessage, onIndexUpdate. rewrite (al_peers _ _ _ He).
  destruct (e_peers e' !! id); [| done]. destruct (DecodeFileInfos _); [| done]. by apply alike_reconcile, alike_upd.
Qed.

Lemma alike_by_short e e' n : alike s e e' → peerByShort e n = peerByShort e' n.
Proof. intros He. unfold peerByShort. by rewrite (alike_addresses e e'), (al_states _ _ _ He). Qed.
Lemma alike_clear e e' n k : alike s e e' → alike s (clearInflight e n k) (clearInflight e' n k).
Proof. intros He. unfold clearInflight. rewrite (alike_by_short e e') by done. case_match; [by apply alike_upd | done]. Qed.
Lemma alike_short e e' n : alike s e e' → alike s (reconcileShort cfg e n) (reconcileShort cfg e' n).
Proof. intros He. unfold reconcileShort. rewrite (alike_by_short e e') by done. case_match; [by apply alike_reconcile | done]. Qed.

Lemma alike_completion e e' c : alike s e e' → alike s (handleCompletion cfg e c) (handleCompletion cfg e' c).
Proof.
  intros He. unfold handleCompletion. cbv zeta. destruct (cp_applyTomb c); [by apply alike_short, alike_clear, alike_tombstone |].
  destruct (cp_conflictAbort c); [by apply alike_clear |]. apply alike_short, alike_clear.
  destruct (cp_ok c); [| done]. rewrite (al_files _ _ _ He).
  case_match; [apply alike_broadcast |]; by apply alike_rebuild, alike_files.
Qed.

Lemma alike_materialise e e' a ps leaf adv tmp now net : alike s e e' →
  alike s (materialise_step cfg e a ps leaf adv tmp now net).1 (materialise_step cfg e' a ps leaf adv tmp now net).1 ∧
  (materialise_step cfg e a ps leaf adv tmp now net).2 = (materialise_step cfg e' a ps leaf adv tmp now net).2.
Proof.
  intros He. unfold materialise_step. rewrite (al_files _ _ _ He), (al_disk _ _ _ He).
  destruct (materialise _ _ _ _ _ _ _ _). split; [by apply alike_report, alike_disk | done].
Qed.

Lemma alike_sending e e' a : alike s e e' → sending e a = sending e' a.
Proof. intros He. unfold sending. by rewrite (al_completions _ _ _ He). Qed.

Lemma alike_puller e e' a tmp now net e1 : alike s e e' → puller_step cfg e a tmp now net = Some e1 →
  ∃ e2, puller_step cfg e' a tmp now net = Some e2 ∧ alike s e1 e2.
Proof.
  intros He. unfold puller_step. rewrite (al_states _ _ _ He), (alike_sending e e' a He).
  destruct (e_states e' !! a) as [ps |]; [| done]. cbn [mbind option_bind]. destruct (sending e' a); [done |]. unfold runFetch.
  assert (∀ q r, alike s (set_running e a q r) (set_running e' a q r)) as Hr by (intros; by apply alike_upd).
  destruct (ps_running ps) as [t |].
  - intros Heq. apply (inj Some) in Heq as <-. eexists. split; [reflexivity |]. by apply alike_materialise.
  - destruct (ps_fetchQ ps) as [|t q]; [done |]. destruct (ft_preserve t) as [c |].
    + pose proof (alike_materialise _ _ a ps c (ft_preserveAdvertise t) tmp now net (Hr q None)) as [Hm Hok].
      destruct (materialise_step cfg (set_running e _ _ _) _ _ _ _ _ _ _) as [x ok],
        (materialise_step cfg (set_running e' _ _ _) _ _ _ _ _ _ _) as [y ok']. cbn in Hm, Hok. subst ok'.
      intros Heq. apply (inj Some) in Heq as <-. eexists. split; [reflexivity |].
      repeat case_match; first [by apply alike_report | by apply alike_upd].
    + intros Heq. apply (inj Some) in Heq as <-. eexists. split; [reflexivity |]. by apply alike_materialise.
Qed.
End alike.

(** ** Content that is there already *)

Section settled.
Context `{OS, Digest, Unicode}.
Context (cfg : Config).

Definition on_disk (d : Disk) (leaf : FileInfo) : bool :=
  bool_decide (Type_ leaf = TypeFile) && bool_decide (HashFile d (Path leaf) = Some (ContentHash leaf)).

(** What the puller would work on next is on disk. *)
Definition pull_settled (e : Engine) (a : nat) : bool :=
  match e_states e !! a with
  | None => true
  | Some ps =>
    forallb (on_disk (e_disk e))
      match ps_running ps, ps_fetchQ ps with
      | Some t, _ => [ft_leaf t]
      | None, t :: _ => ft_leaf t :: option_list (ft_preserve t)
      | None, [] => []
      end
  end.

Lemma materialise_on_disk cs files d leaf tmp now net :
  on_disk d leaf = true → materialise (cfg_AbsRoot cfg) cs files d leaf tmp now net = (d, MatOk).
Proof.
  intros [Ht Hh]%andb_true_iff. apply bool_decide_eq_true in Ht, Hh. unfold materialise.
  by rewrite decide_False, decide_True by auto.
Qed.
Lemma step_on_disk e a ps leaf adv tmp now net :
  on_disk (e_disk e) leaf = true →
  materialise_step cfg e a ps leaf adv tmp now net = materialise_step cfg e a ps leaf adv [] 0 ([], None, None).
Proof. intros Hd. unfold materialise_step. by rewrite !materialise_on_disk. Qed.

(** Then neither the network nor the names and times the system picks matter. *)
Lemma settled_inputs e a tmp now net :
  pull_settled e a = true → puller_step cfg e a tmp now net = puller_step cfg e a [] 0 ([], None, None).
Proof.
  unfold pull_settled, puller_step. destruct (e_states e !! a) as [ps |]; [| done]. cbn [mbind option_bind].
  destruct (sending e a); [done |]. unfold runFetch.
  destruct (ps_running ps) as [t |].
  - cbn [forallb]. intros [Hd _]%andb_true_iff. by rewrite (step_on_disk (set_running e a (ps_fetchQ ps) None)).
  - destruct (ps_fetchQ ps) as [|t q]; [done |]. cbn [forallb]. intros [Hd Hp]%andb_true_iff.
    destruct (ft_preserve t) as [c |]; [| by rewrite (step_on_disk (set_running e a q None))].
    cbn in Hp. rewrite andb_true_r in Hp. by rewrite (step_on_disk (set_running e a q None) a ps c).
Qed.

(** A step of the puller, and the loop takes the completion it reports. *)
Notation input := (bytes * Z * Yield)%type.
Definition handle_next (e : Engine) : Engine :=
  match e_completions e with [] => e | c :: cs => handleCompletion cfg (set_completions e cs) c end.
Definition turn (e : Engine) (a : nat) (i : input) : Engine :=
  match puller_step cfg e a i.1.1 i.1.2 i.2 with Some e' => handle_next e' | None => e end.

Lemma settled_turn e a i : pull_settled e a = true → turn e a i = turn e a ([], 0, ([], None, None)).
Proof. intros Hs. unfold turn. by rewrite (settled_inputs e a _ _ _ Hs). Qed.

Lemma alike_settled s e e' a : alike s e e' → pull_settled e a = pull_settled e' a.
Proof. intros He. unfold pull_settled. by rewrite (al_states _ _ _ He), (al_disk _ _ _ He). Qed.
Lemma alike_next s e e' : alike s e e' → alike s (handle_next e) (handle_next e').
Proof.
  intros He. unfold handle_next. rewrite (al_completions _ _ _ He). destruct (e_completions e') as [|c cs]; [done |].
  by apply alike_completion, alike_completions.
Qed.
Lemma alike_sym_puller s e e' a i : alike s e e' → puller_step cfg e a i.1.1 i.1.2 i.2 = None → puller_step cfg e' a i.1.1 i.1.2 i.2 = None.
Proof.
  intros He. unfold puller_step. rewrite (al_states _ _ _ He), (alike_sending s e e' a He).
  destruct (e_states e' !! a) as [ps |]; [| done]. cbn [mbind option_bind]. destruct (sending e' a); [done |]. unfold runFetch.
  destruct (ps_running ps); [done |]. destruct (ps_fetchQ ps) as [|t q]; [done |]. destruct (ft_preserve t); [| done].
  by destruct (materialise_step cfg (set_running e a q None) a ps f (ft_preserveAdvertise t) i.1.1 i.1.2 i.2).
Qed.
Lemma alike_turn s e e' a i : alike s e e' → alike s (turn e a i) (turn e' a i).
Proof.
  intros He. unfold turn. destruct (puller_step cfg e a _ _ _) as [e1 |] eqn:Hp.
  - destruct (alike_puller cfg s e e' a _ _ _ e1 He Hp) as (e2 & -> & He2). by apply alike_next.
  - by rewrite (alike_sym_puller s e e' a i He Hp).
Qed.
Lemma alike_refl e : alike [] e e.
Proof. by split. Qed.
Lemma alike_trans s t e1 e2 e3 : alike s e1 e2 → alike t e2 e3 → alike (s ++ t) e1 e3.
Proof. intros [] []. split; try congruence. rewrite <- app_assoc. congruence. Qed.

Lemma alike_silent e : alike (e_sent e) e (set_sent e []).
Proof. split; try done. cbn. by rewrite app_nil_r. Qed.

Lemma alike_fields s e e0 :
  alike s e (set_sent e0 []) → e_sent e = s ∧ e_files e = e_files e0 ∧ e_states e = e_states e0 ∧ e_disk e = e_disk e0.
Proof. intros [Hf _ Hst _ Hd Hl]. split_and!; [| done..]. by rewrite Hl, app_nil_r. Qed.

Lemma turn_reachable e a i : reachable cfg e → reachable cfg (turn e a i).
Proof.
  intros Hr. unfold turn. destruct (puller_step _ _ _ _ _ _) as [e' |] eqn:Hp; [| done].
  assert (reachable cfg e') as Hr' by (eapply reachable_step; [exact Hr | eapply step_own; by eapply step_pull]).
  unfold handle_next. destruct (e_completions e') as [|c cs] eqn:Hc; [done |].
  eapply reachable_step; [exact Hr' | by apply step_own, step_completion].
Qed.
Definition turns (inputs : list input) (a : nat) (e : Engine) : Engine := foldl (λ e i, turn e a i) e inputs.

(** Two turns that lead back to where they began lead back for ever, and each pair
    sends the same. *)
Lemma turns_again m e0 a :
  alike [m] (turn (turn e0 a ([], 0, ([], None, None))) a ([], 0, ([], None, None))) e0 →
  pull_settled e0 a = true → pull_settled (turn e0 a ([], 0, ([], None, None))) a = true →
  ∀ n inputs s e, length inputs = (2 * n)%nat → alike s e e0 → alike (s ++ replicate n m) (turns inputs a e) e0.
Proof.
  intros Hback Hs0 Hs1 n. induction n as [|n IH]; intros inputs s e Hlen He.
  { destruct inputs; [| done]. cbn. by rewrite app_nil_r. }
  destruct inputs as [|i [|j inputs]]; [done | cbn in Hlen; lia |]. cbn [turns foldl replicate].
  rewrite (cons_middle m), app_assoc. apply IH; [cbn in Hlen; lia |].
  rewrite (settled_turn e) by by rewrite (alike_settled s e e0).
  pose proof (alike_turn s e e0 a ([], 0, ([], None, None)) He) as Hal.
  rewrite (settled_turn (turn e a _)) by by rewrite (alike_settled _ _ _ a Hal).
  eapply alike_trans; [by apply alike_turn | exact Hback].
Qed.
End settled.

(** ** What keeps a conflict alive *)

Section fight.
Context `{OS, Digest, Unicode}.
Context (cfg : Config).

(** Reconciling leaves a live record alone unless the verdict deletes it. *)
Lemma reconcile_keeps e a ps k l :
  inv e → e_states e !! a = Some ps → e_files e !! k = Some l → Deleted l = false →
  (∀ t, due cfg (e_files e) (ps_index ps) t → Path t ≠ k) → e_files (reconcileWithPeer cfg e a) !! k = Some l.
Proof.
  intros Hi Hps Hk Hl Hdue. destruct (reconcile_effects cfg e a ps Hi Hps) as [-> | (e' & He & ->)]; [done |].
  destruct (effects_tracked cfg _ _ _ _ _ He ltac:(by left) k) as [Hf | (t & Ht & Hp & _)]; [| by destruct (Hdue t Ht)].
  rewrite Hk in Hf. unfold gcTombstones. pose proof (gc_lookup (peer_indexes e') (e_files e') k l) as Hg.
  destruct (gcTombstonesLocked _ _) as [files []]; [| done]. cbn. apply Hg. split; [done |]. right.
  unfold collectable. by rewrite Hl.
Qed.

Lemma effects_index files idx a e e' ps :
  rtc (effect cfg files idx a) e e' → e_states e !! a = Some ps →
  ∃ ps', e_states e' !! a = Some ps' ∧ ps_index ps' = ps_index ps.
Proof.
  intros He. revert ps. induction He as [e | e1 e2 e3 Hs _ IH]; intros ps Hps; [by exists ps |].
  assert (∃ ps2, e_states e2 !! a = Some ps2 ∧ ps_index ps2 = ps_index ps) as (ps2 & Hps2 & <-); [| by apply IH].
  destruct Hs as [f Hf | t _]; [| exists ps; by rewrite states_applyTombstone].
  exists (f ps). cbn. rewrite lookup_alter_eq, Hps. split; [done | apply (enq_index f Hf)].
Qed.
Lemma reconcile_index e a ps :
  inv e → e_states e !! a = Some ps →
  ∃ ps', e_states (reconcileWithPeer cfg e a) !! a = Some ps' ∧ ps_index ps' = ps_index ps.
Proof.
  intros Hi Hps. destruct (reconcile_effects cfg e a ps Hi Hps) as [-> | (e' & He & ->)]; [by exists ps |].
  rewrite gc_states. by eapply effects_index.
Qed.

Lemma skey_Compare l r : skey l = skey r → Compare (Version l) (Version r) ≠ Concurrent.
Proof.
  unfold skey. intros [= _ _ _ ->]. unfold Compare. generalize (Version r). intros vv.
  assert (compare_loop vv false false vv = Equal) as ->; [| done].
  induction vv as [|c vv IH]; [done |]. rewrite compare_cons, !Z.ltb_irrefl. exact IH.
Qed.

(** The verdict of a live winner on record against a loser. *)
Lemma winner_outcome l r self :
  Compare (Version l) (Version r) = Concurrent → same_content l r = false → winner l r = l →
  kind (resolve (Some l) (Some r) self) ≠ planNoOp →
  outcome (Some l) (resolve (Some l) (Some r) self) = Some l.
Proof.
  intros Hc Hs Hw. unfold resolve. rewrite Hc, Hs. unfold conflictPlan, outcome. rewrite Hw, set_path_id.
  destruct (Deleted (loserOf l r)); [done |]. by destruct (conflictName _ _).
Qed.
End fight.

(** ** The run

    A and B edit the same file concurrently and B's edit wins. Each is told of the
    other's; A makes a copy of its own, takes B's content and announces the copy; B
    fetches the copy. *)
Section run.
#[local] Existing Instance toy_digest.
#[local] Instance fetchTask_eq_dec : EqDecision fetchTask.
Proof. solve_decision. Defined.
#[local] Instance peerState_eq_dec : EqDecision peerState.
Proof. solve_decision. Defined.

Definition b_edited : Engine := onLocalChange away (set_disk b_connected (holding (go! "theirs") 5000000000)) note.
Definition a_rival : Engine := deliver home (device "B") e_edited (messages_of b_edited).
Definition b_rival : Engine := deliver away (device "A") b_edited (messages_of e_edited).
Definition a_yielded : Engine := fetched home (fetched home a_rival ([go! "theirs"], None)) ([go! "theirs"], None).
Definition b_told_copy : Engine := deliver away (device "A") b_rival (drop (length (messages_of e_edited)) (messages_of a_yielded)).
Definition b_copied : Engine := fetched away (fetched away b_told_copy ([], Some ErrPeerGone)) ([go! "v1"], None).
Definition b_stormy : Engine := fetched away b_copied ([], Some ErrPeerGone).

(** What B repeats: the copy, which it has from A. *)
Definition announced : nat * Message := (0%nat, MIndexUpdate (mkIndex (go! "folder") 1 (update_body [our_copy]))).

(** A, having heard it. *)
Definition a_informed : Engine := handleTransportEvent home a_yielded (PeerMessage (device "B") announced.2).

Definition no_input : bytes * Z * Yield := ([], 0, ([], None, None)).
Definition b_silent : Engine := set_sent b_stormy [].

Lemma stormy_settled : pull_settled b_silent 0 = true ∧ pull_settled (turn away b_silent 0 no_input) 0 = true.
Proof. split; vm_compute; reflexivity. Qed.

Lemma stormy_back : alike [announced] (turn away (turn away b_silent 0 no_input) 0 no_input) b_silent.
Proof.
  split.
  - apply (bool_decide_unpack _). vm_compute. exact I.
  - apply (bool_decide_unpack _). vm_compute. exact I.
  - apply (bool_decide_unpack _). vm_compute. exact I.
  - vm_compute. reflexivity.
  - apply (bool_decide_unpack _). vm_compute. exact I.
  - vm_compute. reflexivity.
Qed.

Lemma b_rival_reachable : reachable away b_rival.
Proof.
  apply deliver_reachable.
  assert (reachable away b_start) as Hs by (exists SnapMissing, ∅, b_start; split; [vm_compute; reflexivity | apply rtc_refl]).
  assert (reachable away b_connected) as Hc by (eapply reachable_step; [exact Hs | apply step_transport]).
  eapply reachable_step; [eapply reachable_step; [exact Hc | apply step_own, (step_user away _ (holding (go! "theirs") 5000000000))] |].
  apply step_own, step_local.
Qed.

Lemma b_stormy_reachable : reachable away b_stormy.
Proof. do 3 apply fetched_reachable. apply deliver_reachable, b_rival_reachable. Qed.

Lemma turns_reachable cfg inputs a e : reachable cfg e → reachable cfg (turns cfg inputs a e).
Proof. revert e. induction inputs as [|i inputs IH]; intros e Hr; [done |]. by apply IH, turn_reachable. Qed.

(** The announcement is no news to A. *)
Lemma informed_again : alike [] (handleTransportEvent home a_informed (PeerMessage (device "B") announced.2)) a_informed.
Proof.
  split.
  - apply (bool_decide_unpack _). vm_compute. exact I.
  - apply (bool_decide_unpack _). vm_compute. exact I.
  - apply (bool_decide_unpack _). vm_compute. exact I.
  - vm_compute. reflexivity.
  - apply (bool_decide_unpack _). vm_compute. exact I.
  - vm_compute. reflexivity.
Qed.
Lemma deliver_again n e : alike [] e a_informed → alike [] (deliver home (device "B") e (snd <$> replicate n announced)) a_informed.
Proof.
  revert e. induction n as [|n IH]; intros e He; [exact He |]. cbn [replicate fmap list_fmap]. unfold deliver. cbn [foldl].
  apply IH. exact (alike_trans [] [] _ _ _ (alike_update home [] _ _ _ _ He) informed_again).
Qed.
Lemma informed_files : e_files a_informed = e_files b_stormy.
Proof. apply (bool_decide_unpack _). vm_compute. exact I. Qed.

Lemma stormy_turns inputs n :
  alike (e_sent b_stormy ++ replicate n announced) (turns away (inputs <$> seq 0 (2 * n)) 0 b_stormy) b_silent.
Proof.
  destruct stormy_settled as [Hs0 Hs1]. apply (turns_again away announced b_silent 0 stormy_back Hs0 Hs1).
  - by rewrite length_fmap, length_seq.
  - apply alike_silent.
Qed.
End run.

(** * Properties *)

(** C8: a conflict is fought for ever by the side that won it: as long as the peer's
    record of a path is the loser of a conflict with the live record, reconciling with
    that peer keeps the record and the peer's index, and leaves work in flight for the
    path (or the queue full), so that the completion of the work reconciles again. *)
Theorem winner_never_rests `{OS, Digest, Unicode} cfg e a ps k l r lt pt :
  reachable cfg e → e_states e !! a = Some ps → e_files e !! k = Some l → ps_index ps !! k = Some r →
  Compare (Version l) (Version r) = Concurrent → same_content l r = false → winner l r = l → Deleted l = false →
  kind (resolve (Some l) (Some r) (selfShort cfg)) ≠ planNoOp →
  ¬ refused cfg (resolve (Some l) (Some r) (selfShort cfg)) →
  Forall fi_width (set_of (e_files e)) → Forall fi_width (set_of (ps_index ps)) →
  BuildTree (set_of (e_files e)) = Ok lt → BuildTree (set_of (ps_index ps)) = Ok pt →
  collision_free (preimages lt ++ preimages pt) → (∀ d, d ∈ Diff (Some lt) (Some pt) → IsTypeClash d = false) →
  let e' := reconcileWithPeer cfg e a in
  busy a e' k ∧ e_files e' !! k = Some l ∧ ∃ ps', e_states e' !! a = Some ps' ∧ ps_index ps' = ps_index ps.
Proof.
  intros Hi%reachable_inv Hps Hl Hr Hc Hsame Hw Hlive Hk Hfit Hw1 Hw2 Hlt Hpt Hcf Hclash e'.
  destruct (inv_states e Hi a ps Hps) as [_ [Hix _ _ _]]. pose proof (winner_outcome l r (selfShort cfg) Hc Hsame Hw Hk) as Hout.
  assert (∀ t, due cfg (e_files e) (ps_index ps) t → Path t ≠ k) as Hdue.
  { intros t (Hd & l' & r' & Hl' & Hr' & _ & Ho & _) Hp. rewrite Hp in Hl', Hr'. congruence. }
  split_and!; [| by eapply reconcile_keeps | by apply reconcile_index].
  destruct (differs_entry lt pt (split_on slash_c k)) as (d & Hd & HLd & HRd); [by eapply built_owf.. | done | done | |].
  { rewrite (leaf_files (e_files e) lt k), (leaf_files (ps_index ps) pt k), Hl, Hr; try done; [| apply Hi].
    intros Heq%(inj Some). apply skey_Compare in Heq. congruence. }
  rewrite (leaf_files (e_files e) lt k), Hl in HLd by (done || apply Hi). rewrite (leaf_files (ps_index ps) pt k), Hr in HRd by done.
  assert (entry_key d = k) as Hek by (unfold entry_key; rewrite HRd; by apply (Hix k r)).
  rewrite <- (BuildTree_perm_eq _ _ (snapshot_perm (e_files e))) in Hlt.
  destruct (reconcile_handles cfg e a ps lt pt d Hi Hps Hlt Hpt Hd (Hclash d Hd)) as [Hb | [(t & Ht & Hp & _) | Hf]];
    rewrite ?HLd, ?HRd, ?Hek in *; [done | done | by destruct (Hdue t Ht) | done].
Qed.

Section storm.
#[local] Existing Instance toy_digest.

Definition rival_ps : peerState := match e_states b_rival !! 0%nat with Some ps => ps | None => ps_conflict end.
Definition rival_leaf : FileInfo := default zeroFileInfo (e_files b_rival !! note).
Definition rival_other : FileInfo := default zeroFileInfo (ps_index rival_ps !! note).
Lemma record_chosen (o : option FileInfo) : bool_decide (is_Some o) = true → o = Some (default zeroFileInfo o).
Proof. intros [x ->]%bool_decide_eq_true. done. Qed.
Lemma fits_chosen p :
  match p_loser p with Some c => negb (WouldExceedMaxPath (cfg_AbsRoot away) (Path c)) | None => true end = true → ¬ refused away p.
Proof. intros Hp (c & Hc & Hm). rewrite Hc, Hm in Hp. discriminate. Qed.

Lemma winner_never_rests_witness :
  ModTimeNS rival_leaf = 5000000000 ∧
  busy 0 (reconcileWithPeer away b_rival 0) note ∧ e_files (reconcileWithPeer away b_rival 0) !! note = Some rival_leaf.
Proof.
  split; [vm_compute; reflexivity |].
  destruct (winner_never_rests away b_rival 0 rival_ps note rival_leaf rival_other
    (tree_of (set_of (e_files b_rival))) (tree_of (set_of (ps_index rival_ps)))) as (H1 & H2 & _).
  - exact b_rival_reachable.
  - apply state_chosen. vm_compute. reflexivity.
  - apply record_chosen. vm_compute. reflexivity.
  - apply record_chosen. vm_compute. reflexivity.
  - vm_compute. reflexivity.
  - vm_compute. reflexivity.
  - apply (bool_decide_unpack _). vm_compute. exact I.
  - vm_compute. reflexivity.
  - vm_compute. discriminate.
  - apply fits_chosen. vm_compute. reflexivity.
  - apply (bool_decide_unpack _). vm_compute. exact I.
  - apply (bool_decide_unpack _). vm_compute. exact I.
  - apply tree_chosen. vm_compute. reflexivity.
  - apply tree_chosen. vm_compute. reflexivity.
  - apply (bool_decide_unpack _). vm_compute. exact I.
  - rewrite <- Forall_forall. apply (bool_decide_unpack _). vm_compute. exact I.
  - split; [exact H1 | exact H2].
Defined.

(** C9: a conflict never comes to rest on the side that won it, and never stops
    talking: there is a reachable engine, whose files and disk are what they should
    be after a conflict, from which every two turns of the puller and the loop,
    whatever the network yields, announce the same copy again and lead back to the
    same files, disk and queue; the other device, which has it, answers none of the
    announcements and is not changed by them. *)
Theorem conflict_storm (inputs : nat → bytes * Z * Yield) n :
  let e := turns away (inputs <$> seq 0 (2 * n)) 0 b_stormy in
  reachable away e ∧ e_sent e = e_sent b_stormy ++ replicate n announced ∧
  e_files e = e_files b_stormy ∧ e_states e = e_states b_stormy ∧ e_disk e = e_disk b_stormy ∧
  let a := deliver home (device "B") a_informed (snd <$> replicate n announced) in
  e_files a = e_files e ∧ e_states a = e_states a_informed ∧ e_disk a = e_disk a_informed ∧ e_sent a = e_sent a_informed.
Proof.
  intros e. destruct (alike_fields _ _ _ (stormy_turns inputs n)) as (Hl & Hf & Hst & Hd). fold e in Hf, Hst, Hd, Hl.
  split_and!; [apply turns_reachable, b_stormy_reachable | exact Hl | exact Hf | exact Hst | exact Hd |].
  destruct (deliver_again n a_informed (alike_refl a_informed)) as [Haf _ Hast _ Had Hal]. intros a.
  split_and!; [rewrite Hf; etrans; [exact Haf | exact informed_files] | exact Hast | exact Had | exact Hal].
Qed.
End storm.
