(* ===== verification/Peace.v ===== *)
(** * Peace: two sets of records without a conflict

    Where no path has been changed on both sides, the resolver only does nothing or
    installs, and every path has a [goal]: what its record is once its verdict has
    been carried out. Any set [between] the set one had and the goals forms a tree
    with the peer's paths, the diff finds exactly the paths still open, and a path
    whose record is its goal is open no more. *)
From S2P Require Import Prelude Bytes VersionVector Framing Messages Windows Pathnorm Hashing.
From S2P Require Import FileInfo Tree Oracle Differ Conflict Scanner Disk Transfer Replica Engine.
From S2P Require Import Story Invariant Reconcile Progress Work Converge.

(** Two records of a path are not in conflict: one is causally newer, or they have
    the same content. *)
Definition at_peace (l r : FileInfo) : Prop :=
  Compare (Version l) (Version r) = Equal ∨ Compare (Version l) (Version r) = Concurrent → same_content l r = true.

Lemma plan_install_inj x y : plan_install x = plan_install y → x = y.
Proof. intros Heq. exact (f_equal install Heq). Qed.

Section peace.
Context `{OS, Digest, Unicode}.
Context (self : Z) (f0 idx : Files).

Definition verdict (f : Files) (k : bytes) : plan := resolve (f !! k) (idx !! k) self.
Definition open (f : Files) (k : bytes) : Prop := kind (verdict f k) ≠ planNoOp.
Definition goal (k : bytes) : option FileInfo := outcome (f0 !! k) (verdict f0 k).

(** The record of a path: the one had, the goal, or none when the goal is a
    tombstone that has been collected. *)
Definition stage (k : bytes) (x : option FileInfo) : Prop :=
  x = f0 !! k ∨ x = goal k ∨
  (x = None ∧ (∃ t, goal k = Some t ∧ Deleted t = true) ∧ ∀ r, idx !! k = Some r → Deleted r = true).
Definition between (f : Files) : Prop := ∀ k, stage k (f !! k).

Definition known (k : bytes) : Prop := is_Some (f0 !! k) ∨ is_Some (idx !! k).

Record peace : Prop := mkPeace {
  pc_keyed : keyed f0 ∧ keyed idx;
  pc_canonical k x : f0 !! k = Some x ∨ idx !! k = Some x → canonical (Version x);
  pc_pairs k l r : f0 !! k = Some l → idx !! k = Some r → at_peace l r;
  pc_paths k : known k → path_ok k;
  pc_apart k1 k2 : known k1 → known k2 → k1 ≠ k2 → ¬ split_on slash_c k1 `prefix_of` split_on slash_c k2;
  pc_width k x : f0 !! k = Some x ∨ idx !! k = Some x ∨ goal k = Some x → fi_width x;
  pc_hash f t pt : keyed f → between f → BuildTree (set_of f) = Ok t → BuildTree (set_of idx) = Ok pt →
    collision_free (preimages t ++ preimages pt)
}.

#[export] Instance open_dec f k : Decision (open f k).
Proof. unfold open. apply _. Defined.

(** ** Verdicts *)

Context (Hp : peace).

(** The verdict on the records had: nothing to do, or the goal to install. *)
Lemma verdict_cases k :
  (kind (verdict f0 k) = planNoOp ∧ goal k = f0 !! k) ∨
  ∃ r x, idx !! k = Some r ∧ verdict f0 k = plan_install x ∧ goal k = Some x ∧ Deleted x = Deleted r.
Proof.
  unfold goal, verdict. destruct (idx !! k) as [r |] eqn:Hr; [| left; unfold resolve; by destruct (f0 !! k)].
  destruct (f0 !! k) as [l |] eqn:Hl.
  - pose proof (pc_pairs Hp k l r Hl Hr) as Hpeace. unfold at_peace in Hpeace. unfold resolve.
    destruct (Compare (Version l) (Version r)) eqn:Hc.
    + rewrite Hpeace by auto. by left.
    + by left.
    + right. eexists r, _. done.
    + rewrite Hpeace by auto. right. eexists r, _. split_and!; [done.. |]. cbn.
      unfold same_content in Hpeace. specialize (Hpeace ltac:(auto)).
      apply andb_true_iff in Hpeace as [_ Hd%bool_decide_eq_true]. done.
  - unfold resolve. destruct (Deleted r) eqn:Hd; [by left |]. right. exists r, r. auto.
Qed.

Lemma goal_path k x : goal k = Some x → Path x = k.
Proof.
  destruct (pc_keyed Hp) as [Hkf Hki]. intros Hg.
  destruct (verdict_cases k) as [[_ Heq] | (r & x' & Hr & Hv & Hg' & _)]; [rewrite Heq in Hg; by apply Hkf |].
  assert (x' = x) as -> by congruence. unfold verdict in Hv. rewrite Hr in Hv.
  pose proof (Hki k r Hr) as Hpr. simpl in Hpr. destruct (f0 !! k) as [l |] eqn:Hl.
  - pose proof (Hkf k l Hl) as Hpl. simpl in Hpl. unfold resolve in Hv.
    pose proof (conflictPlan_no_install l r) as Hno.
    destruct (Compare (Version l) (Version r)); [destruct (same_content l r) | | | destruct (same_content l r)];
      first [discriminate Hv | by rewrite Hv in Hno | by apply plan_install_inj in Hv as <-].
  - unfold resolve in Hv. destruct (Deleted r); [discriminate Hv | by apply plan_install_inj in Hv as <-].
Qed.

(** Once the goal is on record, there is nothing left to do. *)
Lemma goal_settled k : kind (resolve (goal k) (idx !! k) self) = planNoOp.
Proof.
  destruct (verdict_cases k) as [[Hv ->] | (r & x & Hr & Hv & Hg & _)]; [done |].
  unfold verdict in Hv. rewrite Hg, Hr. rewrite Hr in Hv.
  pose proof (pc_canonical Hp k r ltac:(auto)) as Hcr. destruct (f0 !! k) as [l |] eqn:Hl.
  - pose proof (pc_canonical Hp k l ltac:(auto)) as Hcl. pose proof (pc_pairs Hp k l r Hl Hr) as Hpeace.
    unfold at_peace in Hpeace. unfold resolve in Hv. destruct (Compare (Version l) (Version r)) eqn:Hc.
    + rewrite Hpeace in Hv by auto. done.
    + done.
    + apply Compare_DominatedBy in Hc as [Hle _]; [| done..]. apply plan_install_inj in Hv as <-.
      rewrite Merge_absorb, set_version_id by done. by rewrite resolve_settled.
    + specialize (Hpeace ltac:(auto)). rewrite Hpeace in Hv. apply plan_install_inj in Hv as <-. unfold resolve. cbn [Version set_version].
      assert (∀ id, vget (Version r) id ≤ vget (Merge (Version l) (Version r)) id) as Hle.
      { intros id. rewrite vget_Merge by done. lia. }
      destruct (decide (Merge (Version l) (Version r) = Version r)) as [-> | Hne].
      * rewrite (proj2 (Compare_Equal _ _ Hcr Hcr)) by done.
        assert (same_content (set_version l (Version r)) r = true) as -> by exact Hpeace. done.
      * rewrite (proj2 (Compare_Dominates _ _ (Merge_canonical _ _ Hcl Hcr) Hcr)) by done. done.
  - unfold resolve in Hv. destruct (Deleted r); [done |]. apply plan_install_inj in Hv as <-. by rewrite resolve_settled.
Qed.

Lemma collected_settled k : (∀ r, idx !! k = Some r → Deleted r = true) → kind (resolve None (idx !! k) self) = planNoOp.
Proof. intros Hr. destruct (idx !! k) as [r |]; [| done]. unfold resolve. by rewrite Hr. Qed.

(** A path still open has the record had, and the peer's verdict installs its goal. *)
Lemma open_stage f k :
  between f → open f k →
  f !! k = f0 !! k ∧ ∃ r x, idx !! k = Some r ∧ verdict f k = plan_install x ∧ goal k = Some x ∧ Deleted x = Deleted r ∧ Path x = k.
Proof.
  intros Hb Ho. unfold open in Ho. assert (f !! k = f0 !! k) as Hk.
  { unfold verdict in Ho. destruct (Hb k) as [Hk | [Hk | (Hk & _ & Hr)]]; [done | |]; rewrite Hk in Ho.
    - by rewrite goal_settled in Ho.
    - by rewrite collected_settled in Ho. }
  split; [done |]. assert (verdict f k = verdict f0 k) as Hv by (unfold verdict; by rewrite Hk).
  rewrite Hv in Ho |- *. destruct (verdict_cases k) as [[Hn _] | (r & x & Hr & Hi & Hg & Hd)]; [done |].
  exists r, x. split_and!; try done. by apply goal_path.
Qed.

(** No verdict is a conflict. *)
Lemma never_conflict f k : between f → kind (verdict f k) ≠ planConflict.
Proof.
  intros Hb Hc. destruct (open_stage f k Hb) as (_ & r & x & _ & Hv & _); [unfold open; by rewrite Hc | by rewrite Hv in Hc].
Qed.

(** A path that is not open is settled, whatever it was. *)
Lemma closed_stage f k :
  between f → ¬ open f k → f !! k = goal k ∨ (f !! k = None ∧ ∃ t, goal k = Some t ∧ Deleted t = true).
Proof.
  intros Hb Ho. destruct (Hb k) as [Hk | [Hk | (Hk & Ht & _)]]; [left | by left | by right].
  destruct (verdict_cases k) as [[_ ->] | (r & x & _ & Hv & _)]; [done |]. destruct Ho.
  unfold open. assert (verdict f k = verdict f0 k) as -> by (unfold verdict; by rewrite Hk). by rewrite Hv.
Qed.

Lemma between_start : between f0.
Proof. intros k. by left. Qed.
Lemma between_install f k x : between f → goal k = Some x → between (<[k := x]> f).
Proof.
  intros Hb Hg k'. destruct (decide (k = k')) as [<- | Hne]; [rewrite lookup_insert_eq | rewrite lookup_insert_ne by done; apply Hb].
  right. left. done.
Qed.
Lemma open_install f k x k' : between f → goal k = Some x → open (<[k := x]> f) k' → k' ≠ k ∧ open f k'.
Proof.
  intros Hb Hg Ho. unfold open, verdict in *. destruct (decide (k = k')) as [<- | Hne].
  - rewrite lookup_insert_eq, <- Hg, goal_settled in Ho. done.
  - rewrite lookup_insert_ne in Ho by done. auto.
Qed.

(** What the peer has acknowledged is a tombstone whose goal is one too. *)
Lemma collected_stage f k t :
  between f → f !! k = Some t → Path t = k → Deleted t = true → canGC t idx = true →
  (∃ g, goal k = Some g ∧ Deleted g = true) ∧ ∀ r, idx !! k = Some r → Deleted r = true.
Proof.
  intros Hb Hk Hpt Hd Hgc. unfold canGC in Hgc. rewrite Hpt in Hgc. destruct (idx !! k) as [pf |] eqn:Hpf; [| done].
  destruct (Deleted pf) eqn:Hdp; [| done]. split; [| intros r Hr; congruence].
  destruct (Hb k) as [Hs | [Hs | (Hs & _)]]; [| exists t; split; congruence | congruence].
  destruct (verdict_cases k) as [[_ Hg] | (r & x & Hr & _ & Hg & Hdx)]; [exists t; split; congruence | exists x; split; congruence].
Qed.

(** ** Trees *)

Lemma between_known f k : between f → is_Some (f !! k) → known k.
Proof.
  intros Hb [x Hx]. unfold known. destruct (Hb k) as [Hs | [Hs | (Hs & _)]]; rewrite Hx in Hs; [left; eauto | | done].
  destruct (verdict_cases k) as [[_ Hg] | (r & y & Hr & _)]; [left; rewrite <- Hg; eauto | right; eauto].
Qed.

Lemma known_pairs l : Forall known l → NoDup l → ForallOrdPairs (λ a b, apart (split_on slash_c a) (split_on slash_c b)) l.
Proof.
  intros Hk Hn. induction l as [|k l IH]; [constructor |].
  apply Forall_cons in Hk as [Hk Hl]. apply NoDup_cons in Hn as [Hni Hn]. constructor; [| by apply IH].
  rewrite Forall_forall in Hl |- *. intros k' Hk'. assert (k ≠ k') as Hne by (intros ->; done).
  split; apply (pc_apart Hp); auto.
Qed.
Lemma known_valid f : keyed f → (∀ k, is_Some (f !! k) → known k) → ∃ t, BuildTree (set_of f) = Ok t.
Proof.
  intros Hk Hf. pose proof (BuildTree_spec (set_of f)) as Hs. destruct (BuildTree (set_of f)) as [t | err]; [eauto |].
  destruct Hs as [_ Hn]. destruct Hn. apply valid_set_paths.
  assert (Forall known (Path <$> set_of f)) as Hall.
  { rewrite keyed_paths, Forall_fmap, Forall_forall by done. intros [k x] Hin%elem_of_map_to_list. apply Hf. cbn. eauto. }
  split; [| by apply known_pairs, NoDup_paths].
  eapply Forall_impl; [exact Hall |]. intros k Hkn. by apply (pc_paths Hp).
Qed.
Lemma trees f : keyed f → between f → ∃ t pt, BuildTree (set_of f) = Ok t ∧ BuildTree (set_of idx) = Ok pt ∧
  owf (Some t) ∧ owf (Some pt) ∧ collision_free (preimages t ++ preimages pt).
Proof.
  intros Hk Hb. destruct (pc_keyed Hp) as [Hk0 Hki].
  destruct (known_valid f Hk (λ k, between_known f k Hb)) as [t Ht].
  destruct (known_valid idx Hki (λ k Hs, or_intror Hs)) as [pt Hpt].
  assert (Forall fi_width (set_of f)) as Hw.
  { rewrite Forall_forall. intros x [k Hx]%elem_of_set_of. apply (pc_width Hp k).
    destruct (Hb k) as [Hs | [Hs | (Hs & _)]]; rewrite Hx in Hs; auto. done. }
  assert (Forall fi_width (set_of idx)) as Hwi.
  { rewrite Forall_forall. intros x [k Hx]%elem_of_set_of. apply (pc_width Hp k). auto. }
  exists t, pt. split_and!; [done | done | by eapply built_owf | by eapply built_owf | exact (pc_hash Hp f t pt Hk Hb Ht Hpt)].
Qed.

(** A directory found walking down a tree holds a leaf further down. *)
Lemma walk_nonempty n k p c : wf_tree n → walk n (k :: p) = Some c → wf_tree c ∧ nonempty c.
Proof.
  revert n k. induction p as [|k' p IH]; intros n k Hwf; cbn [walk]; destruct (child n k) as [c' |] eqn:Hc; try done;
    destruct (wf_child _ _ _ _ _ Hwf Hc) as (Hwf' & _ & _ & Hne); cbn [mbind option_bind].
  - intros [= <-]. done.
  - by apply IH.
Qed.
Lemma dir_has_leaf n p : wf_tree n → p ≠ [] → is_dir_at (walk n p) = true → ∃ k q, is_Some (leaf_at n (p ++ k :: q)).
Proof.
  intros Hwf Hne Hd. destruct p as [|k0 p]; [done |]. destruct (walk n (k0 :: p)) as [c |] eqn:Hw; [| done]. cbn in Hd.
  destruct (walk_nonempty n k0 p c Hwf Hw) as [Hwfc Hnec].
  destruct (wf_has_leaf _ _ c Hwfc Hnec) as (q & fi & Hq). destruct q as [|k q].
  { rewrite leaf_at_nil in Hq. by destruct c. }
  exists k, q. unfold leaf_at in *. rewrite walk_app, Hw. cbn [mbind option_bind]. rewrite Hq. eauto.
Qed.

Context (f : Files) (t pt : Node).
Context (Hk : keyed f) (Hb : between f) (Ht : BuildTree (set_of f) = Ok t) (Hpt : BuildTree (set_of idx) = Ok pt).

Lemma leaf_known p : is_Some (leaf_at t p) ∨ is_Some (leaf_at pt p) → ∃ k, known k ∧ split_on slash_c k = p.
Proof.
  intros [[x Hx] | [x Hx]].
  - apply (leaf_at_files f t p x Hk Ht) in Hx as [Hx <-]. exists (Path x). split; [| done]. apply (between_known f); eauto.
  - apply (leaf_at_files idx pt p x (proj2 (pc_keyed Hp)) Hpt) in Hx as [Hx <-]. exists (Path x). split; [right; eauto | done].
Qed.
Lemma leaf_not_above p k q : is_Some (leaf_at t p) ∨ is_Some (leaf_at pt p) →
  is_Some (leaf_at t (p ++ k :: q)) ∨ is_Some (leaf_at pt (p ++ k :: q)) → False.
Proof.
  intros Hu Hv. apply leaf_known in Hu as (k1 & Hk1 & Hs1), Hv as (k2 & Hk2 & Hs2).
  apply (pc_apart Hp k1 k2 Hk1 Hk2); [| rewrite Hs1, Hs2; by exists (k :: q)].
  intros ->. rewrite Hs1 in Hs2. apply (f_equal length) in Hs2. rewrite length_app in Hs2. cbn in Hs2. lia.
Qed.

Lemma root_no_leaf : ¬ (is_Some (leaf_at t []) ∨ is_Some (leaf_at pt [])).
Proof.
  pose proof (BuildTree_spec (set_of f)) as Hs. pose proof (BuildTree_spec (set_of idx)) as Hi. rewrite Ht in Hs. rewrite Hpt in Hi.
  destruct Hs as (_ & _ & Hd & _), Hi as (_ & _ & Hdi & _). rewrite !leaf_at_nil. destruct t, pt; try done. by intros [[] | []].
Qed.

(** The entries of the diff: both records of a path that is known to both or
    either, and never a file against a directory. *)
Lemma peace_entry d : d ∈ Diff (Some t) (Some pt) →
  IsTypeClash d = false ∧ ∀ r, Remote d = Some r → Local d = f !! Path r ∧ idx !! Path r = Some r.
Proof.
  intros Hd. pose proof Hd as Hd'. destruct (trees f Hk Hb) as (t' & pt' & Ht' & Hpt' & Ho & Hop & Hcf).
  assert (t' = t) as -> by (rewrite Ht in Ht'; by injection Ht'). assert (pt' = pt) as -> by (rewrite Hpt in Hpt'; by injection Hpt').
  apply (Diff_spec t pt Ho Hop Hcf) in Hd as (p & -> & Hdiff & _). split.
  - assert (is_Some (leaf_at t p) ∨ is_Some (leaf_at pt p)) as Hleaf.
    { cbn in Hdiff. destruct (leaf_at t p); [left; eauto |]. destruct (leaf_at pt p); [right; eauto | done]. }
    assert (p ≠ []) as Hne by (intros ->; by apply root_no_leaf in Hleaf).
    unfold IsTypeClash, entry_at. cbn [LocalDir RemoteDir]. apply orb_false_iff.
    split; apply not_true_is_false; intros Hdir; apply dir_has_leaf in Hdir as (k & q & Hq); try done;
      [| apply Ho | | apply Hop]; apply (leaf_not_above p k q); auto.
  - intros r Hr. cbn in Hr |- *. change (leaf_at pt p = Some r) in Hr.
    pose proof Hr as Hr'. apply (leaf_at_files idx pt p r (proj2 (pc_keyed Hp)) Hpt) in Hr' as [Hi Hs]. split; [| done].
    change (leaf_at t p = f !! Path r). rewrite <- Hs. by apply leaf_files.
Qed.

(** Every path still open has its entry. *)
Lemma open_entry k : open f k → ∃ d, d ∈ Diff (Some t) (Some pt) ∧ Local d = f !! k ∧ Remote d = idx !! k.
Proof.
  intros Ho. destruct (trees f Hk Hb) as (t' & pt' & Ht' & Hpt' & How & Hop & Hcf).
  assert (t' = t) as -> by (rewrite Ht in Ht'; by injection Ht'). assert (pt' = pt) as -> by (rewrite Hpt in Hpt'; by injection Hpt').
  destruct (differs_entry t pt (split_on slash_c k)) as (d & Hd & HLd & HRd); [done | done | done | intros d Hd; by apply peace_entry | |].
  - rewrite (leaf_files f t k), (leaf_files idx pt k) by (done || apply (pc_keyed Hp)). intros Heq. apply Ho. unfold verdict.
    destruct (f !! k) as [x |] eqn:Hx, (idx !! k) as [y |] eqn:Hy; try done.
    apply (inj Some) in Heq. rewrite resolve_settled; [done | | by apply skey_vkey in Heq as [? _]].
    apply skey_vkey in Heq as [Heq _]. unfold vkey in Heq. injection Heq as _ _ ->. apply (pc_canonical Hp k). auto.
  - exists d. rewrite (leaf_files f t k) in HLd by done. rewrite (leaf_files idx pt k) in HRd by (done || apply (pc_keyed Hp)). done.
Qed.
End peace.
