(* ===== verification/Room.v ===== *)
(** * Room: installing files whose paths are apart

    A file can be installed where there is no directory in its place and nothing but
    directories above it. If the content is what was announced then the install
    succeeds, and it takes no room from, and no content off, a path that is apart. *)
From S2P Require Import Prelude Bytes VersionVector Framing Messages Windows Pathnorm Hashing.
From S2P Require Import FileInfo Tree Oracle Conflict Scanner Disk Transfer.

Section room.
Context `{OS, Digest, Unicode}.

Definition has_content (d : Disk) (leaf : FileInfo) : Prop :=
  ∃ c m ts, d !! Path leaf = Some (EFile c m ts) ∧ sum256 c = ContentHash leaf.

(** The network yields the content the leaf announces. *)
Definition serves (net : list bytes * option TransferError) (leaf : FileInfo) : Prop :=
  net.2 = None ∧ sum256 (concat net.1) = ContentHash leaf.

(** A file can be put at the path: there is none or one to replace, and no ancestor
    is anything but a directory. *)
Definition room_for (d : Disk) (k : bytes) : Prop :=
  (d !! k = None ∨ ∃ c m ts, d !! k = Some (EFile c m ts)) ∧ ∀ p, p ∈ parents k → d !! p = None ∨ d !! p = Some EDir.

(** What installing at [dst] changes elsewhere. *)
Definition spares (dst : bytes) (d d' : Disk) : Prop :=
  ∀ k, k ≠ dst → d' !! k = d !! k ∨ (k ∈ parents dst ∧ d !! k = None ∧ d' !! k = Some EDir).

Lemma MkdirAll_room d ps : (∀ p, p ∈ ps → d !! p = None ∨ d !! p = Some EDir) → (MkdirAll d ps).2 = true.
Proof.
  revert d. induction ps as [|p ps IH]; intros d Hps; [done |]. cbn [MkdirAll].
  assert (∀ q, q ∈ ps → d !! q = None ∨ d !! q = Some EDir) as Hd by (intros q Hq; apply Hps; by right).
  destruct (Hps p ltac:(left)) as [-> | ->]; apply IH; [| done].
  intros q Hq. destruct (decide (p = q)) as [<- | Hne]; [right; apply lookup_insert_eq | rewrite lookup_insert_ne by done; auto].
Qed.

Lemma awv_room d leaf tmp fill now :
  room_for d (Path leaf) → fresh_temp d (Path leaf) tmp → serves fill leaf →
  ∃ states d', atomicWriteVerify d (Path leaf) tmp (ContentHash leaf) fill now = (states, d', None) ∧
    has_content d' leaf ∧ spares (Path leaf) d d'.
Proof.
  intros [Hk Hpar] (Hft & Hfne & Hfp) [Hf Hsum]. rewrite awv_mkdir. pose proof (MkdirAll_room d _ Hpar) as Hmk.
  destruct (MkdirAll d (parents (Path leaf))) as [d1 ok] eqn:Hm. cbn [snd] in Hmk. subst ok. cbn [negb].
  assert (d1 !! Path leaf = d !! Path leaf) as Hd1 by (eapply MkdirAll_keeps; [done | right; apply not_own_parent]).
  assert (d1 !! tmp = None) as Htmp by (rewrite <- Hft; eapply MkdirAll_keeps; [done | by right]).
  rewrite decide_True. 2:{ split_and!; [done | done |]. rewrite Hd1. by destruct Hk as [-> | (c & m & ts & ->)]. }
  eexists _, _. split; [reflexivity |]. split; [exists (concat fill.1), temp_mode, now; by rewrite lookup_insert_eq |].
  intros k Hne. rewrite lookup_insert_ne by done. destruct (decide (k = tmp)) as [-> | Hnt].
  - left. by rewrite lookup_delete_eq.
  - rewrite lookup_delete_ne by done. by apply (MkdirAll_frame d (parents (Path leaf)) d1 true).
Qed.

(** A copy that fails leaves the room it found. *)
Lemma awv_failed d leaf tmp chunks err now :
  room_for d (Path leaf) → fresh_temp d (Path leaf) tmp →
  ∃ states d', atomicWriteVerify d (Path leaf) tmp (ContentHash leaf) (chunks, Some err) now = (states, d', Some err) ∧
    room_for d' (Path leaf) ∧ fresh_temp d' (Path leaf) tmp ∧ spares (Path leaf) d d'.
Proof.
  intros [Hk Hpar] Htmp. destruct (atomicWriteVerify d (Path leaf) tmp (ContentHash leaf) (chunks, Some err) now) as [[st d'] r] eqn:Hawv.
  pose proof (fresh_temp_after _ _ _ _ _ _ _ _ _ Hawv Htmp) as Htmp'.
  destruct (awv_states _ _ _ _ _ _ _ _ _ Hawv Htmp) as (Hst & _ & Hr).
  assert (r = Some err) as ->.
  { rewrite awv_mkdir, (surjective_pairing (MkdirAll d _)), (MkdirAll_room d _ Hpar) in Hawv. cbn [negb fst snd] in Hawv.
    rewrite decide_False in Hawv by naive_solver. by injection Hawv. }
  destruct (Hst d') as [_ Hframe]; [apply elem_of_app; right; by apply list_elem_of_singleton |].
  assert (spares (Path leaf) d d') as Hsp.
  { intros k Hne. destruct (decide (k = tmp)) as [-> | Hnt]; [| by apply Hframe]. left. destruct Htmp as [-> _], Htmp' as [-> _]. done. }
  exists st, d'. split_and!; [done | | done | done]. split; [by rewrite Hr |].
  intros q Hq. destruct (Hsp q) as [-> | (_ & _ & ->)]; [by intros ->; apply not_own_parent in Hq | auto | by right].
Qed.

Lemma materialise_room root files d leaf tmp now net :
  Type_ leaf = TypeFile → room_for d (Path leaf) → fresh_temp d (Path leaf) tmp → serves net.1 leaf →
  ∃ d', materialise root true files d leaf tmp now net = (d', MatOk) ∧ has_content d' leaf ∧ spares (Path leaf) d d'.
Proof.
  intros Ht Hroom Htmp Hnet. unfold materialise. rewrite decide_False by auto.
  case_decide as Hh.
  { exists d. split; [done |]. split; [| by left]. destruct Hroom as [[Hk | (c & m & ts & Hk)] _];
      unfold HashFile, HashFileSize, read_file in Hh; rewrite Hk in Hh; [done |]. cbn in Hh. exists c, m, ts. split; [done |]. congruence. }
  cbn [noClobberConflict]. destruct (localSource files d (ContentHash leaf) (Path leaf)) as [src |] eqn:Hsrc.
  - assert (∃ c, read_file d src = Some c ∧ sum256 c = ContentHash leaf) as (c & Hc & Hsum).
    { unfold localSource in Hsrc. destruct (list_find _ _) as [[? [? ?]] |]; [| done]. case_decide as Hf; [| done].
      injection Hsrc as ->. unfold HashFile, HashFileSize in Hf. destruct (read_file d src) as [c |]; [| done]. cbn in Hf.
      exists c. split; [done | congruence]. }
    rewrite Hc. destruct (net.2) as [err |].
    + destruct (awv_failed d leaf tmp [c] err now Hroom Htmp) as (st & d1 & -> & Hroom1 & Htmp1 & Hsp1).
      destruct (awv_room d1 leaf tmp net.1 now Hroom1 Htmp1 Hnet) as (st2 & d' & -> & Hcont & Hsp2). exists d'. split_and!; [done | done |].
      intros k Hne. destruct (Hsp2 k Hne) as [-> | (Hin & Hn & ->)]; [by apply Hsp1 |].
      destruct (Hsp1 k Hne) as [Heq | (_ & Hn1 & _)]; right; rewrite <- ?Heq; done.
    + destruct (awv_room d leaf tmp ([c], None) now Hroom Htmp) as (st & d' & -> & Hgood).
      { split; [done |]. cbn. by rewrite app_nil_r. }
      exists d'. done.
  - destruct (awv_room d leaf tmp net.1 now Hroom Htmp Hnet) as (st & d' & -> & Hgood). exists d'. done.
Qed.

Lemma Remove_spares d k p : Remove d p !! k = d !! k ∨ Remove d p !! k = None.
Proof.
  destruct (decide (k = p)) as [-> | Hne]; [| left; by apply Remove_frame]. unfold Remove.
  destruct (d !! p) as [[] |] eqn:Hd; try (right; apply lookup_delete_eq); [| by left].
  destruct (existsb _ _); [by left | right; apply lookup_delete_eq].
Qed.
Lemma room_Remove d p k : room_for d k → room_for (Remove d p) k.
Proof.
  intros [Hk Hpar]. split.
  - destruct (Remove_spares d k p) as [-> | ->]; [done | by left].
  - intros q Hq. destruct (Remove_spares d q p) as [-> | ->]; [auto | by left].
Qed.

Lemma parents_prefix p q : q ∈ parents p → split_on slash_c q `prefix_of` split_on slash_c p.
Proof.
  unfold parents. rewrite list_elem_of_fmap. intros (n & -> & Hn%elem_of_seq).
  rewrite split_join; [exists (drop n (split_on slash_c p)); by rewrite take_drop | |].
  - intros He. apply (f_equal length) in He. rewrite length_take in He. cbn in He. lia.
  - apply Forall_take, split_on_no_sep.
Qed.

(** Installing one file keeps the room for another whose path is apart. *)
Lemma room_spares dst d d' leaf k :
  spares dst d d' → has_content d' leaf → Path leaf = dst →
  (k ≠ dst → ¬ split_on slash_c k `prefix_of` split_on slash_c dst ∧ ¬ split_on slash_c dst `prefix_of` split_on slash_c k) →
  room_for d k → room_for d' k.
Proof.
  intros Hs (c & m & ts & Hc & _) Hp Hap [Hk Hpar]. rewrite Hp in Hc. destruct (decide (k = dst)) as [-> | Hne].
  { split; [right; eauto |]. intros q Hq. assert (q ≠ dst) as Hqd by (intros ->; by apply not_own_parent in Hq).
    destruct (Hs q Hqd) as [-> | (_ & _ & ->)]; [auto | by right]. }
  destruct (Hap Hne) as [Hap1 Hap2]. split.
  - destruct (Hs k Hne) as [-> | (Hin & _)]; [done |]. destruct Hap1. by apply parents_prefix.
  - intros q Hq. destruct (decide (q = dst)) as [-> | Hqd]; [destruct Hap2; by apply parents_prefix |].
    destruct (Hs q Hqd) as [-> | (_ & _ & ->)]; [auto | by right].
Qed.
End room.
