(* ===== verification/Catchup.v ===== *)
(** * Catchup: the state of a device that is catching up

    The invariant [syncing] of a device whose puller and loop take turns at what a
    peer it has no conflict with has advertised, and what keeps it: reconciling only
    queues goals and deletes ([mild]), a turn of the puller installs a goal, a turn
    of the loop records one. Every turn lowers [measure], and while something is
    open a turn can be taken. *)
From S2P Require Import Prelude Bytes VersionVector Framing Messages Windows Pathnorm Hashing.
From S2P Require Import FileInfo Tree Oracle Differ Conflict Scanner Disk Transfer Replica Engine.
From S2P Require Import Story Invariant Reconcile Progress Work Converge Peace Room.

(** ** The state of a device that is catching up *)

Section sync.
Context `{OS, Digest, Unicode}.
Context (cfg : Config) (id : DeviceID) (a : nat) (f0 idx : Files) (d0 : Disk).
Notation goal := (goal (selfShort cfg) f0 idx).
Notation open := (open (selfShort cfg) idx).
Notation between := (between (selfShort cfg) f0 idx).

(** A file to be installed. *)
Definition wanted (k : bytes) (x : FileInfo) : Prop := open f0 k ∧ goal k = Some x ∧ Deleted x = false.

(** A file that is not to be touched: its record stays the one had. *)
Definition stays (k : bytes) : Prop := ∃ x, f0 !! k = Some x ∧ goal k = Some x ∧ Deleted x = false.

(** Work may be under way for a path while it is open; if it is to be deleted, while
    the record is live. *)
Definition pendable (f : Files) (k : bytes) : Prop :=
  open f k ∧ ∀ g, goal k = Some g → Deleted g = true → ∃ l, f !! k = Some l ∧ Deleted l = false.

(** A task installs one goal, or a rename's two; a completion reports a goal. *)
Definition task_good (t : fetchTask) : Prop :=
  goal (Path (ft_leaf t)) = Some (ft_leaf t) ∧
  match ft_preserve t with
  | None => Deleted (ft_leaf t) = false ∧ ft_advertise t = false
  | Some c => Deleted (ft_leaf t) = true ∧ goal (Path c) = Some c ∧ Deleted c = false ∧ ft_preserveAdvertise t = false
  end.
Definition completion_good (d : Disk) (c : completion) : Prop :=
  goal (Path (cp_leaf c)) = Some (cp_leaf c) ∧ cp_peer c = Short id ∧ cp_ok c = true ∧ cp_conflictAbort c = false ∧
  cp_advertise c = false ∧ cp_applyTomb c = Deleted (cp_leaf c) ∧ (Deleted (cp_leaf c) = false → has_content d (cp_leaf c)).

Definition pending_keys (cs : list completion) (ps : peerState) : list bytes :=
  work_keys ps ++ ((λ c, Path (cp_leaf c)) <$> cs).

Record ps_good (f : Files) (cs : list completion) (ps : peerState) : Prop := mkPsGood {
  pg_index : ps_index ps = idx;
  pg_running : ps_running ps = None;
  pg_tasks : Forall task_good (ps_fetchQ ps);
  pg_once : NoDup (pending_keys cs ps);
  pg_inflight k : k ∈ ps_inflight ps ↔ k ∈ pending_keys cs ps;
  pg_pendable k : k ∈ pending_keys cs ps → pendable f k
}.

Record syncing (e : Engine) : Prop := mkSyncing {
  sy_inv : inv e;
  sy_peer : e_peers e !! id = Some a;
  sy_shorts : distinct_shorts e;
  sy_between : between (e_files e);
  sy_state : ∃ ps, e_states e !! a = Some ps ∧ ps_good (e_files e) (e_completions e) ps;
  sy_completions : Forall (completion_good (e_disk e)) (e_completions e);
  sy_room k x : wanted k x → room_for (e_disk e) k;
  sy_placed k x : wanted k x → e_files e !! k = Some x → has_content (e_disk e) x;
  sy_kept k c m ts : stays k → d0 !! k = Some (EFile c m ts) → e_disk e !! k = Some (EFile c m ts)
}.

Context (Hp : peace (selfShort cfg) f0 idx) (Htype : ∀ k x, wanted k x → Type_ x = TypeFile).

Lemma work_keys_idle ps : ps_running ps = None → work_keys ps = concat (task_keys <$> ps_fetchQ ps).
Proof. intros Hr. unfold work_keys. rewrite Hr. cbn. by rewrite app_nil_r. Qed.

Lemma ps_good_enqueue (f : Files) (cs : list completion) (ps : peerState) (task : fetchTask) (keys : gset bytes) :
  ps_good f cs ps → task_good task → NoDup (task_keys task) → (∀ k, k ∈ keys ↔ k ∈ task_keys task) →
  (∀ k, k ∈ task_keys task → k ∉ ps_inflight ps ∧ pendable f k) →
  ps_good f cs (ps_set_fetch ps (keys ∪ ps_inflight ps) (ps_fetchQ ps ++ [task]) (ps_running ps)).
Proof.
  intros [Hix Hrun Hts Hn Hin Hpd] Ht Hnt Hkeys Hnew.
  set (ps' := ps_set_fetch _ _ _ _).
  assert (pending_keys cs ps' ≡ₚ task_keys task ++ pending_keys cs ps) as Hperm.
  { unfold pending_keys. rewrite !work_keys_idle by done. cbn. rewrite fmap_app, concat_app. cbn. rewrite app_nil_r.
    rewrite (Permutation_app_comm (concat _) (task_keys task)). by rewrite app_assoc. }
  split; [done | done | | | |].
  - cbn. by apply Forall_app; split; [| constructor].
  - rewrite Hperm. apply NoDup_app. split_and!; [done | | done]. intros k Hk Hk'. destruct (Hnew k Hk) as [Hni _]. by apply Hni, Hin.
  - intros k. rewrite Hperm, elem_of_app, <- Hin, <- Hkeys. cbn. by rewrite elem_of_union.
  - intros k. rewrite Hperm, elem_of_app. intros [Hk | Hk]; [by apply Hnew | by apply Hpd].
Qed.

(** ** What reconciling does *)

Inductive mild (e : Engine) : Engine → Prop :=
| mild_fetch leaf : goal (Path leaf) = Some leaf → Deleted leaf = false → open (e_files e) (Path leaf) →
    mild e (enqueueFetch e a leaf false)
| mild_rename c t : goal (Path c) = Some c → Deleted c = false → open (e_files e) (Path c) →
    goal (Path t) = Some t → Deleted t = true → pendable (e_files e) (Path t) → mild e (enqueueRename e a c t)
| mild_delete t : goal (Path t) = Some t → Deleted t = true → ps_has_inflight e a (Path t) = false →
    is_Some (e_files e !! Path t) → mild e (applyTombstone cfg e t).

Lemma live_pendable f k g : open f k → goal k = Some g → Deleted g = false → pendable f k.
Proof. intros Ho Hg Hd. split; [done |]. intros g' Hg' Hd'. congruence. Qed.

Lemma syncing_upd e f :
  syncing e → inv (upd_ps e a f) → (∀ ps, ps_good (e_files e) (e_completions e) ps → ps_good (e_files e) (e_completions e) (f ps)) →
  syncing (upd_ps e a f).
Proof.
  intros [Hi Hpe Hsh Hb (ps & Hps & Hg) Hc Hr Hpl Hkp] Hi' Hf. split; try done.
  exists (f ps). split; [cbn; by rewrite lookup_alter_eq, Hps | by apply Hf].
Qed.

Lemma syncing_tombstone e t :
  syncing e → goal (Path t) = Some t → Deleted t = true → ps_has_inflight e a (Path t) = false →
  syncing (applyTombstone cfg e t).
Proof.
  intros [Hi Hpe Hsh Hb (ps & Hps & Hg) Hc Hr Hpl Hkp] Hgt Hd Hnot.
  pose proof (calm_applyTombstone cfg e t) as Hcalm. unfold calm in Hcalm. injection Hcalm as Hst Hpeers Hcs.
  unfold ps_has_inflight in Hnot. rewrite Hps in Hnot. apply bool_decide_eq_false in Hnot.
  assert (∀ k x, wanted k x → k ≠ Path t) as Hw by (intros k x (_ & Hgk & Hdk) ->; congruence).
  split.
  - by apply inv_applyTombstone.
  - by rewrite Hpeers.
  - unfold distinct_shorts. by rewrite Hpeers.
  - rewrite e_files_applyTombstone. by apply between_install.
  - exists ps. rewrite Hst, Hcs, e_files_applyTombstone. split; [done |]. destruct Hg as [? ? ? ? Hin Hpd]. split; try done.
    intros k Hk. assert (Path t ≠ k) as Hne by (intros <-; by apply Hnot, Hin).
    destruct (Hpd k Hk) as [Ho Hlive]. unfold pendable, Peace.open, Peace.verdict in *. by rewrite !lookup_insert_ne.
  - rewrite Hcs, applyTombstone_disk. eapply Forall_impl; [exact Hc |]. intros c (Hgc & ? & ? & ? & ? & ? & Hcont).
    split_and!; try done. intros Hdc. destruct (Hcont Hdc) as (x & m & ts & Hx & Hsum).
    exists x, m, ts. rewrite Remove_frame; [done |]. intros Heq. rewrite Heq in Hgc. congruence.
  - intros k x Hk. rewrite applyTombstone_disk. by eapply room_Remove, Hr.
  - intros k x Hk. rewrite e_files_applyTombstone, applyTombstone_disk, lookup_insert_ne by (apply not_eq_sym; by eapply Hw).
    intros Hx. destruct (Hpl k x Hk Hx) as (c & m & ts & Hcx & Hsum). exists c, m, ts.
    rewrite Remove_frame; [done |]. rewrite (goal_path _ _ _ Hp k x) by apply Hk. by eapply Hw.
  - intros k c m ts Hst' Hk. rewrite applyTombstone_disk, Remove_frame; [by apply Hkp |].
    intros ->. destruct Hst' as (x & _ & Hx & Hdx). congruence.
Qed.

Lemma mild_syncing e e' : mild e e' → syncing e → syncing e'.
Proof.
  intros [leaf Hg Hd Ho | c t Hgc Hdc Hoc Hgt Hdt Hpt | t Hg Hd Hn _] Hs; [| | by apply syncing_tombstone].
  - apply syncing_upd; [done | apply inv_enqueueFetch, Hs |]. intros ps Hps.
    destruct (decide _) as [? | Hni]; [done |]. case_match; [| done].
    apply ps_good_enqueue; try done; unfold task_keys; cbn; [apply NoDup_singleton | |].
    + intros k. by rewrite elem_of_singleton, list_elem_of_singleton.
    + intros k ->%list_elem_of_singleton. split; [done | by eapply live_pendable].
  - apply syncing_upd; [done | apply inv_enqueueRename, Hs |]. intros ps Hps.
    destruct (decide _) as [? | Hni]; [done |]. case_match; [| done].
    assert (Path t ≠ Path c) as Hne by (intros Heq; rewrite Heq in Hgt; congruence).
    apply ps_good_enqueue; try done; unfold task_keys; cbn.
    + apply NoDup_cons. split; [by rewrite list_elem_of_singleton | apply NoDup_singleton].
    + intros k. rewrite elem_of_union, !elem_of_singleton, elem_of_cons, list_elem_of_singleton. tauto.
    + intros k [-> | ->%list_elem_of_singleton]%elem_of_cons; (split; [tauto |]); [done | by eapply live_pendable].
Qed.
Lemma milds_syncing e e' : rtc mild e e' → syncing e → syncing e'.
Proof. induction 1; eauto using mild_syncing. Qed.

(** ** Collection *)

Lemma gc_removed e k :
  e_files (gcTombstones e) !! k = e_files e !! k ∨
  (e_files (gcTombstones e) !! k = None ∧ ∃ t, e_files e !! k = Some t ∧ collectable (peer_indexes e) t = true).
Proof.
  destruct (gc_files e k) as [Hk | Hk]; [by left |]. destruct (e_files e !! k) as [t |] eqn:Ht; [right | by left].
  split; [done |]. exists t. split; [done |]. unfold gcTombstones in Hk. pose proof (gc_lookup (peer_indexes e) (e_files e) k t) as Hg.
  destruct (gcTombstonesLocked _ _) as [files changed]. destruct changed; [| congruence]. cbn in Hk, Hg.
  destruct (collectable (peer_indexes e) t) eqn:Hc; [done |].
  rewrite (proj2 Hg) in Hk; [done | auto].
Qed.
Lemma idx_among_peers e ps : e_peers e !! id = Some a → e_states e !! a = Some ps → ps_index ps = idx → idx ∈ peer_indexes e.
Proof.
  intros Ha Hps <-. unfold peer_indexes. apply list_elem_of_fmap. exists ps. split; [done |].
  apply list_elem_of_omap. exists a. split; [| done]. unfold addresses. apply list_elem_of_fmap. exists (id, a).
  split; [done |]. by apply elem_of_map_to_list.
Qed.

(** Collection takes only tombstones whose goal is a tombstone as well. *)
Lemma gc_syncing_files e k :
  syncing e →
  e_files (gcTombstones e) !! k = e_files e !! k ∨
  (e_files (gcTombstones e) !! k = None ∧ (∃ t, e_files e !! k = Some t ∧ Deleted t = true) ∧
   (∃ g, goal k = Some g ∧ Deleted g = true) ∧ ∀ r, idx !! k = Some r → Deleted r = true).
Proof.
  intros [Hi Hpe Hsh Hb (ps & Hps & Hg) Hc Hr Hpl Hkp]. destruct (gc_removed e k) as [? | (Hn & t & Ht & Hcol)]; [by left | right].
  unfold collectable in Hcol. apply andb_true_iff in Hcol as [Hd Hall]. rewrite forallb_forall in Hall.
  pose proof (Hall idx) as Hidx. rewrite <- list_elem_of_In in Hidx.
  split; [done |]. split; [by exists t |]. apply (collected_stage _ _ _ Hp (e_files e) k t); try done; [by apply (inv_keyed e Hi) |].
  apply Hidx. apply (idx_among_peers e ps Hpe Hps), Hg.
Qed.
Lemma gc_pendable e k : syncing e → pendable (e_files e) k → e_files (gcTombstones e) !! k = e_files e !! k.
Proof.
  intros Hs [_ Hlive]. destruct (gc_syncing_files e k Hs) as [? | (_ & (t & Ht & Hd) & (g & Hg & Hdg) & _)]; [done |].
  destruct (Hlive g Hg Hdg) as (l & Hl & Hdl). congruence.
Qed.

Lemma gc_syncing e : syncing e → syncing (gcTombstones e).
Proof.
  intros Hs. pose proof Hs as [Hi Hpe Hsh Hb (ps & Hps & Hg) Hc Hr Hpl Hkp].
  pose proof (calm_gc e) as Hcalm. unfold calm in Hcalm. injection Hcalm as Hst Hpeers Hcs.
  assert (e_disk (gcTombstones e) = e_disk e) as Hdisk by apply gc_frame.
  split; rewrite ?Hpeers, ?Hst, ?Hcs, ?Hdisk; try done.
  - by apply inv_gcTombstones.
  - unfold distinct_shorts. by rewrite Hpeers.
  - intros k. destruct (gc_syncing_files e k Hs) as [-> | (-> & _ & Htomb)]; [apply Hb | by right; right].
  - exists ps. split; [done |]. destruct Hg as [? ? ? ? Hin Hpd]. split; try done.
    intros k Hk. specialize (Hpd k Hk). pose proof (gc_pendable e k Hs Hpd) as Heq.
    unfold pendable, Peace.open, Peace.verdict in *. by rewrite Heq.
  - intros k x Hk Hx. apply (Hpl k x Hk). destruct (gc_removed e k) as [Heq | [Hn _]]; congruence.
Qed.

(** ** Reconciling is mild *)

Definition entry_good (f : Files) (d : DiffEntry) : Prop :=
  IsTypeClash d = false ∧ ∀ r, Remote d = Some r → Local d = f !! Path r ∧ idx !! Path r = Some r.
Definition create_good (f : Files) (c : plan) : Prop :=
  kind c = planInstall ∧ goal (Path (install c)) = Some (install c) ∧ Deleted (install c) = false ∧ open f (Path (install c)).
Definition tomb_good (f : Files) (t : tombInstall) : Prop :=
  let x := install (ti_plan t) in
  kind (ti_plan t) = planInstall ∧ goal (Path x) = Some x ∧ Deleted x = true ∧ is_Some (f !! Path x) ∧
  (∀ h, ti_oldHash t = Some h → pendable f (Path x)).

(** A deletion recorded here that a newer one is to replace: never paired. *)
Definition redeleted (f : Files) (k : bytes) : Prop :=
  open f k ∧ (∃ g, goal k = Some g ∧ Deleted g = true) ∧ ∃ l, f !! k = Some l ∧ Deleted l = true.
Definition unpaired (tombs : list tombInstall) (k : bytes) : Prop :=
  ∃ t, t ∈ tombs ∧ Path (install (ti_plan t)) = k ∧ ti_oldHash t = None ∧ ti_paired t = false.

Lemma unpaired_cons t tombs k : unpaired tombs k → unpaired (t :: tombs) k.
Proof. intros (x & Hx & ?). exists x. split; [by right | done]. Qed.

(** Nothing is executed while the diff is read: there is no conflict. *)
Lemma resolve_all_mild e ds :
  between (e_files e) → Forall (entry_good (e_files e)) ds →
  ∃ creates tombs, resolve_all cfg e a ds = (e, creates, tombs) ∧
    Forall (create_good (e_files e)) creates ∧ Forall (tomb_good (e_files e)) tombs ∧
    ∀ d r, d ∈ ds → Remote d = Some r → redeleted (e_files e) (Path r) → unpaired tombs (Path r).
Proof.
  intros Hb Hds. induction Hds as [|d ds [Hclash Hd] Hds (creates & tombs & IH & Hcr & Htm & Hre)].
  { exists [], []. split_and!; [done.. |]. by intros d r ?%not_elem_of_nil. }
  cbn [resolve_all]. rewrite Hclash. cbv zeta. destruct (Remote d) as [r |] eqn:Hr.
  2:{ assert (resolve (Local d) None (selfShort cfg) = plan_noop) as -> by (by destruct (Local d)). exists creates, tombs. split_and!; [done.. |].
    intros d' r' [-> | Hd']%elem_of_cons; [congruence | by apply Hre]. }
  destruct (Hd r eq_refl) as [HLd Hir]. rewrite HLd.
  assert (resolve (e_files e !! Path r) (Some r) (selfShort cfg) = verdict (selfShort cfg) idx (e_files e) (Path r)) as ->
    by (unfold verdict; by rewrite Hir).
  destruct (decide (kind (verdict (selfShort cfg) idx (e_files e) (Path r)) = planNoOp)) as [Hk | Hk].
  { assert (execute cfg e a (verdict (selfShort cfg) idx (e_files e) (Path r)) = e) as -> by (unfold execute; by rewrite Hk).
    rewrite Hk. cbn [bool_decide andb]. rewrite bool_decide_eq_false_2 by done. cbn [andb]. exists creates, tombs. split_and!; [done.. |].
    intros d' r' [-> | Hd']%elem_of_cons; [| by apply Hre]. intros Hr' [Ho _]. assert (r' = r) as -> by congruence. done. }
  destruct (open_stage _ _ _ Hp _ _ Hb Hk) as (Hf & r' & x & Hr' & Hv & Hg & Hdx & Hpx). rewrite Hv. cbn [kind install plan_install].
  rewrite bool_decide_eq_true_2 by done. rewrite IH. cbn [andb].
  assert (r' = r) as -> by congruence. destruct (Deleted x) eqn:Hdel; cbn [negb].
  - eexists creates, _. split; [done |]. split; [done |]. split.
    2:{ intros d' r' [-> | Hd']%elem_of_cons; [| intros; eapply unpaired_cons, Hre; done]. intros Hr2 (_ & _ & l & Hl & Hdl).
      assert (r' = r) as -> by congruence. eexists. split; [left |]. cbn. split_and!; [done | | done]. by rewrite HLd, Hl, Hdl. }
    constructor; [| done]. unfold tomb_good. cbn. rewrite Hpx.
    assert (is_Some (e_files e !! Path r)) as Hsome.
    { unfold verdict in Hv. rewrite Hr' in Hv. destruct (e_files e !! Path r); [eauto |]. unfold resolve in Hv.
      destruct (Deleted r); [done | congruence]. }
    split_and!; try done. rewrite HLd. intros h Hh. split; [done |]. intros g Hgg _.
    destruct (e_files e !! Path r) as [l |]; [| done]. exists l. split; [done |]. by destruct (Deleted l).
  - eexists _, tombs. split; [done |]. split_and!; [| done |].
    + constructor; [| done]. unfold create_good. cbn. by rewrite Hpx.
    + intros d' r' [-> | Hd']%elem_of_cons; [| by apply Hre]. intros Hr2 (_ & (g & Hg' & Hdg) & _).
      assert (r' = r) as -> by congruence. congruence.
Qed.

Lemma pair_tomb_good f e h tombs t tombs' :
  pair_tomb e a h tombs = Some (t, tombs') → Forall (tomb_good f) tombs →
  tomb_good f t ∧ pendable f (Path (install (ti_plan t))) ∧ Forall (tomb_good f) tombs' ∧ ∀ k, unpaired tombs k → unpaired tombs' k.
Proof.
  revert tombs'. induction tombs as [|x tombs IH]; intros tombs'; cbn [pair_tomb]; [done |].
  intros Hpt [Hx Ht]%Forall_cons. destruct (_ && _) eqn:Hc.
  - injection Hpt as <- <-. apply andb_true_iff in Hc as [[_ Hh%bool_decide_eq_true]%andb_true_iff _].
    split_and!; [done | destruct Hx as (_ & _ & _ & _ & Hpd); by apply (Hpd h) | constructor; [exact Hx | done] |].
    intros k (y & [-> | Hy]%elem_of_cons & Hpy & Hnone & ?); [congruence |]. apply unpaired_cons. by exists y.
  - destruct (pair_tomb e a h tombs) as [[t1 rest] |]; [| done]. cbn in Hpt. injection Hpt as <- <-.
    destruct (IH rest eq_refl Ht) as (? & ? & ? & Hun). split_and!; [done | done | by constructor |].
    intros k (y & [-> | Hy]%elem_of_cons & ?); [exists x; split; [left | done] | apply unpaired_cons, Hun; by exists y].
Qed.

Lemma pair_creates_mild e creates tombs :
  Forall (create_good (e_files e)) creates → Forall (tomb_good (e_files e)) tombs →
  let '(e', creates', tombs') := pair_creates e a creates tombs in
  rtc mild e e' ∧ e_files e' = e_files e ∧ Forall (create_good (e_files e)) creates' ∧ Forall (tomb_good (e_files e)) tombs' ∧
  ∀ k, unpaired tombs k → unpaired tombs' k.
Proof.
  revert e tombs. induction creates as [|c creates IH]; intros e tombs Hcs Hts; cbn [pair_creates]; [done |].
  apply Forall_cons in Hcs as [Hc Hcs]. destruct (ps_has_inflight e a _); [by apply IH |].
  destruct (pair_tomb e a _ tombs) as [[t tombs1] |] eqn:Hpt.
  - destruct (pair_tomb_good (e_files e) _ _ _ _ _ Hpt Hts) as ((_ & Hgt & Hdt & _ & _) & Hpd & Hts1 & Hun1).
    specialize (IH (enqueueRename e a (install c) (install (ti_plan t))) tombs1 Hcs Hts1).
    destruct (pair_creates _ a creates tombs1) as [[e' creates'] tombs']. destruct IH as (He & ? & ? & ? & Hun).
    split_and!; try done; [| by auto]. eapply rtc_l; [| done]. destruct Hc as (_ & ? & ? & ?). by apply mild_rename.
  - specialize (IH e tombs Hcs Hts). destruct (pair_creates e a creates tombs) as [[e' creates'] tombs'].
    destruct IH as (He & ? & ? & ? & ?). split_and!; try done. by constructor.
Qed.

Lemma creates_mild e creates :
  Forall (create_good (e_files e)) creates →
  rtc mild e (foldl (λ e c, execute cfg e a c) e creates) ∧ e_files (foldl (λ e c, execute cfg e a c) e creates) = e_files e.
Proof.
  revert e. induction creates as [|c creates IH]; intros e Hcs; [done |]. cbn [foldl].
  apply Forall_cons in Hcs as [(Hk & Hg & Hd & Ho) Hcs].
  assert (execute cfg e a c = enqueueFetch e a (install c) false) as -> by (unfold execute; by rewrite Hk, Hd).
  destruct (IH (enqueueFetch e a (install c) false) Hcs) as [He Hf].
  split; [eapply rtc_l; [by apply mild_fetch | exact He] | exact Hf].
Qed.
Lemma tombs_mild f e tombs :
  (∀ k, is_Some (f !! k) → is_Some (e_files e !! k)) → Forall (tomb_good f) tombs →
  rtc mild e (execute_tombs cfg e a tombs) ∧
  ∀ k, ps_has_inflight e a k = false → unpaired tombs k ∨ e_files e !! k = goal k → e_files (execute_tombs cfg e a tombs) !! k = goal k.
Proof.
  intros Hf Hts. unfold execute_tombs. revert e Hf. induction Hts as [|t tombs (Hk & Hg & Hd & Hsome & _) Hts IH]; intros e Hf.
  { split; [done |]. by intros k _ [(x & ?%not_elem_of_nil & _) | ?]. }
  cbn [foldl]. destruct (negb (ti_paired t) && negb (ps_has_inflight e a (Path (install (ti_plan t))))) eqn:Hc.
  2:{ destruct (IH e Hf) as [He Hun]. split; [done |]. intros k Hn [(x & [-> | Hx]%elem_of_cons & Hpx & Ho & Hpd) | ?]; [| apply Hun; [done |] ..].
    - rewrite Hpx, Hn, Hpd in Hc. done.
    - left. by exists x.
    - by right. }
  apply andb_true_iff in Hc as [_ Hn%negb_true_iff].
  assert (execute cfg e a (ti_plan t) = applyTombstone cfg e (install (ti_plan t))) as -> by (unfold execute; by rewrite Hk, Hd).
  destruct (IH (applyTombstone cfg e (install (ti_plan t)))) as [He Hun].
  { intros k Hin. rewrite e_files_applyTombstone. apply lookup_insert_is_Some'. auto. }
  split; [eapply rtc_l; [apply mild_delete; try done; by apply Hf | exact He] |].
  intros k Hnk Hor. apply Hun; [unfold ps_has_inflight in *; by rewrite states_applyTombstone |]. rewrite e_files_applyTombstone.
  destruct (decide (Path (install (ti_plan t)) = k)) as [<- | Hne]; [right; by rewrite lookup_insert_eq |]. rewrite lookup_insert_ne by done.
  destruct Hor as [(x & [-> | Hx]%elem_of_cons & Hpx & ?) | ?]; [done | left; by exists x | by right].
Qed.

Lemma redeleted_idle e k : syncing e → redeleted (e_files e) k → ps_has_inflight e a k = false.
Proof.
  intros Hs (_ & (g & Hg & Hdg) & l & Hl & Hdl). destruct (sy_state e Hs) as (ps & Hps & Hgood).
  unfold ps_has_inflight. rewrite Hps. apply bool_decide_eq_false. intros Hin%(pg_inflight _ _ _ Hgood)%(pg_pendable _ _ _ Hgood).
  destruct Hin as [_ Hlive]. destruct (Hlive g Hg Hdg) as (l' & Hl' & Hdl'). congruence.
Qed.

(** Before it collects, reconciling is mild, and has replaced the deletions that are
    to be replaced. *)
Lemma reconcile_mild e : syncing e →
  ∃ e', rtc mild e e' ∧ reconcileWithPeer cfg e a = gcTombstones e' ∧ ∀ k, redeleted (e_files e) k → e_files e' !! k = goal k.
Proof.
  intros Hs. destruct (sy_state e Hs) as (ps & Hps & Hg). pose proof (sy_between e Hs) as Hb. pose proof (inv_keyed e (sy_inv e Hs)) as Hk.
  unfold reconcileWithPeer. rewrite Hps, (pg_index _ _ _ Hg), (BuildTree_perm_eq _ _ (snapshot_perm (e_files e))).
  destruct (trees _ _ _ Hp _ Hk Hb) as (t & pt & Ht & Hpt & _). rewrite Ht, Hpt.
  assert (Forall (entry_good (e_files e)) (Diff (Some t) (Some pt))) as Hds.
  { rewrite Forall_forall. intros d Hd. by apply (peace_entry _ _ _ Hp (e_files e) t pt). }
  destruct (resolve_all_mild e _ Hb Hds) as (creates & tombs & -> & Hcr & Htm & Hre).
  assert (∀ k, redeleted (e_files e) k → unpaired tombs k) as Hun.
  { intros k Hrk. destruct (open_entry _ _ _ Hp (e_files e) t pt Hk Hb Ht Hpt k (proj1 Hrk)) as (d & Hd & _ & HRd).
    destruct (open_stage _ _ _ Hp _ _ Hb (proj1 Hrk)) as (_ & r & x & Hr & _). rewrite Hr in HRd.
    assert (Path r = k) as Hpr by (by apply (proj2 (pc_keyed _ _ _ Hp) k r)). rewrite <- Hpr in Hrk |- *. by apply (Hre d r). }
  pose proof (pair_creates_mild e creates tombs Hcr Htm) as Hpair.
  destruct (pair_creates e a creates tombs) as [[e1 creates1] tombs1]. destruct Hpair as (He1 & Hf1 & Hcr1 & Htm1 & Hun1).
  rewrite <- Hf1 in Hcr1, Htm1. destruct (creates_mild e1 creates1 Hcr1) as [He2 Hf2].
  destruct (tombs_mild (e_files e1) (foldl (λ e c, execute cfg e a c) e1 creates1) tombs1) as [He3 Hun3]; [by rewrite Hf2 | done |].
  eexists. split_and!; [| reflexivity |].
  - etransitivity; [exact He1 |]. etransitivity; [exact He2 | exact He3].
  - intros k Hrk. apply Hun3; [| left; by apply Hun1, Hun]. apply redeleted_idle; [| by rewrite Hf2, Hf1].
    eapply milds_syncing; [exact He2 |]. by eapply milds_syncing.
Qed.

Lemma reconcile_syncing e : syncing e → syncing (reconcileWithPeer cfg e a).
Proof. intros Hs. destruct (reconcile_mild e Hs) as (e' & He & -> & _). apply gc_syncing. by eapply milds_syncing. Qed.

(** A path open afterwards was open before. *)
Lemma mild_open e e' k : mild e e' → between (e_files e) → open (e_files e') k → open (e_files e) k.
Proof.
  intros [leaf _ _ _ | c t _ _ _ _ _ _ | t Hg _ _ _] Hb; [done | done |]. rewrite e_files_applyTombstone.
  intros Ho. by apply (open_install _ _ _ Hp (e_files e) (Path t) t k Hb Hg) in Ho as [_ Ho].
Qed.
Lemma milds_open e e' k : rtc mild e e' → syncing e → open (e_files e') k → open (e_files e) k.
Proof.
  induction 1 as [|e1 e2 e3 Hm _ IH]; [done |]. intros Hs Ho. apply (mild_open e1 e2 k Hm (sy_between e1 Hs)).
  apply IH; [by eapply mild_syncing | done].
Qed.
Lemma gc_open e k : syncing e → open (e_files (gcTombstones e)) k → open (e_files e) k.
Proof.
  intros Hs. unfold Peace.open, Peace.verdict. destruct (gc_syncing_files e k Hs) as [-> | (-> & _ & _ & Hr)]; [done |].
  by rewrite collected_settled.
Qed.
Lemma reconcile_open e k : syncing e → open (e_files (reconcileWithPeer cfg e a)) k → open (e_files e) k.
Proof.
  intros Hs. destruct (reconcile_mild e Hs) as (e' & He & -> & _). intros Ho.
  apply (milds_open e e' k He Hs). apply gc_open; [by eapply milds_syncing | done].
Qed.

(** Reconciling leaves every open path in flight, or the queue full. *)
Lemma reconcile_covers e k :
  syncing e → open (e_files (reconcileWithPeer cfg e a)) k → busy a (reconcileWithPeer cfg e a) k.
Proof.
  intros Hs Ho. pose proof (reconcile_open e k Hs Ho) as Ho1. destruct (sy_state e Hs) as (ps & Hps & Hg).
  pose proof (sy_between e Hs) as Hb. pose proof (inv_keyed e (sy_inv e Hs)) as Hk.
  destruct (trees _ _ _ Hp _ Hk Hb) as (t & pt & Ht & Hpt & _).
  destruct (open_entry _ _ _ Hp (e_files e) t pt Hk Hb Ht Hpt k Ho1) as (d & Hd & HLd & HRd).
  destruct (open_stage _ _ _ Hp _ _ Hb Ho1) as (_ & r & x & Hr & Hv & Hgx & Hdx & Hpx).
  assert (resolve (Local d) (Remote d) (selfShort cfg) = plan_install x) as Hres by (rewrite HLd, HRd; exact Hv).
  assert (entry_key d = k) as Hek.
  { unfold entry_key. rewrite HRd, Hr. by apply (proj2 (pc_keyed _ _ _ Hp) k r). }
  destruct (reconcile_handles cfg e a ps t pt d (sy_inv e Hs) Hps) as [Hbusy | [(t' & Hdue & Hpt' & Hf) | (c & Hc & _)]].
  - by rewrite (BuildTree_perm_eq _ _ (snapshot_perm (e_files e))).
  - by rewrite (pg_index _ _ _ Hg).
  - done.
  - by apply (peace_entry _ _ _ Hp (e_files e) t pt Hk Hb Ht Hpt d Hd).
  - by rewrite Hres.
  - by rewrite Hek in Hbusy.
  - exfalso. rewrite Hek in *. destruct Hdue as (Hdt & l & r' & Hl & Hr' & _ & Hout & _). rewrite Hpt' in Hl, Hr'.
    rewrite (pg_index _ _ _ Hg) in Hr'. rewrite <- Hl, <- Hr' in Hout. change (outcome (e_files e !! k) (verdict (selfShort cfg) idx (e_files e) k) = Some t') in Hout.
    rewrite Hv in Hout. apply (inj Some) in Hout. cbn in Hout. subst t'. apply Ho. unfold Peace.verdict.
    destruct Hf as [-> | ->]; [rewrite <- Hgx; by apply (goal_settled _ _ _ Hp) |].
    apply collected_settled. intros r0 Hr0. congruence.
  - rewrite Hres in Hc. done.
Qed.

(** ** The puller's turn *)

(** The leaf whose content the puller's next step installs. *)
Definition next_leaf (e : Engine) : option FileInfo :=
  ps ← e_states e !! a;
  match ps_running ps with
  | Some t => Some (ft_leaf t)
  | None => t ← head (ps_fetchQ ps); Some (default (ft_leaf t) (ft_preserve t))
  end.

Lemma wanted_known k x : wanted k x → known f0 idx k.
Proof.
  intros (Ho & _ & _). right. destruct (idx !! k) eqn:Hk; [eauto |]. destruct Ho. unfold Peace.verdict. rewrite Hk. by destruct (f0 !! k).
Qed.

Lemma stays_not_wanted k x : stays k → wanted k x → False.
Proof.
  intros (y & Hy & Hg & _) (Ho & _). apply Ho. unfold Peace.verdict. rewrite Hy, <- Hg. by apply (goal_settled _ _ _ Hp).
Qed.

(** Installing one wanted file keeps the others where they are, and room for them. *)
Lemma spares_room d d' leaf k x :
  wanted (Path leaf) leaf → wanted k x → spares (Path leaf) d d' → has_content d' leaf → room_for d k → room_for d' k.
Proof.
  intros Hl Hk Hs Hc. apply (room_spares (Path leaf) d d' leaf); [done.. |]. intros Hne.
  split; apply (pc_apart _ _ _ Hp); eauto using wanted_known.
Qed.
Lemma spares_content d d' leaf x :
  wanted (Path leaf) leaf → wanted (Path x) x → spares (Path leaf) d d' → has_content d' leaf → has_content d x → has_content d' x.
Proof.
  intros (_ & Hl & _) (_ & Hx & _) Hs Hc (c & m & ts & Hk & Hsum). destruct (decide (Path x = Path leaf)) as [Heq | Hne].
  - assert (x = leaf) as -> by (rewrite Heq in Hx; congruence). done.
  - destruct (Hs (Path x) Hne) as [Heq | (_ & Hn & _)]; [| congruence]. exists c, m, ts. by rewrite Heq.
Qed.

(** The engine once the puller has taken the first task, left the disk [d] and
    reported [cs]. *)
Definition pulled (e : Engine) (q : list fetchTask) (d : Disk) (cs : list completion) : Engine :=
  set_completions (set_disk (set_running e a q None) d) (e_completions e ++ cs).

Lemma syncing_pulled e ps task q d leaf cs :
  syncing e → e_states e !! a = Some ps → ps_fetchQ ps = task :: q → inv (pulled e q d cs) →
  wanted (Path leaf) leaf → spares (Path leaf) (e_disk e) d → has_content d leaf →
  Forall (completion_good d) cs → ((λ c, Path (cp_leaf c)) <$> cs) ≡ₚ task_keys task →
  syncing (pulled e q d cs).
Proof.
  intros [Hi Hpe Hsh Hb (ps' & Hps' & Hg) Hc Hr Hpl Hkp] Hps Hq Hi' Hl Hsp Hcont Hcs Hperm.
  assert (ps' = ps) as -> by congruence. destruct Hg as [Hix Hrun Hts Hn Hin Hpd].
  assert (∀ x, wanted (Path x) x → has_content (e_disk e) x → has_content d x) as Hkeep
    by (intros x Hx; by apply (spares_content (e_disk e) d leaf)).
  split; try done.
  - exists (ps_set_fetch ps (ps_inflight ps) q None). split; [cbn; by rewrite lookup_alter_eq, Hps |]. cbn [e_files e_completions pulled set_completions].
    assert (pending_keys (e_completions e ++ cs) (ps_set_fetch ps (ps_inflight ps) q None) ≡ₚ pending_keys (e_completions e) ps) as Hpk.
    { unfold pending_keys. rewrite !work_keys_idle by done. rewrite Hq, fmap_app. cbn. rewrite Hperm. solve_Permutation. }
    split; [done | done | | by rewrite Hpk | |].
    + cbn. rewrite Hq in Hts. by apply Forall_cons in Hts as [_ ?].
    + intros k. rewrite Hpk. apply Hin.
    + intros k. rewrite Hpk. apply Hpd.
  - apply Forall_app. split; [| done]. apply Forall_forall. intros c Hcin. rewrite Forall_forall in Hc.
    destruct (Hc c Hcin) as (Hgc & ? & ? & ? & ? & ? & Hcc). split_and!; try done. intros Hd. apply Hkeep; [| by apply Hcc].
    split_and!; [| done | done]. destruct (Hpd (Path (cp_leaf c))) as [Ho _].
    { unfold pending_keys. apply elem_of_app. right. apply list_elem_of_fmap. eauto. }
    by apply (open_stage _ _ _ Hp _ _ Hb) in Ho as Hst; unfold Peace.open, Peace.verdict in *; destruct Hst as [<- _].
  - intros k x Hk. apply (spares_room (e_disk e) d leaf k x); [done.. | by eapply Hr].
  - intros k x Hk Hx. apply Hkeep; [| by apply (Hpl k x)]. by rewrite (goal_path _ _ _ Hp k x) by apply Hk.
  - intros k c m ts Hst Hk. pose proof (Hkp k c m ts Hst Hk) as Hdk. assert (k ≠ Path leaf) as Hne by (intros ->; by apply (stays_not_wanted _ leaf Hst)).
    destruct (Hsp k Hne) as [Heq | (_ & Hnil & _)]; [by rewrite <- Heq in Hdk | congruence].
Qed.

Lemma pending_wanted e ps k x :
  syncing e → e_states e !! a = Some ps → ps_good (e_files e) (e_completions e) ps →
  k ∈ pending_keys (e_completions e) ps → goal k = Some x → Deleted x = false → wanted k x.
Proof.
  intros Hs Hps Hg Hk Hgx Hd. split_and!; [| done | done]. destruct (pg_pendable _ _ _ Hg k Hk) as [Ho _].
  pose proof (open_stage _ _ _ Hp _ _ (sy_between e Hs) Ho) as (Hf & _). unfold Peace.open, Peace.verdict in *. by rewrite <- Hf.
Qed.
Lemma queued_pending e ps task q k :
  ps_running ps = None → ps_fetchQ ps = task :: q → k ∈ task_keys task → k ∈ pending_keys (e_completions e) ps.
Proof.
  intros Hr Hq Hk. unfold pending_keys. rewrite work_keys_idle, Hq by done. cbn [fmap list_fmap concat]. rewrite !elem_of_app. by left; left.
Qed.

(** What the puller works on next is wanted. *)
Lemma next_wanted e leaf : syncing e → next_leaf e = Some leaf → wanted (Path leaf) leaf.
Proof.
  intros Hs Hn. destruct (sy_state e Hs) as (ps & Hps & Hg). unfold next_leaf in Hn. rewrite Hps in Hn. cbn [mbind option_bind] in Hn.
  rewrite (pg_running _ _ _ Hg) in Hn. destruct (ps_fetchQ ps) as [|task q] eqn:Hq; [done |]. apply (inj Some) in Hn as <-.
  pose proof (pg_tasks _ _ _ Hg) as Hts. rewrite Hq in Hts. apply Forall_cons in Hts as [[Hgt Hkind] _]. set (leaf := default (ft_leaf task) (ft_preserve task)) in *.
  assert (Path leaf ∈ task_keys task) as Hlk by (unfold leaf, task_keys; destruct (ft_preserve task); cbn; [right; left | left]).
  apply (pending_wanted e ps); try done; [by eapply queued_pending, Hlk; [apply Hg | done] | |]; unfold leaf; destruct (ft_preserve task); cbn; tauto.
Qed.

(** A completion for a leaf that has just been installed. *)
Definition installed (leaf : FileInfo) : completion := mkCompletion leaf true false false false false (Short id) a.
Definition deletable (leaf : FileInfo) : completion := mkCompletion leaf true false false true false (Short id) a.

Lemma materialise_step_room e ps q leaf adv tmp now net d :
  ps_short ps = Short id → adv = false →
  materialise (cfg_AbsRoot cfg) (cfg_caseSensitive cfg) (e_files e) (e_disk e) leaf tmp now net = (d, MatOk) →
  materialise_step cfg (set_running e a q None) a ps leaf adv tmp now net = (pulled e q d [installed leaf], true).
Proof.
  intros Hsh -> Hm. unfold materialise_step. cbn [e_files e_disk set_running upd_ps set_states]. by rewrite Hm, Hsh.
Qed.

Context (Hcase : cfg_caseSensitive cfg = true).

(** The completions of installed files. *)
Definition arrivals (cs : list completion) : nat := length (filter (λ c, Deleted (cp_leaf c) = false) cs).

Lemma pull_syncing e tmp now net e' :
  syncing e → (∀ leaf, next_leaf e = Some leaf → fresh_temp (e_disk e) (Path leaf) tmp ∧ serves net.1 leaf) →
  puller_step cfg e a tmp now net = Some e' →
  syncing e' ∧ e_files e' = e_files e ∧ (arrivals (e_completions e) < arrivals (e_completions e'))%nat ∧
  e_sent e' = e_sent e ∧ e_peers e' = e_peers e.
Proof.
  intros Hs Hnet Hpull. pose proof (inv_puller_step cfg e a tmp now net e' (sy_inv e Hs) Hpull) as Hi'.
  destruct (sy_state e Hs) as (ps & Hps & Hg). destruct (puller_step_run cfg e a tmp now net e' Hpull) as (ps0 & Hps0 & _ & Heq).
  assert (ps0 = ps) as -> by congruence. unfold runFetch in Heq. rewrite (pg_running _ _ _ Hg) in Heq. destruct (ps_fetchQ ps) as [|task q] eqn:Hq; [done |].
  assert (ps_short ps = Short id) as Hsh.
  { destruct (inv_peers e (sy_inv e Hs) id a (sy_peer e Hs)) as (ps' & Hps' & <- & _). assert (ps' = ps) as -> by congruence.
    by apply (inv_states e (sy_inv e Hs) a ps Hps). }
  assert (next_leaf e = Some (default (ft_leaf task) (ft_preserve task))) as Hnext.
  { unfold next_leaf. rewrite Hps. cbn [mbind option_bind]. by rewrite (pg_running _ _ _ Hg), Hq. }
  destruct (Hnet _ Hnext) as [Htmp Hserve]. set (leaf := default (ft_leaf task) (ft_preserve task)) in *.
  pose proof (pg_tasks _ _ _ Hg) as Hts. rewrite Hq in Hts. apply Forall_cons in Hts as [[Hgt Hkind] _].
  pose proof (next_wanted e leaf Hs Hnext) as Hw. destruct Hw as (Ho & Hgl & Hdl). pose proof (conj Ho (conj Hgl Hdl) : wanted (Path leaf) leaf) as Hw.
  destruct (materialise_room (cfg_AbsRoot cfg) (e_files e) (e_disk e) leaf tmp now net) as (d & Hm & Hcont & Hsp);
    [by eapply Htype | by eapply sy_room | done | done |]. rewrite <- Hcase in Hm.
  assert (completion_good d (installed leaf)) as Hcg by (unfold completion_good; cbn; rewrite Hdl; by split_and!).
  assert (∀ cs, e' = pulled e q d (installed leaf :: cs) → Forall (completion_good d) (installed leaf :: cs) →
    ((λ c, Path (cp_leaf c)) <$> installed leaf :: cs) ≡ₚ task_keys task →
    syncing e' ∧ e_files e' = e_files e ∧ (arrivals (e_completions e) < arrivals (e_completions e'))%nat ∧
    e_sent e' = e_sent e ∧ e_peers e' = e_peers e) as Hend.
  { intros cs -> Hcs Hperm. split; [by apply (syncing_pulled e ps task q d leaf (installed leaf :: cs)) |]. split_and!; [done | | done | done].
    cbn [pulled set_completions e_completions]. unfold arrivals. rewrite filter_app, length_app, filter_cons_True by done. cbn. lia. }
  unfold task_keys in Hend. destruct (ft_preserve task) as [c |] eqn:Hpre; cbn in leaf; subst leaf; destruct Hkind as [Hd Hkind].
  - destruct Hkind as (_ & _ & Hadv). rewrite (materialise_step_room e ps q c _ tmp now net d Hsh Hadv Hm), Hd in Heq. cbn [negb] in Heq.
    apply (inj Some) in Heq as <-. apply (Hend [deletable (ft_leaf task)]).
    + unfold report, pulled. cbn. by rewrite Hsh, <- app_assoc.
    + constructor; [done |]. constructor; [| done]. unfold completion_good. cbn. rewrite Hd. by split_and!.
    + cbn. apply perm_swap.
  - rewrite (materialise_step_room e ps q _ _ tmp now net d Hsh Hkind Hm) in Heq. apply (inj Some) in Heq as <-.
    apply (Hend []); [done | by constructor | done].
Qed.

(** ** The loop's turn *)

Lemma syncing_taken e c cs e1 :
  syncing e → e_completions e = c :: cs → inv e1 → calm e1 = calm (set_completions e cs) →
  e_files e1 = <[Path (cp_leaf c) := cp_leaf c]> (e_files e) →
  (∀ p, e_disk e1 !! p = e_disk e !! p ∨ (p = Path (cp_leaf c) ∧ Deleted (cp_leaf c) = true ∧ e_disk e1 !! p = None)) →
  syncing (clearInflight e1 (cp_peer c) (Path (cp_leaf c))).
Proof.
  intros [Hi Hpe Hsh Hb (ps & Hps & Hg) Hc Hr Hpl Hkp] Hcs Hi1 Hcalm Hf Hdisk. unfold calm in Hcalm. injection Hcalm as Hst Hpeers Hcomp.
  cbn in Hst, Hpeers, Hcomp. rewrite Hcs in Hc, Hg. apply Forall_cons in Hc as [(Hgc & Hpeer & _ & _ & _ & _ & Hcc) Hc].
  set (k := Path (cp_leaf c)) in *.
  assert (peerByShort e1 (cp_peer c) = Some a) as Hby.
  { apply (peerByShort_connected e1 (cp_peer c) id a ps); try done; [by unfold distinct_shorts; rewrite Hpeers | by rewrite Hpeers | by rewrite Hst |].
    destruct (inv_peers e Hi id a Hpe) as (ps' & Hps' & Hd & _). assert (ps' = ps) as -> by congruence.
    destruct (inv_states e Hi a ps Hps) as [_ [_ Hshort _ _]]. congruence. }
  destruct Hg as [Hix Hrun Hts Hn Hin Hpd].
  assert (pending_keys (c :: cs) ps ≡ₚ k :: pending_keys cs ps) as Hperm by (unfold pending_keys; cbn; by rewrite Permutation_middle).
  rewrite Hperm in Hn. apply NoDup_cons in Hn as [Hkn Hn].
  assert (∀ x, has_content (e_disk e) x → Path x ≠ k ∨ Deleted (cp_leaf c) = false → has_content (e_disk e1) x) as Hkeep.
  { intros x (ct & m & ts & Hx & Hsum) Hor. exists ct, m, ts. split; [| done].
    destruct (Hdisk (Path x)) as [-> | (Heq & Hd & _)]; [done |]. destruct Hor; congruence. }
  assert (∀ p, e_disk e1 !! p = e_disk e !! p ∨ e_disk e1 !! p = None) as Hless by (intros p; destruct (Hdisk p) as [? | (_ & _ & ?)]; auto).
  pose proof (inv_clearInflight e1 (cp_peer c) k Hi1) as Hi2. unfold clearInflight in *. rewrite Hby in *. split; try done; cbn [e_peers e_files e_completions e_disk upd_ps set_states].
  - by rewrite Hpeers.
  - unfold distinct_shorts. cbn. by rewrite Hpeers.
  - rewrite Hf. by apply between_install.
  - exists (ps_set_fetch ps (ps_inflight ps ∖ {[k]}) (ps_fetchQ ps) (ps_running ps)).
    split; [cbn; by rewrite Hst, lookup_alter_eq, Hps |]. rewrite Hf, Hcomp. split; try done.
    + intros k'. cbn. rewrite elem_of_difference, elem_of_singleton, Hin, Hperm, elem_of_cons.
      change (k' ∈ pending_keys cs (ps_set_fetch ps _ _ _)) with (k' ∈ pending_keys cs ps). naive_solver.
    + intros k' Hk'. change (k' ∈ pending_keys cs ps) in Hk'. assert (k ≠ k') as Hne by (by intros ->).
      destruct (Hpd k') as [Ho Hl]; [rewrite Hperm; by right |].
      unfold pendable, Peace.open, Peace.verdict in *. by rewrite !lookup_insert_ne.
  - rewrite Hcomp. apply Forall_forall. intros c' Hc'. rewrite Forall_forall in Hc. destruct (Hc c' Hc') as (Hg' & ? & ? & ? & ? & ? & Hcc').
    split_and!; try done. intros Hd'. apply Hkeep; [by apply Hcc' |]. left. intros Heq. apply Hkn. rewrite <- Heq.
    unfold pending_keys. apply elem_of_app. right. apply list_elem_of_fmap. eauto.
  - intros k' x Hk'. destruct (Hr k' x Hk') as [H1' H2']. split.
    + destruct (Hless k') as [-> | ->]; [done | by left].
    + intros q Hq. destruct (Hless q) as [-> | ->]; [auto | by left].
  - intros k' x Hk'. rewrite Hf. destruct (decide (k = k')) as [<- | Hne].
    + rewrite lookup_insert_eq. intros Hx. apply (inj Some) in Hx. subst x. apply Hkeep; [by apply Hcc, Hk' | right; apply Hk'].
    + rewrite lookup_insert_ne by done. intros Hx. apply Hkeep; [by apply (Hpl k' x) |]. left.
      rewrite (goal_path _ _ _ Hp k' x) by apply Hk'. done.
  - intros k' ct m ts Hst' Hk'. pose proof (Hkp k' ct m ts Hst' Hk') as Hdk. destruct (Hdisk k') as [-> | (-> & Hd & _)]; [done |].
    destruct Hst' as (x & _ & Hx & Hdx). congruence.
Qed.

Lemma by_short e : syncing e → peerByShort e (Short id) = Some a.
Proof.
  intros [Hi Hpe Hsh _ (ps & Hps & _) _ _ _ _]. apply (peerByShort_connected e (Short id) id a ps); try done.
  destruct (inv_peers e Hi id a Hpe) as (ps' & Hps' & <- & _). assert (ps' = ps) as -> by congruence.
  by apply (inv_states e Hi a ps Hps).
Qed.

Lemma reconcile_completions e : syncing e → e_completions (reconcileWithPeer cfg e a) = e_completions e.
Proof.
  intros Hs. destruct (reconcile_mild e Hs) as (e' & He & -> & _). pose proof (calm_gc e') as Hcalm. unfold calm in Hcalm. injection Hcalm as _ _ ->.
  clear Hs. induction He as [|e1 e2 e3 Hm _ IH]; [done |]. rewrite IH. destruct Hm; try done.
  pose proof (calm_applyTombstone cfg e1 t) as Hcalm. unfold calm in Hcalm. by injection Hcalm.
Qed.

(** ** What is announced *)

Definition openset (f : Files) : gset bytes := filter (λ k, open f k) (dom idx).
Lemma elem_openset f k : k ∈ openset f ↔ open f k.
Proof.
  unfold openset. rewrite elem_of_filter, elem_of_dom. split; [by intros [? _] |]. intros Ho. split; [done |].
  destruct (idx !! k) eqn:Hk; [eauto |]. destruct Ho. unfold Peace.verdict. rewrite Hk. by destruct (f !! k).
Qed.
Lemma openset_shrinks f f' : (∀ k, open f' k → open f k) → (size (openset f') ≤ size (openset f))%nat.
Proof. intros Hsub. apply subseteq_size. intros k Hk%elem_openset. by apply elem_openset, Hsub. Qed.
Lemma openset_closes f f' k : (∀ k, open f' k → open f k) → open f k → ¬ open f' k → (size (openset f') < size (openset f))%nat.
Proof.
  intros Hsub Ho Hn. apply subset_size. split.
  - intros k' Hk%elem_openset. by apply elem_openset, Hsub.
  - intros Hall. by apply Hn, elem_openset, Hall, elem_openset.
Qed.
Lemma install_closes f k x :
  between f → goal k = Some x → (∀ k', open (<[k := x]> f) k' → open f k') ∧ ¬ open (<[k := x]> f) k.
Proof.
  intros Hb Hg. split; [intros k' Ho | intros Ho]; by apply (open_install _ _ _ Hp _ _ _ _ Hb Hg) in Ho as [].
Qed.

(** From [e] to [e'] the deletions [ts] were announced: each of a path that was open
    and was closed by it, and every deletion that closed a path. *)
Record announces (e e' : Engine) (ts : list FileInfo) : Prop := mkAnnounces {
  an_sent : e_sent e' = e_sent e ++ concat ((λ t, update_sends cfg (addresses e) [t]) <$> ts);
  an_peers : e_peers e' = e_peers e;
  an_goals : Forall (λ t, open f0 (Path t) ∧ goal (Path t) = Some t ∧ Deleted t = true) ts;
  an_open : (size (openset (e_files e')) + length ts ≤ size (openset (e_files e)))%nat;
  an_all k t : goal k = Some t → Deleted t = true → open (e_files e) k → t ∈ ts ∨ open (e_files e') k
}.

Lemma announces_silent e e' :
  e_sent e' = e_sent e → e_peers e' = e_peers e → (∀ k, open (e_files e') k → open (e_files e) k) →
  (∀ k t, goal k = Some t → Deleted t = true → open (e_files e) k → open (e_files e') k) → announces e e' [].
Proof.
  intros Hs Hpe Hsub Hall. split; [by rewrite app_nil_r | done | constructor | | intros k t Hg Hd Ho; right; by eapply Hall].
  cbn. rewrite Nat.add_0_r. by apply openset_shrinks.
Qed.
Lemma announces_same e e' : e_sent e' = e_sent e → e_peers e' = e_peers e → e_files e' = e_files e → announces e e' [].
Proof. intros Hs Hpe Hf. apply announces_silent; rewrite ?Hf; auto. Qed.
Lemma announces_trans e1 e2 e3 ts1 ts2 : announces e1 e2 ts1 → announces e2 e3 ts2 → announces e1 e3 (ts1 ++ ts2).
Proof.
  intros [Hs1 Hpe1 Hg1 Ho1 Ha1] [Hs2 Hpe2 Hg2 Ho2 Ha2]. split.
  - rewrite Hs2, Hs1. unfold addresses. by rewrite Hpe1, fmap_app, concat_app, app_assoc.
  - congruence.
  - by apply Forall_app.
  - rewrite length_app. lia.
  - intros k t Hg Hd Ho. rewrite elem_of_app. destruct (Ha1 k t Hg Hd Ho) as [? | Ho']; [auto |]. destruct (Ha2 k t Hg Hd Ho'); auto.
Qed.

(** The goal of an open path is news. *)
Lemma open_news f t : between f → open f (Path t) → goal (Path t) = Some t → redundant f t = false.
Proof.
  intros Hb Ho Hg. destruct (open_stage _ _ _ Hp _ _ Hb Ho) as (Hf & r & x & Hr & Hv & Hgx & _). unfold redundant.
  destruct (f !! Path t) as [l |] eqn:Hl; [| done]. assert (x = t) as -> by congruence. apply andb_false_iff. right.
  apply not_true_iff_false. intros Heq%IsEqual_iff. unfold verdict in Hv. rewrite Hl, Hr in Hv.
  assert (canonical (Version l)) as Hcl by (apply (pc_canonical _ _ _ Hp (Path t)); left; congruence).
  pose proof (pc_canonical _ _ _ Hp (Path t) r ltac:(auto)) as Hcr. unfold resolve in Hv.
  pose proof (conflictPlan_no_install l r) as Hno. destruct (Compare (Version l) (Version r)) eqn:Hc.
  - destruct (same_content l r); [done | by rewrite Hv in Hno].
  - done.
  - apply Compare_DominatedBy in Hc as [Hle Hne]; [| done..]. apply plan_install_inj in Hv. subst t. cbn in Heq. apply Hne.
    rewrite Merge_absorb in Heq by done. done.
  - destruct (same_content l r); [| by rewrite Hv in Hno]. apply plan_install_inj in Hv. subst t. cbn in Heq.
    assert (∀ id, vget (Version r) id ≤ vget (Version l) id) as Hle.
    { intros i. rewrite Heq at 1. rewrite vget_Merge by done. lia. }
    apply Compare_Concurrent in Hc as [_ (i & Hi)]; [| done..]. specialize (Hle i). lia.
Qed.

Lemma announces_tombstone e t :
  between (e_files e) → goal (Path t) = Some t → Deleted t = true → is_Some (e_files e !! Path t) →
  ∃ ts, announces e (applyTombstone cfg e t) ts.
Proof.
  intros Hb Hg Hd [l Hl]. destruct (install_closes (e_files e) (Path t) t Hb Hg) as [Hsub Hnot].
  rewrite applyTombstone_eq. cbv zeta. destruct (redundant (e_files e) t) eqn:Hr; cbn [negb].
  { exists []. apply announces_silent; [done | done | done |]. intros k' t' Hg' Hd' Ho. destruct (decide (Path t = k')) as [<- | Hne].
    - by rewrite (open_news _ _ Hb Ho Hg) in Hr.
    - unfold Peace.open, Peace.verdict in *. cbn. by rewrite lookup_insert_ne. }
  assert (open (e_files e) (Path t)) as Ho.
  { destruct (decide (open (e_files e) (Path t))) as [? | Hno]; [done |].
    destruct (closed_stage _ _ _ Hp _ _ Hb Hno) as [Hk | [Hk _]]; rewrite Hl in Hk; [| done].
    rewrite Hg in Hk. apply (inj Some) in Hk as ->. unfold redundant in Hr. rewrite Hl, Hd in Hr. cbn in Hr.
    by rewrite (proj2 (IsEqual_iff _ _) eq_refl) in Hr. }
  exists [t]. rewrite broadcast_sends by done. split; [cbn; by rewrite app_nil_r | done | | |].
  - constructor; [| constructor]. split_and!; [| done | done].
    pose proof (open_stage _ _ _ Hp _ _ Hb Ho) as [Hf _]. unfold Peace.open, Peace.verdict in *. by rewrite <- Hf.
  - cbn [length]. pose proof (openset_closes _ _ _ Hsub Ho Hnot). cbn. lia.
  - intros k' t' Hg' Hd' Ho'. destruct (decide (Path t = k')) as [<- | Hne]; [left; assert (t' = t) as -> by congruence; left | right].
    unfold Peace.open, Peace.verdict in *. cbn. by rewrite lookup_insert_ne.
Qed.

Lemma milds_announce e e' : rtc mild e e' → syncing e → ∃ ts, announces e e' ts.
Proof.
  induction 1 as [e | e1 e2 e3 Hm _ IH]; intros Hs; [exists []; by apply announces_same |].
  destruct IH as [ts2 Ha2]; [by eapply mild_syncing |].
  assert (∃ ts, announces e1 e2 ts) as [ts1 Ha1]; [| exists (ts1 ++ ts2); by eapply announces_trans].
  destruct Hm as [leaf _ _ _ | c t _ _ _ _ _ _ | t Hg Hd _ Hin]; [exists []; by apply announces_same.. |].
  apply announces_tombstone; [apply Hs | done..].
Qed.
Lemma reconcile_announces e : syncing e → ∃ ts, announces e (reconcileWithPeer cfg e a) ts.
Proof.
  intros Hs. destruct (reconcile_mild e Hs) as (e' & He & -> & Hre). destruct (milds_announce e e' He Hs) as [ts Ht].
  pose proof (milds_syncing e e' He Hs) as Hs'. destruct (gc_frame e') as (_ & Hsent & _).
  pose proof (calm_gc e') as Hcalm. unfold calm in Hcalm. injection Hcalm as _ Hpeers _.
  exists (ts ++ []). eapply announces_trans; [exact Ht |]. apply announces_silent; [done | done | intros k; by apply gc_open |].
  intros k t Hg Hd Ho. destruct (gc_syncing_files e' k Hs') as [Heq | (_ & (l & Hl & Hdl) & _)].
  { unfold Peace.open, Peace.verdict in *. by rewrite Heq. }
  destruct (open_stage _ _ _ Hp _ _ (sy_between e' Hs') Ho) as (Hf' & _).
  pose proof (milds_open e e' k He Hs Ho) as Ho0. destruct (open_stage _ _ _ Hp _ _ (sy_between e Hs) Ho0) as (Hf & _).
  assert (e_files e' !! k = goal k) as Hdone. { apply Hre. split_and!; [done | by exists t | exists l; split; congruence]. }
  destruct Ho. unfold Peace.verdict. rewrite Hdone. by apply (goal_settled _ _ _ Hp).
Qed.

(** The path of a completion is open. *)
Lemma taken_open e c cs : syncing e → e_completions e = c :: cs → open (e_files e) (Path (cp_leaf c)).
Proof.
  intros Hs Hcs. destruct (sy_state e Hs) as (ps & Hps & Hgood). apply (pg_pendable _ _ _ Hgood).
  unfold pending_keys. rewrite Hcs. apply elem_of_app. right. cbn. left.
Qed.
Lemma open_deletes e c cs :
  syncing e → e_completions e = c :: cs → Deleted (cp_leaf c) = true → is_Some (e_files e !! Path (cp_leaf c)).
Proof.
  intros Hs Hcs Hd. destruct (sy_state e Hs) as (ps & Hps & Hgood). pose proof (sy_completions e Hs) as Hc. rewrite Hcs in Hc.
  apply Forall_cons in Hc as [(Hg & _) _]. destruct (pg_pendable _ _ _ Hgood (Path (cp_leaf c))) as [_ Hlive].
  { unfold pending_keys. rewrite Hcs. apply elem_of_app. right. cbn. left. }
  destruct (Hlive _ Hg Hd) as (l & Hl & _). eauto.
Qed.

Lemma completion_taken e c cs :
  syncing e → e_completions e = c :: cs →
  ∃ e2 ts, syncing e2 ∧ announces e e2 ts ∧ (Deleted (cp_leaf c) = false → ts = []) ∧
    e_files e2 = <[Path (cp_leaf c) := cp_leaf c]> (e_files e) ∧ e_completions e2 = cs ∧
    handleCompletion cfg (set_completions e cs) c = reconcileWithPeer cfg e2 a.
Proof.
  intros Hs Hcs. pose proof (sy_completions e Hs) as Hc. rewrite Hcs in Hc. apply Forall_cons in Hc as [(Hg & Hpeer & Hok & Hab & Hadv & Htomb & _) _].
  set (e0 := set_completions e cs). assert (inv e0) as Hi0 by apply inv_set_completions, Hs.
  assert (open (e_files e) (Path (cp_leaf c))) as Hopen by (eapply taken_open; eauto).
  assert (∃ e1 ts, announces e e1 ts ∧ (Deleted (cp_leaf c) = false → ts = []) ∧ inv e1 ∧ calm e1 = calm e0 ∧ e_files e1 = <[Path (cp_leaf c) := cp_leaf c]> (e_files e) ∧
    (∀ p, e_disk e1 !! p = e_disk e !! p ∨ (p = Path (cp_leaf c) ∧ Deleted (cp_leaf c) = true ∧ e_disk e1 !! p = None)) ∧
    handleCompletion cfg e0 c = reconcileShort cfg (clearInflight e1 (cp_peer c) (Path (cp_leaf c))) (cp_peer c))
    as (e1 & ts & Han & Hnil & Hi1 & Hcalm & Hf & Hd & Heq).
  { unfold handleCompletion. rewrite Htomb, Hab, Hok, Hadv. cbv zeta. destruct (Deleted (cp_leaf c)) eqn:Hdel.
    - destruct (announces_tombstone e0 (cp_leaf c)) as [ts Hts]; [apply Hs | done | done | exact (open_deletes e c cs Hs Hcs Hdel) |].
      exists (applyTombstone cfg e0 (cp_leaf c)), ts. split_and!; [by destruct Hts; split | done | by apply inv_applyTombstone | apply calm_applyTombstone | by rewrite e_files_applyTombstone | | done].
      intros p. rewrite applyTombstone_disk. destruct (decide (p = Path (cp_leaf c))) as [-> | Hne]; [| left; by apply Remove_frame].
      destruct (Remove_spares (e_disk e0) (Path (cp_leaf c)) (Path (cp_leaf c))) as [-> | ->]; [by left | by right].
    - eexists _, []. split_and!; [| | | | | | reflexivity]; [| done | | done | done | by left].
      { apply announces_silent; [done | done | by apply install_closes; [apply Hs |] |]. intros k' t' Hg' Hd' Ho'.
        assert (Path (cp_leaf c) ≠ k') as Hne by (intros <-; congruence). unfold Peace.open, Peace.verdict in *. cbn. by rewrite lookup_insert_ne. }
      apply inv_rebuild; [done |]. apply keyed_insert; [apply Hi0 | done]. }
  pose proof (syncing_taken e c cs e1 Hs Hcs Hi1 Hcalm Hf Hd) as Hs2. exists (clearInflight e1 (cp_peer c) (Path (cp_leaf c))), ts.
  rewrite Heq. unfold reconcileShort. pose proof (by_short _ Hs2) as Hby. rewrite <- Hpeer in Hby. rewrite Hby. split_and!; try done.
  - destruct Han as [Ha1 Ha2 Ha3 Ha4 Ha5]. unfold clearInflight. by case_match; split.
  - unfold clearInflight. by case_match.
  - unfold calm in Hcalm. injection Hcalm as _ _ Hcomp. unfold clearInflight. by case_match.
Qed.

(** ** The measure *)

Definition measure (e : Engine) : nat := 2 * size (openset (e_files e)) - arrivals (e_completions e).

Lemma arrivals_le cs : (arrivals cs ≤ length cs)%nat.
Proof. apply length_filter. Qed.
Lemma completions_open e : syncing e → (length (e_completions e) ≤ size (openset (e_files e)))%nat.
Proof.
  intros Hs. destruct (sy_state e Hs) as (ps & Hps & Hg). pose proof (pg_once _ _ _ Hg) as Hn.
  apply NoDup_app in Hn as (_ & _ & Hn). set (l := (λ c, Path (cp_leaf c)) <$> e_completions e) in *.
  assert (length (e_completions e) = size (list_to_set l : gset bytes)) as -> by (rewrite size_list_to_set by done; unfold l; by rewrite length_fmap).
  apply subseteq_size. intros k Hk%elem_of_list_to_set. apply elem_openset, (pg_pendable _ _ _ Hg).
  unfold pending_keys. apply elem_of_app. by right.
Qed.

(** Something is left to do, or every open path is in flight. *)
Definition covered (e : Engine) : Prop :=
  e_completions e ≠ [] ∨ ∃ ps, e_states e !! a = Some ps ∧ (ps_fetchQ ps ≠ [] ∨ ∀ k, open (e_files e) k → k ∈ ps_inflight ps).

Lemma reconcile_covered e : syncing e → covered (reconcileWithPeer cfg e a).
Proof.
  intros Hs. right. destruct (sy_state _ (reconcile_syncing e Hs)) as (ps & Hps & _). exists ps. split; [done |].
  destruct (ps_fetchQ ps) eqn:Hq; [right | by left]. intros k Ho.
  destruct (reconcile_covers e k Hs Ho) as (ps' & Hps' & [Hin | Hfull]); assert (ps' = ps) as -> by congruence; [done |].
  rewrite Hq in Hfull. cbn in Hfull. unfold fetchQueueDepth in Hfull. lia.
Qed.

(** ** Taking turns *)

(** A turn of the puller, fed what the peer announced under a fresh temporary name,
    or of the loop. *)
Inductive sync_step (e : Engine) : Engine → Prop :=
| sync_pull tmp now net e' :
    (∀ leaf, next_leaf e = Some leaf → fresh_temp (e_disk e) (Path leaf) tmp ∧ serves net.1 leaf) →
    puller_step cfg e a tmp now net = Some e' → sync_step e e'
| sync_loop c cs : e_completions e = c :: cs → sync_step e (handleCompletion cfg (set_completions e cs) c).

Lemma arrivals_bound e : syncing e → (arrivals (e_completions e) ≤ 2 * size (openset (e_files e)))%nat.
Proof. intros Hs. pose proof (completions_open e Hs). pose proof (arrivals_le (e_completions e)). lia. Qed.

Lemma sync_step_syncing e e' :
  sync_step e e' → syncing e → ∃ ts, syncing e' ∧ announces e e' ts ∧ (measure e' + length ts < measure e)%nat ∧ (covered e → covered e').
Proof.
  intros [tmp now net e1 Hnet Hpull | c cs Hcs] Hs.
  - destruct (pull_syncing e tmp now net e1 Hs Hnet Hpull) as (Hs' & Hf & Hlen & Hsent & Hpeers). exists []. split_and!; [done | | |].
    + by apply announces_same.
    + unfold measure. rewrite Hf. pose proof (arrivals_bound e1 Hs') as Hb. rewrite Hf in Hb. cbn. lia.
    + intros _. left. intros Hn. rewrite Hn in Hlen. cbn in Hlen. lia.
  - pose proof (taken_open e c cs Hs Hcs) as Ho.
    destruct (completion_taken e c cs Hs Hcs) as (e2 & ts1 & Hs2 & Ha1 & Hnil & Hf & Hc2 & ->).
    pose proof (sy_completions e Hs) as Hg. rewrite Hcs in Hg. apply Forall_cons in Hg as [(Hg & _) _].
    destruct (install_closes _ _ _ (sy_between e Hs) Hg) as [Hsub Hnot]. rewrite <- Hf in Hsub, Hnot.
    pose proof (openset_closes _ _ _ Hsub Ho Hnot) as Hlt.
    destruct (reconcile_announces e2 Hs2) as [ts2 Ha2]. pose proof (reconcile_syncing e2 Hs2) as Hs'.
    exists (ts1 ++ ts2). split_and!; [done | by eapply announces_trans | | intros _; by apply reconcile_covered].
    pose proof (an_open _ _ _ Ha1). pose proof (an_open _ _ _ Ha2). pose proof (arrivals_bound _ Hs') as Hb.
    rewrite reconcile_completions, Hc2 in Hb by done. unfold measure. rewrite reconcile_completions, Hc2, Hcs, length_app by done.
    unfold arrivals in *. destruct (Deleted (cp_leaf c)) eqn:Hd.
    + rewrite filter_cons_False by congruence. lia.
    + rewrite filter_cons_True by done. rewrite Hnil by done. cbn [length]. lia.
Qed.

Lemma sync_run n e e' :
  nsteps sync_step n e e' → syncing e → covered e → syncing e' ∧ covered e' ∧ (n + measure e' ≤ measure e)%nat.
Proof.
  induction 1 as [e | n e1 e2 e3 Hst _ IH]; intros Hs Hc; [split_and!; [done | done | lia] |].
  destruct (sync_step_syncing e1 e2 Hst Hs) as (ts & Hs2 & _ & Hlt & Hc2). destruct (IH Hs2 (Hc2 Hc)) as (? & ? & ?). split_and!; [done | done | lia].
Qed.

(** The puller has nothing to do, nothing is in flight and the loop has nothing to take. *)
Definition worked_off (e : Engine) : Prop :=
  e_completions e = [] ∧ ∃ ps, e_states e !! a = Some ps ∧ ps_fetchQ ps = [] ∧ ps_running ps = None ∧ ps_inflight ps = ∅.

(** Every path has its goal on record, but that a collected tombstone may be gone. *)
Definition adopted (f : Files) : Prop :=
  ∀ k, f !! k = goal k ∨ (f !! k = None ∧ ∃ t, goal k = Some t ∧ Deleted t = true).

(** A turn can be taken, whatever name, time and content it is fed, if the content is
    what was announced. *)
Definition can_step (e : Engine) : Prop :=
  (∃ c cs, e_completions e = c :: cs) ∨
  ∃ leaf, next_leaf e = Some leaf ∧ ∀ tmp now net, fresh_temp (e_disk e) (Path leaf) tmp → serves net.1 leaf →
    ∃ e', puller_step cfg e a tmp now net = Some e' ∧ sync_step e e'.

Lemma sync_progress e : syncing e → covered e → can_step e ∨ (worked_off e ∧ ∀ k, ¬ open (e_files e) k).
Proof.
  intros Hs Hc. destruct (e_completions e) as [|c cs] eqn:Hcs; [| left; left; eauto].
  destruct (sy_state e Hs) as (ps & Hps & Hg). destruct (ps_fetchQ ps) as [|t q] eqn:Hq.
  - right. assert (∀ k, k ∉ ps_inflight ps) as Hnone.
    { intros k Hk. apply (pg_inflight _ _ _ Hg) in Hk. unfold pending_keys in Hk.
      rewrite work_keys_idle, Hq, Hcs in Hk by apply Hg. by apply not_elem_of_nil in Hk. }
    split.
    + split; [done |]. exists ps. split_and!; [done | done | apply Hg |]. apply leibniz_equiv, elem_of_equiv_empty, Hnone.
    + intros k Ho. destruct Hc as [Hc | (ps' & Hps' & [Hc | Hc])]; [done | congruence |].
      assert (ps' = ps) as -> by congruence. by apply (Hnone k), Hc.
  - left. right. exists (default (ft_leaf t) (ft_preserve t)). unfold next_leaf. rewrite Hps. cbn [mbind option_bind]. rewrite (pg_running _ _ _ Hg), Hq.
    split; [done |]. intros tmp now net Ht Hn. destruct (puller_ready cfg e a ps tmp now net Hps) as [e' He'].
    { unfold sending. by rewrite Hcs. }
    { unfold load. rewrite Hq. cbn. lia. }
    exists e'. split; [done |]. eapply sync_pull; [| done]. unfold next_leaf. rewrite Hps. cbn [mbind option_bind]. rewrite (pg_running _ _ _ Hg), Hq.
    intros leaf Hl. apply (inj Some) in Hl as <-. done.
Qed.

Lemma closed_adopted f : between f → (∀ k, ¬ open f k) → adopted f.
Proof. intros Hb Ho k. by apply (closed_stage _ _ _ Hp f k). Qed.

(** ** From rest *)

Lemma rest_syncing e ps :
  inv e → e_peers e !! id = Some a → distinct_shorts e → e_states e !! a = Some ps → ps_index ps = idx → e_files e = f0 →
  e_disk e = d0 → worked_off e → (∀ k x, wanted k x → room_for (e_disk e) k) → syncing e.
Proof.
  intros Hi Hpe Hsh Hps Hix Hf Hd0 [Hc (ps' & Hps' & Hq & Hrun & Hin)] Hr. assert (ps' = ps) as -> by congruence. split; try done.
  - rewrite Hf. apply between_start.
  - exists ps. split; [done |]. assert (pending_keys (e_completions e) ps = []) as Hpk.
    { unfold pending_keys. by rewrite work_keys_idle, Hq, Hc. }
    split; rewrite ?Hpk; try done; [by rewrite Hq | apply NoDup_nil_2 | |].
    + intros k. rewrite Hin. split; [by intros ?%not_elem_of_empty | by intros ?%not_elem_of_nil].
    + by intros k ?%not_elem_of_nil.
  - rewrite Hc. constructor.
  - intros k x (Ho & Hg & _) Hx. destruct Ho. rewrite Hf in Hx. unfold Peace.verdict. rewrite Hx, <- Hg. by apply (goal_settled _ _ _ Hp).
  - intros k c m ts _. by rewrite Hd0.
Qed.
End sync.
