(* ===== verification/Sync.v ===== *)
(** * Sync: devices without a conflict converge

    An idle device hears the index of a peer with which nothing is in conflict. From
    then on its puller and its loop take turns, in any order. If what the puller
    fetches is what the peer advertised, then every step succeeds, there are at most
    two steps per path that differs, and when there is no step left every path has
    its goal, on record and on disk. Two devices that each did this for the other's
    index hold the same tree. *)
From S2P Require Import Prelude Bytes VersionVector Framing Messages Windows Pathnorm Hashing.
From S2P Require Import FileInfo Tree Oracle Differ Conflict Scanner Disk Transfer Replica Engine.
From S2P Require Import Story Invariant Reconcile Progress Work Converge Peace Room Catchup.

(** ** Hearing an index *)

Section heard.
Context `{OS, Digest, Unicode}.
Context (cfg : Config).

(** A device with nothing to do, that has met its peer before. *)
Record at_rest (e : Engine) (id : DeviceID) (a : nat) : Prop := mkAtRest {
  ar_reachable : reachable cfg e;
  ar_peer : e_peers e !! id = Some a;
  ar_shorts : distinct_shorts e;
  ar_idle : worked_off a e;
  ar_seeded : e_reseed e = false;
  ar_case : cfg_caseSensitive cfg = true
}.

(** The index is one the device can adopt: nothing is in conflict, what is to be
    installed are regular files, and there is room for them on the disk. *)
Record agreeable (e : Engine) (idx : Files) : Prop := mkAgreeable {
  ag_peace : peace (selfShort cfg) (e_files e) idx;
  ag_files k x : wanted cfg (e_files e) idx k x → Type_ x = TypeFile;
  ag_room k x : wanted cfg (e_files e) idx k x → room_for (e_disk e) k
}.

(** The engine with the index [idx] for its peer. *)
Definition told_index (a : nat) (idx : Files) (e : Engine) : Engine := upd_ps e a (λ ps, ps_set_index ps idx).

Lemma heard_reconciles e id a m set :
  at_rest e id a → DecodeFileInfos (ix_Body m) = Ok set →
  handleTransportEvent cfg e (PeerMessage id (MIndex m)) = reconcileWithPeer cfg (told_index a (files_of set) e) a.
Proof.
  intros Hrest Hdec. cbn [handleTransportEvent]. unfold handleMessage. rewrite (ar_peer _ _ _ Hrest). cbn [onIndex]. unfold onIndex.
  rewrite Hdec. cbv zeta. change (e_reseed (upd_ps e a _)) with (e_reseed e). by rewrite (ar_seeded _ _ _ Hrest).
Qed.
Lemma told_syncing e id a idx :
  at_rest e id a → keyed idx → agreeable e idx → syncing cfg id a (e_files e) idx (e_disk e) (told_index a idx e).
Proof.
  intros [Hr Hpe Hsh Hidle Hseed Hcase] Hk [Hp Ht Hroom]. destruct Hidle as [Hcs (ps & Hps & Hq & Hrun & Hin)].
  apply (rest_syncing cfg id a (e_files e) idx (e_disk e) Hp (told_index a idx e) (ps_set_index ps idx)); try done.
  - apply inv_upd_ps; [by apply frame_index | by eapply reachable_inv].
  - cbn. by rewrite lookup_alter_eq, Hps.
  - split; [done |]. exists (ps_set_index ps idx). split; [cbn; by rewrite lookup_alter_eq, Hps | done].
Qed.

Lemma heard_syncing e id a m set :
  at_rest e id a → DecodeFileInfos (ix_Body m) = Ok set → agreeable e (files_of set) →
  let e1 := handleTransportEvent cfg e (PeerMessage id (MIndex m)) in
  syncing cfg id a (e_files e) (files_of set) (e_disk e) e1 ∧ covered cfg a (files_of set) e1 ∧
  ∃ ts, announces cfg (e_files e) (files_of set) e e1 ts ∧
    (measure cfg (files_of set) e1 + length ts ≤ 2 * size (openset cfg (files_of set) (e_files e)))%nat.
Proof.
  intros Hrest Hdec Hag e1. pose proof Hag as [Hp _ _]. unfold e1. rewrite (heard_reconciles e id a m set Hrest Hdec).
  set (idx := files_of set) in *. set (e0 := told_index a idx e).
  assert (syncing cfg id a (e_files e) idx (e_disk e) e0) as Hs by (apply told_syncing; [done | apply keyed_files_of | done]).
  split_and!; [by apply reconcile_syncing | by apply (reconcile_covered cfg id a (e_files e) idx (e_disk e)) |].
  destruct (reconcile_announces cfg id a (e_files e) idx (e_disk e) Hp e0 Hs) as [ts Hts]. exists ts. split.
  - change ts with ([] ++ ts). eapply announces_trans; [| exact Hts]. by apply announces_same.
  - pose proof (an_open _ _ _ _ _ _ Hts) as Ho. unfold measure.
    rewrite (reconcile_completions cfg id a (e_files e) idx (e_disk e) Hp e0 Hs). cbn in Ho |- *. lia.
Qed.

(** Where a run can end. *)
Lemma heard_run e id a m set n e' :
  at_rest e id a → DecodeFileInfos (ix_Body m) = Ok set → agreeable e (files_of set) →
  nsteps (sync_step cfg a) n (handleTransportEvent cfg e (PeerMessage id (MIndex m))) e' →
  syncing cfg id a (e_files e) (files_of set) (e_disk e) e' ∧ (n ≤ 2 * size (openset cfg (files_of set) (e_files e)))%nat ∧
  (can_step cfg a e' ∨ (worked_off a e' ∧ adopted cfg (e_files e) (files_of set) (e_files e'))).
Proof.
  intros Hrest Hdec [Hp Ht Hroom] Hn. destruct (heard_syncing e id a m set Hrest Hdec) as (Hs & Hc & ts & _ & Hm); [done |].
  destruct (sync_run cfg id a _ _ _ Hp Ht (ar_case _ _ _ Hrest) n _ e' Hn Hs Hc) as (Hs' & Hc' & Hle).
  split_and!; [done | lia |]. destruct (sync_progress cfg id a _ _ _ e' Hs' Hc') as [? | [Hw Ho]]; [by left | right].
  split; [done |]. apply closed_adopted; [done | apply Hs' | done].
Qed.

(** What buildIndex encodes is what the receiver records. *)
Lemma index_decodes folder files m :
  keyed files → Forall wire_ok (set_of files) → in_width 32 (Z.of_nat (size files)) → buildIndex folder files = Ok m →
  ∃ set, DecodeFileInfos (ix_Body m) = Ok set ∧ files_of set = files.
Proof.
  intros Hk Hw Hsz Hm. destruct (index_exchange folder files Hk Hw Hsz) as (m' & set & Hm' & _ & Hd & Hf).
  assert (m' = m) as -> by (rewrite Hm in Hm'; by injection Hm'). by exists set.
Qed.

(** ** Two goals *)

Lemma unknown_tombstone_sym x y : unknown_tombstone x y → unknown_tombstone y x.
Proof. intros [Hu | Hu]; [by right | by left]. Qed.

Lemma goals_agree `{!UnicodeLaws} fA fB sA sB k :
  (∀ x y, fA !! k = Some x → fB !! k = Some y → leaf_pair x y ∧ same_modes x y) →
  skey <$> goal sA fA fB k = skey <$> goal sB fB fA k ∨ unknown_tombstone (goal sA fA fB k) (goal sB fB fA k).
Proof.
  intros Hlp. unfold goal, verdict. destruct (fA !! k) as [x |] eqn:Hx, (fB !! k) as [y |] eqn:Hy.
  - left. by apply resolve_agree; apply (Hlp x y).
  - unfold resolve. destruct (Deleted x) eqn:Hd; [right; left; by exists x | by left].
  - unfold resolve. destruct (Deleted y) eqn:Hd; [right; right; by exists y | by left].
  - by left.
Qed.
Lemma adopted_agree `{!UnicodeLaws} (x y gx gy : option FileInfo) :
  skey <$> gx = skey <$> gy ∨ unknown_tombstone gx gy →
  x = gx ∨ (x = None ∧ ∃ t, gx = Some t ∧ Deleted t = true) → y = gy ∨ (y = None ∧ ∃ t, gy = Some t ∧ Deleted t = true) →
  skey <$> x = skey <$> y ∨ unknown_tombstone x y.
Proof.
  intros Hg [-> | (-> & t & -> & Hd)] [-> | (-> & t' & -> & Hd')]; [done | | | by left].
  - destruct Hg as [Hg | [(t & -> & _ & Hn) | (t & _ & _ & ->)]]; [| done | by left]. destruct gx as [g |]; [| done].
    right. left. exists g. apply (inj Some) in Hg. unfold skey in Hg. injection Hg as _ _ Hdel _. split_and!; [done | congruence | done].
  - destruct Hg as [Hg | [(t0 & _ & _ & ->) | (t0 & -> & _ & Hn)]]; [| by left | done]. destruct gy as [g |]; [| done].
    right. right. exists g. apply (inj Some) in Hg. unfold skey in Hg. injection Hg as _ _ Hdel _. split_and!; [done | congruence | done].
Qed.
End heard.

(** * Properties *)

(** C2: a device that is behind catches up. The device is at rest: nothing is queued,
    running, reported or in flight, it is not reseeding, its connected peers have
    distinct short ids, and its volume is case-sensitive. It hears an index it can
    adopt: of each path one side's record is causally newer or both have the same
    content; no path lies below another; what is to be installed are regular files only,
    for each of which the disk has room (no directory in its place, no file or link
    among its ancestors); keys and fields fit the encodings, and no two strings
    the trees hash collide. Its puller and its loop then take turns in any order,
    each fetch yielding what the peer announced and no further message arriving. Then no run is
    longer than two turns for every path at which the index asks for something, and
    as long as it can go on it can go on with any content of the announced hash; when
    it cannot, the device is idle, every path has the record its verdict called for
    (but that a tombstone the peer has as well may be collected), and every file that was
    to be installed is on record and its content on the disk. *)
Theorem catches_up `{OS, Digest, Unicode} cfg e id a m set n e' :
  at_rest cfg e id a → DecodeFileInfos (ix_Body m) = Ok set → agreeable cfg e (files_of set) →
  nsteps (sync_step cfg a) n (handleTransportEvent cfg e (PeerMessage id (MIndex m))) e' →
  (n ≤ 2 * size (openset cfg (files_of set) (e_files e)))%nat ∧
  (can_step cfg a e' ∨
   worked_off a e' ∧ adopted cfg (e_files e) (files_of set) (e_files e') ∧
   ∀ k x, wanted cfg (e_files e) (files_of set) k x → e_files e' !! k = Some x ∧ has_content (e_disk e') x).
Proof.
  intros Hrest Hdec Hag Hn. destruct (heard_run cfg e id a m set n e' Hrest Hdec Hag Hn) as (Hs & Hle & Hor).
  split; [done |]. destruct Hor as [? | [Hw Had]]; [by left | right]. split_and!; [done | done |].
  intros k x Hk. pose proof Hk as (_ & Hg & Hd).
  assert (e_files e' !! k = Some x) as Hx by (destruct (Had k) as [-> | (_ & t & Ht & Hdt)]; [done | congruence]).
  split; [done |]. by apply (sy_placed _ _ _ _ _ _ _ Hs k).
Qed.

(** devices without a conflict converge: two devices at rest, no record of one
    in conflict with a record of the other, are each told the other's index (as
    buildIndex encodes it) and catch up independently, in any order. Each needs at
    most two turns for every path that differs; and when neither can go on, they agree
    structurally on every path, except a tombstone on one side of a path the other has
    no record of, and if there is none their root hashes are equal. *)
Theorem peaceful_devices_converge `{OS, Digest, UnicodeLaws} cfgA cfgB A B a b mA mB n A' n' B' :
  at_rest cfgA A (cfg_Self cfgB) a → at_rest cfgB B (cfg_Self cfgA) b →
  agreeable cfgA A (e_files B) → agreeable cfgB B (e_files A) →
  (∀ k x y, e_files A !! k = Some x → e_files B !! k = Some y → leaf_pair x y ∧ same_modes x y) →
  Forall wire_ok (set_of (e_files A)) → Forall wire_ok (set_of (e_files B)) →
  in_width 32 (Z.of_nat (size (e_files A))) → in_width 32 (Z.of_nat (size (e_files B))) →
  buildIndex (cfg_FolderID cfgA) (e_files A) = Ok mA → buildIndex (cfg_FolderID cfgB) (e_files B) = Ok mB →
  nsteps (sync_step cfgA a) n (handleTransportEvent cfgA A (PeerMessage (cfg_Self cfgB) (MIndex mB))) A' →
  nsteps (sync_step cfgB b) n' (handleTransportEvent cfgB B (PeerMessage (cfg_Self cfgA) (MIndex mA))) B' →
  (n ≤ 2 * size (openset cfgA (e_files B) (e_files A)))%nat ∧ (n' ≤ 2 * size (openset cfgB (e_files A) (e_files B)))%nat ∧
  (can_step cfgA a A' ∨ can_step cfgB b B' ∨
   (∀ k, skey <$> e_files A' !! k = skey <$> e_files B' !! k ∨ unknown_tombstone (e_files A' !! k) (e_files B' !! k)) ∧
   ((∀ k, ¬ unknown_tombstone (e_files A' !! k) (e_files B' !! k)) → RootHash (e_tree A') = RootHash (e_tree B'))).
Proof.
  intros HA HB HagA HagB Hlp HwA HwB HszA HszB HmA HmB HnA HnB.
  pose proof (reachable_inv cfgA A (ar_reachable _ _ _ _ HA)) as HiA. pose proof (reachable_inv cfgB B (ar_reachable _ _ _ _ HB)) as HiB.
  destruct (index_decodes (cfg_FolderID cfgA) (e_files A) mA (inv_keyed A HiA) HwA HszA HmA) as (setA & HdA & HfA).
  destruct (index_decodes (cfg_FolderID cfgB) (e_files B) mB (inv_keyed B HiB) HwB HszB HmB) as (setB & HdB & HfB).
  rewrite <- HfB in HagA |- *. rewrite <- HfA in HagB |- *.
  destruct (heard_run cfgA A _ a mB setB n A' HA HdB HagA HnA) as (HsA & HleA & HorA).
  destruct (heard_run cfgB B _ b mA setA n' B' HB HdA HagB HnB) as (HsB & HleB & HorB).
  split; [by rewrite HfA |]. split; [by rewrite HfB |].
  destruct HorA as [? | [_ HadA]]; [by left |]. destruct HorB as [? | [_ HadB]]; [by right; left |]. right. right.
  rewrite HfB in HadA. rewrite HfA in HadB.
  assert (∀ k, skey <$> e_files A' !! k = skey <$> e_files B' !! k ∨ unknown_tombstone (e_files A' !! k) (e_files B' !! k)) as Hag.
  { intros k. eapply adopted_agree; [| apply HadA | apply HadB]. apply goals_agree. intros x y. apply Hlp. }
  split; [done |]. intros Hno. apply (similar_roots A' B').
  - apply HsA.
  - apply HsB.
  - intros k. destruct (Hag k) as [? | ?]; [done | by destruct (Hno k)].
  - rewrite <- HfB in HadA. destruct HagA as [Hp _ _].
    destruct (trees _ _ _ Hp (e_files A')) as (t & _ & Ht & _); [apply inv_keyed, HsA | apply HsA | by exists t].
Qed.

(** ** Witnesses

    The story's devices, which agree, after A has edited the file again. *)
Section sync_witness.
#[local] Existing Instance toy_digest.

Definition again_note : FileInfo := mkFileInfo note (sum256 (go! "v2")) 2 420 4000000000 [mkCounter here 2] false TypeFile.
Lemma single_record (m : Files) k x : map_to_list m = [(k, x)] → m = {[ k := x ]}.
Proof. intros Hm. apply map_to_list_inj. by rewrite Hm, map_to_list_singleton. Qed.
Lemma again_files : e_files a_again = {[ note := again_note ]}.
Proof. apply single_record. vm_compute. reflexivity. Qed.
Lemma synced_files : e_files b_synced = {[ note := edited_note ]}.
Proof. apply single_record. vm_compute. reflexivity. Qed.

Lemma again_reachable : reachable home a_again.
Proof.
  eapply reachable_step; [eapply reachable_step; [exact a_synced_reachable |] |];
    [apply step_own, (step_user home _ (holding (go! "v2") 4000000000)) | apply step_own, step_local].
Qed.

Lemma idle_run e ps :
  e_completions e = [] → e_states e !! 0%nat = Some ps →
  (elements (ps_inflight ps), ps_fetchQ ps, ps_running ps) = ([], [], None) → worked_off 0 e.
Proof.
  intros Hc Hps [= Hin Hq Hr]. split; [done |]. exists ps. split_and!; try done.
  apply leibniz_equiv, elem_of_equiv_empty. intros k Hk%elem_of_elements. rewrite Hin in Hk. by apply not_elem_of_nil in Hk.
Qed.

Lemma a_at_rest : at_rest home a_again (device "B") 0.
Proof.
  split.
  - exact again_reachable.
  - vm_compute. reflexivity.
  - apply (one_peer_distinct _ (device "B", 0%nat)). vm_compute. reflexivity.
  - apply (idle_run a_again (match e_states a_again !! 0%nat with Some ps => ps | None => ps_conflict end)).
    + vm_compute. reflexivity.
    + apply state_chosen. vm_compute. reflexivity.
    + vm_compute. reflexivity.
  - vm_compute. reflexivity.
  - reflexivity.
Qed.
Lemma b_at_rest : at_rest away b_synced (device "A") 0.
Proof.
  split.
  - exact b_synced_reachable.
  - vm_compute. reflexivity.
  - apply (one_peer_distinct _ (device "A", 0%nat)). vm_compute. reflexivity.
  - apply (idle_run b_synced b_ps).
    + vm_compute. reflexivity.
    + apply state_chosen. vm_compute. reflexivity.
    + vm_compute. reflexivity.
  - vm_compute. reflexivity.
  - reflexivity.
Qed.

(** Two sets of one record each, of the same path. *)
Lemma peace_single self k x y z :
  Path x = k → Path y = k → canonical (Version x) → canonical (Version y) → at_peace x y → path_ok k →
  outcome (Some x) (resolve (Some x) (Some y) self) = Some z → Deleted z = false → Forall fi_width [x; y; z] →
  Forall (λ u, collision_free (preimages (tree_of [u]) ++ preimages (tree_of [y]))) [x; z] →
  peace self {[ k := x ]} {[ k := y ]}.
Proof.
  intros Hx Hy Hcx Hcy Hp Hk Hz Hd Hw Hcf.
  assert (∀ k', is_Some (({[ k := x ]} : Files) !! k') ∨ is_Some (({[ k := y ]} : Files) !! k') → k' = k) as Hkn.
  { intros k' [[u [-> _]%lookup_singleton_Some] | [u [-> _]%lookup_singleton_Some]]; done. }
  assert (∀ k', goal self {[ k := x ]} {[ k := y ]} k' = if decide (k = k') then Some z else None) as Hg.
  { intros k'. unfold goal, verdict. case_decide as Hkk; [subst k'; by rewrite !lookup_singleton_eq | by rewrite !lookup_singleton_ne]. }
  assert (∀ u, set_of {[ k := u ]} = [u]) as Hset by (intros u; unfold set_of; by rewrite map_to_list_singleton).
  assert (∀ u t, BuildTree [u] = Ok t → t = tree_of [u]) as Htree by (intros u t Ht; unfold tree_of; by rewrite Ht).
  rewrite Forall_forall in Hw. split.
  - split; by apply map_Forall_singleton.
  - intros k' u. rewrite !lookup_singleton_Some. naive_solver.
  - intros k' l r. rewrite !lookup_singleton_Some. naive_solver.
  - intros k' ->%Hkn. done.
  - intros k1 k2 ->%Hkn ->%Hkn. done.
  - intros k' u. rewrite !lookup_singleton_Some, Hg. intros [[_ <-] | [[_ <-] | Hu]]; [apply Hw; left | apply Hw; right; left |].
    case_decide; [| done]. apply (inj Some) in Hu as <-. apply Hw. right; right; left.
  - intros f t pt _ Hb Ht Hpt. rewrite Hset in Hpt. apply Htree in Hpt as ->.
    assert (∃ u, u ∈ [x; z] ∧ f = {[ k := u ]}) as (u & Hu & ->).
    { assert (∀ k', k' ≠ k → f !! k' = None) as Hother.
      { intros k' Hne. destruct (Hb k') as [Hs | [Hs | (Hs & _)]]; [| | done]; rewrite Hs; [by rewrite lookup_singleton_ne |].
        rewrite Hg. by rewrite decide_False. }
      destruct (Hb k) as [Hs | [Hs | (Hs & (t0 & Ht0 & Hd0) & _)]].
      - rewrite lookup_singleton_eq in Hs. exists x. split; [left |]. apply map_eq. intros k'.
        destruct (decide (k = k')) as [<- | Hne]; [by rewrite lookup_singleton_eq | rewrite lookup_singleton_ne by done; auto].
      - rewrite Hg, decide_True in Hs by done. exists z. split; [right; left |]. apply map_eq. intros k'.
        destruct (decide (k = k')) as [<- | Hne]; [by rewrite lookup_singleton_eq | rewrite lookup_singleton_ne by done; auto].
      - rewrite Hg, decide_True in Ht0 by done. congruence. }
    rewrite Hset in Ht. apply Htree in Ht as ->. rewrite Forall_forall in Hcf. by apply Hcf.
Qed.

Lemma room_note e c m ts : e_disk e !! note = Some (EFile c m ts) → room_for (e_disk e) note.
Proof.
  intros Hd. split; [right; eauto |]. assert (parents note = []) as -> by (vm_compute; reflexivity). by intros p ?%not_elem_of_nil.
Qed.
Lemma wanted_single cfg x y z k u :
  outcome (Some x) (resolve (Some x) (Some y) (selfShort cfg)) = Some z →
  wanted cfg {[ note := x ]} {[ note := y ]} k u → k = note ∧ u = z.
Proof.
  intros Hz (_ & Hg & _). unfold goal, verdict in Hg. destruct (decide (note = k)) as [<- | Hne].
  - rewrite !lookup_singleton_eq, Hz in Hg. by injection Hg.
  - by rewrite !lookup_singleton_ne in Hg.
Qed.
Lemma agreeable_single cfg e x y z c m ts :
  e_files e = {[ note := x ]} → peace (selfShort cfg) {[ note := x ]} {[ note := y ]} →
  outcome (Some x) (resolve (Some x) (Some y) (selfShort cfg)) = Some z → Type_ z = TypeFile →
  e_disk e !! note = Some (EFile c m ts) → agreeable cfg e {[ note := y ]}.
Proof.
  intros Hx Hp Hz Ht Hd.
  assert (∀ k u, wanted cfg (e_files e) {[ note := y ]} k u → k = note ∧ u = z) as Hw.
  { rewrite Hx. intros k u. by apply wanted_single. }
  split; [by rewrite Hx | |]; intros k u [-> ->]%Hw; [done | by apply (room_note e c m ts)].
Qed.

Lemma edited_again : at_peace edited_note again_note ∧ at_peace again_note edited_note.
Proof. split; intros [Hc | Hc]; vm_compute in Hc; discriminate. Qed.
Lemma note_ok : path_ok note.
Proof. apply (bool_decide_unpack _). vm_compute. exact I. Qed.

Lemma b_agreeable : agreeable away b_synced {[ note := again_note ]}.
Proof.
  apply (agreeable_single away b_synced edited_note again_note again_note (go! "v1") 384 7); [exact synced_files | | | |].
  - apply (peace_single _ note edited_note again_note again_note); [reflexivity | reflexivity | | | apply edited_again | apply note_ok | | reflexivity | |].
    + cbn [Version edited_note]. unfold here. vv_concrete.
    + cbn [Version again_note]. unfold here. vv_concrete.
    + vm_compute. reflexivity.
    + apply (bool_decide_unpack _). vm_compute. exact I.
    + apply (bool_decide_unpack _). vm_compute. exact I.
  - vm_compute. reflexivity.
  - reflexivity.
  - exact b_has_the_edit.
Qed.
Lemma a_agreeable : agreeable home a_again {[ note := edited_note ]}.
Proof.
  apply (agreeable_single home a_again again_note edited_note again_note (go! "v2") 420 4000000000); [exact again_files | | | |].
  - apply (peace_single _ note again_note edited_note again_note); [reflexivity | reflexivity | | | apply edited_again | apply note_ok | | reflexivity | |].
    + cbn [Version again_note]. unfold here. vv_concrete.
    + cbn [Version edited_note]. unfold here. vv_concrete.
    + vm_compute. reflexivity.
    + apply (bool_decide_unpack _). vm_compute. exact I.
    + apply (bool_decide_unpack _). vm_compute. exact I.
  - vm_compute. reflexivity.
  - reflexivity.
  - vm_compute. reflexivity.
Qed.

Definition index_of (files : Files) : Index :=
  match buildIndex (go! "folder") files with Ok m => m | Err _ => mkIndex [] 0 [] end.
Definition a_told : Engine := handleTransportEvent home a_again (PeerMessage (device "B") (MIndex (index_of (e_files b_synced)))).
Definition b_behind : Engine := handleTransportEvent away b_synced (PeerMessage (device "A") (MIndex (index_of (e_files a_again)))).
Definition b_fetched : Engine :=
  match puller_step away b_behind 0 copy_tmp 7 ([go! "v2"], None, None) with Some e => e | None => b_behind end.
Definition b_caught : Engine :=
  match e_completions b_fetched with c :: cs => handleCompletion away (set_completions b_fetched cs) c | [] => b_fetched end.

Lemma step_chosen (o : option Engine) e : bool_decide (is_Some o) = true → o = Some (match o with Some e' => e' | None => e end).
Proof. intros [e' ->]%bool_decide_eq_true. done. Qed.
Lemma b_turns : nsteps (sync_step away 0) 2 b_behind b_caught.
Proof.
  eapply nsteps_l; [| eapply nsteps_l; [| apply nsteps_O]].
  - apply (sync_pull away 0 b_behind copy_tmp 7 ([go! "v2"], None, None) b_fetched).
    + assert (next_leaf 0 b_behind = Some again_note) as -> by (vm_compute; reflexivity).
      intros leaf Hl. apply (inj Some) in Hl as <-. split; [apply (bool_decide_unpack _); vm_compute; exact I |].
      split; vm_compute; reflexivity.
    + apply step_chosen. vm_compute. reflexivity.
  - unfold b_caught. assert (length (e_completions b_fetched) = 1%nat) as Hlen by (vm_compute; reflexivity).
    destruct (e_completions b_fetched) as [|c cs] eqn:Hc; [discriminate Hlen |]. by apply sync_loop.
Qed.

Lemma decoded_again : ∃ set, DecodeFileInfos (ix_Body (index_of (e_files a_again))) = Ok set ∧ files_of set = {[ note := again_note ]}.
Proof.
  exists [again_note]. split; [vm_compute; reflexivity |]. apply single_record. vm_compute. reflexivity.
Qed.

(** No turn is left. *)
Lemma no_turn cfg e : e_completions e = [] → next_leaf 0 e = None → ¬ can_step cfg 0 e.
Proof. intros Hc Hn [(c & cs & Hcs) | (leaf & Hl & _)]; congruence. Qed.
Lemma a_told_stuck : ¬ can_step home 0 a_told.
Proof. apply no_turn; vm_compute; reflexivity. Qed.
Lemma b_caught_stuck : ¬ can_step away 0 b_caught.
Proof. apply no_turn; vm_compute; reflexivity. Qed.

Lemma catches_up_witness :
  nsteps (sync_step away 0) 2 b_behind b_caught ∧ worked_off 0 b_caught ∧
  ∀ k x, wanted away (e_files b_synced) {[ note := again_note ]} k x → e_files b_caught !! k = Some x ∧ has_content (e_disk b_caught) x.
Proof.
  split; [exact b_turns |]. destruct decoded_again as (set & Hd & Hf).
  destruct (catches_up away b_synced (device "A") 0%nat (index_of (e_files a_again)) set 2 b_caught) as (_ & [Hc | (Hw & _ & Hk)]).
  - exact b_at_rest.
  - exact Hd.
  - rewrite Hf. exact b_agreeable.
  - exact b_turns.
  - destruct (b_caught_stuck Hc).
  - rewrite Hf in Hk. split; [exact Hw | exact Hk].
Defined.

Lemma wire_single x : wire_ok x → Forall wire_ok (set_of {[ note := x ]}).
Proof. intros Hx. unfold set_of. rewrite map_to_list_singleton. by constructor. Qed.
Lemma again_wire : wire_ok again_note ∧ wire_ok edited_note.
Proof.
  split; (split; [apply (bool_decide_unpack _); vm_compute; exact I | | width; cbn; lia | vm_compute; discriminate | vm_compute; reflexivity]).
  - cbn [Version again_note]. unfold here. vv_concrete.
  - cbn [Version edited_note]. unfold here. vv_concrete.
Qed.
Lemma again_pair : leaf_pair again_note edited_note ∧ same_modes again_note edited_note.
Proof.
  split; [| intros _; reflexivity]. split; [reflexivity | | | |].
  - split_and!; [apply (bool_decide_unpack _); vm_compute; exact I | discriminate |]. apply (bool_decide_unpack _). vm_compute. exact I.
  - cbn [Version again_note]. unfold here. vv_concrete.
  - cbn [Version edited_note]. unfold here. vv_concrete.
  - intros _. right. vm_compute. discriminate.
Qed.
Lemma told_files : e_files a_told = {[ note := again_note ]}.
Proof. apply single_record. vm_compute. reflexivity. Qed.
Lemma caught_files : e_files b_caught = {[ note := again_note ]}.
Proof. apply single_record. vm_compute. reflexivity. Qed.

Lemma peaceful_devices_converge_witness :
  RootHash (e_tree a_again) ≠ RootHash (e_tree b_synced) ∧ RootHash (e_tree a_told) = RootHash (e_tree b_caught).
Proof.
  split; [vm_compute; discriminate |]. destruct again_wire as [Hwa Hwb].
  destruct (peaceful_devices_converge home away a_again b_synced 0 0 (index_of (e_files a_again)) (index_of (e_files b_synced)) 0 a_told 2 b_caught)
    as (_ & _ & [Hc | [Hc | [_ Hroot]]]).
  - exact a_at_rest.
  - exact b_at_rest.
  - rewrite synced_files. exact a_agreeable.
  - rewrite again_files. exact b_agreeable.
  - rewrite again_files, synced_files. intros k x y. rewrite !lookup_singleton_Some. intros [_ <-] [_ <-]. exact again_pair.
  - rewrite again_files. by apply wire_single.
  - rewrite synced_files. by apply wire_single.
  - rewrite again_files, map_size_singleton. width. lia.
  - rewrite synced_files, map_size_singleton. width. lia.
  - rewrite again_files. vm_compute. reflexivity.
  - rewrite synced_files. vm_compute. reflexivity.
  - apply nsteps_O.
  - exact b_turns.
  - destruct (a_told_stuck Hc).
  - destruct (b_caught_stuck Hc).
  - apply Hroot. rewrite told_files, caught_files. intros k [(t & Hx & _ & Hy) | (t & Hx & _ & Hy)]; congruence.
Defined.
End sync_witness.
