(* ===== verification/Ordered.v ===== *)
(** * Ordered: two sets of records with ordered histories

    Where every two records of a path are causally ordered, or agree, the goal of a
    path is the [newer] of the two and does not depend on who asks. The index a device
    has of its peer may advance, one deletion that the peer took over at a time
    ([advanced], [news]): that changes no goal and opens or closes no path. *)
From S2P Require Import Prelude Bytes VersionVector Framing Messages Windows Pathnorm Hashing.
From S2P Require Import FileInfo Tree Oracle Differ Conflict Scanner Disk Transfer Replica Engine.
From S2P Require Import Story Invariant Reconcile Progress Work Converge Peace Room Catchup.

Section ordered.
Context `{OS, Digest, Unicode}.

(** One record is causally newer, or they agree structurally. *)
Definition ordered (x y : FileInfo) : Prop :=
  match Compare (Version x) (Version y) with Equal => skey x = skey y | Concurrent => False | _ => True end.

(** A set made of records of either. *)
Definition mixed (fX fY f : Files) : Prop := ∀ k, f !! k = None ∨ f !! k = fX !! k ∨ f !! k = fY !! k.

(** What two devices hold so that they can adopt each other's records: ordered
    histories, paths that can stand in one tree, records that fit the wire, and no
    hash collision in the trees on the way. *)
Record compatible (fX fY : Files) : Prop := mkCompatible {
  co_keyed : keyed fX ∧ keyed fY;
  co_wire k x : fX !! k = Some x ∨ fY !! k = Some x → wire_ok x;
  co_ordered k x y : fX !! k = Some x → fY !! k = Some y → ordered x y;
  co_paths k : is_Some (fX !! k) ∨ is_Some (fY !! k) → path_ok k;
  co_apart k1 k2 : is_Some (fX !! k1) ∨ is_Some (fY !! k1) → is_Some (fX !! k2) ∨ is_Some (fY !! k2) → k1 ≠ k2 →
    ¬ split_on slash_c k1 `prefix_of` split_on slash_c k2;
  co_hash f g t u : keyed f → keyed g → mixed fX fY f → mixed fX fY g → BuildTree (set_of f) = Ok t → BuildTree (set_of g) = Ok u →
    collision_free (preimages t ++ preimages u)
}.

Lemma ordered_sym x y : canonical (Version x) → canonical (Version y) → ordered x y → ordered y x.
Proof.
  intros Hx Hy. unfold ordered. rewrite (Compare_flip (Version x) (Version y)) by done.
  by destruct (Compare (Version x) (Version y)).
Qed.

Lemma compatible_sym fX fY : compatible fX fY → compatible fY fX.
Proof.
  intros [Hk Hw Ho Hpa Hap Hh]. split.
  - tauto.
  - intros k x [? | ?]; eauto.
  - intros k x y Hx Hy. apply ordered_sym; [by apply (Hw k); auto.. | by apply (Ho k)].
  - intros k [? | ?]; auto.
  - intros k1 k2 Hk1 Hk2. apply Hap; tauto.
  - intros f g t u Hkf Hkg Hf Hg. apply Hh; [done | done | |]; intros k; [specialize (Hf k) | specialize (Hg k)]; tauto.
Qed.

(** The record a path should have. *)
Definition newer (x y : option FileInfo) : option FileInfo :=
  match x, y with
  | Some l, Some r => Some (if decide (Compare (Version l) (Version r) = DominatedBy) then r else l)
  | None, Some r => if Deleted r then None else Some r
  | _, None => x
  end.

Context (fX fY : Files) (self : Z).
Context (Hco : compatible fX fY).

Lemma canonical_of k x : fX !! k = Some x ∨ fY !! k = Some x → canonical (Version x).
Proof. intros Hx. by apply (co_wire _ _ Hco k). Qed.

(** [l] here, a deletion [t] that is newer there. *)
Definition outdated (l t : FileInfo) : Prop := Deleted t = true ∧ Compare (Version l) (Version t) = DominatedBy.

(** What X has of Y's index: what Y advertised, but where Y has taken over a
    deletion of X's. *)
Definition advanced (idx : Files) : Prop :=
  ∀ k, idx !! k = fY !! k ∨ ∃ t l, fX !! k = Some t ∧ idx !! k = Some t ∧ fY !! k = Some l ∧ outdated l t.
(** Y has taken over X's deletion [t]. *)
Definition news (t : FileInfo) : Prop := fX !! Path t = Some t ∧ ∃ l, fY !! Path t = Some l ∧ outdated l t.

Lemma outdated_dominates k t l : fX !! k = Some t → fY !! k = Some l → outdated l t → Compare (Version t) (Version l) = Dominates.
Proof.
  intros Ht Hl [_ Hc]. rewrite (Compare_flip (Version l) (Version t)), Hc; [done | |]; apply (canonical_of k); auto.
Qed.

Lemma advanced_start : advanced fY.
Proof. intros k. by left. Qed.
Lemma advanced_news idx t : advanced idx → news t → advanced (<[Path t := t]> idx).
Proof.
  intros Ha (Ht & l & Hl & Ho) k. destruct (decide (Path t = k)) as [<- | Hne].
  - right. exists t, l. by rewrite lookup_insert_eq.
  - rewrite lookup_insert_ne by done. apply Ha.
Qed.
Lemma advanced_keyed idx : advanced idx → keyed idx.
Proof.
  intros Ha k x Hx. destruct (co_keyed _ _ Hco) as [HkX HkY]. destruct (Ha k) as [Heq | (t & _ & Ht & Hi & _)].
  - apply (HkY k). congruence.
  - apply (HkX k). congruence.
Qed.

(** ** Goals *)

Lemma resolve_equal x y : canonical (Version x) → skey x = skey y → resolve (Some x) (Some y) self = plan_noop.
Proof. intros Hc [Hk _]%skey_vkey. by apply resolve_settled. Qed.

Lemma goal_newer idx k : advanced idx → goal self fX idx k = newer (fX !! k) (fY !! k).
Proof.
  intros Ha. unfold goal, verdict. destruct (Ha k) as [-> | (t & l & Ht & -> & Hl & Hout)].
  - destruct (fX !! k) as [l |] eqn:Hl, (fY !! k) as [r |] eqn:Hr; [| done | | done].
    2:{ unfold resolve. cbn. by destruct (Deleted r). }
    pose proof (co_ordered _ _ Hco k l r Hl Hr) as Ho. unfold ordered in Ho. cbn [newer].
    destruct (Compare (Version l) (Version r)) eqn:Hc.
    + rewrite decide_False by done. rewrite resolve_equal; [done | apply (canonical_of k); auto | done].
    + rewrite decide_False by done. unfold resolve. by rewrite Hc.
    + rewrite decide_True by done. unfold resolve. rewrite Hc. cbn.
      assert (canonical (Version l)) by (apply (canonical_of k); auto). assert (canonical (Version r)) by (apply (canonical_of k); auto).
      apply Compare_DominatedBy in Hc as [Hle _]; [| done..]. by rewrite Merge_absorb, set_version_id.
    + done.
  - rewrite Ht, Hl. cbn [newer]. rewrite decide_False; [| by rewrite (outdated_dominates k t l)].
    rewrite resolve_equal; [done | apply (canonical_of k); auto | done].
Qed.

(** A goal is a record of either. *)
Lemma newer_cases x y : newer x y = x ∨ (newer x y = y ∧ ∃ r, y = Some r ∧ (x = None ∧ Deleted r = false ∨
  ∃ l, x = Some l ∧ Compare (Version l) (Version r) = DominatedBy)).
Proof.
  destruct x as [l |], y as [r |]; cbn; [| by left | | by left].
  - case_decide; [right; split; [done |]; exists r; split; [done | right; by exists l] | by left].
  - destruct (Deleted r) eqn:Hd; [by left | right]. split; [done |]. exists r. auto.
Qed.

Lemma mixed_between idx f : advanced idx → between self fX idx f → mixed fX fY f.
Proof.
  intros Ha Hb k. destruct (Hb k) as [-> | [-> | (-> & _)]]; [by right; left | | by left].
  rewrite goal_newer by done. destruct (newer_cases (fX !! k) (fY !! k)) as [-> | [-> _]]; auto.
Qed.
Lemma mixed_advanced idx : advanced idx → mixed fX fY idx.
Proof. intros Ha k. destruct (Ha k) as [-> | (t & _ & -> & -> & _)]; auto. Qed.

Lemma known_both idx k : advanced idx → known fX idx k → is_Some (fX !! k) ∨ is_Some (fY !! k).
Proof. intros Ha [? | Hk]; [by left |]. destruct (Ha k) as [Heq | (t & _ & -> & _)]; [right; by rewrite <- Heq | left; eauto]. Qed.

(** Such sets are at peace, whatever the index has advanced to. *)
Lemma compatible_peace idx : advanced idx → peace self fX idx.
Proof.
  intros Ha. assert (∀ k x, idx !! k = Some x → fX !! k = Some x ∨ fY !! k = Some x) as Hix.
  { intros k x Hx. destruct (Ha k) as [Heq | (t & _ & Ht & Hi & _)]; [right | left]; congruence. }
  split.
  - split; [apply (co_keyed _ _ Hco) | by apply advanced_keyed].
  - intros k x [Hx | Hx]; apply (canonical_of k); auto.
  - intros k l r Hl Hr Hor. destruct (Ha k) as [Heq | (t & l' & Ht & Hi & _)].
    + assert (ordered l r) as Ho by (apply (co_ordered _ _ Hco k); congruence). unfold ordered in Ho.
      destruct Hor as [Hc | Hc]; rewrite Hc in Ho; [| done]. unfold skey in Ho. injection Ho as Hh _ Hd _.
      unfold same_content. by rewrite Hh, Hd, !bool_decide_eq_true_2.
    + assert (l = r) as -> by congruence. unfold same_content. by rewrite !bool_decide_eq_true_2.
  - intros k Hk. apply (co_paths _ _ Hco). by apply (known_both idx).
  - intros k1 k2 Hk1 Hk2. apply (co_apart _ _ Hco); by apply (known_both idx).
  - intros k x Hx. apply (co_wire _ _ Hco k). destruct Hx as [? | [Hx | Hx]]; [auto | auto |].
    rewrite goal_newer in Hx by done. destruct (newer_cases (fX !! k) (fY !! k)) as [Heq | [Heq _]]; rewrite Heq in Hx; auto.
  - intros f t pt Hkf Hb Ht Hpt.
    apply (co_hash _ _ Hco f idx); [done | by apply advanced_keyed | by eapply mixed_between | by apply mixed_advanced | done | done].
Qed.

(** ** Open paths *)

(** A path is open only where Y's record is the goal. *)
Lemma open_newer idx k : advanced idx → open self idx fX k →
  newer (fX !! k) (fY !! k) = fY !! k ∧ ∃ r, fY !! k = Some r ∧
    (fX !! k = None ∧ Deleted r = false ∨ ∃ l, fX !! k = Some l ∧ Compare (Version l) (Version r) = DominatedBy).
Proof.
  intros Ha Ho. destruct (newer_cases (fX !! k) (fY !! k)) as [Heq | Heq]; [| exact Heq]. destruct Ho.
  unfold verdict. rewrite <- (goal_newer idx k Ha) in Heq. rewrite <- Heq. by apply goal_settled, compatible_peace.
Qed.
Lemma open_from idx f k : advanced idx → between self fX idx f → open self idx f k → f !! k = fX !! k ∧ open self idx fX k.
Proof.
  intros Ha Hb Ho. destruct (open_stage _ _ _ (compatible_peace idx Ha) f k Hb Ho) as (Hf & _). split; [done |].
  unfold open, verdict in *. by rewrite <- Hf.
Qed.

Lemma open_advanced idx k : advanced idx → open self idx fX k → open self fY fX k.
Proof.
  intros Ha Ho Hk. destruct (open_newer idx k Ha Ho) as (Hg & r & Hr & Hor).
  rewrite <- (goal_newer fY k advanced_start) in Hg. destruct (verdict_cases _ _ _ (compatible_peace fY advanced_start) k) as [[_ Heq] | (? & ? & _ & Hv & _)].
  - rewrite Hg, Hr in Heq. destruct Hor as [[Hn _] | (l & Hl & Hc)]; [congruence |]. assert (r = l) as -> by congruence.
    assert (canonical (Version l)) by (apply (canonical_of k); auto). by rewrite (proj2 (Compare_Equal _ _ ltac:(done) ltac:(done))) in Hc.
  - by rewrite Hv in Hk.
Qed.

(** A path Y took over is open under neither index. *)
Lemma news_closed idx f t : advanced idx → news t → between self fX idx f →
  ¬ open self idx f (Path t).
Proof.
  intros Ha (Ht & l & Hl & Hout) Hb Ho. destruct (open_from idx f (Path t) Ha Hb Ho) as [_ Ho'].
  destruct (open_newer idx (Path t) Ha Ho') as (_ & r & Hr & [[Hn _] | (x & Hx & Hc)]); [congruence |].
  assert (r = l) as -> by congruence. assert (x = t) as -> by congruence.
  by rewrite (outdated_dominates (Path t) t l Ht Hl Hout) in Hc.
Qed.

Lemma news_between idx f t : advanced idx → news t → between self fX idx f → between self fX (<[Path t := t]> idx) f.
Proof.
  intros Ha Hn Hb k. unfold stage. rewrite (goal_newer _ k (advanced_news idx t Ha Hn)), <- (goal_newer idx k Ha).
  destruct (Hb k) as [? | [? | (? & ? & Hr)]]; [auto | auto | right; right]. split_and!; [done | done |].
  intros r. destruct (decide (Path t = k)) as [<- | Hne]; [rewrite lookup_insert_eq | rewrite lookup_insert_ne by done; apply Hr].
  intros Heq. assert (r = t) as -> by congruence. by destruct Hn as (_ & l & _ & []).
Qed.
Lemma news_open idx f t k : advanced idx → news t → between self fX idx f →
  open self (<[Path t := t]> idx) f k ↔ open self idx f k.
Proof.
  intros Ha Hn Hb. destruct (decide (Path t = k)) as [<- | Hne].
  - assert (∀ idx', advanced idx' → between self fX idx' f → ¬ open self idx' f (Path t)) as Hclosed
      by (intros; by apply news_closed).
    split; intros Ho; exfalso; eapply Hclosed, Ho; auto using advanced_news, news_between.
  - unfold open, verdict. by rewrite lookup_insert_ne.
Qed.

(** What X announces is news to Y: a deletion of Y's that X took over. *)
Lemma announced_outdated idx t : advanced idx → open self idx fX (Path t) → goal self fX idx (Path t) = Some t → Deleted t = true →
  fY !! Path t = Some t ∧ ∃ l, fX !! Path t = Some l ∧ outdated l t.
Proof.
  intros Ha Ho Hg Hd. rewrite (goal_newer idx _ Ha) in Hg. destruct (open_newer idx _ Ha Ho) as (Heq & r & Hr & Hor).
  assert (r = t) as -> by congruence. split; [done |]. destruct Hor as [[_ Hd'] | (l & Hl & Hc)]; [congruence |].
  exists l. split; [done | by split].
Qed.
End ordered.

(** What Y wants, X keeps. *)
Lemma wanted_stays `{OS, Digest, Unicode} fX fY cfgX cfgY idxX idxY k x :
  compatible fX fY → advanced fX fY idxX → advanced fY fX idxY → wanted cfgY fY idxY k x →
  fX !! k = Some x ∧ stays cfgX fX idxX k.
Proof.
  intros Hco HaX HaY (Ho & Hg & Hd). pose proof (compatible_sym _ _ Hco) as Hco'.
  rewrite (goal_newer fY fX (selfShort cfgY) Hco' idxY k HaY) in Hg.
  destruct (open_newer fY fX (selfShort cfgY) Hco' idxY k HaY Ho) as (Heq & r & Hr & Hor).
  assert (r = x) as -> by congruence. split; [done |]. exists x. split; [done |]. split; [| done].
  rewrite (goal_newer fX fY (selfShort cfgX) Hco idxX k HaX), Hr. destruct Hor as [[Hn _] | (l & Hl & Hc)]; [by rewrite Hn |].
  rewrite Hl. cbn. rewrite decide_False; [done |]. rewrite (Compare_flip (Version l) (Version x)), Hc; [done | |];
    apply (canonical_of fX fY Hco k); auto.
Qed.
