(* ===== verification/Party.v ===== *)
(** * Party: one of two connected devices, as the other may rely on it

    A device that has connected either still waits for its peer's INDEX or has heard
    it and is catching up, its index of the peer advancing with every deletion the
    peer reports to have taken over ([phase]). Every move it can make keeps that,
    announces only such deletions and all of them, and costs something ([moved]); all
    the while its disk serves what the peer wants from it. *)
From S2P Require Import Prelude Bytes VersionVector Framing Messages Windows Pathnorm Hashing.
From S2P Require Import FileInfo Tree Oracle Differ Conflict Scanner Disk Transfer Replica Engine.
From S2P Require Import Story Invariant Reconcile Progress Work Converge Peace Room Catchup Sync Ordered.

(** A device: its configuration, the address it has for the other, its engine when it
    connected, and the INDEX it advertised. *)
Record Party := mkParty { p_cfg : Config; p_addr : nat; p_start : Engine; p_index : Index }.
Definition p_files (P : Party) : Files := e_files (p_start P).
Definition p_id (P : Party) : DeviceID := cfg_Self (p_cfg P).
Definition p_short (P : Party) : Z := selfShort (p_cfg P).

(** Whether the peer's INDEX has been heard, and what it has advanced to. *)
Inductive stance := Waiting | Hearing (idx : Files).

(** An INDEX_UPDATE of one deletion. *)
Definition carries `{Unicode} (m : Message) (t : FileInfo) : Prop := ∃ ix, m = MIndexUpdate ix ∧ DecodeFileInfos (ix_Body ix) = Ok [t].

Section party.
Context `{OS, Digest, Unicode}.

(** What a device brings to the connection: it is idle, knows nobody else, can hold
    what it wants, and has on its disk what its records say. *)
Record ready (P Q : Party) : Prop := mkReady {
  rd_rest : at_rest (p_cfg P) (p_start P) (p_id Q) (p_addr P);
  rd_alone : e_peers (p_start P) = {[ p_id Q := p_addr P ]};
  rd_files k x : wanted (p_cfg P) (p_files P) (p_files Q) k x → Type_ x = TypeFile;
  rd_room k x : wanted (p_cfg P) (p_files P) (p_files Q) k x → room_for (e_disk (p_start P)) k;
  rd_holds k x : p_files P !! k = Some x → Deleted x = false →
    ∃ c m ts, e_disk (p_start P) !! k = Some (EFile c m ts) ∧ sum256 c = ContentHash x ∧ Size x = Z.of_nat (length c) ∧ Size x < 2 ^ 63;
  rd_index : ∃ set, DecodeFileInfos (ix_Body (p_index P)) = Ok set ∧ files_of set = p_files P
}.

Context (P Q : Party).
Notation cfg := (p_cfg P).
Notation fP := (p_files P).
Notation fQ := (p_files Q).
Notation a := (p_addr P).
Notation sync idx := (syncing cfg (p_id Q) a fP idx (e_disk (p_start P))).

Definition update (m : Message) : Prop := ∃ t, carries m t ∧ news fP fQ t.

(** No deletion is left that the peer is known to have. *)
Definition swept (idx : Files) (e : Engine) : Prop := ∀ k t, e_files e !! k = Some t → Deleted t = true → canGC t idx = false.

(** The state of the device, what is on the way to it, and what it may still cost. *)
Definition phase (st : stance) (e : Engine) (inbox : list Message) (n : nat) : Prop :=
  match st with
  | Waiting => e = p_start P ∧ (∃ ms, inbox = MIndex (p_index Q) :: ms ∧ Forall update ms) ∧ n = (2 * size (openset cfg fQ fP))%nat
  | Hearing idx => advanced fP fQ idx ∧ sync idx e ∧ covered cfg a idx e ∧ swept idx e ∧
      e_peers e = {[ p_id Q := a ]} ∧ Forall update inbox ∧ n = measure cfg idx e
  end.

(** One move, from [e] to [e'], what was on the way going from [ms] to [ms']: the
    index it leads to keeps the deletions it had and has those that were heard; what
    was announced; what it cost. *)
Definition moved (st : stance) (e : Engine) (ms : list Message) (n : nat) (e' : Engine) (ms' : list Message) : Prop :=
  ∃ idx ts n', phase (Hearing idx) e' ms' n' ∧ between (p_short P) fP idx (e_files e) ∧ e_peers e = {[ p_id Q := a ]} ∧
    announces cfg fP idx e e' ts ∧ (n' + length ts + length ms' < n + length ms)%nat ∧
    (∀ i k t, st = Hearing i → i !! k = Some t → fP !! k = Some t → idx !! k = Some t) ∧
    (∀ m t, m ∈ ms → carries m t → m ∈ ms' ∨ idx !! Path t = Some t).

Context (Hco : compatible fP fQ) (Hready : ready P Q).

Lemma party_peace idx : advanced fP fQ idx → peace (p_short P) fP idx.
Proof. by apply compatible_peace. Qed.
Lemma party_types idx k x : advanced fP fQ idx → wanted cfg fP idx k x → Type_ x = TypeFile.
Proof.
  intros Ha (Ho & Hg & Hd). apply (rd_files _ _ Hready k). split_and!; [| | done].
  - by apply (open_advanced fP fQ (p_short P) Hco idx).
  - rewrite (goal_newer fP fQ (selfShort cfg) Hco fQ k (advanced_start fP fQ)). by rewrite <- (goal_newer fP fQ (selfShort cfg) Hco idx).
Qed.

(** ** Deletions are collected once the peer is known to have them *)

Lemma reconcile_swept idx e :
  advanced fP fQ idx → sync idx e → e_peers e = {[ p_id Q := a ]} → swept idx (reconcileWithPeer cfg e a).
Proof.
  intros Ha Hs Hpe k t. destruct (reconcile_mild _ _ _ _ _ _ (party_peace idx Ha) e Hs) as (e' & He & -> & _).
  pose proof (milds_syncing _ _ _ _ _ _ (party_peace idx Ha) e e' He Hs) as Hs'.
  destruct (milds_announce _ _ _ _ _ _ (party_peace idx Ha) e e' He Hs) as [ts Hts].
  pose proof (an_peers _ _ _ _ _ _ Hts) as Hpe'. destruct (sy_state _ _ _ _ _ _ e' Hs') as (ps & Hps & Hg).
  assert (peer_indexes e' = [idx]) as Hix.
  { unfold peer_indexes, addresses. rewrite Hpe', Hpe, map_to_list_singleton. cbn. rewrite Hps. cbn. by rewrite (pg_index _ _ _ _ _ _ Hg). }
  intros Ht Hd. unfold gcTombstones in Ht. pose proof (gc_lookup (peer_indexes e') (e_files e') k t) as Hgc.
  assert ((gcTombstonesLocked (peer_indexes e') (e_files e')).1 !! k = Some t) as Hk.
  { destruct (gcTombstonesLocked (peer_indexes e') (e_files e')) as [files changed] eqn:Hch. destruct changed; [done |].
    pose proof (f_equal snd Hch) as Hno. pose proof (f_equal fst Hch) as Hfs. cbn in Hno, Hfs. cbn [fst].
    apply Hgc. split; [done |]. right. unfold gcTombstonesLocked in Hno. rewrite Hix in Hno |- *. cbn [snd] in Hno.
    apply not_true_iff_false. intros Hc. apply not_true_iff_false in Hno. apply Hno. apply existsb_exists. exists t.
    split; [| done]. apply list_elem_of_In, elem_of_set_of. by exists k. }
  apply Hgc in Hk as [_ [Hnil | Hc]]; [by rewrite Hix in Hnil |]. unfold collectable in Hc. rewrite Hix, Hd in Hc. cbn in Hc.
  by rewrite andb_true_r in Hc.
Qed.

(** ** The moves of a device that is catching up *)

(** Whatever turn it takes, fed what the peer announced. *)
Lemma turn_moves idx e e' ms n :
  phase (Hearing idx) e ms n → sync_step cfg a e e' → moved (Hearing idx) e ms n e' ms.
Proof.
  intros (Ha & Hs & Hc & Hsw & Hpe & Hms & ->) Hst. pose proof (party_peace idx Ha) as Hp.
  destruct (sync_step_syncing cfg _ _ _ _ _ Hp (λ k x, party_types idx k x Ha) (ar_case _ _ _ _ (rd_rest _ _ Hready)) e e' Hst Hs)
    as (ts & Hs' & Hts & Hlt & Hc').
  assert (swept idx e') as Hsw'.
  { destruct Hst as [tmp now net e1 Hnet Hpull | c cs Hcs].
    - destruct (pull_syncing cfg _ _ _ _ _ Hp (λ k x, party_types idx k x Ha) (ar_case _ _ _ _ (rd_rest _ _ Hready)) e tmp now net e1 Hs Hnet Hpull)
        as (_ & Hf & _). unfold swept. by rewrite Hf.
    - destruct (completion_taken cfg _ _ _ _ _ Hp (ar_case _ _ _ _ (rd_rest _ _ Hready)) e c cs Hs Hcs) as (e2 & ts' & Hs2 & Hts2 & _ & _ & _ & ->).
      apply reconcile_swept; [done | done |]. by rewrite (an_peers _ _ _ _ _ _ Hts2). }
  exists idx, ts, (measure cfg idx e'). split_and!; try done; [| apply Hs | lia | |].
  - cbn [phase]. split_and!; try done; [by apply Hc' | by rewrite (an_peers _ _ _ _ _ _ Hts)].
  - by intros i k t [= ->].
  - by intros; left.
Qed.

(** ** Hearing the peer *)

(** The INDEX, which is what the peer's records were when it connected. *)
Lemma index_moves e ms n : ready Q P → phase Waiting e ms n →
  ∃ ms', ms = MIndex (p_index Q) :: ms' ∧ moved Waiting e ms n (handleTransportEvent cfg e (PeerMessage (p_id Q) (MIndex (p_index Q)))) ms'.
Proof.
  intros HreadyQ (-> & (ms' & -> & Hms) & ->). exists ms'. split; [done |].
  destruct (rd_index _ _ HreadyQ) as (set & Hdec & Hf). pose proof (advanced_start fP fQ) as Ha. pose proof (party_peace fQ Ha) as Hp.
  pose proof (rd_rest _ _ Hready) as Hrest.
  assert (agreeable cfg (p_start P) (files_of set)) as Hag.
  { rewrite Hf. split; [exact Hp | apply (rd_files _ _ Hready) | apply (rd_room _ _ Hready)]. }
  destruct (heard_syncing cfg _ _ _ _ _ Hrest Hdec Hag) as (Hs & Hc & ts & Hts & Hle).
  assert (swept fQ (handleTransportEvent cfg (p_start P) (PeerMessage (p_id Q) (MIndex (p_index Q))))) as Hsw.
  { rewrite (heard_reconciles cfg _ _ _ _ _ Hrest Hdec), Hf. apply reconcile_swept; [done | | apply (rd_alone _ _ Hready)].
    rewrite <- Hf. apply told_syncing; [done | apply keyed_files_of | done]. }
  rewrite Hf in Hs, Hc, Hts, Hle. eexists fQ, ts, _. split_and!; try done.
  - cbn [phase]. split_and!; try done. rewrite (an_peers _ _ _ _ _ _ Hts). apply (rd_alone _ _ Hready).
  - by apply between_start.
  - apply (rd_alone _ _ Hready).
  - unfold p_files in Hle |- *. cbn [length]. lia.
  - intros m t [-> | Hm]%elem_of_cons; [by intros (ix & ? & _) | by left].
Qed.

(** A deletion the peer has taken over: it goes into the index, and changes neither
    the goals nor what is open. *)
Lemma syncing_news idx t e :
  advanced fP fQ idx → news fP fQ t → sync idx e → sync (<[Path t := t]> idx) (told_index a (<[Path t := t]> idx) e).
Proof.
  intros Ha Hn Hs. set (idx' := <[Path t := t]> idx). pose proof (advanced_news fP fQ idx t Ha Hn : advanced fP fQ idx') as Ha'.
  assert (∀ k, goal (p_short P) fP idx' k = goal (p_short P) fP idx k) as Hg by (intros k; by rewrite !(goal_newer fP fQ _ Hco)).
  assert (∀ f k, between (p_short P) fP idx f → open (p_short P) idx' f k ↔ open (p_short P) idx f k) as Ho
    by (intros; by apply (news_open fP fQ _ Hco)).
  assert (∀ k x, wanted cfg fP idx' k x ↔ wanted cfg fP idx k x) as Hw.
  { intros k x. unfold wanted. fold (p_short P). rewrite Hg, Ho; [done | by apply between_start]. }
  destruct Hs as [Hi Hpe Hsh Hb (ps & Hps & Hgood) Hc Hr Hpl Hkp]. split; cbn [told_index e_peers e_files e_completions e_disk upd_ps set_states].
  - apply inv_upd_ps; [apply frame_index; intros; by eapply advanced_keyed | done].
  - done.
  - done.
  - by apply (news_between fP fQ).
  - exists (ps_set_index ps idx'). split; [cbn; by rewrite lookup_alter_eq, Hps |]. destruct Hgood as [Hix Hrun Hts Hn1 Hin Hpd]. split; try done.
    + eapply Forall_impl; [exact Hts |]. intros task. unfold task_good. fold (p_short P). destruct (ft_preserve task); by rewrite !Hg.
    + intros k Hk. destruct (Hpd k Hk) as [Hok Hl]. unfold pendable. fold (p_short P) in *. split; [by apply Ho | intros g; rewrite Hg; apply Hl].
  - eapply Forall_impl; [exact Hc |]. intros c. unfold completion_good. fold (p_short P). by rewrite Hg.
  - intros k x Hk%Hw. by apply Hr with x.
  - intros k x Hk%Hw. by apply Hpl.
  - intros k c m ts (x & Hx & Hgx & Hd). apply Hkp. exists x. split; [done |]. split; [| done]. fold (p_short P) in *. by rewrite <- Hg.
Qed.

Lemma update_moves idx e m ms n :
  phase (Hearing idx) e (m :: ms) n → moved (Hearing idx) e (m :: ms) n (handleTransportEvent cfg e (PeerMessage (p_id Q) m)) ms.
Proof.
  intros (Ha & Hs & Hc & Hsw & Hpe & [(t & (ix & -> & Hdec) & Hn) Hms]%Forall_cons & ->).
  set (idx' := <[Path t := t]> idx). pose proof (advanced_news fP fQ idx t Ha Hn : advanced fP fQ idx') as Ha'.
  pose proof (party_peace idx' Ha') as Hp'. pose proof (syncing_news idx t e Ha Hn Hs) as Hs'. fold idx' in Hs'.
  assert (handleTransportEvent cfg e (PeerMessage (p_id Q) (MIndexUpdate ix)) = reconcileWithPeer cfg (told_index a idx' e) a) as ->.
  { cbn [handleTransportEvent handleMessage]. unfold handleMessage. rewrite (sy_peer _ _ _ _ _ _ _ Hs). unfold onIndexUpdate. rewrite Hdec. cbv zeta.
    destruct (sy_state _ _ _ _ _ _ _ Hs) as (ps & Hps & Hgood). f_equal. unfold told_index, upd_ps. f_equal.
    apply alter_ext. intros ps' Hps'. assert (ps' = ps) as -> by congruence. by rewrite (pg_index _ _ _ _ _ _ Hgood). }
  destruct (reconcile_announces cfg _ _ _ _ _ Hp' _ Hs') as [ts Hts].
  assert (announces cfg fP idx' e (reconcileWithPeer cfg (told_index a idx' e) a) ts) as Hts'.
  { change ts with ([] ++ ts). apply (announces_trans cfg fP idx' e (told_index a idx' e)); [by apply announces_same | exact Hts]. }
  exists idx', ts, (measure cfg idx' (reconcileWithPeer cfg (told_index a idx' e) a)). split_and!; try done.
  - cbn [phase]. split_and!; try done.
    + by apply (reconcile_syncing cfg).
    + by apply (reconcile_covered cfg (p_id Q) a fP idx' (e_disk (p_start P))).
    + apply reconcile_swept; [done | done | exact Hpe].
    + by rewrite (an_peers _ _ _ _ _ _ Hts').
  - apply Hs'.
  - assert (size (openset cfg idx' (e_files e)) = size (openset cfg idx (e_files e))) as Hsize.
    { f_equal. apply leibniz_equiv. intros k. rewrite !elem_openset. apply (news_open fP fQ _ Hco); [done | done | apply Hs]. }
    pose proof (an_open _ _ _ _ _ _ Hts') as Hop. rewrite Hsize in Hop.
    pose proof (reconcile_completions cfg _ _ _ _ _ Hp' _ Hs') as Hcs. cbn [told_index e_completions upd_ps set_states] in Hcs.
    pose proof (arrivals_bound cfg _ _ _ _ _ _ (reconcile_syncing cfg _ _ _ _ _ Hp' _ Hs')) as Hb.
    rewrite Hcs in Hb. unfold measure. rewrite Hcs. cbn [length] in *.
    lia.
  - intros i k t' [= ->] Hi Hf. unfold idx'. destruct (decide (Path t = k)) as [<- | Hne]; [| by rewrite lookup_insert_ne].
    rewrite lookup_insert_eq. destruct Hn as [Ht _]. congruence.
  - intros m' t' [-> | Hm]%elem_of_cons; [| by left]. intros (ix' & Heq & Hdec'). right. injection Heq as <-.
    rewrite Hdec in Hdec'. assert (t = t') as -> by (by injection Hdec'). unfold idx'. by rewrite lookup_insert_eq.
Qed.

(** ** What the other device gets out of it *)

Definition sees (st : stance) : Files := match st with Waiting => fQ | Hearing idx => idx end.

Lemma phase_advanced st e ms n : phase st e ms n → advanced fP fQ (sees st).
Proof. destruct st; [intros _; by apply advanced_start | by intros (? & _)]. Qed.
Lemma phase_between st e ms n : phase st e ms n → between (p_short P) fP (sees st) (e_files e).
Proof. destruct st; [intros (-> & _); by apply between_start | intros (_ & Hs & _); apply Hs]. Qed.
Lemma phase_inv st e ms n : phase st e ms n → inv e.
Proof.
  destruct st; [intros (-> & _) | intros (_ & Hs & _); apply Hs]. eapply reachable_inv, (ar_reachable _ _ _ _ (rd_rest _ _ Hready)).
Qed.

(** A file that stays is as it was. *)
Lemma phase_keeps st e ms n k c m ts :
  phase st e ms n → stays cfg fP (sees st) k → e_disk (p_start P) !! k = Some (EFile c m ts) → e_disk e !! k = Some (EFile c m ts).
Proof. destruct st; [by intros (-> & _) | intros (_ & Hs & _); apply Hs]. Qed.

(** What the peer wants is served, whatever the peer has heard. *)
Lemma phase_serves st e ms n idx k x reqID :
  phase st e ms n → advanced fQ fP idx → wanted (p_cfg Q) fQ idx k x →
  serves (fetchOverWire (λ req, Ok (serveRequest (e_disk e) req)) x reqID) x.
Proof.
  intros Hph Ha Hw. destruct (wanted_stays fP fQ cfg (p_cfg Q) (sees st) idx k x Hco (phase_advanced st e ms n Hph) Ha Hw) as [Hx Hst].
  destruct Hw as (_ & _ & Hd). destruct (rd_holds _ _ Hready k x Hx Hd) as (c & m & ts & Hk & Hsum & Hsz & Hmax).
  pose proof (phase_keeps st e ms n k c m ts Hph Hst Hk) as Hdisk. pose proof (proj1 (co_keyed _ _ Hco) k x Hx) as Hpx. cbn in Hpx. subst k.
  destruct (fetch_serve_roundtrip (e_disk e) x (Path x) c reqID) as (chunks & -> & Hc).
  - apply (co_wire _ _ Hco (Path x)). auto.
  - unfold read_file. by rewrite Hdisk.
  - done.
  - done.
  - split; [done |]. cbn [fst]. by rewrite Hc.
Qed.

(** What is announced is what is sent, one message a deletion, and news to the peer. *)
Definition sent_since (e e' : Engine) : list Message :=
  snd <$> filter (λ p, p.1 = a) (drop (length (e_sent e)) (e_sent e')).

Lemma update_msg_carries t : wire_ok t → ∃ m, update_msg cfg [t] = Some m ∧ carries m t.
Proof.
  intros Hw. unfold update_msg. assert (orderCreatesBeforeDeletes [t] = [t]) as -> by done.
  destruct (FileInfos_encode_decode [t]) as (b & -> & Hd); [by constructor | done |]. eexists. split; [done |]. by eexists.
Qed.

Lemma sent_announced idx e e' ts :
  advanced fP fQ idx → e_peers e = {[ p_id Q := a ]} → announces cfg fP idx e e' ts →
  Forall2 carries (sent_since e e') ts ∧ Forall (news fQ fP) ts.
Proof.
  intros Ha Hpe [Hsent _ Hgoals _ _]. split.
  - assert (addresses e = [a]) as Had by (unfold addresses; by rewrite Hpe, map_to_list_singleton).
    unfold sent_since. rewrite Hsent, drop_app_length, Had. clear Hsent. induction ts as [|t ts IH]; [constructor |].
    apply Forall_cons in Hgoals as [(Ho & Hg & Hd) Hgoals]. destruct (announced_outdated fP fQ _ Hco idx t Ha Ho Hg Hd) as (Ht & _).
    destruct (update_msg_carries t) as (m & Hm & Hc); [apply (co_wire _ _ Hco (Path t)); auto |].
    cbn [fmap list_fmap concat]. unfold update_sends at 1. rewrite Hm. cbn [fmap list_fmap app]. rewrite filter_cons_True by done.
    cbn [fmap list_fmap snd]. constructor; [done | by apply IH].
  - eapply Forall_impl; [exact Hgoals |]. intros t (Ho & Hg & Hd).
    destruct (announced_outdated fP fQ _ Hco idx t Ha Ho Hg Hd) as (Ht & l & Hl & Hout). split; [done | by exists l].
Qed.

(** A record that a deletion of the peer outdates stays until the deletion is taken
    over and announced. *)
Lemma stale_open idx f k l t :
  advanced fP fQ idx → between (p_short P) fP idx f → fP !! k = Some l → fQ !! k = Some t → outdated l t → f !! k = Some l →
  open (p_short P) idx f k ∧ goal (p_short P) fP idx k = Some t.
Proof.
  intros Ha Hb Hl Ht [Hd Hc] Hf. assert (goal (p_short P) fP idx k = Some t) as Hg.
  { rewrite (goal_newer fP fQ _ Hco) by done. rewrite Hl, Ht. cbn. by rewrite decide_True. }
  split; [| done]. destruct (verdict_cases _ _ _ (party_peace idx Ha) k) as [[_ Heq] | (r & x & _ & Hv & _)].
  - assert (t = l) as -> by congruence. assert (canonical (Version l)) by (apply (co_wire _ _ Hco k); auto).
    by rewrite (proj2 (Compare_Equal _ _ ltac:(done) ltac:(done))) in Hc.
  - unfold open, verdict in *. rewrite Hf, <- Hl. by rewrite Hv.
Qed.
End party.
