(* ===== verification/Duo.v ===== *)
(** * Duo: two devices and the links between them

    The whole of it: two engines, a link each way that delivers in order, and the
    blocks one fetches answered by the other's server from its own disk. Either
    device moves at any time, its puller, its loop or a message of the other's.

    Whatever the order, two devices whose histories are ordered come to rest: after at
    most two moves for each path at which they differ and two for the INDEXes, both
    hold the newer records, with their contents on disk, no deletion is kept, and the
    root hashes are equal. *)
From stdpp Require Import infinite fin_sets.
From S2P Require Import Prelude Bytes VersionVector Framing Messages Windows Pathnorm Hashing.
From S2P Require Import FileInfo Tree Oracle Differ Conflict Scanner Disk Transfer Replica Engine.
From S2P Require Import Story Invariant Reconcile Progress Work Converge Peace Room Catchup Sync Ordered Party.

(** The near and the far device, what is on the way from the near to the far one, and
    what is on the way back. *)
Record Duo := mkDuo { d_near : Engine; d_far : Engine; d_out : list Message; d_in : list Message }.
Definition swap (s : Duo) : Duo := mkDuo (d_far s) (d_near s) (d_in s) (d_out s).

Lemma swap_swap s : swap (swap s) = s.
Proof. by destruct s. Qed.

Section duo.
Context `{OS, Digest, Unicode}.

(** The near device goes to [e], and [ms] is left of what is on the way to it. *)
Definition become (P : Party) (s : Duo) (e : Engine) (ms : list Message) : Duo :=
  mkDuo e (d_far s) (d_out s ++ sent_since P (d_near s) e) ms.

(** A move of the near device: a step of its puller, each block it asks for answered
    by the far device's server (the writing of a local copy may fail); a completion its loop takes; a message it hears. *)
Inductive near_step (P Q : Party) (s : Duo) : Duo → Prop :=
| near_pulls leaf tmp now reqID local e :
    next_leaf (p_addr P) (d_near s) = Some leaf → fresh_temp (e_disk (d_near s)) (Path leaf) tmp →
    puller_step (p_cfg P) (d_near s) (p_addr P) tmp now
      (fetchOverWire (λ req, Ok (serveRequest (e_disk (d_far s)) req)) leaf reqID, local) = Some e →
    near_step P Q s (become P s e (d_in s))
| near_loops c cs :
    e_completions (d_near s) = c :: cs →
    near_step P Q s (become P s (handleCompletion (p_cfg P) (set_completions (d_near s) cs) c) (d_in s))
| near_hears m ms :
    d_in s = m :: ms →
    near_step P Q s (become P s (handleTransportEvent (p_cfg P) (d_near s) (PeerMessage (p_id Q) m)) ms).

Definition duo_step (P Q : Party) (s s' : Duo) : Prop := near_step P Q s s' ∨ near_step Q P (swap s) (swap s').

(** ** The invariant *)

(** Where [f] outdates the record of a path with a deletion, the record is still
    there, or the deletion is on its way back, or it has been heard. *)
Definition acknowledged (P Q : Party) (stQ : stance) (e : Engine) (wire : list Message) : Prop :=
  ∀ k l t, p_files P !! k = Some l → p_files Q !! k = Some t → outdated l t →
    e_files e !! k = Some l ∨ (∃ m, m ∈ wire ∧ carries m t) ∨ ∃ idx, stQ = Hearing idx ∧ idx !! k = Some t.

Definition duo_inv (P Q : Party) (s : Duo) (n : nat) : Prop :=
  ∃ stP stQ nP nQ, phase P Q stP (d_near s) (d_in s) nP ∧ phase Q P stQ (d_far s) (d_out s) nQ ∧
    acknowledged P Q stQ (d_near s) (d_out s) ∧ acknowledged Q P stP (d_far s) (d_in s) ∧
    n = (nP + nQ + length (d_in s) + length (d_out s))%nat.

Lemma duo_inv_swap P Q s n : duo_inv P Q s n → duo_inv Q P (swap s) n.
Proof.
  intros (stP & stQ & nP & nQ & HP & HQ & HaP & HaQ & ->). exists stQ, stP, nQ, nP. split_and!; try done. cbn. lia.
Qed.

(** More on the way to a device. *)
Lemma phase_more P Q st e ms ms' n : phase P Q st e ms n → Forall (update P Q) ms' → phase P Q st e (ms ++ ms') n.
Proof.
  intros Hph Hms'. destruct st; cbn [phase] in *.
  - destruct Hph as (-> & (us & -> & Hus) & ->). split_and!; [done | | done]. exists (us ++ ms'). split; [done | by apply Forall_app].
  - destruct Hph as (? & ? & ? & ? & ? & Hms & ?). split_and!; try done. by apply Forall_app.
Qed.

(** A move of one party, carried to the whole. *)
Lemma moved_keeps P Q stP stQ nP nQ s e ms :
  compatible (p_files P) (p_files Q) →
  phase Q P stQ (d_far s) (d_out s) nQ → acknowledged P Q stQ (d_near s) (d_out s) → acknowledged Q P stP (d_far s) (d_in s) →
  moved P Q stP (d_near s) (d_in s) nP e ms →
  ∃ n', (n' < nP + nQ + length (d_in s) + length (d_out s))%nat ∧ duo_inv P Q (become P s e ms) n'.
Proof.
  intros Hco HQ HaP HaQ (idx & ts & n' & Hph & Hb & Hpe & Hts & Hlt & Hkeep & Hdel).
  assert (advanced (p_files P) (p_files Q) idx) as Ha by apply Hph.
  destruct (sent_announced P Q Hco idx (d_near s) e ts Ha Hpe Hts) as [Hms Hnews].
  assert (Forall (update Q P) (sent_since P (d_near s) e)) as Hup.
  { clear -Hms Hnews. induction Hms as [|m t ms ts Hm _ IH]; [constructor |]. apply Forall_cons in Hnews as [Hn Hnews].
    constructor; [by exists t | by apply IH]. }
  exists (n' + nQ + length ms + (length (d_out s) + length ts))%nat. split; [lia |]. exists (Hearing idx), stQ, n', nQ. split_and!.
  - exact Hph.
  - by apply phase_more.
  - intros k l t Hl Ht Hout. cbn [become d_near d_out].
    destruct (HaP k l t Hl Ht Hout) as [Hk | [(m & Hm & Hc) | ?]]; [| right; left; exists m; split; [apply elem_of_app; by left | done] | by right; right].
    destruct (stale_open P Q Hco idx (e_files (d_near s)) k l t Ha Hb Hl Ht Hout Hk) as [Ho Hg].
    destruct (an_all _ _ _ _ _ _ Hts k t Hg (proj1 Hout) Ho) as [Hin | Ho'].
    + right. left. apply list_elem_of_lookup in Hin as [i Hi]. destruct (Forall2_lookup_r _ _ _ _ _ Hms Hi) as (m & Hm & Hc).
      exists m. split; [| done]. apply elem_of_app. right. by eapply list_elem_of_lookup_2.
    + left. destruct (open_from _ _ (p_short P) Hco idx (e_files e) k Ha) as [-> _]; [| done | done]. destruct Hph as (_ & Hs & _). apply Hs.
  - intros k l t Hl Ht Hout. cbn [become d_far d_in]. destruct (HaQ k l t Hl Ht Hout) as [? | [(m & Hm & Hc) | (i & Hst & Hi)]].
    + by left.
    + destruct (Hdel m t Hm Hc) as [? | Hi]; [right; left; by exists m | right; right]. exists idx. split; [done |].
      assert (Path t = k) as <- by (by apply (proj1 (co_keyed _ _ Hco) k t)). done.
    + right. right. exists idx. split; [done |]. by eapply Hkeep.
  - cbn [become d_in d_out]. rewrite length_app, (Forall2_length _ _ _ Hms). lia.
Qed.

(** A device that waits has nothing else to do. *)
Lemma resting_leaf P Q : ready P Q → next_leaf (p_addr P) (p_start P) = None ∧ e_completions (p_start P) = [].
Proof.
  intros Hr. destruct (ar_idle _ _ _ _ (rd_rest _ _ Hr)) as [Hc (ps & Hps & Hq & Hrun & _)]. split; [| done].
  unfold next_leaf. rewrite Hps. cbn. by rewrite Hrun, Hq.
Qed.

Lemma near_moves P Q s s' n :
  compatible (p_files P) (p_files Q) → ready P Q → ready Q P → duo_inv P Q s n → near_step P Q s s' →
  ∃ n', (n' < n)%nat ∧ duo_inv P Q s' n'.
Proof.
  intros Hco HrP HrQ (stP & stQ & nP & nQ & HP & HQ & HaP & HaQ & ->) Hst.
  pose proof (λ e ms, moved_keeps P Q stP stQ nP nQ s e ms Hco HQ HaP HaQ) as Hkeep.
  destruct (resting_leaf P Q HrP) as [Hnoleaf Hnocs].
  destruct Hst as [leaf tmp now reqID local e Hleaf Htmp Hpull | c cs Hcs | m ms Hm].
  - destruct stP as [| idx]; [destruct HP as (Heq & _); congruence |]. apply Hkeep, turn_moves; [done | done | done |].
    apply (sync_pull _ _ _ tmp now (fetchOverWire (λ req, Ok (serveRequest (e_disk (d_far s)) req)) leaf reqID, local)); [| done].
    intros leaf' Hl'. assert (leaf' = leaf) as -> by congruence. split; [done |]. destruct HP as (Ha & Hs & _).
    apply (phase_serves Q P (compatible_sym _ _ Hco) HrQ stQ (d_far s) (d_out s) nQ idx (Path leaf)); [done | done |].
    by apply (next_wanted _ _ _ _ _ _ (party_peace P Q Hco idx Ha) _ _ Hs).
  - destruct stP as [| idx]; [destruct HP as (Heq & _); congruence |]. apply Hkeep, turn_moves; [done | done | done |]. by apply sync_loop.
  - destruct stP as [| idx].
    + destruct (index_moves P Q Hco HrP _ _ _ HrQ HP) as (ms' & Hms & Hmv). rewrite Hm in Hms. injection Hms as -> ->. by apply Hkeep.
    + rewrite Hm in HP |- *. apply update_moves in HP; [| done]. rewrite <- Hm in HP |- *. by apply Hkeep.
Qed.

Lemma duo_moves P Q s s' n :
  compatible (p_files P) (p_files Q) → ready P Q → ready Q P → duo_inv P Q s n → duo_step P Q s s' →
  ∃ n', (n' < n)%nat ∧ duo_inv P Q s' n'.
Proof.
  intros Hco HrP HrQ Hi [Hst | Hst]; [by eapply near_moves |].
  destruct (near_moves Q P (swap s) (swap s') n) as (n' & Hlt & Hi'); [by apply compatible_sym | done | done | by apply duo_inv_swap | done |].
  exists n'. split; [done |]. apply duo_inv_swap in Hi'. by rewrite swap_swap in Hi'.
Qed.

Lemma duo_run P Q k s s' n :
  compatible (p_files P) (p_files Q) → ready P Q → ready Q P → nsteps (duo_step P Q) k s s' → duo_inv P Q s n →
  ∃ n', (k + n' ≤ n)%nat ∧ duo_inv P Q s' n'.
Proof.
  intros Hco HrP HrQ Hst. revert n. induction Hst as [s | k s1 s2 s3 Hst _ IH]; intros n Hi; [by exists n |].
  destruct (duo_moves P Q s1 s2 n Hco HrP HrQ Hi Hst) as (n2 & Hlt & Hi2). destruct (IH n2 Hi2) as (n3 & Hle & Hi3).
  exists n3. split; [lia | done].
Qed.

(** ** Where a run can end *)

#[local] Instance ascii_inhabited : Inhabited ascii := populate zero.
Lemma fresh_exists (d : Disk) k : ∃ tmp, fresh_temp d k tmp.
Proof.
  exists (fresh (dom d ∪ list_to_set (k :: parents k) : gset bytes)).
  pose proof (is_fresh (dom d ∪ list_to_set (k :: parents k) : gset bytes)) as Hf.
  set (tmp := fresh _) in *. rewrite elem_of_union, elem_of_list_to_set, elem_of_cons in Hf. split_and!.
  - apply not_elem_of_dom. tauto.
  - tauto.
  - tauto.
Qed.

(** A party that has nothing left to do. *)
Definition spent (P : Party) (idx : Files) (e : Engine) : Prop :=
  worked_off (p_addr P) e ∧ ∀ k, ¬ open (p_short P) idx (e_files e) k.

Lemma near_progress P Q s stP stQ nP nQ :
  compatible (p_files P) (p_files Q) → ready P Q → ready Q P →
  phase P Q stP (d_near s) (d_in s) nP → phase Q P stQ (d_far s) (d_out s) nQ →
  (∃ s', near_step P Q s s') ∨ (d_in s = [] ∧ ∃ idx, stP = Hearing idx ∧ spent P idx (d_near s)).
Proof.
  intros Hco HrP HrQ HP HQ. destruct (d_in s) as [|m ms] eqn:Hin; [| left; eexists; by apply (near_hears P Q s m ms)].
  destruct stP as [| idx]; [by destruct HP as (_ & (ms & ? & _) & _) |]. destruct HP as (Ha & Hs & Hc & _).
  destruct (sync_progress _ _ _ _ _ _ _ Hs Hc) as [[(c & cs & Hcs) | (leaf & Hleaf & Hpull)] | Hrest].
  - left. eexists. by apply (near_loops P Q s c cs).
  - left. destruct (fresh_exists (e_disk (d_near s)) (Path leaf)) as [tmp Htmp].
    assert (serves (fetchOverWire (λ req, Ok (serveRequest (e_disk (d_far s)) req)) leaf 0) leaf) as Hserves.
    { apply (phase_serves Q P (compatible_sym _ _ Hco) HrQ stQ (d_far s) (d_out s) nQ idx (Path leaf)); [done | done |].
      by apply (next_wanted _ _ _ _ _ _ (party_peace P Q Hco idx Ha) _ _ Hs). }
    destruct (Hpull tmp 0 (_, None) Htmp Hserves) as (e' & He' & _). eexists. by apply (near_pulls P Q s leaf tmp 0 0 None e').
  - right. split; [done |]. by exists idx.
Qed.

(** A deletion is not kept. *)
Definition survivor (x : option FileInfo) : option FileInfo :=
  match x with Some r => if Deleted r then None else Some r | None => None end.

(** Once both have nothing left to do, a deletion on record here is known to be on
    record there. *)
Lemma deletion_known P Q eQ idx idxQ k t :
  compatible (p_files P) (p_files Q) → ¬ unknown_tombstone (p_files P !! k) (p_files Q !! k) →
  advanced (p_files P) (p_files Q) idx → acknowledged Q P (Hearing idx) eQ [] →
  advanced (p_files Q) (p_files P) idxQ → between (p_short Q) (p_files Q) idxQ (e_files eQ) → (∀ k, ¬ open (p_short Q) idxQ (e_files eQ) k) →
  newer (p_files P !! k) (p_files Q !! k) = Some t → Deleted t = true → canGC t idx = true.
Proof.
  intros Hco Hun Ha Hack HaQ HbQ HclQ Hn Hd. pose proof (compatible_sym _ _ Hco) as Hco'.
  assert (∀ x, p_files P !! k = Some x ∨ p_files Q !! k = Some x → canonical (Version x)) as Hcan by (intros x; apply (canonical_of _ _ Hco k)).
  assert (∀ y, idx !! k = Some y → Path t = k → Deleted y = true → Compare (Version y) (Version t) = Equal → canGC t idx = true) as Hgc.
  { intros y Hy Hp Hdy Hc. unfold canGC. by rewrite Hp, Hy, Hdy, Hc. }
  assert (∀ x, canonical (Version x) → Compare (Version x) (Version x) = Equal) as Hrefl by (intros; by apply Compare_Equal).
  destruct (newer_cases (p_files P !! k) (p_files Q !! k)) as [Heq | (Heq & r & Hr & Hor)]; rewrite Hn in Heq; symmetry in Heq.
  - assert (Path t = k) as Hpt by (by apply (proj1 (co_keyed _ _ Hco) k t)).
    destruct (p_files Q !! k) as [y |] eqn:Hy; [| destruct Hun; left; by exists t].
    pose proof (co_ordered _ _ Hco k t y Heq Hy) as Ho. unfold ordered in Ho. rewrite Heq in Hn. cbn in Hn.
    destruct (Compare (Version t) (Version y)) eqn:Hc; [| | | done].
    + destruct (Ha k) as [Hi | (t' & l & Ht' & Hi & _)].
      * apply (Hgc y); [congruence | done | | by rewrite (Compare_flip (Version t)), Hc by auto].
        unfold skey in Ho. injection Ho as _ _ Hdel _. congruence.
      * assert (t' = t) as -> by congruence. apply (Hgc t); auto.
    + assert (outdated y t) as Hout by (split; [done |]; by rewrite (Compare_flip (Version t)), Hc by auto).
      destruct (Hack k y t Hy Heq Hout) as [Hk | [(m & ?%not_elem_of_nil & _) | (i & Hst & Hi)]]; [| done |].
      * destruct (stale_open Q P Hco' idxQ (e_files eQ) k y t HaQ HbQ Hy Heq Hout Hk) as [Hopen _]. by destruct (HclQ k).
      * injection Hst as ->. apply (Hgc t); auto.
    + rewrite decide_True in Hn by done. assert (y = t) as -> by congruence. by rewrite Hrefl in Hc by auto.
  - assert (r = t) as -> by congruence. assert (Path t = k) as Hpt by (by apply (proj2 (co_keyed _ _ Hco) k t)).
    destruct Hor as [[_ Hd'] | (l & Hl & Hc)]; [congruence |].
    destruct (Ha k) as [Hi | (t' & l' & Ht' & Hi & Hl' & _ & Hc')]; [apply (Hgc t); [congruence | auto..] |].
    assert (t' = l) as -> by congruence. assert (l' = t) as -> by congruence.
    by rewrite (Compare_flip (Version l)), Hc in Hc' by auto.
Qed.

(** Then the records are the newer ones, without the deletions, ... *)
Lemma spent_records P Q e eQ idx idxQ k :
  compatible (p_files P) (p_files Q) → ¬ unknown_tombstone (p_files P !! k) (p_files Q !! k) →
  advanced (p_files P) (p_files Q) idx → acknowledged Q P (Hearing idx) eQ [] →
  advanced (p_files Q) (p_files P) idxQ → between (p_short Q) (p_files Q) idxQ (e_files eQ) → (∀ k, ¬ open (p_short Q) idxQ (e_files eQ) k) →
  between (p_short P) (p_files P) idx (e_files e) → swept idx e → (∀ k, ¬ open (p_short P) idx (e_files e) k) →
  e_files e !! k = survivor (newer (p_files P !! k) (p_files Q !! k)).
Proof.
  intros Hco Hun Ha Hack HaQ HbQ HclQ Hb Hsw Hcl.
  pose proof (closed_stage _ _ _ (party_peace P Q Hco idx Ha) (e_files e) k Hb (Hcl k)) as Hk.
  rewrite (goal_newer _ _ _ Hco idx k Ha) in Hk. destruct Hk as [Hk | (Hk & t & -> & Hd)]; [| by rewrite Hk; cbn; rewrite Hd].
  rewrite Hk. destruct (newer _ _) as [t |] eqn:Hn; [| done]. cbn. destruct (Deleted t) eqn:Hd; [| done].
  pose proof (deletion_known P Q eQ idx idxQ k t Hco Hun Ha Hack HaQ HbQ HclQ Hn Hd) as Hgc.
  by rewrite (Hsw k t Hk Hd) in Hgc.
Qed.

(** ... and every file on record is on the disk. *)
Lemma spent_contents P Q e ms n idx k x :
  compatible (p_files P) (p_files Q) → ready P Q → phase P Q (Hearing idx) e ms n → (∀ k, ¬ open (p_short P) idx (e_files e) k) →
  e_files e !! k = Some x → Deleted x = false → has_content (e_disk e) x.
Proof.
  intros Hco Hr Hph Hcl Hk Hd. pose proof Hph as (Ha & Hs & _). pose proof (party_peace P Q Hco idx Ha) as Hp.
  destruct (closed_stage _ _ _ Hp (e_files e) k (sy_between _ _ _ _ _ _ _ Hs) (Hcl k)) as [Hg | (Hn & _)]; [| congruence].
  rewrite Hk in Hg. symmetry in Hg. destruct (verdict_cases _ _ _ Hp k) as [[_ Heq] | (r & y & _ & Hv & _)].
  - rewrite Hg in Heq. symmetry in Heq. destruct (rd_holds _ _ Hr k x Heq Hd) as (c & m & ts & Hdk & Hsum & _).
    assert (Path x = k) as <- by (by apply (proj1 (co_keyed _ _ Hco) k x)).
    exists c, m, ts. split; [| done]. apply (phase_keeps P Q (Hearing idx) e ms n); [done | | done]. by exists x.
  - apply (sy_placed _ _ _ _ _ _ _ Hs k x); [| done]. split_and!; [| done | done]. unfold open. fold (p_short P). by rewrite Hv.
Qed.

Lemma newer_agrees fX fY k :
  compatible fX fY → skey <$> survivor (newer (fX !! k) (fY !! k)) = skey <$> survivor (newer (fY !! k) (fX !! k)).
Proof.
  intros Hco. destruct (fX !! k) as [x |] eqn:Hx, (fY !! k) as [y |] eqn:Hy; cbn; try done.
  - pose proof (co_ordered _ _ Hco k x y Hx Hy) as Ho. unfold ordered in Ho.
    rewrite (Compare_flip (Version x) (Version y)) by (apply (canonical_of _ _ Hco k); auto).
    destruct (Compare (Version x) (Version y)); cbn; repeat (case_decide; try done); [| done..].
    pose proof Ho as Heq. unfold skey in Heq. injection Heq as _ _ Hd _. rewrite Hd. destruct (Deleted y); [done |]. cbn. by rewrite Ho.
  - by destruct (Deleted x) eqn:Hd; cbn; rewrite ?Hd.
  - by destruct (Deleted y) eqn:Hd; cbn; rewrite ?Hd.
Qed.

(** ** The devices meet *)

(** A device that could take part: idle, connected to nobody, room for what it would
    adopt, and on its disk what its records say. *)
Record able (cfg : Config) (e : Engine) (theirs : Files) : Prop := mkAble {
  ab_reachable : reachable cfg e;
  ab_alone : e_peers e = ∅;
  ab_idle : e_completions e = [];
  ab_seeded : e_reseed e = false;
  ab_case : cfg_caseSensitive cfg = true;
  ab_files k x : wanted cfg (e_files e) theirs k x → Type_ x = TypeFile;
  ab_room k x : wanted cfg (e_files e) theirs k x → room_for (e_disk e) k;
  ab_holds k x : e_files e !! k = Some x → Deleted x = false →
    ∃ c m ts, e_disk e !! k = Some (EFile c m ts) ∧ sum256 c = ContentHash x ∧ Size x = Z.of_nat (length c) ∧ Size x < 2 ^ 63
}.

(** The device [e] once it has connected to [peer], whose HELLO is [h]. *)
Definition met (cfg : Config) (e : Engine) (peer : Config) (h : Hello) : Engine :=
  handleTransportEvent cfg e (PeerConnected (Some (cfg_Self peer, h))).
Definition advertised (cfg : Config) (e : Engine) : Index :=
  match buildIndex (cfg_FolderID cfg) (e_files e) with Ok m => m | Err _ => mkIndex [] 0 [] end.
Definition party (cfg : Config) (e : Engine) (peer : Config) (h : Hello) : Party :=
  mkParty cfg (e_next e) (met cfg e peer h) (advertised cfg e).

(** Both connected, what each sent on connecting on its way. *)
Definition meeting (cfgA cfgB : Config) (A B : Engine) (hA hB : Hello) : Duo :=
  mkDuo (met cfgA A cfgB hB) (met cfgB B cfgA hA)
    (sent_since (party cfgA A cfgB hB) A (met cfgA A cfgB hB)) (sent_since (party cfgB B cfgA hA) B (met cfgB B cfgA hA)).

Lemma advertised_decodes cfg e :
  keyed (e_files e) → Forall wire_ok (set_of (e_files e)) → in_width 32 (Z.of_nat (size (e_files e))) →
  buildIndex (cfg_FolderID cfg) (e_files e) = Ok (advertised cfg e) ∧
  ∃ set, DecodeFileInfos (ix_Body (advertised cfg e)) = Ok set ∧ files_of set = e_files e.
Proof.
  intros Hk Hw Hsz. destruct (index_exchange (cfg_FolderID cfg) (e_files e) Hk Hw Hsz) as (m & set & Hm & _ & Hd & Hf).
  unfold advertised. rewrite Hm. split; [done |]. by exists set.
Qed.

(** Connecting adds the peer, with nothing known of it, and sends the INDEX when the
    roots differ. *)
Lemma met_engine cfg e peer h :
  h_RootHash h ≠ RootHash (e_tree e) → buildIndex (cfg_FolderID cfg) (e_files e) = Ok (advertised cfg e) →
  met cfg e peer h = send (addPeer e (cfg_Self peer) h).1 (e_next e) (MIndex (advertised cfg e)).
Proof.
  intros Hne Hb. unfold met. cbn [handleTransportEvent onPeerConnected]. unfold onPeerConnected, addPeer.
  rewrite decide_False by done. cbn [e_files set_next set_peers set_states]. by rewrite Hb.
Qed.

Lemma met_ready cfg e peer h Q :
  able cfg e (p_files Q) → p_id Q = cfg_Self peer → h_RootHash h ≠ RootHash (e_tree e) →
  Forall wire_ok (set_of (e_files e)) → in_width 32 (Z.of_nat (size (e_files e))) →
  let P := party cfg e peer h in
  ready P Q ∧ p_files P = e_files e ∧ sent_since P e (p_start P) = [MIndex (advertised cfg e)].
Proof.
  intros [Hr Hal Hid Hse Hca Hfi Hro Hho] HQ Hne Hw Hsz P. pose proof (reachable_inv cfg e Hr) as Hi.
  destruct (advertised_decodes cfg e (inv_keyed e Hi) Hw Hsz) as [Hb Hdec].
  pose proof (met_engine cfg e peer h Hne Hb) as Hmet. set (e1 := send _ _ _) in Hmet.
  assert (p_start P = e1) as Hst by exact Hmet. assert (p_addr P = e_next e) as Had by done.
  assert (p_cfg P = cfg) as Hcfg by done. assert (p_index P = advertised cfg e) as Hix by done.
  assert (e_peers e1 = {[ p_id Q := e_next e ]}) as Hpeers by (cbn; by rewrite Hal, HQ).
  assert (p_files P = e_files e) as Hf by (unfold p_files; by rewrite Hst). clearbody P.
  split; [| split; [exact Hf |]].
  - split; rewrite ?Hf, ?Hst, ?Had, ?Hcfg, ?Hix; try done.
    + split.
      * rewrite <- Hmet. apply (reachable_step cfg e); [exact Hr | apply step_transport].
      * rewrite Hpeers. apply lookup_singleton_eq.
      * apply (one_peer_distinct _ (p_id Q, e_next e)). by rewrite Hpeers, map_to_list_singleton.
      * split; [exact Hid |]. eexists. split; [cbn; by rewrite lookup_insert_eq | done].
      * exact Hse.
      * exact Hca.
  - unfold sent_since. rewrite Hst, Had. cbn [e1 send e_sent set_sent addPeer set_next set_peers set_states fst].
    rewrite drop_app_length, filter_cons_True by done. done.
Qed.

(** Where they agree, and nothing is left to do: each has the newer records, no
    deletion and every content, and their trees have the same root. *)
Record synchronised (P Q : Party) (fA fB : Files) (s : Duo) : Prop := mkSynchronised {
  sn_quiet : d_in s = [] ∧ d_out s = [] ∧ worked_off (p_addr P) (d_near s) ∧ worked_off (p_addr Q) (d_far s);
  sn_near k : e_files (d_near s) !! k = survivor (newer (fA !! k) (fB !! k));
  sn_far k : e_files (d_far s) !! k = survivor (newer (fB !! k) (fA !! k));
  sn_contents k x : e_files (d_near s) !! k = Some x → has_content (e_disk (d_near s)) x;
  sn_contents_far k x : e_files (d_far s) !! k = Some x → has_content (e_disk (d_far s)) x;
  sn_roots : RootHash (e_tree (d_near s)) = RootHash (e_tree (d_far s))
}.

Lemma survivor_live x r : survivor x = Some r → Deleted r = false.
Proof. destruct x as [y |]; cbn; [| done]. destruct (Deleted y) eqn:Hd; [done |]. by intros [= <-]. Qed.

Lemma duo_end P Q s n :
  compatible (p_files P) (p_files Q) → ready P Q → ready Q P → (∀ k, ¬ unknown_tombstone (p_files P !! k) (p_files Q !! k)) →
  duo_inv P Q s n → (∃ s', duo_step P Q s s') ∨ synchronised P Q (p_files P) (p_files Q) s.
Proof.
  intros Hco HrP HrQ Hun (stP & stQ & nP & nQ & HP & HQ & HaP & HaQ & _). pose proof (compatible_sym _ _ Hco) as Hco'.
  destruct (near_progress P Q s stP stQ nP nQ Hco HrP HrQ HP HQ) as [[s' Hs'] | (Hin & idx & -> & Hwo & Hcl)]; [left; exists s'; by left |].
  destruct (near_progress Q P (swap s) stQ (Hearing idx) nQ nP Hco' HrQ HrP HQ HP) as [[s' Hs'] | (Hout & idxQ & -> & HwoQ & HclQ)].
  { left. exists (swap s'). right. by rewrite swap_swap. }
  right. cbn in Hout, HwoQ, HclQ. rewrite Hin in HaQ. rewrite Hout in HaP.
  assert (∀ k, ¬ unknown_tombstone (p_files Q !! k) (p_files P !! k)) as Hun' by (intros k Hu; by apply (Hun k), unknown_tombstone_sym).
  pose proof HP as (Ha & Hs & _ & Hsw & _). pose proof HQ as (Ha' & Hs' & _ & Hsw' & _).
  pose proof (sy_between _ _ _ _ _ _ _ Hs) as Hb. pose proof (sy_between _ _ _ _ _ _ _ Hs') as Hb'.
  assert (∀ k, e_files (d_near s) !! k = survivor (newer (p_files P !! k) (p_files Q !! k))) as Hnear
    by (intros k; by apply (spent_records P Q (d_near s) (d_far s) idx idxQ)).
  assert (∀ k, e_files (d_far s) !! k = survivor (newer (p_files Q !! k) (p_files P !! k))) as Hfar
    by (intros k; by apply (spent_records Q P (d_far s) (d_near s) idxQ idx)).
  split; [done | exact Hnear | exact Hfar | | |].
  - intros k x Hk. apply (spent_contents P Q _ _ _ idx k x Hco HrP HP Hcl Hk). rewrite Hnear in Hk. by eapply survivor_live.
  - intros k x Hk. apply (spent_contents Q P _ _ _ idxQ k x Hco' HrQ HQ HclQ Hk). rewrite Hfar in Hk. by eapply survivor_live.
  - apply similar_roots; [apply Hs | apply Hs' | |].
    + intros k. rewrite Hnear, Hfar. by apply newer_agrees.
    + destruct (trees _ _ _ (party_peace P Q Hco idx Ha) (e_files (d_near s))) as (t & _ & Ht & _); [apply inv_keyed, Hs | apply Hs | by exists t].
Qed.

(** Any run can be carried to its end. *)
Lemma duo_finishes P Q s n :
  compatible (p_files P) (p_files Q) → ready P Q → ready Q P → (∀ k, ¬ unknown_tombstone (p_files P !! k) (p_files Q !! k)) →
  duo_inv P Q s n → ∃ k s', nsteps (duo_step P Q) k s s' ∧ synchronised P Q (p_files P) (p_files Q) s'.
Proof.
  intros Hco HrP HrQ Hun. revert s. induction (lt_wf n) as [n _ IH]. intros s Hi.
  destruct (duo_end P Q s n Hco HrP HrQ Hun Hi) as [[s1 Hs1] | Hend]; [| exists 0%nat, s; split; [apply nsteps_O | done]].
  destruct (duo_moves P Q s s1 n Hco HrP HrQ Hi Hs1) as (n1 & Hlt & Hi1). destruct (IH n1 Hlt s1 Hi1) as (k & s' & Hk & Hend).
  exists (S k), s'. split; [by eapply nsteps_l | done].
Qed.

(** The invariant at the start, with what the run may cost. *)
Lemma duo_start P Q :
  duo_inv P Q (mkDuo (p_start P) (p_start Q) [MIndex (p_index P)] [MIndex (p_index Q)])
    (2 * size (openset (p_cfg P) (p_files Q) (p_files P)) + 2 * size (openset (p_cfg Q) (p_files P) (p_files Q)) + 2)%nat.
Proof.
  eexists Waiting, Waiting, _, _. split_and!.
  - cbn. split_and!; [done | by exists [] | done].
  - cbn. split_and!; [done | by exists [] | done].
  - intros k l t Hl _ _. by left.
  - intros k l t Hl _ _. by left.
  - cbn. lia.
Qed.

(** The paths at which two sets differ; a run costs two moves each. *)
Definition differing (fX fY : Files) : gset bytes := filter (λ k, fX !! k ≠ fY !! k) (dom fX ∪ dom fY).
Lemma elem_differing fX fY k : k ∈ differing fX fY ↔ fX !! k ≠ fY !! k.
Proof.
  unfold differing. rewrite elem_of_filter, elem_of_union, !elem_of_dom. split; [by intros [? _] |]. intros Hne. split; [done |].
  destruct (fX !! k), (fY !! k); [left; eauto | left; eauto | right; eauto | done].
Qed.
Lemma cost_differing P Q :
  compatible (p_files P) (p_files Q) →
  (size (openset (p_cfg P) (p_files Q) (p_files P)) + size (openset (p_cfg Q) (p_files P) (p_files Q)) ≤ size (differing (p_files P) (p_files Q)))%nat.
Proof.
  intros Hco. pose proof (compatible_sym _ _ Hco) as Hco'.
  assert (∀ fX fY self k, compatible fX fY → open self fY fX k → fX !! k ≠ fY !! k ∧ newer (fX !! k) (fY !! k) = fY !! k ∧ is_Some (fY !! k)) as Hopen.
  { intros fX fY self k Hc Ho. destruct (open_newer fX fY self Hc fY k (advanced_start fX fY) Ho) as (Hn & r & Hr & Hor).
    split_and!; [| done | eauto]. intros Heq. destruct Hor as [[Hx _] | (l & Hl & Hcmp)]; [congruence |].
    assert (l = r) as -> by congruence. assert (canonical (Version r)) by (apply (canonical_of fX fY Hc k); auto).
    by rewrite (proj2 (Compare_Equal _ _ ltac:(done) ltac:(done))) in Hcmp. }
  rewrite <- size_union.
  - apply subseteq_size. intros k [Hk%elem_openset | Hk%elem_openset]%elem_of_union; apply elem_differing.
    + by apply (Hopen _ _ _ k Hco Hk).
    + apply not_eq_sym. by apply (Hopen _ _ _ k Hco' Hk).
  - intros k Hk%elem_openset Hk'%elem_openset. destruct (open_newer _ _ _ Hco _ k (advanced_start _ _) Hk) as (_ & r & Hr & Hor).
    destruct (open_newer _ _ _ Hco' _ k (advanced_start _ _) Hk') as (_ & l & Hl & Hor').
    destruct Hor as [[Hn _] | (l' & Hl' & Hc)]; [congruence |]. assert (l' = l) as -> by congruence.
    destruct Hor' as [[Hn _] | (r' & Hr' & Hc')]; [congruence |]. assert (r' = r) as -> by congruence.
    rewrite (Compare_flip (Version l)), Hc in Hc'; [done | |]; apply (canonical_of _ _ Hco k); auto.
Qed.
End duo.

(** * Properties *)

(** C1: connected devices synchronise: let two idle devices connect whose records of
    each path are causally ordered or agree (so that nothing is in conflict), neither
    holding a deletion of a path the other never had, each with room for what it would
    adopt and with the contents of its own records on disk; the records are of regular
    files or deletions, no path lies below another, the volumes are case-sensitive, neither
    device is reseeding and no two strings the trees hash collide. Then, whatever the order
    in which their pullers, their loops and the links between them move, with each
    fetch answered by the other's server from its own disk: no run is longer than two
    moves for the INDEXes and two for each path at which they differ; a run that cannot
    go on has ended with both holding exactly the newer records, their contents on
    disk, no deletions, nothing on the way and equal root hashes; and every run can be
    carried to that end. *)
Theorem devices_synchronise `{OS, Digest, Unicode} cfgA cfgB A B hA hB n s :
  able cfgA A (e_files B) → able cfgB B (e_files A) → compatible (e_files A) (e_files B) →
  (∀ k, ¬ unknown_tombstone (e_files A !! k) (e_files B !! k)) →
  in_width 32 (Z.of_nat (size (e_files A))) → in_width 32 (Z.of_nat (size (e_files B))) →
  h_RootHash hA = RootHash (e_tree A) → h_RootHash hB = RootHash (e_tree B) → RootHash (e_tree A) ≠ RootHash (e_tree B) →
  let P := party cfgA A cfgB hB in
  let Q := party cfgB B cfgA hA in
  nsteps (duo_step P Q) n (meeting cfgA cfgB A B hA hB) s →
  (n ≤ 2 + 2 * size (differing (e_files A) (e_files B)))%nat ∧
  ((∀ s', ¬ duo_step P Q s s') → synchronised P Q (e_files A) (e_files B) s) ∧
  ∃ k s', nsteps (duo_step P Q) k s s' ∧ synchronised P Q (e_files A) (e_files B) s'.
Proof.
  intros HA HB Hco Hun HszA HszB HhA HhB Hne P Q Hrun.
  assert (∀ f, (∀ k x, f !! k = Some x → wire_ok x) → Forall wire_ok (set_of f)) as Hwire.
  { intros f Hf. apply Forall_forall. intros x [k Hx]%elem_of_set_of. by apply (Hf k). }
  assert (p_files P = e_files A ∧ p_files Q = e_files B) as [HfP HfQ].
  { split; unfold p_files, P, Q; cbn [p_start party]; unfold met; cbn [handleTransportEvent onPeerConnected]; unfold onPeerConnected, addPeer;
      case_decide; [done | by destruct (buildIndex _ _) | done | by destruct (buildIndex _ _)]. }
  destruct (met_ready cfgA A cfgB hB Q) as (HrP & _ & HsP);
    [by rewrite HfQ | done | congruence | apply Hwire; intros k x Hx; apply (co_wire _ _ Hco k); auto | done |].
  destruct (met_ready cfgB B cfgA hA P) as (HrQ & _ & HsQ);
    [by rewrite HfP | done | congruence | apply Hwire; intros k x Hx; apply (co_wire _ _ Hco k); auto | done |].
  fold P in HrP, HsP. fold Q in HrQ, HsQ. rewrite <- HfP, <- HfQ in Hco, Hun |- *.
  assert (meeting cfgA cfgB A B hA hB = mkDuo (p_start P) (p_start Q) [MIndex (p_index P)] [MIndex (p_index Q)]) as Hstart.
  { unfold meeting. f_equal; [exact HsP | exact HsQ]. }
  rewrite Hstart in Hrun. clearbody P Q. destruct (duo_run P Q n _ s _ Hco HrP HrQ Hrun (duo_start P Q)) as (n' & Hle & Hi).
  pose proof (cost_differing P Q Hco). split_and!; [lia | |].
  - intros Hstuck. destruct (duo_end P Q s n' Hco HrP HrQ Hun Hi) as [[s' Hs'] | ?]; [by destruct (Hstuck s') | done].
  - by apply (duo_finishes P Q s n').
Qed.

(** ** Witness

    The story's devices, which agreed, meet again after A has edited the file. *)
Section duo_witness.
#[local] Existing Instance toy_digest.

Lemma mixed_single k (x y : FileInfo) f :
  mixed {[ k := x ]} {[ k := y ]} f → f = ∅ ∨ f = {[ k := x ]} ∨ f = {[ k := y ]}.
Proof.
  intros Hm. assert (∀ k', k' ≠ k → f !! k' = None) as Hother.
  { intros k' Hne. specialize (Hm k'). rewrite !lookup_singleton_ne in Hm by done. naive_solver. }
  assert (∀ o : option FileInfo, f !! k = o → f = match o with Some u => {[ k := u ]} | None => ∅ end) as Hf.
  { intros o Ho. apply map_eq. intros k'. destruct (decide (k' = k)) as [-> | Hne].
    - rewrite Ho. destruct o; [by rewrite lookup_singleton_eq | by rewrite lookup_empty].
    - rewrite Hother by done. destruct o; [by rewrite lookup_singleton_ne | by rewrite lookup_empty]. }
  specialize (Hm k). rewrite !lookup_singleton_eq in Hm. destruct Hm as [Hm | [Hm | Hm]]; apply Hf in Hm; auto.
Qed.

Lemma compatible_single k x y :
  Path x = k → Path y = k → wire_ok x → wire_ok y → ordered x y → path_ok k →
  Forall (λ p, collision_free (preimages (tree_of p.1) ++ preimages (tree_of p.2))) (list_prod [[]; [x]; [y]] [[]; [x]; [y]]) →
  compatible {[ k := x ]} {[ k := y ]}.
Proof.
  intros Hx Hy Hwx Hwy Ho Hk Hcf. rewrite Forall_forall in Hcf.
  assert (∀ k', is_Some (({[ k := x ]} : Files) !! k') ∨ is_Some (({[ k := y ]} : Files) !! k') → k' = k) as Hkn.
  { intros k' [[u [-> _]%lookup_singleton_Some] | [u [-> _]%lookup_singleton_Some]]; done. }
  assert (∀ f, mixed {[ k := x ]} {[ k := y ]} f → set_of f ∈ [[]; [x]; [y]]) as Hset.
  { intros f [-> | [-> | ->]]%mixed_single; unfold set_of; rewrite ?map_to_list_empty, ?map_to_list_singleton; cbn; rewrite !elem_of_cons; auto. }
  split.
  - split; by apply map_Forall_singleton.
  - intros k' u. rewrite !lookup_singleton_Some. naive_solver.
  - intros k' l r. rewrite !lookup_singleton_Some. naive_solver.
  - intros k' ->%Hkn. done.
  - intros k1 k2 ->%Hkn ->%Hkn. done.
  - intros f g t u _ _ Hf%Hset Hg%Hset Ht Hu.
    assert (t = tree_of (set_of f)) as -> by (unfold tree_of; by rewrite Ht). assert (u = tree_of (set_of g)) as -> by (unfold tree_of; by rewrite Hu).
    apply (Hcf (set_of f, set_of g)). apply list_elem_of_In, in_prod; by apply list_elem_of_In.
Qed.

Definition a_apart : Engine := handleTransportEvent home a_again (PeerDisconnected (device "B")).
Definition b_apart : Engine := handleTransportEvent away b_synced (PeerDisconnected (device "A")).
Definition a_hello : Hello := mkHello 1 (device "A") (go! "folder") (RootHash (e_tree a_apart)) 0.
Definition b_hello : Hello := mkHello 1 (device "B") (go! "folder") (RootHash (e_tree b_apart)) 0.

Lemma apart_files : e_files a_apart = {[ note := again_note ]} ∧ e_files b_apart = {[ note := edited_note ]}.
Proof. split; apply single_record; vm_compute; reflexivity. Qed.

(** One file on record and on disk, and the verdict on it. *)
Lemma able_single cfg e x y z c m ts :
  reachable cfg e → e_peers e = ∅ → e_completions e = [] → e_reseed e = false → cfg_caseSensitive cfg = true →
  e_files e = {[ note := x ]} → outcome (Some x) (resolve (Some x) (Some y) (selfShort cfg)) = Some z → Type_ z = TypeFile →
  e_disk e !! note = Some (EFile c m ts) → sum256 c = ContentHash x → Size x = Z.of_nat (length c) → Size x < 2 ^ 63 →
  able cfg e {[ note := y ]}.
Proof.
  intros Hr Hpe Hcs Hre Hca Hf Hz Ht Hd Hsum Hsz Hmax. split; try done; rewrite Hf.
  - by intros k u [-> ->]%(wanted_single cfg x y z).
  - intros k u [-> ->]%(wanted_single cfg x y z); [| done]. by apply (room_note e c m ts).
  - intros k u [<- <-]%lookup_singleton_Some _. by exists c, m, ts.
Qed.

Lemma a_able : able home a_apart {[ note := edited_note ]}.
Proof.
  apply (able_single home a_apart again_note edited_note again_note (go! "v2") 420 4000000000).
  - eapply reachable_step; [exact again_reachable | apply step_transport].
  - apply (bool_decide_unpack _). vm_compute. exact I.
  - vm_compute. reflexivity.
  - vm_compute. reflexivity.
  - reflexivity.
  - apply apart_files.
  - vm_compute. reflexivity.
  - reflexivity.
  - vm_compute. reflexivity.
  - vm_compute. reflexivity.
  - reflexivity.
  - width. cbn. lia.
Qed.
Lemma b_able : able away b_apart {[ note := again_note ]}.
Proof.
  apply (able_single away b_apart edited_note again_note again_note (go! "v1") 384 7).
  - eapply reachable_step; [exact b_synced_reachable | apply step_transport].
  - apply (bool_decide_unpack _). vm_compute. exact I.
  - vm_compute. reflexivity.
  - vm_compute. reflexivity.
  - reflexivity.
  - apply apart_files.
  - vm_compute. reflexivity.
  - reflexivity.
  - vm_compute. reflexivity.
  - vm_compute. reflexivity.
  - reflexivity.
  - width. cbn. lia.
Qed.

Lemma notes_compatible : compatible {[ note := again_note ]} {[ note := edited_note ]}.
Proof.
  apply compatible_single; [reflexivity | reflexivity | apply again_wire | apply again_wire | vm_compute; exact I | apply note_ok |].
  apply (bool_decide_unpack _). vm_compute. exact I.
Qed.

Definition b_meets : Party := party away b_apart home a_hello.
Definition a_meets : Party := party home a_apart away b_hello.

Lemma devices_synchronise_witness :
  size (differing (e_files a_apart) (e_files b_apart)) = 1%nat ∧
  ∃ k s, nsteps (duo_step a_meets b_meets) k (meeting home away a_apart b_apart a_hello b_hello) s ∧
    e_files (d_near s) !! note = Some again_note ∧ e_files (d_far s) !! note = Some again_note ∧
    has_content (e_disk (d_far s)) again_note ∧ RootHash (e_tree (d_near s)) = RootHash (e_tree (d_far s)).
Proof.
  destruct apart_files as [Ha Hb]. split; [rewrite Ha, Hb; vm_compute; reflexivity |].
  destruct (devices_synchronise home away a_apart b_apart a_hello b_hello 0 (meeting home away a_apart b_apart a_hello b_hello))
    as (_ & _ & k & s & Hk & [_ Hn Hf _ Hc Hroot]).
  - rewrite Hb. exact a_able.
  - rewrite Ha. exact b_able.
  - rewrite Ha, Hb. exact notes_compatible.
  - intros k. rewrite Ha, Hb. intros [(t & [<- <-]%lookup_singleton_Some & Hd & _) | (t & [<- <-]%lookup_singleton_Some & Hd & _)]; discriminate Hd.
  - rewrite Ha, map_size_singleton. width. lia.
  - rewrite Hb, map_size_singleton. width. lia.
  - reflexivity.
  - reflexivity.
  - vm_compute. discriminate.
  - apply nsteps_O.
  - assert (e_files (d_far s) !! note = Some again_note) as Hfar by (rewrite Hf, Ha, Hb, !lookup_singleton_eq; vm_compute; reflexivity).
    exists k, s. split_and!; [exact Hk | rewrite Hn, Ha, Hb, !lookup_singleton_eq; vm_compute; reflexivity | exact Hfar | by apply (Hc note) | exact Hroot].
Defined.
End duo_witness.
