(* ===== verification/Branch.v ===== *)
(** * Branch: an update touches one branch of the tree (tree.go)

    [nodeHashes] lists the hash of every node under its path. An update changes it
    at the nodes from the root to the record, and nowhere else: no other directory is
    hashed again. *)
From S2P Require Import Prelude Bytes VersionVector Framing Messages Windows Pathnorm Hashing FileInfo Tree Oracle Differ.

(** The closure [walk] of nodeHashes, from a node on; what children add overrides. *)
Fixpoint hashes_below (n : Node) : bytes → gmap bytes bytes :=
  match n with
  | LeafNode _ _ h => λ prefix, {[ prefix := h ]}
  | DirNode _ ch h =>
    let below := hashes_below <$> ch in
    λ prefix, map_fold (λ name f out, f (child_path prefix name) ∪ out) {[ prefix := h ]} below
  end.
Definition nodeHashes (t : option Node) : gmap bytes bytes :=
  match t with Some root => hashes_below root [] | None => ∅ end.

Section branch.
Context `{Digest}.

(** ** The nodes off the branch *)

Lemma walk_leaf nm fi h q : q ≠ [] → walk (LeafNode nm fi h) q = None.
Proof. by destruct q. Qed.
Lemma walk_new_dir nm q : q ≠ [] → walk (new_dir nm) q = None.
Proof. by destruct q. Qed.

Lemma cowUpsert_off_branch n comps fi n' q :
  cowUpsert n comps fi = Ok n' → ¬ q `prefix_of` comps → walk n' q = walk n q.
Proof.
  revert n n' q. induction comps as [|k comps IH]; intros n n' q Hc Hq; (destruct q as [|k' q]; [destruct Hq; apply prefix_nil |]).
  - by destruct n.
  - destruct n as [|nm ch h]; [done |]. assert (∀ c c' : option Node, (k = k' → c ≫= (λ c, walk c q) = c' ≫= (λ c, walk c q)) →
      (if decide (k = k') then c else child (DirNode nm ch h) k') ≫= (λ c, walk c q) =
      (if decide (k = k') then c' else child (DirNode nm ch h) k') ≫= (λ c, walk c q)) as Hif by (intros c c' Heq; case_decide; auto).
    assert (k = k' → ¬ q `prefix_of` comps) as Hq' by (intros <- Hp; by apply Hq, prefix_cons).
    assert (∀ c', (k = k' → walk c' q = ch !! k ≫= λ c, walk c q) → walk (DirNode nm (<[k := c']> ch) h) (k' :: q) = walk (DirNode nm ch h) (k' :: q)) as Hput.
    { intros c' Heq. cbn [walk child]. destruct (decide (k = k')) as [<- | Hne]; [| by rewrite lookup_insert_ne].
      rewrite lookup_insert_eq, Heq by done. by destruct (ch !! k). }
    destruct (decide (comps = [])) as [-> | Hne].
    + cbn in Hc. apply rbind_Ok in Hc as (kids & Hk & Heq). apply Ok_inj in Heq as <-.
      change (walk (DirNode nm kids h) (k' :: q) = walk (DirNode nm ch h) (k' :: q)).
      assert (k = k' → q ≠ []) as Hnn by (intros Hkk ->; by apply (Hq' Hkk), prefix_nil).
      destruct (ch !! k) as [[? ? ? |] |] eqn:Hck; [| done |]; apply Ok_inj in Hk as <-; apply Hput; intros Hkk;
          rewrite walk_leaf by auto; [cbn; by rewrite walk_leaf by auto | done].
    + rewrite cowUpsert_cons in Hc by done. apply rbind_Ok in Hc as (c' & Hc & Heq). apply Ok_inj in Heq as <-.
      change (walk (DirNode nm (<[k := c']> ch) h) (k' :: q) = walk (DirNode nm ch h) (k' :: q)). apply Hput. intros Hkk.
      rewrite (IH _ _ _ Hc (Hq' Hkk)). destruct (ch !! k); [done |]. apply walk_new_dir. intros ->. by apply (Hq' Hkk), prefix_nil.
Qed.

(** ** What [nodeHashes] lists *)

Lemma walk_comps n q c : wf_tree n → walk n q = Some c → Forall comp_ok q.
Proof.
  revert n. induction q as [|k q IH]; intros n Hwf Hw; [done |]. cbn [walk] in Hw. destruct (child n k) as [c' |] eqn:Hc; [| done].
  destruct (wf_child _ _ _ _ _ Hwf Hc) as (Hwf' & _ & Hk & _). constructor; [done | by apply (IH c')].
Qed.

Lemma join_comps_inj p q : Forall comp_ok p → Forall comp_ok q → join_with [slash_c] p = join_with [slash_c] q → p = q.
Proof.
  intros Hp Hq Heq. assert (∀ l, Forall comp_ok l → Forall (λ c, slash_c ∉ c) l) as Hs by (intros l Hl; eapply Forall_impl; [exact Hl | by intros c (_ & _ & ?)]).
  destruct (decide (p = [])) as [-> | Hpn]; [symmetry in Heq |- *; by apply join_comp_nil |].
  destruct (decide (q = [])) as [-> | Hqn]; [by apply join_comp_nil |].
  rewrite <- (split_join slash_c p), <- (split_join slash_c q) by auto. by rewrite Heq.
Qed.
(** Folding maps that have no key in common. *)
Lemma fold_union {A} (g : bytes → A → gmap bytes bytes) (base : gmap bytes bytes) m p h :
  (∀ k1 k2 x1 x2, m !! k1 = Some x1 → m !! k2 = Some x2 → k1 ≠ k2 → g k1 x1 ##ₘ g k2 x2) →
  (∀ k x, m !! k = Some x → g k x ##ₘ base) →
  map_fold (λ k x out, g k x ∪ out) base m !! p = Some h ↔ base !! p = Some h ∨ ∃ k x, m !! k = Some x ∧ g k x !! p = Some h.
Proof.
  apply (map_fold_weak_ind (λ out (m : gmap bytes A), (∀ k1 k2 x1 x2, m !! k1 = Some x1 → m !! k2 = Some x2 → k1 ≠ k2 → g k1 x1 ##ₘ g k2 x2) →
    (∀ k x, m !! k = Some x → g k x ##ₘ base) →
    out !! p = Some h ↔ base !! p = Some h ∨ ∃ k x, m !! k = Some x ∧ g k x !! p = Some h)); clear m.
  - intros _ _. split; [by left | intros [? | (k & x & Hk & _)]; [done | by rewrite lookup_empty in Hk]].
  - intros k x m out Hk IH Hdis Hbase.
    assert (∀ k' x', m !! k' = Some x' → (<[k := x]> m) !! k' = Some x' ∧ k' ≠ k) as Hin.
    { intros k' x' Hk'. assert (k' ≠ k) as Hne by congruence. by rewrite lookup_insert_ne. }
    rewrite lookup_union_Some_raw, IH.
    + split.
      * intros [Hg | (_ & [Hb | (k' & x' & Hk' & Hg)])]; [| by left |].
        { right. exists k, x. by rewrite lookup_insert_eq. }
        right. exists k', x'. split; [by apply Hin | done].
      * intros [Hb | (k' & x' & Hk' & Hg)].
        { right. split; [| by left]. destruct (g k x !! p) eqn:Hgp; [| done].
          by destruct (map_disjoint_spec (g k x) base) as [Hsp _]; destruct (Hsp (Hbase k x (lookup_insert_eq _ _ _)) p _ _ Hgp Hb). }
        destruct (decide (k' = k)) as [-> | Hne]; [left; rewrite lookup_insert_eq in Hk'; congruence |].
        rewrite lookup_insert_ne in Hk' by done. right. split; [| right; by exists k', x'].
        destruct (g k x !! p) eqn:Hgp; [| done]. destruct (map_disjoint_spec (g k x) (g k' x')) as [Hsp _].
        destruct (Hin k' x' Hk') as [Hk2 _]. by destruct (Hsp (Hdis k k' x x' (lookup_insert_eq _ _ _) Hk2 ltac:(done)) p _ _ Hgp Hg).
    + intros k1 k2 x1 x2 H1' H2'. apply Hdis; by apply Hin.
    + intros k' x' Hk'. apply Hbase. by apply Hin.
Qed.

Lemma hashes_below_spec n pre p h :
  wf_tree n → Forall comp_ok pre →
  hashes_below n (join_with [slash_c] pre) !! p = Some h ↔ ∃ q c, walk n q = Some c ∧ p = join_with [slash_c] (pre ++ q) ∧ h = node_hash c.
Proof.
  intros Hwf. revert pre p h. induction Hwf as [nm fi | nm ch Hwf IH Hk]; intros pre p h Hpre; cbn [hashes_below].
  - rewrite lookup_singleton_Some. split.
    + intros [<- <-]. exists [], (LeafNode nm fi (leafHash fi)). by rewrite app_nil_r.
    + intros ([|k q] & c & Hw & -> & ->); [| done]. injection Hw as <-. by rewrite app_nil_r.
  - set (g := λ k (f : bytes → gmap bytes bytes), f (child_path (join_with [slash_c] pre) k)).
    change (map_fold (λ name f out, f (child_path (join_with [slash_c] pre) name) ∪ out) ?b ?m) with (map_fold (λ k f out, g k f ∪ out) b m).
    assert (∀ k f p h, (hashes_below <$> ch) !! k = Some f → g k f !! p = Some h ↔
      ∃ c q c', ch !! k = Some c ∧ walk c q = Some c' ∧ p = join_with [slash_c] (pre ++ k :: q) ∧ h = node_hash c') as Hg.
    { clear p h. intros k f p h (c & <- & Hc)%lookup_fmap_Some. unfold g. rewrite child_path_join by done.
      rewrite (IH k c Hc) by (apply Forall_app; split; [done | constructor; [apply (Hk k c Hc) | constructor]]).
      setoid_rewrite <- app_assoc. cbn [app]. split; [intros (q & c' & ?); by exists c, q, c' | intros (c0 & q & c' & ? & ?)].
      assert (c0 = c) as -> by congruence. by exists q, c'. }
    assert (∀ k c q c', ch !! k = Some c → walk c q = Some c' → Forall comp_ok (pre ++ k :: q)) as Hok.
    { intros k c q c' Hc Hw. apply Forall_app. split; [done |].
      constructor; [by apply (Hk k c) | exact (walk_comps c q c' (Hwf k c Hc) Hw)]. }
    rewrite fold_union.
    + rewrite lookup_singleton_Some. split.
      * intros [[<- <-] | (k & f & Hf & Hgp)]; [exists [], (DirNode nm ch (hashFromChildren ch)); by rewrite app_nil_r |].
        apply (Hg k f _ _ Hf) in Hgp as (c & q & c' & Hc & Hw & -> & ->). exists (k :: q), c'. cbn [walk child]. by rewrite Hc.
      * intros ([|k q] & c' & Hw & -> & ->); [left; injection Hw as <-; by rewrite app_nil_r | right].
        cbn [walk child] in Hw. destruct (ch !! k) as [c |] eqn:Hc; [| done]. exists k, (hashes_below c).
        assert ((hashes_below <$> ch) !! k = Some (hashes_below c)) as Hf by by rewrite lookup_fmap, Hc.
        split; [done |]. apply (Hg k _ _ _ Hf). by exists c, q, c'.
    + intros k1 k2 f1 f2 Hf1 Hf2 Hne. apply map_disjoint_spec. intros p' h1 h2 (c1 & q1 & c1' & Hc1 & Hw1 & -> & _)%(Hg k1 f1 _ _ Hf1)
        (c2 & q2 & c2' & Hc2 & Hw2 & Hj & _)%(Hg k2 f2 _ _ Hf2).
      apply join_comps_inj in Hj; [apply (inj (app pre)) in Hj; congruence | |]; by eapply Hok.
    + intros k f Hf. apply map_disjoint_spec. intros p' h1 h2 (c & q & c' & Hc & Hw & -> & _)%(Hg k f _ _ Hf) [Hj _]%lookup_singleton_Some.
      apply join_comps_inj in Hj; [| done |].
      * rewrite <- (app_nil_r pre) in Hj at 1. by apply (inj (app pre)) in Hj.
      * by eapply Hok.
Qed.

(** The components of a path; the root has none. *)
Definition path_comps (p : bytes) : list bytes := match p with [] => [] | _ => split_on slash_c p end.

Lemma path_comps_join q : Forall comp_ok q → path_comps (join_with [slash_c] q) = q.
Proof.
  intros Hq. unfold path_comps. destruct (join_with [slash_c] q) eqn:Hj; [symmetry; by apply join_comp_nil |]. rewrite <- Hj.
  apply split_join; [by intros -> | eapply Forall_impl; [exact Hq | by intros c (_ & _ & ?)]].
Qed.

Lemma nodeHashes_spec t p : wf_tree t → nodeHashes (Some t) !! p = node_hash <$> walk t (path_comps p).
Proof.
  intros Hwf. pose proof (λ h, hashes_below_spec t [] p h Hwf (Forall_nil_2 _)) as Hsp. cbn [app join_with] in Hsp.
  destruct (walk t (path_comps p)) as [c |] eqn:Hw; cbn.
  - apply Hsp. exists (path_comps p), c. split_and!; [done | | done]. unfold path_comps. destruct p; [done |]. by rewrite join_split.
  - destruct (nodeHashes (Some t) !! p) as [h |] eqn:Hh; [| done]. apply Hsp in Hh as (q & c & Hq & -> & _).
    rewrite path_comps_join in Hw by by eapply walk_comps. congruence.
Qed.
End branch.

(** * Properties *)

(** C23: an update touches one branch: for a tree built of any records and any record
    that can be placed in it, the update changes what nodeHashes lists, hash or
    presence, only at the record's path, at its ancestors and at the root; every
    other node, and its hash, is the one that was there. *)
Theorem Update_minimal_branch `{Digest} set t fi t' p :
  BuildTree set = Ok t → Update (Some t) fi = Ok t' → p ≠ [] → ¬ split_on slash_c p `prefix_of` split_on slash_c (Path fi) →
  nodeHashes (Some t') !! p = nodeHashes (Some t) !! p.
Proof.
  intros Hb Hu Hp Hq. pose proof (BuildTree_spec set) as Hs. rewrite Hb in Hs. destruct Hs as (_ & Hwf & _).
  pose proof Hu as Hb'. rewrite (Update_rebuild set t fi Hb) in Hb'. pose proof (BuildTree_spec (upsert fi set)) as Hs'. rewrite Hb' in Hs'.
  destruct Hs' as (_ & Hwf' & _). rewrite !nodeHashes_spec by done. f_equal. unfold path_comps. destruct p; [done |].
  unfold Update in Hu. apply rbind_Ok in Hu as (comps & Hc & Hu). pose proof (splitPathComponents_spec (Path fi)) as Hsp. rewrite Hc in Hsp.
  destruct Hsp as [-> _]. by apply (cowUpsert_off_branch t (split_on slash_c (Path fi)) fi).
Qed.

Section branch_witness.
#[local] Existing Instance toy_digest.
Lemma Update_minimal_branch_witness :
  let before := [file_at (go! "a/x") []; file_at (go! "b/z") []] in
  ∃ t t', BuildTree before = Ok t ∧ Update (Some t) (file_at (go! "a/y") []) = Ok t' ∧
    nodeHashes (Some t') !! go! "b" = nodeHashes (Some t) !! go! "b" ∧ is_Some (nodeHashes (Some t) !! go! "b") ∧
    nodeHashes (Some t') !! go! "a" ≠ nodeHashes (Some t) !! go! "a".
Proof.
  intros before. destruct (BuildTree before) as [t |] eqn:Hb; [| exfalso; vm_compute in Hb; discriminate].
  destruct (Update (Some t) (file_at (go! "a/y") [])) as [t' |] eqn:Hu.
  2:{ exfalso. vm_compute in Hb. injection Hb as <-. vm_compute in Hu. discriminate. }
  exists t, t'. split; [first [exact Hb | reflexivity] |]. split; [exact Hu |]. split.
  - apply (Update_minimal_branch before t (file_at (go! "a/y") []) t' (go! "b")); [exact Hb | exact Hu | discriminate |].
    intros Hp. apply (bool_decide_pack _) in Hp. vm_compute in Hp. exact Hp.
  - vm_compute in Hb. injection Hb as <-. vm_compute in Hu. injection Hu as <-. split; [vm_compute; eauto | vm_compute; discriminate].
Defined.
End branch_witness.
